(* ===== verification/_CoqProject ===== *)
-Q . S2P
Prelude.v
Bytes.v
Page.v
Fsm.v
Tuple.v
Strconv.v
Json.v
RowCodec.v
Crypto.v
WalPayload.v
WalRecord.v
WalLog.v
TxManager.v
Bitmap.v
Deadlock.v
Locks.v
Raft.v
Float64.v
Eval.v
Vm.v
Like.v
BufferPool.v
Joins.v
Coerce.v
Index.v
Engine.v
EngineSpec.v
Lexer.v
Parser.v
ParserSpec.v
Grammar.v
FormatSpec.v
Statements.v
StatementsSpec.v
Partition.v
Auth.v
Spill.v
Overlay.v
AuditLog.v
