(* ===== verification/Prelude.v ===== *)
(** * VaultDB: a verification library

    VaultDB is an SQL database server in Go ([src/server]).  A statement comes in
    over HTTP or a socket, is authenticated, read by the lexer and the parser, and
    run by the executor: rows are filtered, joined and converted to the types of
    their columns.  Inside a transaction its changes are buffered and applied at
    COMMIT.  The storage engine keeps the rows as versioned tuples on slotted
    pages, behind a buffer pool, a free space map and secondary indexes, and
    writes a log from which a crash is recovered.  Beside these stand locks,
    encryption, replication and an audit log.  The files below follow this path
    from the bytes up.

    ** How the code is modelled

    The definitions are translated from the sources and keep their names.  A
    function is a Rocq function; one that fails returns an [option] or an
    [outcome], with [Panic] for an index out of range; one with state is a state
    transformer, or takes and returns the state; goroutines are steps of a
    relation or of a sequence, one step for each time a lock is held.  Integers
    are [Z] with the wrap of their width written out ([u8] to [u64], [s64]);
    bytes are lists of [byte]; SQL text is a list of runes; floats are those of
    [SpecFloat].  What is not in the sources is an argument with named laws: a
    class where several lemmas share it (AES-GCM, the B-tree of a third party,
    JSON, Unicode case, the calls of the operating system, which may fail).
    Every law has an instance in the witness of the theorem that uses it.

    ** The files

    Bytes and numbers.
    - [Prelude]: machine integers, outcomes, the state monad, tactics.
    - [Bytes]: slices, little-endian accessors, CRC-32, and what it detects.
    - [Strconv], [Float64]: decimal integers and IEEE doubles.

    Pages and tuples ([core/storage]).
    - [Page] ([page/page.go], [itemptr.go]): a page refines a list of slots with
      a byte budget ([page_refines_slots]); compaction keeps the live tuples.
    - [Fsm] ([fsm/fsm.go]): the tree refines the list of the free space of pages
      ([fsm_refines_list]); a search finds the first page that qualifies.
    - [Tuple], [RowCodec], [Json] ([page/tuple.go], [binary_encoding.go],
      [json_decode.go]): the two-pass encoder equals the reference encoder, and
      what is encoded is decoded.
    - [BufferPool] ([buffer_pool.go]): under any failures of the disk and the log
      a page read is the page last written, and pins and counts keep their bounds.
    - [Engine], [EngineSpec] ([page_engine_io.go], [page_engine_index.go],
      [page_engine_vacuum.go]): the engine for one table refines a table with a
      history, every past state readable ([engine_refines_table]).
    - [Index] ([core/index]): hash, tree and composite indexes refine a map from
      keys to positions.
    - [Bitmap], [Partition] ([bitmap.go], [partition.go]): a SELECT that reads only
      the partitions its clause leaves finds every row the clause accepts.
    - [Deadlock], [Locks] ([deadlock.go], [lock_manager.go], [lwlock.go],
      [page_lock.go]): detection is exact, row locks exclude, spin locks exclude
      and page locks make progress, over all interleavings.

    The log ([core/wal]), encryption ([core/crypto]), replication ([cluster]).
    - [WalPayload], [WalRecord], [WalLog] ([wal.go], [recovery.go], [pitr.go]):
      records round-trip and damage is detected; acknowledged records survive
      faults of system calls and a crash in the middle of an append; scanning
      ends; recovery splits transactions as the log says.
    - [Crypto] ([manager.go], [tde.go]): what was encrypted stays readable over
      key rotations.
    - [Raft] ([raft/node.go], [replication.go], [snapshot_stream.go],
      [tx2pc/2pc.go]): one leader in a term, from votes that lock as the code does.

    Transactions ([core/txmanager] and the executor).
    - [TxManager] ([manager.go], [ssi.go], [predicate_lock.go],
      [ddl_rollback.go]): the buffer with its spill file and savepoints refines a
      list with named prefixes; a transaction that commits has read the current
      contents of the tables it read; a rollback undoes DDL.
    - [Spill] ([executor/tx_overlay.go]): the codec of the spill file, which is the
      line codec that [TxManager] asks for; what a line keeps of a statement.
    - [Overlay] ([tx_overlay.go], [commands/tx/tx.go], [commands/dml]): a transaction
      reads, through the overlay of its buffered statements, the table that its
      COMMIT makes ([reads_own_writes]).

    Expressions ([core/executor]).
    - [Eval] ([eval.go], [eval/operators.go], [compare.go]): comparison orders the
      values of a column; [Like] ([eval/like.go]): LIKE is what its pattern says.
    - [Vm] ([eval/vm], [parallel/parallel.go]): compiled clauses agree with the
      evaluator, on rows and on encoded tuples, and so do the filters that use them.
    - [Joins] ([commands/sel/joins.go]): hash joins and nested loops compute the
      join of the rows the condition accepts.
    - [Coerce] ([types/eval.go], [storage/normalize.go]): a row that is accepted
      has the types of its columns.

    Language ([core/lexer], [core/parser]).
    - [Lexer] ([lexer.go]): the tokens of a written token list are the list.
    - [Parser], [ParserSpec], [Grammar], [FormatSpec] ([ast.go], [parse_utils.go],
      [parse_select.go], [parser.go]): the parser ends on every text, reads every
      sentence of the grammar as its tree, and reads back what [FormatExpression]
      writes, for the trees that need no other parentheses.
    - [Statements], [StatementsSpec] ([parse_dml.go], [parse_ddl*.go],
      [parse_copy.go], [parse_misc.go]): all other statements; [parse] is total.

    Access.
    - [Auth] ([auth/manager.go]): failed attempts are bounded over any sequence of
      requests, and a revoked token stays revoked over restarts.
    - [AuditLog] ([core/audit]): the log of a run verifies whatever the storage
      refuses, and its last hash commits to every entry, or gives a collision.

    The components meet at interfaces: [Index] is a class that [Engine] uses, and
    [BTreeLib] the class of the tree under one of its instances; [Engine] takes pages as the lists of slots that [Page] refines
    and tuples as the bytes of [RowCodec]; [Joins], [Vm] and [Partition] use the
    evaluator of [Eval]; [TxManager] takes a line codec that [Spill] provides.

    ** Bounds and fuel

    Recursion that is not structural has fuel, and a lemma that the fuel given is
    enough: two levels per token for the parser ([parse_total]; the depth limit of
    32 of the code is part of the model), a token per rune for the lexer, the
    length of the file for the scan of the log ([scan_total]), the length of a
    text for the loops of LIKE, two rounds for the eviction loop of the buffer
    pool, 19 and 20 digits for 64-bit integers.  The two loops of the code that do
    not end, in [Fsm] for more than 2^31 pages and in the formatting of index keys,
    are shown to need more than any fuel.  Transaction ids are below 2^48 where
    the flags of a tuple share their word.

    ** Where the code differs from its intent

    The examples at the end of the files evaluate the model on inputs where the
    code does not do what its comments or its callers expect; the theorems
    exclude these inputs by named hypotheses ([plainSchema], [freshName],
    [separable], [shaped] and the like).

    ** Not modelled

    - Grouping, window functions, ordering, projection and subqueries of SELECT,
      the built-in functions, WITH and PL/pgSQL: they range over the library of
      built-in functions, which is text formatting and packages of the Go library.
    - Foreign keys, cascades, unique and CHECK constraints and triggers, which are
      arguments of the statements in [Overlay]; MERGE and COPY; the undo of a
      commit that failed half-way.
    - Catalog and heap files, memory maps, checkpoints, group commit and the other
      jobs of timers and goroutines: their effect on the modelled state is a
      fault or an interleaving that the theorems quantify over.
    - GIN, GiST, expression and partial indexes, full-text ranking, TOAST, the
      optimizer's estimates and the caches of plans and results.
    - The HTTP and PostgreSQL front ends, sessions, configuration, backup, metrics,
      AI and WASM calls, the clients and tools: input and output, and wiring. *)

From stdpp Require Export base numbers list gmap strings sorting.
From coqutil Require Export Byte Word.LittleEndianList.
From Stdlib Require Export Lia ZArith.

#[global] Open Scope Z_scope.
#[global] Set Default Goal Selector "!".

(** ** Machine integers

    Go's fixed-width unsigned arithmetic wraps; every wrap of the source is
    written with one of these. *)

Definition u8 (z : Z) : Z := z mod 2 ^ 8.
Definition u16 (z : Z) : Z := z mod 2 ^ 16.
Definition u32 (z : Z) : Z := z mod 2 ^ 32.
Definition u64 (z : Z) : Z := z mod 2 ^ 64.

(** Conversion [int64(x)] of an unsigned 64-bit value (two's complement). *)
Definition s64 (z : Z) : Z := (z + 2 ^ 63) mod 2 ^ 64 - 2 ^ 63.

(** ** Outcomes

    A Go function returns a value, returns an error, or panics (a slice or
    index out of range). *)

Inductive outcome (E A : Type) : Type :=
| Ok (a : A)
| Err (e : E)
| Panic.
Arguments Ok {E A} a.
Arguments Err {E A} e.
Arguments Panic {E A}.

#[export] Instance outcome_ret {E} : MRet (outcome E) := λ A a, Ok a.
#[export] Instance outcome_bind {E} : MBind (outcome E) := λ A B f m,
  match m with Ok a => f a | Err e => Err e | Panic => Panic end.
#[export] Instance outcome_fmap {E} : FMap (outcome E) := λ A B f m,
  match m with Ok a => Ok (f a) | Err e => Err e | Panic => Panic end.

(** A run-time check: [None] is a panic. *)
Definition must {E A} (o : option A) : outcome E A :=
  match o with Some a => Ok a | None => Panic end.

(** [injection] would also reduce the two values. *)
Lemma Ok_inj {E A} (a b : A) : @Ok E A a = Ok b → a = b.
Proof. congruence. Qed.

(** Code that mutates an object [S] in place: the object is returned on every
    path, so what an early return leaves behind stays visible. *)
Definition M (S E A : Type) : Type := S → S * outcome E A.

#[export] Instance M_ret {S E} : MRet (M S E) := λ A a s, (s, Ok a).
#[export] Instance M_bind {S E} : MBind (M S E) := λ A B f m s,
  match m s with
  | (s', Ok a) => f a s'
  | (s', Err e) => (s', Err e)
  | (s', Panic) => (s', Panic)
  end.

Definition throw {S E A} (e : E) : M S E A := λ s, (s, Err e).
Definition gets {S E A} (f : S → A) : M S E A := λ s, (s, Ok (f s)).
Definition modify {S E} (f : S → S) : M S E unit := λ s, (f s, Ok tt).
Definition lift {S E A} (o : outcome E A) : M S E A := λ s, (s, o).
(** In-place update that panics when it is out of range. *)
Definition update {S E} (f : S → option S) : M S E unit := λ s,
  match f s with Some s' => (s', Ok tt) | None => (s, Panic) end.

(** ** Automation *)

Create HintDb vdb.
Create Rewrite HintDb buflen.

(** [lia] with [Z.div]/[Z.modulo] by constants turned into equations. *)
Ltac mlia := Z.to_euclidean_division_equations; lia.

(** Case analysis on the boolean tests of the code. *)
Ltac bcase :=
  repeat match goal with
  | |- context [?a <? ?b] => destruct (Z.ltb_spec a b)
  | |- context [?a <=? ?b] => destruct (Z.leb_spec a b)
  | |- context [?a =? ?b] => destruct (Z.eqb_spec a b)
  | H : context [?a <? ?b] |- _ => destruct (Z.ltb_spec a b)
  | H : context [?a <=? ?b] |- _ => destruct (Z.leb_spec a b)
  | H : context [?a =? ?b] |- _ => destruct (Z.eqb_spec a b)
  end.

(** Evaluation of one branch once its test is known. *)
Ltac zbool :=
  repeat first
    [ rewrite (proj2 (Z.ltb_lt _ _)) by lia
    | rewrite (proj2 (Z.ltb_ge _ _)) by lia
    | rewrite (proj2 (Z.leb_le _ _)) by lia
    | rewrite (proj2 (Z.leb_gt _ _)) by lia
    | rewrite (proj2 (Z.eqb_eq _ _)) by lia
    | rewrite (proj2 (Z.eqb_neq _ _)) by lia ].

(** ** Generic lemmas *)

Lemma u16_small z : 0 ≤ z < 2 ^ 16 → u16 z = z.
Proof. apply Z.mod_small. Qed.
Lemma u32_small z : 0 ≤ z < 2 ^ 32 → u32 z = z.
Proof. apply Z.mod_small. Qed.
Lemma u64_small z : 0 ≤ z < 2 ^ 64 → u64 z = z.
Proof. apply Z.mod_small. Qed.
Lemma u16_range z : 0 ≤ u16 z < 2 ^ 16.
Proof. by apply Z.mod_pos_bound. Qed.
Lemma u32_range z : 0 ≤ u32 z < 2 ^ 32.
Proof. by apply Z.mod_pos_bound. Qed.
Lemma u64_range z : 0 ≤ u64 z < 2 ^ 64.
Proof. by apply Z.mod_pos_bound. Qed.

(** Reinterpreting an [int64] as unsigned and back is the identity. *)
Lemma s64_u64 z : - 2 ^ 63 ≤ z < 2 ^ 63 → s64 (u64 z) = z.
Proof. unfold s64, u64. intros. mlia. Qed.

Lemma filter_all {A} (P : A → Prop) `{!∀ x, Decision (P x)} l : Forall P l → filter P l = l.
Proof.
  induction 1 as [|x l Hx _ IH]; [done|]. by rewrite filter_cons, decide_True, IH.
Qed.

Lemma filter_implied {A} (P Q : A → Prop) `{!∀ x, Decision (P x), !∀ x, Decision (Q x)} (l : list A) :
  (∀ x, x ∈ l → P x → Q x) → filter P (filter Q l) = filter P l.
Proof.
  induction l as [|x l IH]; intros HPQ; [done|]. rewrite !filter_cons. specialize (IH ltac:(intros; apply HPQ; [by right|done])).
  destruct (decide (P x)) as [HP|HP].
  - rewrite decide_True by (apply HPQ; [by left|done]). by rewrite filter_cons, decide_True, IH.
  - destruct (decide (Q x)); [|done]. by rewrite filter_cons, decide_False, IH.
Qed.

(** ** Bit fields *)

Lemma testbit_small a k i : 0 ≤ a < 2 ^ k → k ≤ i → Z.testbit a i = false.
Proof.
  intros Ha Hi. destruct (Z.eq_dec a 0) as [->|]; [apply Z.bits_0|].
  apply Z.bits_above_log2; [lia|]. eapply Z.lt_le_trans; [|exact Hi].
  apply Z.log2_lt_pow2; lia.
Qed.

(** A value below [2^k] and one shifted by [k] share no bit. *)
Lemma land_shiftl_0 a b k : 0 ≤ k → 0 ≤ a < 2 ^ k → Z.land a (Z.shiftl b k) = 0.
Proof.
  intros Hk Ha. apply Z.bits_inj'. intros i Hi.
  rewrite Z.land_spec, Z.bits_0, Z.shiftl_spec by lia.
  destruct (Z.ltb_spec i k).
  - rewrite (Z.testbit_neg_r b) by lia. apply andb_false_r.
  - by rewrite (testbit_small a k).
Qed.

Lemma lor_shiftl_add a b k :
  0 ≤ k → 0 ≤ a < 2 ^ k → Z.lor a (Z.shiftl b k) = a + b * 2 ^ k.
Proof.
  intros. rewrite <- Z.lxor_lor, <- Z.add_nocarry_lxor by (by apply land_shiftl_0).
  by rewrite Z.shiftl_mul_pow2.
Qed.

Lemma lxor_range a b k : 0 ≤ k → 0 ≤ a < 2 ^ k → 0 ≤ b < 2 ^ k → 0 ≤ Z.lxor a b < 2 ^ k.
Proof.
  intros Hk Ha Hb.
  assert (0 ≤ Z.lxor a b) by (apply Z.lxor_nonneg; lia). split; [done|].
  rewrite <- (Z.mod_small (Z.lxor a b) (2 ^ k)) at 1; [apply Z.mod_pos_bound; lia|].
  split; [done|]. destruct (Z.eq_dec (Z.lxor a b) 0) as [->|]; [lia|].
  apply Z.log2_lt_pow2; [lia|]. eapply Z.le_lt_trans; [apply Z.log2_lxor; lia|].
  destruct (Z.eq_dec a 0) as [->|], (Z.eq_dec b 0) as [->|]; [done|..].
  all: apply Z.max_lub_lt; first [apply Z.log2_lt_pow2; lia | idtac].
  all: change (Z.log2 0) with 0; destruct (Z.eq_dec k 0) as [->|]; lia.
Qed.

#[export] Hint Resolve u16_range u32_range u64_range : vdb.
