(* ===== verification/Bytes.v ===== *)
(** * Byte buffers

    The parts of Go's language and standard library the storage code works
    with: slices of bytes ([b[lo:hi]], [copy]), the little-endian accessors of
    [encoding/binary], and [hash/crc32] with the IEEE polynomial.  Every
    component that reads or writes a buffer uses these and their lemmas. *)

From S2P Require Import Prelude.

Abbreviation bytes := (list byte) (only parsing).

#[export] Instance byte_eq_decision : EqDecision byte := Byte.byte_eq_dec.
#[export] Instance byte_countable : Countable byte := inj_countable Byte.to_N Byte.of_N Byte.of_to_N.

(** [len(b)] as a Go [int]. *)
Definition blen (b : bytes) : Z := Z.of_nat (length b).

(** The bytes of a string constant. *)
Definition str (s : string) : bytes := String.list_byte_of_string s.

(** The [n] bytes of [b] from offset [o]. *)
Definition bslice (o n : nat) (b : bytes) : bytes := take n (drop o b).

(** Go's [b[lo:hi]]: panics unless [0 <= lo <= hi <= len(b)]. *)
Definition slice (lo hi : Z) (b : bytes) : option bytes :=
  if (0 <=? lo) && (lo <=? hi) && (hi <=? blen b)
  then Some (bslice (Z.to_nat lo) (Z.to_nat (hi - lo)) b) else None.

(** [copy(b[o:], d)] for [o <= len(b)]: [d] is cut at the end of [b]. *)
Definition splice (o : nat) (d b : bytes) : bytes :=
  take o b ++ take (length b - o) d ++ drop (o + length d) b.

(** [copy(b[o:], d)]: slicing past the end of [b] panics. *)
Definition copy_at (o : Z) (d b : bytes) : option bytes :=
  if (0 <=? o) && (o <=? blen b) then Some (splice (Z.to_nat o) d b) else None.

(** [binary.LittleEndian.PutUintN(b[o:], v)] with [n] bytes: panics when fewer
    than [n] bytes remain. *)
Definition put_le (n : nat) (o v : Z) (b : bytes) : option bytes :=
  if (0 <=? o) && (o + Z.of_nat n <=? blen b)
  then Some (splice (Z.to_nat o) (le_split n v) b) else None.

(** [binary.LittleEndian.UintN(b[o:])] for a constant offset inside [b]. *)
Definition le_at (n o : nat) (b : bytes) : Z := le_combine (bslice o n b).

(** The same for a computed offset: panics when fewer than [n] bytes remain. *)
Definition get_le (n : nat) (o : Z) (b : bytes) : option Z :=
  if (0 <=? o) && (o + Z.of_nat n <=? blen b)
  then Some (le_at n (Z.to_nat o) b) else None.

(** ** [hash/crc32], IEEE polynomial (reflected form) *)

Definition crc_poly : Z := 0xEDB88320.

(** One bit of the shift register. *)
Definition crc_bit (c : Z) : Z :=
  if Z.odd c then Z.lxor (Z.shiftr c 1) crc_poly else Z.shiftr c 1.

(** One byte: what the table lookup of the library computes. *)
Definition crc_byte (c : Z) (b : byte) : Z :=
  Nat.iter 8 crc_bit (Z.lxor c (byte.unsigned b)).

(** [crc32.Update(crc, crc32.IEEETable, b)]. *)
Definition crc_update (crc : Z) (b : bytes) : Z :=
  Z.lxor (foldl crc_byte (Z.lxor crc 0xFFFFFFFF) b) 0xFFFFFFFF.

(** [crc32.ChecksumIEEE(b)]. *)
Definition crc32 (b : bytes) : Z := crc_update 0 b.

(** "123456789", the check input of the CRC catalogue. *)
Example crc32_check :
  crc32 (map byte.of_Z [49; 50; 51; 52; 53; 54; 55; 56; 57]) = 0xCBF43926.
Proof. vm_compute. reflexivity. Qed.

(** ** Lengths *)

Lemma blen_nonneg b : 0 ≤ blen b.
Proof. unfold blen. lia. Qed.

Lemma blen_app a b : blen (a ++ b) = blen a + blen b.
Proof. unfold blen. rewrite length_app. lia. Qed.

Lemma length_bslice o n b : (o + n ≤ length b)%nat → length (bslice o n b) = n.
Proof. intros. unfold bslice. rewrite length_take, length_drop. lia. Qed.

Lemma length_splice o d b : length (splice o d b) = length b.
Proof.
  unfold splice. rewrite !length_app, !length_take, length_drop. lia.
Qed.

(** ** Reading a slice after a write *)

Lemma bslice_lookup o n b i :
  bslice o n b !! i = if decide (i < n)%nat then b !! (o + i)%nat else None.
Proof.
  unfold bslice. case_decide.
  - rewrite lookup_take_lt by lia. by rewrite lookup_drop.
  - by rewrite lookup_take_ge by lia.
Qed.

Lemma splice_lookup_out o d b i :
  (i < o ∨ o + length d ≤ i)%nat →
  splice o d b !! i = b !! i.
Proof.
  intros Hi. unfold splice.
  destruct (decide (i < length b)%nat).
  - destruct (decide (i < o)%nat).
    + rewrite lookup_app_l by (rewrite length_take; lia). by apply lookup_take_lt.
    + rewrite lookup_app_r by (rewrite length_take; lia).
      rewrite lookup_app_r by (rewrite !length_take; lia).
      rewrite lookup_drop, !length_take. f_equal. lia.
  - rewrite !lookup_ge_None_2; [done|lia|].
      rewrite !length_app, !length_take, length_drop. lia.
Qed.

Lemma splice_lookup_in o d b i :
  (o + length d ≤ length b)%nat → (o ≤ i < o + length d)%nat →
  splice o d b !! i = d !! (i - o)%nat.
Proof.
  intros Ho Hi. unfold splice.
  rewrite lookup_app_r by (rewrite length_take; lia).
  rewrite lookup_app_l by (rewrite !length_take; lia).
  rewrite lookup_take_lt by (rewrite length_take; lia).
  by rewrite length_take, Nat.min_l by lia.
Qed.

Lemma bslice_splice_out o n o' d b :
  (o + n ≤ o' ∨ o' + length d ≤ o)%nat →
  bslice o n (splice o' d b) = bslice o n b.
Proof.
  intros Hd. apply list_eq. intros i. rewrite !bslice_lookup.
  case_decide; [|done]. apply splice_lookup_out. lia.
Qed.

Lemma bslice_splice_in o n o' d b :
  (o' + length d ≤ length b)%nat → (o' ≤ o)%nat → (o + n ≤ o' + length d)%nat →
  bslice o n (splice o' d b) = bslice (o - o') n d.
Proof.
  intros Hl Ho Hd. apply list_eq. intros i. rewrite !bslice_lookup.
  case_decide; [|done]. rewrite splice_lookup_in by lia. f_equal. lia.
Qed.

Lemma bslice_full b : bslice 0 (length b) b = b.
Proof. unfold bslice. by rewrite drop_0, firstn_all. Qed.

Lemma bslice_splice_same o d b :
  (o + length d ≤ length b)%nat → bslice o (length d) (splice o d b) = d.
Proof.
  intros. rewrite bslice_splice_in by lia. by rewrite Nat.sub_diag, bslice_full.
Qed.

Lemma bslice_bslice o n o' n' b :
  (o' + n' ≤ n)%nat → bslice o' n' (bslice o n b) = bslice (o + o') n' b.
Proof.
  intros. apply list_eq. intros i. rewrite !bslice_lookup.
  case_decide; [|done]. rewrite decide_True by lia. f_equal. lia.
Qed.

Lemma bslice_app_l o n a b : (o + n ≤ length a)%nat → bslice o n (a ++ b) = bslice o n a.
Proof.
  intros. unfold bslice. rewrite drop_app_le by lia. rewrite take_app_le; [done|].
  rewrite length_drop. lia.
Qed.

Lemma bslice_app_r o n a b :
  (length a ≤ o)%nat → bslice o n (a ++ b) = bslice (o - length a) n b.
Proof. intros. unfold bslice. by rewrite drop_app_ge by lia. Qed.

(** ** Little-endian fields *)

Lemma le_at_splice_out n o o' d b :
  (o + n ≤ o' ∨ o' + length d ≤ o)%nat →
  le_at n o (splice o' d b) = le_at n o b.
Proof. intros. unfold le_at. by rewrite bslice_splice_out. Qed.

Lemma le_at_splice_same n o v b :
  (o + n ≤ length b)%nat →
  le_at n o (splice o (le_split n v) b) = v mod 2 ^ (Z.of_nat n * 8).
Proof.
  intros. unfold le_at.
  rewrite <- (length_le_split n v) at 1.
  rewrite bslice_splice_same by (rewrite length_le_split; lia).
  by rewrite le_combine_split.
Qed.

Lemma le_at_range n o b : 0 ≤ le_at n o b < 2 ^ (8 * Z.of_nat n).
Proof.
  unfold le_at. pose proof (le_combine_bound (bslice o n b)) as [H0 H1]. split; [done|].
  eapply Z.lt_le_trans; [exact H1|]. apply Z.pow_le_mono_r; [lia|].
  unfold bslice. rewrite length_take. lia.
Qed.

(** Writing back the bytes that are already there changes nothing. *)
Lemma splice_self o n b :
  (o + n ≤ length b)%nat → splice o (bslice o n b) b = b.
Proof.
  intros. apply list_eq. intros i.
  pose proof (length_bslice o n b ltac:(lia)) as Hl.
  destruct (decide (o ≤ i < o + n)%nat).
  - rewrite splice_lookup_in by lia. rewrite bslice_lookup, decide_True by lia.
    f_equal. lia.
  - by rewrite splice_lookup_out by lia.
Qed.

(** A second write to the same place wins. *)
Lemma splice_splice o d d' b :
  length d = length d' → (o + length d ≤ length b)%nat →
  splice o d' (splice o d b) = splice o d' b.
Proof.
  intros Hd Ho. apply list_eq. intros i.
  destruct (decide (o ≤ i < o + length d')%nat).
  - rewrite !splice_lookup_in; [done|lia|lia| |lia]. rewrite length_splice; lia.
  - rewrite splice_lookup_out by (rewrite ?length_splice; lia).
    rewrite !splice_lookup_out by lia. done.
Qed.

#[export] Hint Rewrite length_splice length_le_split : buflen.

(** ** CRC-32 *)

Lemma crc_bit_range c : 0 ≤ c < 2 ^ 32 → 0 ≤ crc_bit c < 2 ^ 32.
Proof.
  intros Hc. unfold crc_bit.
  assert (0 ≤ Z.shiftr c 1 < 2 ^ 31)
    by (rewrite Z.shiftr_div_pow2 by lia; change (2 ^ 1) with 2; mlia).
  destruct (Z.odd c); [|lia]. apply lxor_range; unfold crc_poly; lia.
Qed.

(** The polynomial has its top bit set, so the bit shifted out can be read off
    the result: the register step loses nothing. *)
Lemma crc_bit_top c : 0 ≤ c < 2 ^ 32 → Z.testbit (crc_bit c) 31 = Z.odd c.
Proof.
  intros Hc. unfold crc_bit.
  assert (Z.testbit (Z.shiftr c 1) 31 = false).
  { rewrite Z.shiftr_spec by lia. by apply (testbit_small c 32). }
  destruct (Z.odd c) eqn:E; [|done]. rewrite Z.lxor_spec, H. done.
Qed.

Lemma crc_bit_inj c c' :
  0 ≤ c < 2 ^ 32 → 0 ≤ c' < 2 ^ 32 → crc_bit c = crc_bit c' → c = c'.
Proof.
  intros Hc Hc' E. pose proof (crc_bit_top c Hc) as T. pose proof (crc_bit_top c' Hc') as T'.
  rewrite E, T' in T. unfold crc_bit in E. rewrite T in E.
  assert (Z.shiftr c 1 = Z.shiftr c' 1) as Hs.
  { destruct (Z.odd c); [|done].
    apply (f_equal (λ z, Z.lxor z crc_poly)) in E.
    by rewrite !Z.lxor_assoc, !Z.lxor_nilpotent, !Z.lxor_0_r in E. }
  rewrite !Z.shiftr_div_pow2 in Hs by lia. change (2 ^ 1) with 2 in Hs.
  pose proof (Zmod_odd c) as O. pose proof (Zmod_odd c') as O'. rewrite T in O'.
  destruct (Z.odd c); mlia.
Qed.

Lemma crc_bits_range n c : 0 ≤ c < 2 ^ 32 → 0 ≤ Nat.iter n crc_bit c < 2 ^ 32.
Proof. intros Hc. induction n; simpl; [done|]. by apply crc_bit_range. Qed.

Lemma crc_bits_inj n c c' :
  0 ≤ c < 2 ^ 32 → 0 ≤ c' < 2 ^ 32 →
  Nat.iter n crc_bit c = Nat.iter n crc_bit c' → c = c'.
Proof.
  intros Hc Hc'. induction n; simpl; [done|]. intros E. apply IHn.
  apply crc_bit_inj; [by apply crc_bits_range..|done].
Qed.

(** The register is linear over exclusive or. *)
Lemma crc_bit_lxor a b : crc_bit (Z.lxor a b) = Z.lxor (crc_bit a) (crc_bit b).
Proof.
  unfold crc_bit. rewrite <- !Z.bit0_odd, Z.lxor_spec, !Z.bit0_odd, Z.shiftr_lxor.
  destruct (Z.odd a), (Z.odd b); simpl; apply Z.bits_inj; intros i; rewrite !Z.lxor_spec;
    destruct (Z.testbit (Z.shiftr a 1) i), (Z.testbit (Z.shiftr b 1) i),
      (Z.testbit crc_poly i); done.
Qed.

Lemma crc_bits_lxor n a b :
  Nat.iter n crc_bit (Z.lxor a b) = Z.lxor (Nat.iter n crc_bit a) (Nat.iter n crc_bit b).
Proof. induction n; simpl; [done|]. by rewrite IHn, crc_bit_lxor. Qed.

Lemma crc_bits_shiftl n w : Nat.iter n crc_bit (Z.shiftl w (Z.of_nat n)) = w.
Proof.
  revert w. induction n as [|n IH]; intros w; [apply Z.shiftl_0_r|].
  replace (Z.shiftl w (Z.of_nat (S n))) with (Z.shiftl (Z.shiftl w 1) (Z.of_nat n))
    by (rewrite Z.shiftl_shiftl by lia; f_equal; lia).
  rewrite Nat.iter_succ, IH. unfold crc_bit.
  rewrite Z.shiftl_mul_pow2 by lia. change (2 ^ 1) with 2.
  rewrite Z.mul_comm, Z.odd_mul, Z.shiftr_div_pow2 by lia. simpl.
  change (2 ^ 1) with 2. rewrite Z.mul_comm. by rewrite Z.div_mul by lia.
Qed.

(** Feeding the bytes [x] is running the register over the word they spell. *)
Lemma crc_bytes_word x c :
  foldl crc_byte c x = Nat.iter (8 * length x) crc_bit (Z.lxor c (le_combine x)).
Proof.
  revert c. induction x as [|b x IH]; intros c.
  { simpl. rewrite le_combine_nil, Z.lxor_0_r. done. }
  simpl foldl. rewrite IH. unfold crc_byte.
  replace (8 * length (b :: x))%nat with (8 * length x + 8)%nat by (simpl; lia).
  rewrite Nat.iter_add. f_equal.
  assert (le_combine (b :: x) = Z.lxor (byte.unsigned b) (Z.shiftl (le_combine x) (Z.of_nat 8)))
    as ->.
  { unfold le_combine; fold le_combine. symmetry. apply Z.lxor_lor.
    apply land_shiftl_0; [lia|]. apply byte.unsigned_range. }
  by rewrite <- Z.lxor_assoc, (crc_bits_lxor 8 (Z.lxor c _)), crc_bits_shiftl.
Qed.

Lemma le_combine_32 x : (length x ≤ 4)%nat → 0 ≤ le_combine x < 2 ^ 32.
Proof.
  intros Hx. pose proof (le_combine_bound x) as [? Hb]. split; [done|].
  eapply Z.lt_le_trans; [exact Hb|]. apply Z.pow_le_mono_r; lia.
Qed.

Lemma crc_bytes_range c b :
  0 ≤ c < 2 ^ 32 → 0 ≤ foldl crc_byte c b < 2 ^ 32.
Proof.
  revert c. induction b as [|x b IH]; intros c Hc; [done|]. simpl. apply IH.
  unfold crc_byte. apply crc_bits_range. apply lxor_range; [lia|done|].
  pose proof (byte.unsigned_range x). lia.
Qed.

Lemma crc32_range b : 0 ≤ crc32 b < 2 ^ 32.
Proof.
  unfold crc32, crc_update. apply lxor_range; [lia| |lia]. apply crc_bytes_range. done.
Qed.

(** The checksum of a concatenation can be computed incrementally. *)
Lemma crc_update_app c a b : crc_update c (a ++ b) = crc_update (crc_update c a) b.
Proof.
  unfold crc_update. rewrite foldl_app, Z.lxor_assoc, Z.lxor_nilpotent, Z.lxor_0_r. done.
Qed.

(** Continuing with the same bytes keeps two different registers different. *)
Lemma crc_bytes_inj_reg z c c' :
  0 ≤ c < 2 ^ 32 → 0 ≤ c' < 2 ^ 32 → foldl crc_byte c z = foldl crc_byte c' z → c = c'.
Proof.
  revert c c'. induction z as [|b z IH]; intros c c' Hc Hc' E; [done|]. simpl in E.
  pose proof (byte.unsigned_range b).
  apply IH in E; [|apply crc_bits_range, lxor_range; lia..].
  apply crc_bits_inj in E; [|apply lxor_range; lia..].
  apply (f_equal (λ w, Z.lxor w (byte.unsigned b))) in E.
  by rewrite !Z.lxor_assoc, !Z.lxor_nilpotent, !Z.lxor_0_r in E.
Qed.

Lemma crc_bytes_inj_burst c x y :
  0 ≤ c < 2 ^ 32 → length x = length y → (length x ≤ 4)%nat →
  foldl crc_byte c x = foldl crc_byte c y → x = y.
Proof.
  intros Hc Hl H4 E. rewrite !crc_bytes_word, Hl in E.
  pose proof (le_combine_32 x H4). pose proof (le_combine_32 y ltac:(lia)).
  apply crc_bits_inj in E; [|apply lxor_range; lia..].
  apply (f_equal (Z.lxor c)) in E.
  rewrite <- !Z.lxor_assoc, !Z.lxor_nilpotent, !Z.lxor_0_l in E.
  by apply le_combine_inj.
Qed.

(** Two messages that differ only inside a window of at most four bytes have
    different checksums. *)
Lemma crc32_burst a x y z :
  length x = length y → (length x ≤ 4)%nat → x ≠ y →
  crc32 (a ++ x ++ z) ≠ crc32 (a ++ y ++ z).
Proof.
  intros Hl H4 Hxy E. apply Hxy. unfold crc32, crc_update in E.
  apply (f_equal (λ w, Z.lxor w 0xFFFFFFFF)) in E.
  rewrite !Z.lxor_assoc, !Z.lxor_nilpotent, !Z.lxor_0_r, !foldl_app in E.
  pose proof (crc_bytes_range (Z.lxor 0 0xFFFFFFFF) a ltac:(done)) as Ha.
  apply crc_bytes_inj_reg in E; [|by apply crc_bytes_range..].
  by eapply crc_bytes_inj_burst.
Qed.

(** ** Corruption of a buffer *)

Lemma splice_in_range o d b :
  (o + length d ≤ length b)%nat → splice o d b = take o b ++ d ++ drop (o + length d) b.
Proof. intros. unfold splice. by rewrite (take_ge d) by lia. Qed.

Lemma splice_comm o d o' d' b :
  (o + length d ≤ o' ∨ o' + length d' ≤ o)%nat →
  (o + length d ≤ length b)%nat → (o' + length d' ≤ length b)%nat →
  splice o d (splice o' d' b) = splice o' d' (splice o d b).
Proof.
  intros Hd H1 H2. apply list_eq. intros i.
  destruct (decide (o ≤ i < o + length d)%nat).
  - rewrite splice_lookup_in by (rewrite ?length_splice; lia).
    rewrite (splice_lookup_out o') by lia. by rewrite splice_lookup_in by lia.
  - rewrite splice_lookup_out by lia. destruct (decide (o' ≤ i < o' + length d')%nat).
    + by rewrite !splice_lookup_in by (rewrite ?length_splice; lia).
    + by rewrite !splice_lookup_out by lia.
Qed.

(** A write that changes a buffer in at most four consecutive bytes changes its
    checksum. *)
Lemma crc32_splice o d b :
  (length d ≤ 4)%nat → (o + length d ≤ length b)%nat → d ≠ bslice o (length d) b →
  crc32 (splice o d b) ≠ crc32 b.
Proof.
  intros H4 Hr Hne. rewrite splice_in_range by done.
  rewrite <- (take_drop o b) at 3. rewrite <- (take_drop (length d) (drop o b)), drop_drop.
  apply crc32_burst; [|done|done]. rewrite length_take, length_drop. lia.
Qed.

Lemma le_at_inj n o b b' :
  (o + n ≤ length b)%nat → (o + n ≤ length b')%nat →
  le_at n o b = le_at n o b' → bslice o n b = bslice o n b'.
Proof.
  intros H1 H2 E. apply le_combine_inj; [|done]. by rewrite !length_bslice by lia.
Qed.

Lemma le_split_le_at n o b :
  (o + n ≤ length b)%nat → le_split n (le_at n o b) = bslice o n b.
Proof. intros. unfold le_at. apply split_le_combine'. by apply length_bslice. Qed.

(** Filling a fresh buffer from its start. *)
Lemma splice_app o d a b : length a = o → splice o d (a ++ b) = a ++ splice 0 d b.
Proof.
  intros <-. unfold splice. rewrite take_app_length, length_app.
  replace (length a + length b - length a)%nat with (length b - 0)%nat by lia.
  replace (drop (length a + length d) (a ++ b)) with (drop (0 + length d) b); [done|].
  by rewrite drop_app_add.
Qed.

Lemma splice_replicate d m x : splice 0 d (replicate (length d + m) x) = d ++ replicate m x.
Proof.
  unfold splice. rewrite length_replicate, Nat.sub_0_r, (take_ge d) by lia.
  cbn. by rewrite drop_replicate, Nat.add_comm, Nat.add_sub.
Qed.

Lemma splice_mid d x b : length x = length d → splice 0 d (x ++ b) = d ++ b.
Proof.
  intros Hx. unfold splice. rewrite length_app, (take_ge d) by lia.
  cbn. by rewrite <- Hx, drop_app_length.
Qed.

(** One field of a record written front to back. *)
Lemma put_le_app n o v (a x b : bytes) :
  blen a = o → length x = n → put_le n o v (a ++ x ++ b) = Some (a ++ le_split n v ++ b).
Proof.
  unfold blen. intros Ho Hx. unfold put_le. rewrite !blen_app. unfold blen. rewrite Hx. zbool.
  cbn [andb]. f_equal. rewrite splice_app, splice_mid by (rewrite ?length_le_split; lia). done.
Qed.

Lemma put_le_head n v (x b : bytes) :
  length x = n → put_le n 0 v (x ++ b) = Some (le_split n v ++ b).
Proof. by apply (put_le_app n 0 v []). Qed.

Lemma copy_at_app o d (a x b : bytes) :
  blen a = o → length x = length d → copy_at o d (a ++ x ++ b) = Some (a ++ d ++ b).
Proof.
  unfold blen. intros Ho Hx. unfold copy_at. rewrite !blen_app. unfold blen. zbool.
  cbn [andb]. f_equal. by rewrite splice_app, splice_mid by lia.
Qed.

(** Reading it back. *)
Lemma le_at_app n o v (a b : bytes) :
  length a = o → 0 ≤ v < 2 ^ (Z.of_nat n * 8) → le_at n o (a ++ le_split n v ++ b) = v.
Proof.
  intros Ha Hv. unfold le_at, bslice. rewrite drop_app_length' by done.
  rewrite take_app_length' by (by rewrite length_le_split).
  rewrite le_combine_split. by apply Z.mod_small.
Qed.

Lemma le_at_head n v (b : bytes) :
  0 ≤ v < 2 ^ (Z.of_nat n * 8) → le_at n 0 (le_split n v ++ b) = v.
Proof. by apply (le_at_app n 0 v []). Qed.

(** ** Data followed by its CRC *)

(** The shift register after [b], and its value after any data with a correct
    CRC behind it. *)
Definition crc_reg (b : bytes) : Z := foldl crc_byte 0xFFFFFFFF b.
Definition crc_residue : Z := Nat.iter 32 crc_bit 0xFFFFFFFF.

Lemma crc_valid data crc :
  length crc = 4%nat → le_combine crc = crc32 data ↔ crc_reg (data ++ crc) = crc_residue.
Proof.
  intros Hc. unfold crc_reg, crc_residue, crc32, crc_update.
  change (Z.lxor 0 0xFFFFFFFF) with 0xFFFFFFFF. rewrite foldl_app, (crc_bytes_word crc), Hc.
  change (8 * 4)%nat with 32%nat.
  pose proof (crc_bytes_range 0xFFFFFFFF data ltac:(lia)) as Hr.
  pose proof (le_combine_32 crc ltac:(lia)) as Hl. set (r := foldl crc_byte _ data) in *.
  split.
  - intros ->. by rewrite <- Z.lxor_assoc, Z.lxor_nilpotent.
  - intros E. apply crc_bits_inj in E; [|apply lxor_range; [lia|done..]|lia].
    by rewrite <- E, <- Z.lxor_assoc, Z.lxor_nilpotent.
Qed.

Lemma crc_reg_burst a x y z :
  length x = length y → (length x ≤ 4)%nat → crc_reg (a ++ x ++ z) = crc_reg (a ++ y ++ z) → x = y.
Proof.
  intros Hl H4 E. unfold crc_reg in E. rewrite !foldl_app in E.
  pose proof (crc_bytes_range 0xFFFFFFFF a ltac:(lia)) as Hr.
  apply crc_bytes_inj_reg in E; [|by apply crc_bytes_range..].
  by apply crc_bytes_inj_burst in E.
Qed.
