(* ===== verification/Page.v ===== *)
(** * The slotted page

    [server/internal/core/storage/page]: an 8 KB buffer that holds a 28-byte
    header, an array of item pointers that grows up and tuples that grow down
    from the end.  The operations are state transformers on the buffer; the
    abstraction [tuples] reads a page as the list of its slots, and the
    refinement lemmas say what each operation does to that list. *)

From S2P Require Import Prelude Bytes.

(** ** Constants *)

Definition PageSize : Z := 8192.
Definition PageHeaderSize : Z := 28.
Definition ItemPointerSize : Z := 4.
Definition MaxTupleLength : Z := Z.shiftl 1 14 - 1.
Definition ItemFlagNormal : Z := 0.
Definition ItemFlagDead : Z := 1.
Definition ItemFlagRedirect : Z := 2.

Definition offLSN : nat := 0.
Definition offChecksum : nat := 8.
Definition offFlags : nat := 12.
Definition offLower : nat := 14.
Definition offUpper : nat := 16.
Definition offSpecial : nat := 18.
Definition offPageType : nat := 20.
Definition offNItems : nat := 21.
Definition offFreeSpace : nat := 23.

(** ** Item pointers: [offset:15 | length:14 | flags:3] in a [uint32] *)

Definition NewItemPointer (offset length flags : Z) : Z :=
  Z.lor (Z.lor (u32 (Z.shiftl offset 17)) (Z.shiftl (Z.land length 0x3FFF) 3))
        (Z.land flags 0x7).
Definition Offset (ip : Z) : Z := u16 (Z.shiftr ip 17).
Definition Length (ip : Z) : Z := u16 (Z.land (Z.shiftr ip 3) 0x3FFF).
Definition Flags (ip : Z) : Z := u8 (Z.land ip 0x7).

(** ** The header *)

Record PageHeader : Type := {
  h_LSN : Z; h_Checksum : Z; h_Flags : Z; h_Lower : Z; h_Upper : Z;
  h_Special : Z; h_PageType : Z; h_NItems : Z; h_FreeSpace : Z }.

Definition Header (p : bytes) : PageHeader := {|
  h_LSN := le_at 8 offLSN p;
  h_Checksum := le_at 4 offChecksum p;
  h_Flags := le_at 2 offFlags p;
  h_Lower := le_at 2 offLower p;
  h_Upper := le_at 2 offUpper p;
  h_Special := le_at 2 offSpecial p;
  h_PageType := le_at 1 offPageType p;
  h_NItems := le_at 2 offNItems p;
  h_FreeSpace := le_at 2 offFreeSpace p |}.

Definition writeHeader (h : PageHeader) (p : bytes) : bytes :=
  let p := splice offLSN (le_split 8 (h_LSN h)) p in
  let p := splice offChecksum (le_split 4 (h_Checksum h)) p in
  let p := splice offFlags (le_split 2 (h_Flags h)) p in
  let p := splice offLower (le_split 2 (h_Lower h)) p in
  let p := splice offUpper (le_split 2 (h_Upper h)) p in
  let p := splice offSpecial (le_split 2 (h_Special h)) p in
  let p := splice offPageType (le_split 1 (h_PageType h)) p in
  let p := splice offNItems (le_split 2 (h_NItems h)) p in
  splice offFreeSpace (le_split 2 (h_FreeSpace h)) p.

Definition zeroPage : bytes := replicate (Z.to_nat PageSize) Byte.x00.

(** [Init] overwrites the whole array. *)
Definition Init (pageType : Z) : bytes :=
  writeHeader {| h_LSN := 0; h_Checksum := 0; h_Flags := 0;
                 h_Lower := PageHeaderSize; h_Upper := PageSize; h_Special := PageSize;
                 h_PageType := pageType; h_NItems := 0;
                 h_FreeSpace := PageSize - PageHeaderSize |} zeroPage.

Definition LSN (p : bytes) : Z := le_at 8 offLSN p.
Definition SetLSN (lsn : Z) (p : bytes) : bytes := splice offLSN (le_split 8 lsn) p.

Definition FreeSpace (p : bytes) : Z :=
  let h := Header p in
  if h_Upper h <=? h_Lower h then 0 else u16 (h_Upper h - h_Lower h).

(** ** Slots *)

Inductive page_error : Type :=
| ErrPageFull
| ErrOffsetUnderflow
| ErrTooManyItems
| ErrUpperBelowLower.

Abbreviation PageM := (M (list byte) page_error).

Definition itemPointerOffset (slot : Z) : Z :=
  u16 (PageHeaderSize + u16 (slot * ItemPointerSize)).

Definition itemPointer (slot : Z) (p : bytes) : option Z :=
  get_le 4 (itemPointerOffset slot) p.

Definition InsertTuple (data : bytes) : PageM Z :=
  if MaxTupleLength <? blen data then throw ErrPageFull else
  let needed := u16 (u16 (blen data) + ItemPointerSize) in
  free ← gets FreeSpace;
  if free <? needed then throw ErrPageFull else
  h ← gets Header;
  let tupleOffset := u16 (h_Upper h - u16 (blen data)) in
  if h_Upper h <? tupleOffset then throw ErrOffsetUnderflow else
  update (copy_at tupleOffset data);;
  let ip := NewItemPointer tupleOffset (u16 (blen data)) ItemFlagNormal in
  update (put_le 4 (h_Lower h) ip);;
  let lower := u16 (h_Lower h + ItemPointerSize) in
  if h_NItems h =? 65535 then throw ErrTooManyItems else
  let nitems := u16 (h_NItems h + 1) in
  if tupleOffset <? lower then throw ErrUpperBelowLower else
  modify (writeHeader {| h_LSN := h_LSN h; h_Checksum := h_Checksum h; h_Flags := h_Flags h;
    h_Lower := lower; h_Upper := tupleOffset; h_Special := h_Special h;
    h_PageType := h_PageType h; h_NItems := nitems;
    h_FreeSpace := u16 (tupleOffset - lower) |});;
  mret (u16 (nitems - 1)).

(** The test of [InsertTupleAt] for a tuple that redo finds already in place:
    equal bytes, the deleted_tx field (bytes 8 to 16) apart. *)
Definition sameTuple (existing data : bytes) : bool :=
  if (16 <=? blen existing) && (16 <=? blen data)
  then bool_decide (bslice 0 8 existing = bslice 0 8 data)
       && bool_decide (drop 16 existing = drop 16 data)
  else bool_decide (existing = data).

Definition tupleAlreadyAt (ip : Z) (data p : bytes) : outcome page_error bool :=
  if negb (Flags ip =? ItemFlagDead) && (Length ip =? u16 (blen data)) then
    existing ← must (slice (Offset ip) (u16 (Offset ip + Length ip)) p);
    Ok (sameTuple existing data)
  else Ok false.

(** The loop that pads the pointer array with dead slots. *)
Fixpoint fillDead (n : nat) (lower nitems : Z) : PageM (Z * Z) :=
  match n with
  | O => mret (lower, nitems)
  | S n =>
      update (put_le 4 lower (NewItemPointer 0 0 ItemFlagDead));;
      fillDead n (u16 (lower + ItemPointerSize)) (u16 (nitems + 1))
  end.

Definition InsertTupleAt (slot : Z) (data : bytes) : PageM unit :=
  if MaxTupleLength <? blen data then throw ErrPageFull else
  h ← gets Header;
  let setHeader lower upper nitems :=
    modify (writeHeader {| h_LSN := h_LSN h; h_Checksum := h_Checksum h;
      h_Flags := h_Flags h; h_Lower := lower; h_Upper := upper; h_Special := h_Special h;
      h_PageType := h_PageType h; h_NItems := nitems;
      h_FreeSpace := u16 (upper - lower) |}) in
  if slot <? h_NItems h then
    ip ← (λ p, (p, must (itemPointer slot p)));
    already ← (λ p, (p, tupleAlreadyAt ip data p));
    if (already : bool) then mret tt else
    let needed := u16 (blen data) in
    free ← gets FreeSpace;
    if free <? needed then throw ErrPageFull else
    let tupleOffset := u16 (h_Upper h - u16 (blen data)) in
    update (copy_at tupleOffset data);;
    update (put_le 4 (itemPointerOffset slot)
              (NewItemPointer tupleOffset (u16 (blen data)) ItemFlagNormal));;
    setHeader (h_Lower h) tupleOffset (h_NItems h)
  else
    let gapCount := u16 (u16 (slot + 1) - h_NItems h) in
    let needed := u16 (u16 (blen data) + u16 (gapCount * ItemPointerSize)) in
    free ← gets FreeSpace;
    if free <? needed then throw ErrPageFull else
    ln ← fillDead (Z.to_nat (slot - h_NItems h)) (h_Lower h) (h_NItems h);
    let '(lower, nitems) := ln : Z * Z in
    let tupleOffset := u16 (h_Upper h - u16 (blen data)) in
    update (copy_at tupleOffset data);;
    update (put_le 4 lower (NewItemPointer tupleOffset (u16 (blen data)) ItemFlagNormal));;
    setHeader (u16 (lower + ItemPointerSize)) tupleOffset (u16 (nitems + 1)).

Definition GetTuple (p : bytes) (slot : Z) : outcome page_error (option bytes) :=
  if h_NItems (Header p) <=? slot then Ok None else
  ip ← must (itemPointer slot p);
  if Flags ip =? ItemFlagDead then Ok None else
  t ← must (slice (Offset ip) (u16 (Offset ip + Length ip)) p);
  Ok (Some t).

Definition MarkDead (slot : Z) : PageM unit :=
  h ← gets Header;
  if h_NItems h <=? slot then mret tt else
  ip ← (λ p, (p, must (itemPointer slot p)));
  update (put_le 4 (itemPointerOffset slot)
            (NewItemPointer (Offset ip) (Length ip) ItemFlagDead)).

(** The copying loop of [Compact]: the error of [InsertTuple] is dropped. *)
Fixpoint compactLoop (p : bytes) (slots : list Z) (tmp : bytes) : outcome page_error bytes :=
  match slots with
  | [] => Ok tmp
  | slot :: rest =>
      t ← GetTuple p slot;
      match t with
      | None => compactLoop p rest tmp
      | Some data =>
          match InsertTuple data tmp with
          | (_, Panic) => Panic
          | (tmp', _) => compactLoop p rest tmp'
          end
      end
  end.

(** The end of [Compact]: LSN and flags of the old page go into the new one. *)
Definition compactFinish (h : PageHeader) (tmp : bytes) : bytes :=
  let tmp := SetLSN (h_LSN h) tmp in
  let th := Header tmp in
  writeHeader {| h_LSN := h_LSN th; h_Checksum := h_Checksum th; h_Flags := h_Flags h;
    h_Lower := h_Lower th; h_Upper := h_Upper th; h_Special := h_Special th;
    h_PageType := h_PageType th; h_NItems := h_NItems th;
    h_FreeSpace := h_FreeSpace th |} tmp.

Definition Compact (p : bytes) : outcome page_error bytes :=
  let h := Header p in
  tmp ← compactLoop p (seqZ 0 (h_NItems h)) (Init (h_PageType h));
  Ok (compactFinish h tmp).

(** ** Checksums *)

(** Returns the page after the field has been cleared and restored. *)
Definition ComputeChecksum (p : bytes) : bytes * Z :=
  let saved := le_at 4 offChecksum p in
  let p := splice offChecksum (le_split 4 0) p in
  let crc := crc32 p in
  (splice offChecksum (le_split 4 saved) p, crc).

Definition SetChecksum (p : bytes) : bytes :=
  let '(p, crc) := ComputeChecksum p in
  splice offChecksum (le_split 4 crc) p.

Definition VerifyChecksum (p : bytes) : bool :=
  let stored := le_at 4 offChecksum p in
  stored =? snd (ComputeChecksum p).

Arguments Header : simpl never.
Arguments writeHeader : simpl never.
Arguments NewItemPointer : simpl never.

(** ** Abstraction and invariant *)

(** The item pointer of slot [i], read without the run-time check. *)
Definition itemAt (p : bytes) (i : nat) : Z := le_at 4 (28 + 4 * i) p.

Definition items (p : bytes) : list Z :=
  itemAt p <$> seq 0 (Z.to_nat (h_NItems (Header p))).

Definition itemTuple (p : bytes) (ip : Z) : option bytes :=
  if Flags ip =? ItemFlagDead then None
  else Some (bslice (Z.to_nat (Offset ip)) (Z.to_nat (Length ip)) p).

(** A page as its client sees it: one entry per slot, [None] for a dead one. *)
Definition tuples (p : bytes) : list (option bytes) := itemTuple p <$> items p.

(** The abstract page: its slots and the bytes an insertion may still use. *)
Record slotPage : Type := { slots : list (option bytes); free : Z }.
Definition slotsOf (p : bytes) : slotPage := {| slots := tuples p; free := FreeSpace p |}.

(** Bytes of the tuple area that a pointer accounts for. *)
Definition liveLength (ip : Z) : Z := if Flags ip =? ItemFlagDead then 0 else Length ip.
Definition liveBytes (l : list Z) : Z := foldr (λ ip s, liveLength ip + s) 0 l.

(** A live pointer addresses a tuple inside the tuple area. *)
Definition itemOk (upper ip : Z) : Prop :=
  Flags ip ≠ ItemFlagDead → upper ≤ Offset ip ∧ Offset ip + Length ip ≤ PageSize.

Record pageWf (p : bytes) : Prop := {
  wf_length : length p = Z.to_nat PageSize;
  wf_lower : h_Lower (Header p) = PageHeaderSize + ItemPointerSize * h_NItems (Header p);
  wf_upper : h_Lower (Header p) ≤ h_Upper (Header p) ≤ PageSize;
  wf_special : h_Special (Header p) = PageSize;
  wf_free : h_FreeSpace (Header p) = h_Upper (Header p) - h_Lower (Header p);
  wf_items : Forall (itemOk (h_Upper (Header p))) (items p);
  wf_bytes : liveBytes (items p) ≤ PageSize - h_Upper (Header p) }.

(** The part of the header the slot operations leave alone. *)
Definition pageIdent (p : bytes) : Z * Z * Z :=
  (h_LSN (Header p), h_Flags (Header p), h_PageType (Header p)).

(** ** Item pointers *)

Lemma NewItemPointer_sum o l f :
  0 ≤ o < 2 ^ 15 → 0 ≤ l < 2 ^ 14 → 0 ≤ f < 8 →
  NewItemPointer o l f = o * 2 ^ 17 + l * 2 ^ 3 + f.
Proof.
  intros Ho Hl Hf. unfold NewItemPointer.
  change 0x3FFF with (Z.ones 14). change 0x7 with (Z.ones 3).
  rewrite !Z.land_ones, !Z.mod_small by lia.
  rewrite u32_small by (rewrite Z.shiftl_mul_pow2; lia).
  rewrite (Z.lor_comm (Z.shiftl o 17)), (lor_shiftl_add (Z.shiftl l 3) o 17)
    by (rewrite ?Z.shiftl_mul_pow2; lia).
  rewrite Z.shiftl_mul_pow2 by lia.
  replace (l * 2 ^ 3 + o * 2 ^ 17) with (Z.shiftl (l + o * 2 ^ 14) 3)
    by (rewrite Z.shiftl_mul_pow2; lia).
  rewrite Z.lor_comm, lor_shiftl_add by lia. lia.
Qed.

Lemma NewItemPointer_fields o l f :
  0 ≤ o < 2 ^ 15 → 0 ≤ l < 2 ^ 14 → 0 ≤ f < 8 →
  Offset (NewItemPointer o l f) = o ∧ Length (NewItemPointer o l f) = l ∧
  Flags (NewItemPointer o l f) = f ∧ 0 ≤ NewItemPointer o l f < 2 ^ 32.
Proof.
  intros Ho Hl Hf. rewrite NewItemPointer_sum by done.
  unfold Offset, Length, Flags, u16, u8.
  change 0x3FFF with (Z.ones 14). change 0x7 with (Z.ones 3).
  rewrite !Z.land_ones, !Z.shiftr_div_pow2 by lia.
  split_and!; mlia.
Qed.

Lemma Offset_range ip : 0 ≤ ip < 2 ^ 32 → 0 ≤ Offset ip < 2 ^ 15.
Proof. intros. unfold Offset, u16. rewrite Z.shiftr_div_pow2 by lia. mlia. Qed.

Lemma Length_range ip : 0 ≤ Length ip < 2 ^ 14.
Proof.
  unfold Length, u16. change 0x3FFF with (Z.ones 14).
  rewrite Z.land_ones by lia. mlia.
Qed.

Lemma Flags_range ip : 0 ≤ Flags ip < 8.
Proof.
  unfold Flags, u8. change 0x7 with (Z.ones 3). rewrite Z.land_ones by lia. mlia.
Qed.

Lemma itemAt_range p i : 0 ≤ itemAt p i < 2 ^ 32.
Proof. apply (le_at_range 4). Qed.

(** ** Header and frame lemmas *)

Definition headerOk (h : PageHeader) : Prop :=
  0 ≤ h_LSN h < 2 ^ 64 ∧ 0 ≤ h_Checksum h < 2 ^ 32 ∧ 0 ≤ h_Flags h < 2 ^ 16 ∧
  0 ≤ h_Lower h < 2 ^ 16 ∧ 0 ≤ h_Upper h < 2 ^ 16 ∧ 0 ≤ h_Special h < 2 ^ 16 ∧
  0 ≤ h_PageType h < 2 ^ 8 ∧ 0 ≤ h_NItems h < 2 ^ 16 ∧ 0 ≤ h_FreeSpace h < 2 ^ 16.

(** Closes length side conditions of nested writes. *)
Ltac blia :=
  unfold PageSize, PageHeaderSize, ItemPointerSize, offLSN, offChecksum, offFlags, offLower, offUpper, offSpecial, offPageType,
    offNItems, offFreeSpace in *;
  autorewrite with buflen; lia.

Lemma Header_ok p : headerOk (Header p).
Proof.
  unfold headerOk, Header; cbn [h_LSN h_Checksum h_Flags h_Lower h_Upper h_Special
    h_PageType h_NItems h_FreeSpace].
  split_and!; apply (le_at_range _ _ p) || apply (le_at_range 8) || apply (le_at_range 4)
    || apply (le_at_range 2) || apply (le_at_range 1).
Qed.

Lemma length_writeHeader h p :
  length p = Z.to_nat PageSize → length (writeHeader h p) = Z.to_nat PageSize.
Proof. intros Hp. unfold writeHeader. blia. Qed.

Lemma Header_writeHeader h p :
  length p = Z.to_nat PageSize → headerOk h → Header (writeHeader h p) = h.
Proof.
  intros Hp Hh. destruct h. unfold headerOk in Hh. simpl in Hh.
  unfold Header, writeHeader; cbn [h_LSN h_Checksum h_Flags h_Lower h_Upper h_Special
    h_PageType h_NItems h_FreeSpace].
  assert (25 ≤ length p)%nat as H25 by blia.
  f_equal; repeat rewrite le_at_splice_out by (clear -H25; blia);
    rewrite le_at_splice_same by (clear -H25; blia); clear -Hh; apply Z.mod_small; tauto.
Qed.

Lemma bslice_writeHeader h p o n :
  length p = Z.to_nat PageSize → (25 ≤ o)%nat → bslice o n (writeHeader h p) = bslice o n p.
Proof.
  intros Hp Ho. unfold writeHeader.
  repeat rewrite bslice_splice_out by blia. done.
Qed.

(** A write above the header leaves the header as it is. *)
Lemma Header_splice o d p :
  length p = Z.to_nat PageSize → 28 ≤ Z.of_nat o ≤ PageSize → Header (splice o d p) = Header p.
Proof.
  intros Hp Ho. unfold Header.
  f_equal; apply le_at_splice_out; blia.
Qed.

Lemma itemAt_splice_out o d p i :
  length p = Z.to_nat PageSize → Z.of_nat o ≤ PageSize →
  (28 + 4 * i + 4 ≤ o ∨ o + length d ≤ 28 + 4 * i)%nat →
  itemAt (splice o d p) i = itemAt p i.
Proof. intros Hp Ho Hd. apply le_at_splice_out; blia. Qed.

Lemma itemAt_splice_same p i v :
  length p = Z.to_nat PageSize → 28 + 4 * Z.of_nat i + 4 ≤ PageSize → 0 ≤ v < 2 ^ 32 →
  itemAt (splice (28 + 4 * i) (le_split 4 v) p) i = v.
Proof.
  intros Hp Hi Hv. unfold itemAt. rewrite le_at_splice_same by blia.
  by apply Z.mod_small.
Qed.

Lemma itemAt_writeHeader h p i :
  length p = Z.to_nat PageSize → itemAt (writeHeader h p) i = itemAt p i.
Proof. intros. unfold itemAt, le_at. by rewrite bslice_writeHeader by (done || lia). Qed.

Lemma itemTuple_writeHeader h p ip :
  length p = Z.to_nat PageSize → 25 ≤ Offset ip →
  itemTuple (writeHeader h p) ip = itemTuple p ip.
Proof. intros. unfold itemTuple. by rewrite bslice_writeHeader by (done || lia). Qed.

Lemma length_items p : length (items p) = Z.to_nat (h_NItems (Header p)).
Proof. unfold items. by rewrite length_fmap, length_seq. Qed.

Lemma length_tuples p : length (tuples p) = Z.to_nat (h_NItems (Header p)).
Proof. unfold tuples. by rewrite length_fmap, length_items. Qed.

Lemma items_lookup p i :
  (i < Z.to_nat (h_NItems (Header p)))%nat → items p !! i = Some (itemAt p i).
Proof. intros. unfold items. rewrite list_lookup_fmap, lookup_seq_lt by done. done. Qed.

Lemma liveBytes_app l l' : liveBytes (l ++ l') = liveBytes l + liveBytes l'.
Proof. induction l; simpl; lia. Qed.

Lemma liveLength_nonneg ip : 0 ≤ liveLength ip.
Proof. unfold liveLength. pose proof (Length_range ip). case_match; lia. Qed.

Lemma liveBytes_insert l i ip ip' :
  l !! i = Some ip →
  liveBytes (<[i:=ip']> l) = liveBytes l - liveLength ip + liveLength ip'.
Proof.
  revert i. induction l as [|x l IH]; intros [|i] H; simplify_eq/=; [lia|].
  rewrite (IH _ H). lia.
Qed.

(** ** Placing a tuple and its pointer *)

(** The last three writes of every insertion: the tuple at [off], its pointer
    in slot [i], the new header. *)
Definition place (h : PageHeader) (i : nat) (off : Z) (data p : bytes) : bytes :=
  writeHeader h (splice (28 + 4 * i) (le_split 4 (NewItemPointer off (blen data) ItemFlagNormal))
                   (splice (Z.to_nat off) data p)).

Section place.
Context (h : PageHeader) (i : nat) (off : Z) (data p : bytes).
Hypothesis Hp : length p = Z.to_nat PageSize.
Hypothesis Hh : headerOk h.
Hypothesis Hi : 28 + 4 * Z.of_nat i + 4 ≤ off.
Hypothesis Hoff : off + blen data ≤ PageSize.
Hypothesis Hlen : blen data ≤ MaxTupleLength.

Let ip := NewItemPointer off (blen data) ItemFlagNormal.

Lemma place_ip : Offset ip = off ∧ Length ip = blen data ∧ Flags ip = ItemFlagNormal ∧ 0 ≤ ip < 2 ^ 32.
Proof using Hi Hoff Hlen.
  clear Hp. apply NewItemPointer_fields;
    unfold PageSize, MaxTupleLength, ItemFlagNormal, blen in *; simpl in *; lia.
Qed.

Lemma length_place : length (place h i off data p) = Z.to_nat PageSize.
Proof using Hp. apply length_writeHeader. by autorewrite with buflen. Qed.

Lemma Header_place : Header (place h i off data p) = h.
Proof using Hp Hh. apply Header_writeHeader; [|done]. by autorewrite with buflen. Qed.

Lemma itemAt_place_same : itemAt (place h i off data p) i = ip.
Proof using Hp Hi Hoff Hlen.
  unfold place. rewrite itemAt_writeHeader by (by autorewrite with buflen).
  apply itemAt_splice_same; [by autorewrite with buflen| |apply place_ip].
  unfold blen in *. lia.
Qed.

Lemma itemAt_place_other j :
  j ≠ i → 28 + 4 * Z.of_nat j + 4 ≤ off → itemAt (place h i off data p) j = itemAt p j.
Proof using Hp Hi Hoff.
  intros Hj Hjo. unfold place. rewrite itemAt_writeHeader by (by autorewrite with buflen).
  unfold blen in *. rewrite !itemAt_splice_out; autorewrite with buflen; done || lia.
Qed.

Lemma bslice_place_data : bslice (Z.to_nat off) (length data) (place h i off data p) = data.
Proof using Hp Hi Hoff.
  unfold place, blen in *. rewrite bslice_writeHeader by (autorewrite with buflen; done || lia).
  rewrite bslice_splice_out by blia. apply bslice_splice_same. blia.
Qed.

Lemma bslice_place_other o n :
  off + blen data ≤ Z.of_nat o → bslice o n (place h i off data p) = bslice o n p.
Proof using Hp Hi Hoff.
  intros Ho. unfold place, blen in *.
  rewrite bslice_writeHeader by (autorewrite with buflen; done || lia).
  rewrite !bslice_splice_out by blia. done.
Qed.

Lemma itemTuple_place_same : itemTuple (place h i off data p) ip = Some data.
Proof using Hp Hi Hoff Hlen.
  destruct place_ip as (Eo & El & Ef & _). unfold itemTuple. rewrite Eo, El, Ef.
  change (ItemFlagNormal =? ItemFlagDead) with false. cbv iota.
  unfold blen. rewrite Nat2Z.id. by rewrite bslice_place_data.
Qed.

Lemma itemTuple_place_other ip' :
  itemOk (off + blen data) ip' → itemTuple (place h i off data p) ip' = itemTuple p ip'.
Proof using Hp Hi Hoff.
  unfold itemOk, itemTuple. intros Hok.
  destruct (Z.eqb_spec (Flags ip') ItemFlagDead); [done|].
  rewrite bslice_place_other; [done|]. unfold blen in *. specialize (Hok ltac:(done)). lia.
Qed.
End place.

Lemma itemOk_mono u u' ip : u' ≤ u → itemOk u ip → itemOk u' ip.
Proof. unfold itemOk. intros Hu Hok Hf. specialize (Hok Hf). lia. Qed.

Lemma deadPointer_flags : Flags (NewItemPointer 0 0 ItemFlagDead) = ItemFlagDead.
Proof. done. Qed.

Lemma tuples_place h i off data p l :
  length p = Z.to_nat PageSize → 28 + 4 * Z.of_nat i + 4 ≤ off → off + blen data ≤ PageSize →
  Forall (itemOk (off + blen data)) l →
  itemTuple (place h i off data p) <$> l = itemTuple p <$> l.
Proof.
  intros Hp Hi Hoff Hl. apply list_fmap_ext. intros j ip Hip.
  apply itemTuple_place_other; [done..|]. by eapply Forall_lookup_1.
Qed.

(** Bounds the invariant gives. *)
Lemma pageWf_bounds p : pageWf p →
  0 ≤ h_NItems (Header p) < 2 ^ 16 ∧
  28 + 4 * h_NItems (Header p) = h_Lower (Header p) ∧
  h_Lower (Header p) ≤ h_Upper (Header p) ≤ 8192 ∧
  FreeSpace p = h_Upper (Header p) - h_Lower (Header p).
Proof.
  intros []. unfold PageHeaderSize, ItemPointerSize, PageSize in *.
  pose proof (Header_ok p) as Hh. unfold headerOk in Hh.
  split_and!; [lia..|]. unfold FreeSpace. case_match; [bcase; lia|]. bcase; [lia|].
  apply u16_small. lia.
Qed.

(** The header both insertions leave behind. *)
Definition insertedHeader (h : PageHeader) (lower upper nitems : Z) : PageHeader := {|
  h_LSN := h_LSN h; h_Checksum := h_Checksum h; h_Flags := h_Flags h;
  h_Lower := lower; h_Upper := upper; h_Special := h_Special h;
  h_PageType := h_PageType h; h_NItems := nitems; h_FreeSpace := upper - lower |}.

Lemma insertedHeader_ok p lower upper nitems :
  0 ≤ lower < 2 ^ 16 → lower ≤ upper < 2 ^ 16 → 0 ≤ nitems < 2 ^ 16 →
  headerOk (insertedHeader (Header p) lower upper nitems).
Proof.
  intros. pose proof (Header_ok p) as Hh. unfold headerOk, insertedHeader in *.
  cbn [h_LSN h_Checksum h_Flags h_Lower h_Upper h_Special h_PageType h_NItems h_FreeSpace].
  split_and!; lia.
Qed.

(** Appending after [k] padding pointers.  [q] is the page after the padding. *)
Lemma append_place p q k data :
  pageWf p → length q = Z.to_nat PageSize →
  h_Lower (Header p) + 4 * Z.of_nat k + 4 + blen data ≤ h_Upper (Header p) →
  (∀ j, Z.of_nat j < h_NItems (Header p) → itemAt q j = itemAt p j) →
  (∀ j, h_NItems (Header p) ≤ Z.of_nat j < h_NItems (Header p) + Z.of_nat k →
        itemAt q j = NewItemPointer 0 0 ItemFlagDead) →
  (∀ o n, h_Upper (Header p) ≤ Z.of_nat o → bslice o n q = bslice o n p) →
  let off := h_Upper (Header p) - blen data in
  let n := h_NItems (Header p) + Z.of_nat k in
  let p' := place (insertedHeader (Header p) (h_Lower (Header p) + 4 * Z.of_nat k + 4) off (n + 1))
              (Z.to_nat n) off data q in
  pageWf p' ∧ tuples p' = tuples p ++ replicate k None ++ [Some data] ∧
  pageIdent p' = pageIdent p ∧ FreeSpace p' = FreeSpace p - 4 * Z.of_nat k - 4 - blen data.
Proof.
  intros Hwf Hq Hfit Hold Hdead Hframe off n p'.
  pose proof (pageWf_bounds p Hwf) as (HN & HL & HU & HF). destruct Hwf.
  pose proof (blen_nonneg data) as Hb.
  assert (28 + 4 * Z.of_nat (Z.to_nat n) + 4 ≤ off) as Hio by lia.
  assert (off + blen data = h_Upper (Header p)) as Hend by lia.
  assert (blen data ≤ MaxTupleLength) as Hmax by (change MaxTupleLength with 16383; lia).
  assert (Header p' = insertedHeader (Header p) (h_Lower (Header p) + 4 * Z.of_nat k + 4) off (n + 1))
    as EH by (apply Header_place; [done|apply insertedHeader_ok; lia]).
  destruct (place_ip (Z.to_nat n) off data) as (Eo & El & Ef & Er);
    [lia|unfold PageSize; lia|done|].
  set (ip := NewItemPointer off (blen data) ItemFlagNormal) in *.
  assert (items p' = items p ++ replicate k (NewItemPointer 0 0 ItemFlagDead) ++ [ip]) as EI.
  { unfold items at 1. rewrite EH. cbn [insertedHeader h_NItems].
    replace (Z.to_nat (n + 1)) with (Z.to_nat (h_NItems (Header p)) + (k + 1))%nat by lia.
    rewrite seq_app, seq_app, !fmap_app. f_equal; [|f_equal].
    - apply list_fmap_ext. intros j x Hx. apply lookup_seq in Hx as [-> ?].
      unfold p'. rewrite (itemAt_place_other _ _ off) by (unfold PageSize; done || lia). apply Hold. lia.
    - rewrite <- (length_seq k (0 + Z.to_nat (h_NItems (Header p)))) at 2.
      rewrite <- (const_fmap (λ _, NewItemPointer 0 0 ItemFlagDead)) by done.
      apply list_fmap_ext. intros j x Hx. apply lookup_seq in Hx as [-> ?].
      unfold p'. rewrite (itemAt_place_other _ _ off) by (unfold PageSize; done || lia). apply Hdead. lia.
    - cbn [seq fmap list_fmap]. f_equal.
      replace (0 + Z.to_nat (h_NItems (Header p)) + k)%nat with (Z.to_nat n) by lia.
      apply itemAt_place_same; unfold PageSize; done || lia. }
  assert (Forall (itemOk (h_Upper (Header p))) (items p ++ replicate k (NewItemPointer 0 0 ItemFlagDead)))
    as Hok.
  { apply Forall_app. split; [done|]. apply Forall_replicate. intros []. apply deadPointer_flags. }
  assert (pageWf p') as Hwf'.
  { split; rewrite ?EH, ?EI; cbn [insertedHeader h_Lower h_Upper h_NItems h_Special h_FreeSpace];
      unfold PageHeaderSize, ItemPointerSize, PageSize in *; try lia.
    + by apply length_place.
    + rewrite app_assoc. apply Forall_app. split.
      * eapply Forall_impl; [exact Hok|]. intros ? ?. eapply itemOk_mono; [|done]. lia.
      * apply Forall_singleton. intros _. rewrite Eo, El. unfold PageSize. lia.
    + rewrite !liveBytes_app. simpl. unfold liveLength at 1. rewrite Ef, El.
      change (ItemFlagNormal =? ItemFlagDead) with false. cbv iota.
      assert (liveBytes (replicate k (NewItemPointer 0 0 ItemFlagDead)) = 0) as ->
        by (clear; induction k; simpl; [done|]; rewrite IHk; done).
      lia. }
  split_and!; [done|..].
  - unfold tuples. rewrite EI, app_assoc, fmap_app.
    unfold p'. rewrite tuples_place by (unfold PageSize; done || lia || (by rewrite Hend)).
    rewrite fmap_app, <- app_assoc. f_equal; [|f_equal].
    + apply list_fmap_ext. intros j x Hx.
      eapply Forall_lookup_1 in wf_items0; [|exact Hx]. unfold itemTuple.
      destruct (Z.eqb_spec (Flags x) ItemFlagDead); [done|]. f_equal. apply Hframe.
      specialize (wf_items0 ltac:(done)). lia.
    + rewrite fmap_replicate. done.
    + cbn [fmap list_fmap]. f_equal. apply itemTuple_place_same; unfold PageSize; done || lia.
  - unfold pageIdent. by rewrite EH.
  - pose proof (pageWf_bounds p' Hwf') as (_ & _ & _ & ->). rewrite EH, HF.
    cbn [insertedHeader h_Lower h_Upper]. lia.
Qed.

(** Evaluates the page monad without touching arithmetic. *)
Ltac mrun := cbv beta iota zeta delta
  [mbind M_bind outcome_bind gets throw update modify mret M_ret must].

Lemma InsertTuple_full data p :
  pageWf p → FreeSpace p < blen data + 4 → InsertTuple data p = (p, Err ErrPageFull).
Proof.
  intros Hwf Hfull. pose proof (pageWf_bounds p Hwf) as (HN & HL & HU & HF).
  unfold InsertTuple. destruct (Z.ltb_spec MaxTupleLength (blen data)); [done|].
  change MaxTupleLength with 16383 in *. unfold ItemPointerSize.
  pose proof (blen_nonneg data). rewrite !u16_small by (rewrite ?u16_small; lia).
  mrun. zbool. done.
Qed.

Lemma InsertTuple_fits data p :
  pageWf p → blen data + 4 ≤ FreeSpace p →
  ∃ p', InsertTuple data p = (p', Ok (h_NItems (Header p))) ∧
    pageWf p' ∧ tuples p' = tuples p ++ [Some data] ∧ pageIdent p' = pageIdent p ∧
    FreeSpace p' = FreeSpace p - (blen data + 4).
Proof.
  intros Hwf Hfit. pose proof (pageWf_bounds p Hwf) as (HN & HL & HU & HF).
  pose proof (blen_nonneg data) as Hb. pose proof (wf_length p Hwf) as Hlen.
  unfold InsertTuple. change MaxTupleLength with 16383.
  rewrite (proj2 (Z.ltb_ge 16383 (blen data))) by lia.
  unfold ItemPointerSize. rewrite !(u16_small (blen data)), !(u16_small (blen data + 4)) by lia.
  mrun. zbool. mrun. rewrite !(u16_small (h_Upper (Header p) - blen data)) by lia. zbool. mrun.
  assert (∀ b : list byte, length b = length p → blen b = 8192) as H8
    by (intros b Eb; unfold blen; rewrite Eb, Hlen; done).
  unfold copy_at, put_le. rewrite (H8 p) by done. zbool. cbn [andb]. mrun.
  rewrite (H8 (splice _ _ _)) by (by autorewrite with buflen). zbool. cbn [andb]. mrun.
  zbool. rewrite !(u16_small (h_Lower (Header p) + 4)) by lia. zbool. mrun.
  rewrite !u16_small by (rewrite ?u16_small; lia).
  destruct (append_place p p 0 data) as (Hwf' & Ht & Hid & Hfr); [done|done|lia|done|lia|done|].
  eexists. split; [|split_and!; [exact Hwf'|exact Ht|exact Hid|rewrite Hfr; lia]].
  f_equal; [|f_equal; lia]. unfold place, insertedHeader.
  replace (h_Lower (Header p) + 4 * Z.of_nat 0 + 4) with (h_Lower (Header p) + 4) by lia.
  replace (h_NItems (Header p) + Z.of_nat 0) with (h_NItems (Header p)) by lia.
  do 2 f_equal. lia.
Qed.

(** ** Reading and deleting *)

Lemma blen_page p : pageWf p → blen p = 8192.
Proof. intros []. unfold blen. by rewrite wf_length0. Qed.

Lemma itemPointerOffset_eq p slot :
  pageWf p → 0 ≤ slot < h_NItems (Header p) → itemPointerOffset slot = 28 + 4 * slot.
Proof.
  intros Hwf Hs. pose proof (pageWf_bounds p Hwf). unfold itemPointerOffset, PageHeaderSize, ItemPointerSize.
  rewrite !u16_small by (rewrite ?u16_small; lia). lia.
Qed.

Lemma itemPointer_eq p slot :
  pageWf p → 0 ≤ slot < h_NItems (Header p) →
  itemPointer slot p = Some (itemAt p (Z.to_nat slot)).
Proof.
  intros Hwf Hs. pose proof (pageWf_bounds p Hwf). unfold itemPointer.
  rewrite (itemPointerOffset_eq p) by done. unfold get_le. rewrite blen_page by done.
  zbool. cbn [andb]. unfold itemAt. do 2 f_equal. lia.
Qed.

Lemma item_ok_at p i :
  pageWf p → Z.of_nat i < h_NItems (Header p) → itemOk (h_Upper (Header p)) (itemAt p i).
Proof.
  intros [] Hi. eapply Forall_lookup_1; [done|]. apply items_lookup. lia.
Qed.

Lemma slice_item p ip :
  pageWf p → 0 ≤ ip < 2 ^ 32 → itemOk (h_Upper (Header p)) ip → Flags ip ≠ ItemFlagDead →
  slice (Offset ip) (u16 (Offset ip + Length ip)) p
  = Some (bslice (Z.to_nat (Offset ip)) (Z.to_nat (Length ip)) p).
Proof.
  intros Hwf Hr Hok Hf. specialize (Hok Hf). pose proof (Offset_range ip Hr).
  pose proof (Length_range ip). unfold PageSize in *. rewrite u16_small by lia.
  unfold slice. rewrite blen_page by done. zbool. cbn [andb].
  do 2 f_equal. lia.
Qed.

Lemma tuples_lookup p i :
  Z.of_nat i < h_NItems (Header p) → tuples p !! i = Some (itemTuple p (itemAt p i)).
Proof. intros Hi. unfold tuples. by rewrite list_lookup_fmap, items_lookup by lia. Qed.

Lemma GetTuple_tuples p slot :
  pageWf p → 0 ≤ slot → GetTuple p slot = Ok (mjoin (tuples p !! Z.to_nat slot)).
Proof.
  intros Hwf Hs. unfold GetTuple. destruct (Z.leb_spec (h_NItems (Header p)) slot).
  - rewrite lookup_ge_None_2; [done|]. rewrite length_tuples. lia.
  - rewrite itemPointer_eq, tuples_lookup by (done || lia). mrun. unfold itemTuple. cbn [mjoin option_join].
    destruct (Z.eqb_spec (Flags (itemAt p (Z.to_nat slot))) ItemFlagDead); [done|].
    rewrite slice_item; [done|done|apply itemAt_range|apply item_ok_at; [done|lia]|done].
Qed.

(** Overwriting one pointer. *)
Lemma items_splice_pointer p i v :
  pageWf p → Z.of_nat i < h_NItems (Header p) → 0 ≤ v < 2 ^ 32 →
  items (splice (28 + 4 * i) (le_split 4 v) p) = <[i:=v]> (items p).
Proof.
  intros Hwf Hi Hv. pose proof (pageWf_bounds p Hwf). pose proof (wf_length p Hwf).
  apply list_eq. intros j. unfold items at 1.
  rewrite Header_splice by (done || unfold PageSize; lia). fold (items p).
  destruct (decide (j < Z.to_nat (h_NItems (Header p)))%nat).
  - rewrite list_lookup_fmap, lookup_seq_lt by done. cbn [fmap option_fmap option_map].
    destruct (decide (i = j)) as [<-|].
    + rewrite list_lookup_insert_eq by (rewrite length_items; lia).
      f_equal. apply itemAt_splice_same; [done|unfold PageSize; lia|done].
    + rewrite list_lookup_insert_ne by done. rewrite items_lookup by done. f_equal.
      apply itemAt_splice_out; [done|unfold PageSize; lia|]. rewrite length_le_split. lia.
  - rewrite !lookup_ge_None_2; [done|..]; rewrite ?length_insert, ?length_items, ?length_fmap, ?length_seq; lia.
Qed.

Lemma MarkDead_tuples p slot :
  pageWf p → 0 ≤ slot →
  ∃ p', MarkDead slot p = (p', Ok tt) ∧ pageWf p' ∧
    tuples p' = <[Z.to_nat slot := None]> (tuples p) ∧ Header p' = Header p.
Proof.
  intros Hwf Hs. pose proof (pageWf_bounds p Hwf) as (HN & HL & HU & _).
  pose proof (wf_length p Hwf) as Hlen.
  unfold MarkDead. mrun. destruct (Z.leb_spec (h_NItems (Header p)) slot).
  { exists p. split_and!; try done. rewrite list_insert_ge; [done|]. rewrite length_tuples. lia. }
  rewrite itemPointer_eq, (itemPointerOffset_eq p) by (done || lia). cbv iota beta.
  set (i := Z.to_nat slot). set (ip := itemAt p i).
  destruct (NewItemPointer_fields (Offset ip) (Length ip) ItemFlagDead) as (Eo & El & Ef & Er);
    [apply Offset_range, itemAt_range|apply Length_range|done|].
  unfold put_le. rewrite blen_page by done. zbool. cbn [andb].
  replace (Z.to_nat (28 + 4 * slot)) with (28 + 4 * i)%nat by lia.
  eexists. split; [done|]. set (v := NewItemPointer _ _ _) in *.
  assert (items (splice (28 + 4 * i) (le_split 4 v) p) = <[i:=v]> (items p)) as EI
    by (apply items_splice_pointer; [done|lia|done]).
  assert (Header (splice (28 + 4 * i) (le_split 4 v) p) = Header p) as EH
    by (apply Header_splice; [done|unfold PageSize; lia]).
  destruct Hwf. split_and!; [|..|done].
  - split; rewrite ?EH, ?EI; try done.
    + by autorewrite with buflen.
    + apply Forall_insert; [done|]. unfold itemOk. by rewrite Ef.
    + rewrite (liveBytes_insert _ _ ip); [|apply items_lookup; lia].
      pose proof (liveLength_nonneg ip). unfold liveLength at 2. rewrite Ef, Z.eqb_refl. lia.
  - unfold tuples. rewrite EI, list_fmap_insert. f_equal; [unfold itemTuple; by rewrite Ef|].
    apply list_fmap_ext. intros j x Hx. eapply Forall_lookup_1 in wf_items0; [|exact Hx].
    unfold itemTuple. destruct (Z.eqb_spec (Flags x) ItemFlagDead); [done|]. f_equal.
    apply bslice_splice_out. specialize (wf_items0 ltac:(done)). rewrite length_le_split. lia.
Qed.

(** ** Inserting at a given slot (redo) *)

Lemma fillDead_spec k p n nitems :
  length p = Z.to_nat PageSize → 28 + 4 * Z.of_nat (n + k) ≤ PageSize →
  0 ≤ nitems → nitems + Z.of_nat k < 2 ^ 16 →
  ∃ q, fillDead k (28 + 4 * Z.of_nat n) nitems p
       = (q, Ok (28 + 4 * Z.of_nat (n + k), nitems + Z.of_nat k)) ∧
    length q = Z.to_nat PageSize ∧ Header q = Header p ∧
    (∀ j, (j < n)%nat → itemAt q j = itemAt p j) ∧
    (∀ j, (n ≤ j < n + k)%nat → itemAt q j = NewItemPointer 0 0 ItemFlagDead) ∧
    (∀ o m, (28 + 4 * (n + k) ≤ o)%nat → bslice o m q = bslice o m p).
Proof.
  revert p n nitems. induction k as [|k IH]; intros p n nitems Hp Hk Hn0 Hn.
  { exists p. cbn [fillDead]. mrun. split_and!; try done; [|lia].
    do 3 f_equal; [f_equal|]; lia. }
  unfold PageSize in *.
  cbn [fillDead]. mrun. unfold put_le at 1, blen. rewrite Hp. zbool. cbn [andb].
  set (p1 := splice _ _ p).
  assert (length p1 = Z.to_nat PageSize) as Hp1 by (unfold p1; by autorewrite with buflen).
  unfold ItemPointerSize. rewrite !u16_small by lia.
  destruct (IH p1 (S n) (nitems + 1)) as (q & Eq & Lq & Hq & Iq & Dq & Bq);
    [done|unfold PageSize; lia|lia|lia|].
  replace (28 + 4 * Z.of_nat n + 4) with (28 + 4 * Z.of_nat (S n)) by lia. rewrite Eq.
  exists q. unfold p1 in *. replace (Z.to_nat (28 + 4 * Z.of_nat n)) with (28 + 4 * n)%nat in * by lia.
  split_and!; [do 3 f_equal; [f_equal|]; lia|done|..].
  - rewrite Hq. apply Header_splice; [done|unfold PageSize; lia].
  - intros j Hj. rewrite Iq by lia.
    apply itemAt_splice_out; [done|unfold PageSize; lia|]. rewrite length_le_split. lia.
  - intros j Hj. destruct (decide (j = n)) as [->|]; [|apply Dq; lia]. rewrite Iq by lia.
    apply itemAt_splice_same; [done|unfold PageSize; lia|done].
  - intros o m Ho. rewrite Bq by lia. apply bslice_splice_out. rewrite length_le_split. lia.
Qed.

(** Does slot [slot] already hold the tuple, up to its deleted_tx field? *)
Definition holds (ts : list (option bytes)) (slot : Z) (data : bytes) : bool :=
  match ts !! Z.to_nat slot with
  | Some (Some t) => (blen t =? blen data) && sameTuple t data
  | _ => false
  end.

Lemma tupleAlreadyAt_holds p slot data :
  pageWf p → 0 ≤ slot < h_NItems (Header p) → blen data ≤ MaxTupleLength →
  tupleAlreadyAt (itemAt p (Z.to_nat slot)) data p = Ok (holds (tuples p) slot data).
Proof.
  intros Hwf Hs Hd. unfold tupleAlreadyAt, holds. change MaxTupleLength with 16383 in Hd.
  rewrite tuples_lookup by lia. unfold itemTuple. set (ip := itemAt p _).
  pose proof (blen_nonneg data). rewrite u16_small by lia.
  destruct (Z.eqb_spec (Flags ip) ItemFlagDead); cbn [negb andb]; [done|].
  rewrite slice_item; [|done|apply itemAt_range|apply item_ok_at; [done|lia]|done].
  assert (blen (bslice (Z.to_nat (Offset ip)) (Z.to_nat (Length ip)) p) = Length ip) as ->.
  { pose proof (item_ok_at p (Z.to_nat slot) Hwf ltac:(lia) ltac:(done)) as Hok. fold ip in Hok.
    pose proof (Length_range ip). pose proof (Offset_range ip (itemAt_range _ _)).
    unfold blen. rewrite length_bslice; [lia|]. rewrite (wf_length p Hwf). lia. }
  destruct (Z.eqb_spec (Length ip) (blen data)); done.
Qed.

(** Overwriting the pointer of an existing slot. *)
Lemma replace_place p i data :
  pageWf p → Z.of_nat i < h_NItems (Header p) → blen data ≤ FreeSpace p →
  let off := h_Upper (Header p) - blen data in
  let p' := place (insertedHeader (Header p) (h_Lower (Header p)) off (h_NItems (Header p)))
              i off data p in
  pageWf p' ∧ tuples p' = <[i := Some data]> (tuples p) ∧ pageIdent p' = pageIdent p ∧
  FreeSpace p' = FreeSpace p - blen data.
Proof.
  intros Hwf Hi Hfit off p'.
  pose proof (pageWf_bounds p Hwf) as (HN & HL & HU & HF). destruct Hwf.
  pose proof (blen_nonneg data) as Hb. rewrite HF in Hfit.
  assert (28 + 4 * Z.of_nat i + 4 ≤ off) as Hio by lia.
  assert (off + blen data = h_Upper (Header p)) as Hend by lia.
  assert (blen data ≤ MaxTupleLength) as Hmax by (change MaxTupleLength with 16383; lia).
  assert (Header p' = insertedHeader (Header p) (h_Lower (Header p)) off (h_NItems (Header p)))
    as EH by (apply Header_place; [done|apply insertedHeader_ok; lia]).
  destruct (place_ip i off data) as (Eo & El & Ef & Er); [lia|unfold PageSize; lia|done|].
  set (ip := NewItemPointer off (blen data) ItemFlagNormal) in *.
  assert (items p' = <[i:=ip]> (items p)) as EI.
  { apply list_eq. intros j. unfold items at 1. rewrite EH. cbn [insertedHeader h_NItems].
    destruct (decide (j < Z.to_nat (h_NItems (Header p)))%nat).
    - rewrite list_lookup_fmap, lookup_seq_lt by done. cbn [fmap option_fmap option_map].
      destruct (decide (i = j)) as [<-|].
      + rewrite list_lookup_insert_eq by (rewrite length_items; lia).
        f_equal. apply itemAt_place_same; unfold PageSize; done || lia.
      + rewrite list_lookup_insert_ne by done. rewrite items_lookup by done. f_equal.
        apply itemAt_place_other; unfold PageSize; done || lia.
    - rewrite !lookup_ge_None_2; [done|..];
        rewrite ?length_insert, ?length_items, ?length_fmap, ?length_seq; lia. }
  assert (pageWf p') as Hwf'.
  { split; rewrite ?EH, ?EI; cbn [insertedHeader h_Lower h_Upper h_NItems h_Special h_FreeSpace];
      unfold PageHeaderSize, ItemPointerSize, PageSize in *; try lia.
    + by apply length_place.
    + apply Forall_insert.
      * eapply Forall_impl; [done|]. intros ? ?. eapply itemOk_mono; [|done]. lia.
      * intros _. rewrite Eo, El. unfold PageSize. lia.
    + rewrite (liveBytes_insert _ _ (itemAt p i)) by (apply items_lookup; lia).
      pose proof (liveLength_nonneg (itemAt p i)).
      unfold liveLength at 2. rewrite Ef, El.
      change (ItemFlagNormal =? ItemFlagDead) with false. cbv iota. lia. }
  split_and!; [done|..].
  - unfold tuples. rewrite EI, list_fmap_insert. unfold p'.
    rewrite tuples_place by (unfold PageSize; done || lia || (by rewrite Hend)).
    f_equal. apply itemTuple_place_same; unfold PageSize; done || lia.
  - unfold pageIdent. by rewrite EH.
  - pose proof (pageWf_bounds p' Hwf') as (_ & _ & _ & ->). rewrite EH, HF.
    cbn [insertedHeader h_Lower h_Upper]. lia.
Qed.

(** What [InsertTupleAt] promises of the slot list; [None] is [ErrPageFull]. *)
Definition insertAtSpec (s : slotPage) (slot : Z) (data : bytes) : option slotPage :=
  let n := Z.of_nat (length (slots s)) in
  if slot <? n then
    if holds (slots s) slot data then Some s
    else if blen data <=? free s
    then Some {| slots := <[Z.to_nat slot := Some data]> (slots s); free := free s - blen data |}
    else None
  else
    let need := blen data + 4 * (slot + 1 - n) in
    if need <=? free s
    then Some {| slots := slots s ++ replicate (Z.to_nat (slot - n)) None ++ [Some data];
                 free := free s - need |}
    else None.

Lemma holds_short p slot data : pageWf p → holds (tuples p) slot data = true → blen data ≤ PageSize.
Proof.
  intros Hwf. unfold holds. destruct (tuples p !! _) as [[t|]|] eqn:E; [|done|done].
  intros [Hl _]%andb_prop. apply Z.eqb_eq in Hl. rewrite <- Hl.
  unfold tuples in E. apply list_lookup_fmap_Some in E as (ip & E & _).
  unfold itemTuple in E. destruct (Flags ip =? ItemFlagDead); [done|]. simplify_eq. unfold blen, bslice.
  rewrite length_take, length_drop, (wf_length p Hwf). unfold PageSize. lia.
Qed.

Lemma InsertTupleAt_spec p slot data :
  pageWf p → 0 ≤ slot → blen data + 4 * (slot + 1 - h_NItems (Header p)) < 2 ^ 16 →
  let r := insertAtSpec (slotsOf p) slot data in
  ∃ p', InsertTupleAt slot data p
        = (p', match r with Some _ => Ok tt | None => Err ErrPageFull end) ∧
    pageWf p' ∧ slotsOf p' = default (slotsOf p) r ∧ pageIdent p' = pageIdent p.
Proof.
  intros Hwf Hs Hov r. pose proof (pageWf_bounds p Hwf) as (HN & HL & HU & HF).
  pose proof (wf_length p Hwf) as Hlen. pose proof (blen_nonneg data) as Hb.
  assert (∀ b : list byte, length b = length p → blen b = 8192) as H8
    by (intros b Eb; unfold blen; rewrite Eb, Hlen; done).
  unfold r, InsertTupleAt, insertAtSpec. cbn [slotsOf slots free]. clear r.
  rewrite length_tuples, Z2Nat.id by lia.
  destruct (Z.ltb_spec MaxTupleLength (blen data)) as [Hbig|Hsmall].
  { exists p. change MaxTupleLength with 16383 in *. pose proof (holds_short p slot data Hwf) as Hh.
    change PageSize with 8192 in *. rewrite HF. zbool.
    destruct (slot <? _); [destruct (holds (tuples p) slot data); [specialize (Hh eq_refl); lia|]|]; done. }
  mrun. unfold ItemPointerSize. change MaxTupleLength with 16383 in *.
  rewrite !(u16_small (blen data)) by lia.
  destruct (Z.ltb_spec slot (h_NItems (Header p))) as [Hin|Hout].
  - rewrite itemPointer_eq by (done || lia). cbv beta iota.
    rewrite tupleAlreadyAt_holds by (done || lia). mrun.
    destruct (holds (tuples p) slot data); [by exists p|]. rewrite HF.
    destruct (Z.ltb_spec (h_Upper (Header p) - h_Lower (Header p)) (blen data)); zbool;
      [by exists p|].
    rewrite !(u16_small (h_Upper (Header p) - blen data)) by lia.
    rewrite (itemPointerOffset_eq p) by (done || lia). mrun.
    unfold copy_at, put_le. rewrite (H8 p) by done. zbool. cbn [andb]. mrun.
    rewrite (H8 (splice _ _ _)) by (by autorewrite with buflen). zbool. cbn [andb]. mrun.
    destruct (replace_place p (Z.to_nat slot) data) as (Hwf' & Ht & Hid & Hfr);
      [done|lia|lia|].
    eexists. split; [|split_and!; [exact Hwf'| |exact Hid]];
      [|unfold slotsOf; rewrite Ht, Hfr, HF; done].
    f_equal. unfold place, insertedHeader.
    rewrite u16_small by lia. do 2 f_equal. lia.
  - rewrite !(u16_small (slot + 1)), !(u16_small (slot + 1 - _)) by lia.
    rewrite !(u16_small ((slot + 1 - h_NItems (Header p)) * 4)) by lia.
    rewrite !u16_small by lia. rewrite HF.
    set (need := blen data + (slot + 1 - h_NItems (Header p)) * 4).
    destruct (Z.ltb_spec (h_Upper (Header p) - h_Lower (Header p)) need); unfold need in *; zbool;
      [by exists p|].
    set (k := Z.to_nat (slot - h_NItems (Header p))).
    destruct (fillDead_spec k p (Z.to_nat (h_NItems (Header p))) (h_NItems (Header p)))
      as (q & Eq & Lq & Hq & Iq & Dq & Bq); [done|unfold PageSize; lia|lia|lia|].
    replace (28 + 4 * Z.of_nat (Z.to_nat (h_NItems (Header p)))) with (h_Lower (Header p)) in Eq by lia.
    rewrite Eq. mrun. rewrite !(u16_small (h_Upper (Header p) - blen data)) by lia.
    unfold copy_at, put_le. rewrite (H8 q) by (by rewrite Lq, Hlen). zbool.
    cbn [andb]. mrun. rewrite (H8 (splice _ _ _)) by (autorewrite with buflen; by rewrite Lq, Hlen). zbool. cbn [andb]. mrun.
    destruct (append_place p q k data) as (Hwf' & Ht & Hid & Hfr);
      [done|done|lia|intros; apply Iq; lia|intros; apply Dq; lia|intros; apply Bq; lia|].
    eexists. split; [|split_and!; [exact Hwf'| |exact Hid]];
      [|unfold slotsOf; rewrite Ht, Hfr, HF; unfold default, id; cbv iota; f_equal; lia].
    f_equal. unfold place, insertedHeader.
    replace (28 + 4 * Z.of_nat (Z.to_nat (h_NItems (Header p)) + k) + 4)
      with (h_Lower (Header p) + 4 * Z.of_nat k + 4) by lia.
    rewrite !u16_small by lia. do 2 f_equal. lia.
Qed.

(** ** Compaction *)

(** Changing only bytes below the slot array, with the slot bounds kept. *)
Lemma header_frame p q :
  pageWf p → length q = length p →
  (∀ o n, (25 ≤ o)%nat → bslice o n q = bslice o n p) →
  h_Lower (Header q) = h_Lower (Header p) → h_Upper (Header q) = h_Upper (Header p) →
  h_Special (Header q) = h_Special (Header p) → h_NItems (Header q) = h_NItems (Header p) →
  h_FreeSpace (Header q) = h_FreeSpace (Header p) →
  pageWf q ∧ tuples q = tuples p.
Proof.
  intros Hwf Hl Hb E1 E2 E3 E4 E5. pose proof (pageWf_bounds p Hwf) as (HN & HL & HU & HF).
  assert (items q = items p) as EI.
  { unfold items. rewrite E4. apply list_fmap_ext. intros j x _. unfold itemAt, le_at.
    by rewrite Hb by lia. }
  destruct Hwf. split.
  - split; rewrite ?E1, ?E2, ?E3, ?E4, ?E5, ?EI, ?Hl; done.
  - unfold tuples. rewrite EI. apply list_fmap_ext. intros j x Hx.
    eapply Forall_lookup_1 in wf_items0; [|exact Hx]. unfold itemTuple.
    destruct (Z.eqb_spec (Flags x) ItemFlagDead); [done|]. rewrite Hb; [done|].
    specialize (wf_items0 ltac:(done)). lia.
Qed.

Lemma Header_SetLSN lsn p :
  length p = Z.to_nat PageSize → 0 ≤ lsn < 2 ^ 64 →
  Header (SetLSN lsn p) = {| h_LSN := lsn; h_Checksum := h_Checksum (Header p);
    h_Flags := h_Flags (Header p); h_Lower := h_Lower (Header p); h_Upper := h_Upper (Header p);
    h_Special := h_Special (Header p); h_PageType := h_PageType (Header p);
    h_NItems := h_NItems (Header p); h_FreeSpace := h_FreeSpace (Header p) |}.
Proof.
  intros Hp Hlsn. unfold SetLSN, Header at 1. f_equal.
  1: rewrite le_at_splice_same by blia; by apply Z.mod_small.
  all: apply le_at_splice_out; blia.
Qed.

Lemma Init_wf pageType :
  0 ≤ pageType < 2 ^ 8 →
  pageWf (Init pageType) ∧ tuples (Init pageType) = [] ∧
  pageIdent (Init pageType) = (0, 0, pageType) ∧ FreeSpace (Init pageType) = 8164.
Proof.
  intros Ht.
  assert (length zeroPage = Z.to_nat PageSize) as Hz by (unfold zeroPage; by rewrite length_replicate).
  assert (Header (Init pageType) = {| h_LSN := 0; h_Checksum := 0; h_Flags := 0;
    h_Lower := 28; h_Upper := 8192; h_Special := 8192; h_PageType := pageType; h_NItems := 0;
    h_FreeSpace := 8164 |}) as EH.
  { unfold Init. rewrite Header_writeHeader; [done|done|].
    unfold headerOk, PageHeaderSize, PageSize; cbn [h_LSN h_Checksum h_Flags h_Lower h_Upper
      h_Special h_PageType h_NItems h_FreeSpace]. lia. }
  assert (items (Init pageType) = []) as EI by (unfold items; by rewrite EH).
  split_and!.
  - split; rewrite ?EH, ?EI; cbn [h_Lower h_Upper h_NItems h_Special h_FreeSpace].
    1: unfold Init; rewrite length_writeHeader by exact Hz; reflexivity.
    all: clear; unfold PageHeaderSize, ItemPointerSize, PageSize;
      try apply Forall_nil_2; cbn [liveBytes foldr]; lia.
  - unfold tuples. by rewrite EI.
  - unfold pageIdent. rewrite EH. reflexivity.
  - unfold FreeSpace. rewrite EH. reflexivity.
Qed.

(** Space the live tuples of a slot list take on a fresh page. *)
Definition needBytes (ts : list (option bytes)) : Z :=
  foldr (λ t s, match t with Some d => blen d + 4 | None => 0 end + s) 0 ts.

Lemma needBytes_nonneg ts : 0 ≤ needBytes ts.
Proof.
  unfold needBytes. induction ts as [|[t|] ts IH]; simpl; [lia| |lia].
  pose proof (blen_nonneg t). lia.
Qed.

Lemma needBytes_tuples p : pageWf p → needBytes (tuples p) ≤ 8164 - FreeSpace p.
Proof.
  intros Hwf. pose proof (pageWf_bounds p Hwf) as (HN & HL & HU & ->). destruct Hwf.
  pose proof (length_items p) as Hli.
  enough (∀ l, Forall (itemOk (h_Upper (Header p))) l → Forall (λ ip, 0 ≤ ip < 2 ^ 32) l →
    needBytes (itemTuple p <$> l) ≤ liveBytes l + 4 * Z.of_nat (length l)) as Hall.
  { specialize (Hall (items p) wf_items0). unfold PageSize in *. unfold tuples.
    rewrite Hli in Hall. etrans; [apply Hall|lia].
    unfold items. apply Forall_fmap, Forall_true. intros. apply itemAt_range. }
  clear Hli wf_items0 wf_bytes0. intros l Hl Hr. induction Hl as [|ip l Hip Hl IH]; [done|].
  apply Forall_cons in Hr as [Hr1 Hr]. specialize (IH Hr). rewrite fmap_cons. cbn [needBytes foldr length liveBytes].
  fold (needBytes (itemTuple p <$> l)) (liveBytes l). unfold itemTuple at 1, liveLength.
  destruct (Z.eqb_spec (Flags ip) ItemFlagDead); [lia|]. specialize (Hip ltac:(done)).
  pose proof (Length_range ip). pose proof (Offset_range ip Hr1).
  unfold PageSize in *. unfold blen at 1. rewrite length_bslice by (rewrite wf_length0; lia). lia.
Qed.

Lemma compactLoop_spec p slots tmp :
  pageWf p → pageWf tmp → Forall (λ s, 0 ≤ s) slots →
  needBytes ((λ s, mjoin (tuples p !! Z.to_nat s)) <$> slots) ≤ FreeSpace tmp →
  ∃ tmp', compactLoop p slots tmp = Ok tmp' ∧ pageWf tmp' ∧
    tuples tmp' = tuples tmp ++ filter is_Some ((λ s, mjoin (tuples p !! Z.to_nat s)) <$> slots) ∧
    pageIdent tmp' = pageIdent tmp ∧
    FreeSpace tmp' = FreeSpace tmp - needBytes ((λ s, mjoin (tuples p !! Z.to_nat s)) <$> slots).
Proof.
  intros Hwf. revert tmp. induction slots as [|s slots IH]; intros tmp Htmp Hs Hneed.
  { exists tmp. rewrite app_nil_r. cbn. split_and!; done || lia. }
  apply Forall_cons in Hs as [Hs0 Hs]. rewrite fmap_cons in *. cbn [needBytes foldr compactLoop] in *.
  fold (needBytes ((λ s, mjoin (tuples p !! Z.to_nat s)) <$> slots)) in *.
  rewrite GetTuple_tuples by done. mrun. destruct (mjoin (tuples p !! Z.to_nat s)) as [d|].
  - pose proof (needBytes_nonneg ((λ s, mjoin (tuples p !! Z.to_nat s)) <$> slots)).
    destruct (InsertTuple_fits d tmp) as (tmp1 & -> & Hwf1 & Ht1 & Hid1 & Hf1); [done|lia|].
    destruct (IH tmp1) as (tmp' & -> & Hwf' & Ht' & Hid' & Hf'); [done|done|lia|].
    exists tmp'. split_and!; [done|done| |congruence|lia].
    rewrite Ht', Ht1, <- app_assoc. by rewrite filter_cons_True by done.
  - destruct (IH tmp) as (tmp' & -> & Hwf' & Ht' & Hid' & Hf'); [done|done|lia|].
    exists tmp'. split_and!; [done|done| |done|lia].
    rewrite Ht'. by rewrite filter_cons_False by (by intros []).
Qed.

Lemma tuples_by_slot p :
  (λ s, mjoin (tuples p !! Z.to_nat s)) <$> seqZ 0 (h_NItems (Header p)) = tuples p.
Proof.
  pose proof (Header_ok p) as Hh. unfold headerOk in Hh.
  apply list_eq. intros i. rewrite list_lookup_fmap.
  destruct (decide (Z.of_nat i < h_NItems (Header p))).
  - rewrite lookup_seqZ_lt by done. cbn [fmap option_fmap option_map].
    rewrite Z.add_0_l, Nat2Z.id. by rewrite tuples_lookup by done.
  - rewrite !lookup_ge_None_2; [done|rewrite length_tuples|rewrite length_seqZ]; lia.
Qed.

Lemma compactFinish_spec h tmp :
  headerOk h → pageWf tmp →
  let q := compactFinish h tmp in
  pageWf q ∧ tuples q = tuples tmp ∧ FreeSpace q = FreeSpace tmp ∧
  pageIdent q = (h_LSN h, h_Flags h, h_PageType (Header tmp)).
Proof.
  intros Hh Hwt q. unfold headerOk in Hh.
  pose proof (wf_length tmp Hwt) as Hlt. pose proof (Header_ok tmp) as Hht. unfold headerOk in Hht.
  assert (length (SetLSN (h_LSN h) tmp) = Z.to_nat PageSize) as Hls
    by (unfold SetLSN; rewrite length_splice; exact Hlt).
  assert (Header q = {| h_LSN := h_LSN h; h_Checksum := h_Checksum (Header tmp);
    h_Flags := h_Flags h; h_Lower := h_Lower (Header tmp); h_Upper := h_Upper (Header tmp);
    h_Special := h_Special (Header tmp); h_PageType := h_PageType (Header tmp);
    h_NItems := h_NItems (Header tmp); h_FreeSpace := h_FreeSpace (Header tmp) |}) as EH.
  { unfold q, compactFinish. rewrite Header_SetLSN by first [exact Hlt | apply Hh].
    rewrite Header_writeHeader; [reflexivity|exact Hls|].
    unfold headerOk; cbn [h_LSN h_Checksum h_Flags h_Lower h_Upper h_Special h_PageType
      h_NItems h_FreeSpace]. lia. }
  destruct (header_frame tmp q) as [Hw Ht];
    [exact Hwt| | |rewrite EH; reflexivity..|].
  { unfold q, compactFinish. rewrite length_writeHeader, Hlt by exact Hls. reflexivity. }
  { intros o n Ho. unfold q, compactFinish. rewrite bslice_writeHeader by assumption.
    apply bslice_splice_out. rewrite length_le_split. unfold offLSN. lia. }
  split; [exact Hw|]. split; [exact Ht|]. split.
  - unfold FreeSpace. rewrite EH. reflexivity.
  - unfold pageIdent. rewrite EH. reflexivity.
Qed.

Lemma Compact_spec p :
  pageWf p →
  ∃ p', Compact p = Ok p' ∧ pageWf p' ∧ pageIdent p' = pageIdent p ∧
    tuples p' = filter is_Some (tuples p) ∧ FreeSpace p' = 8164 - needBytes (tuples p).
Proof.
  intros Hwf. pose proof (Header_ok p) as Hh.
  destruct (Init_wf (h_PageType (Header p))) as (Hwi & Hti & Hii & Hfi);
    [unfold headerOk in Hh; lia|].
  set (init := Init (h_PageType (Header p))) in *.
  destruct (compactLoop_spec p (seqZ 0 (h_NItems (Header p))) init)
    as (tmp & Et & Hwt & Htt & Hit & Hft); [exact Hwf|exact Hwi| |..].
  { apply Forall_forall. intros x Hx%elem_of_seqZ. lia. }
  { rewrite tuples_by_slot, Hfi. pose proof (needBytes_tuples p Hwf).
    pose proof (pageWf_bounds p Hwf). lia. }
  rewrite tuples_by_slot in Htt, Hft. rewrite Hti in Htt. rewrite Hfi in Hft. rewrite Hii in Hit.
  destruct (compactFinish_spec (Header p) tmp Hh Hwt) as (Hw & Ht & Hf & Hid).
  exists (compactFinish (Header p) tmp). split.
  { unfold Compact. fold init. rewrite Et. reflexivity. }
  split; [exact Hw|]. rewrite Hid, Ht, Hf. split_and!; [|exact Htt|exact Hft].
  unfold pageIdent in *. congruence.
Qed.

(** ** Checksums *)

Lemma ComputeChecksum_pure p :
  length p = Z.to_nat PageSize → fst (ComputeChecksum p) = p.
Proof.
  intros Hp. assert (offChecksum + 4 ≤ length p)%nat by (unfold PageSize in Hp; blia).
  unfold ComputeChecksum. cbn [fst].
  rewrite splice_splice by (rewrite ?length_le_split; lia).
  rewrite le_split_le_at by lia. by apply splice_self.
Qed.

Lemma VerifyChecksum_crc p :
  VerifyChecksum p = (le_at 4 offChecksum p =? crc32 (splice offChecksum (le_split 4 0) p)).
Proof. reflexivity. Qed.

Lemma SetChecksum_eq p :
  length p = Z.to_nat PageSize →
  SetChecksum p = splice offChecksum (le_split 4 (crc32 (splice offChecksum (le_split 4 0) p))) p.
Proof.
  intros Hp. unfold SetChecksum. pose proof (ComputeChecksum_pure p Hp) as Hc.
  destruct (ComputeChecksum p) as [p' crc] eqn:E. cbn [fst] in Hc. subst p'.
  unfold ComputeChecksum in E. by injection E as _ <-.
Qed.

Lemma VerifyChecksum_SetChecksum p :
  length p = Z.to_nat PageSize → VerifyChecksum (SetChecksum p) = true.
Proof.
  intros Hp. assert (offChecksum + 4 ≤ length p)%nat by (unfold PageSize in Hp; blia).
  rewrite VerifyChecksum_crc, SetChecksum_eq by done. apply Z.eqb_eq.
  rewrite splice_splice by (rewrite ?length_le_split; lia).
  rewrite le_at_splice_same by lia. apply Z.mod_small. apply crc32_range.
Qed.

Lemma VerifyChecksum_corrupt q o d :
  length q = Z.to_nat PageSize → VerifyChecksum q = true →
  (length d ≤ 4)%nat → (o + length d ≤ length q)%nat →
  (o + length d ≤ 8 ∨ 12 ≤ o ∨ 8 ≤ o ∧ o + length d ≤ 12)%nat →
  splice o d q ≠ q → VerifyChecksum (splice o d q) = false.
Proof.
  intros Hq Hv H4 Hr Hwin Hne. assert (offChecksum + 4 ≤ length q)%nat by (unfold PageSize in Hq; blia).
  rewrite VerifyChecksum_crc in *. apply Z.eqb_eq in Hv. apply Z.eqb_neq.
  unfold offChecksum in *.
  assert (d ≠ bslice o (length d) q) as Hd.
  { intros E. apply Hne. rewrite E at 1. apply splice_self. lia. }
  destruct (decide (8 ≤ o ∧ o + length d ≤ 12)%nat) as [Hin|Hout].
  - assert (splice 8 (le_split 4 0) (splice o d q) = splice 8 (le_split 4 0) q) as ->.
    { apply list_eq. intros i. destruct (decide (8 ≤ i < 8 + 4)%nat).
      - by rewrite !splice_lookup_in by (rewrite ?length_splice, ?length_le_split; lia).
      - rewrite !splice_lookup_out by (rewrite ?length_le_split; lia). done. }
    rewrite <- Hv. intros E. apply le_at_inj in E; [|rewrite ?length_splice; lia..].
    apply Hd. apply (f_equal (bslice (o - 8) (length d))) in E.
    rewrite !bslice_bslice in E by lia. replace (8 + (o - 8))%nat with o in E by lia.
    by rewrite bslice_splice_same in E by lia.
  - rewrite le_at_splice_out by lia. rewrite Hv.
    rewrite splice_comm by (rewrite ?length_le_split; lia).
    apply not_eq_sym, crc32_splice; [done|by rewrite length_splice|].
    by rewrite bslice_splice_out by (rewrite length_le_split; lia).
Qed.

(** ** The page as an abstract machine *)

(** The operations a client performs on a page. *)
Inductive pageOp : Type :=
| POInsert (data : bytes)
| POInsertAt (slot : Z) (data : bytes)
| POMarkDead (slot : Z)
| POCompact
| POGet (slot : Z).

(** What an operation answers: a slot, a tuple, or nothing. *)
Inductive pageAns : Type :=
| ASlot (slot : Z)
| ATuple (t : option bytes)
| AUnit.

Definition stepPage (op : pageOp) (p : bytes) : bytes * outcome page_error pageAns :=
  match op with
  | POInsert d => let '(p', r) := InsertTuple d p in (p', ASlot <$> r)
  | POInsertAt s d => let '(p', r) := InsertTupleAt s d p in (p', (λ _, AUnit) <$> r)
  | POMarkDead s => let '(p', r) := MarkDead s p in (p', (λ _, AUnit) <$> r)
  | POCompact =>
      match Compact p with Ok p' => (p', Ok AUnit) | Err e => (p, Err e) | Panic => (p, Panic) end
  | POGet s => (p, ATuple <$> GetTuple p s)
  end.

(** The specification: a list of slots with a byte budget. *)
Definition stepSlots (op : pageOp) (s : slotPage) : slotPage * outcome page_error pageAns :=
  match op with
  | POInsert d =>
      if blen d + 4 <=? free s
      then ({| slots := slots s ++ [Some d]; free := free s - (blen d + 4) |},
            Ok (ASlot (Z.of_nat (length (slots s)))))
      else (s, Err ErrPageFull)
  | POInsertAt i d =>
      match insertAtSpec s i d with
      | Some s' => (s', Ok AUnit)
      | None => (s, Err ErrPageFull)
      end
  | POMarkDead i => ({| slots := <[Z.to_nat i := None]> (slots s); free := free s |}, Ok AUnit)
  | POCompact => ({| slots := filter is_Some (slots s); free := 8164 - needBytes (slots s) |}, Ok AUnit)
  | POGet i => (s, Ok (ATuple (mjoin (slots s !! Z.to_nat i))))
  end.

(** Slot numbers are [uint16]; a redo insertion must not skip so many slots that
    the 16-bit size computation wraps. *)
Definition opOk (s : slotPage) (op : pageOp) : Prop :=
  match op with
  | POInsert _ | POCompact => True
  | POMarkDead i | POGet i => 0 ≤ i
  | POInsertAt i d => 0 ≤ i ∧ blen d + 4 * (i + 1 - Z.of_nat (length (slots s))) < 2 ^ 16
  end.

Fixpoint runPage (ops : list pageOp) (p : bytes) : bytes * list (outcome page_error pageAns) :=
  match ops with
  | [] => (p, [])
  | op :: rest =>
      let '(p', r) := stepPage op p in
      let '(p'', rs) := runPage rest p' in (p'', r :: rs)
  end.

Fixpoint runSlots (ops : list pageOp) (s : slotPage) : slotPage * list (outcome page_error pageAns) :=
  match ops with
  | [] => (s, [])
  | op :: rest =>
      let '(s', r) := stepSlots op s in
      let '(s'', rs) := runSlots rest s' in (s'', r :: rs)
  end.

Fixpoint opsOk (ops : list pageOp) (s : slotPage) : Prop :=
  match ops with
  | [] => True
  | op :: rest => opOk s op ∧ opsOk rest (fst (stepSlots op s))
  end.

Lemma stepPage_refines op p :
  pageWf p → opOk (slotsOf p) op →
  ∃ p', stepPage op p = (p', snd (stepSlots op (slotsOf p))) ∧ pageWf p' ∧
    slotsOf p' = fst (stepSlots op (slotsOf p)) ∧ pageIdent p' = pageIdent p.
Proof.
  intros Hwf Hok. pose proof (pageWf_bounds p Hwf) as (HN & _).
  destruct op as [d|i d|i| |i]; cbn [stepPage stepSlots opOk slotsOf slots free] in *.
  - destruct (Z.leb_spec (blen d + 4) (FreeSpace p)).
    + destruct (InsertTuple_fits d p) as (p' & -> & ? & Ht & ? & Hf); [done..|].
      exists p'. cbn [fst snd]. split_and!; [|done| |done].
      * by rewrite length_tuples, Z2Nat.id by lia.
      * unfold slotsOf. by rewrite Ht, Hf.
    + rewrite InsertTuple_full by (done || lia). by exists p.
  - destruct Hok as [Hi Hov]. rewrite length_tuples, Z2Nat.id in Hov by lia.
    destruct (InsertTupleAt_spec p i d Hwf Hi Hov) as (p' & -> & ? & Hs & ?).
    fold (slotsOf p). exists p'. by destruct (insertAtSpec (slotsOf p) i d).
  - destruct (MarkDead_tuples p i Hwf Hok) as (p' & -> & ? & Ht & Hh). exists p'.
    split_and!; [done|done| |]; [|unfold pageIdent; by rewrite Hh].
    unfold slotsOf, FreeSpace. by rewrite Ht, Hh.
  - destruct (Compact_spec p Hwf) as (p' & -> & ? & ? & Ht & Hf). exists p'.
    split_and!; [done|done| |done]. unfold slotsOf. cbn [fst]. by rewrite Ht, Hf.
  - exists p. by rewrite GetTuple_tuples.
Qed.

Lemma runPage_refines ops p :
  pageWf p → opsOk ops (slotsOf p) →
  ∃ p', runPage ops p = (p', snd (runSlots ops (slotsOf p))) ∧ pageWf p' ∧
    slotsOf p' = fst (runSlots ops (slotsOf p)) ∧ pageIdent p' = pageIdent p.
Proof.
  revert p. induction ops as [|op ops IH]; intros p Hwf Hok; [by exists p|].
  destruct Hok as [Hop Hok]. cbn [runPage runSlots].
  destruct (stepPage_refines op p Hwf Hop) as (p1 & -> & Hwf1 & Hs1 & Hid1).
  destruct (stepSlots op (slotsOf p)) as [s1 r1]. cbn [fst snd] in *.
  destruct (IH p1 Hwf1) as (p2 & -> & Hwf2 & Hs2 & Hid2); [by rewrite Hs1|].
  rewrite Hs1 in *. destruct (runSlots ops s1) as [s2 rs]. exists p2.
  split_and!; [done..|congruence].
Qed.

Lemma sameTuple_refl d : sameTuple d d = true.
Proof.
  unfold sameTuple. destruct (_ && _); rewrite ?bool_decide_eq_true_2; done.
Qed.

Lemma InsertTupleAt_noop p slot data :
  pageWf p → 0 ≤ slot < h_NItems (Header p) → holds (tuples p) slot data = true →
  InsertTupleAt slot data p = (p, Ok tt).
Proof.
  intros Hwf Hs Hh. pose proof (holds_short p slot data Hwf Hh) as Hl. unfold PageSize in Hl.
  unfold InsertTupleAt. rewrite (proj2 (Z.ltb_ge MaxTupleLength _)) by (change MaxTupleLength with 16383; lia).
  mrun. zbool. rewrite itemPointer_eq by done. cbv beta iota.
  rewrite tupleAlreadyAt_holds, Hh; [done|done|done|change MaxTupleLength with 16383; lia].
Qed.

(** After a successful redo insertion the slot holds the tuple. *)
Lemma insertAtSpec_holds s s' slot data :
  0 ≤ slot → insertAtSpec s slot data = Some s' →
  slot < Z.of_nat (length (slots s')) ∧ holds (slots s') slot data = true.
Proof.
  intros Hs. unfold insertAtSpec.
  assert (∀ ts, ts !! Z.to_nat slot = Some (Some data) → holds ts slot data = true) as Hin.
  { intros ts E. unfold holds. rewrite E, Z.eqb_refl, sameTuple_refl. done. }
  destruct (Z.ltb_spec slot (Z.of_nat (length (slots s)))).
  - destruct (holds (slots s) slot data) eqn:E; [by intros [= <-]|].
    destruct (blen data <=? free s); [|done]. intros [= <-]. cbn [slots].
    rewrite length_insert. split; [done|]. apply Hin, list_lookup_insert_eq. lia.
  - destruct (_ <=? _); [|done]. intros [= <-]. cbn [slots].
    rewrite !length_app, length_replicate. simpl length. split; [lia|]. apply Hin.
    rewrite lookup_app_r by lia. rewrite lookup_app_r by (rewrite length_replicate; lia).
    rewrite length_replicate.
    replace (Z.to_nat slot - _ - _)%nat with 0%nat by lia. done.
Qed.

(** ** Properties *)

(** C1: The slotted page implements the abstract machine "list of slots with a
    byte budget".  Starting from an initialised page, every sequence of inserts,
    redo inserts, deletions, compactions and reads answers exactly what the
    abstract machine answers, never panics, keeps the page well formed and keeps
    LSN, flags and page type. *)
Theorem page_refines_slots (t : Z) (ops : list pageOp) :
  0 ≤ t < 2 ^ 8 → opsOk ops {| slots := []; free := 8164 |} →
  ∃ p', runPage ops (Init t) = (p', snd (runSlots ops {| slots := []; free := 8164 |})) ∧
    pageWf p' ∧ slotsOf p' = fst (runSlots ops {| slots := []; free := 8164 |}) ∧
    pageIdent p' = (0, 0, t).
Proof.
  intros Ht Hok. destruct (Init_wf t Ht) as (Hwf & Hs & Hid & Hf).
  rewrite <- Hid. assert (slotsOf (Init t) = {| slots := []; free := 8164 |}) as E
    by (unfold slotsOf; by rewrite Hs, Hf).
  rewrite <- E in *. by apply runPage_refines.
Qed.

Lemma page_refines_slots_witness :
  ∃ p', runPage [POInsert [Byte.x61; Byte.x62]; POInsertAt 2 [Byte.x63]; POMarkDead 0; POGet 2;
                 POCompact; POGet 0] (Init 1)
        = (p', [Ok (ASlot 0); Ok AUnit; Ok AUnit; Ok (ATuple (Some [Byte.x63])); Ok AUnit;
                Ok (ATuple (Some [Byte.x63]))]).
Proof.
  destruct (page_refines_slots 1 [POInsert [Byte.x61; Byte.x62]; POInsertAt 2 [Byte.x63];
    POMarkDead 0; POGet 2; POCompact; POGet 0]) as (p' & E & _); [lia| |].
  - vm_compute. repeat split; discriminate.
  - exists p'. rewrite E. reflexivity.
Defined.

(** C29: Compaction keeps every live tuple, in slot order, and only those: no
    copy into the fresh page can fail, as the comment in the code says. *)
Theorem Compact_keeps_live (p : bytes) :
  pageWf p →
  ∃ p', Compact p = Ok p' ∧ pageWf p' ∧ tuples p' = filter is_Some (tuples p) ∧
    pageIdent p' = pageIdent p ∧ FreeSpace p ≤ FreeSpace p'.
Proof.
  intros Hwf. destruct (Compact_spec p Hwf) as (p' & E & Hw & Hid & Ht & Hf).
  pose proof (needBytes_tuples p Hwf). exists p'.
  split_and!; [exact E|exact Hw|exact Ht|exact Hid|lia].
Qed.

Lemma Compact_keeps_live_witness :
  ∃ p', Compact (Init 1) = Ok p' ∧ tuples p' = [].
Proof.
  destruct (Init_wf 1) as (Hwf & Ht & _); [lia|].
  destruct (Compact_keeps_live (Init 1) Hwf) as (p' & E & _ & Ht' & _).
  exists p'. rewrite Ht', Ht. split; [exact E|reflexivity].
Defined.

(** Redo is idempotent: once [InsertTupleAt] has put a tuple into a slot,
    replaying it leaves the page byte for byte as it is. *)
Theorem InsertTupleAt_idempotent (p p1 : bytes) (slot : Z) (data : bytes) :
  pageWf p → 0 ≤ slot → blen data + 4 * (slot + 1 - h_NItems (Header p)) < 2 ^ 16 →
  InsertTupleAt slot data p = (p1, Ok tt) → InsertTupleAt slot data p1 = (p1, Ok tt).
Proof.
  intros Hwf Hs Hov E. destruct (InsertTupleAt_spec p slot data Hwf Hs Hov) as (p' & E' & Hwf1 & Hs1 & _).
  rewrite E in E'. destruct (insertAtSpec (slotsOf p) slot data) as [s'|] eqn:Es; [|done].
  injection E' as <-. unfold default, id in Hs1. cbv iota in Hs1. subst s'.
  apply insertAtSpec_holds in Es as [Hl Hh]; [|done]. unfold slotsOf in *. cbn [slots] in *.
  rewrite length_tuples in Hl. apply InsertTupleAt_noop; [done|lia|done].
Qed.

Lemma InsertTupleAt_idempotent_witness :
  let p1 := fst (InsertTupleAt 1 [Byte.x61] (Init 1)) in
  InsertTupleAt 1 [Byte.x61] p1 = (p1, Ok tt).
Proof.
  intros p1. destruct (Init_wf 1) as (Hwf & _ & _ & _); [lia|].
  apply (InsertTupleAt_idempotent (Init 1) p1 1 [Byte.x61] Hwf); [lia| |].
  - vm_compute. reflexivity.
  - vm_compute. reflexivity.
Defined.

(** A page whose checksum has been set verifies, and any change confined to
    at most four consecutive bytes (a single byte anywhere in particular; the
    window may not straddle the border of the checksum field) is detected. *)
Theorem checksum_detects_corruption (p : bytes) (o : nat) (d : bytes) :
  length p = Z.to_nat PageSize →
  (length d ≤ 4)%nat → (o + length d ≤ Z.to_nat PageSize)%nat →
  (o + length d ≤ 8 ∨ 12 ≤ o ∨ 8 ≤ o ∧ o + length d ≤ 12)%nat →
  VerifyChecksum (SetChecksum p) = true ∧
  (splice o d (SetChecksum p) ≠ SetChecksum p →
   VerifyChecksum (splice o d (SetChecksum p)) = false).
Proof.
  intros Hp H4 Hr Hwin. assert (length (SetChecksum p) = Z.to_nat PageSize) as Hl
    by (rewrite SetChecksum_eq by exact Hp; rewrite length_splice; exact Hp).
  pose proof (VerifyChecksum_SetChecksum p Hp) as Hv. split; [exact Hv|].
  apply VerifyChecksum_corrupt; [exact Hl|exact Hv|exact H4|rewrite Hl; exact Hr|exact Hwin].
Qed.

Lemma checksum_detects_corruption_witness :
  VerifyChecksum (splice 100 [Byte.xff] (SetChecksum (Init 1))) = false.
Proof.
  destruct (Init_wf 1) as (Hwf & _ & _ & _); [lia|].
  apply (checksum_detects_corruption (Init 1) 100 [Byte.xff]).
  - exact (wf_length _ Hwf).
  - simpl. lia.
  - change (length [Byte.xff]) with 1%nat. unfold PageSize. lia.
  - simpl. lia.
  - intros E. apply (f_equal (λ b, b !! 100%nat)) in E. vm_compute in E. discriminate.
Defined.

(** The size check of [InsertTupleAt] is computed in 16 bits and wraps: asked
    for slot 16383 of an empty page it accepts the request, and the padding loop
    then runs off the page (a run-time panic) instead of reporting a full page. *)
Example InsertTupleAt_gap_wraps :
  snd (InsertTupleAt 16383 [Byte.x61] (Init 1)) = Panic.
Proof. vm_compute. reflexivity. Qed.
