(* ===== verification/Fsm.v ===== *)
(** * The free space map

    [server/internal/core/storage/fsm]: a complete binary tree in an array,
    one leaf per page of a table, each leaf a free-space category (units of 32
    bytes) and each inner node the maximum of its children.  The abstraction
    [cats] reads the map as the list of the categories of its pages; the
    operations are shown to act on that list, [Search] to return the first
    page that qualifies. *)

From S2P Require Import Prelude Bytes.

Definition CategoryGranularity : Z := 32.

(** [nodes] is [None] for the nil slice of a map under construction. *)
Record FSM : Type := mkFSM { path : string; nodes : option (list Z); nPages : Z }.

Inductive fsm_error : Type :=
| LoopsForever    (** not an error value of the code: the call never returns *)
| ErrNoBackingPath
| ErrReadFile
| ErrBadFileHeader
| ErrTruncated.

Abbreviation fsm_result := (outcome fsm_error).

(** ** Array accesses *)

Definition nodesOf (f : FSM) : list Z := default [] (nodes f).
Definition lenNodes (ns : list Z) : Z := Z.of_nat (length ns).

Definition nodeAt (ns : list Z) (i : Z) : fsm_result Z := must (ns !! Z.to_nat i).
Definition setNode (i v : Z) (ns : list Z) : fsm_result (list Z) :=
  if i <? lenNodes ns then Ok (<[Z.to_nat i := v]> ns) else Panic.

(** ** Operations *)

Definition max8 (a b : Z) : Z := if b <? a then a else b.

Definition category (freeBytes : Z) : Z :=
  let c := freeBytes / CategoryGranularity in
  if 255 <? c then u8 255 else u8 c.

Definition requestCategory (minFree : Z) : Z :=
  let c := u32 (u32 minFree + CategoryGranularity - 1) / CategoryGranularity in
  if 255 <? c then u8 255 else u8 c.

(** [for i := leafStart - 1; i >= 1; i--]: the loop from [i] down. *)
Fixpoint rebuildFrom (i : nat) (ns : list Z) : fsm_result (list Z) :=
  match i with
  | O => Ok ns
  | S i' =>
      a ← nodeAt ns (2 * Z.of_nat i);
      b ← nodeAt ns (2 * Z.of_nat i + 1);
      ns ← setNode (Z.of_nat i) (max8 a b) ns;
      rebuildFrom i' ns
  end.

Definition rebuildInternal (ns : list Z) : fsm_result (list Z) :=
  rebuildFrom (Z.to_nat (lenNodes ns / 2 - 1)) ns.

(** [for capacity < nPages { capacity *= 2 }] on [uint32]. *)
Fixpoint growCapacity (fuel : nat) (capacity nPages : Z) : option Z :=
  match fuel with
  | O => None
  | S fuel =>
      if capacity <? nPages then growCapacity fuel (u32 (capacity * 2)) nPages
      else Some capacity
  end.

(** The copy of the first [count] old leaves from page [p] on. *)
Fixpoint copyLeaves (count : nat) (p capacity oldLeaf : Z) (old ns : list Z)
    : fsm_result (list Z) :=
  match count with
  | O => Ok ns
  | S count =>
      x ← nodeAt old (u32 (oldLeaf + p));
      ns ← setNode (u32 (capacity + p)) x ns;
      copyLeaves count (p + 1) capacity oldLeaf old ns
  end.

Definition resize (f : FSM) (n : Z) : fsm_result FSM :=
  match growCapacity 33 1 n with
  | None => Err LoopsForever
  | Some capacity =>
      let ns := replicate (Z.to_nat (u32 (2 * capacity))) 0 in
      ns ← match nodes f with
           | None => Ok ns
           | Some old =>
               copyLeaves (Z.to_nat (nPages f)) 0 capacity (u32 (lenNodes old / 2)) old ns
           end;
      ns ← rebuildInternal ns;
      Ok (mkFSM (path f) (Some ns) n)
  end.

Definition New (pth : string) (n : Z) : fsm_result FSM := resize (mkFSM pth None 0) n.

Definition PageCount (f : FSM) : Z := nPages f.

Definition Grow (f : FSM) (n : Z) : fsm_result FSM :=
  if n <=? nPages f then Ok f
  else if n <=? u32 (lenNodes (nodesOf f) / 2) then Ok (mkFSM (path f) (nodes f) n)
  else resize f n.

(** The descent of [Search] from [node]. *)
Fixpoint descend (fuel : nat) (ns : list Z) (want leafStart node : Z) : fsm_result Z :=
  match fuel with
  | O => Err LoopsForever
  | S fuel =>
      if node <? leafStart then
        let left := u32 (2 * node) in
        let right := u32 (2 * node + 1) in
        l ← nodeAt ns left;
        descend fuel ns want leafStart (if want <=? l then left else right)
      else Ok node
  end.

Definition Search (f : FSM) (minFree : Z) : fsm_result (Z * bool) :=
  if nPages f =? 0 then Ok (0, false) else
  let want := requestCategory minFree in
  let ns := nodesOf f in
  let leafStart := u32 (lenNodes ns / 2) in
  root ← nodeAt ns 1;
  if root <? want then Ok (0, false) else
  node ← descend 33 ns want leafStart 1;
  let pageNo := u32 (node - leafStart) in
  if nPages f <=? pageNo then Ok (0, false) else Ok (pageNo, true).

(** The loop of [Update] over the ancestors, from [node] up. *)
Fixpoint fixAncestors (fuel : nat) (node : Z) (ns : list Z) : fsm_result (list Z) :=
  match fuel with
  | O => Err LoopsForever
  | S fuel =>
      if 1 <=? node then
        a ← nodeAt ns (u32 (2 * node));
        b ← nodeAt ns (u32 (2 * node + 1));
        cur ← nodeAt ns node;
        let newVal := max8 a b in
        if cur =? newVal then Ok ns else
        ns ← setNode node newVal ns;
        fixAncestors fuel (node / 2) ns
      else Ok ns
  end.

Definition Update (f : FSM) (pageNo freeBytes : Z) : fsm_result FSM :=
  f ← (if nPages f <=? pageNo then
         if u32 (lenNodes (nodesOf f) / 2) <=? pageNo then resize f (u32 (pageNo + 1))
         else Ok (mkFSM (path f) (nodes f) (u32 (pageNo + 1)))
       else Ok f);
  let ns := nodesOf f in
  let leafStart := u32 (lenNodes ns / 2) in
  let leafIdx := u32 (leafStart + pageNo) in
  ns ← setNode leafIdx (category freeBytes) ns;
  ns ← fixAncestors 33 (leafIdx / 2) ns;
  Ok (mkFSM (path f) (Some ns) (nPages f)).

(** ** Persistence *)

(** The file operations [Save] issues, in order. *)
Inductive fileOp : Type :=
| WriteFile (name : string) (content : bytes)
| Rename (from to : string).

Definition magic : bytes := map byte.of_Z [86; 70; 83; 77].  (* "VFSM" *)

Definition tmpName (p : string) : string := (p +:+ ".tmp")%string.

Definition Save (f : FSM) : fsm_result (list fileOp) :=
  if String.eqb (path f) EmptyString then Err ErrNoBackingPath else
  let ns := nodesOf f in
  let leafStart := u32 (lenNodes ns / 2) in
  let buf := replicate (Z.to_nat (u32 (8 + nPages f))) Byte.x00 in
  let buf := splice 0 magic buf in
  buf ← must (put_le 4 4 (nPages f) buf);
  let hi := u32 (leafStart + nPages f) in
  if (lenNodes ns <? hi) || (hi <? leafStart) then Panic else
  let leaves := map byte.of_Z
    (take (Z.to_nat (hi - leafStart)) (drop (Z.to_nat leafStart) ns)) in
  buf ← must (copy_at 8 leaves buf);
  Ok [WriteFile (tmpName (path f)) buf; Rename (tmpName (path f)) (path f)].

(** [content] is what [os.ReadFile] returns. *)
Definition Load (pth : string) (content : option bytes) : fsm_result FSM :=
  match content with
  | None => Err ErrReadFile
  | Some buf =>
      if (blen buf <? 8) || negb (bool_decide (take 4 buf = magic)) then Err ErrBadFileHeader else
      let n := le_at 4 4 buf in
      if u32 (blen buf - 8) <? n then Err ErrTruncated else
      f ← New pth n;
      let ns := nodesOf f in
      let leafStart := u32 (lenNodes ns / 2) in
      src ← must (slice 8 (u32 (8 + n)) buf);
      if lenNodes ns <? leafStart then Panic else
      let ns := take (Z.to_nat leafStart) ns
                ++ take (length ns - Z.to_nat leafStart) (map byte.unsigned src)
                ++ drop (Z.to_nat leafStart + length src) ns in
      ns ← rebuildInternal ns;
      Ok (mkFSM pth (Some ns) n)
  end.

(** ** Concrete runs *)

Example run_update_search :
  (f ← New "t" 3; f ← Update f 1 4000; f ← Update f 2 8164; Search f 5000) = Ok (2, true).
Proof. vm_compute. reflexivity. Qed.

(** ** Abstraction and invariant *)

(** Node [i] of the array, 0 outside of it. *)
Definition nd (ns : list Z) (i : Z) : Z := default 0 (ns !! Z.to_nat i).

(** The first leaf. *)
Definition leaf (f : FSM) : Z := lenNodes (nodesOf f) / 2.

(** The categories of the tracked pages. *)
Definition cats (f : FSM) : list Z :=
  (λ p : nat, nd (nodesOf f) (leaf f + Z.of_nat p)) <$> seq 0 (Z.to_nat (nPages f)).

Definition heapAt (ns : list Z) (i : Z) : Prop := nd ns i = nd ns (2 * i) `max` nd ns (2 * i + 1).

(** [cap] leaves, every inner node the maximum of its children, leaves beyond
    the tracked pages 0. *)
Record treeOk (cap : Z) (ns : list Z) (n : Z) : Prop := {
  tree_pow : ∃ k, 0 ≤ k ≤ 30 ∧ cap = 2 ^ k;
  tree_len : lenNodes ns = 2 * cap;
  tree_n : 0 ≤ n ≤ cap;
  tree_range : ∀ i, 0 ≤ nd ns i < 256;
  tree_heap : ∀ i, 1 ≤ i < cap → heapAt ns i;
  tree_free : ∀ p, n ≤ p → nd ns (cap + p) = 0 }.

Definition fsmWf (f : FSM) : Prop := treeOk (leaf f) (nodesOf f) (nPages f).

(** What the operations do to the list of categories. *)
Definition growSpec (n : Z) (l : list Z) : list Z := l ++ replicate (Z.to_nat n - length l) 0.
Definition updateSpec (pageNo freeBytes : Z) (l : list Z) : list Z :=
  <[Z.to_nat pageNo := category freeBytes]> (growSpec (pageNo + 1) l).
Definition searchSpec (minFree : Z) (l : list Z) : Z * bool :=
  match list_find (λ c, requestCategory minFree ≤ c) l with
  | Some (p, _) => (Z.of_nat p, true)
  | None => (0, false)
  end.

(** ** Arrays *)

Lemma max8_max a b : max8 a b = a `max` b.
Proof. unfold max8. bcase; lia. Qed.

Lemma nodeAt_nd ns i : 0 ≤ i < lenNodes ns → nodeAt ns i = Ok (nd ns i).
Proof.
  unfold lenNodes, nodeAt, nd. intros H.
  destruct (lookup_lt_is_Some_2 ns (Z.to_nat i)) as [x ->]; [lia|done].
Qed.

Lemma setNode_ok i v ns : 0 ≤ i < lenNodes ns → setNode i v ns = Ok (<[Z.to_nat i := v]> ns).
Proof. intros. unfold setNode. by zbool. Qed.

Lemma nd_insert ns i j v :
  0 ≤ i < lenNodes ns → 0 ≤ j →
  nd (<[Z.to_nat i := v]> ns) j = if i =? j then v else nd ns j.
Proof.
  unfold lenNodes, nd. intros. destruct (Z.eqb_spec i j) as [->|].
  - rewrite list_lookup_insert_eq; [done|lia].
  - rewrite list_lookup_insert_ne; [done|lia].
Qed.

Lemma lenNodes_insert i v ns : lenNodes (<[i := v]> ns) = lenNodes ns.
Proof. unfold lenNodes. by rewrite length_insert. Qed.

Lemma nd_neg ns i : i < 0 → nd ns i = nd ns 0.
Proof. intros. unfold nd. by replace (Z.to_nat i) with (Z.to_nat 0) by lia. Qed.

Lemma nd_outside ns i : lenNodes ns ≤ i → nd ns i = 0.
Proof. unfold lenNodes, nd. intros. by rewrite lookup_ge_None_2 by lia. Qed.

Lemma nd_replicate k i : nd (replicate k 0) i = 0.
Proof.
  unfold nd. destruct (decide (Z.to_nat i < k)%nat).
  - by rewrite lookup_replicate_2.
  - rewrite lookup_ge_None_2; [done|]. rewrite length_replicate. lia.
Qed.

Lemma range_insert ns i v :
  0 ≤ i < lenNodes ns → 0 ≤ v < 256 → (∀ j, 0 ≤ nd ns j < 256) →
  ∀ j, 0 ≤ nd (<[Z.to_nat i := v]> ns) j < 256.
Proof.
  intros Hi Hv Hr j. destruct (decide (0 ≤ j)).
  - rewrite nd_insert by lia. by destruct (i =? j).
  - rewrite nd_neg, nd_insert by lia. by destruct (i =? 0).
Qed.

#[local] Hint Rewrite lenNodes_insert : buflen.

Lemma category_range x : 0 ≤ x → 0 ≤ category x < 256.
Proof. intros. unfold category, u8, CategoryGranularity. bcase; mlia. Qed.

(** ** Rebuilding *)

Lemma rebuildFrom_spec i ns :
  2 * Z.of_nat i + 1 < lenNodes ns →
  (∀ j, 0 ≤ nd ns j < 256) →
  (∀ j, Z.of_nat i < j → 2 * j + 1 < lenNodes ns → heapAt ns j) →
  ∃ ns', rebuildFrom i ns = Ok ns' ∧ lenNodes ns' = lenNodes ns ∧
    (∀ j, 0 ≤ nd ns' j < 256) ∧
    (∀ j, 1 ≤ j → 2 * j + 1 < lenNodes ns → heapAt ns' j) ∧
    (∀ j, Z.of_nat i < j → nd ns' j = nd ns j).
Proof.
  revert ns. induction i as [|i IH]; intros ns Hl Hr Hh.
  { exists ns. split_and!; [done..| |done]. intros j ??. apply Hh; lia. }
  cbn [rebuildFrom]. rewrite !nodeAt_nd by lia. cbn.
  rewrite setNode_ok by lia. cbn. rewrite max8_max.
  set (v := _ `max` _). set (ns1 := <[_ := v]> ns).
  assert (∀ j, 0 ≤ j → nd ns1 j = if Z.of_nat (S i) =? j then v else nd ns j) as Hnd
    by (intros; apply nd_insert; lia).
  assert (lenNodes ns1 = lenNodes ns) as Hlen by apply lenNodes_insert.
  destruct (IH ns1) as (ns' & E & Hl' & Hr' & Hh' & Hk').
  - lia.
  - apply range_insert; [lia| |done].
    pose proof (Hr (2 * Z.of_nat (S i))). pose proof (Hr (2 * Z.of_nat (S i) + 1)). lia.
  - intros j Hj Hj2. unfold heapAt. rewrite !Hnd by lia.
    destruct (Z.eqb_spec (Z.of_nat (S i)) j) as [<-|].
    + by zbool.
    + zbool. apply Hh; lia.
  - exists ns'. rewrite Hlen in *. split_and!; [done..|].
    intros j Hj. rewrite Hk', Hnd by lia. by zbool.
Qed.

Lemma rebuildInternal_spec cap ns :
  1 ≤ cap → lenNodes ns = 2 * cap → (∀ j, 0 ≤ nd ns j < 256) →
  ∃ ns', rebuildInternal ns = Ok ns' ∧ lenNodes ns' = 2 * cap ∧
    (∀ j, 0 ≤ nd ns' j < 256) ∧ (∀ j, 1 ≤ j < cap → heapAt ns' j) ∧
    (∀ j, cap ≤ j → nd ns' j = nd ns j).
Proof.
  intros Hc Hl Hr. unfold rebuildInternal. rewrite Hl, (Z.mul_comm 2), Z.div_mul by lia.
  destruct (rebuildFrom_spec (Z.to_nat (cap - 1)) ns) as (ns' & E & Hl' & Hr' & Hh & Hk).
  - lia.
  - done.
  - intros; lia.
  - exists ns'. split_and!; [done|lia|done| |].
    + intros. apply Hh; lia.
    + intros. apply Hk; lia.
Qed.

(** ** Resizing *)

Lemma growCapacity_ok fuel k n :
  0 ≤ k ≤ 30 → 31 - k ≤ Z.of_nat fuel → n ≤ 2 ^ 30 →
  ∃ k', k ≤ k' ≤ 30 ∧ n ≤ 2 ^ k' ∧ growCapacity fuel (2 ^ k) n = Some (2 ^ k').
Proof.
  revert k. induction fuel as [|fuel IH]; intros k Hk Hf Hn; [lia|].
  cbn [growCapacity]. destruct (Z.ltb_spec (2 ^ k) n).
  - assert (k < 30) by (apply (Z.pow_lt_mono_r_iff 2); lia).
    assert (2 ^ k < 2 ^ 30) by (apply Z.pow_lt_mono_r; lia).
    rewrite u32_small by lia.
    rewrite Z.mul_comm, <- Z.pow_succ_r by lia.
    destruct (IH (Z.succ k)) as (k' & ? & ? & E); [lia..|]. exists k'. split_and!; [lia..|done].
  - exists k. split_and!; [lia..|done].
Qed.

Lemma growCapacity_diverges fuel c n :
  2 ^ 31 < n → c = 0 ∨ (∃ k, 0 ≤ k ≤ 31 ∧ c = 2 ^ k) → growCapacity fuel c n = None.
Proof.
  intros Hn. revert c. induction fuel as [|fuel IH]; intros c Hc; [done|].
  cbn [growCapacity]. assert (c < n) as Hlt.
  { destruct Hc as [->|(k & Hk & ->)]; [lia|].
    eapply Z.le_lt_trans; [apply (Z.pow_le_mono_r 2 k 31); lia|done]. }
  zbool. apply IH. destruct Hc as [->|(k & Hk & ->)]; [by left|].
  destruct (decide (k = 31)) as [->|].
  - left. reflexivity.
  - right. exists (k + 1). split; [lia|]. rewrite Z.pow_add_r by lia.
    apply u32_small. split; [lia|].
    eapply Z.le_lt_trans; [|apply (Z.pow_lt_mono_r 2 31 32); lia].
    change (2 ^ k * 2 ^ 1 ≤ 2 ^ 31). rewrite <- Z.pow_add_r by lia. apply Z.pow_le_mono_r; lia.
Qed.

Lemma copyLeaves_spec count p cap oldLeaf old ns :
  0 ≤ p → cap ≤ 2 ^ 30 → oldLeaf ≤ 2 ^ 30 →
  p + Z.of_nat count ≤ cap → p + Z.of_nat count ≤ oldLeaf →
  lenNodes old = 2 * oldLeaf → lenNodes ns = 2 * cap →
  ∃ ns', copyLeaves count p cap oldLeaf old ns = Ok ns' ∧ lenNodes ns' = 2 * cap ∧
    ∀ j, 0 ≤ j → nd ns' j =
      if (cap + p <=? j) && (j <? cap + p + Z.of_nat count)
      then nd old (oldLeaf + (j - cap)) else nd ns j.
Proof.
  intros Hp Hc Ho. revert p Hp ns.
  induction count as [|count IH]; intros p Hp ns Hpc Hpo Hlo Hln.
  { exists ns. split_and!; [done..|]. intros j Hj. bcase; cbn; [lia|done..]. }
  cbn [copyLeaves]. rewrite !u32_small by lia. rewrite nodeAt_nd by lia. cbn.
  rewrite setNode_ok by lia. cbn.
  destruct (IH (p + 1)) with (ns := <[Z.to_nat (cap + p) := nd old (oldLeaf + p)]> ns)
    as (ns' & E & Hl & Hj); [lia..|done|by rewrite lenNodes_insert|].
  exists ns'. split_and!; [done..|]. intros j Hj0. rewrite Hj, nd_insert by lia.
  bcase; cbn; try lia; try done. f_equal. lia.
Qed.

Lemma cats_lookup f (p : nat) :
  (p < Z.to_nat (nPages f))%nat → cats f !! p = Some (nd (nodesOf f) (leaf f + Z.of_nat p)).
Proof. intros. unfold cats. by rewrite list_lookup_fmap, lookup_seq_lt. Qed.

Lemma length_cats f : length (cats f) = Z.to_nat (nPages f).
Proof. unfold cats. by rewrite length_fmap, length_seq. Qed.

Lemma cats_eq f l :
  Z.to_nat (nPages f) = length l →
  (∀ p x, l !! p = Some x → nd (nodesOf f) (leaf f + Z.of_nat p) = x) → cats f = l.
Proof.
  intros Hn Hp. apply list_eq_same_length with (length l); [done|by rewrite length_cats|].
  intros i x y Hi. rewrite cats_lookup by lia. intros [= <-] Hy. by apply Hp.
Qed.

Lemma growSpec_lookup n l p x :
  growSpec n l !! p = Some x → l !! p = Some x ∨ (length l ≤ p)%nat ∧ x = 0.
Proof.
  unfold growSpec. intros [?|[Hl H]]%lookup_app_Some; [by left|].
  apply lookup_replicate in H as [-> _]. by right.
Qed.

Lemma length_growSpec n l : Z.of_nat (length l) ≤ n → length (growSpec n l) = Z.to_nat n.
Proof. intros. unfold growSpec. rewrite length_app, length_replicate. lia. Qed.

Lemma leaf_tree pth cap ns n : lenNodes ns = 2 * cap → leaf (mkFSM pth (Some ns) n) = cap.
Proof. intros H. unfold leaf, nodesOf. cbn. rewrite H, Z.mul_comm. by apply Z.div_mul. Qed.

(** A map under construction, or one in use. *)
Definition preWf (f : FSM) : Prop := nodes f = None ∧ nPages f = 0 ∨ fsmWf f.

Lemma tree_cap cap ns n : treeOk cap ns n → 1 ≤ cap ≤ 2 ^ 30.
Proof.
  intros [(k & Hk & ->) _ _ _ _ _]. split.
  - change 1 with (2 ^ 0). apply Z.pow_le_mono_r; lia.
  - apply Z.pow_le_mono_r; lia.
Qed.

(** The leaves [resize] starts from: the old ones, then zeros. *)
Lemma resize_leaves f n cap :
  preWf f → 0 ≤ nPages f ≤ n → n ≤ cap ≤ 2 ^ 30 →
  let ns := replicate (Z.to_nat (u32 (2 * cap))) 0 in
  ∃ ns1,
    (match nodes f with
     | None => Ok ns
     | Some old => copyLeaves (Z.to_nat (nPages f)) 0 cap (u32 (lenNodes old / 2)) old ns
     end : fsm_result (list Z)) = Ok ns1 ∧
    lenNodes ns1 = 2 * cap ∧
    ∀ j, 0 ≤ j → nd ns1 j = if (cap <=? j) && (j <? cap + nPages f)
                   then nd (nodesOf f) (leaf f + (j - cap)) else 0.
Proof.
  intros Hwf Hn Hc ns.
  assert (lenNodes ns = 2 * cap) as Hl
    by (unfold ns, lenNodes; rewrite length_replicate, u32_small by lia; lia).
  destruct Hwf as [[-> H0]|Hwf].
  - exists ns. split_and!; [done..|]. intros j Hj. rewrite H0. unfold ns. rewrite nd_replicate.
    bcase; cbn; try done. lia.
  - pose proof (tree_cap _ _ _ Hwf) as Hcap. unfold fsmWf in Hwf.
    destruct (nodes f) as [old|] eqn:Ef.
    2: { exfalso. revert Hcap. unfold leaf, nodesOf. rewrite Ef.
         change (lenNodes (default [] None) / 2) with 0. lia. }
    assert (nodesOf f = old) as Eo by (unfold nodesOf; by rewrite Ef). rewrite Eo in *.
    assert (lenNodes old / 2 = leaf f) as -> by (unfold leaf; by rewrite Eo).
    pose proof (tree_n _ _ _ Hwf). pose proof (tree_len _ _ _ Hwf). rewrite u32_small by lia.
    destruct (copyLeaves_spec (Z.to_nat (nPages f)) 0 cap (leaf f) old ns)
      as (ns1 & E & Hl1 & Hj); [lia..|done|]. exists ns1. split_and!; [done..|].
    intros j Hj0. rewrite Hj by done. rewrite Z.add_0_r, Z2Nat.id by lia.
    unfold ns. by rewrite nd_replicate.
Qed.

Lemma resize_spec f n :
  preWf f → 0 ≤ nPages f ≤ n → n ≤ 2 ^ 30 →
  ∃ f', resize f n = Ok f' ∧ fsmWf f' ∧ nPages f' = n ∧ path f' = path f ∧
        cats f' = growSpec n (cats f).
Proof.
  intros Hwf Hn H30. unfold resize.
  destruct (growCapacity_ok 33 0 n) as (k & Hk & Hnk & E); [lia..|].
  change (2 ^ 0) with 1 in E. rewrite E. clear E. set (cap := 2 ^ k) in *.
  assert (cap ≤ 2 ^ 30) by (apply Z.pow_le_mono_r; lia).
  assert (1 ≤ cap) by (change 1 with (2 ^ 0); apply Z.pow_le_mono_r; lia).
  destruct (resize_leaves f n cap Hwf) as (ns1 & E & Hl1 & Hj); [lia..|].
  cbn zeta. rewrite E. cbn [mbind outcome_bind]. clear E.
  destruct (rebuildInternal_spec cap ns1) as (ns2 & E & Hl2 & Hr2 & Hh2 & Hk2); [lia|done| |].
  { intros j. destruct (decide (0 ≤ j)); [|rewrite nd_neg by lia].
    all: rewrite Hj by lia; destruct (_ && _); [|done].
    all: destruct Hwf as [[Hf _]|Hwf]; [|apply (tree_range _ _ _ Hwf)].
    all: unfold nodesOf, nd; rewrite Hf; cbn; rewrite lookup_nil; cbn; lia. }
  rewrite E. cbn. eexists. split_and!; [done| |done..|].
  - unfold fsmWf. rewrite leaf_tree with (cap := cap) by done. cbn. constructor; [|done|lia|done..|].
    + exists k. done.
    + intros p Hp. rewrite Hk2, Hj by lia. by rewrite (proj2 (Z.ltb_ge _ _)), andb_false_r by lia.
  - apply cats_eq; [by rewrite length_growSpec by (rewrite length_cats; lia)|].
    intros p x Hx. rewrite leaf_tree with (cap := cap) by done. cbn.
    rewrite Hk2, Hj by lia. apply growSpec_lookup in Hx as [Hx|[Hx ->]].
    + pose proof (lookup_lt_Some _ _ _ Hx) as Hlt. rewrite length_cats in Hlt.
      rewrite cats_lookup in Hx by done. injection Hx as <-. zbool. cbn. f_equal. lia.
    + rewrite length_cats in Hx. by rewrite (proj2 (Z.ltb_ge _ _)), andb_false_r by lia.
Qed.

Lemma New_spec pth n :
  0 ≤ n ≤ 2 ^ 30 →
  ∃ f, New pth n = Ok f ∧ fsmWf f ∧ nPages f = n ∧ path f = pth ∧
       cats f = replicate (Z.to_nat n) 0.
Proof.
  intros Hn. destruct (resize_spec (mkFSM pth None 0) n) as (f & E & Hwf & Hp & Hpa & Hc).
  - by left.
  - cbn. lia.
  - lia.
  - exists f. split_and!; [done..|]. rewrite Hc. unfold growSpec. cbn. by rewrite Nat.sub_0_r.
Qed.

(** Raising the page count inside the capacity. *)
Lemma extend_spec f n :
  fsmWf f → nPages f ≤ n ≤ leaf f →
  let f' := mkFSM (path f) (nodes f) n in
  fsmWf f' ∧ cats f' = growSpec n (cats f).
Proof.
  intros Hwf Hn f'. pose proof (tree_n _ _ _ Hwf).
  assert (leaf f' = leaf f) as Hl by done. assert (nodesOf f' = nodesOf f) as Hns by done.
  split.
  - unfold fsmWf. rewrite Hl, Hns. destruct Hwf. constructor; [done|done|cbn; lia|done|done|].
    cbn. intros. apply tree_free0. lia.
  - apply cats_eq; [by rewrite length_growSpec by (rewrite length_cats; lia)|].
    intros p x Hx. rewrite Hl, Hns. apply growSpec_lookup in Hx as [Hx|[Hx ->]].
    + pose proof (lookup_lt_Some _ _ _ Hx) as Hlt. rewrite length_cats in Hlt.
      rewrite cats_lookup in Hx by done. by injection Hx.
    + rewrite length_cats in Hx. apply (tree_free _ _ _ Hwf). lia.
Qed.

Lemma growSpec_shorter n l : n ≤ Z.of_nat (length l) → growSpec n l = l.
Proof.
  intros. unfold growSpec. replace (Z.to_nat n - length l)%nat with 0%nat by lia.
  apply app_nil_r.
Qed.

Lemma leaf_u32 f : fsmWf f → u32 (lenNodes (nodesOf f) / 2) = leaf f.
Proof. intros Hwf. pose proof (tree_cap _ _ _ Hwf). unfold leaf. apply u32_small. unfold leaf in *. lia. Qed.

Lemma Grow_spec f n :
  fsmWf f → 0 ≤ n ≤ 2 ^ 30 →
  ∃ f', Grow f n = Ok f' ∧ fsmWf f' ∧ path f' = path f ∧ cats f' = growSpec n (cats f).
Proof.
  intros Hwf Hn. unfold Grow. rewrite leaf_u32 by done. pose proof (tree_n _ _ _ Hwf).
  destruct (Z.leb_spec n (nPages f)).
  { exists f. split_and!; [done..|]. rewrite growSpec_shorter; [done|]. rewrite length_cats. lia. }
  destruct (Z.leb_spec n (leaf f)).
  - destruct (extend_spec f n) as [Hw Hc]; [done|lia|]. eexists. by split_and!.
  - destruct (resize_spec f n) as (f' & E & Hw & _ & Hp & Hc); [by right|lia..|].
    exists f'. by split_and!.
Qed.

(** ** Update *)

Lemma heapAt_insert_ne ns i m v :
  0 ≤ m < lenNodes ns → 1 ≤ i → i ≠ m → i ≠ m / 2 →
  heapAt (<[Z.to_nat m := v]> ns) i ↔ heapAt ns i.
Proof.
  intros Hm Hi Him Hip. assert (2 * i ≠ m ∧ 2 * i + 1 ≠ m) as [??] by mlia.
  unfold heapAt. rewrite !nd_insert by lia. by zbool.
Qed.

Lemma fixAncestors_spec h fuel cap node ns :
  (h < fuel)%nat → lenNodes ns = 2 * cap → cap ≤ 2 ^ 30 → 0 ≤ node < cap → node < 2 ^ Z.of_nat h →
  (∀ j, 0 ≤ nd ns j < 256) → (∀ i, 1 ≤ i < cap → i ≠ node → heapAt ns i) →
  ∃ ns', fixAncestors fuel node ns = Ok ns' ∧ lenNodes ns' = 2 * cap ∧
    (∀ j, 0 ≤ nd ns' j < 256) ∧ (∀ i, 1 ≤ i < cap → heapAt ns' i) ∧
    (∀ j, cap ≤ j → nd ns' j = nd ns j).
Proof.
  intros Hfu Hl Hc. revert fuel node ns Hfu Hl.
  induction h as [|h IH]; intros [|fuel] node ns Hfu Hl Hn Hf Hr Hh; [lia| |lia|].
  all: cbn [fixAncestors]; destruct (Z.leb_spec 1 node) as [H1|H1].
  2,4: exists ns; split_and!; [done..| |done]; intros; apply Hh; lia.
  { change (2 ^ Z.of_nat 0) with 1 in Hf. lia. }
  rewrite !u32_small, !nodeAt_nd by lia. cbn [mbind outcome_bind]. rewrite max8_max.
  set (v := nd ns (2 * node) `max` nd ns (2 * node + 1)).
  destruct (Z.eqb_spec (nd ns node) v) as [Ev|Ev].
  { exists ns. split_and!; [done..| |done]. intros i Hi.
    destruct (decide (i = node)) as [->|]; [done|by apply Hh]. }
  rewrite setNode_ok by lia. cbn [mbind outcome_bind].
  assert (0 ≤ node / 2 < cap) as Hn2 by mlia.
  destruct (IH fuel (node / 2) (<[Z.to_nat node := v]> ns)) as (ns' & E & Hl' & Hr' & Hh' & Hk').
  - lia.
  - by rewrite lenNodes_insert.
  - done.
  - rewrite Nat2Z.inj_succ, Z.pow_succ_r in Hf by lia. mlia.
  - apply range_insert; [lia| |done]. pose proof (Hr (2 * node)). pose proof (Hr (2 * node + 1)). lia.
  - intros i Hi Hi2. destruct (decide (i = node)) as [->|].
    + unfold heapAt. rewrite !nd_insert by lia. by zbool.
    + apply heapAt_insert_ne; [lia..|]. by apply Hh.
  - exists ns'. split_and!; [done..|]. intros j Hj. rewrite Hk', nd_insert by lia. by zbool.
Qed.

(** The page count after the first test of [Update]. *)
Lemma Update_track f pageNo :
  fsmWf f → 0 ≤ pageNo < 2 ^ 30 →
  ∃ f1, (if nPages f <=? pageNo then
           if u32 (lenNodes (nodesOf f) / 2) <=? pageNo then resize f (u32 (pageNo + 1))
           else Ok (mkFSM (path f) (nodes f) (u32 (pageNo + 1)))
         else Ok f) = Ok f1 ∧ fsmWf f1 ∧ pageNo < nPages f1 ∧ path f1 = path f ∧
        cats f1 = growSpec (pageNo + 1) (cats f).
Proof.
  intros Hwf Hp. rewrite leaf_u32 by done. rewrite !u32_small by lia.
  pose proof (tree_n _ _ _ Hwf).
  destruct (Z.leb_spec (nPages f) pageNo); [destruct (Z.leb_spec (leaf f) pageNo)|].
  - destruct (resize_spec f (pageNo + 1)) as (f' & E & Hw & Hn & Hpa & Hc); [by right|lia..|].
    exists f'. split_and!; [done|done|lia|done..].
  - destruct (extend_spec f (pageNo + 1)) as [Hw Hc]; [done|lia|].
    eexists. split_and!; [done|done|cbn; lia|done..].
  - exists f. split_and!; [done|done|lia|done|]. rewrite growSpec_shorter; [done|].
    rewrite length_cats. lia.
Qed.

Lemma Update_spec f pageNo freeBytes :
  fsmWf f → 0 ≤ pageNo < 2 ^ 30 → 0 ≤ freeBytes →
  ∃ f', Update f pageNo freeBytes = Ok f' ∧ fsmWf f' ∧ path f' = path f ∧
        cats f' = updateSpec pageNo freeBytes (cats f).
Proof.
  intros Hwf Hp Hb. unfold Update, updateSpec.
  destruct (Update_track f pageNo Hwf Hp) as (f1 & -> & Hw1 & Hn1 & Hp1 & <-).
  rewrite <- Hp1. clear f Hwf Hp1. cbn [mbind outcome_bind].
  rewrite leaf_u32 by done. pose proof (tree_cap _ _ _ Hw1). pose proof (tree_n _ _ _ Hw1).
  pose proof (tree_len _ _ _ Hw1). rewrite u32_small, setNode_ok by lia. cbn [mbind outcome_bind].
  set (cap := leaf f1) in *. set (v := category freeBytes).
  pose proof (category_range freeBytes Hb) as Hv. fold v in Hv.
  set (ns1 := <[Z.to_nat (cap + pageNo) := v]> (nodesOf f1)).
  assert (∀ j, 0 ≤ j → nd ns1 j = if cap + pageNo =? j then v else nd (nodesOf f1) j) as Hj
    by (intros; apply nd_insert; lia).
  destruct (fixAncestors_spec 32 33 cap ((cap + pageNo) / 2) ns1) as (ns2 & E & Hl & Hr & Hh & Hk).
  - lia.
  - unfold ns1. by rewrite lenNodes_insert.
  - lia.
  - mlia.
  - change (2 ^ Z.of_nat 32) with 4294967296. mlia.
  - apply range_insert; [lia|done|]. apply (tree_range _ _ _ Hw1).
  - intros i Hi Hi2. apply heapAt_insert_ne; [lia..|]. by apply (tree_heap _ _ _ Hw1).
  - rewrite E. cbn. eexists. split_and!; [done| |done|].
    + unfold fsmWf. rewrite leaf_tree with (cap := cap) by done. cbn.
      constructor; [apply (tree_pow _ _ _ Hw1)|done|lia|done..|].
      intros p Hp'. rewrite Hk, Hj by lia. zbool. apply (tree_free _ _ _ Hw1). lia.
    + apply cats_eq; [by rewrite length_insert, length_cats|]. cbn. intros p x Hx.
      rewrite leaf_tree with (cap := cap), Hk, Hj by (done || lia).
      apply list_lookup_insert_Some in Hx as [(<- & <- & _)|(Hne & Hx)].
      * by zbool.
      * pose proof (lookup_lt_Some _ _ _ Hx) as Hlt. rewrite length_cats in Hlt.
        rewrite cats_lookup in Hx by done. injection Hx as <-. zbool. done.
Qed.

(** ** Search *)

(** A node is at least every leaf below it. *)
Lemma heap_above cap ns (h : nat) j :
  (∀ i, 1 ≤ i < cap → heapAt ns i) → 0 ≤ j < 2 * cap → 1 ≤ j / 2 ^ Z.of_nat h →
  nd ns j ≤ nd ns (j / 2 ^ Z.of_nat h).
Proof.
  intros Hh Hj. induction h as [|h IH]; intros H1.
  { change (2 ^ Z.of_nat 0) with 1. rewrite Z.div_1_r. lia. }
  rewrite Nat2Z.inj_succ, Z.pow_succ_r, (Z.mul_comm 2), <- Z.div_div in * by lia.
  set (m := j / 2 ^ Z.of_nat h) in *.
  assert (m < 2 * cap). { unfold m. pose proof (Z.div_le_upper_bound j (2 ^ Z.of_nat h) j ltac:(lia) ltac:(nia)). lia. }
  specialize (IH ltac:(mlia)). etransitivity; [exact IH|].
  rewrite (Hh (m / 2)) by mlia. assert (m = 2 * (m / 2) ∨ m = 2 * (m / 2) + 1) as [E|E] by mlia.
  all: rewrite E at 1; lia.
Qed.

(** The descent ends in the first leaf below the node that qualifies. *)
Lemma descend_spec (h : nat) fuel cap ns want node :
  lenNodes ns = 2 * cap → cap ≤ 2 ^ 30 → (∀ i, 1 ≤ i < cap → heapAt ns i) →
  1 ≤ node → cap ≤ node * 2 ^ Z.of_nat h → (node + 1) * 2 ^ Z.of_nat h ≤ 2 * cap →
  (∃ i, cap = i * 2 ^ Z.of_nat h) →
  want ≤ nd ns node → (h < fuel)%nat →
  ∃ j, descend fuel ns want cap node = Ok j ∧
    node * 2 ^ Z.of_nat h ≤ j < (node + 1) * 2 ^ Z.of_nat h ∧ want ≤ nd ns j ∧
    ∀ j', node * 2 ^ Z.of_nat h ≤ j' < j → nd ns j' < want.
Proof.
  intros Hl Hc Hh. revert fuel node. induction h as [|h IH]; intros fuel node H1 Ha Hb Hd Hw Hf.
  all: destruct fuel as [|fuel]; [lia|]; cbn [descend].
  { change (2 ^ Z.of_nat 0) with 1 in *. zbool. exists node. split_and!; [done|lia|lia|done|lia]. }
  rewrite Nat2Z.inj_succ, Z.pow_succ_r in * by lia. set (w := 2 ^ Z.of_nat h) in *.
  assert (1 ≤ w) by (unfold w; lia).
  assert (node < cap) by nia. zbool. rewrite !u32_small, nodeAt_nd by lia.
  cbn [mbind outcome_bind].
  assert (∃ i, cap = i * w) as Hd' by (destruct Hd as [i ->]; exists (i * 2); lia).
  pose proof (Hh node ltac:(lia)) as Hm. unfold heapAt in Hm.
  destruct (Z.leb_spec want (nd ns (2 * node))) as [HL|HL].
  - destruct (IH fuel (2 * node)) as (j & E & Hj & Hwj & Hb'); [lia..|nia|nia|done|lia|lia|].
    exists j. split_and!; [done|nia|nia|done|]. intros j' Hj'. apply Hb'. nia.
  - destruct (IH fuel (2 * node + 1)) as (j & E & Hj & Hwj & Hb'); [lia..|nia|nia|done|lia|lia|].
    exists j. split_and!; [done|nia|nia|done|]. intros j' Hj'.
    destruct (decide (j' < (2 * node + 1) * w)) as [Hlt|]; [|apply Hb'; lia].
    assert (j' / w = 2 * node) as Ed by (symmetry; apply Z.div_unique with (j' - 2 * node * w); nia).
    eapply Z.le_lt_trans; [|exact HL]. rewrite <- Ed.
    apply (heap_above cap); [done|nia|]. fold w. lia.
Qed.

Lemma requestCategory_range m : 0 ≤ requestCategory m < 256.
Proof.
  unfold requestCategory, u8, CategoryGranularity.
  pose proof (u32_range (u32 m + 32 - 1)). bcase; mlia.
Qed.

Lemma find_first (P : Z → Prop) `{∀ x, Decision (P x)} f (p : nat) :
  (p < Z.to_nat (nPages f))%nat →
  P (nd (nodesOf f) (leaf f + Z.of_nat p)) →
  (∀ q : nat, (q < p)%nat → ¬ P (nd (nodesOf f) (leaf f + Z.of_nat q))) →
  list_find P (cats f) = Some (p, nd (nodesOf f) (leaf f + Z.of_nat p)).
Proof.
  intros Hp HP Hq. apply list_find_Some. split_and!; [by apply cats_lookup|done|].
  intros q y Hy Hlt. rewrite cats_lookup in Hy by lia. injection Hy as <-. by apply Hq.
Qed.

Lemma Search_spec f m : fsmWf f → Search f m = Ok (searchSpec m (cats f)).
Proof.
  intros Hwf. unfold Search, searchSpec. pose proof (tree_n _ _ _ Hwf) as Hn.
  pose proof (tree_cap _ _ _ Hwf) as Hc. pose proof (tree_len _ _ _ Hwf) as Hl.
  destruct (Z.eqb_spec (nPages f) 0) as [E0|E0].
  { unfold cats. by rewrite E0. }
  rewrite leaf_u32, nodeAt_nd by (done || lia). cbn [mbind outcome_bind].
  set (want := requestCategory m). pose proof (requestCategory_range m) as Hw. fold want in Hw.
  destruct (tree_pow _ _ _ Hwf) as (k & Hk & Ek).
  assert (2 ^ Z.of_nat (Z.to_nat k) = leaf f) as Ek' by (rewrite Z2Nat.id by lia; done).
  destruct (Z.ltb_spec (nd (nodesOf f) 1) want) as [Hr|Hr].
  - rewrite (proj2 (list_find_None _ _)); [done|]. apply Forall_forall. intros x Hx.
    apply list_elem_of_fmap in Hx as (p & -> & Hp). apply elem_of_seq in Hp.
    assert ((leaf f + Z.of_nat p) / leaf f = 1) as E1
      by (symmetry; apply Z.div_unique with (Z.of_nat p); lia).
    pose proof (heap_above (leaf f) (nodesOf f) (Z.to_nat k) (leaf f + Z.of_nat p)
      (tree_heap _ _ _ Hwf) ltac:(lia)) as Ha. rewrite Ek', E1 in Ha. specialize (Ha ltac:(lia)). lia.
  - destruct (descend_spec (Z.to_nat k) 33 (leaf f) (nodesOf f) want 1)
      as (j & E & Hj & Hwj & Hb); [done|lia|apply (tree_heap _ _ _ Hwf)|lia|lia|lia|..].
    { exists 1. lia. }
    { lia. }
    { lia. }
    rewrite E. cbn [mbind outcome_bind]. rewrite Ek' in *. clear E.
    rewrite u32_small by lia. destruct (Z.leb_spec (nPages f) (j - leaf f)) as [Hx|Hx].
    + exfalso. pose proof (tree_free _ _ _ Hwf _ Hx) as H0.
      replace (leaf f + (j - leaf f)) with j in H0 by lia.
      specialize (Hb (leaf f) ltac:(lia)). pose proof (tree_range _ _ _ Hwf (leaf f)). lia.
    + rewrite (find_first _ f (Z.to_nat (j - leaf f))); [by rewrite Z2Nat.id by lia|lia|..].
      * by replace (leaf f + _) with j by lia.
      * intros q Hq. specialize (Hb (leaf f + Z.of_nat q) ltac:(lia)). lia.
Qed.

(** ** Persistence *)

Abbreviation fileStore := (gmap string (list byte)).

Definition applyOp (op : fileOp) (fs : fileStore) : fileStore :=
  match op with
  | WriteFile name content => <[name := content]> fs
  | Rename a b => match fs !! a with Some c => <[b := c]> (delete a fs) | None => fs end
  end.

(** The stores a crash during a sequence of file operations can leave: a write
    may have put any prefix of its content into the file, a rename is atomic. *)
Inductive crashStore : fileStore → list fileOp → fileStore → Prop :=
| crash_here fs ops : crashStore fs ops fs
| crash_torn fs name content k ops :
    crashStore fs (WriteFile name content :: ops) (<[name := take k content]> fs)
| crash_later fs op ops fs' :
    crashStore (applyOp op fs) ops fs' → crashStore fs (op :: ops) fs'.

Lemma tmpName_ne p : tmpName p ≠ p.
Proof.
  unfold tmpName. intros E. apply (f_equal String.length) in E.
  rewrite String.app_length in E. cbn in E. lia.
Qed.

Lemma Save_atomic p buf fs fs' :
  crashStore fs [WriteFile (tmpName p) buf; Rename (tmpName p) p] fs' →
  fs' !! p = fs !! p ∨ fs' !! p = Some buf.
Proof.
  pose proof (tmpName_ne p). inversion 1 as [|? ? ? k|? ? ? ? H1]; subst.
  - by left.
  - left. by rewrite lookup_insert_ne.
  - inversion H1 as [| |? ? ? ? H2]; subst; cbn in *.
    + left. by rewrite lookup_insert_ne.
    + rewrite lookup_insert_eq in H2. inversion H2; subst. right. by rewrite lookup_insert_eq.
Qed.

(** The file [Save] writes. *)
Definition image (f : FSM) : bytes := magic ++ le_split 4 (nPages f) ++ map byte.of_Z (cats f).

Lemma cats_slice f :
  fsmWf f → take (Z.to_nat (nPages f)) (drop (Z.to_nat (leaf f)) (nodesOf f)) = cats f.
Proof.
  intros Hwf. pose proof (tree_n _ _ _ Hwf). pose proof (tree_len _ _ _ Hwf) as Hl.
  unfold lenNodes in Hl. symmetry. apply cats_eq.
  - rewrite length_take, length_drop. lia.
  - intros p x Hx. apply lookup_take_Some in Hx as [Hx Hp]. rewrite lookup_drop in Hx.
    unfold nd. by replace (Z.to_nat (leaf f + Z.of_nat p)) with (Z.to_nat (leaf f) + p)%nat by lia;
      rewrite Hx.
Qed.

Lemma Save_spec f :
  fsmWf f → path f ≠ EmptyString →
  Save f = Ok [WriteFile (tmpName (path f)) (image f); Rename (tmpName (path f)) (path f)].
Proof.
  intros Hwf Hp. unfold Save. rewrite (proj2 (String.eqb_neq _ _) Hp), leaf_u32 by done.
  pose proof (tree_n _ _ _ Hwf). pose proof (tree_cap _ _ _ Hwf). pose proof (tree_len _ _ _ Hwf).
  rewrite !u32_small by lia. set (n := Z.to_nat (nPages f)).
  replace (Z.to_nat (8 + nPages f)) with (length magic + (4 + n))%nat by (cbn; lia).
  rewrite splice_replicate. unfold put_le at 1. rewrite blen_app.
  change (blen magic) with 4. unfold blen at 1. rewrite length_replicate. zbool.
  cbn [andb must mbind outcome_bind]. rewrite splice_app by done.
  rewrite <- (length_le_split 4 (nPages f)) at 2. rewrite splice_replicate. zbool. cbn [orb].
  replace (Z.to_nat (leaf f + nPages f - leaf f)) with (Z.to_nat (nPages f)) by lia.
  rewrite cats_slice by done.
  unfold copy_at. rewrite !blen_app. change (blen magic) with 4. unfold blen.
  rewrite length_le_split, length_replicate. zbool. cbn [andb must mbind outcome_bind].
  rewrite app_assoc, splice_app by (rewrite length_app, length_le_split; done).
  replace n with (length (map byte.of_Z (cats f)) + 0)%nat
    by (rewrite length_map, length_cats; lia).
  rewrite splice_replicate, app_nil_r, <- app_assoc. done.
Qed.

Lemma nd_overwrite ns (c : nat) (d : list Z) j :
  (c + length d ≤ length ns)%nat → 0 ≤ j →
  nd (take c ns ++ take (length ns - c) d ++ drop (c + length d) ns) j =
  if (Z.of_nat c <=? j) && (j <? Z.of_nat (c + length d))
  then nd d (j - Z.of_nat c) else nd ns j.
Proof.
  intros Hc Hj. rewrite (take_ge d) by lia. unfold nd.
  assert (length (take c ns) = c) as Ht by (rewrite length_take; lia).
  destruct (Z.leb_spec (Z.of_nat c) j), (Z.ltb_spec j (Z.of_nat (c + length d))); cbn [andb].
  - rewrite lookup_app_r, Ht, lookup_app_l by lia. do 2 f_equal. lia.
  - rewrite lookup_app_r, Ht, lookup_app_r, lookup_drop by lia. do 2 f_equal. lia.
  - by rewrite lookup_app_l, lookup_take_lt by lia.
  - lia.
Qed.

Lemma Load_spec pth buf n :
  take 4 buf = magic → le_at 4 4 buf = n → n ≤ 2 ^ 30 → 8 + n ≤ blen buf < 2 ^ 32 →
  ∃ f, Load pth (Some buf) = Ok f ∧ fsmWf f ∧ path f = pth ∧ nPages f = n ∧
       cats f = map byte.unsigned (bslice 8 (Z.to_nat n) buf).
Proof.
  intros Hm Hn Hn30 Hl. pose proof (le_at_range 4 4 buf) as Hr. rewrite Hn in Hr.
  unfold Load. rewrite Hn, (bool_decide_true _ Hm). rewrite (u32_small (_ - 8)), (u32_small (8 + n)) by lia.
  zbool. cbn [negb orb].
  destruct (New_spec pth n) as (f & -> & Hwf & Hp & _); [lia|]. cbn [mbind outcome_bind].
  pose proof (tree_n _ _ _ Hwf). pose proof (tree_cap _ _ _ Hwf). pose proof (tree_len _ _ _ Hwf) as Hln.
  rewrite leaf_u32 by done. unfold slice. zbool. cbn [andb must mbind outcome_bind].
  replace (8 + n - 8) with n by lia. set (src := bslice _ _ buf).
  assert (length (map byte.unsigned src) = Z.to_nat n) as Hs
    by (rewrite length_map; unfold src; apply length_bslice; unfold blen in Hl; lia).
  rewrite <- (length_map byte.unsigned src). set (d := map byte.unsigned src) in *.
  set (ns1 := take _ _ ++ _). unfold lenNodes in Hln.
  assert (∀ j, 0 ≤ j → nd ns1 j = if (leaf f <=? j) && (j <? leaf f + n)
            then nd d (j - leaf f) else nd (nodesOf f) j) as Hj.
  { intros j Hj. unfold ns1. rewrite nd_overwrite by lia.
    replace (Z.of_nat (Z.to_nat (leaf f))) with (leaf f) by lia.
    by replace (Z.of_nat (Z.to_nat (leaf f) + length d)) with (leaf f + n) by lia. }
  assert (∀ j, 0 ≤ nd d j < 256) as Hd.
  { intros j. unfold nd, d. rewrite list_lookup_fmap. destruct (src !! _); cbn; [|lia].
    apply byte.unsigned_range. }
  destruct (rebuildInternal_spec (leaf f) ns1) as (ns2 & E & Hl2 & Hr2 & Hh2 & Hk2).
  - lia.
  - unfold lenNodes, ns1. rewrite !length_app, !length_take, length_drop. lia.
  - pose proof (tree_range _ _ _ Hwf). intros j. destruct (decide (0 ≤ j)); [|rewrite nd_neg by lia].
    all: rewrite Hj by lia; by destruct (_ && _).
  - rewrite E. cbn. eexists. split_and!; [done| |done|done|].
    + unfold fsmWf. rewrite leaf_tree with (cap := leaf f) by done. cbn.
      constructor; [apply (tree_pow _ _ _ Hwf)|done|lia|done..|].
      intros p Hp'. rewrite Hk2, Hj by lia. rewrite (proj2 (Z.ltb_ge _ _)), andb_false_r by lia.
      apply (tree_free _ _ _ Hwf). lia.
    + apply cats_eq; [cbn; lia|]. intros p x Hx. cbn. rewrite leaf_tree with (cap := leaf f) by done.
      pose proof (lookup_lt_Some _ _ _ Hx). rewrite Hk2, Hj by lia. zbool. cbn [andb].
      unfold nd. by replace (Z.to_nat (leaf f + Z.of_nat p - leaf f)) with p by lia; rewrite Hx.
Qed.

(** A page count above [2^31] never leaves the capacity loop, whatever the
    fuel: it is the loop of the code that does not end. *)
Lemma New_diverges pth n :
  2 ^ 31 < n → (∀ fuel, growCapacity fuel 1 n = None) ∧ New pth n = Err LoopsForever.
Proof.
  intros Hn. assert (∀ fuel, growCapacity fuel 1 n = None) as H.
  { intros fuel. apply growCapacity_diverges; [done|]. right. exists 0. done. }
  split; [done|]. unfold New, resize. by rewrite H.
Qed.

(** ** Sequences of operations *)

Inductive fsmOp : Type :=
| FUpdate (pageNo freeBytes : Z)
| FGrow (n : Z)
| FSearch (minFree : Z).

Definition fsmOpOk (op : fsmOp) : Prop :=
  match op with
  | FUpdate p b => 0 ≤ p < 2 ^ 30 ∧ 0 ≤ b < 2 ^ 16
  | FGrow n => 0 ≤ n ≤ 2 ^ 30
  | FSearch m => 0 ≤ m < 2 ^ 16
  end.

(** The answers are those of the searches, in order. *)
Fixpoint runFsm (ops : list fsmOp) (f : FSM) : fsm_result (FSM * list (Z * bool)) :=
  match ops with
  | [] => Ok (f, [])
  | FUpdate p b :: ops => f ← Update f p b; runFsm ops f
  | FGrow n :: ops => f ← Grow f n; runFsm ops f
  | FSearch m :: ops =>
      a ← Search f m; r ← runFsm ops f; Ok (r.1, a :: r.2)
  end.

Fixpoint runCats (ops : list fsmOp) (l : list Z) : list Z * list (Z * bool) :=
  match ops with
  | [] => (l, [])
  | FUpdate p b :: ops => runCats ops (updateSpec p b l)
  | FGrow n :: ops => runCats ops (growSpec n l)
  | FSearch m :: ops => let r := runCats ops l in (r.1, searchSpec m l :: r.2)
  end.

Lemma runFsm_refines ops f :
  fsmWf f → Forall fsmOpOk ops →
  ∃ f', runFsm ops f = Ok (f', (runCats ops (cats f)).2) ∧ fsmWf f' ∧
        cats f' = (runCats ops (cats f)).1.
Proof.
  intros Hwf Hok. revert f Hwf. induction Hok as [|op ops Hop Hok IH]; intros f Hwf.
  { by exists f. }
  destruct op as [p b|n|m]; cbn in *.
  - destruct (Update_spec f p b) as (f1 & -> & Hw & _ & <-); [done|lia..|]. by apply IH.
  - destruct (Grow_spec f n) as (f1 & -> & Hw & _ & <-); [done..|]. by apply IH.
  - rewrite Search_spec by done. cbn. destruct (IH f Hwf) as (f' & -> & ? & ?). by exists f'.
Qed.

(** ** Properties *)

(** C2: The free space map implements a plain list of categories: starting from
    a fresh map, every sequence of updates, growths and searches runs to the end
    (no index out of range, every loop within its fuel), each search answers the
    first page whose category reaches the request, and the final map represents
    the final list. *)
Theorem fsm_refines_list (pth : string) (n : Z) (ops : list fsmOp) :
  0 ≤ n ≤ 2 ^ 30 → Forall fsmOpOk ops →
  let r := runCats ops (replicate (Z.to_nat n) 0) in
  ∃ f, (f ← New pth n; runFsm ops f) = Ok (f, r.2) ∧ fsmWf f ∧ cats f = r.1.
Proof.
  intros Hn Hok r. destruct (New_spec pth n Hn) as (f0 & -> & Hwf & _ & _ & Hc).
  destruct (runFsm_refines ops f0 Hwf Hok) as (f & E & Hw & Hf).
  rewrite Hc in E, Hf. exists f. by split_and!.
Qed.

Lemma fsm_refines_list_witness :
  ∃ f, (f ← New "t.fsm" 3;
        runFsm [FUpdate 2 640; FUpdate 6 8164; FSearch 600; FGrow 20; FSearch 700; FUpdate 6 0;
                FSearch 700] f) = Ok (f, [(2, true); (6, true); (0, false)]) ∧ fsmWf f.
Proof.
  destruct (fsm_refines_list "t.fsm" 3
    [FUpdate 2 640; FUpdate 6 8164; FSearch 600; FGrow 20; FSearch 700; FUpdate 6 0; FSearch 700])
    as (f & E & Hw & _).
  - lia.
  - repeat constructor; cbn; lia.
  - exists f. split; [exact E|exact Hw].
Defined.

(** [Search] against the true free bytes [free] of the pages, as last
    reported by [Update]: for requests up to 8160 bytes a page that is returned
    has the room, and a search only misses pages within 31 bytes of the request. *)
Theorem Search_guarantee (f : FSM) (free : list Z) (minFree : Z) :
  fsmWf f → cats f = category <$> free → Forall (λ b, 0 ≤ b < 2 ^ 16) free →
  0 ≤ minFree ≤ 8160 →
  (∃ p b, Search f minFree = Ok (Z.of_nat p, true) ∧ free !! p = Some b ∧ minFree ≤ b)
  ∨ Search f minFree = Ok (0, false) ∧ Forall (λ b, b < minFree + 31) free.
Proof.
  intros Hwf Hc Hf Hm. rewrite Search_spec by done. unfold searchSpec. rewrite Hc.
  assert (∀ b, 0 ≤ b < 2 ^ 16 → requestCategory minFree ≤ category b → minFree ≤ b) as Hs.
  { intros b Hb. unfold requestCategory, category, CategoryGranularity, u8, u32. bcase; mlia. }
  assert (∀ b, 0 ≤ b < 2 ^ 16 → ¬ requestCategory minFree ≤ category b → b < minFree + 31) as Hn.
  { intros b Hb. unfold requestCategory, category, CategoryGranularity, u8, u32. bcase; mlia. }
  rewrite Forall_forall in Hf. destruct (list_find _ _) as [[p c]|] eqn:E.
  - left. apply list_find_Some in E as (Hp & Hle & _).
    apply list_lookup_fmap_Some in Hp as (b & -> & Hb).
    exists p, b. split_and!; [done..|]. apply Hs; [|done]. apply Hf. by eapply list_elem_of_lookup_2.
  - right. split; [done|]. apply list_find_None in E. rewrite Forall_fmap in E.
    rewrite Forall_forall in E |- *. intros b Hb. apply Hn; [by apply Hf|]. by apply E.
Qed.

Lemma Search_guarantee_witness :
  ∃ f, Update (mkFSM "t" (Some [0; 0]) 1) 0 500 = Ok f ∧
    ((∃ p b, Search f 400 = Ok (Z.of_nat p, true) ∧ [500] !! p = Some b ∧ 400 ≤ b)
     ∨ Search f 400 = Ok (0, false) ∧ Forall (λ b, b < 400 + 31) [500]).
Proof.
  destruct (New_spec "t" 1) as (f0 & E0 & Hw0 & _ & _ & Hc0); [lia|].
  assert (f0 = mkFSM "t" (Some [0; 0]) 1) as ->.
  { vm_compute in E0. by injection E0. }
  destruct (Update_spec _ 0 500 Hw0) as (f & E & Hw & _ & Hc); [lia..|].
  exists f. split; [exact E|]. apply (Search_guarantee f [500] 400).
  - exact Hw.
  - rewrite Hc, Hc0. reflexivity.
  - repeat constructor; lia.
  - lia.
Defined.

(** Saving is atomic and loads back: whatever point a crash interrupts the
    file operations of [Save] at, the backing file holds its old content or the
    complete new one, and loading the new content gives a map with the same
    categories. *)
Theorem Save_Load (f : FSM) :
  fsmWf f → path f ≠ EmptyString →
  ∃ ops buf f', Save f = Ok ops ∧
    (∀ fs fs', crashStore fs ops fs' → fs' !! path f = fs !! path f ∨ fs' !! path f = Some buf) ∧
    (∀ fs, foldl (λ fs op, applyOp op fs) fs ops !! path f = Some buf) ∧
    Load (path f) (Some buf) = Ok f' ∧ fsmWf f' ∧ cats f' = cats f ∧ path f' = path f.
Proof.
  intros Hwf Hp. pose proof (Save_spec f Hwf Hp) as ES. pose proof (tree_n _ _ _ Hwf).
  pose proof (tree_cap _ _ _ Hwf).
  assert (length (map byte.of_Z (cats f)) = Z.to_nat (nPages f)) as Hlc
    by (rewrite length_map; apply length_cats).
  destruct (Load_spec (path f) (image f) (nPages f)) as (f' & EL & Hw' & Hp' & Hn' & Hc').
  - done.
  - unfold image, le_at. rewrite bslice_app_r by done. change (4 - length magic)%nat with 0%nat.
    rewrite bslice_app_l by (rewrite length_le_split; lia).
    rewrite <- (length_le_split 4 (nPages f)) at 1. rewrite bslice_full, le_combine_split.
    apply Z.mod_small. lia.
  - lia.
  - unfold image. rewrite !blen_app. unfold blen. rewrite length_le_split, Hlc. cbn. lia.
  - exists [WriteFile (tmpName (path f)) (image f); Rename (tmpName (path f)) (path f)], (image f), f'.
    split_and!; [exact ES| | |exact EL|exact Hw'| |exact Hp'].
    + intros fs fs'. apply Save_atomic.
    + intros fs. cbn. by rewrite lookup_insert_eq, lookup_insert_eq.
    + rewrite Hc'. unfold image. rewrite app_assoc, bslice_app_r by (rewrite length_app, length_le_split; done).
      rewrite length_app, length_le_split. change (8 - (length magic + 4))%nat with 0%nat.
      rewrite <- Hlc, bslice_full, map_map. rewrite <- (map_id (cats f)) at 2.
      apply map_ext_in. intros c Hc. rewrite byte.unsigned_of_Z. apply Z.mod_small.
      apply list_elem_of_In, list_elem_of_fmap in Hc as (p & -> & _).
      pose proof (tree_range _ _ _ Hwf (leaf f + Z.of_nat p)). lia.
Qed.

Lemma Save_Load_witness :
  ∃ f ops buf f', New "t.fsm" 2 = Ok f ∧ Save f = Ok ops ∧
    Load "t.fsm" (Some buf) = Ok f' ∧ cats f' = cats f.
Proof.
  destruct (New_spec "t.fsm" 2) as (f & E & Hw & _ & Hp & _); [lia|].
  destruct (Save_Load f Hw) as (ops & buf & f' & ES & _ & _ & EL & _ & Hc & _).
  - rewrite Hp. discriminate.
  - exists f, ops, buf, f'. rewrite Hp in EL. repeat split; [exact E|exact ES|exact EL|exact Hc].
Defined.

(** Requests above 8160 bytes are capped to the last category, so [Search]
    can return a page without the room: 8164 bytes are asked for, and the page
    that comes back has 8160. *)
Example Search_capped_request :
  (f ← New "t" 1; f ← Update f 0 8160; Search f 8164) = Ok (0, true).
Proof. vm_compute. reflexivity. Qed.
