(* ===== verification/Tuple.v ===== *)
(** * Tuple headers

    [server/internal/core/storage/page/tuple.go]: the 24-byte MVCC header that
    precedes a tuple and the NULL bitmap behind it (bit set = not NULL). *)

From S2P Require Import Prelude Bytes.

Definition TupleHeaderSize : Z := 24.

Record TupleHeader : Type := mkTupleHeader {
  XMin : Z; XMax : Z; CMin : Z; InfoMask : Z; NAttributes : Z }.

Inductive tuple_error : Type :=
| ErrBufferTooSmall
| ErrHeaderTooShort.

Definition Serialize (h : TupleHeader) : M (list byte) tuple_error unit :=
  n ← gets blen;
  if n <? TupleHeaderSize then throw ErrBufferTooSmall else
  update (put_le 8 0 (XMin h));;
  update (put_le 8 8 (XMax h));;
  update (put_le 4 16 (CMin h));;
  update (put_le 2 20 (InfoMask h));;
  update (put_le 2 22 (NAttributes h)).

Definition ParseTupleHeader (buf : bytes) : outcome tuple_error TupleHeader :=
  if blen buf <? TupleHeaderSize then Err ErrHeaderTooShort else
  Ok {| XMin := le_at 8 0 buf; XMax := le_at 8 8 buf; CMin := le_at 4 16 buf;
        InfoMask := le_at 2 20 buf; NAttributes := le_at 2 22 buf |}.

Definition NullBitmapSize (nAttrs : Z) : Z := (nAttrs + 7) / 8.

(** Go's [/] and [%] on [int] truncate; they are applied to [i >= 0] only. *)
Definition IsNull (bitmap : bytes) (i : Z) : bool :=
  if (i <? 0) || (blen bitmap <=? i / 8) then false else
  let b := byte.unsigned (nth (Z.to_nat (i / 8)) bitmap Byte.x00) in
  Z.land b (u8 (Z.shiftl 1 (i mod 8))) =? 0.

Definition SetNotNull (bitmap : bytes) (i : Z) : bytes :=
  if (i <? 0) || (blen bitmap <=? i / 8) then bitmap else
  let k := Z.to_nat (i / 8) in
  let b := byte.unsigned (nth k bitmap Byte.x00) in
  <[k := byte.of_Z (Z.lor b (u8 (Z.shiftl 1 (i mod 8))))]> bitmap.

(** ** Correctness *)

(** The field ranges Go's types give. *)
Definition headerFits (h : TupleHeader) : Prop :=
  0 ≤ XMin h < 2 ^ 64 ∧ 0 ≤ XMax h < 2 ^ 64 ∧ 0 ≤ CMin h < 2 ^ 32 ∧
  0 ≤ InfoMask h < 2 ^ 16 ∧ 0 ≤ NAttributes h < 2 ^ 16.

Definition headerImage (h : TupleHeader) : bytes :=
  le_split 8 (XMin h) ++ le_split 8 (XMax h) ++ le_split 4 (CMin h) ++
  le_split 2 (InfoMask h) ++ le_split 2 (NAttributes h).

Lemma Serialize_spec h buf :
  24 ≤ blen buf → Serialize h buf = (headerImage h ++ drop 24 buf, Ok tt).
Proof.
  intros Hl. unfold blen in Hl.
  assert (∃ a b c d e r : bytes, buf = a ++ b ++ c ++ d ++ e ++ r ∧ length a = 8%nat ∧
    length b = 8%nat ∧ length c = 4%nat ∧ length d = 2%nat ∧ length e = 2%nat)
    as (a & b & c & d & e & r & -> & Ha & Hb & Hc & Hd & He).
  { exists (take 8 buf), (take 8 (drop 8 buf)), (take 4 (drop 16 buf)), (take 2 (drop 20 buf)),
      (take 2 (drop 22 buf)), (drop 24 buf).
    split_and!; rewrite ?length_take, ?length_drop; try lia.
    replace (drop 24 buf) with (drop 2 (drop 22 buf)) by (by rewrite drop_drop).
    rewrite take_drop. replace (drop 22 buf) with (drop 2 (drop 20 buf)) by (by rewrite drop_drop).
    rewrite take_drop. replace (drop 20 buf) with (drop 4 (drop 16 buf)) by (by rewrite drop_drop).
    rewrite take_drop. replace (drop 16 buf) with (drop 8 (drop 8 buf)) by (by rewrite drop_drop).
    by rewrite !take_drop. }
  unfold Serialize, mbind, M_bind, gets, update.
  rewrite (proj2 (Z.ltb_ge _ _)) by (unfold blen, TupleHeaderSize; lia).
  rewrite (put_le_head 8) by done.
  rewrite (put_le_app 8 8) by (unfold blen; rewrite ?length_le_split; lia).
  rewrite app_assoc, (put_le_app 4 16) by (unfold blen; rewrite ?length_app, ?length_le_split; lia).
  rewrite app_assoc, (put_le_app 2 20) by (unfold blen; rewrite ?length_app, ?length_le_split; lia).
  rewrite app_assoc, (put_le_app 2 22) by (unfold blen; rewrite ?length_app, ?length_le_split; lia).
  f_equal. unfold headerImage. rewrite <- !app_assoc. do 5 f_equal.
  rewrite !app_assoc, drop_app_length'; [done|]. rewrite !length_app. lia.
Qed.

(** Bit [i] of a bitmap byte, as [IsNull] tests it. *)
Lemma land_bit b i : 0 ≤ i < 8 → (Z.land b (u8 (Z.shiftl 1 i)) =? 0) = negb (Z.testbit b i).
Proof.
  intros Hi. unfold u8. rewrite Z.shiftl_1_l, Z.mod_small
    by (split; [lia|apply Z.pow_lt_mono_r; lia]).
  destruct (Z.testbit b i) eqn:E; cbn.
  - apply Z.eqb_neq. intros H. apply (f_equal (λ z, Z.testbit z i)) in H.
    rewrite Z.land_spec, Z.pow2_bits_true, E, Z.bits_0 in H by lia. done.
  - apply Z.eqb_eq, Z.bits_inj'. intros k Hk.
    rewrite Z.land_spec, Z.bits_0, Z.pow2_bits_eqb by lia.
    destruct (Z.eqb_spec i k) as [<-|]; [by rewrite E|apply andb_false_r].
Qed.

Lemma IsNull_testbit bm i :
  0 ≤ i → i / 8 < blen bm →
  IsNull bm i = negb (Z.testbit (byte.unsigned (nth (Z.to_nat (i / 8)) bm Byte.x00)) (i mod 8)).
Proof. intros. unfold IsNull. zbool. cbn [orb]. apply land_bit. mlia. Qed.

Lemma testbit_or_bit b i k :
  0 ≤ b < 256 → 0 ≤ i < 8 → 0 ≤ k →
  Z.testbit (byte.unsigned (byte.of_Z (Z.lor b (u8 (Z.shiftl 1 i))))) k =
  Z.testbit b k || (i =? k).
Proof.
  intros Hb Hi Hk. unfold u8. rewrite Z.shiftl_1_l, (Z.mod_small (2 ^ i))
    by (split; [lia|apply Z.pow_lt_mono_r; lia]).
  rewrite byte.unsigned_of_Z. unfold byte.wrap. change 256 with (2 ^ 8).
  destruct (decide (k < 8)).
  - rewrite Z.mod_pow2_bits_low, Z.lor_spec, Z.pow2_bits_eqb by lia. done.
  - rewrite Z.mod_pow2_bits_high, (testbit_small b 8) by lia. zbool. done.
Qed.

(** ** Properties *)

(** A tuple header written by [Serialize] is read back by
    [ParseTupleHeader], and the rest of the buffer is left as it was. *)
Theorem TupleHeader_roundtrip (h : TupleHeader) (buf : bytes) :
  headerFits h → TupleHeaderSize ≤ blen buf →
  ∃ buf', Serialize h buf = (buf', Ok tt) ∧ ParseTupleHeader buf' = Ok h ∧
          blen buf' = blen buf ∧ drop 24 buf' = drop 24 buf.
Proof.
  intros (H1 & H2 & H3 & H4 & H5) Hl. unfold TupleHeaderSize in Hl.
  rewrite Serialize_spec by done. eexists. split; [done|].
  assert (length (headerImage h) = 24%nat) as Hi
    by (unfold headerImage; rewrite !length_app, !length_le_split; done).
  assert (blen (headerImage h ++ drop 24 buf) = blen buf) as Hb
    by (unfold blen in *; rewrite length_app, length_drop, Hi; lia).
  split_and!; [|done|by rewrite drop_app_length'].
  unfold ParseTupleHeader. rewrite Hb. unfold TupleHeaderSize. zbool. unfold headerImage.
  rewrite <- !app_assoc. f_equal. destruct h; cbn in *. f_equal.
  - apply (le_at_app 8 0 _ []); [done|exact H1].
  - apply le_at_app; [by rewrite length_le_split|exact H2].
  - rewrite app_assoc. apply le_at_app; [by rewrite length_app, !length_le_split|exact H3].
  - rewrite 2!app_assoc. apply le_at_app; [by rewrite !length_app, !length_le_split|exact H4].
  - rewrite 3!app_assoc. apply le_at_app; [by rewrite !length_app, !length_le_split|exact H5].
Qed.

Lemma TupleHeader_roundtrip_witness :
  ∃ buf', Serialize (mkTupleHeader 7 0 1 32 3) (replicate 30 Byte.x41) = (buf', Ok tt) ∧
          ParseTupleHeader buf' = Ok (mkTupleHeader 7 0 1 32 3).
Proof.
  destruct (TupleHeader_roundtrip (mkTupleHeader 7 0 1 32 3) (replicate 30 Byte.x41))
    as (b & E & P & _).
  - unfold headerFits; cbn; lia.
  - vm_compute. discriminate.
  - exists b. split; [exact E|exact P].
Defined.

(** [SetNotNull] clears the NULL mark of its attribute and of no other. *)
Theorem SetNotNull_IsNull (bm : bytes) (i j : Z) :
  0 ≤ i → i / 8 < blen bm → 0 ≤ j →
  IsNull (SetNotNull bm i) j = if i =? j then false else IsNull bm j.
Proof.
  intros Hi Hbi Hj. assert (blen (SetNotNull bm i) = blen bm) as Hl.
  { unfold SetNotNull. zbool. cbn [orb]. unfold blen. by rewrite length_insert. }
  destruct (decide (j / 8 < blen bm)) as [Hbj|Hbj].
  2: { destruct (Z.eqb_spec i j) as [<-|]; [lia|]. unfold IsNull. rewrite Hl. by zbool. }
  rewrite !IsNull_testbit by lia. unfold SetNotNull. zbool. cbn [orb].
  rewrite !nth_lookup. destruct (decide (i / 8 = j / 8)) as [E|E].
  - rewrite E, list_lookup_insert_eq by (unfold blen in *; mlia). cbn [from_option id].
    rewrite testbit_or_bit; [|apply byte.unsigned_range|mlia..]. rewrite negb_orb.
    destruct (Z.eqb_spec i j) as [<-|].
    + rewrite Z.eqb_refl. apply andb_false_r.
    + rewrite (proj2 (Z.eqb_neq (i mod 8) _)) by mlia. apply andb_true_r.
  - rewrite list_lookup_insert_ne by mlia.
    rewrite (proj2 (Z.eqb_neq i j)) by congruence. done.
Qed.

Lemma SetNotNull_IsNull_witness :
  IsNull (SetNotNull [Byte.x00; Byte.x00] 9) 9 = false.
Proof.
  rewrite (SetNotNull_IsNull [Byte.x00; Byte.x00] 9 9); [reflexivity|lia|vm_compute; reflexivity|lia].
Defined.
