(* ===== verification/Strconv.v ===== *)
(** * Decimal integers

    [strconv.FormatInt(z, 10)] and [strconv.ParseInt(s, 10, 64)] of Go's
    standard library, as the executor uses them to print and read integers. *)

From S2P Require Import Prelude Bytes.

Definition digit (d : Z) : byte := byte.of_Z (48 + d).
Definition isDigitByte (b : byte) : bool := (48 <=? byte.unsigned b) && (byte.unsigned b <=? 57).

(** The digits of [n], for [n < 10^fuel]. *)
Fixpoint digits (fuel : nat) (n : Z) : bytes :=
  match fuel with
  | O => []
  | S fuel => if n <? 10 then [digit n] else digits fuel (n / 10) ++ [digit (n mod 10)]
  end.

(** An [int64] has at most 19 digits. *)
Definition FormatInt (z : Z) : bytes := if z <? 0 then Byte.x2d :: digits 19 (- z) else digits 19 z.

Fixpoint parseDigits (acc : Z) (s : bytes) : option Z :=
  match s with
  | [] => Some acc
  | b :: s => if isDigitByte b then parseDigits (10 * acc + (byte.unsigned b - 48)) s else None
  end.

(** [ParseUint]: at least one digit, and nothing but digits. *)
Definition parseUint (s : bytes) : option Z := match s with [] => None | _ => parseDigits 0 s end.

(** The error is a syntax error or a range error. *)
Definition ParseInt (s : bytes) : option Z :=
  let '(neg, s) := match s with
                   | Byte.x2b :: s => (false, s)
                   | Byte.x2d :: s => (true, s)
                   | _ => (false, s)
                   end in
  match parseUint s with
  | None => None
  | Some n =>
      if negb neg && (2 ^ 63 <=? n) then None
      else if neg && (2 ^ 63 <? n) then None
      else Some (if neg then - n else n)
  end.

(** ** Printing and reading *)

Lemma digit_unsigned d : 0 <= d < 10 → byte.unsigned (digit d) = 48 + d.
Proof. intros Hd. unfold digit. rewrite byte.unsigned_of_Z. unfold byte.wrap. rewrite Z.mod_small by lia. done. Qed.

Lemma digit_isDigit d : 0 <= d < 10 → isDigitByte (digit d) = true.
Proof. intros Hd. unfold isDigitByte. rewrite digit_unsigned by done. zbool. done. Qed.

Lemma parseDigits_app s t acc : parseDigits acc (s ++ t) = match parseDigits acc s with Some a => parseDigits a t | None => None end.
Proof. revert acc. induction s as [|b s IH]; intros acc; [done|]. cbn. destruct (isDigitByte b); [apply IH|done]. Qed.

Lemma digits_cons fuel n : (0 < fuel)%nat → 0 <= n → ∃ b s, digits fuel n = b :: s ∧ isDigitByte b = true.
Proof.
  revert n. induction fuel as [|fuel IH]; intros n Hf Hn; [lia|]. cbn. destruct (Z.ltb_spec n 10).
  - exists (digit n), []. split; [done|]. by apply digit_isDigit.
  - destruct fuel as [|fuel].
    + exists (digit (n mod 10)), []. split; [done|]. apply digit_isDigit. mlia.
    + destruct (IH (n / 10)) as (b & s & E & Hb); [lia|mlia|]. rewrite E. by exists b, (s ++ [digit (n mod 10)]).
Qed.

Lemma parseDigits_digits fuel n : 0 <= n < 10 ^ Z.of_nat fuel → parseDigits 0 (digits fuel n) = Some n.
Proof.
  revert n. induction fuel as [|fuel IH]; intros n Hn; [cbn in *; f_equal; lia|]. cbn [digits].
  destruct (Z.ltb_spec n 10).
  - cbn. rewrite digit_isDigit, digit_unsigned by lia. f_equal. lia.
  - rewrite parseDigits_app, IH.
    + cbn [parseDigits]. rewrite digit_isDigit, digit_unsigned by mlia. f_equal. mlia.
    + rewrite Nat2Z.inj_succ, Z.pow_succ_r in Hn by lia. split; [mlia|]. apply Z.div_lt_upper_bound; lia.
Qed.

Lemma digit_not_sign b : isDigitByte b = true → (b ≠ Byte.x2b) ∧ (b ≠ Byte.x2d).
Proof. by destruct b. Qed.

Lemma ParseInt_FormatInt z : - 2 ^ 63 <= z < 2 ^ 63 → ParseInt (FormatInt z) = Some z.
Proof.
  intros Hz. unfold FormatInt. destruct (Z.ltb_spec z 0).
  - unfold ParseInt. destruct (digits_cons 19 (- z)) as (b & s & E & _); [lia|lia|].
    unfold parseUint. rewrite E, <- E, parseDigits_digits by (cbn; lia). cbn [negb andb]. zbool. f_equal. lia.
  - destruct (digits_cons 19 z) as (b & s & E & Hb); [lia|lia|].
    assert (parseUint (digits 19 z) = Some z) as Hp.
    { unfold parseUint. rewrite E, <- E. apply parseDigits_digits. cbn. lia. }
    unfold ParseInt. rewrite E in Hp |- *. destruct (digit_not_sign b Hb) as [H1 H2].
    destruct b; try done; rewrite Hp; cbn [negb andb]; zbool; done.
Qed.

(** Two [int64] that print alike are the same. *)
Lemma FormatInt_inj z z' : - 2 ^ 63 <= z < 2 ^ 63 → - 2 ^ 63 <= z' < 2 ^ 63 → FormatInt z = FormatInt z' → z = z'.
Proof. intros Hz Hz' E. apply ParseInt_FormatInt in Hz, Hz'. rewrite E, Hz' in Hz. congruence. Qed.

(** What is read is an [int64]. *)
Lemma parseDigits_nonneg s acc n : 0 <= acc → parseDigits acc s = Some n → 0 <= n.
Proof.
  revert acc. induction s as [|b s IH]; intros acc Ha; cbn; [congruence|]. destruct (isDigitByte b) eqn:Hb; [|done]. apply IH.
  unfold isDigitByte in Hb. bcase; try done. lia.
Qed.

Lemma ParseInt_range s z : ParseInt s = Some z → - 2 ^ 63 <= z < 2 ^ 63.
Proof.
  unfold ParseInt. set (ns := match s with Byte.x2b :: t => (false, t) | Byte.x2d :: t => (true, t) | _ => (false, s) end).
  destruct ns as [neg t]. destruct (parseUint t) as [n|] eqn:Hn; [|done].
  assert (0 <= n) by (destruct t; [done|]; by apply (parseDigits_nonneg (b :: t) 0 n)).
  destruct neg; cbn [negb andb]; bcase; try done; intros [= <-]; lia.
Qed.

Example FormatInt_min : FormatInt (- 2 ^ 63) = str "-9223372036854775808".
Proof. vm_compute. reflexivity. Qed.
