(* ===== verification/Json.v ===== *)
(** * Decoding JSON values

    [server/internal/core/storage/json_decode.go]: [DecodeJSON] decodes with
    [json.Number] and turns number literals back into [int64] where they are
    integers.  The text decoder of [encoding/json] and [strconv.ParseFloat] are
    arguments. *)

From S2P Require Import Prelude Bytes Strconv.

(** What the interface values of the code can hold.  A Go map is represented by
    its entries in key order, a float64 by its bit pattern. *)
#[warnings="-register-all"]
Inductive jvalue : Type :=
| JNil
| JBool (b : bool)
| JNumber (literal : list byte)
| JInt (z : Z)
| JFloat (bits : Z)
| JStr (s : list byte)
| JArr (l : list jvalue)
| JObj (m : list (list byte * jvalue)).

(** ** Number conversion *)

Section Decode.
(** [strconv.ParseFloat] as [json.Number.Float64] uses it, to a bit pattern. *)
Context (ParseFloat : bytes → option Z).
(** [json.Decoder.Decode] with [UseNumber]: the first value of the text. *)
Context (decodeRaw : bytes → option jvalue).

Fixpoint convertJSONNumbers (v : jvalue) : jvalue :=
  match v with
  | JNumber s =>
      match ParseInt s with
      | Some i => JInt i
      | None => match ParseFloat s with Some f => JFloat f | None => JStr s end
      end
  | JObj m => JObj (map (λ '(k, inner), (k, convertJSONNumbers inner)) m)
  | JArr l => JArr (map convertJSONNumbers l)
  | _ => v
  end.

(** UTF-8 encodings of the runes [unicode.IsSpace] accepts. *)
Definition spaceRunes : list (list byte) :=
  map (map byte.of_Z)
    ([[9]; [10]; [11]; [12]; [13]; [32]; [0xC2; 0x85]; [0xC2; 0xA0]; [0xE1; 0x9A; 0x80]]
     ++ map (λ k, [0xE2; 0x80; 0x80 + k]) [0; 1; 2; 3; 4; 5; 6; 7; 8; 9; 10]
     ++ [[0xE2; 0x80; 0xA8]; [0xE2; 0x80; 0xA9]; [0xE2; 0x80; 0xAF]; [0xE2; 0x81; 0x9F];
         [0xE3; 0x80; 0x80]]).

(** [len(bytes.TrimSpace(data)) == 0]: only space runes. *)
Fixpoint blank (fuel : nat) (data : bytes) : bool :=
  match data, fuel with
  | [], _ => true
  | _, O => false
  | _, S fuel =>
      match list_find (λ r, take (length r) data = r) spaceRunes with
      | Some (_, r) => blank fuel (drop (length r) data)
      | None => false
      end
  end.

Definition DecodeJSON (data : bytes) : option jvalue :=
  if blank (length data) data then Some JNil else
  raw ← decodeRaw data;
  Some (convertJSONNumbers raw).

(** ** Correctness *)

(** [json.Marshal]'s literal of a float64. *)
Context (FormatFloat : Z → bytes).

(** What the decoder hands to [convertJSONNumbers] for a marshalled value:
    every number as its literal. *)
Fixpoint literals (v : jvalue) : jvalue :=
  match v with
  | JInt z => JNumber (FormatInt z)
  | JFloat f => JNumber (FormatFloat f)
  | JObj m => JObj (map (λ '(k, inner), (k, literals inner)) m)
  | JArr l => JArr (map literals l)
  | _ => v
  end.

(** Values a stored object can hold: [int64] range, and floats whose literal is
    not an integer literal and parses back. *)
Fixpoint storable (v : jvalue) : Prop :=
  match v with
  | JInt z => - 2 ^ 63 ≤ z < 2 ^ 63
  | JFloat f => ParseInt (FormatFloat f) = None ∧ ParseFloat (FormatFloat f) = Some f
  | JNumber _ => False
  | JObj m => fold_right (λ '(_, inner) P, storable inner ∧ P) True m
  | JArr l => fold_right (λ inner P, storable inner ∧ P) True l
  | _ => True
  end.
End Decode.

Section Induction.
Context (P : jvalue → Prop).
Context (Hnil : P JNil) (Hbool : ∀ b, P (JBool b)) (Hnum : ∀ s, P (JNumber s)).
Context (Hint : ∀ z, P (JInt z)) (Hfloat : ∀ f, P (JFloat f)) (Hstr : ∀ s, P (JStr s)).
Context (Harr : ∀ l, Forall P l → P (JArr l)).
Context (Hobj : ∀ m, Forall (λ kv, P (snd kv)) m → P (JObj m)).

(** Induction with hypotheses for the elements of arrays and objects. *)
Fixpoint jvalue_deep_ind (v : jvalue) : P v :=
  match v with
  | JNil => Hnil
  | JBool b => Hbool b
  | JNumber s => Hnum s
  | JInt z => Hint z
  | JFloat f => Hfloat f
  | JStr s => Hstr s
  | JArr l => Harr l (list_ind (Forall P) (List.Forall_nil P)
      (λ x l' IH, @List.Forall_cons _ P x l' (jvalue_deep_ind x) IH) l)
  | JObj m => Hobj m (list_ind (Forall _) (List.Forall_nil _)
      (λ kv m' IH, @List.Forall_cons _ _ kv m' (jvalue_deep_ind (snd kv)) IH) m)
  end.
End Induction.

Lemma convert_literals PF FF v :
  storable PF FF v → convertJSONNumbers PF (literals FF v) = v.
Proof.
  induction v as [|b|s|z|f|s|l IH|m IH] using jvalue_deep_ind; cbn; intros Hs; try done.
  - by rewrite ParseInt_FormatInt.
  - destruct Hs as [-> ->]. done.
  - f_equal. rewrite map_map. induction IH as [|x l Hx _ IHl]; [done|].
    cbn in *. destruct Hs. f_equal; auto.
  - f_equal. rewrite map_map. induction IH as [|[k x] m Hx _ IHl]; [done|].
    cbn in *. destruct Hs. f_equal; [f_equal|]; auto.
Qed.

(** ** Property *)

(** [DecodeJSON] gives back what was marshalled, every [int64] exactly (a
    decoder without [UseNumber] would round it to a float64).  The hypotheses
    say what [encoding/json] documents: an object's text starts with a brace and
    decodes to the same object with each number as its literal. *)
Theorem DecodeJSON_roundtrip (ParseFloat : bytes → option Z) (FormatFloat : Z → bytes)
    (decodeRaw : bytes → option jvalue) (Marshal : jvalue → option bytes) :
  (∀ m b, Marshal (JObj m) = Some b →
     take 1 b = [Byte.x7b] ∧ decodeRaw b = Some (literals FormatFloat (JObj m))) →
  ∀ m b, storable ParseFloat FormatFloat (JObj m) → Marshal (JObj m) = Some b →
    DecodeJSON ParseFloat decodeRaw b = Some (JObj m).
Proof.
  intros HM m b Hs Hb. destruct (HM m b Hb) as [Hbr Hd].
  unfold DecodeJSON. rewrite Hd. cbn [mbind option_bind]. rewrite convert_literals by done.
  destruct b as [|c b]; [done|]. injection Hbr as ->. done.
Qed.

(** One object and its text, for an [encoding/json] cut down to it. *)
Definition sampleObj : jvalue := JObj [([Byte.x61], JInt (-9007199254740993))].
Definition sampleText : bytes :=
  map byte.of_Z [123; 34; 97; 34; 58] ++ FormatInt (-9007199254740993) ++ [Byte.x7d].

Lemma DecodeJSON_roundtrip_witness :
  DecodeJSON (λ _, None)
    (λ t, if bool_decide (t = sampleText) then Some (literals (λ _, []) sampleObj) else None)
    sampleText = Some sampleObj.
Proof.
  apply (DecodeJSON_roundtrip (λ _, None) (λ _, [])
    (λ t, if bool_decide (t = sampleText) then Some (literals (λ _, []) sampleObj) else None)
    (λ v, match v with
          | JObj [([Byte.x61], JInt (-9007199254740993))] => Some sampleText
          | _ => None
          end)).
  - intros m b H. destruct m as [|[k v] [|? ?]]; try discriminate.
    + repeat (match type of H with context [match ?x with _ => _ end] =>
        destruct x; try discriminate end).
      injection H as <-. split; vm_compute; reflexivity.
    + repeat (match type of H with context [match ?x with _ => _ end] =>
        destruct x; try discriminate end).
  - cbn. lia.
  - reflexivity.
Defined.
