(* ===== verification/RowCodec.v ===== *)
(** * The row codec

    [server/internal/core/storage/binary_encoding.go]: a row is a 16-byte
    transaction header, a column count, an offset table and tagged column
    values.  [EncodeRow] sizes the tuple in a first pass and fills a pooled
    buffer in a second; [encodeColumnValue] is the one-column reference it is
    compared with.  [DecodeRow] reads the tuple back.  The second half is the
    bits of the transaction header: heap-only-tuple links and commit hints. *)

From S2P Require Import Prelude Bytes Json.

(** ** Values *)

(** The dynamic types the codec distinguishes; floats are bit patterns, a map
    is its entries in key order, [VOther] any other type. *)
Inductive Value : Type :=
| VNil
| VInt (z : Z)
| VFloat (bits : Z)
| VBool (b : bool)
| VString (s : list byte)
| VVector (v : list Z)
| VMap (m : list (list byte * jvalue))
| VOther.

Abbreviation Row := (list Value).

Inductive codec_error : Type :=
| ErrEmptyRow
| ErrStringTooLong
| ErrMarshal
| ErrJSONTooLong
| ErrUnsupportedType
| ErrTupleTooLarge
| ErrTupleTooShort
| ErrHeaderTruncated
| ErrValueTruncated
| ErrUnknownTag.

Abbreviation res := (outcome codec_error).

Definition binTupleHeaderSize : Z := 16.
Definition binColCountSize : Z := 2.
Definition binColOffsetSize : Z := 2.
Definition binNullMarker : byte := Byte.xff.
Definition binTrue : byte := Byte.x01.
Definition binFalse : byte := Byte.x00.
Definition tagInt : byte := Byte.x69.     (* 'i' *)
Definition tagFloat : byte := Byte.x66.   (* 'f' *)
Definition tagBool : byte := Byte.x62.    (* 'b' *)
Definition tagString : byte := Byte.x73.  (* 's' *)
Definition tagJSON : byte := Byte.x6a.    (* 'j' *)
Definition tagVector : byte := Byte.x76.  (* 'v' *)

(** [tuple[o] = b]. *)
Definition set_byte (o : Z) (b : byte) : bytes → option bytes := λ t,
  if (0 <=? o) && (o <? blen t) then Some (<[Z.to_nat o := b]> t) else None.

(** [copy(tuple[lo:], d)] is [copy_at]; [PutUint64(tuple[lo:hi], v)] with
    [hi = lo + n] computed in [uint16] panics when the slice is shorter. *)
Definition put_slice (n : nat) (lo hi v : Z) : bytes → option bytes := λ t,
  if (0 <=? lo) && (lo <=? hi) && (hi <=? blen t) && (Z.of_nat n <=? hi - lo)
  then Some (splice (Z.to_nat lo) (le_split n v) t) else None.

(** [MemoryPool.Get]: a buffer of the pool, with whatever an earlier user left
    in it, if its capacity suffices, else a fresh one. *)
Definition poolGet (pooled : bytes) (size : Z) : bytes :=
  if blen pooled <? size then replicate (Z.to_nat size) Byte.x00
  else take (Z.to_nat size) pooled.

(** Comparing a known tag. *)
Ltac tags :=
  repeat first [rewrite bool_decide_true by reflexivity | rewrite bool_decide_false by discriminate].

(** ** The bits of the transaction word *)

Definition TxIDMask : Z := 0x0000FFFFFFFFFFFF.
Definition hotUpdatedFlag : Z := Z.shiftl 1 48.
Definition hotHeapTupleFlag : Z := Z.shiftl 1 49.
Definition hotForwardShift : Z := 50.
Definition hotForwardMask : Z := 0x3FFF.
Definition xminCommittedFlag : Z := Z.shiftl 1 62.
Definition xmaxCommittedFlag : Z := Z.shiftl 1 63.

Definition testFlag (flag : Z) (tuple : bytes) : res bool :=
  val ← must (get_le 8 0 tuple);
  Ok (negb (Z.land val flag =? 0)).

Definition setWord (f : Z → Z) : M bytes codec_error unit :=
  val ← (λ t, (t, must (get_le 8 0 t)));
  update (put_slice 8 0 8 (f val)).

Definition IsHOTUpdated : bytes → res bool := testFlag hotUpdatedFlag.
Definition IsHOTHeapTuple : bytes → res bool := testFlag hotHeapTupleFlag.
Definition IsXMinCommitted : bytes → res bool := testFlag xminCommittedFlag.
Definition IsXMaxCommitted : bytes → res bool := testFlag xmaxCommittedFlag.

Definition GetForwardSlot (tuple : bytes) : res Z :=
  val ← must (get_le 8 0 tuple);
  Ok (u16 (Z.land (Z.shiftr val hotForwardShift) hotForwardMask)).

(** Go's [x &^ y] on [uint64] is [Z.ldiff]. *)
Definition SetHOTUpdated (forwardSlot : Z) : M bytes codec_error unit :=
  setWord (λ val,
    let val := Z.lor val hotUpdatedFlag in
    let val := Z.ldiff val (u64 (Z.shiftl hotForwardMask hotForwardShift)) in
    Z.lor val (u64 (Z.shiftl (Z.land forwardSlot hotForwardMask) hotForwardShift))).

Definition SetHOTHeapTuple : M bytes codec_error unit := setWord (λ val, Z.lor val hotHeapTupleFlag).
Definition SetXMinCommitted : M bytes codec_error unit := setWord (λ val, Z.lor val xminCommittedFlag).
Definition SetXMaxCommitted : M bytes codec_error unit := setWord (λ val, Z.lor val xmaxCommittedFlag).

Section Codec.
(** [json.Marshal] on an object; the decoder arguments of [DecodeJSON]. *)
Context (Marshal : list (list byte * jvalue) → option bytes).
Context (ParseFloat : bytes → option Z) (decodeRaw : bytes → option jvalue).

(** ** Encoding *)

(** Phase 1: the size of the columns from [i] on, and the marshalled objects. *)
Fixpoint measure (i : nat) (row : Row) (totalSize : Z) (jsonCols : gmap nat bytes)
    : res (Z * gmap nat bytes) :=
  match row with
  | [] => Ok (totalSize, jsonCols)
  | val :: row =>
      match val with
      | VNil => measure (S i) row (totalSize + 1) jsonCols
      | VInt _ | VFloat _ => measure (S i) row (totalSize + 9) jsonCols
      | VBool _ => measure (S i) row (totalSize + 2) jsonCols
      | VString s =>
          if 65535 <? blen s then Err ErrStringTooLong
          else measure (S i) row (totalSize + (3 + blen s)) jsonCols
      | VVector v => measure (S i) row (totalSize + (3 + Z.of_nat (length v) * 8)) jsonCols
      | VMap m =>
          match Marshal m with
          | None => Err ErrMarshal
          | Some jsonBytes =>
              if 65535 <? blen jsonBytes then Err ErrJSONTooLong
              else measure (S i) row (totalSize + (3 + blen jsonBytes))
                     (<[i := jsonBytes]> jsonCols)
          end
      | VOther => Err ErrUnsupportedType
      end
  end.

(** The inner loop over the elements of a vector, from element [j] on. *)
Fixpoint writeVector (offset j : Z) (v : list Z) : M bytes codec_error unit :=
  match v with
  | [] => mret tt
  | f :: v =>
      let at' := u16 (u16 (offset + 3) + u16 (u16 j * 8)) in
      update (put_slice 8 at' (u16 (at' + 8)) f);;
      writeVector offset (j + 1) v
  end.

(** The value of column [i] at [offset]; returns the next offset. *)
Definition writeValue (i : nat) (offset : Z) (val : Value) (jsonCols : gmap nat bytes)
    : M bytes codec_error Z :=
  match val with
  | VNil => update (set_byte offset binNullMarker);; mret (u16 (offset + 1))
  | VInt z =>
      update (set_byte offset tagInt);;
      update (put_slice 8 (u16 (offset + 1)) (u16 (offset + 9)) (u64 z));;
      mret (u16 (offset + 9))
  | VFloat f =>
      update (set_byte offset tagFloat);;
      update (put_slice 8 (u16 (offset + 1)) (u16 (offset + 9)) f);;
      mret (u16 (offset + 9))
  | VBool b =>
      update (set_byte offset tagBool);;
      update (set_byte (u16 (offset + 1)) (if b then binTrue else binFalse));;
      mret (u16 (offset + 2))
  | VString s =>
      update (set_byte offset tagString);;
      update (put_slice 2 (u16 (offset + 1)) (u16 (offset + 3)) (u16 (blen s)));;
      update (copy_at (u16 (offset + 3)) s);;
      mret (u16 (offset + u16 (3 + blen s)))
  | VVector v =>
      update (set_byte offset tagVector);;
      update (put_slice 2 (u16 (offset + 1)) (u16 (offset + 3)) (u16 (Z.of_nat (length v))));;
      writeVector offset 0 v;;
      mret (u16 (offset + u16 (3 + Z.of_nat (length v) * 8)))
  | VMap _ =>
      let jsonBytes := default [] (jsonCols !! i) in
      update (set_byte offset tagJSON);;
      update (put_slice 2 (u16 (offset + 1)) (u16 (offset + 3)) (u16 (blen jsonBytes)));;
      update (copy_at (u16 (offset + 3)) jsonBytes);;
      mret (u16 (offset + u16 (3 + blen jsonBytes)))
  | VOther => mret offset
  end.

(** Phase 2: the columns from [i] on. *)
Fixpoint writeCols (i : nat) (offset : Z) (row : Row) (jsonCols : gmap nat bytes)
    : M bytes codec_error unit :=
  match row with
  | [] => mret tt
  | val :: row =>
      let offIdx := binTupleHeaderSize + binColCountSize + Z.of_nat i * binColOffsetSize in
      update (put_slice 2 offIdx (offIdx + binColOffsetSize) offset);;
      offset ← writeValue i offset val jsonCols;
      writeCols (S i) offset row jsonCols
  end.

(** [pooled] is the buffer the tuple pool hands out. *)
Definition EncodeRow (pooled : bytes) (createdTx deletedTx : Z) (row : Row) : res bytes :=
  match row with
  | [] => Err ErrEmptyRow
  | _ =>
      let n := Z.of_nat (length row) in
      let headerSize := binTupleHeaderSize + binColCountSize + n * binColOffsetSize in
      '(totalSize, jsonCols) ← measure 0 row headerSize ∅;
      if 65535 <? totalSize then Err ErrTupleTooLarge else
      let fill : M bytes codec_error unit :=
        update (put_slice 8 0 8 createdTx);;
        update (put_slice 8 8 16 deletedTx);;
        update (put_slice 2 16 18 (u16 n));;
        writeCols 0 (u16 headerSize) row jsonCols in
      match fill (poolGet pooled totalSize) with
      | (tuple, Ok _) => Ok tuple
      | (_, Err e) => Err e
      | (_, Panic) => Panic
      end
  end.

(** The one-column encoder. *)
Definition encodeColumnValue (val : Value) : res bytes :=
  match val with
  | VNil => Ok [binNullMarker]
  | VInt z => Ok (tagInt :: le_split 8 (u64 z))
  | VFloat f => Ok (tagFloat :: le_split 8 f)
  | VBool b => Ok [tagBool; if b then binTrue else binFalse]
  | VString s =>
      if 65535 <? blen s then Err ErrStringTooLong
      else Ok (tagString :: le_split 2 (u16 (blen s)) ++ s)
  | VMap m =>
      match Marshal m with
      | None => Err ErrMarshal
      | Some jsonBytes =>
          if 65535 <? blen jsonBytes then Err ErrJSONTooLong
          else Ok (tagJSON :: le_split 2 (u16 (blen jsonBytes)) ++ jsonBytes)
      end
  | VVector v =>
      Ok (tagVector :: le_split 2 (u16 (Z.of_nat (length v))) ++ concat (map (le_split 8) v))
  | VOther => Err ErrUnsupportedType
  end.

(** ** Decoding *)

(** [vec[i] = Uint64(data[3+i*8 : 3+i*8+8])] for the [count] elements from [i]. *)
Fixpoint readVector (count : nat) (i : nat) (data : bytes) : list Z :=
  match count with
  | O => []
  | S count => le_at 8 (3 + i * 8) data :: readVector count (S i) data
  end.

Definition decodeColumnValue (data : bytes) : res Value :=
  match data with
  | [] => Ok VNil
  | tag :: _ =>
      if bool_decide (tag = binNullMarker) then Ok VNil
      else if bool_decide (tag = tagInt) then
        if blen data <? 9 then Err ErrValueTruncated else Ok (VInt (s64 (le_at 8 1 data)))
      else if bool_decide (tag = tagFloat) then
        if blen data <? 9 then Err ErrValueTruncated else Ok (VFloat (le_at 8 1 data))
      else if bool_decide (tag = tagBool) then
        if blen data <? 2 then Err ErrValueTruncated
        else Ok (VBool (bool_decide (nth 1 data Byte.x00 = binTrue)))
      else if bool_decide (tag = tagString) then
        if blen data <? 3 then Err ErrValueTruncated else
        let strLen := le_at 2 1 data in
        if blen data <? 3 + strLen then Err ErrValueTruncated
        else Ok (VString (bslice 3 (Z.to_nat strLen) data))
      else if bool_decide (tag = tagJSON) then
        if blen data <? 3 then Err ErrValueTruncated else
        let jsonLen := le_at 2 1 data in
        if blen data <? 3 + jsonLen then Err ErrValueTruncated else
        let jsonStr := bslice 3 (Z.to_nat jsonLen) data in
        match DecodeJSON ParseFloat decodeRaw jsonStr with
        | Some (JObj m) => Ok (VMap m)
        | _ => Ok (VString jsonStr)
        end
      else if bool_decide (tag = tagVector) then
        if blen data <? 3 then Err ErrValueTruncated else
        let count := le_at 2 1 data in
        if blen data <? 3 + count * 8 then Err ErrValueTruncated
        else Ok (VVector (readVector (Z.to_nat count) 0 data))
      else Err ErrUnknownTag
  end.

(** The loop of [DecodeRow] over the [count] columns from [i] on.  A slice
    expression may reach up to the capacity: [spare] is what lies between the
    length and the capacity of the tuple. *)
Fixpoint readCols (count : nat) (i : Z) (colCount : Z) (spare tuple : bytes) : res Row :=
  match count with
  | O => Ok []
  | S count =>
      let offIdx := binTupleHeaderSize + binColCountSize + i * binColOffsetSize in
      valOffset ← must (get_le 2 offIdx tuple);
      nextOffset ←
        (if u16 (i + 1) <? colCount then
           must (get_le 2 (binTupleHeaderSize + binColCountSize
                           + u16 (i + 1) * binColOffsetSize) tuple)
         else Ok (u16 (blen tuple)));
      valBytes ← must (slice valOffset nextOffset (tuple ++ spare));
      val ← decodeColumnValue valBytes;
      row ← readCols count (i + 1) colCount spare tuple;
      Ok (val :: row)
  end.

Definition DecodeRow (spare tuple : bytes) : res (Z * Z * Row) :=
  if blen tuple <? binTupleHeaderSize + binColCountSize then Err ErrTupleTooShort else
  let createdTx := le_at 8 0 tuple in
  let deletedTx := le_at 8 8 tuple in
  let colCount := le_at 2 16 tuple in
  let headerSize := binTupleHeaderSize + binColCountSize + colCount * binColOffsetSize in
  if blen tuple <? headerSize then Err ErrHeaderTruncated else
  row ← readCols (Z.to_nat colCount) 0 colCount spare tuple;
  Ok (createdTx, deletedTx, row).

(** ** The reference encoding *)

Fixpoint encodeCols (row : Row) : res (list bytes) :=
  match row with
  | [] => Ok []
  | v :: row => e ← encodeColumnValue v; es ← encodeCols row; Ok (e :: es)
  end.

(** Where each column starts, the first one at [start]. *)
Fixpoint offsets (start : Z) (encs : list bytes) : list Z :=
  match encs with
  | [] => []
  | e :: encs => start :: offsets (start + blen e) encs
  end.

Definition headerBytes (n : nat) : Z := 18 + 2 * Z.of_nat n.

Definition layout (createdTx deletedTx : Z) (encs : list bytes) : bytes :=
  let n := length encs in
  le_split 8 createdTx ++ le_split 8 deletedTx ++ le_split 2 (Z.of_nat n)
  ++ concat (map (le_split 2) (offsets (headerBytes n) encs)) ++ concat encs.

Definition encodeReference (createdTx deletedTx : Z) (row : Row) : res bytes :=
  match row with
  | [] => Err ErrEmptyRow
  | _ =>
      encs ← encodeCols row;
      if 65535 <? headerBytes (length row) + blen (concat encs) then Err ErrTupleTooLarge
      else Ok (layout createdTx deletedTx encs)
  end.

(** ** [EncodeRow] computes the reference *)

Lemma set_byte_app o c (a : bytes) y r :
  blen a = o → set_byte o c (a ++ y :: r) = Some ((a ++ [c]) ++ r).
Proof.
  intros Ho. unfold set_byte. rewrite blen_app. unfold blen in *. cbn [length]. zbool. cbn [andb].
  f_equal. replace (Z.to_nat o) with (length a + 0)%nat by lia.
  rewrite insert_app_r. cbn. by rewrite <- app_assoc.
Qed.

Lemma put_slice_app n lo hi v (a x b : bytes) :
  blen a = lo → hi = lo + Z.of_nat n → length x = n →
  put_slice n lo hi v (a ++ x ++ b) = Some ((a ++ le_split n v) ++ b).
Proof.
  intros Ha -> Hx. unfold put_slice. rewrite !blen_app. unfold blen in *. zbool. cbn [andb].
  f_equal. rewrite splice_app, splice_mid by (rewrite ?length_le_split; lia). by rewrite app_assoc.
Qed.

Lemma put_slice_head n hi v (x b : bytes) :
  hi = Z.of_nat n → length x = n → put_slice n 0 hi v (x ++ b) = Some (le_split n v ++ b).
Proof. by apply (put_slice_app n 0 hi v []). Qed.

Lemma length_concat_le v : length (concat (map (le_split 8) v)) = (8 * length v)%nat.
Proof. induction v as [|x v IH]; [done|]. cbn. rewrite length_app, length_le_split, IH. lia. Qed.

Lemma split_length {A} (x : list A) n m :
  length x = (n + m)%nat → ∃ x1 x2, x = x1 ++ x2 ∧ length x1 = n ∧ length x2 = m.
Proof.
  intros H. exists (take n x), (drop n x). rewrite length_take, length_drop, take_drop.
  split_and!; [done|lia..].
Qed.

Lemma writeVector_spec offset j v (a x b : bytes) :
  0 ≤ offset → 0 ≤ j → blen a = offset + 3 + 8 * j → length x = (8 * length v)%nat →
  blen a + blen x ≤ 65535 →
  writeVector offset j v (a ++ x ++ b) = (a ++ concat (map (le_split 8) v) ++ b, Ok tt).
Proof.
  revert j a x. induction v as [|f v IH]; intros j a x Ho Hj Ha Hx Hle.
  { cbn in *. destruct x; [done|cbn in Hx; lia]. }
  cbn [writeVector]. unfold mbind, M_bind, update. unfold blen in *. cbn [length] in Hx.
  destruct (split_length x 8 (8 * length v)) as (x1 & x2 & -> & H1 & H2); [lia|].
  rewrite length_app in Hle. 
  rewrite (u16_small j), (u16_small (j * 8)), (u16_small (offset + 3)),
    (u16_small (offset + 3 + j * 8)), u16_small by lia.
  rewrite <- app_assoc, put_slice_app by (unfold blen; lia).
  rewrite (IH (j + 1)); [|lia..| |done|].
  - cbn [map concat]. by rewrite <- !app_assoc.
  - rewrite length_app, length_le_split. lia.
  - rewrite length_app, length_le_split. lia.
Qed.

(** The marshalled objects of the columns from [i] on are where phase 2 looks. *)
Definition jsonColsOk (i : nat) (row : Row) (jsonCols : gmap nat bytes) : Prop :=
  ∀ k m, row !! k = Some (VMap m) → jsonCols !! (i + k)%nat = Marshal m.

(** The common shapes: a tag and a fixed field, a tag and a counted payload. *)
Lemma write_tagged8 offset tag w (a x b : bytes) :
  blen a = offset → length x = 9%nat → blen a + 9 ≤ 65535 →
  (update (set_byte offset tag);;
   update (put_slice 8 (u16 (offset + 1)) (u16 (offset + 9)) w);;
   mret (u16 (offset + 9)) : M bytes codec_error Z) (a ++ x ++ b)
  = (a ++ (tag :: le_split 8 w) ++ b, Ok (offset + 9)).
Proof.
  intros Ha Hx Hle. pose proof (blen_nonneg a). destruct x as [|y x]; [done|].
  unfold mbind, M_bind, update. rewrite <- app_comm_cons, set_byte_app by done.
  rewrite !u16_small by lia. injection Hx as Hx.
  rewrite put_slice_app; [|unfold blen in *; rewrite length_app; cbn [length]; lia|lia|done].
  by rewrite <- !app_assoc.
Qed.

Lemma write_counted offset tag count (payload a x b : bytes) :
  blen a = offset → length x = (3 + length payload)%nat → blen a + blen x ≤ 65535 →
  (update (set_byte offset tag);;
   update (put_slice 2 (u16 (offset + 1)) (u16 (offset + 3)) (u16 count));;
   update (copy_at (u16 (offset + 3)) payload);;
   mret (u16 (offset + u16 (3 + blen payload))) : M bytes codec_error Z) (a ++ x ++ b)
  = (a ++ (tag :: le_split 2 (u16 count) ++ payload) ++ b, Ok (offset + (3 + blen payload))).
Proof.
  intros Ha Hx Hle. pose proof (blen_nonneg a). destruct x as [|y x]; [done|].
  unfold mbind, M_bind, update. rewrite <- app_comm_cons, set_byte_app by done.
  unfold blen in Hle. injection Hx as Hx. cbn [length] in Hle.
  destruct (split_length x 2 (length payload)) as (x1 & x2 & -> & H1 & H2); [lia|].
  unfold blen in *. rewrite length_app in Hle.
  rewrite (u16_small (3 + _)), !(u16_small (offset + _)) by lia.
  rewrite <- (app_assoc x1), put_slice_app; [|unfold blen; rewrite length_app; cbn; lia|lia|done].
  rewrite copy_at_app; [|unfold blen; rewrite !length_app, length_le_split; cbn; lia|done].
  by rewrite <- !app_assoc.
Qed.

Lemma writeValue_spec i offset val jsonCols e (a x b : bytes) :
  encodeColumnValue val = Ok e → (∀ m, val = VMap m → jsonCols !! i = Marshal m) →
  blen a = offset → length x = length e → blen a + blen x ≤ 65535 →
  writeValue i offset val jsonCols (a ++ x ++ b) = (a ++ e ++ b, Ok (offset + blen e)).
Proof.
  intros He Hj Ha Hx Hle. pose proof (blen_nonneg a).
  destruct val as [|z|f|bb|s|v|m|]; cbn [encodeColumnValue] in He; try discriminate.
  - apply Ok_inj in He as <-. destruct x as [|y [|]]; [done| |done].
    unfold writeValue, mbind, M_bind, update. rewrite <- app_comm_cons, set_byte_app by done.
    cbn in Hle. unfold mret, M_ret. rewrite u16_small by (unfold blen in *; cbn in *; lia).
    by rewrite <- app_assoc.
  - apply Ok_inj in He as <-. cbn in Hx. rewrite length_le_split in Hx. unfold writeValue.
    rewrite write_tagged8; [|done..|unfold blen in *; lia]. do 3 f_equal.
  - apply Ok_inj in He as <-. cbn in Hx. rewrite length_le_split in Hx. unfold writeValue.
    rewrite write_tagged8; [|done..|unfold blen in *; lia]. do 3 f_equal.
  - apply Ok_inj in He as <-. destruct x as [|y [|y2 [|]]]; try done.
    unfold writeValue, mbind, M_bind, update. rewrite <- app_comm_cons, set_byte_app by done.
    unfold blen in *. cbn in Hle. rewrite !u16_small by lia.
    rewrite <- app_comm_cons, set_byte_app by (unfold blen; rewrite length_app; cbn; lia).
    by rewrite <- !app_assoc.
  - destruct (65535 <? blen s); [done|]. apply Ok_inj in He as <-. unfold writeValue.
    cbn [length] in Hx. rewrite length_app, length_le_split in Hx.
    rewrite write_counted; [|done|lia|done]. do 3 f_equal. unfold blen. cbn [length].
    rewrite length_app, length_le_split. lia.
  - apply Ok_inj in He as <-. cbn [length] in Hx. rewrite length_app, length_le_split, length_concat_le in Hx.
    destruct x as [|y x]; [done|]. injection Hx as Hx. unfold blen in Hle. cbn [length] in Hle.
    unfold writeValue, mbind, M_bind, update. rewrite <- app_comm_cons, set_byte_app by done.
    destruct (split_length x 2 (8 * length v)) as (x1 & x2 & -> & H1 & H2); [lia|].
    unfold blen in *. rewrite length_app in Hle.
    rewrite (u16_small (3 + _)), !(u16_small (offset + _)) by lia.
    rewrite <- (app_assoc x1), put_slice_app; [|unfold blen; rewrite length_app; cbn; lia|lia|done].
    rewrite writeVector_spec; [|lia..| |done|].
    + unfold mret, M_ret. cbn [length]. rewrite length_app, length_le_split, length_concat_le.
      rewrite <- !app_assoc. do 2 f_equal. lia.
    + unfold blen. rewrite !length_app, length_le_split. cbn. lia.
    + unfold blen. rewrite !length_app, length_le_split. cbn. lia.
  - unfold writeValue. rewrite (Hj m) by done. destruct (Marshal m) as [js|]; [|done].
    destruct (65535 <? blen js); [done|]. apply Ok_inj in He as <-. cbn [from_option id].
    cbn [length] in Hx. rewrite length_app, length_le_split in Hx.
    rewrite write_counted; [|done|lia|done]. do 3 f_equal. unfold blen. cbn [length].
    rewrite length_app, length_le_split. lia.
Qed.

(** Phase 1 fails with the first column that has no encoding, and otherwise
    adds up the sizes of the encodings. *)
Definition measured (i : nat) (row : Row) (t : Z) (jc : gmap nat bytes) : Prop :=
  match encodeCols row with
  | Ok encs => ∃ jc', measure i row t jc = Ok (t + blen (concat encs), jc') ∧
                      jsonColsOk i row jc' ∧ ∀ k, (k < i)%nat → jc' !! k = jc !! k
  | Err e => measure i row t jc = Err e
  | Panic => False
  end.

Lemma jsonColsOk_cons i v row jc :
  jsonColsOk (S i) row jc → (∀ m, v = VMap m → jc !! i = Marshal m) → jsonColsOk i (v :: row) jc.
Proof.
  intros Hr Hv [|k] m Hk; cbn in Hk; simplify_eq.
  - rewrite Nat.add_0_r. by apply Hv.
  - specialize (Hr k m Hk). by replace (i + S k)%nat with (S i + k)%nat by lia.
Qed.

(** One more column, whose encoding has [n] bytes. *)
Lemma measured_cons i v row t jc jc1 e n :
  encodeColumnValue v = Ok e → blen e = n →
  measure i (v :: row) t jc = measure (S i) row (t + n) jc1 →
  (∀ m, v = VMap m → jc1 !! i = Marshal m) → (∀ k, (k < i)%nat → jc1 !! k = jc !! k) →
  measured (S i) row (t + n) jc1 → measured i (v :: row) t jc.
Proof.
  intros He Hn Em Hm Hk. unfold measured. rewrite Em. cbn [encodeCols]. rewrite He.
  cbn [mbind outcome_bind]. destruct (encodeCols row) as [es|err|]; cbn [mbind outcome_bind]; [|done..].
  intros (jc' & E & Hok & Hk'). exists jc'. split_and!.
  - rewrite E. cbn [concat]. by rewrite blen_app, Hn, Z.add_assoc.
  - apply jsonColsOk_cons; [done|]. intros m Ev. rewrite Hk' by lia. by apply Hm.
  - intros k Hki. rewrite Hk' by lia. by apply Hk.
Qed.

Lemma blen_counted tag w (s : bytes) : blen (tag :: le_split 2 w ++ s) = 3 + blen s.
Proof. unfold blen. cbn [length]. rewrite length_app, length_le_split. lia. Qed.

Lemma measure_spec row i t jc : measured i row t jc.
Proof.
  revert i t jc. induction row as [|v row IH]; intros i t jc.
  { exists jc. cbn. rewrite Z.add_0_r. split_and!; [done| |done]. intros k m Hk. done. }
  destruct v as [|z|f|bb|s|v|m|].
  - by apply (measured_cons i _ row t jc jc [binNullMarker] 1).
  - by apply (measured_cons i _ row t jc jc (tagInt :: le_split 8 (u64 z)) 9).
  - by apply (measured_cons i _ row t jc jc (tagFloat :: le_split 8 f) 9).
  - by apply (measured_cons i _ row t jc jc [tagBool; if bb then binTrue else binFalse] 2).
  - destruct (65535 <? blen s) eqn:El.
    { unfold measured. cbn [encodeCols encodeColumnValue measure]. by rewrite El. }
    apply (measured_cons i _ row t jc jc (tagString :: le_split 2 (u16 (blen s)) ++ s) (3 + blen s));
      [|apply blen_counted| |done|done|apply IH].
    + cbn [encodeColumnValue]. by rewrite El.
    + cbn [measure]. by rewrite El.
  - apply (measured_cons i _ row t jc jc
      (tagVector :: le_split 2 (u16 (Z.of_nat (length v))) ++ concat (map (le_split 8) v))
      (3 + Z.of_nat (length v) * 8)); [done| |done..|apply IH].
    rewrite blen_counted. unfold blen. rewrite length_concat_le. lia.
  - destruct (Marshal m) as [js|] eqn:EM.
    2: { unfold measured. cbn [encodeCols encodeColumnValue measure]. by rewrite EM. }
    destruct (65535 <? blen js) eqn:El.
    { unfold measured. cbn [encodeCols encodeColumnValue measure]. by rewrite EM, El. }
    apply (measured_cons i _ row t jc (<[i := js]> jc)
      (tagJSON :: le_split 2 (u16 (blen js)) ++ js) (3 + blen js));
      [|apply blen_counted| | | |apply IH].
    + cbn [encodeColumnValue]. by rewrite EM, El.
    + cbn [measure]. by rewrite EM, El.
    + intros m' [= <-]. by rewrite lookup_insert_eq.
    + intros k Hk. by rewrite lookup_insert_ne by lia.
  - done.
Qed.

Lemma length_offsets start encs : length (offsets start encs) = length encs.
Proof. revert start. induction encs as [|e es IH]; intros; cbn; [done|by rewrite IH]. Qed.

Lemma length_concat_le2 l : length (concat (map (le_split 2) l)) = (2 * length l)%nat.
Proof. induction l as [|x l IH]; [done|]. cbn [map concat length]. rewrite length_app, IH, length_le_split. lia. Qed.

Lemma encodeCols_length row encs : encodeCols row = Ok encs → length encs = length row.
Proof.
  revert encs. induction row as [|v row IH]; intros encs; cbn; [by intros [= <-]|].
  destruct (encodeColumnValue v); [|done..]. destruct (encodeCols row); [|done..].
  intros [= <-]. cbn. f_equal. by apply IH.
Qed.

(** Phase 2 on a buffer cut into: offsets done, offsets to do, values done,
    values to do. *)
Lemma writeCols_spec row encs i offset jc (T O V X : bytes) :
  encodeCols row = Ok encs → jsonColsOk i row jc →
  blen T = 18 + 2 * Z.of_nat i → length O = (2 * length row)%nat →
  blen T + blen O + blen V = offset → length X = length (concat encs) →
  offset + blen X ≤ 65535 →
  writeCols i offset row jc (T ++ O ++ V ++ X) =
    (T ++ concat (map (le_split 2) (offsets offset encs)) ++ V ++ concat encs, Ok tt).
Proof.
  revert encs i offset T O V X. induction row as [|v row IH];
    intros encs i offset T O V X He Hj HT HO Hoff HX Hle.
  { injection He as <-. destruct O; [|done]. destruct X; [|done]. done. }
  cbn in He. destruct (encodeColumnValue v) as [e| |] eqn:Ev; [|done..].
  destruct (encodeCols row) as [es| |] eqn:Er; [|done..]. apply Ok_inj in He as <-.
  cbn [concat] in HX. rewrite length_app in HX. cbn [length] in HO.
  destruct (split_length O 2 (2 * length row)) as (O1 & O2 & -> & HO1 & HO2); [lia|].
  destruct (split_length X (length e) (length (concat es))) as (X1 & X2 & -> & HX1 & HX2); [lia|].
  cbn [writeCols]. unfold mbind, M_bind, update. unfold blen in *.
  rewrite <- (app_assoc O1), put_slice_app;
    [|unfold blen, binTupleHeaderSize, binColCountSize, binColOffsetSize; lia|done|done].
  rewrite !length_app in *.
  replace ((T ++ le_split 2 offset) ++ O2 ++ V ++ X1 ++ X2)
    with ((T ++ le_split 2 offset ++ O2 ++ V) ++ X1 ++ X2) by (by rewrite <- !app_assoc).
  rewrite (writeValue_spec i offset v jc e); [|done| |unfold blen; rewrite !length_app, length_le_split; lia
    |done|unfold blen; rewrite !length_app, length_le_split; lia].
  2: { intros m ->. specialize (Hj 0%nat m eq_refl). by rewrite Nat.add_0_r in Hj. }
  replace ((T ++ le_split 2 offset ++ O2 ++ V) ++ e ++ X2)
    with ((T ++ le_split 2 offset) ++ O2 ++ (V ++ e) ++ X2) by (by rewrite <- !app_assoc).
  rewrite (IH es); [|done| |rewrite length_app, length_le_split; lia|done
    |rewrite !length_app, length_le_split; unfold blen; lia|done|unfold blen; lia].
  - cbn [offsets map concat]. by rewrite <- !app_assoc.
  - intros k m Hk. specialize (Hj (S k) m Hk). by replace (S i + k)%nat with (i + S k)%nat by lia.
Qed.

Lemma length_poolGet pooled size : length (poolGet pooled size) = Z.to_nat size.
Proof.
  unfold poolGet, blen. destruct (Z.ltb_spec (Z.of_nat (length pooled)) size).
  - apply length_replicate.
  - rewrite length_take. lia.
Qed.

Lemma EncodeRow_eq pooled c d row : EncodeRow pooled c d row = encodeReference c d row.
Proof.
  destruct row as [|v row]; [done|]. unfold EncodeRow, encodeReference. set (r := v :: row).
  unfold binTupleHeaderSize, binColCountSize, binColOffsetSize.
  replace (16 + 2 + Z.of_nat (length r) * 2) with (headerBytes (length r)) by (unfold headerBytes; lia).
  pose proof (measure_spec r 0 (headerBytes (length r)) ∅) as Hm. unfold measured in Hm.
  destruct (encodeCols r) as [encs|e|] eqn:Ec; [|by rewrite Hm|done].
  destruct Hm as (jc & -> & Hj & _). cbn [mbind outcome_bind].
  pose proof (encodeCols_length _ _ Ec) as Hl. pose proof (blen_nonneg (concat encs)) as Hb0.
  destruct (Z.ltb_spec 65535 (headerBytes (length r) + blen (concat encs))) as [|Hle]; [done|].
  set (buf := poolGet _ _). assert (length buf = Z.to_nat (headerBytes (length r) + blen (concat encs)))
    as Hbuf by apply length_poolGet. clearbody buf. unfold headerBytes, blen in *.
  destruct (split_length buf 8 (10 + 2 * length r + length (concat encs))) as (x1 & y1 & -> & H1 & Hy); [lia|].
  destruct (split_length y1 8 (2 + 2 * length r + length (concat encs))) as (x2 & y2 & -> & H2 & Hy2); [lia|].
  destruct (split_length y2 2 (2 * length r + length (concat encs))) as (x3 & y3 & -> & H3 & Hy3); [lia|].
  destruct (split_length y3 (2 * length r) (length (concat encs))) as (O & X & -> & HO & HX); [lia|].
  unfold mbind, M_bind, update.
  rewrite (put_slice_head 8 8) by done.
  rewrite (put_slice_app 8 8 16) by (unfold blen; rewrite ?length_le_split; done).
  rewrite (put_slice_app 2 16 18) by (unfold blen; rewrite ?length_app, ?length_le_split; done).
  rewrite (u16_small (Z.of_nat _)), (u16_small (18 + _)) by lia.
  rewrite (writeCols_spec r encs 0 _ jc _ O [] X); [|done|done|..].
  - unfold layout, headerBytes. rewrite Hl, <- !app_assoc. cbn [app]. done.
  - unfold blen. rewrite !length_app, !length_le_split. lia.
  - done.
  - unfold blen. rewrite !length_app, !length_le_split. cbn [length]. lia.
  - done.
  - unfold blen. lia.
Qed.

(** ** [DecodeRow] inverts the reference *)

(** The values Go's types allow; an object must survive [encoding/json]. *)
Definition valueFits (v : Value) : Prop :=
  match v with
  | VInt z => - 2 ^ 63 ≤ z < 2 ^ 63
  | VFloat f => 0 ≤ f < 2 ^ 64
  | VVector l => Forall (λ f, 0 ≤ f < 2 ^ 64) l
  | VMap m => ∀ b, Marshal m = Some b → DecodeJSON ParseFloat decodeRaw b = Some (JObj m)
  | _ => True
  end.

Lemma le_at_tag n tag w (r : bytes) :
  0 ≤ w < 2 ^ (Z.of_nat n * 8) → le_at n 1 (tag :: le_split n w ++ r) = w.
Proof. by apply (le_at_app n 1 w [tag]). Qed.

Lemma le_at_tag_end n tag w :
  0 ≤ w < 2 ^ (Z.of_nat n * 8) → le_at n 1 (tag :: le_split n w) = w.
Proof. rewrite <- (app_nil_r (le_split n w)). apply le_at_tag. Qed.

Lemma bslice_counted tag w (s : bytes) : bslice 3 (length s) (tag :: le_split 2 w ++ s) = s.
Proof.
  unfold bslice. change (drop 3 (tag :: le_split 2 w ++ s)) with s. by rewrite take_ge.
Qed.

Lemma readVector_spec v i (pre : bytes) :
  length pre = (3 + i * 8)%nat → Forall (λ f, 0 ≤ f < 2 ^ 64) v →
  readVector (length v) i (pre ++ concat (map (le_split 8) v)) = v.
Proof.
  intros Hp Hv. revert i pre Hp. induction Hv as [|f v Hf Hv IH]; intros i pre Hp; [done|].
  cbn [length readVector map concat]. rewrite le_at_app by done. f_equal.
  rewrite app_assoc. apply IH. rewrite length_app, length_le_split. lia.
Qed.

Lemma decode_encode v e :
  encodeColumnValue v = Ok e → valueFits v → blen e ≤ 65535 → decodeColumnValue e = Ok v.
Proof.
  intros He Hv Hle. destruct v as [|z|f|bb|s|v|m|]; cbn [encodeColumnValue] in He; try discriminate.
  - apply Ok_inj in He as <-. done.
  - apply Ok_inj in He as <-. cbn [decodeColumnValue]. tags. cbn in Hv.
    rewrite le_at_tag_end by apply u64_range. by rewrite s64_u64.
  - apply Ok_inj in He as <-. cbn [decodeColumnValue]. tags. by rewrite le_at_tag_end.
  - apply Ok_inj in He as <-. cbn [decodeColumnValue]. tags. by destruct bb.
  - destruct (Z.ltb_spec 65535 (blen s)); [done|]. apply Ok_inj in He as <-.
    pose proof (blen_nonneg s). cbn [decodeColumnValue]. tags.
    rewrite blen_counted, u16_small, le_at_tag by (change (2 ^ (Z.of_nat 2 * 8)) with 65536; lia). zbool.
    unfold blen. by rewrite Nat2Z.id, bslice_counted.
  - apply Ok_inj in He as <-. cbn in Hv. rewrite blen_counted in Hle. unfold blen in Hle.
    rewrite length_concat_le in Hle. cbn [decodeColumnValue]. tags.
    rewrite blen_counted, u16_small, le_at_tag by (change (2 ^ (Z.of_nat 2 * 8)) with 65536; lia).
    unfold blen. rewrite length_concat_le. zbool. rewrite Nat2Z.id. do 2 f_equal.
    by apply (readVector_spec v 0 (tagVector :: le_split 2 (Z.of_nat (length v)))).
  - destruct (Marshal m) as [js|] eqn:EM; [|done].
    destruct (Z.ltb_spec 65535 (blen js)); [done|]. apply Ok_inj in He as <-.
    pose proof (blen_nonneg js). cbn [decodeColumnValue]. tags.
    rewrite blen_counted, u16_small, le_at_tag by (change (2 ^ (Z.of_nat 2 * 8)) with 65536; lia). zbool.
    unfold blen. rewrite Nat2Z.id, bslice_counted. by rewrite (Hv _ EM).
Qed.

Lemma offsets_lookup start encs j :
  (j < length encs)%nat → offsets start encs !! j = Some (start + blen (concat (take j encs))).
Proof.
  revert start j. induction encs as [|e es IH]; intros start [|j] Hj; cbn in *; try lia.
  - by rewrite Z.add_0_r.
  - rewrite IH by lia. f_equal. rewrite blen_app. lia.
Qed.

Lemma get_table H l R j x :
  l !! j = Some x → 0 ≤ x < 2 ^ 16 →
  get_le 2 (blen H + 2 * Z.of_nat j) (H ++ concat (map (le_split 2) l) ++ R) = Some x.
Proof.
  intros Hx Hr. pose proof (lookup_lt_Some _ _ _ Hx) as Hlt.
  rewrite <- (take_drop_middle l j x Hx), map_app, concat_app. cbn [map concat].
  rewrite <- !app_assoc, app_assoc.
  assert (length (H ++ concat (map (le_split 2) (take j l))) = Z.to_nat (blen H + 2 * Z.of_nat j)) as Hl.
  { unfold blen. rewrite length_app, length_concat_le2, length_take. lia. }
  unfold get_le. pose proof (blen_nonneg H).
  rewrite (proj2 (Z.leb_le 0 _)) by lia. rewrite (proj2 (Z.leb_le (_ + _) _)).
  - cbn [andb]. f_equal. by apply le_at_app.
  - unfold blen. rewrite !length_app, length_le_split, length_concat_le2, length_take. lia.
Qed.

Lemma slice_mid (a e b : bytes) lo hi :
  blen a = lo → hi = lo + blen e → slice lo hi (a ++ e ++ b) = Some e.
Proof.
  intros Ha ->. unfold slice. rewrite !blen_app. pose proof (blen_nonneg a).
  pose proof (blen_nonneg e). pose proof (blen_nonneg b). zbool. cbn [andb]. f_equal.
  unfold bslice. unfold blen in *. rewrite drop_app_length' by lia. rewrite take_app_length' by lia. done.
Qed.

Section Layout.
Context (c d : Z) (encs : list bytes).
Let n := length encs.
Let tuple := layout c d encs.
Hypothesis fits : headerBytes n + blen (concat encs) ≤ 65535.

Lemma layout_split :
  ∃ H : bytes, blen H = 18 ∧
    tuple = H ++ concat (map (le_split 2) (offsets (headerBytes n) encs)) ++ concat encs.
Proof.
  exists (le_split 8 c ++ le_split 8 d ++ le_split 2 (Z.of_nat n)). split.
  - unfold blen. by rewrite !length_app, !length_le_split.
  - unfold tuple, layout. by rewrite <- !app_assoc.
Qed.

Lemma blen_layout : blen tuple = headerBytes n + blen (concat encs).
Proof.
  destruct layout_split as (H & HH & ->). rewrite !blen_app, HH. unfold blen at 1, headerBytes.
  rewrite length_concat_le2, length_offsets. fold n. lia.
Qed.

Lemma concat_take_le j : blen (concat (take j encs)) ≤ blen (concat encs).
Proof. rewrite <- (take_drop j encs) at 2. rewrite concat_app, blen_app. pose proof (blen_nonneg (concat (drop j encs))). lia. Qed.

Lemma layout_offset j :
  (j < n)%nat →
  get_le 2 (18 + 2 * Z.of_nat j) tuple = Some (headerBytes n + blen (concat (take j encs))).
Proof.
  intros Hj. destruct layout_split as (H & HH & ->). rewrite <- HH. apply get_table.
  - by apply offsets_lookup.
  - pose proof (concat_take_le j). pose proof (blen_nonneg (concat (take j encs))).
    unfold headerBytes in *. lia.
Qed.

Lemma layout_column j e spare :
  encs !! j = Some e →
  slice (headerBytes n + blen (concat (take j encs)))
        (headerBytes n + blen (concat (take (S j) encs))) (tuple ++ spare) = Some e.
Proof.
  intros He. destruct layout_split as (H & HH & ->).
  rewrite <- (take_drop_middle encs j e He) at 4. rewrite concat_app. cbn [concat].
  rewrite <- !app_assoc. rewrite (app_assoc H), (app_assoc (H ++ _)). apply slice_mid.
  - rewrite !blen_app, HH. unfold blen at 1, headerBytes. rewrite length_concat_le2, length_offsets.
    fold n. lia.
  - rewrite (take_S_r _ _ _ He), concat_app, blen_app. cbn. rewrite app_nil_r. lia.
Qed.

Lemma readCols_layout spare rest done row :
  encs = done ++ rest → Forall2 (λ e v, decodeColumnValue e = Ok v) rest row →
  readCols (length rest) (Z.of_nat (length done)) (Z.of_nat n) spare tuple = Ok row.
Proof.
  intros Hd Hf. revert done Hd. induction Hf as [|e v rest row He Hf IH]; intros dn Hd; [done|].
  cbn [length readCols]. unfold binTupleHeaderSize, binColCountSize, binColOffsetSize.
  assert (n = (length dn + S (length rest))%nat) as Hn by (unfold n; rewrite Hd, length_app; done).
  assert (Z.of_nat n ≤ 32758) by (unfold headerBytes in fits; pose proof (blen_nonneg (concat encs)); lia).
  replace (16 + 2 + Z.of_nat (length dn) * 2) with (18 + 2 * Z.of_nat (length dn)) by lia.
  rewrite layout_offset by lia. cbn [must mbind outcome_bind].
  rewrite u16_small by lia.
  assert ((if Z.of_nat (length dn) + 1 <? Z.of_nat n
    then must (get_le 2 (16 + 2 + (Z.of_nat (length dn) + 1) * 2) tuple)
    else Ok (u16 (blen tuple)) : res Z)
    = Ok (headerBytes n + blen (concat (take (S (length dn)) encs)))) as ->.
  { destruct (Z.ltb_spec (Z.of_nat (length dn) + 1) (Z.of_nat n)).
    - replace (16 + 2 + (Z.of_nat (length dn) + 1) * 2) with (18 + 2 * Z.of_nat (S (length dn))) by lia.
      by rewrite layout_offset by lia.
    - rewrite blen_layout, u16_small, take_ge; [done|fold n; lia|].
      pose proof (blen_nonneg (concat encs)). unfold headerBytes in *. lia. }
  cbn [must mbind outcome_bind].
  assert (encs !! length dn = Some e) as Hl by (rewrite Hd; by apply list_lookup_middle).
  rewrite (layout_column _ e) by done. cbn [must mbind outcome_bind]. rewrite He.
  cbn [mbind outcome_bind].
  replace (Z.of_nat (length dn) + 1) with (Z.of_nat (length (dn ++ [e]))) by (rewrite length_app; cbn; lia).
  rewrite IH; [done|]. by rewrite Hd, <- app_assoc.
Qed.

Lemma DecodeRow_layout spare row :
  0 ≤ c < 2 ^ 64 → 0 ≤ d < 2 ^ 64 → Forall2 (λ e v, decodeColumnValue e = Ok v) encs row →
  DecodeRow spare tuple = Ok (c, d, row).
Proof.
  intros Hc Hd Hf. unfold DecodeRow. pose proof (blen_nonneg (concat encs)).
  assert (Z.of_nat n < 2 ^ 16) by (unfold headerBytes in fits; lia).
  assert (le_at 8 0 tuple = c ∧ le_at 8 8 tuple = d ∧ le_at 2 16 tuple = Z.of_nat n)
    as (-> & -> & ->).
  { unfold tuple, layout. split_and!.
    - by apply (le_at_app 8 0 c []).
    - apply le_at_app; [by rewrite length_le_split|done].
    - rewrite app_assoc. apply le_at_app; [by rewrite length_app, !length_le_split|]. cbn. lia. }
  rewrite blen_layout. unfold headerBytes, binTupleHeaderSize, binColCountSize, binColOffsetSize in *.
  zbool. rewrite Nat2Z.id. 
  by rewrite (readCols_layout spare encs [] row eq_refl Hf : readCols n 0 _ _ _ = Ok row).
Qed.
End Layout.

Lemma encodeCols_decode row encs :
  encodeCols row = Ok encs → Forall valueFits row → blen (concat encs) ≤ 65535 →
  Forall2 (λ e v, decodeColumnValue e = Ok v) encs row.
Proof.
  intros He Hf. revert encs He. induction Hf as [|v row Hv Hf IH]; intros encs He Hle; cbn in He.
  { injection He as <-. constructor. }
  destruct (encodeColumnValue v) as [e| |] eqn:Ev; [|done..].
  destruct (encodeCols row) as [es| |]; [|done..]. apply Ok_inj in He as <-.
  cbn in Hle. rewrite blen_app in Hle. pose proof (blen_nonneg e). pose proof (blen_nonneg (concat es)).
  constructor; [apply decode_encode; [done..|lia]|apply IH; [done|lia]].
Qed.
End Codec.

(** ** Transaction word lemmas *)

Lemma testFlag_bit k w (r : bytes) :
  0 ≤ k → 0 ≤ w < 2 ^ 64 →
  testFlag (Z.shiftl 1 k) (le_split 8 w ++ r) = Ok (Z.testbit w k).
Proof.
  intros Hk Hw. unfold testFlag, get_le. rewrite (proj2 (Z.leb_le (0 + _) _)).
  2: { rewrite blen_app. pose proof (blen_nonneg r). unfold blen. rewrite length_le_split. lia. }
  cbn [Z.leb Z.compare andb must mbind outcome_bind]. change (Z.to_nat 0) with 0%nat.
  rewrite (le_at_head 8 w) by done. f_equal. rewrite Z.shiftl_1_l.
  destruct (Z.testbit w k) eqn:E.
  - apply negb_true_iff, Z.eqb_neq. intros H. apply (f_equal (λ z, Z.testbit z k)) in H.
    rewrite Z.land_spec, Z.pow2_bits_true, E, Z.bits_0 in H by lia. done.
  - apply negb_false_iff, Z.eqb_eq, Z.bits_inj'. intros i Hi.
    rewrite Z.land_spec, Z.bits_0, Z.pow2_bits_eqb by lia.
    destruct (Z.eqb_spec k i) as [<-|]; [by rewrite E|apply andb_false_r].
Qed.

Lemma setWord_spec f w (r : bytes) :
  0 ≤ w < 2 ^ 64 → setWord f (le_split 8 w ++ r) = (le_split 8 (f w) ++ r, Ok tt).
Proof.
  intros Hw. unfold setWord, mbind, M_bind, get_le. rewrite (proj2 (Z.leb_le (0 + _) _)).
  2: { rewrite blen_app. pose proof (blen_nonneg r). unfold blen. rewrite length_le_split. lia. }
  cbn [Z.leb Z.compare andb must]. change (Z.to_nat 0) with 0%nat.
  rewrite (le_at_head 8 w) by done. unfold update.
  by rewrite (put_slice_head 8 8) by (rewrite ?length_le_split; done).
Qed.

(** The word [SetHOTUpdated] stores, bit by bit. *)
Definition hotWord (w slot : Z) : Z :=
  Z.lor (Z.ldiff (Z.lor w hotUpdatedFlag) (u64 (Z.shiftl hotForwardMask hotForwardShift)))
        (u64 (Z.shiftl (Z.land slot hotForwardMask) hotForwardShift)).

Lemma testbit_forward a k :
  0 ≤ k → Z.testbit (u64 (Z.shiftl (Z.land a hotForwardMask) hotForwardShift)) k =
  (50 <=? k) && (k <? 64) && Z.testbit a (k - 50).
Proof.
  intros Hk. unfold u64, hotForwardMask, hotForwardShift. change 0x3FFF with (Z.ones 14).
  destruct (Z.ltb_spec k 64).
  - rewrite Z.mod_pow2_bits_low, Z.shiftl_spec, Z.land_spec by lia.
    destruct (Z.leb_spec 50 k); cbn [andb].
    + rewrite Z.ones_spec_low by lia. apply andb_true_r.
    + by rewrite !Z.testbit_neg_r by lia.
  - rewrite Z.mod_pow2_bits_high by lia. by rewrite andb_false_r.
Qed.

Lemma hotWord_bits w slot k :
  0 ≤ w < 2 ^ 64 → 0 ≤ k →
  Z.testbit (hotWord w slot) k =
  if k <? 50 then Z.testbit w k || (48 =? k) else (k <? 64) && Z.testbit slot (k - 50).
Proof.
  intros Hw Hk. unfold hotWord. rewrite Z.lor_spec, Z.ldiff_spec, testbit_forward by done.
  replace (Z.shiftl hotForwardMask hotForwardShift)
    with (Z.shiftl (Z.land (-1) hotForwardMask) hotForwardShift) by done.
  rewrite testbit_forward, Z.lor_spec by done.
  unfold hotUpdatedFlag. rewrite Z.shiftl_1_l, Z.pow2_bits_eqb by lia.
  destruct (Z.ltb_spec k 50).
  - rewrite (proj2 (Z.leb_gt 50 k)) by lia. cbn. by rewrite andb_true_r, orb_false_r.
  - assert (Z.testbit (-1) (k - 50) = true) as -> by (apply Z.bits_m1; lia).
    rewrite (proj2 (Z.leb_le 50 k)) by lia. cbn [andb].
    destruct (Z.ltb_spec k 64); cbn [andb negb].
    + by rewrite andb_false_r.
    + rewrite (testbit_small w 64) by lia. rewrite (proj2 (Z.eqb_neq 48 k)) by lia. done.
Qed.

Lemma hotWord_range w slot : 0 ≤ w < 2 ^ 64 → 0 ≤ hotWord w slot < 2 ^ 64.
Proof.
  intros Hw. assert (0 ≤ hotWord w slot) as H0.
  { unfold hotWord. apply Z.lor_nonneg. split; [|apply u64_range].
    apply Z.ldiff_nonneg. left. apply Z.lor_nonneg. split; [lia|done]. }
  split; [done|]. destruct (decide (hotWord w slot = 0)) as [->|]; [done|].
  apply Z.log2_lt_pow2; [lia|]. destruct (Z.lt_ge_cases (Z.log2 (hotWord w slot)) 64) as [|Hge]; [done|].
  pose proof (Z.bit_log2 (hotWord w slot) ltac:(lia)) as Hb. rewrite hotWord_bits in Hb by lia.
  rewrite (proj2 (Z.ltb_ge _ 50)), (proj2 (Z.ltb_ge _ 64)) in Hb by lia. done.
Qed.

(** ** Properties *)

(** C3: [EncodeRow], which sizes the tuple and then fills a pooled buffer in
    place with 16-bit offsets, returns exactly the concatenation of header,
    offset table and the one-column encodings of [encodeColumnValue], or the
    error of the first column that has none, whatever an earlier user left in
    the buffer. *)
Theorem EncodeRow_reference Marshal (pooled : bytes) (createdTx deletedTx : Z) (row : Row) :
  EncodeRow Marshal pooled createdTx deletedTx row =
  encodeReference Marshal createdTx deletedTx row.
Proof. apply EncodeRow_eq. Qed.


(** A row of every type but objects, with its pooled buffer dirty. *)
Definition sampleRow : Row :=
  [VInt (-5); VNil; VString [Byte.x61; Byte.x62]; VBool true; VFloat 4607182418800017408;
   VVector [1; 2]].


(** Linking a heap-only update stores the forward slot (14 bits) and sets the
    flag, and leaves the transaction id, the heap-only mark and the rest of the
    tuple as they were. *)
Theorem SetHOTUpdated_links (w slot : Z) (r : bytes) :
  0 ≤ w < 2 ^ 64 → 0 ≤ slot < 2 ^ 14 →
  ∃ w', SetHOTUpdated slot (le_split 8 w ++ r) = (le_split 8 w' ++ r, Ok tt) ∧
    IsHOTUpdated (le_split 8 w' ++ r) = Ok true ∧
    GetForwardSlot (le_split 8 w' ++ r) = Ok slot ∧
    IsHOTHeapTuple (le_split 8 w' ++ r) = IsHOTHeapTuple (le_split 8 w ++ r) ∧
    Z.land w' TxIDMask = Z.land w TxIDMask.
Proof.
  intros Hw Hs. pose proof (hotWord_range w slot Hw) as Hr. exists (hotWord w slot). split_and!.
  - unfold SetHOTUpdated. by rewrite setWord_spec.
  - unfold IsHOTUpdated, hotUpdatedFlag. rewrite testFlag_bit, hotWord_bits by lia.
    cbn. by rewrite orb_true_r.
  - unfold GetForwardSlot, get_le. rewrite (proj2 (Z.leb_le (0 + _) _)).
    2: { rewrite blen_app. pose proof (blen_nonneg r). unfold blen. rewrite length_le_split. lia. }
    cbn [Z.leb Z.compare andb must mbind outcome_bind]. change (Z.to_nat 0) with 0%nat.
    rewrite (le_at_head 8) by done. f_equal.
    replace (Z.land _ _) with slot; [apply u16_small; lia|]. symmetry.
    apply Z.bits_inj'. intros k Hk. unfold hotForwardShift, hotForwardMask.
    change 0x3FFF with (Z.ones 14). rewrite Z.land_spec, Z.shiftr_spec, hotWord_bits by lia.
    rewrite (proj2 (Z.ltb_ge (k + 50) 50)) by lia. replace (k + 50 - 50) with k by lia.
    destruct (decide (k < 14)).
    + rewrite Z.ones_spec_low, andb_true_r, (proj2 (Z.ltb_lt (k + 50) 64)) by lia. done.
    + rewrite Z.ones_spec_high, andb_false_r by lia. symmetry. apply (testbit_small _ 14); lia.
  - unfold IsHOTHeapTuple, hotHeapTupleFlag. rewrite !testFlag_bit, hotWord_bits by lia.
    cbn. by rewrite orb_false_r.
  - apply Z.bits_inj'. intros k Hk. change TxIDMask with (Z.ones 48). rewrite !Z.land_spec.
    destruct (decide (k < 48)).
    + rewrite hotWord_bits by lia. rewrite (proj2 (Z.ltb_lt k 50)), (proj2 (Z.eqb_neq 48 k)) by lia.
      by rewrite orb_false_r.
    + by rewrite Z.ones_spec_high, !andb_false_r by lia.
Qed.

Lemma SetHOTUpdated_links_witness :
  ∃ w', SetHOTUpdated 77 (le_split 8 1234 ++ []) = (le_split 8 w' ++ [], Ok tt) ∧
        GetForwardSlot (le_split 8 w' ++ []) = Ok 77.
Proof.
  destruct (SetHOTUpdated_links 1234 77 []) as (w' & E & _ & G & _); [lia|lia|].
  exists w'. split; [exact E|exact G].
Defined.

(** The commit hints (bits 62 and 63) lie inside the 14-bit forward slot
    (bits 50 to 63): recording that the inserter committed redirects the
    heap-only link from slot 5 to slot 4101, and recording a link erases the
    hint. *)
Example hint_bits_overlap_forward_slot :
  let linked := fst (SetHOTUpdated 5 (le_split 8 1234)) in
  GetForwardSlot linked = Ok 5 ∧
  GetForwardSlot (fst (SetXMinCommitted linked)) = Ok 4101 ∧
  IsXMinCommitted (fst (SetHOTUpdated 5 (fst (SetXMinCommitted (le_split 8 1234))))) = Ok false.
Proof. vm_compute. repeat split. Qed.
