(* ===== verification/Crypto.v ===== *)
(** * Encryption managers

    [server/internal/core/crypto/manager.go] and [tde.go].  AES-GCM is the
    interface [AEAD]: what [crypto/cipher] promises, with the key as an
    argument.  The manager keeps one key per version; the TDE engine derives
    its nonce from a number. *)

From S2P Require Import Prelude Bytes.

(** [cipher.AEAD] as AES-GCM implements it: 12-byte nonces, a 16-byte tag, and
    decryption with the same key, nonce and additional data inverts it. *)
Class AEAD : Type := {
  Seal : list byte → list byte → list byte → list byte → list byte;
  Open : list byte → list byte → list byte → list byte → option (list byte);
  Open_Seal : ∀ key nonce plaintext ad,
    length nonce = 12%nat → Open key nonce (Seal key nonce plaintext ad) ad = Some plaintext;
  Seal_length : ∀ key nonce plaintext ad,
    length (Seal key nonce plaintext ad) = (length plaintext + 16)%nat }.

(** An instance (no secrecy): the tag is the constant zero block. *)
#[refine] Definition plainAEAD : AEAD := {|
  Seal _ _ plaintext _ := plaintext ++ replicate 16 Byte.x00;
  Open _ _ ciphertext _ := Some (take (length ciphertext - 16) ciphertext) |}.
Proof.
  - intros. rewrite length_app, length_replicate, Nat.add_sub, take_app_length. reflexivity.
  - intros. by rewrite length_app, length_replicate.
Defined.

Inductive crypto_error : Type :=
| ErrKeyLength
| ErrManagerClosed
| ErrRandom
| ErrUnknownVersion
| ErrDecryptionFailed.

(** [aeads] maps a version to the key its AEAD was made with; [None] is a nil
    map. *)
Record EncryptionManager : Type := mkEM {
  activeDEK : list byte; activeVer : Z; oldDEKs : option (gmap Z (list byte));
  aeads : option (gmap Z (list byte)); keyID : string; closed : bool }.

(** Reading a nil map finds nothing, writing one panics. *)
Definition mapGet {A} (m : option (gmap Z A)) (k : Z) : option A := m ≫= λ m, m !! k.
Definition mapSet {A} (k : Z) (v : A) (m : option (gmap Z A)) : option (option (gmap Z A)) :=
  match m with Some m => Some (Some (<[k := v]> m)) | None => None end.

Section Crypto.
Context `{AEAD}.

Definition NewEncryptionManager (dek : bytes) (id : string) : outcome crypto_error EncryptionManager :=
  if negb (blen dek =? 32) then Err ErrKeyLength else
  Ok (mkEM dek 1 (Some ∅) (Some {[1 := dek]}) id false).

Definition ForKeyVersion (em : EncryptionManager) (version : Z) : option EncryptionManager :=
  if closed em then None
  else if version =? activeVer em then Some em
  else match mapGet (aeads em) version with
       | Some key => Some (mkEM (default [] (mapGet (oldDEKs em) version)) version None
                             (Some {[version := key]}) EmptyString false)
       | None => None
       end.

(** [rnd] is what [rand.Reader] delivers for the nonce. *)
Definition EncryptPage (em : EncryptionManager) (rnd : option bytes) (plaintext pageID : bytes)
    : outcome crypto_error (bytes * bytes) :=
  if closed em then Err ErrManagerClosed else
  match rnd with
  | None => Err ErrRandom
  | Some nonce =>
      key ← must (mapGet (aeads em) (activeVer em));
      Ok (nonce, Seal key nonce plaintext pageID)
  end.

Definition DecryptPage (em : EncryptionManager) (nonce ciphertext pageID : bytes) (version : Z)
    : outcome crypto_error bytes :=
  if closed em then Err ErrManagerClosed else
  match mapGet (aeads em) version with
  | None => Err ErrUnknownVersion
  | Some key =>
      match Open key nonce ciphertext pageID with
      | Some plaintext => Ok plaintext
      | None => Err ErrDecryptionFailed
      end
  end.

Definition KeyVersion (em : EncryptionManager) : Z := activeVer em.

Definition RotateDEK (newDEK : bytes) : M EncryptionManager crypto_error unit := λ em,
  if negb (blen newDEK =? 32) then (em, Err ErrKeyLength) else
  let newVer := u32 (activeVer em + 1) in
  match mapSet (activeVer em) (activeDEK em) (oldDEKs em) with
  | None => (em, Panic)
  | Some old =>
      match mapSet newVer newDEK (aeads em) with
      | None => (mkEM (activeDEK em) (activeVer em) old (aeads em) (keyID em) (closed em), Panic)
      | Some as' => (mkEM newDEK newVer old as' (keyID em) (closed em), Ok tt)
      end
  end.

Definition zeroizeSlice (b : bytes) : bytes := replicate (length b) Byte.x00.

(** The old keys are overwritten before the map is dropped. *)
Definition Zeroize (em : EncryptionManager) : EncryptionManager :=
  mkEM (zeroizeSlice (activeDEK em)) (activeVer em) None None (keyID em) true.

(** ** Transparent data encryption *)

Record TDEEngine : Type := mkTDE { tde_key : list byte }.

Definition NewTDEEngine (key : bytes) : outcome crypto_error TDEEngine :=
  if negb (blen key =? 32) then Err ErrKeyLength else Ok (mkTDE key).

(** The number in the first 8 bytes of a 12-byte nonce. *)
Definition tdeNonce (n : Z) : bytes := le_split 8 n ++ replicate 4 Byte.x00.

Definition tdeEncryptPage (e : TDEEngine) (data : bytes) (pageID : Z) : outcome crypto_error bytes :=
  Ok (Seal (tde_key e) (tdeNonce pageID) data []).

Definition tdeDecryptPage (e : TDEEngine) (data : bytes) (pageID : Z) : outcome crypto_error bytes :=
  match Open (tde_key e) (tdeNonce pageID) data [] with
  | Some plaintext => Ok plaintext
  | None => Err ErrDecryptionFailed
  end.

Definition EncryptWAL (e : TDEEngine) (data : bytes) (lsn : Z) : outcome crypto_error bytes :=
  Ok (Seal (tde_key e) (tdeNonce lsn) data []).

Definition DecryptWAL (e : TDEEngine) (data : bytes) (lsn : Z) : outcome crypto_error bytes :=
  match Open (tde_key e) (tdeNonce lsn) data [] with
  | Some plaintext => Ok plaintext
  | None => Err ErrDecryptionFailed
  end.

(** ** Correctness *)

(** The versions 1 to [activeVer] have their keys, the active one is current. *)
Record emWf (em : EncryptionManager) : Prop := {
  em_open : closed em = false;
  em_old : is_Some (oldDEKs em);
  em_aeads : is_Some (aeads em);
  em_ver : 1 ≤ activeVer em < 2 ^ 32;
  em_active : mapGet (aeads em) (activeVer em) = Some (activeDEK em);
  em_known : ∀ v, is_Some (mapGet (aeads em) v) ↔ 1 ≤ v ≤ activeVer em }.

Lemma NewEncryptionManager_wf dek id em : NewEncryptionManager dek id = Ok em → emWf em.
Proof.
  unfold NewEncryptionManager. destruct (negb _); [done|]. intros [= <-].
  constructor; cbn; [done|by eexists|by eexists|lia|apply lookup_singleton_eq|].
  intros v. unfold mapGet. cbn. rewrite lookup_singleton_is_Some. lia.
Qed.

Lemma RotateDEK_spec em newDEK :
  emWf em → blen newDEK = 32 → activeVer em + 1 < 2 ^ 32 →
  ∃ em', RotateDEK newDEK em = (em', Ok tt) ∧ emWf em' ∧ activeVer em' = activeVer em + 1 ∧
    ∀ v key, mapGet (aeads em) v = Some key → mapGet (aeads em') v = Some key.
Proof.
  intros [Hc [o Ho] [a Ha] Hv Hact Hk] Hl Hlt. unfold RotateDEK. rewrite Hl. cbn [negb].
  rewrite u32_small by lia. rewrite Ho. cbn [mapSet]. rewrite Ha in *. cbn [mapSet].
  eexists. split; [done|]. unfold mapGet in *. cbn in *. split_and!; [|done|].
  - constructor; cbn; [done|by eexists|by eexists|lia|apply lookup_insert_eq|].
    intros v. rewrite lookup_insert_is_Some', Hk. lia.
  - intros v key Hvk. rewrite lookup_insert_ne; [done|]. intros <-.
    assert (is_Some (a !! (activeVer em + 1))) as Hs by (by eexists). apply Hk in Hs. lia.
Qed.

(** A sequence of rotations. *)
Fixpoint rotations (keys : list (list byte)) (em : EncryptionManager) : EncryptionManager :=
  match keys with
  | [] => em
  | k :: keys => rotations keys (fst (RotateDEK k em))
  end.

Lemma rotations_spec keys em :
  emWf em → Forall (λ k, blen k = 32) keys → activeVer em + Z.of_nat (length keys) < 2 ^ 32 →
  emWf (rotations keys em) ∧
  ∀ v key, mapGet (aeads em) v = Some key → mapGet (aeads (rotations keys em)) v = Some key.
Proof.
  intros Hwf Hk. revert em Hwf. induction Hk as [|k keys Hl Hk IH]; intros em Hwf Hlt; [done|].
  cbn in Hlt. destruct (RotateDEK_spec em k) as (em' & E & Hwf' & Hv & Hkeep); [done|done|lia|].
  cbn. rewrite E. cbn. destruct (IH em') as [Hw Hkeep2]; [done|lia|]. split; [done|]. auto.
Qed.

Lemma tdeNonce_length n : length (tdeNonce n) = 12%nat.
Proof. unfold tdeNonce. by rewrite length_app, length_le_split, length_replicate. Qed.

Lemma DecryptWAL_EncryptWAL e data lsn ct :
  EncryptWAL e data lsn = Ok ct → DecryptWAL e ct lsn = Ok data.
Proof.
  intros E. apply Ok_inj in E as <-. unfold DecryptWAL. by rewrite Open_Seal by apply tdeNonce_length.
Qed.

Lemma DecryptPage_EncryptPage em em' rnd pt aad nonce ct :
  EncryptPage em rnd pt aad = Ok (nonce, ct) → length nonce = 12%nat → closed em' = false →
  (∀ key, mapGet (aeads em) (activeVer em) = Some key → mapGet (aeads em') (activeVer em) = Some key) →
  DecryptPage em' nonce ct aad (activeVer em) = Ok pt.
Proof.
  unfold EncryptPage, DecryptPage. destruct (closed em); [done|]. destruct rnd as [n|]; [|done].
  destruct (mapGet (aeads em) (activeVer em)) as [key|]; cbn; [|done].
  intros [= <- <-] Hn -> Hk. rewrite (Hk key eq_refl). by rewrite Open_Seal.
Qed.
End Crypto.

(** ** Properties *)

(** C38: Data encrypted before any number of key rotations still decrypts with
    the key version recorded at the time. *)
Theorem rotation_keeps_data_readable `{AEAD} (em : EncryptionManager) (keys : list (list byte))
    (rnd : option bytes) (plaintext pageID nonce ciphertext : bytes) :
  emWf em → Forall (λ k, blen k = 32) keys →
  activeVer em + Z.of_nat (length keys) < 2 ^ 32 →
  EncryptPage em rnd plaintext pageID = Ok (nonce, ciphertext) → length nonce = 12%nat →
  DecryptPage (rotations keys em) nonce ciphertext pageID (KeyVersion em) = Ok plaintext.
Proof.
  intros Hwf Hk Hlt He Hn. destruct (rotations_spec keys em) as [Hwf' Hkeep]; [done..|].
  eapply DecryptPage_EncryptPage; [done|done|apply em_open; done|]. apply Hkeep.
Qed.

Lemma rotation_keeps_data_readable_witness :
  ∃ em, NewEncryptionManager (replicate 32 Byte.x07) "k" = Ok em ∧
    DecryptPage (H := plainAEAD) (rotations [replicate 32 Byte.x08; replicate 32 Byte.x09] em)
      (replicate 12 Byte.x01) ([Byte.x41] ++ replicate 16 Byte.x00) [] (KeyVersion em) = Ok [Byte.x41].
Proof.
  eexists. split; [reflexivity|].
  apply (rotation_keeps_data_readable (H := plainAEAD) _ _ (Some (replicate 12 Byte.x01)) _ _
    (replicate 12 Byte.x01)).
  - exact (NewEncryptionManager_wf (replicate 32 Byte.x07) "k" _ eq_refl).
  - repeat constructor.
  - cbn. lia.
  - reflexivity.
  - reflexivity.
Defined.

(** [RotateDEK] does not test whether the manager was closed: after
    [Zeroize] it writes to a nil map, which panics. *)
Example RotateDEK_after_Zeroize :
  (em ← NewEncryptionManager (replicate 32 Byte.x07) "k";
   snd (RotateDEK (replicate 32 Byte.x08) (Zeroize em))) = Panic.
Proof. reflexivity. Qed.
