(* ===== verification/WalPayload.v ===== *)
(** * Write-ahead log payloads

    [server/internal/core/wal/wal.go], the binary payload encoding: one typed
    record per operation, strings with a 16-bit length, and the decoder that
    tells binary payloads from the older JSON ones by their first byte. *)

From S2P Require Import Prelude Bytes.

(** ** Operation types *)

Abbreviation OpInsert := Byte.x01.
Abbreviation OpUpdate := Byte.x02.
Abbreviation OpDelete := Byte.x03.
Abbreviation OpCreateDatabase := Byte.x10.
Abbreviation OpDropDatabase := Byte.x11.
Abbreviation OpCreateTable := Byte.x12.
Abbreviation OpDropTable := Byte.x13.
Abbreviation OpVacuum := Byte.x14.
Abbreviation OpAlterTable := Byte.x15.
Abbreviation OpCheckpoint := Byte.xf0.
Abbreviation OpPageInsert := Byte.x20.
Abbreviation OpPageDelete := Byte.x21.
Abbreviation OpPageUpdateXMax := Byte.x22.
Abbreviation OpPageNewPage := Byte.x23.
Abbreviation OpVacuumBegin := Byte.x30.
Abbreviation OpVacuumCommit := Byte.x31.
Abbreviation OpAbort := Byte.x40.
Abbreviation OpCommit := Byte.x50.
Abbreviation OpSchemaWrite := Byte.x60.
Abbreviation OpRewriteBegin := Byte.x61.
Abbreviation OpRewriteData := Byte.x62.
Abbreviation OpRewriteCommit := Byte.x63.
Abbreviation OpTruncateTable := Byte.x64.
Abbreviation OpFullPageImage := Byte.x70.

Definition binaryPayloadMarker : byte := Byte.x01.

(** ** Payload types *)

Record WALPageInsertPayload : Type := mkPageInsert {
  pi_DB : list byte; pi_Table : list byte; pi_SegmentNo : Z; pi_PageNo : Z; pi_SlotNo : Z;
  pi_XID : Z; pi_TupleData : list byte }.

Record WALPageDeletePayload : Type := mkPageDelete {
  pd_DB : list byte; pd_Table : list byte; pd_SegmentNo : Z; pd_PageNo : Z; pd_SlotNo : Z;
  pd_XMax : Z }.

Record WALVacuumPayload : Type := mkVacuum {
  va_DB : list byte; va_Table : list byte; va_ShadowPath : list byte }.

Record WALSchemaWritePayload : Type := mkSchemaWrite {
  sw_DB : list byte; sw_Table : list byte; sw_Schema : list byte }.

Record WALRewritePayload : Type := mkRewrite { rw_DB : list byte; rw_Table : list byte }.

Record WALTruncateTablePayload : Type := mkTruncate { tt_DB : list byte; tt_Table : list byte }.

Record CheckpointPayload : Type := mkCheckpoint { cp_LSN : Z }.

Record CommitPayload : Type := mkCommit { co_Timestamp : Z }.

Record FullPageImagePayload : Type := mkFullPage {
  fp_DB : list byte; fp_Table : list byte; fp_SegmentNo : Z; fp_PageNo : Z;
  fp_PageData : list byte }.

(** The dynamic types of a payload; [POther] any other Go value. *)
Inductive payload {other : Type} : Type :=
| PInsert (p : WALPageInsertPayload)
| PDelete (p : WALPageDeletePayload)
| PSchema (p : WALSchemaWritePayload)
| PVacuum (p : WALVacuumPayload)
| PRewrite (p : WALRewritePayload)
| PTruncate (p : WALTruncateTablePayload)
| PCheckpoint (p : CheckpointPayload)
| PCommit (p : CommitPayload)
| PFullPage (p : FullPageImagePayload)
| POther (v : other).
Arguments payload : clear implicits.

(** The type [json.Unmarshal] is asked to fill. *)
Inductive payloadKind : Type :=
| KInsert | KDelete | KSchema | KVacuum | KRewrite | KTruncate | KCheckpoint | KCommit
| KFullPage | KAny.

Inductive payload_error : Type :=
| ErrJSON
| ErrUnknownOp.

(** ** Encoding: writes to a [bytes.Buffer] append *)

Definition writeUint (n : nat) (v : Z) (buf : bytes) : bytes := buf ++ le_split n v.
Definition writeBytes (s buf : bytes) : bytes := buf ++ s.

Definition writeLPString (s buf : bytes) : bytes :=
  writeBytes s (writeUint 2 (u16 (blen s)) buf).

Definition encodePageInsertBinary (p : WALPageInsertPayload) : bytes :=
  let buf := [binaryPayloadMarker] in
  let buf := writeLPString (pi_DB p) buf in
  let buf := writeLPString (pi_Table p) buf in
  let buf := writeUint 2 (pi_SegmentNo p) buf in
  let buf := writeUint 4 (pi_PageNo p) buf in
  let buf := writeUint 2 (pi_SlotNo p) buf in
  let buf := writeUint 8 (pi_XID p) buf in
  let buf := writeUint 4 (u32 (blen (pi_TupleData p))) buf in
  writeBytes (pi_TupleData p) buf.

Definition encodePageDeleteBinary (p : WALPageDeletePayload) : bytes :=
  let buf := [binaryPayloadMarker] in
  let buf := writeLPString (pd_DB p) buf in
  let buf := writeLPString (pd_Table p) buf in
  let buf := writeUint 2 (pd_SegmentNo p) buf in
  let buf := writeUint 4 (pd_PageNo p) buf in
  let buf := writeUint 2 (pd_SlotNo p) buf in
  writeUint 8 (pd_XMax p) buf.

Definition encodeSchemaWriteBinary (p : WALSchemaWritePayload) : bytes :=
  let buf := [binaryPayloadMarker] in
  let buf := writeLPString (sw_DB p) buf in
  let buf := writeLPString (sw_Table p) buf in
  writeLPString (sw_Schema p) buf.

Definition encodeVacuumBinary (p : WALVacuumPayload) : bytes :=
  let buf := [binaryPayloadMarker] in
  let buf := writeLPString (va_DB p) buf in
  let buf := writeLPString (va_Table p) buf in
  writeLPString (va_ShadowPath p) buf.

Definition encodeRewriteBinary (p : WALRewritePayload) : bytes :=
  let buf := [binaryPayloadMarker] in
  let buf := writeLPString (rw_DB p) buf in
  writeLPString (rw_Table p) buf.

Definition encodeTruncateTableBinary (p : WALTruncateTablePayload) : bytes :=
  let buf := [binaryPayloadMarker] in
  let buf := writeLPString (tt_DB p) buf in
  writeLPString (tt_Table p) buf.

Definition encodeCheckpointBinary (p : CheckpointPayload) : bytes :=
  writeUint 8 (cp_LSN p) [binaryPayloadMarker].

(** An [int64] is written as its two's complement. *)
Definition encodeCommitBinary (p : CommitPayload) : bytes :=
  writeUint 8 (u64 (co_Timestamp p)) [binaryPayloadMarker].

Definition encodeFullPageImageBinary (p : FullPageImagePayload) : bytes :=
  let buf := [binaryPayloadMarker] in
  let buf := writeLPString (fp_DB p) buf in
  let buf := writeLPString (fp_Table p) buf in
  let buf := writeUint 2 (fp_SegmentNo p) buf in
  let buf := writeUint 4 (fp_PageNo p) buf in
  let buf := writeUint 4 (u32 (blen (fp_PageData p))) buf in
  writeBytes (fp_PageData p) buf.

(** ** Decoding: a [bytes.Reader] is what remains of the data *)

Definition reader (A : Type) : Type := bytes → A * bytes.
#[export] Instance reader_ret : MRet reader := λ A a r, (a, r).
#[export] Instance reader_bind : MBind reader := λ A B f m r, let '(a, r) := m r in f a r.

(** [binary.Read] into an integer that was 0: on a short input it consumes what
    is left and the integer stays 0 (the error is ignored). *)
Definition readUint (n : nat) : reader Z := λ r,
  if (length r <? n)%nat then (0, []) else (le_combine (take n r), drop n r).

(** [io.ReadFull] into a fresh slice: a short input fills a prefix. *)
Definition readBytes (n : Z) : reader bytes := λ r,
  let k := Z.to_nat n in
  (take k r ++ replicate (k - length r) Byte.x00, drop k r).

Definition readLPString : reader bytes :=
  l ← readUint 2;
  if l =? 0 then mret [] else readBytes l.

Definition decodePageInsertBinary : reader WALPageInsertPayload :=
  db ← readLPString;
  table ← readLPString;
  seg ← readUint 2;
  page ← readUint 4;
  slot ← readUint 2;
  xid ← readUint 8;
  tupleLen ← readUint 4;
  data ← (if 0 <? tupleLen then readBytes tupleLen else mret []);
  mret (mkPageInsert db table seg page slot xid data).

Definition decodePageDeleteBinary : reader WALPageDeletePayload :=
  db ← readLPString;
  table ← readLPString;
  seg ← readUint 2;
  page ← readUint 4;
  slot ← readUint 2;
  xmax ← readUint 8;
  mret (mkPageDelete db table seg page slot xmax).

Definition decodeSchemaWriteBinary : reader WALSchemaWritePayload :=
  db ← readLPString;
  table ← readLPString;
  schema ← readLPString;
  mret (mkSchemaWrite db table schema).

Definition decodeVacuumBinary : reader WALVacuumPayload :=
  db ← readLPString;
  table ← readLPString;
  shadow ← readLPString;
  mret (mkVacuum db table shadow).

Definition decodeRewriteBinary : reader WALRewritePayload :=
  db ← readLPString;
  table ← readLPString;
  mret (mkRewrite db table).

Definition decodeTruncateTableBinary : reader WALTruncateTablePayload :=
  db ← readLPString;
  table ← readLPString;
  mret (mkTruncate db table).

Definition decodeCheckpointBinary : reader CheckpointPayload :=
  lsn ← readUint 8;
  mret (mkCheckpoint lsn).

Definition decodeCommitBinary : reader CommitPayload :=
  t ← readUint 8;
  mret (mkCommit (s64 t)).

Definition decodeFullPageImageBinary : reader FullPageImagePayload :=
  db ← readLPString;
  table ← readLPString;
  seg ← readUint 2;
  page ← readUint 4;
  pageLen ← readUint 4;
  data ← (if 0 <? pageLen then readBytes pageLen else mret []);
  mret (mkFullPage db table seg page data).

Section Payload.
Context {other : Type}.
(** [json.Marshal] on a value of another type, [json.Unmarshal] into a type. *)
Context (marshal : other → option bytes) (unmarshal : payloadKind → bytes → option (payload other)).

Definition EncodeWALPayloadBinary (p : payload other) : outcome payload_error bytes :=
  match p with
  | PInsert p => Ok (encodePageInsertBinary p)
  | PDelete p => Ok (encodePageDeleteBinary p)
  | PSchema p => Ok (encodeSchemaWriteBinary p)
  | PVacuum p => Ok (encodeVacuumBinary p)
  | PRewrite p => Ok (encodeRewriteBinary p)
  | PTruncate p => Ok (encodeTruncateTableBinary p)
  | PCheckpoint p => Ok (encodeCheckpointBinary p)
  | PCommit p => Ok (encodeCommitBinary p)
  | PFullPage p => Ok (encodeFullPageImageBinary p)
  | POther v => match marshal v with Some b => Ok b | None => Err ErrJSON end
  end.

Definition decodeBinaryPayload (data : bytes) (opType : byte) : outcome payload_error (payload other) :=
  match opType with
  | OpPageInsert => Ok (PInsert (decodePageInsertBinary data).1)
  | OpPageDelete | OpPageUpdateXMax => Ok (PDelete (decodePageDeleteBinary data).1)
  | OpSchemaWrite => Ok (PSchema (decodeSchemaWriteBinary data).1)
  | OpVacuumBegin | OpVacuumCommit => Ok (PVacuum (decodeVacuumBinary data).1)
  | OpRewriteBegin | OpRewriteCommit | OpRewriteData => Ok (PRewrite (decodeRewriteBinary data).1)
  | OpTruncateTable => Ok (PTruncate (decodeTruncateTableBinary data).1)
  | OpCheckpoint => Ok (PCheckpoint (decodeCheckpointBinary data).1)
  | OpCommit => Ok (PCommit (decodeCommitBinary data).1)
  | OpFullPageImage => Ok (PFullPage (decodeFullPageImageBinary data).1)
  | _ => Err ErrUnknownOp
  end.

Definition decodeLegacyJSONPayload (data : bytes) (opType : byte) : outcome payload_error (payload other) :=
  let kind :=
    match opType with
    | OpPageInsert => KInsert
    | OpPageDelete | OpPageUpdateXMax => KDelete
    | OpSchemaWrite => KSchema
    | OpVacuumBegin | OpVacuumCommit => KVacuum
    | OpRewriteBegin | OpRewriteCommit | OpRewriteData => KRewrite
    | OpTruncateTable => KTruncate
    | OpCheckpoint => KCheckpoint
    | OpCommit => KCommit
    | OpFullPageImage => KFullPage
    | _ => KAny
    end in
  match unmarshal kind data with Some p => Ok p | None => Err ErrJSON end.

(** [None] is the nil payload of empty data. *)
Definition DecodeWALPayload (data : bytes) (opType : byte)
    : outcome payload_error (option (payload other)) :=
  match data with
  | [] => Ok None
  | b :: rest =>
      if bool_decide (b = binaryPayloadMarker)
      then p ← decodeBinaryPayload rest opType; Ok (Some p)
      else p ← decodeLegacyJSONPayload data opType; Ok (Some p)
  end.
End Payload.

(** ** Reading back what was written *)

Lemma readUint_app n v r :
  0 ≤ v < 2 ^ (Z.of_nat n * 8) → readUint n (le_split n v ++ r) = (v, r).
Proof.
  intros Hv. unfold readUint. rewrite length_app, length_le_split.
  rewrite (proj2 (Nat.ltb_ge _ _)) by lia.
  rewrite take_app_length', drop_app_length' by (by rewrite length_le_split).
  rewrite le_combine_split, Z.mod_small by done. done.
Qed.

Lemma readBytes_app d r : readBytes (blen d) (d ++ r) = (d, r).
Proof.
  unfold readBytes, blen. rewrite Nat2Z.id, take_app_length, drop_app_length, length_app.
  replace (length d - (length d + length r))%nat with 0%nat by lia. cbn. by rewrite app_nil_r.
Qed.

Lemma readLPString_app s r :
  blen s < 2 ^ 16 → readLPString (le_split 2 (u16 (blen s)) ++ s ++ r) = (s, r).
Proof.
  intros Hs. pose proof (blen_nonneg s). unfold readLPString, mbind, reader_bind.
  rewrite u16_small, readUint_app by (change (2 ^ (Z.of_nat 2 * 8)) with 65536; lia).
  destruct (Z.eqb_spec (blen s) 0) as [E|E].
  - destruct s; [done|]. unfold blen in E. cbn in E. lia.
  - apply readBytes_app.
Qed.

(** A counted field whose reader skips the empty case. *)
Lemma readCounted d r :
  (if 0 <? blen d then readBytes (blen d) else mret []) (d ++ r) = (d, r).
Proof.
  destruct (Z.ltb_spec 0 (blen d)); [apply readBytes_app|].
  destruct d; [done|]. unfold blen in *. cbn in *. lia.
Qed.

Lemma readUint_end n v : 0 ≤ v < 2 ^ (Z.of_nat n * 8) → readUint n (le_split n v) = (v, []).
Proof. rewrite <- (app_nil_r (le_split n v)). apply readUint_app. Qed.

Lemma readLPString_end s : blen s < 2 ^ 16 → readLPString (le_split 2 (u16 (blen s)) ++ s) = (s, []).
Proof. rewrite <- (app_nil_r s) at 3. apply readLPString_app. Qed.

Lemma readCounted_end d : (if 0 <? blen d then readBytes (blen d) else mret []) d = (d, []).
Proof. rewrite <- (app_nil_r d) at 3. apply readCounted. Qed.

(** Runs a decoder on the image of its payload, field by field. *)
Ltac in_range :=
  first [assumption | split; assumption | apply u64_range | split; [apply blen_nonneg|assumption]].

Ltac decode_fields :=
  unfold mbind, reader_bind, mret, reader_ret;
  rewrite ?u32_small by in_range;
  repeat first
    [ rewrite readLPString_app by in_range | rewrite readLPString_end by in_range
    | rewrite readUint_app by in_range | rewrite readUint_end by in_range ];
  rewrite ?readCounted_end.

(** The ranges of the fields' Go types, and strings the length prefix can hold. *)
Definition payloadFits {other} (p : payload other) : Prop :=
  match p with
  | PInsert p => blen (pi_DB p) < 2 ^ 16 ∧ blen (pi_Table p) < 2 ^ 16 ∧
      0 ≤ pi_SegmentNo p < 2 ^ 16 ∧ 0 ≤ pi_PageNo p < 2 ^ 32 ∧ 0 ≤ pi_SlotNo p < 2 ^ 16 ∧
      0 ≤ pi_XID p < 2 ^ 64 ∧ blen (pi_TupleData p) < 2 ^ 32
  | PDelete p => blen (pd_DB p) < 2 ^ 16 ∧ blen (pd_Table p) < 2 ^ 16 ∧
      0 ≤ pd_SegmentNo p < 2 ^ 16 ∧ 0 ≤ pd_PageNo p < 2 ^ 32 ∧ 0 ≤ pd_SlotNo p < 2 ^ 16 ∧
      0 ≤ pd_XMax p < 2 ^ 64
  | PSchema p => blen (sw_DB p) < 2 ^ 16 ∧ blen (sw_Table p) < 2 ^ 16 ∧ blen (sw_Schema p) < 2 ^ 16
  | PVacuum p => blen (va_DB p) < 2 ^ 16 ∧ blen (va_Table p) < 2 ^ 16 ∧ blen (va_ShadowPath p) < 2 ^ 16
  | PRewrite p => blen (rw_DB p) < 2 ^ 16 ∧ blen (rw_Table p) < 2 ^ 16
  | PTruncate p => blen (tt_DB p) < 2 ^ 16 ∧ blen (tt_Table p) < 2 ^ 16
  | PCheckpoint p => 0 ≤ cp_LSN p < 2 ^ 64
  | PCommit p => - 2 ^ 63 ≤ co_Timestamp p < 2 ^ 63
  | PFullPage p => blen (fp_DB p) < 2 ^ 16 ∧ blen (fp_Table p) < 2 ^ 16 ∧
      0 ≤ fp_SegmentNo p < 2 ^ 16 ∧ 0 ≤ fp_PageNo p < 2 ^ 32 ∧ blen (fp_PageData p) < 2 ^ 32
  | POther _ => False
  end.

(** The operation types a payload is logged under. *)
Definition opMatches {other} (op : byte) (p : payload other) : Prop :=
  match p with
  | PInsert _ => op = OpPageInsert
  | PDelete _ => op = OpPageDelete ∨ op = OpPageUpdateXMax
  | PSchema _ => op = OpSchemaWrite
  | PVacuum _ => op = OpVacuumBegin ∨ op = OpVacuumCommit
  | PRewrite _ => op = OpRewriteBegin ∨ op = OpRewriteCommit ∨ op = OpRewriteData
  | PTruncate _ => op = OpTruncateTable
  | PCheckpoint _ => op = OpCheckpoint
  | PCommit _ => op = OpCommit
  | PFullPage _ => op = OpFullPageImage
  | POther _ => False
  end.

(** What a binary payload decodes to, under any of its operation types. *)
Lemma decode_encode_payload {other} (unmarshal : payloadKind → bytes → option (payload other)) marshal p op data :
  payloadFits p → opMatches op p → EncodeWALPayloadBinary marshal p = Ok data →
  DecodeWALPayload unmarshal data op = Ok (Some p).
Proof.
  intros Hf Ho He. destruct p as [p|p|p|p|p|p|p|p|p|v]; cbn [payloadFits opMatches] in *; [..|done].
  all: apply Ok_inj in He as <-; destruct p; cbn in Hf; destruct_and?; destruct_or? Ho; subst op.
  all: unfold DecodeWALPayload, encodePageInsertBinary, encodePageDeleteBinary,
    encodeSchemaWriteBinary, encodeVacuumBinary, encodeRewriteBinary, encodeTruncateTableBinary,
    encodeCheckpointBinary, encodeCommitBinary, encodeFullPageImageBinary.
  all: unfold writeLPString, writeBytes, writeUint; rewrite <- ?app_assoc; cbn [app].
  all: rewrite bool_decide_true by reflexivity.
  all: cbn [decodeBinaryPayload pi_DB pi_Table pi_SegmentNo pi_PageNo pi_SlotNo pi_XID pi_TupleData
    pd_DB pd_Table pd_SegmentNo pd_PageNo pd_SlotNo pd_XMax va_DB va_Table va_ShadowPath
    sw_DB sw_Table sw_Schema rw_DB rw_Table tt_DB tt_Table cp_LSN co_Timestamp
    fp_DB fp_Table fp_SegmentNo fp_PageNo fp_PageData mbind outcome_bind].
  all: unfold decodePageInsertBinary, decodePageDeleteBinary, decodeSchemaWriteBinary,
    decodeVacuumBinary, decodeRewriteBinary, decodeTruncateTableBinary, decodeCheckpointBinary,
    decodeCommitBinary, decodeFullPageImageBinary.
  all: decode_fields; cbn [fst]; rewrite ?s64_u64 by in_range; reflexivity.
Qed.

(** ** Properties *)

(** Every binary payload decodes to itself under each operation type it is
    logged with, as long as its strings fit their 16-bit length prefix. *)
Theorem WALPayload_roundtrip {other : Type} (marshal : other → option bytes)
    (unmarshal : payloadKind → bytes → option (payload other)) (p : payload other)
    (op : byte) (data : bytes) :
  payloadFits p → opMatches op p → EncodeWALPayloadBinary marshal p = Ok data →
  DecodeWALPayload unmarshal data op = Ok (Some p).
Proof. apply decode_encode_payload. Qed.

Definition samplePayload : payload unit :=
  PInsert (mkPageInsert [Byte.x64; Byte.x62] [Byte.x74] 1 70000 3 42 [Byte.x00; Byte.xff]).

Lemma WALPayload_roundtrip_witness :
  ∃ data, EncodeWALPayloadBinary (λ _, None) samplePayload = Ok data ∧
    DecodeWALPayload (λ _ _, None) data OpPageInsert = Ok (Some samplePayload).
Proof.
  eexists. split; [reflexivity|].
  apply (WALPayload_roundtrip (λ _ : unit, None)); [vm_compute; repeat split; discriminate|reflexivity..].
Defined.

(** The length prefix of a string is its length modulo 65536: a schema of
    65536 bytes is logged with length 0 and recovered as the empty schema. *)
Example long_schema_lost :
  let schema := replicate (Z.to_nat 65536) Byte.x61 in
  DecodeWALPayload (other := unit) (λ _ _, None)
    (encodeSchemaWriteBinary (mkSchemaWrite [Byte.x64] [Byte.x74] schema)) OpSchemaWrite
  = Ok (Some (PSchema (mkSchemaWrite [Byte.x64] [Byte.x74] []))).
Proof. vm_compute. reflexivity. Qed.
