(* ===== verification/WalRecord.v ===== *)
(** * Write-ahead log records

    [buildRecord] of [server/internal/core/wal/wal.go] and [readEntryFrom] of
    [recovery.go]: magic, transaction id, operation, encryption fields, payload
    and CRC.  Reading is on a stream, represented by its remaining bytes. *)

From S2P Require Import Prelude Bytes Crypto.

Definition recordMagic : bytes := map byte.of_Z [86; 68; 66; 49].  (* "VDB1" *)
Definition maxPayloadSize : Z := Z.shiftl 32 20.

Record Entry : Type := mkEntry {
  e_TxID : Z; e_OpType : byte; e_Payload : list byte; e_Encrypted : bool }.

Inductive wal_error : Type :=
| ErrEOF
| ErrUnexpectedEOF
| ErrCorruptWALMagic
| ErrPayloadTooLarge
| ErrChecksumMismatch
| ErrEncryptPayload
| ErrDecryptPayload
| ErrWALClosed
| ErrNoDecryptor
| ErrWrite
| ErrSync
| ErrPoisoned
| ErrCallback.

Section Record.
Context `{AEAD}.

(** ** Writing *)

(** The payload field and the header fields that depend on encryption. *)
Definition encryptPayload (txID : Z) (payload : bytes) (enc : option EncryptionManager)
    (tde : option TDEEngine) (rnd : option bytes) : outcome wal_error (bytes * Z * bytes * byte) :=
  let zeroNonce := replicate 12 Byte.x00 in
  match enc, tde with
  | Some em, _ =>
      let aad := le_split 8 txID in
      match EncryptPage em rnd payload aad with
      | Ok (n, ciphertext) => Ok (splice 0 n zeroNonce, KeyVersion em, ciphertext, Byte.x01)
      | Err _ => Err ErrEncryptPayload
      | Panic => Panic
      end
  | None, Some e =>
      match EncryptWAL e payload txID with
      | Ok ciphertext => Ok (zeroNonce, 0, ciphertext, Byte.x02)
      | Err _ => Err ErrEncryptPayload
      | Panic => Panic
      end
  | None, None => Ok (zeroNonce, 0, payload, Byte.x00)
  end.

Definition buildRecord (txID : Z) (opType : byte) (payload : bytes)
    (enc : option EncryptionManager) (tde : option TDEEngine) (rnd : option bytes)
    : outcome wal_error bytes :=
  if maxPayloadSize <? blen payload then Err ErrPayloadTooLarge else
  '(nonce, keyVersion, payload, mode) ← encryptPayload txID payload enc tde rnd;
  let record := recordMagic ++ le_split 8 txID ++ [opType] ++ [mode] ++ le_split 4 keyVersion
                ++ nonce ++ le_split 4 (u32 (blen payload)) ++ payload in
  Ok (record ++ le_split 4 (crc32 record)).

(** ** Reading *)

(** [io.ReadFull] of [n] bytes: a short stream is consumed. *)
Definition readFull (n : nat) : M bytes wal_error bytes := λ r,
  if (n <=? length r)%nat then (drop n r, Ok (take n r))
  else ([], Err (if bool_decide (r = []) then ErrEOF else ErrUnexpectedEOF)).

(** A short read of payload or CRC is reported as an unexpected end. *)
Definition readRest (n : nat) : M bytes wal_error bytes := λ r,
  match readFull n r with
  | (r', Err _) => (r', Err ErrUnexpectedEOF)
  | x => x
  end.

Definition decryptEntry (enc : option EncryptionManager) (tde : option TDEEngine)
    (mode : byte) (txID keyVersion : Z) (nonce payload : bytes) : outcome wal_error (bytes * bool) :=
  if bool_decide (mode = Byte.x01) then
    match enc with
    | Some em =>
        match DecryptPage em nonce payload (le_split 8 txID) keyVersion with
        | Ok plaintext => Ok (plaintext, false)
        | Err _ => Err ErrDecryptPayload
        | Panic => Panic
        end
    | None => Ok (payload, true)
    end
  else if bool_decide (mode = Byte.x02) then
    match tde with
    | Some e =>
        match DecryptWAL e payload txID with
        | Ok plaintext => Ok (plaintext, false)
        | Err _ => Err ErrDecryptPayload
        | Panic => Panic
        end
    | None => Ok (payload, true)
    end
  else Ok (payload, false).

Definition readEntryFrom (enc : option EncryptionManager) (tde : option TDEEngine)
    : M bytes wal_error (Entry * Z) :=
  hdr ← readFull 34;
  if negb (bool_decide (take 4 hdr = recordMagic)) then throw ErrCorruptWALMagic else
  let txID := le_at 8 4 hdr in
  let opType := nth 12 hdr Byte.x00 in
  let mode := nth 13 hdr Byte.x00 in
  let keyVersion := le_at 4 14 hdr in
  let nonce := bslice 18 12 hdr in
  let payloadLen := le_at 4 30 hdr in
  if maxPayloadSize <? payloadLen then throw ErrPayloadTooLarge else
  payload ← readRest (Z.to_nat payloadLen);
  crc ← readRest 4;
  let storedCRC := le_combine crc in
  let calculated := crc_update (crc32 hdr) payload in
  if negb (storedCRC =? calculated) then throw ErrChecksumMismatch else
  r ← lift (decryptEntry enc tde mode txID keyVersion nonce payload);
  let '(payload, stillEncrypted) := r in
  mret (mkEntry txID opType payload stillEncrypted, 34 + payloadLen + 4).

(** ** Layout of a record *)

Definition header (txID : Z) (opType mode : byte) (keyVersion : Z) (nonce : bytes) (len : Z) : bytes :=
  recordMagic ++ le_split 8 txID ++ [opType] ++ [mode] ++ le_split 4 keyVersion ++ nonce ++ le_split 4 len.

Lemma header_length txID op mode kv nonce len :
  length nonce = 12%nat → length (header txID op mode kv nonce len) = 34%nat.
Proof. intros Hn. unfold header. rewrite !length_app, !length_le_split, Hn. done. Qed.

Lemma header_fields txID op mode kv nonce len :
  0 ≤ txID < 2 ^ 64 → 0 ≤ kv < 2 ^ 32 → 0 ≤ len < 2 ^ 32 → length nonce = 12%nat →
  let h := header txID op mode kv nonce len in
  take 4 h = recordMagic ∧ le_at 8 4 h = txID ∧ nth 12 h Byte.x00 = op ∧
  nth 13 h Byte.x00 = mode ∧ le_at 4 14 h = kv ∧ bslice 18 12 h = nonce ∧ le_at 4 30 h = len.
Proof.
  intros Ht Hk Hl Hn h. unfold h, header. split_and!.
  - done.
  - by apply le_at_app.
  - done.
  - done.
  - rewrite 3!app_assoc. by apply le_at_app.
  - rewrite 4!app_assoc. unfold bslice. rewrite drop_app_length' by done.
    by rewrite take_app_length'.
  - rewrite 5!app_assoc. rewrite <- (app_nil_r (le_split 4 len)). apply le_at_app; [|done].
    rewrite !length_app, !length_le_split, Hn. done.
Qed.

Lemma readFull_app n (a b : bytes) : length a = n → readFull n (a ++ b) = (b, Ok a).
Proof.
  intros <-. unfold readFull. rewrite (proj2 (Nat.leb_le _ _)) by (rewrite length_app; lia).
  by rewrite drop_app_length, take_app_length.
Qed.

Lemma readRest_app n (a b : bytes) : length a = n → readRest n (a ++ b) = (b, Ok a).
Proof. intros Ha. unfold readRest. by rewrite readFull_app. Qed.

(** Reading the image of any header and payload that carries a CRC field. *)
Lemma readEntryFrom_image enc tde txID op mode kv nonce (payload crc rest : bytes) :
  0 ≤ txID < 2 ^ 64 → 0 ≤ kv < 2 ^ 32 → length nonce = 12%nat →
  blen payload ≤ maxPayloadSize → length crc = 4%nat →
  let h := header txID op mode kv nonce (blen payload) in
  readEntryFrom enc tde (h ++ payload ++ crc ++ rest) =
    (rest,
     if le_combine crc =? crc32 (h ++ payload) then
       '(p, still) ← decryptEntry enc tde mode txID kv nonce payload;
       Ok (mkEntry txID op p still, 34 + blen payload + 4)
     else Err ErrChecksumMismatch).
Proof.
  intros Ht Hk Hn Hp Hc h. pose proof (blen_nonneg payload).
  change maxPayloadSize with 33554432 in Hp.
  destruct (header_fields txID op mode kv nonce (blen payload)) as (E1 & E2 & E3 & E4 & E5 & E6 & E7);
    [done|done|lia|done|]. fold h in E1, E2, E3, E4, E5, E6, E7.
  unfold readEntryFrom, mbind, M_bind. rewrite readFull_app by (by apply header_length).
  rewrite E1, E2, E3, E4, E5, E6, E7. rewrite bool_decide_true by done. cbn [negb].
  rewrite (proj2 (Z.ltb_ge _ _)) by (change maxPayloadSize with 33554432; lia).
  rewrite readRest_app by (unfold blen; by rewrite Nat2Z.id). rewrite readRest_app by done.
  unfold crc32 at 1. rewrite <- crc_update_app. change (crc_update 0 (h ++ payload)) with (crc32 (h ++ payload)).
  destruct (le_combine crc =? crc32 (h ++ payload)); cbn [negb]; [|done].
  unfold lift. destruct (decryptEntry _ _ _ _ _ _ _) as [[p still]| |]; done.
Qed.

(** What a successful read says about the stream. *)
Lemma readFull_inv n r r' x :
  readFull n r = (r', Ok x) → r = x ++ r' ∧ length x = n.
Proof.
  unfold readFull. destruct (Nat.leb_spec n (length r)); [|done].
  intros [= <- <-]. rewrite take_drop, length_take. split; [done|lia].
Qed.

Lemma readRest_inv n r r' x :
  readRest n r = (r', Ok x) → r = x ++ r' ∧ length x = n.
Proof.
  unfold readRest. destruct (readFull n r) as [r1 [y| |]] eqn:E; try done.
  intros [= <- <-]. by apply readFull_inv.
Qed.

Lemma readEntryFrom_inv enc tde r r' e size :
  readEntryFrom enc tde r = (r', Ok (e, size)) →
  ∃ h payload crc, r = h ++ payload ++ crc ++ r' ∧ length h = 34%nat ∧ length crc = 4%nat ∧
    take 4 h = recordMagic ∧ le_at 4 30 h = blen payload ∧ le_combine crc = crc32 (h ++ payload) ∧
    size = 34 + blen payload + 4 ∧ e_TxID e = le_at 8 4 h ∧ e_OpType e = nth 12 h Byte.x00.
Proof.
  unfold readEntryFrom, mbind, M_bind.
  destruct (readFull 34 r) as [r1 [h| |]] eqn:E1; [|done..]. apply readFull_inv in E1 as [-> Hh].
  destruct (bool_decide_reflect (take 4 h = recordMagic)) as [Hm|]; cbn [negb]; [|done].
  destruct (maxPayloadSize <? le_at 4 30 h); [done|].
  destruct (readRest _ r1) as [r2 [p| |]] eqn:E2; [|done..]. apply readRest_inv in E2 as [-> Hp].
  destruct (readRest 4 r2) as [r3 [c| |]] eqn:E3; [|done..]. apply readRest_inv in E3 as [-> Hc].
  pose proof (le_at_range 4 30 h) as Hr.
  assert (le_at 4 30 h = blen p) as Hlen by (unfold blen; rewrite Hp; lia).
  unfold crc32 at 1. rewrite <- crc_update_app. fold (crc32 (h ++ p)).
  destruct (Z.eqb_spec (le_combine c) (crc32 (h ++ p))) as [Hcrc|]; cbn [negb]; [|done].
  unfold lift. destruct (decryptEntry _ _ _ _ _ _ _) as [[pp still]| |]; [|done..].
  intros [= <- <- <-]. exists h, p, c. rewrite Hlen. by split_and!.
Qed.

Lemma decryptEntry_no_panic enc tde mode txID kv nonce p :
  decryptEntry enc tde mode txID kv nonce p ≠ Panic.
Proof.
  unfold decryptEntry, DecryptPage, DecryptWAL. repeat case_match; congruence.
Qed.

Lemma readFull_no_panic n r : snd (readFull n r) ≠ Panic.
Proof. unfold readFull. by case_match. Qed.

Lemma readRest_no_panic n r : snd (readRest n r) ≠ Panic.
Proof.
  unfold readRest. pose proof (readFull_no_panic n r). destruct (readFull n r) as [? [| |]]; done.
Qed.

(** Reading never panics. *)
Lemma readEntryFrom_no_panic enc tde r : snd (readEntryFrom enc tde r) ≠ Panic.
Proof.
  unfold readEntryFrom, mbind, M_bind, lift.
  pose proof (readFull_no_panic 34 r). destruct (readFull 34 r) as [r1 [h| |]]; [|done..].
  destruct (negb _); [done|]. destruct (_ <? _); [done|].
  pose proof (readRest_no_panic (Z.to_nat (le_at 4 30 h)) r1).
  destruct (readRest _ r1) as [r2 [p| |]]; [|done..].
  pose proof (readRest_no_panic 4 r2). destruct (readRest 4 r2) as [r3 [c| |]]; [|done..].
  destruct (negb _); [done|]. pose proof (decryptEntry_no_panic enc tde (nth 13 h Byte.x00)
    (le_at 8 4 h) (le_at 4 14 h) (bslice 18 12 h) p).
  by destruct (decryptEntry _ _ _ _ _ _ _) as [[? ?]| |].
Qed.

(** The image of a built record. *)
Lemma buildRecord_image txID op payload enc tde rnd record :
  (∀ n, rnd = Some n → length n = 12%nat) →
  buildRecord txID op payload enc tde rnd = Ok record →
  ∃ nonce kv p mode, encryptPayload txID payload enc tde rnd = Ok (nonce, kv, p, mode) ∧
    length nonce = 12%nat ∧
    let h := header txID op mode kv nonce (u32 (blen p)) in
    record = h ++ p ++ le_split 4 (crc32 (h ++ p)).
Proof.
  intros Hrnd. unfold buildRecord. destruct (_ <? _); [done|].
  destruct (encryptPayload txID payload enc tde rnd) as [[[[nonce kv] p] mode]| |] eqn:E; [|done..].
  cbn [mbind outcome_bind]. intros Er. apply Ok_inj in Er as <-. exists nonce, kv, p, mode.
  split_and!; [done| |].
  - unfold encryptPayload in E. destruct enc as [em|]; [|destruct tde as [e|]].
    + destruct (EncryptPage em rnd payload (le_split 8 txID)) as [[n ct]| |]; [|done..].
      apply Ok_inj in E. simplify_eq. by rewrite length_splice, length_replicate.
    + apply Ok_inj in E. simplify_eq. apply length_replicate.
    + apply Ok_inj in E. simplify_eq. apply length_replicate.
  - unfold header. rewrite <- !app_assoc. done.
Qed.
End Record.

(** The reader can decrypt what the writer encrypted: the manager may have
    rotated its key since. *)
Definition canDecrypt (enc : option EncryptionManager) (tde : option TDEEngine)
    (enc' : option EncryptionManager) (tde' : option TDEEngine) : Prop :=
  match enc, tde with
  | Some em, _ => ∃ em', enc' = Some em' ∧ closed em' = false ∧ 0 ≤ activeVer em < 2 ^ 32 ∧
      ∀ key, mapGet (aeads em) (activeVer em) = Some key →
             mapGet (aeads em') (activeVer em) = Some key
  | None, Some e => tde' = Some e
  | None, None => True
  end.

Section RoundTrip.
Context `{AEAD}.

Lemma encryptPayload_decrypt txID payload enc tde rnd nonce kv p mode enc' tde' :
  canDecrypt enc tde enc' tde' → (∀ n, rnd = Some n → length n = 12%nat) →
  encryptPayload txID payload enc tde rnd = Ok (nonce, kv, p, mode) →
  decryptEntry enc' tde' mode txID kv nonce p = Ok (payload, false) ∧
  0 ≤ kv < 2 ^ 32 ∧ blen p ≤ blen payload + 16.
Proof.
  intros Hd Hr. unfold encryptPayload. destruct enc as [em|]; [|destruct tde as [e|]].
  - destruct Hd as (em' & -> & Hc & Hv & Hk).
    destruct (EncryptPage em rnd payload (le_split 8 txID)) as [[n ct]| |] eqn:E; [|done..].
    intros Eq. apply Ok_inj in Eq. simplify_eq. unfold EncryptPage in E.
    destruct (closed em); [done|]. destruct rnd as [n'|]; [|done].
    destruct (mapGet (aeads em) (activeVer em)) as [key|] eqn:Ek; [|done].
    cbn in E. injection E as <- <-. specialize (Hr n' eq_refl).
    assert (splice 0 n' (replicate 12 Byte.x00) = n') as Es.
    { rewrite <- (Nat.add_0_r 12), <- Hr, splice_replicate. apply app_nil_r. }
    split_and!; [|apply Hv..|].
    + unfold decryptEntry, DecryptPage, KeyVersion. rewrite bool_decide_true by done.
      rewrite Hc, (Hk key eq_refl), Es, Open_Seal by done. done.
    + unfold blen. rewrite Seal_length. lia.
  - cbn in Hd. subst tde'. unfold EncryptWAL. intros Eq. apply Ok_inj in Eq. simplify_eq.
    split_and!; [|done..|].
    + unfold decryptEntry, DecryptWAL. rewrite bool_decide_false, bool_decide_true by done.
      by rewrite Open_Seal by apply tdeNonce_length.
    + unfold blen. rewrite Seal_length. lia.
  - intros Eq. apply Ok_inj in Eq. simplify_eq. split_and!; [done..|]. lia.
Qed.

Lemma record_read txID op payload enc tde rnd record enc' tde' (rest : bytes) :
  0 ≤ txID < 2 ^ 64 → blen payload + 16 ≤ maxPayloadSize →
  (∀ n, rnd = Some n → length n = 12%nat) → canDecrypt enc tde enc' tde' →
  buildRecord txID op payload enc tde rnd = Ok record →
  readEntryFrom enc' tde' (record ++ rest) =
    (rest, Ok (mkEntry txID op payload false, blen record)).
Proof.
  intros Ht Hl Hr Hd Hb. apply buildRecord_image in Hb as (nonce & kv & p & mode & He & Hn & ->); [|done].
  destruct (encryptPayload_decrypt _ _ _ _ _ _ _ _ _ _ _ Hd Hr He) as (Hdec & Hkv & Hp).
  change maxPayloadSize with 33554432 in *. pose proof (blen_nonneg p).
  rewrite u32_small by lia. set (h := header _ _ _ _ _ _). rewrite <- !app_assoc.
  unfold h at 1. rewrite readEntryFrom_image; [|done|done|done|change maxPayloadSize with 33554432; lia
    |by rewrite length_le_split]. fold h.
  rewrite le_combine_split, Z.mod_small by (pose proof (crc32_range (h ++ p)); done).
  rewrite Z.eqb_refl, Hdec. cbn [mbind outcome_bind].
  assert (blen (h ++ p ++ le_split 4 (crc32 (h ++ p))) = 34 + blen p + 4) as ->; [|done].
  unfold blen. rewrite !length_app, length_le_split. unfold h. rewrite header_length by done. lia.
Qed.

(** A span whose length field gives its own length is read as a record only if
    its CRC is right. *)
Lemma read_span enc tde (w rest r : bytes) e size :
  readEntryFrom enc tde (w ++ rest) = (r, Ok (e, size)) →
  (34 ≤ length w)%nat → blen w = 34 + le_at 4 30 w + 4 → crc_reg w = crc_residue.
Proof.
  intros E H34 Hw. apply readEntryFrom_inv in E as (h & p & c & Es & Hh & Hc & _ & Hlen & Hcrc & _).
  assert (le_at 4 30 w = blen p) as Hp.
  { rewrite <- Hlen. unfold le_at. rewrite <- (bslice_app_l 30 4 h (p ++ c ++ r)) by lia.
    by rewrite <- Es, bslice_app_l by lia. }
  assert (w ++ rest = (h ++ p ++ c) ++ r) as Es' by (by rewrite <- !app_assoc).
  apply app_inj_1 in Es' as [-> _].
  - rewrite app_assoc. by apply crc_valid.
  - rewrite !length_app, Hh, Hc. unfold blen in *. lia.
Qed.

(** The length field and the CRC register of a built record. *)
Lemma buildRecord_span txID op payload enc tde rnd record enc' tde' :
  blen payload + 16 ≤ maxPayloadSize → (∀ n, rnd = Some n → length n = 12%nat) →
  canDecrypt enc tde enc' tde' → buildRecord txID op payload enc tde rnd = Ok record →
  (34 ≤ length record)%nat ∧ blen record = 34 + le_at 4 30 record + 4 ∧ crc_reg record = crc_residue.
Proof.
  intros Hl Hr Hd Hb. apply buildRecord_image in Hb as (nonce & kv & p & mode & He & Hn & Hrec); [|done].
  destruct (encryptPayload_decrypt _ _ _ _ _ _ _ _ _ _ _ Hd Hr He) as (_ & _ & Hp).
  change maxPayloadSize with 33554432 in *. pose proof (blen_nonneg p).
  cbv zeta in Hrec. rewrite u32_small in Hrec by lia. set (h := header _ _ _ _ _ _) in Hrec.
  assert (length h = 34%nat) as Hh by (by apply header_length).
  assert (le_at 4 30 record = blen p) as Hf.
  { unfold le_at. rewrite Hrec, bslice_app_l by lia. unfold h, header. rewrite 5!app_assoc.
    rewrite bslice_app_r by (rewrite !length_app, !length_le_split, Hn; done).
    rewrite !length_app, !length_le_split, Hn. change (30 - _)%nat with 0%nat.
    rewrite <- (length_le_split 4 (blen p)) at 1. rewrite bslice_full, le_combine_split.
    apply Z.mod_small. lia. }
  split_and!.
  - rewrite Hrec, length_app. lia.
  - rewrite Hf, Hrec. unfold blen. rewrite !length_app, length_le_split, Hh. lia.
  - rewrite Hrec, app_assoc. apply crc_valid; [by rewrite length_le_split|].
    rewrite le_combine_split, Z.mod_small; [done|]. apply crc32_range.
Qed.

Lemma crc_reg_splice o (d w : bytes) :
  (length d ≤ 4)%nat → (o + length d ≤ length w)%nat → splice o d w ≠ w →
  crc_reg (splice o d w) ≠ crc_reg w.
Proof.
  intros H4 Ho Hne E. apply Hne. rewrite splice_in_range in E |- * by done.
  assert (w = take o w ++ take (length d) (drop o w) ++ drop (o + length d) w) as Hw
    by (rewrite <- drop_drop; by rewrite !take_drop).
  replace (crc_reg w) with (crc_reg (take o w ++ take (length d) (drop o w) ++ drop (o + length d) w))
    in E by (by rewrite <- Hw).
  apply crc_reg_burst in E; [|rewrite length_take, length_drop; lia|done].
  rewrite E at 1. by rewrite <- Hw.
Qed.
End RoundTrip.

(** ** Properties *)

(** C35: A record reads back as its entry and leaves the rest of the stream,
    plain, encrypted by a key manager (whose key may have been rotated since)
    or by the TDE engine. *)
Theorem record_roundtrip `{AEAD} (txID : Z) (op : byte) (payload : bytes)
    (enc enc' : option EncryptionManager) (tde tde' : option TDEEngine) (rnd : option bytes)
    (record rest : bytes) :
  0 ≤ txID < 2 ^ 64 → blen payload + 16 ≤ maxPayloadSize →
  (∀ n, rnd = Some n → length n = 12%nat) → canDecrypt enc tde enc' tde' →
  buildRecord txID op payload enc tde rnd = Ok record →
  readEntryFrom enc' tde' (record ++ rest) =
    (rest, Ok (mkEntry txID op payload false, blen record)).
Proof. apply record_read. Qed.

Lemma record_roundtrip_witness :
  ∃ record, buildRecord (H := plainAEAD) 9 Byte.x50 [Byte.x01; Byte.x02] None
      (Some (mkTDE (replicate 32 Byte.x03))) None = Ok record ∧
    readEntryFrom (H := plainAEAD) None (Some (mkTDE (replicate 32 Byte.x03))) (record ++ [Byte.xff])
    = ([Byte.xff], Ok (mkEntry 9 Byte.x50 [Byte.x01; Byte.x02] false, blen record)).
Proof.
  eexists. split; [reflexivity|].
  apply (record_roundtrip (H := plainAEAD) 9 Byte.x50 [Byte.x01; Byte.x02] None None
    (Some (mkTDE (replicate 32 Byte.x03))) (Some (mkTDE (replicate 32 Byte.x03))) None).
  - lia.
  - vm_compute. discriminate.
  - discriminate.
  - reflexivity.
  - reflexivity.
Defined.

(** C28: Damage to a record is detected: a change confined to four consecutive
    bytes anywhere in it, header, payload or CRC and across their borders, makes
    the read fail, provided it does not touch the length field (bytes 30 to 33),
    which says where the record ends. *)
Theorem record_corruption_detected `{AEAD} (txID : Z) (op : byte) (payload : bytes)
    (enc enc' : option EncryptionManager) (tde tde' : option TDEEngine) (rnd : option bytes)
    (record d rest : bytes) (o : nat) :
  blen payload + 16 ≤ maxPayloadSize → (∀ n, rnd = Some n → length n = 12%nat) →
  canDecrypt enc tde enc' tde' →
  buildRecord txID op payload enc tde rnd = Ok record →
  (length d ≤ 4)%nat → (o + length d ≤ length record)%nat →
  (o + length d ≤ 30 ∨ 34 ≤ o)%nat → splice o d record ≠ record →
  ∃ r err, readEntryFrom enc' tde' (splice o d record ++ rest) = (r, Err err).
Proof.
  intros Hl Hr Hd Hb H4 Ho Hw Hne.
  destruct (buildRecord_span _ _ _ _ _ _ _ _ _ Hl Hr Hd Hb) as (H34 & Hlen & Hres).
  destruct (readEntryFrom enc' tde' (splice o d record ++ rest)) as [r [[e size]|err|]] eqn:E.
  - exfalso. apply read_span in E.
    + apply (crc_reg_splice o d record H4 Ho Hne). rewrite E, Hres. reflexivity.
    + by rewrite length_splice.
    + unfold blen in *. rewrite length_splice, le_at_splice_out by lia. exact Hlen.
  - eexists _, _. reflexivity.
  - pose proof (readEntryFrom_no_panic enc' tde' (splice o d record ++ rest)) as Hnp.
    rewrite E in Hnp. exfalso. apply Hnp. reflexivity.
Qed.

Lemma record_corruption_detected_witness :
  ∃ record r err, buildRecord (H := plainAEAD) 9 Byte.x50 [Byte.x01; Byte.x02] None None None = Ok record ∧
    readEntryFrom (H := plainAEAD) None None (splice 4 [Byte.xff] record ++ []) = (r, Err err).
Proof.
  eexists. destruct (record_corruption_detected (H := plainAEAD) 9 Byte.x50 [Byte.x01; Byte.x02]
    None None None None None _ [Byte.xff] [] 4
    ltac:(vm_compute; discriminate) ltac:(discriminate) I eq_refl) as (r & err & E).
  - cbn. lia.
  - vm_compute. lia.
  - cbn. lia.
  - vm_compute. discriminate.
  - exists r, err. split; [reflexivity|exact E].
Defined.

(** The size limit is tested before encryption, which adds 16 bytes: a
    payload within 16 bytes of the limit is logged without an error, and no
    reader accepts the record. *)
Theorem oversized_record_unreadable `{AEAD} (txID : Z) (op : byte) (payload rest : bytes)
    (e : TDEEngine) (enc' : option EncryptionManager) (tde' : option TDEEngine) :
  maxPayloadSize - 16 < blen payload ≤ maxPayloadSize →
  ∃ record r, buildRecord txID op payload None (Some e) None = Ok record ∧
    readEntryFrom enc' tde' (record ++ rest) = (r, Err ErrPayloadTooLarge).
Proof.
  intros Hl. change maxPayloadSize with 33554432 in Hl. unfold buildRecord.
  rewrite (proj2 (Z.ltb_ge _ _)) by (change maxPayloadSize with 33554432; lia).
  unfold encryptPayload, EncryptWAL. cbn [mbind outcome_bind]. eexists _, _. split; [done|].
  set (ct := Seal _ _ _ _). assert (blen ct = blen payload + 16) as Hct
    by (unfold blen, ct; rewrite Seal_length; lia).
  rewrite u32_small by lia. set (n12 := replicate 12 Byte.x00).
  assert (length n12 = 12%nat) as Hn by apply length_replicate.
  set (record := recordMagic ++ _).
  assert (record = header txID op Byte.x02 0 n12 (blen ct) ++ ct) as ->
    by (unfold record, header; by rewrite <- !app_assoc).
  set (h := header _ _ _ _ _ _). rewrite <- !app_assoc.
  unfold readEntryFrom, mbind, M_bind. rewrite readFull_app by (by apply header_length).
  assert (take 4 h = recordMagic) as -> by done. rewrite bool_decide_true by done. cbn [negb].
  assert (le_at 4 30 h = blen ct) as ->.
  { unfold h, header. rewrite 5!app_assoc. rewrite <- (app_nil_r (le_split 4 (blen ct))).
    apply le_at_app; [by rewrite !length_app, !length_le_split, Hn|].
    change (2 ^ (Z.of_nat 4 * 8)) with 4294967296. lia. }
  rewrite (proj2 (Z.ltb_lt _ _)) by (change maxPayloadSize with 33554432; lia). done.
Qed.

Lemma oversized_record_unreadable_witness :
  let payload := replicate (Z.to_nat maxPayloadSize) Byte.x00 in
  let e := mkTDE (replicate 32 Byte.x03) in
  ∃ record r, buildRecord (H := plainAEAD) 1 Byte.x70 payload None (Some e) None = Ok record ∧
    readEntryFrom (H := plainAEAD) None (Some e) (record ++ []) = (r, Err ErrPayloadTooLarge).
Proof.
  intros payload e. apply (oversized_record_unreadable (H := plainAEAD) 1 Byte.x70 payload [] e).
  unfold payload, blen. rewrite length_replicate, Z2Nat.id; [lia|]. vm_compute. discriminate.
Defined.

(** Records of one transaction share their TDE nonce: [buildRecord] passes
    the transaction id where [EncryptWAL] expects a log sequence number, so two
    different payloads are sealed under the same key and nonce. *)
Theorem tde_nonce_shared `{AEAD} (txID : Z) (op1 op2 : byte) (p1 p2 : bytes) (e : TDEEngine) :
  blen p1 ≤ maxPayloadSize → blen p2 ≤ maxPayloadSize →
  ∃ r1 r2, buildRecord txID op1 p1 None (Some e) None = Ok r1 ∧
    buildRecord txID op2 p2 None (Some e) None = Ok r2 ∧
    bslice 34 (length p1 + 16) r1 = Seal (tde_key e) (tdeNonce txID) p1 [] ∧
    bslice 34 (length p2 + 16) r2 = Seal (tde_key e) (tdeNonce txID) p2 [].
Proof.
  assert (∀ op p, blen p ≤ maxPayloadSize → ∃ r, buildRecord txID op p None (Some e) None = Ok r ∧
    bslice 34 (length p + 16) r = Seal (tde_key e) (tdeNonce txID) p []) as Hone.
  { intros op p Hp. unfold buildRecord. rewrite (proj2 (Z.ltb_ge _ _)) by done.
    unfold encryptPayload, EncryptWAL. cbn [mbind outcome_bind]. eexists. split; [done|].
    set (ct := Seal _ _ _ _).
    assert (length ct = (length p + 16)%nat) as <- by apply Seal_length.
    rewrite <- !app_assoc. rewrite 6!app_assoc.
    rewrite bslice_app_r by (rewrite !length_app, !length_le_split, length_replicate; done).
    rewrite !length_app, !length_le_split, length_replicate. change (34 - _)%nat with 0%nat.
    by rewrite bslice_app_l, bslice_full by lia. }
  intros H1 H2. destruct (Hone op1 p1 H1) as (r1 & E1 & B1), (Hone op2 p2 H2) as (r2 & E2 & B2).
  exists r1, r2. split_and!; [exact E1|exact E2|exact B1|exact B2].
Qed.

Lemma tde_nonce_shared_witness :
  let e := mkTDE (replicate 32 Byte.x03) in
  ∃ r1 r2, buildRecord (H := plainAEAD) 5 Byte.x20 [Byte.x01] None (Some e) None = Ok r1 ∧
    buildRecord (H := plainAEAD) 5 Byte.x21 [Byte.x02] None (Some e) None = Ok r2 ∧
    bslice 34 17 r1 = Seal (AEAD := plainAEAD) (tde_key e) (tdeNonce 5) [Byte.x01] [] ∧
    bslice 34 17 r2 = Seal (AEAD := plainAEAD) (tde_key e) (tdeNonce 5) [Byte.x02] [].
Proof.
  intros e. apply (tde_nonce_shared (H := plainAEAD) 5 Byte.x20 Byte.x21 [Byte.x01] [Byte.x02] e).
  - vm_compute. discriminate.
  - vm_compute. discriminate.
Defined.
