(* ===== verification/WalLog.v ===== *)
(** * The write-ahead log file

    [server/internal/core/wal/wal.go] (appending) and [recovery.go] (scanning).
    The file is its content and a write position; every system call takes its
    outcome from the environment, so short writes and failing seeks, truncates
    and syncs are covered. *)

From S2P Require Import Prelude Bytes Crypto WalPayload WalRecord.

(** ** The file and its environment *)

Record logFile : Type := mkFile { content : list byte; fpos : Z }.

(** Outcomes of the system calls of one operation: how many bytes [Write] took
    and whether it reported an error, and whether the calls that follow work. *)
Record ioEnv : Type := mkIO {
  io_wrote : nat; io_writeErr : bool; io_seekCur : bool; io_truncate : bool;
  io_seek : bool; io_sync : bool }.

Definition io_ok (rec : bytes) : ioEnv := mkIO (length rec) false true true true true.

(** [Write] at the position; the file grows when the position is at its end. *)
Definition writeAt (pos : Z) (d b : bytes) : bytes :=
  take (Z.to_nat pos) b ++ replicate (Z.to_nat pos - length b) Byte.x00
  ++ d ++ drop (Z.to_nat pos + length d) b.

(** [Truncate(size)] cuts, or pads with zeros. *)
Definition truncateTo (size : Z) (b : bytes) : bytes :=
  take (Z.to_nat size) b ++ replicate (Z.to_nat size - length b) Byte.x00.

Record WAL : Type := mkWAL {
  file : option logFile; nextTxID : Z; syncCounter : Z; SyncBatchSize : Z;
  em : option EncryptionManager; tde : option TDEEngine;
  writeSeq : Z; syncedSeq : Z; writeErr : bool }.

Definition set_file (f : option logFile) (w : WAL) : WAL :=
  mkWAL f (nextTxID w) (syncCounter w) (SyncBatchSize w) (em w) (tde w) (writeSeq w) (syncedSeq w) (writeErr w).
Definition set_nextTxID (t : Z) (w : WAL) : WAL :=
  mkWAL (file w) t (syncCounter w) (SyncBatchSize w) (em w) (tde w) (writeSeq w) (syncedSeq w) (writeErr w).
Definition set_syncCounter (c : Z) (w : WAL) : WAL :=
  mkWAL (file w) (nextTxID w) c (SyncBatchSize w) (em w) (tde w) (writeSeq w) (syncedSeq w) (writeErr w).
Definition set_writeSeq (s : Z) (w : WAL) : WAL :=
  mkWAL (file w) (nextTxID w) (syncCounter w) (SyncBatchSize w) (em w) (tde w) s (syncedSeq w) (writeErr w).
Definition set_syncedSeq (s : Z) (w : WAL) : WAL :=
  mkWAL (file w) (nextTxID w) (syncCounter w) (SyncBatchSize w) (em w) (tde w) (writeSeq w) s (writeErr w).
Definition set_writeErr (b : bool) (w : WAL) : WAL :=
  mkWAL (file w) (nextTxID w) (syncCounter w) (SyncBatchSize w) (em w) (tde w) (writeSeq w) (syncedSeq w) b.

Abbreviation WalM := (M WAL wal_error).

(** The open file, or the error every operation reports on a closed one. *)
Definition openFile : WalM logFile := λ w,
  match file w with Some f => (w, Ok f) | None => (w, Err ErrWALClosed) end.

(** ** Appending *)

Definition undoPartialWriteLocked (io : ioEnv) (n : Z) : WalM unit := λ w,
  match file w with
  | None => (w, Panic)
  | Some f =>
      let poisoned w := (set_writeErr true w, Ok tt) in
      if negb (io_seekCur io) then poisoned w else
      let start := fpos f - n in
      if start <? 0 then poisoned w
      else if negb (io_truncate io) then poisoned w
      else
        let f := mkFile (truncateTo start (content f)) (fpos f) in
        if negb (io_seek io) then poisoned (set_file (Some f) w)
        else (set_file (Some (mkFile (content f) start)) w, Ok tt)
  end.

Definition writeLocked (io : ioEnv) (rec : bytes) : WalM unit := λ w,
  if writeErr w then (w, Err ErrPoisoned) else
  match file w with
  | None => (w, Panic)
  | Some f =>
      let n := Nat.min (io_wrote io) (length rec) in
      let f' := mkFile (writeAt (fpos f) (take n rec) (content f)) (fpos f + Z.of_nat n) in
      let w := set_file (Some f') w in
      if io_writeErr io || negb (n =? length rec)%nat then
        let w := if (0 <? n)%nat then fst (undoPartialWriteLocked io (Z.of_nat n) w) else w in
        (w, Err ErrWrite)
      else (set_writeSeq (u64 (writeSeq w + 1)) w, Ok tt)
  end.

Definition advanceSynced (seq : Z) (w : WAL) : WAL :=
  if seq <=? syncedSeq w then w else set_syncedSeq seq w.

Definition maybeSyncLocked (io : ioEnv) : WalM unit := λ w,
  let sync w :=
    if negb (io_sync io) then (w, Err ErrSync) else (advanceSynced (writeSeq w) w, Ok tt) in
  if 0 <? SyncBatchSize w then
    let w := set_syncCounter (syncCounter w + 1) w in
    if syncCounter w <? SyncBatchSize w then (w, Ok tt)
    else sync (set_syncCounter 0 w)
  else sync w.

Definition syncLocked (io : ioEnv) : WalM unit := λ w,
  if negb (io_sync io) then (w, Err ErrSync)
  else (advanceSynced (writeSeq w) (set_syncCounter 0 w), Ok tt).

(** [if txID >= w.nextTxID.Load() { w.nextTxID.Store(txID + 1) }]. *)
Definition raiseNextTxID (txID : Z) (w : WAL) : WAL :=
  if nextTxID w <=? txID then set_nextTxID (u64 (txID + 1)) w else w.

Section Log.
Context `{AEAD}.

Definition appendBytesLockedWithTx (io : ioEnv) (rnd : option bytes) (txID : Z) (opType : byte)
    (payload : bytes) : WalM Z :=
  openFile;;
  e ← gets em; d ← gets tde;
  record ← lift (buildRecord txID opType payload e d rnd);
  writeLocked io record;;
  maybeSyncLocked io;;
  modify (raiseNextTxID txID);;
  mret txID.

Definition appendBytesLocked (io : ioEnv) (rnd : option bytes) (opType : byte) (payload : bytes)
    : WalM Z :=
  openFile;;
  modify (λ w, set_nextTxID (u64 (nextTxID w + 1)) w);;
  txID ← gets nextTxID;
  e ← gets em; d ← gets tde;
  record ← lift (buildRecord txID opType payload e d rnd);
  writeLocked io record;;
  maybeSyncLocked io;;
  mret txID.

Definition writeRecordRaw (io : ioEnv) (data : bytes) (txID : Z) : WalM unit :=
  openFile;;
  writeLocked io data;;
  modify (raiseNextTxID txID).

(** The locked part of [AppendCommitSync]: the record and its sequence number. *)
Definition appendCommitLocked (io : ioEnv) (rnd : option bytes) (txID : Z) (payload : bytes) : WalM Z :=
  openFile;;
  e ← gets em; d ← gets tde;
  record ← lift (buildRecord txID OpCommit payload e d rnd);
  writeLocked io record;;
  seq ← gets writeSeq;
  modify (raiseNextTxID txID);;
  mret seq.

Definition Flush (io : ioEnv) : WalM Z :=
  openFile;;
  syncLocked io;;
  gets nextTxID.

(** Checkpoint records are never encrypted. *)
Definition WriteCheckpointRecord (io : ioEnv) : WalM Z :=
  openFile;;
  lsn ← gets nextTxID;
  let payload := encodeCheckpointBinary (mkCheckpoint lsn) in
  modify (λ w, set_nextTxID (u64 (nextTxID w + 1)) w);;
  txID ← gets nextTxID;
  record ← lift (buildRecord txID OpCheckpoint payload None None None);
  writeLocked io record;;
  syncLocked io;;
  mret txID.

Definition TruncateWAL (io : ioEnv) : WalM unit := λ w,
  match file w with
  | None => (w, Err ErrWALClosed)
  | Some f =>
      if negb (io_truncate io) then (w, Err ErrWrite) else
      let w := set_file (Some (mkFile [] (fpos f))) w in
      if negb (io_seek io) then (w, Err ErrWrite)
      else (set_writeErr false (set_file (Some (mkFile [] 0)) w), Ok tt)
  end.

Definition Checkpoint (io : ioEnv) : WalM unit := WriteCheckpointRecord io;; TruncateWAL io.

(** ** Scanning *)

(** The byte-wise search for the next magic: [r] is the rest of the file.  A
    failed trial read leaves the search where the read stopped. *)
Fixpoint resync (fuel : nat) (e : option EncryptionManager) (d : option TDEEngine) (r : bytes)
    : option (Z * Entry * Z * bytes) :=
  match fuel, r with
  | O, _ | _, [] => None
  | S fuel, b :: r1 =>
      if negb (bool_decide (Some b = recordMagic !! 0%nat)) then resync fuel e d r1
      else if (length r1 <? 3)%nat then None
      else if bool_decide (b :: take 3 r1 = recordMagic) then
        match readEntryFrom e d r with
        | (r2, Ok (entry, size)) => Some (Z.of_nat (length r), entry, size, r2)
        | (r2, _) => resync fuel e d r2
        end
      else resync fuel e d (drop 3 r1)
  end.

Definition isEOF (e : wal_error) : bool :=
  match e with ErrEOF | ErrUnexpectedEOF => true | _ => false end.

(** One scan of the file from [r] at offset [currPos]: the entries, and the end
    of the last one.  [data] is the whole file; [strict] is the test of
    [Recover] for entries that stay encrypted, whose error carries the file
    position it leaves. *)
Fixpoint scan (fuel : nat) (strict : bool) (e : option EncryptionManager) (d : option TDEEngine)
    (data r : bytes) (currPos : Z) : outcome (wal_error * Z) (list Entry * Z) :=
  match fuel with
  | O => Ok ([], currPos)
  | S fuel =>
      let keep (entry : Entry) (r : bytes) (pos : Z) :=
        if strict && e_Encrypted entry && bool_decide (e = None) && bool_decide (d = None)
        then Err (ErrNoDecryptor, blen data - blen r)
        else '(es, last) ← scan fuel strict e d data r pos; Ok (entry :: es, last) in
      match readEntryFrom e d r with
      | (r', Ok (entry, size)) => keep entry r' (currPos + size)
      | (_, Err err) =>
          if isEOF err then Ok ([], currPos) else
          match resync (length data) e d (drop (Z.to_nat (currPos + 1)) data) with
          | None => Ok ([], currPos)
          | Some (left', entry, size, r') => keep entry r' (blen data - left' + size)
          end
      | (_, Panic) => Panic
      end
  end.

Definition maxTxIDOf (es : list Entry) : Z := foldl (λ m e, Z.max m (e_TxID e)) 0 es.

Definition seekEnd (f : logFile) : logFile := mkFile (content f) (blen (content f)).

(** [Recover] without a point-in-time target.  On the error path the position
    stays where the scan stopped. *)
Definition Recover : WalM (list Entry) := λ w,
  match file w with
  | None => (w, Err ErrWALClosed)
  | Some f =>
      match scan (S (length (content f))) true (em w) (tde w) (content f) (content f) 0 with
      | Ok (es, _) =>
          let w := if nextTxID w <? maxTxIDOf es then set_nextTxID (maxTxIDOf es) w else w in
          (set_file (Some (seekEnd f)) w, Ok es)
      | Err (err, pos) => (set_file (Some (mkFile (content f) pos)) w, Err err)
      | Panic => (w, Panic)
      end
  end.

(** [scanAndTruncate]: the largest transaction id and the file without what
    follows the last entry.  When the truncate fails the file is renamed away
    and replaced by an empty one. *)
Definition scanAndTruncate (io : ioEnv) (data : bytes) : outcome wal_error (Z * bytes) :=
  match scan (S (length data)) false None None data data 0 with
  | Ok (es, validEnd) =>
      let data' :=
        if validEnd <? blen data then
          if io_truncate io then truncateTo validEnd data else []
        else data in
      Ok (maxTxIDOf es, data')
  | Err (err, _) => Err err
  | Panic => Panic
  end.

(** [Open] on a file that holds [data]. *)
Definition OpenWAL (io : ioEnv) (data : bytes) : outcome wal_error WAL :=
  '(maxTx, data') ← scanAndTruncate io data;
  Ok (mkWAL (Some (mkFile data' (blen data'))) maxTx 0 64 None None 0 0 false).

(** Entries up to the first read error, what remains then, and the error. *)
Fixpoint readAll (fuel : nat) (e : option EncryptionManager) (d : option TDEEngine) (r : bytes)
    : list Entry * bytes * option wal_error :=
  match fuel with
  | O => ([], r, None)
  | S fuel =>
      match readEntryFrom e d r with
      | (r', Ok (entry, _)) => let '(es, r'', stop) := readAll fuel e d r' in (entry :: es, r'', stop)
      | (r', Err err) => ([], r', Some err)
      | (r', Panic) => ([], r', None)
      end
  end.

(** The collecting phase of [Replay] and [ReplayTransaction]: an error that is
    not the end of the file leaves the position where the read stopped. *)
Definition collect : WalM (list Entry) := λ w,
  match file w with
  | None => (w, Err ErrWALClosed)
  | Some f =>
      let '(es, r, stop) := readAll (S (length (content f))) (em w) (tde w) (content f) in
      match stop with
      | Some err =>
          if isEOF err then (set_file (Some (seekEnd f)) w, Ok es)
          else (set_file (Some (mkFile (content f) (blen (content f) - blen r))) w, Err err)
      | None => (w, Panic)
      end
  end.

(** [for _, entry := range entries { callback(entry) }], stopping at an error. *)
Fixpoint forEach {S} (callback : Entry → M S wal_error unit) (es : list Entry) : M S wal_error unit :=
  match es with
  | [] => mret tt
  | e :: es => callback e;; forEach callback es
  end.

Definition Replay {S} (callback : Entry → M S wal_error unit) : M (WAL * S) wal_error unit :=
  λ '(w, s),
  match collect w with
  | (w, Ok es) => let '(s, r) := forEach callback es s in ((w, s), r)
  | (w, Err e) => ((w, s), Err e)
  | (w, Panic) => ((w, s), Panic)
  end.

Definition ReplayTransaction {S} (txID : Z) (callback : Entry → M S wal_error unit)
    : M (WAL * S) wal_error unit :=
  λ '(w, s),
  match collect w with
  | (w, Ok es) =>
      let '(s, r) := forEach callback (filter (λ e, e_TxID e = txID) es) s in ((w, s), r)
  | (w, Err e) => ((w, s), Err e)
  | (w, Panic) => ((w, s), Panic)
  end.

(** One entry of [AnalyzeTransactions]: the committed and the open ids. *)
Definition analyzeStep (st : gset Z * gset Z) (entry : Entry) : gset Z * gset Z :=
  let '(committed, inProgress) := st in
  match e_OpType entry with
  | OpCommit => ({[e_TxID entry]} ∪ committed, inProgress ∖ {[e_TxID entry]})
  | OpAbort => (committed ∖ {[e_TxID entry]}, inProgress ∖ {[e_TxID entry]})
  | _ =>
      if negb (e_TxID entry =? 0) && negb (bool_decide (e_TxID entry ∈ committed))
      then (committed, {[e_TxID entry]} ∪ inProgress) else (committed, inProgress)
  end.

Definition AnalyzeTransactions : WalM (gset Z * gset Z) := λ w,
  match file w with
  | None => (w, Err ErrWALClosed)
  | Some f =>
      let '(es, _, stop) := readAll (S (length (content f))) (em w) (tde w) (content f) in
      match stop with
      | Some _ => (set_file (Some (seekEnd f)) w, Ok (foldl analyzeStep (∅, ∅) es))
      | None => (w, Panic)
      end
  end.

(** One entry of [FindLastVacuumCommit]. *)
Definition vacuumStep {other} (unmarshal : payloadKind → bytes → option (payload other))
    (db table : bytes) (lastMatch : option Entry) (entry : Entry) : option Entry :=
  match e_OpType entry with
  | OpVacuumCommit | OpVacuumBegin =>
      match DecodeWALPayload unmarshal (e_Payload entry) (e_OpType entry) with
      | Ok (Some (PVacuum p)) =>
          if bool_decide (va_DB p = db) && bool_decide (va_Table p = table)
          then Some entry else lastMatch
      | _ => lastMatch
      end
  | _ => lastMatch
  end.

Definition FindLastVacuumCommit {other} (unmarshal : payloadKind → bytes → option (payload other))
    (db table : bytes) : WalM (bool * Z) := λ w,
  match file w with
  | None => (w, Err ErrWALClosed)
  | Some f =>
      let '(es, _, stop) := readAll (S (length (content f))) (em w) (tde w) (content f) in
      match stop with
      | Some _ =>
          (set_file (Some (seekEnd f)) w,
           match foldl (vacuumStep unmarshal db table) None es with
           | None => Ok (false, 0)
           | Some e =>
               match e_OpType e with
               | OpVacuumCommit => Ok (true, e_TxID e)
               | _ => Ok (false, e_TxID e)
               end
           end)
      | None => (w, Panic)
      end
  end.

(** ** Point-in-time recovery and logical decoding, on the entries of a file *)

(** Is the entry a commit at or after the target? *)
Definition stopsAt {other} (unmarshal : payloadKind → bytes → option (payload other)) (targetNs : Z)
    (entry : Entry) : bool :=
  match e_OpType entry with
  | OpCommit =>
      match DecodeWALPayload unmarshal (e_Payload entry) (e_OpType entry) with
      | Ok (Some (PCommit cp)) => targetNs <=? co_Timestamp cp
      | _ => false
      end
  | _ => false
  end.

(** [readEntriesUpTo]: entries up to the first commit at or after the target;
    the flag says that it was met. *)
Fixpoint upTo {other} (unmarshal : payloadKind → bytes → option (payload other)) (targetNs : Z)
    (es : list Entry) : list Entry * bool * Z :=
  match es with
  | [] => ([], false, 0)
  | entry :: es =>
      if stopsAt unmarshal targetNs entry then ([], true, e_TxID entry)
      else let '(l, s, m) := upTo unmarshal targetNs es in (entry :: l, s, Z.max (e_TxID entry) m)
  end.

(** [readEntriesUpTo] on the (decompressed) content of a segment: a read error
    other than the end of the file matters only when no commit stops it before. *)
Definition readEntriesUpTo {other} (unmarshal : payloadKind → bytes → option (payload other))
    (targetNs : Z) (e : option EncryptionManager) (d : option TDEEngine) (data : bytes)
    : outcome wal_error (list Entry * bool * Z) :=
  let '(es, _, stop) := readAll (S (length data)) e d data in
  let '(l, met, m) := upTo unmarshal targetNs es in
  if met then Ok (l, true, m) else
  match stop with
  | Some err => if isEOF err then Ok (l, false, m) else Err err
  | None => Panic
  end.

(** The loop of [RestoreAsOf] over the segments in order. *)
Fixpoint restoreFiles {other} (unmarshal : payloadKind → bytes → option (payload other))
    (targetNs : Z) (e : option EncryptionManager) (d : option TDEEngine) (files : list bytes)
    : outcome wal_error (list Entry * Z) :=
  match files with
  | [] => Ok ([], 0)
  | data :: files =>
      '(l, fStop, m) ← readEntriesUpTo unmarshal targetNs e d data;
      if (fStop : bool) then Ok (l, m)
      else '(l', m') ← restoreFiles unmarshal targetNs e d files; Ok (l ++ l', Z.max m m')
  end.

Definition RestoreAsOf {other} (unmarshal : payloadKind → bytes → option (payload other))
    (targetNs : Z) (files : list bytes) : WalM (list Entry) := λ w,
  match restoreFiles unmarshal targetNs (em w) (tde w) files with
  | Ok (l, m) => (if nextTxID w <? m then set_nextTxID m w else w, Ok l)
  | Err err => (w, Err err)
  | Panic => (w, Panic)
  end.

Inductive LogicalEvent : Type :=
| EventInsert (txID : Z) (db table tuple : list byte)
| EventDelete (txID : Z) (db table : list byte)
| EventCommit (txID timestamp : Z).

(** One entry of [DecodeFile]: the open transactions and the emitted events. *)
Definition logicalStep {other} (unmarshal : payloadKind → bytes → option (payload other))
    (st : gmap Z (list LogicalEvent) * list LogicalEvent) (entry : Entry)
    : gmap Z (list LogicalEvent) * list LogicalEvent :=
  let '(activeTx, out) := st in
  let tx := e_TxID entry in
  let events := default [] (activeTx !! tx) in
  match DecodeWALPayload unmarshal (e_Payload entry) (e_OpType entry) with
  | Ok p =>
      match e_OpType entry, p with
      | OpPageInsert, Some (PInsert p) =>
          (<[tx := events ++ [EventInsert tx (pi_DB p) (pi_Table p) (pi_TupleData p)]]> activeTx, out)
      | OpPageDelete, Some (PDelete p) | OpPageUpdateXMax, Some (PDelete p) =>
          (<[tx := events ++ [EventDelete tx (pd_DB p) (pd_Table p)]]> activeTx, out)
      | OpCommit, Some (PCommit p) =>
          (delete tx activeTx, out ++ events ++ [EventCommit tx (co_Timestamp p)])
      | OpAbort, _ => (delete tx activeTx, out)
      | _, _ => (activeTx, out)
      end
  | _ => (activeTx, out)
  end.

(** [DecodeFile] on a file: the events handed to the callback, and the error
    that ended the loop. *)
Definition DecodeFile {other} (unmarshal : payloadKind → bytes → option (payload other)) (io : ioEnv)
    (data : bytes) : list LogicalEvent * outcome wal_error unit :=
  match OpenWAL io data with
  | Ok w =>
      match file w with
      | Some f =>
          let '(es, _, stop) := readAll (S (length (content f))) None None (content f) in
          (snd (foldl (logicalStep unmarshal) (∅, []) es),
           match stop with
           | Some err => if isEOF err then Ok tt else Err err
           | None => Panic
           end)
      | None => ([], Panic)
      end
  | Err err => ([], Err err)
  | Panic => ([], Panic)
  end.
End Log.

(** ** Reading a well-formed log *)

Section Reading.
Context `{AEAD}.
Context (e : option EncryptionManager) (d : option TDEEngine).

(** The record [rec] is read as [entry], whatever follows it. *)
Definition reads (rec : bytes) (entry : Entry) : Prop :=
  ∀ rest, readEntryFrom e d (rec ++ rest) = (rest, Ok (entry, blen rec)).

(** What a crash leaves at the end: a read that runs out of bytes. *)
Definition torn (t : bytes) : Prop :=
  ∃ r err, readEntryFrom e d t = (r, Err err) ∧ isEOF err = true.

Lemma torn_nil : torn [].
Proof. by exists [], ErrEOF. Qed.

Lemma scan_records fuel strict data recs es t pos :
  Forall2 reads recs es → torn t → (length recs < fuel)%nat →
  (strict = true → Forall (λ en, e_Encrypted en = false) es) →
  scan fuel strict e d data (concat recs ++ t) pos = Ok (es, pos + blen (concat recs)).
Proof.
  intros Hf (rt & et & Et & Heof). revert fuel pos.
  induction Hf as [|rec en recs es Hr Hf IH]; intros [|fuel] pos Hfu Hs; try (cbn in Hfu; lia).
  { cbn [scan concat app]. rewrite Et, Heof. by rewrite Z.add_0_r. }
  cbn [scan concat]. rewrite <- app_assoc, Hr.
  assert (strict && e_Encrypted en && bool_decide (e = None) && bool_decide (d = None) = false) as ->.
  { destruct strict; [|done]. specialize (Hs eq_refl). apply Forall_cons in Hs as [-> _]. done. }
  rewrite IH; [|cbn in Hfu; lia|].
  - cbn. by rewrite blen_app, Z.add_assoc.
  - intros Hst. specialize (Hs Hst). by apply Forall_cons in Hs as [_ ?].
Qed.

Lemma readAll_records fuel recs es t :
  Forall2 reads recs es → torn t → (length recs < fuel)%nat →
  ∃ r err, readAll fuel e d (concat recs ++ t) = (es, r, Some err) ∧ isEOF err = true.
Proof.
  intros Hf (rt & et & Et & Heof). revert fuel.
  induction Hf as [|rec en recs es Hr Hf IH]; intros [|fuel] Hfu; try (cbn in Hfu; lia).
  { cbn [readAll concat app]. rewrite Et. by exists rt, et. }
  cbn [readAll concat]. rewrite <- app_assoc, Hr.
  destruct (IH fuel) as (r & err & -> & He); [cbn in Hfu; lia|]. by exists r, err.
Qed.

(** Records are not empty, so the length of the log bounds their number. *)
Lemma reads_nonempty rec en : reads rec en → (0 < length rec)%nat.
Proof.
  intros Hr. destruct rec; [|cbn; lia]. specialize (Hr []). cbn in Hr. done.
Qed.

Lemma records_count recs es : Forall2 reads recs es → (length recs ≤ length (concat recs))%nat.
Proof.
  induction 1 as [|rec en recs es Hr Hf IH]; [done|]. apply reads_nonempty in Hr.
  cbn. rewrite length_app. lia.
Qed.
End Reading.

Section Records.
Context `{AEAD}.

(** Every strict prefix of a record is torn. *)
Lemma record_prefix_torn txID op payload enc tde0 rnd record e d e' d' (k : nat) :
  blen payload + 16 ≤ maxPayloadSize → (∀ n, rnd = Some n → length n = 12%nat) →
  canDecrypt enc tde0 e d → buildRecord txID op payload enc tde0 rnd = Ok record →
  (k < length record)%nat → torn e' d' (take k record).
Proof.
  intros Hl Hr Hd Hb Hk.
  destruct (buildRecord_span _ _ _ _ _ _ _ _ _ Hl Hr Hd Hb) as (H34 & Hlen & _).
  apply buildRecord_image in Hb as (nonce & kv & p & mode & He & Hn & Hrec); [|done].
  destruct (encryptPayload_decrypt _ _ _ _ _ _ _ _ _ _ _ Hd Hr He) as (_ & _ & Hp).
  change maxPayloadSize with 33554432 in Hl. pose proof (blen_nonneg p). cbv zeta in Hrec.
  rewrite u32_small in Hrec by lia. set (h := header _ _ _ _ _ _) in Hrec.
  assert (length h = 34%nat) as Hh by (by apply header_length).
  assert (take k record = take k h ++ take (k - 34) (p ++ le_split 4 (crc32 (h ++ p)))) as Et
    by (rewrite Hrec, take_app, Hh; done).
  destruct (decide (k < 34)%nat) as [Hlt|Hge].
  { rewrite Et. replace (k - 34)%nat with 0%nat by lia. rewrite take_0, app_nil_r.
    unfold torn, readEntryFrom, mbind, M_bind, readFull.
    rewrite (proj2 (Nat.leb_gt _ _)) by (rewrite length_take; lia).
    eexists _, _. split; [done|]. by destruct (bool_decide _). }
  rewrite Et, (take_ge h) by lia. set (q := take (k - 34) _).
  assert (length q < length p + 4)%nat as Hq.
  { unfold q. rewrite length_take, length_app, length_le_split.
    rewrite Hrec, !length_app, length_le_split, Hh in Hk. lia. }
  unfold torn, readEntryFrom, mbind, M_bind. rewrite readFull_app by done.
  assert (take 4 h = recordMagic) as -> by done. rewrite bool_decide_true by done. cbn [negb].
  assert (le_at 4 30 h = blen p) as ->.
  { unfold h, header. rewrite 5!app_assoc. rewrite <- (app_nil_r (le_split 4 (blen p))).
    apply le_at_app; [by rewrite !length_app, !length_le_split, Hn|].
    change (2 ^ (Z.of_nat 4 * 8)) with 4294967296. lia. }
  rewrite (proj2 (Z.ltb_ge _ _)) by (change maxPayloadSize with 33554432; lia).
  unfold blen. rewrite Nat2Z.id. unfold readRest at 1, readFull at 1.
  destruct (Nat.leb_spec (length p) (length q)).
  - unfold readRest, readFull. rewrite (proj2 (Nat.leb_gt 4 _)) by (rewrite length_drop; lia).
    eexists _, _. done.
  - eexists _, _. done.
Qed.

(** A record read without keys: the entry keeps its transaction id. *)
Lemma record_read_closed txID op payload enc tde0 rnd record e d :
  0 ≤ txID < 2 ^ 64 → blen payload + 16 ≤ maxPayloadSize →
  (∀ n, rnd = Some n → length n = 12%nat) → canDecrypt enc tde0 e d →
  buildRecord txID op payload enc tde0 rnd = Ok record →
  ∃ en, reads None None record en ∧ e_TxID en = txID ∧ e_OpType en = op.
Proof.
  intros Ht Hl Hr Hd Hb. apply buildRecord_image in Hb as (nonce & kv & p & mode & He & Hn & ->); [|done].
  destruct (encryptPayload_decrypt _ _ _ _ _ _ _ _ _ _ _ Hd Hr He) as (_ & Hkv & Hp).
  change maxPayloadSize with 33554432 in *. pose proof (blen_nonneg p).
  rewrite u32_small by lia. set (h := header _ _ _ _ _ _).
  assert (∃ q still, decryptEntry None None mode txID kv nonce p = Ok (q, still)) as (q & still & Eq).
  { unfold decryptEntry. repeat case_bool_decide; by eexists _, _. }
  exists (mkEntry txID op q still). split; [|done]. intros rest. rewrite <- !app_assoc.
  unfold h at 1. rewrite readEntryFrom_image; [|done|done|done|change maxPayloadSize with 33554432; lia
    |by rewrite length_le_split]. fold h.
  rewrite le_combine_split, Z.mod_small by (pose proof (crc32_range (h ++ p)); done).
  rewrite Z.eqb_refl, Eq. cbn [mbind outcome_bind].
  assert (blen (h ++ p ++ le_split 4 (crc32 (h ++ p))) = 34 + blen p + 4) as ->; [|done].
  unfold blen. rewrite !length_app, length_le_split. unfold h. rewrite header_length by done. lia.
Qed.
End Records.

(** ** The scan ends on every file *)

Section Fuel.
Context `{AEAD}.
Context (e : option EncryptionManager) (d : option TDEEngine).

Lemma readFull_suffix n r r' o :
  readFull n r = (r', o) → ∃ pre, r = pre ++ r' ∧ (0 < n → r ≠ [] → pre ≠ [])%nat.
Proof.
  unfold readFull. destruct (Nat.leb_spec n (length r)); intros [= <- _].
  - exists (take n r). rewrite take_drop. split; [done|]. intros Hn Hr E.
    apply (f_equal length) in E. rewrite length_take in E. destruct r; [done|]. cbn in *. lia.
  - exists r. by rewrite app_nil_r.
Qed.

Lemma readRest_suffix n r r' o : readRest n r = (r', o) → ∃ pre, r = pre ++ r'.
Proof.
  unfold readRest. destruct (readFull n r) as [r1 o1] eqn:E.
  apply readFull_suffix in E as (pre & -> & _). destruct o1; intros [= <- _]; by exists pre.
Qed.

(** A read consumes a non-empty prefix, also when it fails. *)
Lemma readEntryFrom_suffix r r' o :
  readEntryFrom e d r = (r', o) → ∃ pre, r = pre ++ r' ∧ (r ≠ [] → pre ≠ []).
Proof.
  unfold readEntryFrom, mbind, M_bind, throw, lift, mret, M_ret.
  destruct (readFull 34 r) as [r1 o1] eqn:E1.
  apply readFull_suffix in E1 as (p1 & -> & Hp1).
  assert (∀ q, r1 = q ++ r' → ∃ pre, p1 ++ r1 = pre ++ r' ∧ (p1 ++ r1 ≠ [] → pre ≠ [])) as Hdone.
  { intros q ->. exists (p1 ++ q). split; [by rewrite <- app_assoc|].
    intros Hne. specialize (Hp1 ltac:(lia) Hne). by destruct p1. }
  destruct o1 as [h| |]; [|by intros [= <- _]; apply (Hdone [])..].
  destruct (negb _); [by intros [= <- _]; apply (Hdone [])|].
  destruct (_ <? _); [by intros [= <- _]; apply (Hdone [])|].
  destruct (readRest _ r1) as [r2 o2] eqn:E2. apply readRest_suffix in E2 as (p2 & ->).
  destruct o2 as [p| |]; [|by intros [= <- _]; apply (Hdone p2)..].
  destruct (readRest 4 r2) as [r3 o3] eqn:E3. apply readRest_suffix in E3 as (p3 & ->).
  assert (r3 = r' → ∃ pre, p1 ++ p2 ++ p3 ++ r3 = pre ++ r' ∧ (p1 ++ p2 ++ p3 ++ r3 ≠ [] → pre ≠ [])) as Hd3.
  { intros ->. apply (Hdone (p2 ++ p3)). by rewrite app_assoc. }
  destruct o3 as [c| |]; [|intros [= <- _]; by apply Hd3..].
  destruct (negb _); [intros [= <- _]; by apply Hd3|].
  destruct (decryptEntry _ _ _ _ _ _ _) as [[? ?]| |]; intros [= <- _]; by apply Hd3.
Qed.

Lemma readEntryFrom_shorter r r' o :
  readEntryFrom e d r = (r', o) → r ≠ [] → (length r' < length r)%nat.
Proof.
  intros E Hr. apply readEntryFrom_suffix in E as (pre & -> & Hp). specialize (Hp Hr).
  rewrite length_app. destruct pre; [done|]. cbn. lia.
Qed.

Lemma resync_fuel f1 f2 r :
  (length r ≤ f1)%nat → (length r ≤ f2)%nat → resync f1 e d r = resync f2 e d r.
Proof.
  revert f2 r. induction f1 as [|f1 IH]; intros [|f2] r H1 H2.
  - done.
  - destruct r; [done|cbn in H1; lia].
  - destruct r; [done|cbn in H2; lia].
  - destruct r as [|b r]; [done|]. cbn [resync]. cbn in H1, H2.
    destruct (negb _); [apply IH; lia|]. destruct (_ <? _)%nat; [done|].
    destruct (bool_decide _).
    + destruct (readEntryFrom e d (b :: r)) as [r2 o] eqn:E.
      apply readEntryFrom_shorter in E; [|done]. cbn in E.
      destruct o as [[? ?]| |]; [done|apply IH; lia..].
    + apply IH; rewrite length_drop; lia.
Qed.

(** Where the search resumes: a suffix of the rest that starts with a record. *)
Lemma resync_inv fuel r left' en size r2 :
  resync fuel e d r = Some (left', en, size, r2) →
  ∃ pre rec, r = pre ++ rec ++ r2 ∧ left' = blen (rec ++ r2) ∧ size = blen rec ∧ 0 < size.
Proof.
  revert r. induction fuel as [|fuel IH]; intros [|b r] Hs; try done. cbn [resync] in Hs.
  destruct (negb _).
  { apply IH in Hs as (pre & rec & -> & ? & ? & ?). by exists (b :: pre), rec. }
  destruct (_ <? _)%nat; [done|]. destruct (bool_decide _).
  - destruct (readEntryFrom e d (b :: r)) as [r3 o] eqn:E.
    assert (resync fuel e d r3 = Some (left', en, size, r2) ∨
            o = Ok (en, size) ∧ left' = blen (b :: r) ∧ r2 = r3) as [Hs'|(-> & -> & ->)].
    { destruct o as [[en' size']| |]; [|by left..]. injection Hs as <- <- <- <-. by right. }
    + apply readEntryFrom_suffix in E as (pre & -> & _).
      apply IH in Hs' as (pre2 & rec & -> & ? & ? & ?). exists (pre ++ pre2), rec.
      by rewrite <- app_assoc.
    + apply readEntryFrom_inv in E as (h & p & c & Er & Hh & Hcl & _ & _ & _ & -> & _).
      exists [], (h ++ p ++ c). rewrite Er, <- !app_assoc. split_and!; [done|done| |].
      * rewrite !blen_app. unfold blen. rewrite Hh, Hcl. lia.
      * pose proof (blen_nonneg p). lia.
  - apply IH in Hs as (pre & rec & Er & ? & ? & ?). exists (b :: take 3 r ++ pre), rec.
    split_and!; [|done..]. rewrite <- app_comm_cons, <- app_assoc, <- Er, take_drop. done.
Qed.

Lemma scan_fuel f1 f2 strict data pre r :
  data = pre ++ r → (length r < f1)%nat → (length r < f2)%nat →
  scan f1 strict e d data r (blen pre) = scan f2 strict e d data r (blen pre).
Proof.
  revert f2 pre r. induction f1 as [|f1 IH]; intros [|f2] pre r Hd H1 H2; try lia.
  cbn [scan]. destruct (readEntryFrom e d r) as [r' o] eqn:E.
  destruct o as [[en size]|err|]; [| |done].
  - assert (r ≠ []) as Hr by (intros ->; done).
    pose proof (readEntryFrom_shorter _ _ _ E Hr) as Hlt.
    apply readEntryFrom_inv in E as (h & p & c & -> & Hh & Hc & _ & _ & _ & -> & _).
    destruct (_ && _); [done|]. replace (blen pre + (34 + blen p + 4)) with (blen (pre ++ h ++ p ++ c))
      by (rewrite !blen_app; unfold blen; rewrite Hh, Hc; lia).
    rewrite (IH f2); [done| |lia..]. by rewrite Hd, <- !app_assoc.
  - destruct (isEOF err); [done|].
    destruct (resync _ e d _) as [[[[left' en] size] r2]|] eqn:Er; [|done].
    apply resync_inv in Er as (p2 & rec & Ed & -> & -> & Hsz).
    assert (data = (take (Z.to_nat (blen pre + 1)) data ++ p2 ++ rec) ++ r2) as Hdata
      by (rewrite <- !app_assoc, <- Ed; by rewrite take_drop).
    assert (length r2 < length r)%nat as Hlt.
    { assert (length (drop (Z.to_nat (blen pre + 1)) data) ≤ length r)%nat
        by (rewrite Hd, length_drop, length_app; unfold blen; lia).
      apply (f_equal length) in Ed. rewrite !length_app in Ed. unfold blen in Hsz. lia. }
    destruct (_ && _); [done|].
    replace (blen data - blen (rec ++ r2) + blen rec)
      with (blen (take (Z.to_nat (blen pre + 1)) data ++ p2 ++ rec)).
    + rewrite (IH f2); [done|exact Hdata|lia..].
    + rewrite Hdata at 2. rewrite !blen_app. lia.
Qed.
End Fuel.

(** ** Appending under faults *)

Lemma writeAt_end (b d : bytes) : writeAt (blen b) d b = b ++ d.
Proof.
  unfold writeAt, blen. rewrite Nat2Z.id, firstn_all, Nat.sub_diag, drop_ge by lia.
  cbn. by rewrite app_nil_r.
Qed.

Lemma truncateTo_app (b t : bytes) : truncateTo (blen b) (b ++ t) = b.
Proof.
  unfold truncateTo, blen. rewrite Nat2Z.id, take_app_length, length_app.
  replace (length b - (length b + length t))%nat with 0%nat by lia. apply app_nil_r.
Qed.

Section Faults.
Context `{AEAD}.

(** The file holds the records [recs]; bytes of a torn record follow them only
    once the log refuses further writes. *)
Definition holdsLog (w : WAL) (recs : list bytes) : Prop :=
  ∃ f t, file w = Some f ∧ content f = concat recs ++ t ∧ (∀ e d, torn e d t) ∧
    (writeErr w = false → t = [] ∧ fpos f = blen (content f)).

(** A record that reads back with the keys, and with its transaction id without
    them. *)
Definition readsBoth (e : option EncryptionManager) (d : option TDEEngine) (rec : bytes) (en : Entry) : Prop :=
  reads e d rec en ∧ ∃ en', reads None None rec en' ∧ e_TxID en' = e_TxID en.

(** Such a record whose strict prefixes are torn. *)
Definition goodRecord (e : option EncryptionManager) (d : option TDEEngine) (rec : bytes) (en : Entry) : Prop :=
  readsBoth e d rec en ∧ ∀ k, (k < length rec)%nat → ∀ e' d', torn e' d' (take k rec).

Definition sameKeys (w w' : WAL) : Prop := em w' = em w ∧ tde w' = tde w.

Lemma holdsLog_clean w f recs :
  file w = Some f → content f = concat recs → (writeErr w = false → fpos f = blen (content f)) →
  holdsLog w recs.
Proof.
  intros Hf Hc Hp. exists f, []. rewrite app_nil_r. split_and!; [done|done|intros; apply torn_nil|].
  intros Hw. split; [done|by apply Hp].
Qed.

(** A refused log with the first [n] bytes of a record at its end. *)
Lemma holdsLog_partial w f recs rec en n :
  goodRecord (em w) (tde w) rec en → (n ≤ length rec)%nat → file w = Some f →
  content f = concat recs ++ take n rec → writeErr w = true →
  ∃ new, holdsLog w (recs ++ new) ∧ (new = [] ∨ new = [rec]).
Proof.
  intros [_ Hp] Hn Hf Hc Hw. destruct (decide (n = length rec)) as [->|].
  - exists [rec]. split; [|by right]. apply (holdsLog_clean _ f); [done| |congruence].
    rewrite Hc, firstn_all, concat_app. cbn. by rewrite app_nil_r.
  - exists []. split; [|by left]. exists f, (take n rec). rewrite app_nil_r, Hw.
    split_and!; [done|done|intros; apply Hp; lia|done].
Qed.

(** After a failed write: the log is clean again, or refuses further writes. *)
Lemma undo_spec io w f recs rec en n :
  goodRecord (em w) (tde w) rec en → (n ≤ length rec)%nat → file w = Some f →
  content f = concat recs ++ take n rec → fpos f = blen (content f) → writeErr w = false →
  let w' := fst (undoPartialWriteLocked io (Z.of_nat n) w) in
  sameKeys w w' ∧ nextTxID w' = nextTxID w ∧
  ∃ new, holdsLog w' (recs ++ new) ∧ (new = [] ∨ new = [rec]).
Proof.
  intros Hg Hn Hf Hc Hpos Hw. unfold undoPartialWriteLocked. rewrite Hf, Hpos, Hc, blen_app.
  replace (blen (take n rec)) with (Z.of_nat n) by (unfold blen; rewrite length_take; lia).
  replace (_ + Z.of_nat n - Z.of_nat n) with (blen (concat recs)) by lia.
  pose proof (blen_nonneg (concat recs)). rewrite (proj2 (Z.ltb_ge _ _)), truncateTo_app by lia.
  assert (∃ new, holdsLog (set_writeErr true w) (recs ++ new) ∧ (new = [] ∨ new = [rec])) as Hpoison
    by (by eapply holdsLog_partial).
  destruct (io_seekCur io); cbn [negb]; [|by split_and!].
  destruct (io_truncate io); cbn [negb]; [|by split_and!].
  destruct (io_seek io); cbn [negb fst]; split_and!; [done..| |done|done|].
  all: exists []; split; [|by left]; rewrite app_nil_r; eapply holdsLog_clean; [done|done|].
  all: cbn; congruence.
Qed.

(** What one write leaves: nothing of the record, or all of it; an acknowledged
    write leaves all of it. *)
Lemma writeLocked_spec io rec en w recs w' o :
  holdsLog w recs → goodRecord (em w) (tde w) rec en → writeLocked io rec w = (w', o) →
  sameKeys w w' ∧ nextTxID w' = nextTxID w ∧ o ≠ Panic ∧
  ∃ new, holdsLog w' (recs ++ new) ∧ (new = [] ∨ new = [rec]) ∧ (o = Ok tt → new = [rec]).
Proof.
  intros (f & t & Hf & Hc & Ht & Hok) Hg Hw. unfold writeLocked in Hw.
  destruct (writeErr w) eqn:Ew.
  { injection Hw as <- <-. split_and!; [done..|]. exists []. split_and!; [|by left|done].
    exists f, t. rewrite app_nil_r, Ew. by split_and!. }
  destruct (Hok eq_refl) as [-> Hpos]. rewrite app_nil_r in Hc. rewrite Hf, Hpos, Hc in Hw.
  rewrite writeAt_end in Hw. set (n := Nat.min (io_wrote io) (length rec)) in *.
  assert (n ≤ length rec)%nat as Hn by lia. set (f1 := mkFile _ _) in Hw.
  assert (fpos f1 = blen (content f1)) as Hp1
    by (unfold f1; cbn; rewrite blen_app; unfold blen; rewrite length_take; lia).
  destruct (io_writeErr io || negb (n =? length rec)%nat) eqn:Eio.
  - destruct (Nat.ltb_spec 0 n) as [H0|H0]; injection Hw as <- <-.
    + destruct (undo_spec io (set_file (Some f1) w) f1 recs rec en n) as (Hk & Ht' & new & Hh & Hnew);
        [done..|]. split_and!; [exact Hk|exact Ht'|done|]. exists new. by split_and!.
    + split_and!; [done..|]. exists []. split_and!; [|by left|done]. rewrite app_nil_r.
      apply (holdsLog_clean _ f1); [done| |done]. unfold f1. cbn.
      replace n with 0%nat by lia. by rewrite take_0, app_nil_r.
  - injection Hw as <- <-. split_and!; [done..|]. exists [rec]. split_and!; [|by right|done].
    apply orb_false_iff in Eio as [_ En]. apply negb_false_iff, Nat.eqb_eq in En.
    apply (holdsLog_clean _ f1); [done| |done]. unfold f1. cbn.
    rewrite En, firstn_all, concat_app. cbn. by rewrite app_nil_r.
Qed.

Lemma advanceSynced_keeps seq w :
  file (advanceSynced seq w) = file w ∧ em (advanceSynced seq w) = em w ∧
  tde (advanceSynced seq w) = tde w ∧ writeErr (advanceSynced seq w) = writeErr w ∧
  nextTxID (advanceSynced seq w) = nextTxID w.
Proof. unfold advanceSynced. by destruct (_ <=? _). Qed.

(** Syncing and counters do not touch the file. *)
Lemma maybeSync_keeps io w w' o :
  maybeSyncLocked io w = (w', o) →
  file w' = file w ∧ em w' = em w ∧ tde w' = tde w ∧ writeErr w' = writeErr w ∧ o ≠ Panic.
Proof.
  unfold maybeSyncLocked. intros Hs. destruct (0 <? SyncBatchSize w).
  - destruct (_ <? _); [by injection Hs as <- <-|].
    destruct (io_sync io); injection Hs as <- <-; [|done].
    match goal with |- context [advanceSynced ?s ?x] =>
      pose proof (advanceSynced_keeps s x) as (-> & -> & -> & -> & _) end. done.
  - destruct (io_sync io); injection Hs as <- <-; [|done].
    pose proof (advanceSynced_keeps (writeSeq w) w) as (-> & -> & -> & -> & _). done.
Qed.

Lemma holdsLog_keeps w w' recs :
  file w' = file w → writeErr w' = writeErr w → holdsLog w recs → holdsLog w' recs.
Proof. intros Hf Hw. unfold holdsLog. by rewrite Hf, Hw. Qed.

(** ** Sequences of appends *)

(** [ATx] is [AppendWithTx] (and every caller of [appendBytesLockedWithTx]),
    [ANext] is [Append], which takes the next transaction id. *)
Inductive appendOp : Type :=
| ATx (txID : Z) (op : byte) (payload : list byte)
| ANext (op : byte) (payload : list byte).

Definition entryOf (a : appendOp) (w : WAL) : Entry :=
  match a with
  | ATx txID op payload => mkEntry txID op payload false
  | ANext op payload => mkEntry (u64 (nextTxID w + 1)) op payload false
  end.

Definition stepAppend (io : ioEnv) (rnd : option bytes) (a : appendOp) : WalM Z :=
  match a with
  | ATx txID op payload => appendBytesLockedWithTx io rnd txID op payload
  | ANext op payload => appendBytesLocked io rnd op payload
  end.

Definition appendOk (a : appendOp) : Prop :=
  match a with
  | ATx txID _ payload => 0 ≤ txID < 2 ^ 64 ∧ blen payload + 16 ≤ maxPayloadSize
  | ANext _ payload => blen payload + 16 ≤ maxPayloadSize
  end.

Definition rndOk (rnd : option bytes) : Prop := ∀ n, rnd = Some n → length n = 12%nat.

Lemma goodRecord_build txID op payload rnd rec e d :
  0 ≤ txID < 2 ^ 64 → blen payload + 16 ≤ maxPayloadSize → rndOk rnd → canDecrypt e d e d →
  buildRecord txID op payload e d rnd = Ok rec →
  goodRecord e d rec (mkEntry txID op payload false).
Proof.
  intros Ht Hl Hr Hd Hb. split.
  - split; [intros rest; by eapply record_read|].
    destruct (record_read_closed txID op payload e d rnd rec e d) as (en & ? & ? & _); [done..|]. by exists en.
  - intros k Hk e' d'. by eapply record_prefix_torn.
Qed.

(** The part the two appends share: a record is built, written and maybe synced. *)
Lemma append_tail io rnd txID op payload (w : WAL) recs (k : WalM Z) w' o :
  holdsLog w recs → canDecrypt (em w) (tde w) (em w) (tde w) → rndOk rnd →
  0 ≤ txID < 2 ^ 64 → blen payload + 16 ≤ maxPayloadSize →
  (∀ v, ∃ v', k v = (v', Ok txID) ∧ file v' = file v ∧ em v' = em v ∧ tde v' = tde v ∧
              writeErr v' = writeErr v) →
  (record ← lift (buildRecord txID op payload (em w) (tde w) rnd);
   writeLocked io record;; maybeSyncLocked io;; k) w = (w', o) →
  sameKeys w w' ∧
  ∃ new, holdsLog w' (recs ++ new) ∧
    (new = [] ∨ ∃ rec, new = [rec] ∧ readsBoth (em w) (tde w) rec (mkEntry txID op payload false)) ∧
    (∀ t, o = Ok t → new ≠ []).
Proof.
  intros Hh Hcd Hr Ht Hl Hk E. unfold mbind at 1, M_bind at 1, lift in E.
  destruct (buildRecord txID op payload (em w) (tde w) rnd) as [rec|err|] eqn:Eb.
  2,3: injection E as <- <-; split; [done|]; exists []; rewrite app_nil_r; split_and!; [done|by left|done].
  pose proof (goodRecord_build _ _ _ _ _ _ _ Ht Hl Hr Hcd Eb) as Hg.
  unfold mbind at 1, M_bind at 1 in E. destruct (writeLocked io rec w) as [w1 o1] eqn:Ew.
  destruct (writeLocked_spec _ _ _ _ _ _ _ Hh Hg Ew) as ((He1 & Hd1) & _ & _ & new & Hh1 & Hnew & Hok1).
  assert (new = [] ∨ ∃ rec, new = [rec] ∧ readsBoth (em w) (tde w) rec (mkEntry txID op payload false)) as Hn2.
  { destruct Hnew as [->| ->]; [by left|]. right. exists rec. split; [done|apply Hg]. }
  destruct o1 as [[]|err|].
  2,3: injection E as <- <-; split; [done|]; exists new; split_and!; [done|done|done].
  specialize (Hok1 eq_refl). unfold mbind, M_bind in E.
  destruct (maybeSyncLocked io w1) as [w2 o2] eqn:Es.
  destruct (maybeSync_keeps _ _ _ _ Es) as (Hf2 & He2 & Hd2 & Hw2 & _).
  assert (holdsLog w2 (recs ++ new)) as Hh2 by (by eapply holdsLog_keeps; [..|exact Hh1]).
  destruct o2 as [[]|err|].
  2,3: injection E as <- <-; split; [split; congruence|]; exists new; split_and!; [done|done|done].
  destruct (Hk w2) as (v' & Ek & Hf3 & He3 & Hd3 & Hw3). rewrite Ek in E. injection E as <- <-.
  split; [split; congruence|]. exists new. split_and!; [by eapply holdsLog_keeps; [..|exact Hh2]|done|].
  intros t _. by rewrite Hok1.
Qed.

Lemma stepAppend_spec io rnd a w recs w' o :
  holdsLog w recs → canDecrypt (em w) (tde w) (em w) (tde w) → rndOk rnd → appendOk a →
  stepAppend io rnd a w = (w', o) →
  sameKeys w w' ∧
  ∃ new, holdsLog w' (recs ++ new) ∧
    (new = [] ∨ ∃ rec, new = [rec] ∧ readsBoth (em w) (tde w) rec (entryOf a w)) ∧
    (∀ t, o = Ok t → new ≠ []).
Proof.
  intros Hh Hcd Hr Ha E. assert (∃ f, file w = Some f) as [f Hf] by (destruct Hh as (f & ? & ? & _); by exists f).
  destruct a as [txID op payload|op payload]; cbn [stepAppend entryOf appendOk] in *.
  - destruct Ha as [Ht Hl].
    apply (append_tail io rnd txID op payload w recs (modify (raiseNextTxID txID);; mret txID)); [done..| |].
    + intros v. eexists. split; [done|]. unfold raiseNextTxID. by destruct (_ <=? _).
    + unfold appendBytesLockedWithTx, openFile in E. unfold mbind at 1, M_bind at 1 in E.
      rewrite Hf in E. exact E.
  - set (w0 := set_nextTxID (u64 (nextTxID w + 1)) w).
    apply (append_tail io rnd (u64 (nextTxID w + 1)) op payload w0 recs (mret (u64 (nextTxID w + 1))));
      [by eapply holdsLog_keeps; [..|exact Hh]|done|done|apply u64_range|done| |].
    + intros v. by eexists.
    + unfold appendBytesLocked, openFile in E. unfold mbind at 1, M_bind at 1 in E.
      rewrite Hf in E. exact E.
Qed.

(** The attempted entries in order, each with whether it was acknowledged. *)
Fixpoint runAppends (ops : list (ioEnv * option bytes * appendOp)) (w : WAL) : WAL * list (Entry * bool) :=
  match ops with
  | [] => (w, [])
  | (io, rnd, a) :: ops =>
      let '(w1, o) := stepAppend io rnd a w in
      let '(w2, l) := runAppends ops w1 in
      (w2, (entryOf a w, match o with Ok _ => true | _ => false end) :: l)
  end.

Definition acknowledged (l : list (Entry * bool)) : list Entry := fst <$> filter (λ x, snd x = true) l.

Lemma runAppends_spec ops w recs es w' att :
  holdsLog w recs → canDecrypt (em w) (tde w) (em w) (tde w) →
  Forall2 (readsBoth (em w) (tde w)) recs es →
  Forall (λ '(_, rnd, a), rndOk rnd ∧ appendOk a) ops →
  runAppends ops w = (w', att) →
  sameKeys w w' ∧ ∃ recs' kept, holdsLog w' recs' ∧
    Forall2 (readsBoth (em w) (tde w)) recs' (es ++ kept) ∧
    acknowledged att `sublist_of` kept ∧ kept `sublist_of` att.*1.
Proof.
  intros Hh Hcd Hf Hops. revert w recs es Hh Hcd Hf w' att.
  induction Hops as [|[[io rnd] a] ops [Hr Ha] Hops IH]; intros w recs es Hh Hcd Hf w' att E.
  { cbn in E. injection E as <- <-. split; [done|]. exists recs, []. rewrite app_nil_r. by split_and!. }
  cbn in E. destruct (stepAppend io rnd a w) as [w1 o] eqn:Es.
  destruct (runAppends ops w1) as [w2 l] eqn:El. injection E as <- <-.
  destruct (stepAppend_spec _ _ _ _ _ _ _ Hh Hcd Hr Ha Es) as ((He1 & Hd1) & new & Hh1 & Hnew & Hok).
  rewrite <- He1, <- Hd1 in Hcd, Hf.
  assert (∃ k, Forall2 (readsBoth (em w1) (tde w1)) new k ∧ (k = [] ∧ new = [] ∨ k = [entryOf a w]))
    as (k & Hk & Hkn).
  { destruct Hnew as [->|(rec & -> & Hrec)]; [by exists []; split; [constructor|left]|].
    exists [entryOf a w]. split; [|by right]. rewrite He1, Hd1.
    constructor; [exact Hrec|constructor]. }
  destruct (IH w1 (recs ++ new) (es ++ k) Hh1 Hcd (Forall2_app Hf Hk) _ _ El)
    as ((He2 & Hd2) & recs' & kept & Hh2 & Hf2 & Hs1 & Hs2).
  split; [split; congruence|]. exists recs', (k ++ kept).
  rewrite He1, Hd1, <- app_assoc in Hf2. split_and!; [done|done| |].
  - unfold acknowledged. rewrite filter_cons. destruct o as [t|err|]; cbn.
    + destruct Hkn as [[_ ->]| ->]; [by destruct (Hok t eq_refl)|]. cbn. by constructor.
    + etransitivity; [exact Hs1|]. apply sublist_inserts_l. done.
    + etransitivity; [exact Hs1|]. apply sublist_inserts_l. done.
  - cbn. destruct Hkn as [[-> _]| ->]; cbn; by constructor.
Qed.

(** Reopening the file and recovering it with the same keys. *)
Definition setKeys (e : option EncryptionManager) (d : option TDEEngine) (w : WAL) : WAL :=
  mkWAL (file w) (nextTxID w) (syncCounter w) (SyncBatchSize w) e d (writeSeq w) (syncedSeq w) (writeErr w).

Lemma readsBoth_plain e d recs es :
  Forall2 (readsBoth e d) recs es →
  Forall2 (reads e d) recs es ∧
  ∃ es', Forall2 (reads None None) recs es' ∧ map e_TxID es' = map e_TxID es.
Proof.
  induction 1 as [|rec en recs es [Hr (en' & Hr' & Ht)] _ [IH1 (es' & IH2 & IH3)]].
  { split; [constructor|]. exists []. split; [constructor|done]. }
  split; [by constructor|]. exists (en' :: es'). split; [by constructor|]. cbn. by rewrite Ht, IH3.
Qed.

Lemma maxTxIDOf_map es es' : map e_TxID es = map e_TxID es' → maxTxIDOf es = maxTxIDOf es'.
Proof.
  unfold maxTxIDOf. generalize 0. revert es'.
  induction es as [|en es IH]; intros [|en' es'] m; cbn; try done.
  intros [= -> Hm]. by apply IH.
Qed.

Lemma reopen_spec w recs es io :
  holdsLog w recs → Forall2 (readsBoth (em w) (tde w)) recs es → io_truncate io = true →
  Forall (λ en, e_Encrypted en = false) es →
  ∃ f w1 w2, file w = Some f ∧ OpenWAL io (content f) = Ok w1 ∧ holdsLog w1 recs ∧
    nextTxID w1 = maxTxIDOf es ∧ Recover (setKeys (em w) (tde w) w1) = (w2, Ok es) ∧
    nextTxID w2 = maxTxIDOf es ∧ holdsLog w2 recs.
Proof.
  intros (f & t & Hf & Hc & Ht & _) Hr Hio Henc.
  destruct (readsBoth_plain _ _ _ _ Hr) as (Hr1 & es' & Hr2 & Hmap).
  pose proof (records_count _ _ _ _ Hr1) as Hcount.
  assert (scanAndTruncate io (content f) = Ok (maxTxIDOf es, concat recs)) as Hsc.
  { unfold scanAndTruncate. rewrite Hc.
    rewrite (scan_records None None _ _ _ recs es' t 0); [|done..| |done].
    - rewrite Z.add_0_l, blen_app, Hio, (maxTxIDOf_map es' es Hmap).
      rewrite truncateTo_app. destruct (Z.ltb_spec (blen (concat recs)) (blen (concat recs) + blen t)); [done|].
      pose proof (blen_nonneg t). destruct t; [by rewrite app_nil_r|]. unfold blen in *. cbn in *. lia.
    - rewrite length_app. lia. }
  exists f. unfold OpenWAL. rewrite Hsc. cbn [mbind outcome_bind]. eexists _, _.
  split_and!; [done|done|by eapply holdsLog_clean|done| | |].
  - unfold Recover, setKeys. cbn [file content em tde nextTxID].
    rewrite <- (app_nil_r (concat recs)) at 3.
    rewrite (scan_records _ _ _ _ _ recs es []); [|done|apply torn_nil|lia|done].
    rewrite Z.ltb_irrefl. done.
  - done.
  - by eapply holdsLog_clean.
Qed.
End Faults.

(** ** Analysis *)

Definition isCommit (tx : Z) (en : Entry) : Prop := e_OpType en = OpCommit ∧ e_TxID en = tx.
Definition isAbort (tx : Z) (en : Entry) : Prop := e_OpType en = OpAbort ∧ e_TxID en = tx.
Definition isData (tx : Z) (en : Entry) : Prop :=
  e_OpType en ≠ OpCommit ∧ e_OpType en ≠ OpAbort ∧ e_TxID en = tx.

(** A commit record that no abort record follows. *)
Definition committedIn (tx : Z) (es : list Entry) : Prop :=
  ∃ l1 en l2, es = l1 ++ en :: l2 ∧ isCommit tx en ∧ Forall (λ x, ¬ isAbort tx x) l2.

(** A data record, logged while the transaction was not committed, that no
    commit or abort record follows. *)
Definition openIn (tx : Z) (es : list Entry) : Prop :=
  ∃ l1 en l2, es = l1 ++ en :: l2 ∧ (isData tx en ∧ tx ≠ 0 ∧ ¬ committedIn tx l1) ∧
    Forall (λ x, ¬ isCommit tx x ∧ ¬ isAbort tx x) l2.

(** The last element decides, or the rest does. *)
Lemma split_snoc {A} (P : list A → A → Prop) (Q : A → Prop) l x :
  (∃ l1 y l2, l ++ [x] = l1 ++ y :: l2 ∧ P l1 y ∧ Forall Q l2) ↔
  P l x ∨ Q x ∧ ∃ l1 y l2, l = l1 ++ y :: l2 ∧ P l1 y ∧ Forall Q l2.
Proof.
  split.
  - intros (l1 & y & l2 & E & HP & HQ). destruct l2 as [|z l2 _] using rev_ind.
    + apply app_inj_tail in E as [-> ->]. by left.
    + rewrite app_comm_cons, app_assoc in E. apply app_inj_tail in E as [-> ->].
      apply Forall_app in HQ as [HQ Hz]. rewrite Forall_singleton in Hz. right. split; [done|].
      by exists l1, y, l2.
  - intros [HP|[HQ (l1 & y & l2 & -> & HP & Hl)]].
    + exists l, x, []. by split_and!.
    + exists l1, y, (l2 ++ [x]). rewrite <- app_assoc. split_and!; [done|done|].
      by rewrite Forall_app, Forall_singleton.
Qed.

Lemma analyzeStep_eq c i en :
  analyzeStep (c, i) en =
  if bool_decide (e_OpType en = OpCommit) then ({[e_TxID en]} ∪ c, i ∖ {[e_TxID en]})
  else if bool_decide (e_OpType en = OpAbort) then (c ∖ {[e_TxID en]}, i ∖ {[e_TxID en]})
  else if negb (e_TxID en =? 0) && negb (bool_decide (e_TxID en ∈ c))
       then (c, {[e_TxID en]} ∪ i) else (c, i).
Proof. unfold analyzeStep. by destruct (e_OpType en). Qed.

Lemma committedIn_snoc tx es en :
  committedIn tx (es ++ [en]) ↔ isCommit tx en ∨ ¬ isAbort tx en ∧ committedIn tx es.
Proof. exact (split_snoc (λ _, isCommit tx) (λ x, ¬ isAbort tx x) es en). Qed.

Lemma openIn_snoc tx es en :
  openIn tx (es ++ [en]) ↔
  (isData tx en ∧ tx ≠ 0 ∧ ¬ committedIn tx es) ∨
  (¬ isCommit tx en ∧ ¬ isAbort tx en) ∧ openIn tx es.
Proof.
  exact (split_snoc (λ l x, isData tx x ∧ tx ≠ 0 ∧ ¬ committedIn tx l)
    (λ x, ¬ isCommit tx x ∧ ¬ isAbort tx x) es en).
Qed.

Lemma analyze_spec es tx :
  (tx ∈ (foldl analyzeStep (∅, ∅) es).1 ↔ committedIn tx es) ∧
  (tx ∈ (foldl analyzeStep (∅, ∅) es).2 ↔ openIn tx es).
Proof.
  induction es as [|en es IH] using rev_ind.
  { cbn. split; split; [set_solver| |set_solver|]; intros (l1 & ? & l2 & E & _); by destruct l1. }
  rewrite foldl_snoc. destruct (foldl analyzeStep (∅, ∅) es) as [c i]. destruct IH as [IHc IHi]. cbn [fst snd] in IHc, IHi.
  rewrite analyzeStep_eq, committedIn_snoc, openIn_snoc, <- IHc, <- IHi.
  unfold isCommit, isAbort, isData.
  case_bool_decide as Hc; [|case_bool_decide as Ha].
  - rewrite Hc. cbn [fst snd]. split; [clear IHc IHi; set_solver|]. rewrite elem_of_difference, not_elem_of_singleton.
    split; [intros [??]; right; split; [split; [by intros [_ ?]|by intros [? _]]|done]|].
    intros [[[? _] _]|[[Hn _] ?]]; [done|]. split; [done|]. intros ->. by apply Hn.
  - rewrite Ha. cbn [fst snd]. split.
    + rewrite elem_of_difference, not_elem_of_singleton. split.
      * intros [? Hn]. right. split; [|done]. intros [_ <-]. done.
      * intros [[? _]|[Hn ?]]; [done|]. split; [done|]. intros ->. by apply Hn.
    + rewrite elem_of_difference, not_elem_of_singleton. split.
      * intros [? Hn]. right. split; [|done]. split; [by intros [? _]|]. intros [_ <-]. done.
      * intros [[[_ [? _]] _]|[[_ Hn] ?]]; [done|]. split; [done|]. intros ->. by apply Hn.
  - assert (∀ A B : Prop, (e_OpType en = OpCommit ∧ A ∨ ¬ (e_OpType en = OpAbort ∧ B) ∧ tx ∈ c) ↔ tx ∈ c)
      as Hcc by (intros; split; [by intros [[??]|[_ ?]]|intros ?; right; split; [by intros [? _]|done]]).
    destruct (Z.eqb_spec (e_TxID en) 0) as [E0|E0]; cbn [negb andb fst snd].
    { split; [symmetry; apply Hcc|]. split; [intros ?; right; split; [split; by intros [? _]|done]|].
      intros [[[_ [_ <-]] [? _]]|[_ ?]]; done. }
    case_bool_decide as Hin; cbn [negb fst snd].
    + split; [symmetry; apply Hcc|]. split; [intros ?; right; split; [split; by intros [? _]|done]|].
      intros [[[_ [_ <-]] [_ Hn]]|[_ ?]]; [|done]. by destruct Hn.
    + split; [symmetry; apply Hcc|]. rewrite elem_of_union, elem_of_singleton. split.
      * intros [->|?]; [left; by split_and!|]. right. split; [split; by intros [? _]|done].
      * intros [[[_ [_ <-]] _]|[_ ?]]; [by left|by right].
Qed.

Lemma analyze_disjoint es :
  (foldl analyzeStep (∅, ∅) es).1 ## (foldl analyzeStep (∅, ∅) es).2.
Proof.
  induction es as [|en es IH] using rev_ind; [cbn; set_solver|].
  rewrite foldl_snoc. destruct (foldl analyzeStep (∅, ∅) es) as [c i]. cbn in IH.
  rewrite analyzeStep_eq. repeat case_bool_decide; try destruct (_ =? _); cbn in *; set_solver.
Qed.

Lemma entriesPlain `{AEAD} ops w w' att : runAppends ops w = (w', att) → Forall (λ en, e_Encrypted en = false) att.*1.
Proof.
  revert w w' att. induction ops as [|[[io rnd] a] ops IH]; intros w w' att E; cbn in E.
  { by injection E as <- <-. }
  destruct (stepAppend io rnd a w) as [w1 o]. destruct (runAppends ops w1) as [w2 l] eqn:El.
  injection E as <- <-. constructor; [by destruct a|by eapply IH].
Qed.

Lemma stopsAt_true {other} (unmarshal : payloadKind → bytes → option (payload other)) target en :
  stopsAt unmarshal target en = true ↔
  e_OpType en = OpCommit ∧ ∃ cp, DecodeWALPayload unmarshal (e_Payload en) OpCommit = Ok (Some (PCommit cp)) ∧
    target ≤ co_Timestamp cp.
Proof.
  unfold stopsAt. destruct (decide (e_OpType en = OpCommit)) as [Ec|Ec].
  - rewrite Ec. split.
    + destruct (DecodeWALPayload unmarshal (e_Payload en) OpCommit) as [[[]|]| |]; try done.
      intros ?%Z.leb_le. split; [done|]. by eexists.
    + intros (_ & cp & -> & ?). by apply Z.leb_le.
  - split; [|by intros [? _]]. by destruct (e_OpType en).
Qed.

Lemma upTo_split {other} (unmarshal : payloadKind → bytes → option (payload other)) target es l s m :
  upTo unmarshal target es = (l, s, m) →
  Forall (λ en, stopsAt unmarshal target en = false) l ∧
  (s = false ∧ l = es ∨ s = true ∧ ∃ en rest, es = l ++ en :: rest ∧ stopsAt unmarshal target en = true).
Proof.
  revert l s m. induction es as [|en es IH]; intros l s m; cbn [upTo].
  { intros [= <- <- <-]. split; [constructor|by left]. }
  destruct (stopsAt unmarshal target en) eqn:Es.
  { intros [= <- <- <-]. split; [constructor|]. right. split; [done|]. by exists en, es. }
  destruct (upTo unmarshal target es) as [[l' s'] m']. intros [= <- <- <-].
  destruct (IH _ _ _ eq_refl) as [Hl Hs]. split; [by constructor|].
  destruct Hs as [[-> ->]|(-> & en' & rest & -> & ?)]; [by left|].
  right. split; [done|]. by exists en', rest.
Qed.

(** A segment that reads without error as [es]. *)
Definition segmentOf `{AEAD} (e : option EncryptionManager) (d : option TDEEngine) (data : bytes)
    (es : list Entry) : Prop :=
  ∃ r err, readAll (S (length data)) e d data = (es, r, Some err) ∧ isEOF err = true.

Lemma restoreFiles_prefix `{AEAD} {other} (unmarshal : payloadKind → bytes → option (payload other))
    target e d files ess :
  Forall2 (segmentOf e d) files ess →
  ∃ l m, restoreFiles unmarshal target e d files = Ok (l, m) ∧
    Forall (λ en, stopsAt unmarshal target en = false) l ∧
    (l = concat ess ∨ ∃ en rest, concat ess = l ++ en :: rest ∧ stopsAt unmarshal target en = true).
Proof.
  induction 1 as [|data es files ess (r & err & Er & Heof) _ (l' & m' & IH & IH1 & IH2)];
    cbn [restoreFiles concat]; [exists [], 0; split_and!; [done|constructor|by left]|].
  unfold readEntriesUpTo. rewrite Er. destruct (upTo unmarshal target es) as [[l s] m] eqn:E.
  apply upTo_split in E as [Hl [[-> ->]|(-> & en & rest & -> & Hen)]].
  - rewrite Heof, IH. cbn. eexists _, _. split_and!; [done|by apply Forall_app|].
    destruct IH2 as [->|(en & rest & -> & ?)]; [by left|]. right. exists en, rest. by rewrite <- app_assoc.
  - cbn. eexists _, _. split_and!; [done|done|]. right. exists en, (rest ++ concat ess). by rewrite <- app_assoc.
Qed.

(** ** Properties *)

(** C5: Appends under any I/O faults lose nothing that was acknowledged.  Each
    append may meet a short write, a failing write, sync, seek or truncate.
    Reopening the file and recovering it with the same keys gives the entries
    it held before, followed by every acknowledged entry in order; what else
    appears is an attempted entry whose append reported an error, never a
    mangled one. *)
Theorem appends_survive_faults `{AEAD} (ops : list (ioEnv * option bytes * appendOp))
    (w w' : WAL) (recs : list bytes) (es : list Entry) (att : list (Entry * bool)) (io : ioEnv) :
  holdsLog w recs → canDecrypt (em w) (tde w) (em w) (tde w) →
  Forall2 (readsBoth (em w) (tde w)) recs es → Forall (λ en, e_Encrypted en = false) es →
  Forall (λ '(_, rnd, a), rndOk rnd ∧ appendOk a) ops →
  runAppends ops w = (w', att) → io_truncate io = true →
  ∃ f w1 w2 kept, file w' = Some f ∧ OpenWAL io (content f) = Ok w1 ∧
    Recover (setKeys (em w) (tde w) w1) = (w2, Ok (es ++ kept)) ∧
    acknowledged att `sublist_of` kept ∧ kept `sublist_of` att.*1 ∧
    nextTxID w2 = maxTxIDOf (es ++ kept).
Proof.
  intros Hh Hcd Hf Henc Hops E Hio.
  destruct (runAppends_spec _ _ _ _ _ _ Hh Hcd Hf Hops E) as ((He & Hd) & recs' & kept & Hh' & Hf' & Hs1 & Hs2).
  rewrite <- He, <- Hd in Hf'.
  destruct (reopen_spec w' recs' (es ++ kept) io) as (f & w1 & w2 & H1 & H2 & _ & _ & H3 & H4 & _); [done..| |].
  - apply Forall_app. split; [done|]. apply entriesPlain in E. apply Forall_forall. intros en Hin.
    rewrite Forall_forall in E. by apply E, (elem_of_sublist _ _ _ Hin Hs2).
  - exists f, w1, w2, kept. rewrite <- He, <- Hd. by split_and!.
Qed.

Definition emptyWAL : WAL := mkWAL (Some (mkFile [] 0)) 0 0 64 None None 0 0 false.

Definition faultyOps : list (ioEnv * option bytes * appendOp) :=
  [(mkIO 100 false true true true true, None, ANext Byte.x20 [Byte.x01]);
   (mkIO 7 false true true true true, None, ANext Byte.x20 [Byte.x02]);
   (mkIO 100 false true true true true, None, ATx 9 Byte.x70 [Byte.x03]);
   (mkIO 5 true true false true true, None, ANext Byte.x20 [Byte.x04]);
   (mkIO 100 false true true true true, None, ANext Byte.x20 [Byte.x05])].

Lemma appends_survive_faults_witness :
  acknowledged (runAppends (H := plainAEAD) faultyOps emptyWAL).2 =
    [mkEntry 1 Byte.x20 [Byte.x01] false; mkEntry 9 Byte.x70 [Byte.x03] false] ∧
  ∃ f w1 w2 kept, file (runAppends (H := plainAEAD) faultyOps emptyWAL).1 = Some f ∧
    OpenWAL (H := plainAEAD) (io_ok []) (content f) = Ok w1 ∧
    Recover (H := plainAEAD) (setKeys None None w1) = (w2, Ok ([] ++ kept)) ∧
    acknowledged (runAppends (H := plainAEAD) faultyOps emptyWAL).2 `sublist_of` kept ∧
    kept `sublist_of` (runAppends (H := plainAEAD) faultyOps emptyWAL).2.*1 ∧
    nextTxID w2 = maxTxIDOf ([] ++ kept).
Proof.
  split; [vm_compute; reflexivity|].
  apply (appends_survive_faults (H := plainAEAD) faultyOps emptyWAL
    (runAppends (H := plainAEAD) faultyOps emptyWAL).1 [] []
    (runAppends (H := plainAEAD) faultyOps emptyWAL).2 (io_ok [])).
  - exists (mkFile [] 0), []. split; [reflexivity|]. split; [reflexivity|].
    split; [|split; reflexivity]. intros e d. exists [], ErrEOF. split; reflexivity.
  - exact I.
  - constructor.
  - constructor.
  - apply Forall_forall. intros [[io rnd] a] Hin.
    assert (rnd = None ∧ match a with ATx t _ p => t = 9 ∧ length p = 1%nat | ANext _ p => length p = 1%nat end)
      as [-> Ha].
    { unfold faultyOps in Hin. rewrite !elem_of_cons, elem_of_nil in Hin.
      decompose [or] Hin; simplify_eq; by split. }
    split; [intros n [=]|]. destruct a as [t op p|op p]; cbn [appendOk]; unfold blen.
    + destruct Ha as [-> ->]. split; [lia|]. vm_compute. discriminate.
    + rewrite Ha. vm_compute. discriminate.
  - apply surjective_pairing.
  - reflexivity.
Defined.

(** C7: A crash in the middle of an append costs at most that record: whatever
    prefix of it reached the file, reopening cuts exactly the torn bytes, and
    recovery returns every earlier entry; the next append starts at the end of
    the last complete record. *)
Theorem crash_mid_append `{AEAD} (w : WAL) (recs : list bytes) (es : list Entry) (io : ioEnv)
    (txID : Z) (op : byte) (payload : bytes) (rnd : option bytes) (rec : bytes) (k : nat) :
  Forall2 (readsBoth (em w) (tde w)) recs es → Forall (λ en, e_Encrypted en = false) es →
  0 ≤ txID < 2 ^ 64 → blen payload + 16 ≤ maxPayloadSize → rndOk rnd →
  canDecrypt (em w) (tde w) (em w) (tde w) →
  buildRecord txID op payload (em w) (tde w) rnd = Ok rec → (k < length rec)%nat →
  io_truncate io = true →
  ∃ w1 w2, OpenWAL io (concat recs ++ take k rec) = Ok w1 ∧
    file w1 = Some (mkFile (concat recs) (blen (concat recs))) ∧ nextTxID w1 = maxTxIDOf es ∧
    Recover (setKeys (em w) (tde w) w1) = (w2, Ok es) ∧ file w2 = file w1.
Proof.
  intros Hf Henc Ht Hl Hr Hcd Hb Hk Hio.
  pose proof (goodRecord_build _ _ _ _ _ _ _ Ht Hl Hr Hcd Hb) as [_ Htorn].
  destruct (readsBoth_plain _ _ _ _ Hf) as (Hr1 & es' & Hr2 & Hmap).
  pose proof (records_count _ _ _ _ Hr1) as Hcount.
  assert (scanAndTruncate io (concat recs ++ take k rec) = Ok (maxTxIDOf es, concat recs)) as Hsc.
  { unfold scanAndTruncate.
    rewrite (scan_records None None _ _ _ recs es' (take k rec) 0); [|done|by apply Htorn| |done].
    - rewrite Z.add_0_l, blen_app, Hio, (maxTxIDOf_map es' es Hmap), truncateTo_app.
      destruct (Z.ltb_spec (blen (concat recs)) (blen (concat recs) + blen (take k rec))) as [?|Hge]; [done|].
      pose proof (blen_nonneg (take k rec)). destruct (take k rec) as [|b l]; [by rewrite app_nil_r|].
      unfold blen in *. cbn in *. lia.
    - rewrite length_app. lia. }
  unfold OpenWAL. rewrite Hsc. cbn [mbind outcome_bind]. eexists _, _.
  split_and!; [done|done|done| |].
  - unfold Recover, setKeys. cbn [file content em tde nextTxID].
    rewrite <- (app_nil_r (concat recs)) at 3.
    rewrite (scan_records _ _ _ _ _ recs es []); [|done|apply torn_nil|lia|done].
    rewrite Z.ltb_irrefl. done.
  - done.
Qed.

Lemma crash_mid_append_witness :
  ∃ recs rec w1 w2,
    buildRecord (H := plainAEAD) 1 Byte.x20 [Byte.x01] None None None = Ok recs ∧
    buildRecord (H := plainAEAD) 2 Byte.x70 [Byte.x02] None None None = Ok rec ∧
    OpenWAL (H := plainAEAD) (io_ok []) (concat [recs] ++ take 20 rec) = Ok w1 ∧
    file w1 = Some (mkFile (concat [recs]) (blen (concat [recs]))) ∧
    nextTxID w1 = maxTxIDOf [mkEntry 1 Byte.x20 [Byte.x01] false] ∧
    Recover (H := plainAEAD) (setKeys None None w1) = (w2, Ok [mkEntry 1 Byte.x20 [Byte.x01] false]) ∧
    file w2 = file w1.
Proof.
  destruct (buildRecord (H := plainAEAD) 1 Byte.x20 [Byte.x01] None None None) as [r1| |] eqn:E1;
    [|vm_compute in E1; discriminate..].
  destruct (buildRecord (H := plainAEAD) 2 Byte.x70 [Byte.x02] None None None) as [r2| |] eqn:E2;
    [|vm_compute in E2; discriminate..].
  assert ((20 < length r2)%nat) as Hl.
  { revert E2. generalize r2. intros r E2. vm_compute in E2. injection E2 as <-. cbn. lia. }
  destruct (crash_mid_append (H := plainAEAD) emptyWAL [r1] [mkEntry 1 Byte.x20 [Byte.x01] false] (io_ok [])
    2 Byte.x70 [Byte.x02] None r2 20) as (w1 & w2 & Hw).
  - constructor; [|constructor].
    refine (proj1 (goodRecord_build (H := plainAEAD) 1 Byte.x20 [Byte.x01] None r1 None None _ _ _ I E1));
      [lia|vm_compute; discriminate|discriminate].
  - constructor; [reflexivity|constructor].
  - lia.
  - vm_compute. discriminate.
  - discriminate.
  - exact I.
  - exact E2.
  - exact Hl.
  - reflexivity.
  - exists r1, r2, w1, w2. split; [reflexivity|]. split; [reflexivity|exact Hw].
Defined.

(** The outcomes of a scan: entries, or the one error of the strict scan. *)
Lemma scan_outcome `{AEAD} fuel strict e d data r pos :
  (∃ es p, scan fuel strict e d data r pos = Ok (es, p)) ∨
  strict = true ∧ ∃ p, scan fuel strict e d data r pos = Err (ErrNoDecryptor, p).
Proof.
  revert r pos. induction fuel as [|fuel IH]; intros r pos; cbn [scan]; [left; by eexists _, _|].
  assert (∀ en r' pos',
    let o := (if strict && e_Encrypted en && bool_decide (e = None) && bool_decide (d = None)
              then Err (ErrNoDecryptor, blen data - blen r')
              else '(es, last) ← scan fuel strict e d data r' pos'; Ok (en :: es, last)) in
    (∃ es p, o = Ok (es, p)) ∨ strict = true ∧ ∃ p, o = Err (ErrNoDecryptor, p)) as Hkeep.
  { intros en r' pos'. destruct strict; cbn [andb].
    - destruct (_ && _); [right; split; [done|by eexists]|].
      destruct (IH r' pos') as [(es & p & ->)|(_ & p & ->)]; [left; by eexists _, _|right; split; [done|by eexists]].
    - destruct (IH r' pos') as [(es & p & ->)|[? _]]; [left; by eexists _, _|done]. }
  pose proof (readEntryFrom_no_panic e d r) as Hnp.
  destruct (readEntryFrom e d r) as [r' [[en size]|err|]]; [apply Hkeep| |done].
  destruct (isEOF err); [left; by eexists _, _|].
  destruct (resync _ _ _ _) as [[[[left' en] size] r2]|]; [apply Hkeep|left; by eexists _, _].
Qed.

(** C21: Opening and recovering end on every file content, however damaged, and
    do not panic: each round of the scan consumes a byte, so one round per byte
    and one more is as good as any larger number; [Open] accepts every content,
    and [Recover] on an open log gives entries or reports encrypted records it
    has no key for. *)
Theorem scan_total `{AEAD} (data : bytes) (io : ioEnv) (w : WAL) :
  (∀ strict e d fuel, (length data < fuel)%nat →
     scan fuel strict e d data data 0 = scan (S (length data)) strict e d data data 0) ∧
  (∃ w1, OpenWAL io data = Ok w1) ∧
  (snd (Recover w) = Err ErrWALClosed ∧ file w = None ∨
   snd (Recover w) = Err ErrNoDecryptor ∨ ∃ es, snd (Recover w) = Ok es).
Proof.
  split_and!.
  - intros strict e d fuel Hf. apply (scan_fuel e d fuel _ strict data [] data); [done|done|lia].
  - unfold OpenWAL, scanAndTruncate.
    destruct (scan_outcome (S (length data)) false None None data data 0) as [(es & p & ->)|[? _]]; [|done].
    by eexists.
  - unfold Recover. destruct (file w) as [f|]; [right|by left].
    destruct (scan_outcome (S (length (content f))) true (em w) (tde w) (content f) (content f) 0)
      as [(es & p & ->)|(_ & p & ->)]; [right; by eexists|by left].
Qed.

(** C25: The analysis of a log classifies every transaction id: it is committed
    exactly when a commit record of it has no abort record behind it, and it is
    to be undone exactly when some data record of it, logged while it was not
    committed, has no commit or abort record behind it; no transaction is both. *)
Theorem AnalyzeTransactions_spec `{AEAD} (w : WAL) (recs : list bytes) (es : list Entry) :
  holdsLog w recs → Forall2 (reads (em w) (tde w)) recs es →
  ∃ w' committed inProgress, AnalyzeTransactions w = (w', Ok (committed, inProgress)) ∧
    (∀ tx, (tx ∈ committed ↔ committedIn tx es) ∧ (tx ∈ inProgress ↔ openIn tx es)) ∧
    committed ## inProgress.
Proof.
  intros (f & t & Hf & Hc & Ht & _) Hr. unfold AnalyzeTransactions. rewrite Hf, Hc.
  pose proof (records_count _ _ _ _ Hr) as Hcount.
  destruct (readAll_records (em w) (tde w) (S (length (concat recs ++ t))) recs es t) as (r & err & -> & _);
    [done|done|rewrite length_app; lia|].
  destruct (foldl analyzeStep (∅, ∅) es) as [c i] eqn:E. eexists _, c, i. split_and!; [done| |].
  - intros tx. pose proof (analyze_spec es tx) as Ha. by rewrite E in Ha.
  - pose proof (analyze_disjoint es) as Ha. by rewrite E in Ha.
Qed.

Lemma AnalyzeTransactions_spec_witness :
  ∃ w recs w' committed inProgress,
    AnalyzeTransactions (H := plainAEAD) w = (w', Ok (committed, inProgress)) ∧
    file w = Some (mkFile (concat recs) (blen (concat recs))) ∧
    (∀ tx, (tx ∈ committed ↔ committedIn tx [mkEntry 4 Byte.x20 [Byte.x01] false]) ∧
           (tx ∈ inProgress ↔ openIn tx [mkEntry 4 Byte.x20 [Byte.x01] false])) ∧
    committed ## inProgress.
Proof.
  destruct (buildRecord (H := plainAEAD) 4 Byte.x20 [Byte.x01] None None None) as [r1| |] eqn:E1;
    [|vm_compute in E1; discriminate..].
  set (w := mkWAL (Some (mkFile (concat [r1]) (blen (concat [r1])))) 0 0 64 None None 0 0 false).
  destruct (AnalyzeTransactions_spec (H := plainAEAD) w [r1] [mkEntry 4 Byte.x20 [Byte.x01] false])
    as (w' & c & i & Hw & Hspec & Hdis).
  - eexists _, []. split; [reflexivity|]. split; [symmetry; apply app_nil_r|].
    split; [|intros _; split; reflexivity]. intros e d. exists [], ErrEOF. split; reflexivity.
  - constructor; [|constructor].
    refine (proj1 (proj1 (goodRecord_build (H := plainAEAD) 4 Byte.x20 [Byte.x01] None r1 None None _ _ _ I E1)));
      [lia|vm_compute; discriminate|discriminate].
  - exists w, [r1], w', c, i. split; [exact Hw|]. split; [reflexivity|]. split; [exact Hspec|exact Hdis].
Defined.

(** [RestoreAsOf] returns the entries of the segments, in order, up to the
    first commit whose timestamp reaches the target: none of the returned
    commits does, and either everything is returned or the entry behind is such
    a commit. *)
Theorem RestoreAsOf_prefix `{AEAD} {other : Type} (unmarshal : payloadKind → bytes → option (payload other))
    (target : Z) (w : WAL) (files : list bytes) (ess : list (list Entry)) :
  Forall2 (segmentOf (em w) (tde w)) files ess →
  ∃ w' l, RestoreAsOf unmarshal target files w = (w', Ok l) ∧
    (∀ en cp, en ∈ l → e_OpType en = OpCommit →
       DecodeWALPayload unmarshal (e_Payload en) OpCommit = Ok (Some (PCommit cp)) →
       co_Timestamp cp < target) ∧
    (l = concat ess ∨ ∃ en rest cp, concat ess = l ++ en :: rest ∧ e_OpType en = OpCommit ∧
       DecodeWALPayload unmarshal (e_Payload en) OpCommit = Ok (Some (PCommit cp)) ∧
       target ≤ co_Timestamp cp).
Proof.
  intros Hf. destruct (restoreFiles_prefix unmarshal target _ _ _ _ Hf) as (l & m & E & Hl & Hs).
  unfold RestoreAsOf. rewrite E. eexists _, l. split_and!; [done| |].
  - intros en cp Hin Hop Hd. rewrite Forall_forall in Hl. specialize (Hl en Hin).
    destruct (Z.lt_ge_cases (co_Timestamp cp) target) as [?|Hge]; [done|].
    assert (stopsAt unmarshal target en = true) by (apply stopsAt_true; split; [done|by exists cp]). congruence.
  - destruct Hs as [->|(en & rest & El & Hs)]; [by left|]. right.
    apply stopsAt_true in Hs as (Hop & cp & Hd & Hle). by exists en, rest, cp.
Qed.

(** A segment with a commit at time 5 and one at time 9. *)
Definition commitSegment : bytes :=
  match buildRecord (H := plainAEAD) 1 OpCommit (encodeCommitBinary (mkCommit 5)) None None None,
        buildRecord (H := plainAEAD) 2 OpCommit (encodeCommitBinary (mkCommit 9)) None None None with
  | Ok a, Ok b => a ++ b
  | _, _ => []
  end.

Lemma RestoreAsOf_prefix_witness :
  let es := [mkEntry 1 OpCommit (encodeCommitBinary (mkCommit 5)) false;
             mkEntry 2 OpCommit (encodeCommitBinary (mkCommit 9)) false] in
  let unmarshal := λ (_ : payloadKind) (_ : bytes), @None (payload unit) in
  ∃ w' l, RestoreAsOf (H := plainAEAD) unmarshal 7 [commitSegment] emptyWAL = (w', Ok l) ∧
    (∀ en cp, en ∈ l → e_OpType en = OpCommit →
       DecodeWALPayload unmarshal (e_Payload en) OpCommit = Ok (Some (PCommit cp)) → co_Timestamp cp < 7) ∧
    (l = concat [es] ∨ ∃ en rest cp, concat [es] = l ++ en :: rest ∧ e_OpType en = OpCommit ∧
       DecodeWALPayload unmarshal (e_Payload en) OpCommit = Ok (Some (PCommit cp)) ∧ 7 ≤ co_Timestamp cp).
Proof.
  intros es unmarshal.
  apply (RestoreAsOf_prefix (H := plainAEAD) unmarshal 7 emptyWAL [commitSegment] [es]).
  constructor; [|constructor]. exists [], ErrEOF. split; [vm_compute; reflexivity|reflexivity].
Defined.

(** ** What damaged logs show *)

(** The records of three one-byte payloads. *)
Definition sampleRecord (txID : Z) : bytes :=
  match buildRecord (H := plainAEAD) txID Byte.x20 [Byte.x07] None None None with Ok r => r | _ => [] end.

Definition openedEntries (data : bytes) : Z * Z :=
  match OpenWAL (H := plainAEAD) (io_ok []) data with
  | Ok w => (nextTxID w, match file w with Some f => blen (content f) | None => -1 end)
  | _ => (-1, -1)
  end.

(** One damaged byte in the length field of a record in the middle (its high
    byte, here) makes the read run past the end of the file, which the scan
    takes for a torn tail: [Open] drops the two intact records behind it. *)
Example damaged_length_drops_the_rest :
  let data := concat (sampleRecord <$> [1; 2; 3; 4]) in
  openedEntries data = (4, 156) ∧
  openedEntries (splice (39 + 31) [Byte.xff] data) = (1, 39) ∧
  openedEntries (splice (39 + 34) [Byte.xff] data) = (4, 156).
Proof. vm_compute. by split_and!. Qed.

(** The search for the next magic reads three bytes after each 'V' and does
    not step back when they do not match: a stray 'V' right before a record
    hides it. *)
Example resync_skips_a_record :
  let bad := splice 34 [Byte.xff] (sampleRecord 1) in
  openedEntries (bad ++ [Byte.x00] ++ sampleRecord 2) = (2, 79) ∧
  openedEntries (bad ++ [Byte.x56] ++ sampleRecord 2) = (0, 0).
Proof. vm_compute. by split_and!. Qed.

(** Commit records whose payload carries no later timestamp never stop a
    restore, whatever the target. *)
Lemma restore_without_timestamps `{AEAD} {other} (unmarshal : payloadKind → bytes → option (payload other))
    target e d files ess :
  Forall2 (segmentOf e d) files ess →
  (∀ en cp, en ∈ concat ess → e_OpType en = OpCommit →
     DecodeWALPayload unmarshal (e_Payload en) OpCommit = Ok (Some (PCommit cp)) → co_Timestamp cp = 0) →
  0 < target → ∃ m, restoreFiles unmarshal target e d files = Ok (concat ess, m).
Proof.
  intros Hf Hts Hpos. destruct (restoreFiles_prefix unmarshal target e d files ess Hf)
    as (l & m & E & _ & [->|(en & rest & El & Hs)]); [by exists m|].
  apply stopsAt_true in Hs as (Hop & cp & Hd & Hle).
  rewrite (Hts en cp) in Hle; [lia| |done|done]. rewrite El. set_solver.
Qed.
