(* ===== verification/TxManager.v ===== *)
(** * Transactions

    [server/internal/core/txmanager]: the operation buffer of a transaction
    with its spill file and savepoints, the manager with table versions and
    optimistic commit, SIREAD locks, conflict flags and the undo of DDL. *)

From Stdlib Require Import Ascii.
From stdpp Require Import pretty.
From S2P Require Import Prelude Bytes.

(** ** Conflict flags and predicate locks *)

Record SSITracker : Type := mkSSI { InConflict : gmap Z bool; OutConflict : gmap Z bool }.

Definition NewSSITracker : SSITracker := mkSSI ∅ ∅.

Definition RecordRWConflict (readerTxID writerTxID : Z) (t : SSITracker) : SSITracker :=
  mkSSI (<[writerTxID := true]> (InConflict t)) (<[readerTxID := true]> (OutConflict t)).

Definition HasCycle (txID : Z) (t : SSITracker) : bool :=
  default false (InConflict t !! txID) && default false (OutConflict t !! txID).

Inductive LockGranularity : Type := TupleGranularity | PageGranularity | RelationGranularity.

Record PredicateLock : Type := mkPredicateLock {
  pl_TxID : Z; pl_Granularity : LockGranularity; pl_DBName : string; pl_TableName : string;
  pl_PageID : Z; pl_TupleID : Z }.

Definition AcquireSIREADLock (txID : Z) (lock : PredicateLock) (locks : list PredicateLock)
    : list PredicateLock :=
  locks ++ [mkPredicateLock txID (pl_Granularity lock) (pl_DBName lock) (pl_TableName lock)
              (pl_PageID lock) (pl_TupleID lock)].

Fixpoint CheckConflict (txID : Z) (dbName tableName : string) (pageID tupleID : Z)
    (locks : list PredicateLock) : bool :=
  match locks with
  | [] => false
  | lock :: locks =>
      let rest := CheckConflict txID dbName tableName pageID tupleID locks in
      if pl_TxID lock =? txID then rest
      else if negb (bool_decide (pl_DBName lock = dbName)) || negb (bool_decide (pl_TableName lock = tableName))
      then rest
      else match pl_Granularity lock with
           | RelationGranularity => true
           | PageGranularity => if pl_PageID lock =? pageID then true else rest
           | TupleGranularity =>
               if (pl_PageID lock =? pageID) && (pl_TupleID lock =? tupleID) then true else rest
           end
  end.

(** ** Undo of DDL *)

Inductive DDLOpType : Type := OpCreateTable | OpDropTable | OpAlterTable | OpOtherDDL (s : string).

Record DDLUndoOp : Type := mkDDLUndo {
  du_Type : DDLOpType; du_DBName : string; du_TableName : string; du_OldSchema : list byte }.

(** The interface [Catalog]: operations on a catalog state that may fail. *)
Class Catalog (K : Type) : Type := {
  DropTable : string → string → K → K * bool;
  CreateTable : string → string → list byte → K → K * bool;
  AlterTable : string → string → list byte → K → K * bool }.

(** A value passed as [interface{}]: with or without the methods of [Catalog]. *)
Inductive anyCatalog {K : Type} : Type := IsCatalog (k : K) | NotCatalog (k : K).
Arguments anyCatalog : clear implicits.

(** The flag is "no error". *)
Definition RevertDDLOp `{Catalog K} (op : DDLUndoOp) (catalog : anyCatalog K) : anyCatalog K * bool :=
  match catalog with
  | NotCatalog _ => (catalog, false)
  | IsCatalog cat =>
      let '(cat, ok) :=
        match du_Type op with
        | OpCreateTable => DropTable (du_DBName op) (du_TableName op) cat
        | OpDropTable =>
            if bool_decide (du_OldSchema op = []) then (cat, false)
            else CreateTable (du_DBName op) (du_TableName op) (du_OldSchema op) cat
        | OpAlterTable =>
            if bool_decide (du_OldSchema op = []) then (cat, false)
            else AlterTable (du_DBName op) (du_TableName op) (du_OldSchema op) cat
        | OpOtherDDL _ => (cat, false)
        end in
      (IsCatalog cat, ok)
  end.

(** ** Operations and transactions *)

(** A payload is a DDL undo record, the map JSON decoding makes of one, or
    anything else. *)
Inductive Payload {V : Type} : Type :=
| PayloadDDL (op : DDLUndoOp)
| PayloadMap (m : V)
| PayloadOther (v : V).
Arguments Payload : clear implicits.

Record PendingOp {V : Type} : Type := mkOp {
  op_Type : string; op_DB : string; op_Table : string; op_Payload : Payload V;
  op_OldRow : V; op_Row : V; op_Pos : Z; op_RowKey : string; op_TupleID : Z }.
Arguments PendingOp : clear implicits.

#[export] Instance DDLOpType_eq_dec : EqDecision DDLOpType.
Proof. solve_decision. Defined.
#[export] Instance DDLUndoOp_eq_dec : EqDecision DDLUndoOp.
Proof. solve_decision. Defined.
#[export] Instance Payload_eq_dec `{EqDecision V} : EqDecision (Payload V).
Proof. solve_decision. Defined.
#[export] Instance PendingOp_eq_dec `{EqDecision V} : EqDecision (PendingOp V).
Proof. solve_decision. Defined.

Inductive TxState : Type := TxIdle | TxActive.

Record Transaction {V : Type} : Type := mkTx {
  ID : Z; State : TxState; Ops : list (PendingOp V);
  TableSnapshots : gmap string Z; Snapshot : gset Z;
  HasDependentReads : bool; ReadSet : gmap string (gmap Z Z);
  opCounter : Z; savepoints : gmap string Z; savepointOrder : list string;
  spilled : bool; spillPath : string; spillDir : string; spillErr : bool }.
Arguments Transaction : clear implicits.

Definition set_Ops {V} l (t : Transaction V) : Transaction V :=
  mkTx V (ID t) (State t) l (TableSnapshots t) (Snapshot t) (HasDependentReads t) (ReadSet t)
    (opCounter t) (savepoints t) (savepointOrder t) (spilled t) (spillPath t) (spillDir t) (spillErr t).
Definition set_TableSnapshots {V} m (t : Transaction V) : Transaction V :=
  mkTx V (ID t) (State t) (Ops t) m (Snapshot t) (HasDependentReads t) (ReadSet t)
    (opCounter t) (savepoints t) (savepointOrder t) (spilled t) (spillPath t) (spillDir t) (spillErr t).
Definition set_reads {V} b rs (t : Transaction V) : Transaction V :=
  mkTx V (ID t) (State t) (Ops t) (TableSnapshots t) (Snapshot t) b rs
    (opCounter t) (savepoints t) (savepointOrder t) (spilled t) (spillPath t) (spillDir t) (spillErr t).
Definition set_opCounter {V} n (t : Transaction V) : Transaction V :=
  mkTx V (ID t) (State t) (Ops t) (TableSnapshots t) (Snapshot t) (HasDependentReads t) (ReadSet t)
    n (savepoints t) (savepointOrder t) (spilled t) (spillPath t) (spillDir t) (spillErr t).
Definition set_savepoints {V} m o (t : Transaction V) : Transaction V :=
  mkTx V (ID t) (State t) (Ops t) (TableSnapshots t) (Snapshot t) (HasDependentReads t) (ReadSet t)
    (opCounter t) m o (spilled t) (spillPath t) (spillDir t) (spillErr t).
Definition set_spilled {V} b p (t : Transaction V) : Transaction V :=
  mkTx V (ID t) (State t) (Ops t) (TableSnapshots t) (Snapshot t) (HasDependentReads t) (ReadSet t)
    (opCounter t) (savepoints t) (savepointOrder t) b p (spillDir t) (spillErr t).
Definition set_spillErr {V} b (t : Transaction V) : Transaction V :=
  mkTx V (ID t) (State t) (Ops t) (TableSnapshots t) (Snapshot t) (HasDependentReads t) (ReadSet t)
    (opCounter t) (savepoints t) (savepointOrder t) (spilled t) (spillPath t) (spillDir t) b.

Inductive tx_error : Type :=
| ErrSpill | ErrOpenSpill | ErrDecodeSpill | ErrReadSpill
| ErrNoSavepoint (name : string)
| ErrTxConflict
| ErrTableModified (table : string) (snapshotVersion currentVersion : Z)
| ErrApply
| ErrDependentReads
| ErrAfterRetries (retries : Z).

(** ** The manager *)

Record Manager : Type := mkManager {
  counter : Z; SpillThreshold : Z; SpillDir : string; tableVersions : gmap string Z;
  MaxRetries : Z; ActiveTxs : gset Z; PredicateLocks : list PredicateLock; Tracker : SSITracker }.

Definition NewManager : Manager := mkManager 0 10000 EmptyString ∅ 3 ∅ [] NewSSITracker.

Definition set_counter c (m : Manager) : Manager :=
  mkManager c (SpillThreshold m) (SpillDir m) (tableVersions m) (MaxRetries m) (ActiveTxs m) (PredicateLocks m) (Tracker m).
Definition set_tableVersions v (m : Manager) : Manager :=
  mkManager (counter m) (SpillThreshold m) (SpillDir m) v (MaxRetries m) (ActiveTxs m) (PredicateLocks m) (Tracker m).
Definition set_ActiveTxs a (m : Manager) : Manager :=
  mkManager (counter m) (SpillThreshold m) (SpillDir m) (tableVersions m) (MaxRetries m) a (PredicateLocks m) (Tracker m).

Definition tableKey (db table : string) : string := (db +:+ "/" +:+ table)%string.

Definition TableVersion (m : Manager) (db table : string) : Z :=
  default 0 (tableVersions m !! tableKey db table).

Definition BumpTableVersion (db table : string) (m : Manager) : Manager :=
  let key := tableKey db table in
  let v := default 0 (tableVersions m !! key) in
  set_tableVersions (<[key := u64 (v + 1)]> (tableVersions m)) m.

Definition Begin {V} (m : Manager) : Manager * Transaction V :=
  let id := u64 (counter m + 1) in
  let tx := mkTx V id TxActive [] ∅ (ActiveTxs m) false ∅ 0 ∅ [] false EmptyString (SpillDir m) false in
  (set_ActiveTxs ({[id]} ∪ ActiveTxs m) (set_counter id m), tx).

Definition RecordAccess {V} (m : Manager) (db table : string) (tx : Transaction V) : Transaction V :=
  let key := tableKey db table in
  match TableSnapshots tx !! key with
  | Some _ => tx
  | None => set_TableSnapshots (<[key := TableVersion m db table]> (TableSnapshots tx)) tx
  end.

Definition RecordRead {V} (dbName tableName : string) (pos version : Z) (tx : Transaction V) : Transaction V :=
  let key := tableKey dbName tableName in
  let rows := default ∅ (ReadSet tx !! key) in
  set_reads (HasDependentReads tx) (<[key := <[pos := version]> rows]> (ReadSet tx)) tx.

Definition SetHasDependentReads {V} (val : bool) (tx : Transaction V) : Transaction V :=
  set_reads val (ReadSet tx) tx.

(** Are all transaction ids below the counter committed? *)
Definition IsCommitted (m : Manager) (xid : Z) : bool := xid <? counter m.

Definition OldestActiveXID (m : Manager) : Z :=
  if bool_decide (ActiveTxs m = ∅) then counter m
  else set_fold (λ xid oldest, if xid <? oldest then xid else oldest) (counter m) (ActiveTxs m).

Definition EnsureCounterAtLeast (n : Z) (m : Manager) : Manager :=
  if n <=? counter m then m else set_counter n m.

(** ** The operation buffer and its spill file *)

Section Spill.
Context {V : Type}.
Abbreviation Op := (PendingOp V).
Abbreviation Tx := (Transaction V).

(** The registered codec of operations. *)
Context (encodeOp : PendingOp V → option (list byte)) (decodeOp : list byte → option (PendingOp V)).

(** The files of the spill directory, and the outcomes of the system calls of
    one operation. *)
Abbreviation fs := (gmap string (list byte)).

Record spillEnv : Type := mkEnv {
  ev_create : bool; ev_write : bool; ev_close : bool; ev_open : bool; ev_read : bool;
  ev_wrote : nat }.

Definition newline : byte := Byte.x0a.

Definition line (b : bytes) : bytes := b ++ [newline].

(** A failing encode, write or flush removes the file; a failing close leaves it. *)
Definition writeOpsToFile (env : spillEnv) (path : string) (ops : list Op) (files : fs) : fs * bool :=
  if negb (ev_create env) then (files, false) else
  match mapM encodeOp ops with
  | None => (delete path files, false)
  | Some bs =>
      if negb (ev_write env) then (delete path files, false)
      else (<[path := concat (map line bs)]> files, ev_close env)
  end.

(** [filepath.Join(spillDir, fmt.Sprintf("tx_%d.tmp", ID))]. *)
Definition spillPathOf (dir : string) (id : Z) : string :=
  (dir +:+ "/tx_" +:+ pretty (Z.to_N id) +:+ ".tmp")%string.

Definition spillToDisk (env : spillEnv) (tx : Tx) (files : fs) : Tx * fs :=
  if bool_decide (spillDir tx = EmptyString) then (tx, files) else
  let path := spillPathOf (spillDir tx) (ID tx) in
  let '(files, ok) := writeOpsToFile env path (Ops tx) files in
  if ok then (set_Ops [] (set_spilled true path tx), files)
  else (set_spillErr true tx, files).

Definition appendOpToFile (env : spillEnv) (op : Op) (tx : Tx) (files : fs) : Tx * fs :=
  match encodeOp op with
  | None => (set_spillErr true tx, files)
  | Some b =>
      match (if ev_open env then files !! spillPath tx else None) with
      | None => (set_spillErr true tx, files)
      | Some content =>
          if negb (ev_write env) then
            (set_spillErr true tx, <[spillPath tx := content ++ take (ev_wrote env) (line b)]> files)
          else
            (if ev_close env then tx else set_spillErr true tx,
             <[spillPath tx := content ++ line b]> files)
      end
  end.

Definition AddOp (m : Manager) (env : spillEnv) (op : Op) (tx : Tx) (files : fs) : Tx * fs :=
  let tx := RecordAccess m (op_DB op) (op_Table op) tx in
  let tx := set_opCounter (opCounter tx + 1) tx in
  if spilled tx then appendOpToFile env op tx files
  else
    let tx := set_Ops (Ops tx ++ [op]) tx in
    if (SpillThreshold m <=? Z.of_nat (length (Ops tx))) && negb (bool_decide (SpillDir m = EmptyString))
    then spillToDisk env tx files
    else (tx, files).

(** The loop of [ReadOps] over the lines: [acc] is the current line so far.
    Empty lines are skipped; the last one may lack its newline. *)
Fixpoint readLines (acc content : bytes) : option (list Op) :=
  let flush (rest : option (list Op)) :=
    match acc with
    | [] => rest
    | _ => op ← decodeOp acc; rest ← rest; Some (op :: rest)
    end in
  match content with
  | [] => flush (Some [])
  | b :: content =>
      if bool_decide (b = newline) then flush (readLines [] content)
      else readLines (acc ++ [b]) content
  end.

Definition ReadOps (env : spillEnv) (tx : Tx) (files : fs) : outcome tx_error (list Op) :=
  if spillErr tx then Err ErrSpill
  else if negb (spilled tx) then Ok (Ops tx)
  else
    match (if ev_open env then files !! spillPath tx else None) with
    | None => Err ErrOpenSpill
    | Some content =>
        if negb (ev_read env) then Err ErrReadSpill
        else match readLines [] content with Some ops => Ok ops | None => Err ErrDecodeSpill end
    end.

(** ** Savepoints *)

Definition Savepoint (name : string) (tx : Tx) : Tx :=
  let order := match savepoints tx !! name with
               | Some _ => savepointOrder tx
               | None => savepointOrder tx ++ [name]
               end in
  set_savepoints (<[name := opCounter tx]> (savepoints tx)) order tx.

(** Removal of the first occurrence. *)
Fixpoint removeFirst (name : string) (l : list string) : list string :=
  match l with
  | [] => []
  | n :: l => if bool_decide (n = name) then l else n :: removeFirst name l
  end.

Definition ReleaseSavepoint (name : string) (tx : Tx) : Tx * bool :=
  match savepoints tx !! name with
  | None => (tx, false)
  | Some _ => (set_savepoints (delete name (savepoints tx)) (removeFirst name (savepointOrder tx)) tx, true)
  end.

(** The names up to and including the first [name], and the ones behind it. *)
Fixpoint cutAt (name : string) (l : list string) : option (list string * list string) :=
  match l with
  | [] => None
  | n :: l =>
      if bool_decide (n = name) then Some ([n], l)
      else '(pre, post) ← cutAt name l; Some (n :: pre, post)
  end.

Definition RollbackToSavepoint (env : spillEnv) (name : string) : M (Tx * fs) tx_error unit :=
  λ '(tx, files),
  match savepoints tx !! name with
  | None => ((tx, files), Err (ErrNoSavepoint name))
  | Some n =>
      match ReadOps env tx files with
      | Err e => ((tx, files), Err e)
      | Panic => ((tx, files), Panic)
      | Ok ops =>
          let n := if Z.of_nat (length ops) <? n then Z.of_nat (length ops) else n in
          if n <? 0 then ((tx, files), Panic) else
          let kept := take (Z.to_nat n) ops in
          let '(tx, files, ok) :=
            if spilled tx then
              match kept with
              | [] => (set_Ops [] (set_spilled false EmptyString tx),
                       if bool_decide (spillPath tx = EmptyString) then files else delete (spillPath tx) files,
                       true)
              | _ =>
                  let '(files, ok) := writeOpsToFile env (spillPath tx) kept files in
                  (if ok then tx else set_spillErr true tx, files, ok)
              end
            else (set_Ops kept tx, files, true) in
          if negb ok then ((tx, files), Err ErrSpill) else
          let tx := set_opCounter n tx in
          match cutAt name (savepointOrder tx) with
          | Some (keep, drop) =>
              ((set_savepoints (foldr delete (savepoints tx) drop) keep tx, files), Ok tt)
          | None => ((tx, files), Ok tt)
          end
      end
  end.
End Spill.

(** ** Commit *)

Definition strLe (a b : string) : Prop := String.leb a b = true.
#[export] Instance strLe_dec : RelDecision strLe := λ a b, decide (String.leb a b = true).

Fixpoint hasPrefix (p s : string) : bool :=
  match p, s with
  | EmptyString, _ => true
  | String a p, String b s => bool_decide (a = b) && hasPrefix p s
  | _, _ => false
  end.

Fixpoint contains (s sub : string) : bool :=
  hasPrefix sub s || match s with EmptyString => false | String _ s => contains s sub end.

(** [strings.SplitN(s, "/", 2)] when it gives two parts. *)
Fixpoint splitSlash (s : string) : option (string * string) :=
  match s with
  | EmptyString => None
  | String a s =>
      if bool_decide (a = "/"%char) then Some (EmptyString, s)
      else '(l, r) ← splitSlash s; Some (String a l, r)
  end.

Definition refreshSnapshots {V} (m : Manager) (tx : Transaction V) : Transaction V :=
  set_TableSnapshots
    (map_imap (λ table v,
       Some match splitSlash table with
            | Some (db, t) => TableVersion m db t
            | None => v
            end) (TableSnapshots tx)) tx.

(** An error of the apply function carries its text; those of the manager that
    wrap [ErrTxConflict] contain the word "conflict". *)
Inductive commit_error : Type := CErr (e : tx_error) | CApply (text : string).

Definition IsConflictError (e : commit_error) : bool :=
  match e with
  | CErr ErrTxConflict | CErr (ErrTableModified _ _ _) | CErr ErrDependentReads | CErr (ErrAfterRetries _) => true
  | CErr _ => false
  | CApply text => contains text "conflict" || contains text "OCC" || contains text "version mismatch"
  end.

Section Commit.
Context {V D : Type}.
Context (encodeOp : PendingOp V → option (list byte)) (decodeOp : list byte → option (PendingOp V)).

(** The validation loop over the sorted table keys. *)
Fixpoint validate (m : Manager) (tx : Transaction V) (tables : list string) : option tx_error :=
  match tables with
  | [] => None
  | t :: tables =>
      let currentVersion := default 0 (tableVersions m !! t) in
      let snapshotVersion := default 0 (TableSnapshots tx !! t) in
      if negb (currentVersion =? snapshotVersion) then Some (ErrTableModified t snapshotVersion currentVersion)
      else validate m tx tables
  end.

(** [applyFn] acts on the manager (table versions) and on the data. *)
Definition Commit (env : spillEnv) (tx : Transaction V) (files : gmap string (list byte))
    (applyFn : list (PendingOp V) → M (Manager * D) string unit) : M (Manager * D) commit_error unit :=
  λ '(m, d),
  let leave '(m, d) := (set_ActiveTxs (ActiveTxs m ∖ {[ID tx]}) m, d) in
  if HasCycle (ID tx) (Tracker m) then (leave (m, d), Err (CErr ErrTxConflict)) else
  let tables := merge_sort strLe (elements (dom (TableSnapshots tx))) in
  match validate m tx tables with
  | Some e => (leave (m, d), Err (CErr e))
  | None =>
      match ReadOps decodeOp env tx files with
      | Err e => (leave (m, d), Err (CErr e))
      | Panic => (leave (m, d), Panic)
      | Ok ops =>
          match applyFn ops (m, d) with
          | (w, Ok _) => (leave w, Ok tt)
          | (w, Err text) => (leave w, Err (CApply text))
          | (w, Panic) => (leave w, Panic)
          end
      end
  end.

(** [others] is what the other sessions do during the wait behind an attempt. *)
Fixpoint commitLoop (attempts : nat) (attempt maxRetries : Z) (env : spillEnv) (tx : Transaction V)
    (files : gmap string (list byte)) (applyFn : list (PendingOp V) → M (Manager * D) string unit)
    (others : Z → Manager * D → Manager * D) : M (Manager * D) commit_error unit := λ w,
  match attempts with
  | O => (w, Err (CErr (ErrAfterRetries maxRetries)))
  | S attempts =>
      match Commit env tx files applyFn w with
      | (w, Err err) =>
          if negb (IsConflictError err) then (w, Err err)
          else if attempt <? maxRetries then
            if HasDependentReads tx then (w, Err (CErr ErrDependentReads))
            else commitLoop attempts (attempt + 1) maxRetries env (refreshSnapshots (fst w) tx) files
                   applyFn others (others attempt w)
          else commitLoop attempts (attempt + 1) maxRetries env tx files applyFn others w
      | r => r
      end
  end.

Definition CommitWithRetry (env : spillEnv) (tx : Transaction V) (files : gmap string (list byte))
    (applyFn : list (PendingOp V) → M (Manager * D) string unit)
    (others : Z → Manager * D → Manager * D) : M (Manager * D) commit_error unit := λ w,
  let maxRetries := MaxRetries (fst w) in
  commitLoop (Z.to_nat (maxRetries + 1)) 0 maxRetries env tx files applyFn others w.

(** ** Rollback *)

Context `{Catalog K}.
Context (ddlOfMap : V → DDLUndoOp).

Definition revertOp (op : PendingOp V) (cat : anyCatalog K) : anyCatalog K :=
  if bool_decide (op_Type op = "CREATE_TABLE"%string) || bool_decide (op_Type op = "DROP_TABLE"%string) then
    match op_Payload op with
    | PayloadMap pm => fst (RevertDDLOp (ddlOfMap pm) cat)
    | PayloadDDL p => fst (RevertDDLOp p cat)
    | PayloadOther _ => cat
    end
  else cat.

(** [Transaction.Rollback]; [None] is a nil catalog. *)
Definition RollbackTx (env : spillEnv) (tx : Transaction V) (files : gmap string (list byte)) (catalog : option (anyCatalog K))
    : Transaction V * gmap string (list byte) * option (anyCatalog K) :=
  let catalog :=
    match catalog with
    | None => None
    | Some cat =>
        let ops := match ReadOps decodeOp env tx files with Ok ops => ops | _ => [] end in
        Some (foldl (λ cat op, revertOp op cat) cat (rev ops))
    end in
  let hadFile := spilled tx && negb (bool_decide (spillPath tx = EmptyString)) in
  (mkTx V (ID tx) TxIdle [] (TableSnapshots tx) (Snapshot tx) false ∅ 0 ∅ []
     (if hadFile then false else spilled tx) (if hadFile then EmptyString else spillPath tx)
     (spillDir tx) false,
   if hadFile then delete (spillPath tx) files else files, catalog).

Definition Rollback (m : Manager) (env : spillEnv) (tx : Transaction V) (files : gmap string (list byte))
    (catalog : option (anyCatalog K))
    : Manager * (Transaction V * gmap string (list byte) * option (anyCatalog K)) :=
  (set_ActiveTxs (ActiveTxs m ∖ {[ID tx]}) m, RollbackTx env tx files catalog).
End Commit.

(** ** The buffer against a list of operations with named prefixes *)

Section Buffer.
Context {V : Type}.
Context (encodeOp : PendingOp V → option (list byte)) (decodeOp : list byte → option (PendingOp V)).
(** What a line keeps of an operation. *)
Context (keep : PendingOp V → PendingOp V).

(** The codec gives back what it keeps of operations, one per line. *)
Definition lineCodec : Prop := ∀ op b, encodeOp op = Some b →
  decodeOp b = Some (keep op) ∧ encodeOp (keep op) = Some b ∧ b ≠ [] ∧ newline ∉ b.

Record bufSpec : Type := mkSpec { b_ops : list (PendingOp V); b_saves : list (string * list (PendingOp V)) }.

Inductive bufOp : Type :=
| BAdd (op : PendingOp V) | BSave (name : string) | BRelease (name : string) | BRollback (name : string).

Definition stepBuf (m : Manager) (env : spillEnv) (o : bufOp) (tx : Transaction V) (files : gmap string (list byte))
    : Transaction V * gmap string (list byte) * bool :=
  match o with
  | BAdd op => (AddOp encodeOp m env op tx files, true)
  | BSave name => (Savepoint name tx, files, true)
  | BRelease name => let '(tx, ok) := ReleaseSavepoint name tx in (tx, files, ok)
  | BRollback name =>
      match RollbackToSavepoint encodeOp decodeOp env name (tx, files) with
      | (s, Ok _) => (s, true)
      | (s, _) => (s, false)
      end
  end.

Definition savedAs (name : string) (l : list (string * list (PendingOp V))) : option (list (PendingOp V)) :=
  snd <$> List.find (λ x, bool_decide (fst x = name)) l.

(** The savepoints up to and including the one of this name. *)
Fixpoint savesTo (name : string) (l : list (string * list (PendingOp V))) : list (string * list (PendingOp V)) :=
  match l with
  | [] => []
  | x :: l => if bool_decide (fst x = name) then [x] else x :: savesTo name l
  end.

(** What the operation means; a rollback that reported an error did nothing. *)
Definition specBuf (o : bufOp) (ok : bool) (s : bufSpec) : bufSpec :=
  match o with
  | BAdd op => mkSpec (b_ops s ++ [op]) (b_saves s)
  | BSave name => mkSpec (b_ops s) (b_saves s ++ [(name, b_ops s)])
  | BRelease name => mkSpec (b_ops s) (filter (λ x, fst x ≠ name) (b_saves s))
  | BRollback name =>
      match savedAs name (b_saves s) with
      | Some l => if ok then mkSpec l (savesTo name (b_saves s)) else s
      | None => s
      end
  end.

(** No savepoint takes the name of a live one. *)
Definition freshName (o : bufOp) (s : bufSpec) : Prop :=
  match o with BSave name => name ∉ (b_saves s).*1 | _ => True end.

Definition bufferHolds (tx : Transaction V) (files : gmap string (list byte)) (ops : list (PendingOp V)) : Prop :=
  if spilled tx then
    spillPath tx ≠ EmptyString ∧
    ∃ bs, mapM encodeOp ops = Some bs ∧ files !! spillPath tx = Some (concat (map line bs))
  else Ops tx = ops.

(** What reading the buffer gives of its operations. *)
Definition stored (tx : Transaction V) (ops : list (PendingOp V)) : list (PendingOp V) :=
  if spilled tx then keep <$> ops else ops.

Definition marks (l : list (string * list (PendingOp V))) : gmap string Z :=
  list_to_map ((λ x, (fst x, Z.of_nat (length (snd x)))) <$> l).

Record bufRel (tx : Transaction V) (files : gmap string (list byte)) (s : bufSpec) : Prop := {
  br_holds : bufferHolds tx files (b_ops s);
  br_counter : opCounter tx = Z.of_nat (length (b_ops s));
  br_order : savepointOrder tx = (b_saves s).*1;
  br_nodup : NoDup (b_saves s).*1;
  br_marks : savepoints tx = marks (b_saves s);
  br_chain : StronglySorted (λ a b, snd a `prefix_of` snd b) (b_saves s ++ [(EmptyString, b_ops s)]) }.

Lemma readLines_line acc b rest :
  newline ∉ b →
  readLines decodeOp acc (line b ++ rest) =
  match acc ++ b with
  | [] => readLines decodeOp [] rest
  | l => op ← decodeOp l; rest ← readLines decodeOp [] rest; Some (op :: rest)
  end.
Proof.
  unfold line. revert acc. induction b as [|c b IH]; intros acc Hn.
  - rewrite app_nil_r. cbn. by destruct acc.
  - apply not_elem_of_cons in Hn as [Hc Hn]. cbn [app readLines].
    rewrite bool_decide_eq_false_2 by congruence. rewrite IH by done. by rewrite <- app_assoc.
Qed.

Lemma readLines_ops ops bs :
  lineCodec → mapM encodeOp ops = Some bs → readLines decodeOp [] (concat (map line bs)) = Some (keep <$> ops).
Proof.
  intros Hc. rewrite mapM_Some. induction 1 as [|op b ops bs He _ IH]; [done|].
  cbn [map concat]. destruct (Hc _ _ He) as (Hd & _ & Hne & Hnl). rewrite readLines_line by done. cbn [app].
  destruct b as [|x b]; [done|]. rewrite Hd, IH. done.
Qed.

Lemma ReadOps_holds env tx files ops :
  lineCodec → bufferHolds tx files ops →
  ReadOps decodeOp env tx files = Ok (stored tx ops) ∨ ∃ e, ReadOps decodeOp env tx files = Err e.
Proof.
  intros Hc. unfold bufferHolds, ReadOps, stored. destruct (spillErr tx); [by right; eexists|].
  destruct (spilled tx); cbn [negb]; [|intros ->; by left].
  intros (_ & bs & Hbs & Hf). rewrite Hf. destruct (ev_open env); [|by right; eexists].
  destruct (ev_read env); cbn; [|by right; eexists].
  rewrite (readLines_ops _ _ Hc Hbs). by left.
Qed.

Lemma ReadOps_healthy env tx files ops :
  lineCodec → bufferHolds tx files ops → spillErr tx = false → ev_open env = true → ev_read env = true →
  ReadOps decodeOp env tx files = Ok (stored tx ops).
Proof.
  intros Hc Hh He Ho Hr. unfold ReadOps, stored. rewrite He, Ho, Hr. unfold bufferHolds in Hh.
  destruct (spilled tx); cbn [negb]; [|by rewrite Hh].
  destruct Hh as (_ & bs & Hbs & Hf). by rewrite Hf, (readLines_ops _ _ Hc Hbs).
Qed.

Lemma pretty_path_nonempty dir id : spillPathOf dir id ≠ EmptyString.
Proof. unfold spillPathOf. by destruct dir. Qed.

Lemma AddOp_spec m env op tx files tx' files' ops :
  bufferHolds tx files ops → AddOp encodeOp m env op tx files = (tx', files') →
  (spillErr tx = true → spillErr tx' = true) ∧
  opCounter tx' = opCounter tx + 1 ∧ savepoints tx' = savepoints tx ∧
  savepointOrder tx' = savepointOrder tx ∧
  (spillErr tx' = false → bufferHolds tx' files' (ops ++ [op])).
Proof.
  unfold AddOp. set (t1 := RecordAccess m (op_DB op) (op_Table op) tx). intros Hh.
  assert (Ops t1 = Ops tx ∧ spilled t1 = spilled tx ∧ spillPath t1 = spillPath tx ∧ opCounter t1 = opCounter tx ∧
    spillErr t1 = spillErr tx ∧ savepoints t1 = savepoints tx ∧ savepointOrder t1 = savepointOrder tx)
    as (E1 & E2 & E3 & E4 & E5 & E6 & E7).
  { unfold t1, RecordAccess. by destruct (TableSnapshots tx !! _). }
  unfold bufferHolds in Hh. cbn [spilled set_opCounter]. rewrite E2.
  destruct (spilled tx) eqn:Es.
  - destruct Hh as (Hp & bs & Hbs & Hf). unfold appendOpToFile. cbn [spillPath set_opCounter]. rewrite E3.
    destruct (encodeOp op) as [b|] eqn:Eb.
    2: { intros [= <- <-]. cbn. by split_and!; try congruence. }
    rewrite Hf. destruct (ev_open env).
    2: { intros [= <- <-]. cbn. by split_and!; try congruence. }
    destruct (ev_write env); cbn [negb].
    2: { intros [= <- <-]. cbn. by split_and!; try congruence. }
    intros [= <- <-]. destruct (ev_close env); cbn; split_and!; try congruence; try done.
    intros _. unfold bufferHolds. cbn. rewrite E2, E3. split; [done|]. exists (bs ++ [b]). split.
    + apply mapM_Some. apply Forall2_app; [by apply mapM_Some|]. by constructor.
    + by rewrite lookup_insert_eq, map_app, concat_app; cbn; rewrite app_nil_r.
  - subst ops. cbn [Ops set_Ops set_opCounter]. rewrite E1.
    destruct (_ && _).
    + unfold spillToDisk. cbn [spillDir ID Ops set_Ops set_opCounter].
      destruct (bool_decide _).
      { intros [= <- <-]. cbn. split_and!; try congruence. intros _. unfold bufferHolds. cbn. by rewrite E2. }
      unfold writeOpsToFile. destruct (ev_create env); cbn [negb].
      2: { intros [= <- <-]. cbn. by split_and!; try congruence. }
      destruct (mapM encodeOp (Ops tx ++ [op])) as [bs|] eqn:Ebs.
      2: { intros [= <- <-]. cbn. by split_and!; try congruence. }
      destruct (ev_write env); cbn [negb].
      2: { intros [= <- <-]. cbn. by split_and!; try congruence. }
      destruct (ev_close env); intros [= <- <-]; cbn; split_and!; try congruence; try done.
      intros _. unfold bufferHolds. cbn. split; [apply pretty_path_nonempty|].
      exists bs. by rewrite lookup_insert_eq.
    + intros [= <- <-]. cbn. split_and!; try congruence. intros _. unfold bufferHolds. cbn. by rewrite E2.
Qed.

Abbreviation saveList := (list (string * list (PendingOp V))).

Lemma marks_lookup (l : saveList) name z :
  NoDup l.*1 → (marks l !! name = Some z ↔ ∃ ops, (name, ops) ∈ l ∧ z = Z.of_nat (length ops)).
Proof.
  intros Hn. unfold marks. rewrite <- elem_of_list_to_map.
  - rewrite list_elem_of_fmap. split.
    + intros ([n ops] & [= -> ->] & Hin). by exists ops.
    + intros (ops & Hin & ->). by exists (name, ops).
  - rewrite <- list_fmap_compose. exact Hn.
Qed.

Lemma marks_None (l : saveList) name : name ∉ l.*1 → marks l !! name = None.
Proof.
  intros Hn. apply not_elem_of_list_to_map. rewrite <- list_fmap_compose. exact Hn.
Qed.

Lemma savedAs_split name (l : saveList) ops :
  savedAs name l = Some ops →
  ∃ pre post, l = pre ++ (name, ops) :: post ∧ (name ∉ pre.*1) ∧ savesTo name l = pre ++ [(name, ops)].
Proof.
  unfold savedAs. induction l as [|[n o] l IH]; [done|]. cbn. case_bool_decide as E.
  - cbn. intros [= <-]. subst. exists [], l. split_and!; [done|set_solver|done].
  - intros (pre & post & -> & Hn & ->)%IH. exists ((n, o) :: pre), post. split_and!; [done|set_solver|done].
Qed.

Lemma savedAs_None name (l : saveList) : savedAs name l = None → name ∉ l.*1.
Proof.
  unfold savedAs. induction l as [|[n o] l IH]; [intros _; apply not_elem_of_nil|]. cbn.
  case_bool_decide; [done|]. intros Hs. specialize (IH Hs). set_solver.
Qed.

Lemma cutAt_split name (pre post : list string) :
  name ∉ pre → cutAt name (pre ++ name :: post) = Some (pre ++ [name], post).
Proof.
  induction pre as [|n pre IH]; intros Hn; cbn.
  - by rewrite bool_decide_eq_true_2.
  - apply not_elem_of_cons in Hn as [? Hn]. rewrite bool_decide_eq_false_2 by done. by rewrite IH.
Qed.

Lemma removeFirst_filter name (l : saveList) :
  NoDup l.*1 → removeFirst name l.*1 = (filter (λ x, fst x ≠ name) l).*1.
Proof.
  induction l as [|[n o] l IH]; [done|]. cbn [fmap list_fmap fst removeFirst]. intros [Hn Hnd]%NoDup_cons.
  rewrite filter_cons. case_bool_decide as E.
  - subst. rewrite decide_False by (cbn; tauto). f_equal. symmetry. apply filter_all, Forall_forall.
    intros [n' o'] Hi. cbn. intros ->. apply Hn, list_elem_of_fmap. by exists (name, o').
  - rewrite decide_True by done. cbn. by rewrite IH.
Qed.

(** Dropping the savepoints behind one. *)
Lemma marks_cut (pre post : saveList) x :
  NoDup (pre ++ x :: post).*1 → foldr delete (marks (pre ++ x :: post)) post.*1 = marks (pre ++ [x]).
Proof.
  intros Hn. assert (NoDup (pre ++ [x]).*1) as Hn'.
  { rewrite fmap_app in *. cbn in *. apply NoDup_app in Hn as (H1 & H2 & H3%NoDup_cons). apply NoDup_app.
    split_and!; [done| |apply NoDup_singleton]. set_solver. }
  apply map_eq. intros n. apply option_eq. intros z.
  rewrite lookup_foldr_delete_Some, !marks_lookup by done. rewrite fmap_app, NoDup_app in Hn.
  destruct Hn as (_ & H2 & [H3 _]%NoDup_cons). split.
  - intros (Hp & ops & Hin & ->). exists ops. split; [|done].
    apply elem_of_app in Hin as [?|[?|Hin]%elem_of_cons]; [set_solver..|].
    destruct Hp. apply list_elem_of_fmap. by exists (n, ops).
  - intros (ops & Hin & ->). split; [|exists ops; split; [set_solver|done]].
    apply elem_of_app in Hin as [Hin|<-%list_elem_of_singleton].
    + intros Hp. apply (H2 n); [apply list_elem_of_fmap; by exists (n, ops)|]. cbn. set_solver.
    + done.
Qed.

Lemma marks_delete name (l : saveList) :
  NoDup l.*1 → delete name (marks l) = marks (filter (λ x, fst x ≠ name) l).
Proof.
  intros Hn. assert (NoDup (filter (λ x, fst x ≠ name) l).*1) as Hn'.
  { eapply sublist_NoDup; [exact Hn|]. apply fmap_sublist, sublist_filter. }
  apply map_eq. intros n. apply option_eq. intros z.
  rewrite lookup_delete_Some, !marks_lookup by done. split.
  - intros (Hne & ops & Hin & ->). exists ops. rewrite list_elem_of_filter. cbn. by split_and!.
  - intros (ops & [Hne Hin]%list_elem_of_filter & ->). split; [done|]. by exists ops.
Qed.

Lemma chain_snoc {A} (R : relation A) l x y :
  StronglySorted R (l ++ [x]) → Transitive R → R x y → StronglySorted R (l ++ [y]).
Proof.
  intros (H1 & H2 & _)%StronglySorted_app Ht Hxy. apply StronglySorted_app. split_and!; [|done|by repeat constructor].
  intros a b Ha ->%list_elem_of_singleton. etransitivity; [|exact Hxy]. apply H1; [done|]. by apply list_elem_of_singleton.
Qed.

(** A spill error stays until the transaction is rolled back. *)
Lemma stepBuf_sticky m env o tx files tx' files' ok :
  spillErr tx = true → stepBuf m env o tx files = (tx', files', ok) → spillErr tx' = true.
Proof.
  intros He. destruct o as [op|name|name|name]; cbn [stepBuf].
  - unfold AddOp. set (t1 := RecordAccess m (op_DB op) (op_Table op) tx).
    assert (spillErr t1 = true) as E by (unfold t1, RecordAccess; by destruct (TableSnapshots tx !! _)).
    cbn [spilled set_opCounter]. destruct (spilled t1).
    + unfold appendOpToFile. destruct (encodeOp op); [|by intros [= <- <- <-]].
      destruct (if ev_open env then _ else _); [|by intros [= <- <- <-]].
      destruct (ev_write env); [|by intros [= <- <- <-]]. cbn.
      intros [= <- <- <-]. by destruct (ev_close env).
    + destruct (_ && _); [|by intros [= <- <- <-]].
      unfold spillToDisk. destruct (bool_decide _); [by intros [= <- <- <-]|].
      destruct (writeOpsToFile _ _ _ _ _) as [? []]; by intros [= <- <- <-].
  - by intros [= <- <- <-].
  - unfold ReleaseSavepoint. destruct (savepoints tx !! name); by intros [= <- <- <-].
  - unfold RollbackToSavepoint, ReadOps. rewrite He. destruct (savepoints tx !! name); by intros [= <- <- <-].
Qed.

Lemma bufferHolds_keeps tx tx' files ops :
  bufferHolds tx files ops → Ops tx' = Ops tx → spilled tx' = spilled tx → spillPath tx' = spillPath tx →
  bufferHolds tx' files ops.
Proof. unfold bufferHolds. by intros ? -> -> ->. Qed.

Lemma encode_keep ops bs : lineCodec → mapM encodeOp ops = Some bs → mapM encodeOp (keep <$> ops) = Some bs.
Proof.
  intros Hc. rewrite !mapM_Some, Forall2_fmap_l. intros Hf. eapply Forall2_impl; [exact Hf|]. cbn. intros op b He. by destruct (Hc _ _ He) as (_ & ? & _).
Qed.

Lemma stored_length tx ops : length (stored tx ops) = length ops.
Proof. unfold stored. destruct (spilled tx); [apply length_fmap|done]. Qed.

Lemma take_stored n tx ops : take n (stored tx ops) = stored tx (take n ops).
Proof. unfold stored. destruct (spilled tx); [by rewrite fmap_take|done]. Qed.

Lemma bufferHolds_encoded tx files ops l :
  bufferHolds tx files ops → l `prefix_of` ops → spilled tx = true → is_Some (mapM encodeOp l).
Proof.
  unfold bufferHolds. intros Hh [rest ->] Es. rewrite Es in Hh. destruct Hh as (_ & bs & Hbs & _).
  apply mapM_is_Some. apply mk_is_Some, mapM_is_Some in Hbs. by apply Forall_app in Hbs as [? _].
Qed.

(** The part of a rollback that rewrites the buffer. *)
Lemma rewrite_spec env tx files kept tx1 files1 ok :
  lineCodec → (spilled tx = true → is_Some (mapM encodeOp kept)) →
  (if spilled tx then
     match stored tx kept with
     | [] => (set_Ops [] (set_spilled false EmptyString tx),
              if bool_decide (spillPath tx = EmptyString) then files else delete (spillPath tx) files, true)
     | _ =>
         let '(files, ok) := writeOpsToFile encodeOp env (spillPath tx) (stored tx kept) files in
         (if ok then tx else set_spillErr true tx, files, ok)
     end
   else (set_Ops (stored tx kept) tx, files, true)) = (tx1, files1, ok) →
  (spilled tx = true → spillPath tx ≠ EmptyString) →
  savepoints tx1 = savepoints tx ∧ savepointOrder tx1 = savepointOrder tx ∧
  (ok = true → spillErr tx1 = spillErr tx ∧ bufferHolds tx1 files1 kept) ∧
  (ok = false → spillErr tx1 = true).
Proof.
  intros Hc Henc E Hp. unfold stored in E. destruct (spilled tx) eqn:Es.
  - destruct kept as [|op kept].
    { injection E as <- <- <-. cbn. by split_and!. }
    destruct (Henc eq_refl) as [bs Hbs]. cbn [fmap list_fmap] in E. unfold writeOpsToFile in E. destruct (ev_create env); cbn [negb] in E.
    2: { injection E as <- <- <-. by split_and!. }
    pose proof (encode_keep _ _ Hc Hbs) as Hk. cbn [fmap list_fmap] in Hk. rewrite Hk in E.
    destruct (ev_write env); cbn [negb] in E.
    2: { injection E as <- <- <-. by split_and!. }
    injection E as <- <- <-. destruct (ev_close env); cbn; split_and!; try done.
    intros _. split; [done|]. unfold bufferHolds. rewrite Es. split; [by apply Hp|].
    exists bs. split; [done|]. by rewrite lookup_insert_eq.
  - injection E as <- <- <-. cbn. split_and!; try done. intros _. split; [done|].
    unfold bufferHolds. cbn. by rewrite Es.
Qed.

Lemma bufRel_saved tx files s name l :
  bufRel tx files s → savedAs name (b_saves s) = Some l →
  savepoints tx !! name = Some (Z.of_nat (length l)) ∧ l `prefix_of` b_ops s.
Proof.
  intros [_ _ _ Hn Hm Hc] (pre & post & E & _ & _)%savedAs_split. split.
  - rewrite Hm. apply marks_lookup; [done|]. exists l. split; [|done]. rewrite E. set_solver.
  - apply StronglySorted_app in Hc as (Hc & _ & _).
    apply (Hc (name, l) (EmptyString, b_ops s)); [rewrite E|]; set_solver.
Qed.

Lemma RollbackTo_spec env name tx files s tx' files' o :
  lineCodec → bufRel tx files s →
  RollbackToSavepoint encodeOp decodeOp env name (tx, files) = ((tx', files'), o) →
  let ok := match o with Ok _ => true | _ => false end in
  spillErr tx' = true ∨
  (bufRel tx' files' (specBuf (BRollback name) ok s) ∧
   (ok = true → savedAs name (b_saves s) ≠ None)).
Proof.
  intros Hcodec Hr. pose proof Hr as [Hh Hcnt Hord Hnd Hm Hch]. unfold RollbackToSavepoint. cbn [specBuf].
  destruct (savedAs name (b_saves s)) as [l|] eqn:Esv.
  2: { rewrite Hm, marks_None by (by apply savedAs_None). intros [= <- <- <-]. by right. }
  destruct (bufRel_saved _ _ _ _ _ Hr Esv) as [-> Hpre].
  destruct (ReadOps_holds env tx files (b_ops s) Hcodec Hh) as [->|(e & ->)].
  2: { intros [= <- <- <-]. by right. }
  pose proof (prefix_length _ _ Hpre) as Hlen. rewrite stored_length.
  rewrite (proj2 (Z.ltb_ge (Z.of_nat (length (b_ops s))) (Z.of_nat (length l)))) by lia. cbv zeta.
  rewrite (proj2 (Z.ltb_ge (Z.of_nat (length l)) 0)) by lia. rewrite Nat2Z.id, take_stored.
  pose proof (bufferHolds_encoded _ _ _ _ Hh Hpre) as Henc. destruct Hpre as [rest Hops]. rewrite Hops, take_app_length.
  destruct (if spilled tx then _ else _) as [[tx1 files1] ok] eqn:Erw. cbv zeta.
  apply rewrite_spec in Erw as (Hs1 & Hs2 & Hok & Hno); [|done..|].
  2: { intros Hsp. unfold bufferHolds in Hh. rewrite Hsp in Hh. apply Hh. }
  destruct ok; cbn [negb].
  2: { intros [= <- <- <-]. left. by apply Hno. }
  destruct (Hok eq_refl) as [Herr Hb]. destruct (savedAs_split _ _ _ Esv) as (pre & post & Es & Hnpre & Hto).
  cbn [savepointOrder set_opCounter savepoints]. rewrite Hs1, Hs2, Hord, Hto. rewrite Es at 1. rewrite fmap_app. cbn [fmap list_fmap fst].
  fold (@fmap list _ _ _ (@fst string (list (PendingOp V))) pre).
  rewrite cutAt_split by done. intros [= <- <- <-]. right. split; [|done]. split; cbn [b_ops b_saves].
  - by eapply bufferHolds_keeps.
  - done.
  - cbn. by rewrite fmap_app.
  - rewrite Es, fmap_app in Hnd. rewrite fmap_app. cbn in *. apply NoDup_app in Hnd as (H1 & H2 & _).
    apply NoDup_app. split_and!; [done|set_solver|apply NoDup_singleton].
  - cbn. rewrite Hm, Es. apply marks_cut. by rewrite <- Es.
  - apply StronglySorted_app in Hch as (_ & Hch & _). rewrite Es in Hch.
    change (pre ++ (name, l) :: post) with (pre ++ [(name, l)] ++ post) in Hch.
    rewrite app_assoc in Hch. apply StronglySorted_app in Hch as (_ & Hch & _).
    apply StronglySorted_app. split_and!; [|done|by repeat constructor].
    intros a b Ha ->%list_elem_of_singleton. apply elem_of_app in Ha as [Ha| ->%list_elem_of_singleton]; [|done].
    apply StronglySorted_app in Hch as (Hc & _ & _). cbn. apply (Hc a (name, l)); [done|]. by apply list_elem_of_singleton.
Qed.

Lemma stepBuf_rel m env o tx files s tx' files' ok :
  lineCodec → bufRel tx files s → freshName o s → stepBuf m env o tx files = (tx', files', ok) →
  spillErr tx' = true ∨ bufRel tx' files' (specBuf o ok s).
Proof.
  intros Hc Hr Hf. destruct o as [op|name|name|name]; cbn [stepBuf specBuf].
  - destruct Hr as [Hh Hcnt Hord Hnd Hm Hch]. destruct (AddOp encodeOp m env op tx files) as [tx1 files1] eqn:E.
    intros [= <- <- <-]. destruct (AddOp_spec _ _ _ _ _ _ _ _ Hh E) as (_ & H1 & H2 & H3 & H4).
    destruct (spillErr tx1) eqn:Ee; [by left|]. right. split; cbn [b_ops b_saves].
    + by apply H4.
    + rewrite H1, Hcnt, length_app. cbn. lia.
    + congruence.
    + done.
    + congruence.
    + eapply chain_snoc; [exact Hch| |cbn; by apply prefix_app_r]. intros a b c. apply transitivity.
  - destruct Hr as [Hh Hcnt Hord Hnd Hm Hch]. intros [= <- <- <-]. right. cbn [freshName] in Hf.
    unfold Savepoint. rewrite Hm, (marks_None _ _ Hf), Hord.
    split; cbn [b_ops b_saves savepointOrder savepoints set_savepoints opCounter].
    + by eapply bufferHolds_keeps.
    + done.
    + by rewrite fmap_app.
    + rewrite fmap_app. apply NoDup_app. split_and!; [done|set_solver|apply NoDup_singleton].
    + rewrite Hcnt. unfold marks. rewrite fmap_app. cbn. rewrite list_to_map_snoc; [done|].
      rewrite <- list_fmap_compose. exact Hf.
    + apply StronglySorted_app in Hch as (H1 & H2 & _). apply StronglySorted_app. split_and!.
      * intros a b Ha ->%list_elem_of_singleton. cbn.
        apply elem_of_app in Ha as [Ha| ->%list_elem_of_singleton]; [|done].
        apply (H1 a (EmptyString, b_ops s) Ha). by apply list_elem_of_singleton.
      * apply StronglySorted_app. split_and!; [|done|by repeat constructor].
        intros a b Ha ->%list_elem_of_singleton. cbn.
        apply (H1 a (EmptyString, b_ops s) Ha). by apply list_elem_of_singleton.
      * by repeat constructor.
  - destruct Hr as [Hh Hcnt Hord Hnd Hm Hch]. unfold ReleaseSavepoint.
    assert (savepoints tx !! name = None → filter (λ x, fst x ≠ name) (b_saves s) = b_saves s) as Hnone.
    { intros E. apply filter_all, Forall_forall. intros [n l] Hin Heq. cbn in Heq. subst n.
      rewrite Hm in E. apply eq_None_not_Some in E. apply E. exists (Z.of_nat (length l)).
      apply marks_lookup; [done|]. by exists l. }
    destruct (savepoints tx !! name) as [z|] eqn:E; intros [= <- <- <-]; right.
    + split; cbn [b_ops b_saves savepointOrder savepoints set_savepoints opCounter].
      * by eapply bufferHolds_keeps.
      * done.
      * rewrite Hord. by apply removeFirst_filter.
      * eapply sublist_NoDup; [exact Hnd|]. apply fmap_sublist, sublist_filter.
      * rewrite Hm. by apply marks_delete.
      * apply StronglySorted_app in Hch as (H1 & H2 & _). apply StronglySorted_app. split_and!.
        -- intros a b Ha. apply H1. by apply list_elem_of_filter in Ha as [_ ?].
        -- clear -H2. induction H2 as [|x l _ IH Hx]; [constructor|].
           rewrite filter_cons. destruct (decide _); [|done]. constructor; [done|].
           apply Forall_forall. intros y [_ Hy]%list_elem_of_filter. rewrite Forall_forall in Hx. by apply Hx.
        -- by repeat constructor.
    + by rewrite Hnone.
  - destruct (RollbackToSavepoint encodeOp decodeOp env name (tx, files)) as [[tx1 files1] o] eqn:E.
    intros E2. apply (RollbackTo_spec _ _ _ _ _ _ _ _ Hc Hr) in E as [He|[Hrel _]].
    + left. destruct o; injection E2 as <- <- _; done.
    + right. destruct o; injection E2 as <- <- <-; exact Hrel.
Qed.

Definition healthy (env : spillEnv) : Prop :=
  ev_create env = true ∧ ev_write env = true ∧ ev_close env = true ∧ ev_open env = true ∧ ev_read env = true.

(** The result the specification expects. *)
Definition specOk (o : bufOp) (s : bufSpec) : bool :=
  match o with
  | BAdd _ | BSave _ => true
  | BRelease name | BRollback name => bool_decide (name ∈ (b_saves s).*1)
  end.

Lemma savedAs_elem name (l : saveList) : name ∈ l.*1 → savedAs name l ≠ None.
Proof. intros Hin Hn. by apply (savedAs_None _ _ Hn). Qed.

(** Operations the codec can write. *)
Definition writable (op : PendingOp V) : Prop := is_Some (encodeOp op).
Definition writes (o : bufOp) : Prop := match o with BAdd op => writable op | _ => True end.

Lemma write_healthy env path ops files :
  Forall writable ops → healthy env → snd (writeOpsToFile encodeOp env path ops files) = true.
Proof.
  intros Ht (H1 & H2 & H3 & _). unfold writeOpsToFile. rewrite H1, H2, H3. cbn.
  assert (is_Some (mapM encodeOp ops)) as [bs ->]; [|done].
  by apply mapM_is_Some.
Qed.

Lemma writable_keep ops : lineCodec → Forall writable ops → Forall writable (keep <$> ops).
Proof.
  intros Hc. rewrite Forall_fmap. intros Hf. eapply Forall_impl; [exact Hf|]. cbn. intros op [b Hb]. exists b. by destruct (Hc _ _ Hb) as (_ & ? & _).
Qed.

Lemma specBuf_writable o ok tx files s :
  bufRel tx files s → Forall writable (b_ops s) → writes o → Forall writable (b_ops (specBuf o ok s)).
Proof.
  intros Hr Hw Ho. destruct o as [op|name|name|name]; cbn [specBuf b_ops]; [|done..|].
  - apply Forall_app. split; [done|]. by constructor.
  - destruct (savedAs name (b_saves s)) as [l|] eqn:E; [|done]. destruct ok; [|done]. cbn [b_ops].
    destruct (bufRel_saved _ _ _ _ _ Hr E) as [_ [rest Hp]]. rewrite Hp in Hw. by apply Forall_app in Hw as [? _].
Qed.

Lemma stepBuf_healthy m env o tx files s tx' files' ok :
  lineCodec → Forall writable (b_ops s) → writes o → healthy env → bufRel tx files s → spillErr tx = false →
  stepBuf m env o tx files = (tx', files', ok) → spillErr tx' = false ∧ ok = specOk o s.
Proof.
  intros Hc Hwr Ho He Hr Hs. pose proof Hr as [Hh Hcnt Hord Hnd Hm Hch]. pose proof He as (E1 & E2 & E3 & E4 & E5).
  destruct o as [op|name|name|name]; cbn [stepBuf specOk].
  - unfold AddOp. set (t1 := RecordAccess m (op_DB op) (op_Table op) tx).
    assert (spillErr t1 = false ∧ spilled t1 = spilled tx ∧ spillPath t1 = spillPath tx ∧ Ops t1 = Ops tx) as (Et & Esp & Epa & Eop)
      by (unfold t1, RecordAccess; by destruct (TableSnapshots tx !! _)).
    cbn [spilled set_opCounter]. rewrite Esp. unfold bufferHolds in Hh. destruct (spilled tx).
    + destruct Hh as (_ & bs & _ & Hf). unfold appendOpToFile. destruct Ho as [b Hb]. rewrite Hb.
      cbn [spillPath set_opCounter]. rewrite E4, E2, E3, Epa, Hf. cbn. by intros [= <- <- <-].
    + destruct (_ && _); [|by intros [= <- <- <-]].
      unfold spillToDisk. destruct (bool_decide _); [by intros [= <- <- <-]|].
      match goal with |- context [writeOpsToFile encodeOp env ?p ?l files] =>
        assert (Forall writable l) as Hl by (cbn; rewrite Eop, Hh; apply Forall_app; split; [done|by constructor]);
        pose proof (write_healthy env p l files Hl He) as Hw;
        destruct (writeOpsToFile encodeOp env p l files) as [f1 b] end.
      cbn in Hw. subst b. by intros [= <- <- <-].
  - by intros [= <- <- <-].
  - unfold ReleaseSavepoint. destruct (savepoints tx !! name) as [z|] eqn:E; intros [= <- <- <-]; split; try done.
    + rewrite Hm in E. apply marks_lookup in E as (l & Hin & _); [|done].
      rewrite bool_decide_eq_true_2; [done|]. apply list_elem_of_fmap. by exists (name, l).
    + rewrite bool_decide_eq_false_2; [done|]. intros ([n l] & -> & Hin)%list_elem_of_fmap.
      cbn in E. rewrite Hm in E. apply eq_None_not_Some in E. apply E. exists (Z.of_nat (length l)).
      apply marks_lookup; [done|]. by exists l.
  - destruct (RollbackToSavepoint encodeOp decodeOp env name (tx, files)) as [[tx1 files1] o] eqn:E. intros Eo.
    case_bool_decide as Hin.
    + destruct (savedAs name (b_saves s)) as [l|] eqn:Esv; [|by destruct (savedAs_elem _ _ Hin)].
      destruct (bufRel_saved _ _ _ _ _ Hr Esv) as [Hmk Hpre]. unfold RollbackToSavepoint in E.
      rewrite Hmk, (ReadOps_healthy env tx files (b_ops s)) in E by done.
      pose proof (prefix_length _ _ Hpre) as Hlen. rewrite stored_length in E.
      rewrite (proj2 (Z.ltb_ge (Z.of_nat (length (b_ops s))) (Z.of_nat (length l)))) in E by lia. cbv zeta in E.
      rewrite (proj2 (Z.ltb_ge (Z.of_nat (length l)) 0)) in E by lia.
      assert (Forall writable (stored tx (b_ops s))) as Hst by (unfold stored; destruct (spilled tx); [by apply writable_keep|done]).
      destruct (if spilled tx then _ else _) as [[tx2 files2] ok2] eqn:Erw.
      assert (ok2 = true ∧ spillErr tx2 = false) as [-> He2].
      { destruct (spilled tx); [|injection Erw as <- <- <-; by split].
        destruct (take _ _) as [|x kept] eqn:Etk; [injection Erw as <- <- <-; by split|].
        apply (Forall_take _ (Z.to_nat (Z.of_nat (length l)))) in Hst. rewrite Etk in Hst.
        match type of Erw with context [writeOpsToFile encodeOp env ?p ?l files] =>
          pose proof (write_healthy env p l files Hst He) as Hw;
          destruct (writeOpsToFile encodeOp env p l files) as [f1 b] end.
        cbn in Hw. subst b. injection Erw as <- <- <-. by split. }
      cbn [negb] in E. destruct (cutAt _ _) as [[??]|]; injection E as <- <- <-;
        injection Eo as <- <- <-; by split.
    + unfold RollbackToSavepoint in E. rewrite Hm, marks_None in E by done.
      injection E as <- <- <-. injection Eo as <- <- <-. by split.
Qed.

(** A sequence of operations on the code and on the specification: the final
    states and the reported results with the expected ones. *)
Fixpoint runBuf (m : Manager) (ops : list (spillEnv * bufOp)) (tx : Transaction V)
    (files : gmap string (list byte)) (s : bufSpec)
    : Transaction V * gmap string (list byte) * bufSpec * list (bool * bool) :=
  match ops with
  | [] => (tx, files, s, [])
  | (env, o) :: ops =>
      let '(tx1, files1, ok) := stepBuf m env o tx files in
      let '(r, l) := runBuf m ops tx1 files1 (specBuf o ok s) in
      (r, (ok, specOk o s) :: l)
  end.

Fixpoint allFresh (m : Manager) (ops : list (spillEnv * bufOp)) (tx : Transaction V)
    (files : gmap string (list byte)) (s : bufSpec) : Prop :=
  match ops with
  | [] => True
  | (env, o) :: ops =>
      freshName o s ∧
      let '(tx1, files1, ok) := stepBuf m env o tx files in
      allFresh m ops tx1 files1 (specBuf o ok s)
  end.

Lemma runBuf_rel m ops tx files s tx' files' s' l :
  lineCodec → spillErr tx = true ∨ bufRel tx files s → allFresh m ops tx files s →
  runBuf m ops tx files s = (tx', files', s', l) → spillErr tx' = true ∨ bufRel tx' files' s'.
Proof.
  intros Hc. revert tx files s l. induction ops as [|[env o] ops IH]; intros tx files s l Hr Hf E; cbn in E, Hf.
  { by injection E as <- <- <- <-. }
  destruct Hf as [Hf Hrest]. destruct (stepBuf m env o tx files) as [[tx1 files1] ok] eqn:Es.
  destruct (runBuf m ops tx1 files1 (specBuf o ok s)) as [r l'] eqn:Er. injection E as -> <-.
  eapply IH; [|exact Hrest|exact Er]. destruct Hr as [He|Hr]; [left; by eapply stepBuf_sticky|].
  by eapply stepBuf_rel.
Qed.

Lemma runBuf_healthy m ops tx files s tx' files' s' l :
  lineCodec → Forall writable (b_ops s) → Forall (λ x, healthy (fst x) ∧ writes (snd x)) ops →
  bufRel tx files s → spillErr tx = false → allFresh m ops tx files s →
  runBuf m ops tx files s = (tx', files', s', l) →
  spillErr tx' = false ∧ bufRel tx' files' s' ∧ Forall (λ x, fst x = snd x) l.
Proof.
  intros Hc Hw Hh. revert tx files s l Hw. induction Hh as [|[env o] ops [He Ho] Hh IH];
    intros tx files s l Hw Hr Hs Hf E; cbn in E, Hf.
  { injection E as <- <- <- <-. split_and!; [done..|constructor]. }
  destruct Hf as [Hf Hrest]. destruct (stepBuf m env o tx files) as [[tx1 files1] ok] eqn:Es.
  destruct (runBuf m ops tx1 files1 (specBuf o ok s)) as [r l'] eqn:Er. injection E as -> <-.
  destruct (stepBuf_healthy _ _ _ _ _ _ _ _ _ Hc Hw Ho He Hr Hs Es) as [Hs1 ->].
  destruct (stepBuf_rel _ _ _ _ _ _ _ _ _ Hc Hr Hf Es) as [?|Hr1]; [congruence|].
  pose proof (specBuf_writable _ (specOk o s) _ _ _ Hr Hw Ho) as Hw1.
  destruct (IH _ _ _ _ Hw1 Hr1 Hs1 Hrest Er) as (? & ? & ?). split_and!; [done..|]. by constructor.
Qed.

Lemma Begin_rel m files : bufRel (snd (Begin (V := V) m)) files (mkSpec [] []).
Proof. split; cbn; try done; [constructor|by repeat constructor]. Qed.
End Buffer.

(** ** Table versions and validation *)

Lemma splitSlash_key s db t : splitSlash s = Some (db, t) → tableKey db t = s.
Proof.
  unfold tableKey. revert db t. induction s as [|a s IH]; intros db t; [done|]. cbn [splitSlash].
  case_bool_decide as E.
  - intros [= <- <-]. by subst.
  - destruct (splitSlash s) as [[l r]|]; [|done]. cbn. intros [= <- <-]. by rewrite <- (IH l r).
Qed.

Lemma tableKey_split db t : is_Some (splitSlash (tableKey db t)).
Proof.
  unfold tableKey. induction db as [|a db [[l r] IH]]; [by eexists|].
  change (String a db +:+ "/" +:+ t) with (String a (db +:+ "/" +:+ t)). cbn [splitSlash].
  case_bool_decide; [by eexists|]. rewrite IH. by eexists.
Qed.

Definition verOf (m : Manager) (t : string) : Z := default 0 (tableVersions m !! t).

(** Validation passes exactly when every accessed table has its version. *)
Lemma validate_None {V} m (tx : Transaction V) tables :
  validate m tx tables = None ↔ Forall (λ t, verOf m t = default 0 (TableSnapshots tx !! t)) tables.
Proof.
  induction tables as [|t tables IH]; cbn; [done|].
  rewrite Forall_cons. fold (verOf m t). destruct (Z.eqb_spec (verOf m t) (default 0 (TableSnapshots tx !! t))); cbn.
  - rewrite IH. tauto.
  - split; [done|tauto].
Qed.

Lemma validate_tables {V} m (tx : Transaction V) :
  validate m tx (merge_sort strLe (elements (dom (TableSnapshots tx)))) = None ↔
  ∀ t v, TableSnapshots tx !! t = Some v → verOf m t = v.
Proof.
  rewrite validate_None, Forall_forall. split.
  - intros Hv t v Ht. specialize (Hv t). rewrite Ht in Hv. apply Hv.
    rewrite merge_sort_Permutation. apply elem_of_elements, elem_of_dom. by eexists.
  - intros Hv t. rewrite merge_sort_Permutation, elem_of_elements, elem_of_dom. intros [v Ht].
    rewrite Ht. by apply Hv.
Qed.

(** A refresh moves every snapshot of a table key to the current version. *)
Lemma refreshSnapshots_spec {V} m (tx : Transaction V) t :
  is_Some (splitSlash t) →
  TableSnapshots (refreshSnapshots m tx) !! t = (λ _, verOf m t) <$> TableSnapshots tx !! t.
Proof.
  intros [[db u] Hs]. cbn. rewrite map_lookup_imap. destruct (TableSnapshots tx !! t); [|done]. cbn.
  rewrite Hs. unfold TableVersion. by rewrite (splitSlash_key _ _ _ Hs).
Qed.

(** ** Sessions that read, buffer and commit *)

Section Occ.
Context {V C : Type}.
Context (encodeOp : PendingOp V → option (list byte)) (decodeOp : list byte → option (PendingOp V)).

(** The contents of the tables, and how many writes and begins there were. *)
Record tables : Type := mkTables { t_rows : gmap string C; t_ticks : Z }.

Abbreviation write := (string * string * C)%type.

(** A mutation of a table and the bump behind it, as every statement does them
    under the commit lock of the table. *)
Definition applyWrite (w : Manager * tables) (x : write) : Manager * tables :=
  let '(db, t, c) := x in
  (BumpTableVersion db t (fst w),
   mkTables (<[tableKey db t := c]> (t_rows (snd w))) (t_ticks (snd w) + 1)).

Definition applyWrites (w : Manager * tables) (ws : list write) : Manager * tables := foldl applyWrite w ws.

(** What the statements of a transaction write, given the tables at commit, and
    the text of the error that stopped them. *)
Context (effect : list (PendingOp V) → gmap string C → list write * option string).

Definition applyOps (ops : list (PendingOp V)) : M (Manager * tables) string unit := λ w,
  let '(ws, e) := effect ops (t_rows (snd w)) in
  (applyWrites w ws, match e with None => Ok tt | Some text => Err text end).

Record occ : Type := mkOcc {
  o_world : Manager * tables; o_txs : gmap Z (Transaction V);
  o_files : gmap string (list byte); o_obs : list (Z * string * option C) }.

Inductive occEvent : Type :=
| OBegin
| ORead (id : Z) (db t : string)
| OAdd (id : Z) (env : spillEnv) (op : PendingOp V)
| OCommit (id : Z) (env : spillEnv)
| ORetry (id : Z) (env : spillEnv) (others : Z → list write)
| OAuto (db t : string) (c : C)
| ODrop (id : Z).

Definition forget (id : Z) (l : list (Z * string * option C)) : list (Z * string * option C) :=
  filter (λ x, fst (fst x) ≠ id) l.

(** The end of a commit: a transaction that committed is gone. *)
Definition finish (id : Z) (s : occ) (r : (Manager * tables) * outcome commit_error unit) : occ * bool :=
  match r with
  | (w, Ok _) => (mkOcc w (delete id (o_txs s)) (o_files s) (forget id (o_obs s)), true)
  | (w, _) => (mkOcc w (o_txs s) (o_files s) (o_obs s), false)
  end.

Definition occStep (e : occEvent) (s : occ) : occ * bool :=
  let '(m, d) := o_world s in
  match e with
  | OBegin =>
      let '(m, tx) := Begin m in
      (mkOcc (m, mkTables (t_rows d) (t_ticks d + 1)) (<[ID tx := tx]> (o_txs s)) (o_files s)
         (forget (ID tx) (o_obs s)), true)
  | ORead id db t =>
      match o_txs s !! id with
      | Some tx =>
          (mkOcc (m, d) (<[id := SetHasDependentReads true (RecordAccess m db t tx)]> (o_txs s)) (o_files s)
             ((id, tableKey db t, t_rows d !! tableKey db t) :: o_obs s), true)
      | None => (s, false)
      end
  | OAdd id env op =>
      match o_txs s !! id with
      | Some tx =>
          let '(tx, files) := AddOp encodeOp m env op tx (o_files s) in
          (mkOcc (m, d) (<[id := tx]> (o_txs s)) files (o_obs s), true)
      | None => (s, false)
      end
  | OCommit id env =>
      match o_txs s !! id with
      | Some tx => finish id s (Commit decodeOp env tx (o_files s) applyOps (m, d))
      | None => (s, false)
      end
  | ORetry id env others =>
      match o_txs s !! id with
      | Some tx =>
          finish id s (CommitWithRetry decodeOp env tx (o_files s) applyOps
                         (λ k w, applyWrites w (others k)) (m, d))
      | None => (s, false)
      end
  | OAuto db t c => (mkOcc (applyWrite (m, d) (db, t, c)) (o_txs s) (o_files s) (o_obs s), true)
  | ODrop id => (mkOcc (m, d) (delete id (o_txs s)) (o_files s) (forget id (o_obs s)), true)
  end.

Definition occRun (es : list occEvent) (s : occ) : occ := foldl (λ s e, fst (occStep e s)) s es.

Definition occInit (rows : gmap string C) : occ := mkOcc (NewManager, mkTables rows 0) ∅ ∅ [].

(** How a world may change: versions only grow, and a table whose version is
    the same is the same. *)
Record evolves (w w' : Manager * tables) : Prop := {
  ev_counter : counter (fst w') = counter (fst w);
  ev_ticks : t_ticks (snd w) ≤ t_ticks (snd w');
  ev_bound : (∀ t, 0 ≤ verOf (fst w) t ≤ t_ticks (snd w)) → t_ticks (snd w') < 2 ^ 64 →
             ∀ t, 0 ≤ verOf (fst w') t ≤ t_ticks (snd w');
  ev_version : (∀ t, 0 ≤ verOf (fst w) t ≤ t_ticks (snd w)) → t_ticks (snd w') < 2 ^ 64 →
               ∀ t, verOf (fst w) t ≤ verOf (fst w') t ∧
                 (verOf (fst w') t = verOf (fst w) t → t_rows (snd w') !! t = t_rows (snd w) !! t) }.

Lemma evolves_refl w w' :
  counter (fst w') = counter (fst w) → tableVersions (fst w') = tableVersions (fst w) → snd w' = snd w →
  evolves w w'.
Proof.
  intros Hc Hv Hd. assert (∀ t, verOf (fst w') t = verOf (fst w) t) as E by (intros t; unfold verOf; by rewrite Hv).
  split; [done|by rewrite Hd|..].
  - intros Hb _ t. rewrite E, Hd. apply Hb.
  - intros _ _ t. rewrite E, Hd. by split.
Qed.

Lemma evolves_trans w1 w2 w3 : evolves w1 w2 → evolves w2 w3 → evolves w1 w3.
Proof.
  intros [C1 T1 B1 V1] [C2 T2 B2 V2]. split; [congruence|lia|..].
  - intros Hb Hlt. apply B2; [apply B1; [done|lia]|done].
  - intros Hb Hlt t. destruct (V1 Hb ltac:(lia) t) as [L1 R1].
    destruct (V2 (B1 Hb ltac:(lia)) Hlt t) as [L2 R2]. split; [lia|].
    intros E. rewrite R2, R1 by lia. done.
Qed.

Lemma applyWrite_evolves w x : evolves w (applyWrite w x).
Proof.
  destruct x as [[db t] c]. unfold applyWrite, BumpTableVersion.
  assert (∀ m k, verOf (set_tableVersions (<[tableKey db t := u64 (verOf m (tableKey db t) + 1)]> (tableVersions m)) m) k
      = if bool_decide (k = tableKey db t) then u64 (verOf m k + 1) else verOf m k) as E.
  { intros m k. unfold verOf at 1. cbn. case_bool_decide as Ek.
    - subst. by rewrite lookup_insert_eq.
    - rewrite lookup_insert_ne by done. done. }
  unfold verOf in E. split; cbn; [done|lia|..].
  - intros Hb Hlt k. unfold verOf. rewrite E. specialize (Hb k). unfold verOf in Hb. case_bool_decide.
    + rewrite u64_small by lia. lia.
    + lia.
  - intros Hb Hlt k. unfold verOf. rewrite E. specialize (Hb k). unfold verOf in Hb. case_bool_decide as Ek.
    + rewrite u64_small by lia. split; [lia|]. intros. lia.
    + split; [lia|]. intros _. by rewrite lookup_insert_ne.
Qed.

Lemma applyWrites_evolves w ws : evolves w (applyWrites w ws).
Proof.
  unfold applyWrites. revert w. induction ws as [|x ws IH]; intros w; cbn; [by apply evolves_refl|].
  eapply evolves_trans; [apply applyWrite_evolves|apply IH].
Qed.

(** A commit changes the world as its writes do, and succeeds only when every
    accessed table has the version it had at its first access. *)
Lemma Commit_evolves env tx files w w' o :
  Commit decodeOp env tx files applyOps w = (w', o) → evolves w w'.
Proof.
  destruct w as [m d]. unfold Commit. destruct (HasCycle _ _); [intros [= <- <-]; by apply evolves_refl|].
  destruct (validate _ _ _); [intros [= <- <-]; by apply evolves_refl|].
  destruct (ReadOps _ _ _ _) as [ops| |]; [|intros [= <- <-]; by apply evolves_refl..].
  unfold applyOps. destruct (effect ops _) as [ws e]. pose proof (applyWrites_evolves (m, d) ws) as He.
  destruct (applyWrites (m, d) ws) as [m1 d1].
  destruct e; intros [= <- <-]; eapply evolves_trans; [exact He|by apply evolves_refl|exact He|by apply evolves_refl].
Qed.

Lemma Commit_valid env tx files w w' :
  Commit decodeOp env tx files applyOps w = (w', Ok tt) →
  ∀ t v, TableSnapshots tx !! t = Some v → verOf (fst w) t = v.
Proof.
  destruct w as [m d]. unfold Commit. destruct (HasCycle _ _); [done|].
  destruct (validate _ _ _) eqn:Hv; [done|]. intros _. by apply validate_tables.
Qed.

Lemma commitLoop_evolves n k mr env tx files others w w' o :
  commitLoop decodeOp n k mr env tx files applyOps (λ k w, applyWrites w (others k)) w = (w', o) → evolves w w'.
Proof.
  revert k tx w. induction n as [|n IH]; intros k tx w; cbn [commitLoop].
  { intros [= <- <-]. by apply evolves_refl. }
  destruct (Commit decodeOp env tx files applyOps w) as [w1 o1] eqn:Ec. apply Commit_evolves in Ec.
  destruct o1 as [u|err|]; [intros [= <- <-]; done| |intros [= <- <-]; done].
  destruct (IsConflictError err); cbn [negb]; [|intros [= <- <-]; done].
  destruct (k <? mr); [destruct (HasDependentReads tx); [intros [= <- <-]; done|]|];
    intros El%IH; eapply evolves_trans; [exact Ec| |exact Ec|exact El].
  eapply evolves_trans; [apply applyWrites_evolves|exact El].
Qed.

(** A transaction whose reads matter commits at the first attempt or not at all. *)
Lemma CommitWithRetry_first env tx files others w w' :
  HasDependentReads tx = true →
  CommitWithRetry decodeOp env tx files applyOps others w = (w', Ok tt) →
  Commit decodeOp env tx files applyOps w = (w', Ok tt).
Proof.
  intros Hd. unfold CommitWithRetry.
  destruct (Z.to_nat (MaxRetries (fst w) + 1)) as [|n] eqn:En; cbn [commitLoop]; [done|].
  destruct (Commit decodeOp env tx files applyOps w) as [w1 [[]|err|]]; [done| |done].
  destruct (IsConflictError err); cbn [negb]; [|done].
  destruct (Z.ltb_spec 0 (MaxRetries (fst w))); [by rewrite Hd|].
  assert (n = 0%nat) as -> by lia. done.
Qed.

Record occInv (s : occ) : Prop := {
  oi_counter : 0 ≤ counter (fst (o_world s)) ≤ t_ticks (snd (o_world s));
  oi_versions : ∀ t, 0 ≤ verOf (fst (o_world s)) t ≤ t_ticks (snd (o_world s));
  oi_ids : ∀ id tx, o_txs s !! id = Some tx → ID tx = id ∧ id ≤ counter (fst (o_world s));
  oi_snaps : ∀ id tx t v, o_txs s !! id = Some tx → TableSnapshots tx !! t = Some v →
    v ≤ verOf (fst (o_world s)) t;
  oi_obs : ∀ id t c, (id, t, c) ∈ o_obs s → ∃ tx v, o_txs s !! id = Some tx ∧
    HasDependentReads tx = true ∧ TableSnapshots tx !! t = Some v ∧ v ≤ verOf (fst (o_world s)) t ∧
    (verOf (fst (o_world s)) t = v → t_rows (snd (o_world s)) !! t = c) }.

Lemma elem_of_forget id id' t c l : (id', t, c) ∈ forget id l ↔ id' ≠ id ∧ (id', t, c) ∈ l.
Proof. unfold forget. rewrite list_elem_of_filter. done. Qed.

(** The invariant through a change of the world that keeps the transactions, or
    removes one. *)
Lemma occInv_world s w' txs' files' obs' :
  occInv s → evolves (o_world s) w' → t_ticks (snd w') < 2 ^ 64 →
  (∀ id tx, txs' !! id = Some tx → o_txs s !! id = Some tx) →
  (∀ id t c, (id, t, c) ∈ obs' → (id, t, c) ∈ o_obs s ∧ txs' !! id = o_txs s !! id) →
  occInv (mkOcc w' txs' files' obs').
Proof.
  intros [Hc Hv Hi Hsn Ho] [Ec Et Eb Ev] Hlt Htx Hobs. specialize (Eb Hv Hlt). specialize (Ev Hv Hlt).
  split; cbn [o_world o_txs o_obs].
  - rewrite Ec. lia.
  - done.
  - intros id tx Hid. rewrite Ec. by apply Hi, Htx.
  - intros id tx t v Hid Ht. destruct (Ev t) as [E1 _]. specialize (Hsn id tx t v (Htx _ _ Hid) Ht). lia.
  - intros id t c Hin. destruct (Hobs _ _ _ Hin) as [Hin' Heq].
    destruct (Ho _ _ _ Hin') as (tx & v & H1 & H2 & H3 & H4 & H5).
    destruct (Ev t) as [E1 E2]. exists tx, v. rewrite Heq. split_and!; [done..|lia|].
    intros E. rewrite E2 by lia. apply H5. lia.
Qed.

(** A change of one transaction that keeps its observations valid. *)
Lemma occInv_tx s id tx tx' files' :
  occInv s → o_txs s !! id = Some tx → ID tx' = ID tx →
  (HasDependentReads tx = true → HasDependentReads tx' = true) →
  (∀ t v, TableSnapshots tx !! t = Some v → TableSnapshots tx' !! t = Some v) →
  (∀ t v, TableSnapshots tx' !! t = Some v → v ≤ verOf (fst (o_world s)) t) →
  occInv (mkOcc (o_world s) (<[id := tx']> (o_txs s)) files' (o_obs s)).
Proof.
  intros [Hc Hv Hi Hsn Ho] Hid Eid Hd Hs Hle. split; cbn [o_world o_txs o_obs]; [done..| | |].
  - intros id' tx1 [[<- <-]|[_ H1]]%lookup_insert_Some; [rewrite Eid; by apply Hi|by apply Hi].
  - intros id' tx1 t v [[<- <-]|[_ H1]]%lookup_insert_Some; [apply Hle|by apply (Hsn id')].
  - intros id' t c Hin. destruct (Ho _ _ _ Hin) as (tx1 & v & H1 & H2 & H3 & H4).
    destruct (decide (id' = id)) as [->|Hne].
    + rewrite H1 in Hid. injection Hid as ->. exists tx', v. rewrite lookup_insert_eq.
      split_and!; [done|by apply Hd|by apply Hs|apply H4..].
    + exists tx1, v. by rewrite lookup_insert_ne.
Qed.

Lemma RecordAccess_keeps m db t (tx : Transaction V) :
  ID (RecordAccess m db t tx) = ID tx ∧ HasDependentReads (RecordAccess m db t tx) = HasDependentReads tx ∧
  (∀ k v, TableSnapshots tx !! k = Some v → TableSnapshots (RecordAccess m db t tx) !! k = Some v) ∧
  TableSnapshots (RecordAccess m db t tx) !! tableKey db t =
    Some (default (verOf m (tableKey db t)) (TableSnapshots tx !! tableKey db t)) ∧
  (∀ k v, TableSnapshots (RecordAccess m db t tx) !! k = Some v →
     TableSnapshots tx !! k = Some v ∨ v = verOf m k).
Proof.
  unfold RecordAccess. destruct (TableSnapshots tx !! tableKey db t) as [v|] eqn:E.
  { rewrite E. split_and!; [done..|]. intros k v' Hk. by left. }
  cbn. split_and!; [done|done| | |].
  - intros k v' Hk. rewrite lookup_insert_ne by congruence. done.
  - by rewrite lookup_insert_eq.
  - intros k v [[<- <-]|[_ ?]]%lookup_insert_Some; [by right|by left].
Qed.

Lemma AddOp_keeps m env op (tx tx' : Transaction V) files files' :
  AddOp encodeOp m env op tx files = (tx', files') →
  ID tx' = ID tx ∧ HasDependentReads tx' = HasDependentReads tx ∧
  (∀ k v, TableSnapshots tx !! k = Some v → TableSnapshots tx' !! k = Some v) ∧
  (∀ k v, TableSnapshots tx' !! k = Some v → TableSnapshots tx !! k = Some v ∨ v = verOf m k).
Proof.
  intros E. destruct (RecordAccess_keeps m (op_DB op) (op_Table op) tx) as (H1 & H2 & H3 & _ & H4).
  assert (ID tx' = ID (RecordAccess m (op_DB op) (op_Table op) tx) ∧
    HasDependentReads tx' = HasDependentReads (RecordAccess m (op_DB op) (op_Table op) tx) ∧
    TableSnapshots tx' = TableSnapshots (RecordAccess m (op_DB op) (op_Table op) tx)) as (-> & -> & ->);
    [|by split_and!].
  revert E. unfold AddOp. generalize (RecordAccess m (op_DB op) (op_Table op) tx) as t1. intros t1.
  destruct (spilled _).
  - unfold appendOpToFile. destruct (encodeOp op); [|by intros [= <- <-]].
    destruct (if ev_open env then _ else _); [|by intros [= <- <-]].
    destruct (ev_write env); [|by intros [= <- <-]]. intros [= <- <-]. by destruct (ev_close env).
  - destruct (_ && _); [|by intros [= <- <-]]. unfold spillToDisk. destruct (bool_decide _); [by intros [= <- <-]|].
    destruct (writeOpsToFile _ _ _ _ _) as [? []]; by intros [= <- <-].
Qed.

Lemma finish_inv id s r w' o :
  occInv s → r = (w', o) → evolves (o_world s) w' →
  t_ticks (snd (o_world (fst (finish id s r)))) < 2 ^ 64 → occInv (fst (finish id s r)).
Proof.
  intros Hi -> He. destruct o; cbn; intros Hlt.
  - eapply occInv_world; [exact Hi|done|done| |].
    + intros id' tx [_ ?]%lookup_delete_Some. done.
    + intros id' t c [Hne Hin]%elem_of_forget. by rewrite lookup_delete_ne.
  - eapply occInv_world; [exact Hi|done|done|done|done].
  - eapply occInv_world; [exact Hi|done|done|done|done].
Qed.

Lemma occStep_ticks e s : t_ticks (snd (o_world s)) ≤ t_ticks (snd (o_world (fst (occStep e s)))).
Proof.
  destruct s as [[m d] txs files obs]. unfold occStep. cbn [o_world].
  destruct e as [|id db t|id env op|id env|id env others|db t c|id]; cbn [o_txs o_files].
  - cbn. lia.
  - by destruct (txs !! id).
  - destruct (txs !! id) as [tx|]; [|done]. by destruct (AddOp encodeOp m env op tx files).
  - destruct (txs !! id) as [tx|]; [|done].
    destruct (Commit _ _ _ _ _ _) as [w o] eqn:E. apply Commit_evolves in E as [_ Ht _ _]. by destruct o.
  - destruct (txs !! id) as [tx|]; [|done]. unfold CommitWithRetry.
    destruct (commitLoop _ _ _ _ _ _ _ _ _ _) as [w o] eqn:E. apply commitLoop_evolves in E as [_ Ht _ _]. by destruct o.
  - cbn. lia.
  - done.
Qed.

Lemma occStep_inv e s :
  occInv s → t_ticks (snd (o_world (fst (occStep e s)))) < 2 ^ 64 → occInv (fst (occStep e s)).
Proof.
  intros Hinv Hlt. pose proof Hinv as [Hc Hv Hi Hsn Ho]. destruct s as [[m d] txs files obs].
  unfold occStep in *. cbn [o_world o_txs o_obs o_files fst snd] in *.
  destruct e as [|id db t|id env op|id env|id env others|db t c|id].
  - cbn in *. assert (u64 (counter m + 1) = counter m + 1) as Eu by (apply u64_small; lia).
    rewrite Eu. split; cbn.
    + lia.
    + intros t. specialize (Hv t). unfold verOf in *. cbn. lia.
    + intros id tx [[<- <-]|[_ H1]]%lookup_insert_Some; [cbn; lia|]. destruct (Hi _ _ H1). split; [done|lia].
    + intros id tx t v [[<- <-]|[_ H1]]%lookup_insert_Some; [done|]. by apply (Hsn id tx).
    + intros id t c [Hne Hin]%elem_of_forget. destruct (Ho _ _ _ Hin) as (tx & v & H1 & H2).
      exists tx, v. by rewrite lookup_insert_ne by done.
  - destruct (txs !! id) as [tx|] eqn:Etx; [|done]. cbn in *.
    destruct (RecordAccess_keeps m db t tx) as (H1 & H2 & H3 & H4 & H5).
    assert (∀ k v, TableSnapshots (RecordAccess m db t tx) !! k = Some v → v ≤ verOf m k) as Hle.
    { intros k v [?| ->]%H5; [by eapply Hsn|lia]. }
    pose proof (occInv_tx _ id tx (SetHasDependentReads true (RecordAccess m db t tx)) files Hinv Etx H1
      (λ _, eq_refl) H3 Hle) as [Ic Iv Ii Is Io].
    split; cbn in *; [done..|]. intros id' t' c' [[= -> -> ->]|Hin]%elem_of_cons; [|by apply Io].
    rewrite lookup_insert_eq. eexists _, _. split_and!; [done|done|exact H4|by apply Hle|done].
  - destruct (txs !! id) as [tx|] eqn:Etx; [|done].
    destruct (AddOp encodeOp m env op tx files) as [tx' files'] eqn:E. cbn in *.
    destruct (AddOp_keeps _ _ _ _ _ _ _ E) as (H1 & H2 & H3 & H4).
    refine (occInv_tx _ id tx tx' files' Hinv Etx H1 _ H3 _); [congruence|].
    intros k v [?| ->]%H4; [by eapply Hsn|done].
  - destruct (txs !! id) as [tx|]; [|done].
    destruct (Commit _ _ _ _ _ _) as [w o] eqn:E. apply Commit_evolves in E. by eapply finish_inv.
  - destruct (txs !! id) as [tx|]; [|done].
    destruct (CommitWithRetry _ _ _ _ _ _ _) as [w o] eqn:E. unfold CommitWithRetry in E.
    apply commitLoop_evolves in E. by eapply finish_inv.
  - cbn [fst] in *. eapply occInv_world; [exact Hinv|apply applyWrite_evolves|done|done|done].
  - cbn [fst] in *. eapply occInv_world; [exact Hinv|by apply evolves_refl|done| |].
    + intros id' tx [_ ?]%lookup_delete_Some. done.
    + intros id' t c [Hne Hin]%elem_of_forget. by rewrite lookup_delete_ne.
Qed.

Lemma occRun_ticks es s : t_ticks (snd (o_world s)) ≤ t_ticks (snd (o_world (occRun es s))).
Proof.
  revert s. induction es as [|e es IH]; intros s; cbn; [lia|].
  etransitivity; [apply (occStep_ticks e)|apply IH].
Qed.

Lemma occRun_inv es s :
  occInv s → t_ticks (snd (o_world (occRun es s))) < 2 ^ 64 → occInv (occRun es s).
Proof.
  revert s. induction es as [|e es IH]; intros s Hi Hlt; cbn in *; [done|].
  apply IH; [|done]. apply occStep_inv; [done|]. eapply Z.le_lt_trans; [apply occRun_ticks|exact Hlt].
Qed.

Lemma occInit_inv rows : occInv (occInit rows).
Proof.
  split; cbn; [lia|intros t; unfold verOf; cbn; rewrite lookup_empty; cbn; lia|done|done|].
  intros id t c Hin. by apply elem_of_nil in Hin.
Qed.
End Occ.

(** ** Undo of DDL against the interface *)

(** What the undo relies on: dropping a table that was just created, and
    creating one that was just dropped, restores the catalog. *)
Class CatalogLaws (K : Type) `{Catalog K} (schemaOf : K → string → string → option (list byte)) : Prop := {
  drop_create db t sch k : schemaOf k db t = None →
    fst (DropTable db t (fst (CreateTable db t sch k))) = k;
  create_drop db t sch k : schemaOf k db t = Some sch →
    fst (CreateTable db t sch (fst (DropTable db t k))) = k }.

(** A catalog as a map from table names to schemas. *)
#[export] Instance mapCatalog : Catalog (gmap (string * string) (list byte)) := {
  DropTable db t k := match k !! (db, t) with Some _ => (delete (db, t) k, true) | None => (k, false) end;
  CreateTable db t sch k := match k !! (db, t) with Some _ => (k, false) | None => (<[(db, t) := sch]> k, true) end;
  AlterTable db t sch k := match k !! (db, t) with Some _ => (<[(db, t) := sch]> k, true) | None => (k, false) end }.

#[export] Instance mapCatalog_laws : CatalogLaws (gmap (string * string) (list byte)) (λ k db t, k !! (db, t)).
Proof.
  split; intros db t sch k Hk; cbn; rewrite Hk; cbn.
  - rewrite lookup_insert_eq. cbn. by apply delete_insert_id.
  - rewrite lookup_delete_eq. cbn. by apply insert_delete_id.
Qed.

Section Ddl.
Context {V K : Type} `{CatalogLaws K schemaOf}.
Context (ddlOfMap : V → DDLUndoOp).

(** The undo record an operation carries, if it is a DDL operation. *)
Definition ddlOf (op : PendingOp V) : option DDLUndoOp :=
  if bool_decide (op_Type op = "CREATE_TABLE"%string) || bool_decide (op_Type op = "DROP_TABLE"%string) then
    match op_Payload op with
    | PayloadMap pm => Some (ddlOfMap pm)
    | PayloadDDL p => Some p
    | PayloadOther _ => None
    end
  else None.

(** What executing the statement behind an operation did to the catalog. *)
Inductive executed : PendingOp V → K → K → Prop :=
| ex_other op k : ddlOf op = None → executed op k k
| ex_create op k db t old sch :
    ddlOf op = Some (mkDDLUndo OpCreateTable db t old) → schemaOf k db t = None →
    executed op k (fst (CreateTable db t sch k))
| ex_drop op k db t sch :
    ddlOf op = Some (mkDDLUndo OpDropTable db t sch) → schemaOf k db t = Some sch → sch ≠ [] →
    executed op k (fst (DropTable db t k)).

Inductive executedAll : list (PendingOp V) → K → K → Prop :=
| exa_nil k : executedAll [] k k
| exa_cons op ops k1 k2 k3 : executed op k1 k2 → executedAll ops k2 k3 → executedAll (op :: ops) k1 k3.

Lemma revertOp_ddl op cat :
  revertOp ddlOfMap op cat = match ddlOf op with Some d => fst (RevertDDLOp d cat) | None => cat end.
Proof. unfold revertOp, ddlOf. destruct (_ || _); [|done]. by destruct (op_Payload op). Qed.

Lemma executed_revert op k k' :
  executed op k k' → revertOp ddlOfMap op (IsCatalog k') = IsCatalog k.
Proof.
  intros [? ? E|? ? db t old sch E Hs|? ? db t sch E Hs Hne]; rewrite revertOp_ddl, E; [done|..]; cbn.
  - pose proof (drop_create db t sch k0 Hs) as Hd. destruct (DropTable _ _ _). cbn in *. by rewrite Hd.
  - rewrite bool_decide_eq_false_2 by done. pose proof (create_drop db t sch k0 Hs) as Hd.
    destruct (CreateTable _ _ _ _). cbn in *. by rewrite Hd.
Qed.

Lemma executedAll_revert ops k k' :
  executedAll ops k k' → foldl (λ cat op, revertOp ddlOfMap op cat) (IsCatalog k') (rev ops) = IsCatalog k.
Proof.
  induction 1 as [|op ops k1 k2 k3 H1 _ IH]; [done|]. cbn. rewrite foldl_app, IH. cbn.
  by apply executed_revert.
Qed.
End Ddl.

(** ** Other managers *)

(** SIREAD locks conflict exactly when another transaction's lock covers the tuple. *)
Definition covers (lock : PredicateLock) (dbName tableName : string) (pageID tupleID : Z) : Prop :=
  pl_DBName lock = dbName ∧ pl_TableName lock = tableName ∧
  match pl_Granularity lock with
  | RelationGranularity => True
  | PageGranularity => pl_PageID lock = pageID
  | TupleGranularity => pl_PageID lock = pageID ∧ pl_TupleID lock = tupleID
  end.

Lemma CheckConflict_covers txID db t page tup locks :
  CheckConflict txID db t page tup locks = true ↔
  ∃ lock, lock ∈ locks ∧ pl_TxID lock ≠ txID ∧ covers lock db t page tup.
Proof.
  induction locks as [|lock locks IH]; cbn [CheckConflict].
  { split; [done|]. by intros (? & ?%elem_of_nil & _). }
  assert (∀ P : Prop, (CheckConflict txID db t page tup locks = true ∨ P) →
    (P → pl_TxID lock ≠ txID ∧ covers lock db t page tup) →
    ∃ lock0, lock0 ∈ lock :: locks ∧ pl_TxID lock0 ≠ txID ∧ covers lock0 db t page tup) as Hfwd.
  { intros P [Hr|Hp] Hc; [|exists lock; split; [by left|by apply Hc]].
    apply IH in Hr as (l & ? & ?). exists l. split; [by right|done]. }
  assert ((∃ lock0, lock0 ∈ lock :: locks ∧ pl_TxID lock0 ≠ txID ∧ covers lock0 db t page tup) →
    CheckConflict txID db t page tup locks = true ∨ (pl_TxID lock ≠ txID ∧ covers lock db t page tup)) as Hbwd.
  { intros (l & [->|Hin]%elem_of_cons & Hl); [by right|]. left. apply IH. by exists l. }
  unfold covers in *. destruct (Z.eqb_spec (pl_TxID lock) txID).
  { split; [intros Hr; by apply (Hfwd False); [left|]|]. by intros [?|[? _]]%Hbwd. }
  repeat case_bool_decide; cbn [negb orb].
  2,3,4: split; [intros Hr; by apply (Hfwd False); [left|]|]; by intros [?|(_ & ? & ? & _)]%Hbwd.
  destruct (pl_Granularity lock).
  - destruct (Z.eqb_spec (pl_PageID lock) page), (Z.eqb_spec (pl_TupleID lock) tup); cbn [andb].
    1: split; [intros _; apply (Hfwd True); [by right|intros _; by split_and!]|done].
    all: split; [intros Hr; by apply (Hfwd False); [left|]|]; by intros [?|(_ & _ & _ & ? & ?)]%Hbwd.
  - destruct (Z.eqb_spec (pl_PageID lock) page).
    + split; [intros _; apply (Hfwd True); [by right|intros _; by split_and!]|done].
    + split; [intros Hr; by apply (Hfwd False); [left|]|]. by intros [?|(_ & _ & _ & ?)]%Hbwd.
  - split; [intros _; apply (Hfwd True); [by right|intros _; by split_and!]|done].
Qed.

(** The horizon of the manager: no active transaction is older. *)
Lemma OldestActiveXID_min m :
  (∀ xid, xid ∈ ActiveTxs m → OldestActiveXID m ≤ xid) ∧ OldestActiveXID m ≤ counter m ∧
  (OldestActiveXID m = counter m ∨ OldestActiveXID m ∈ ActiveTxs m).
Proof.
  unfold OldestActiveXID. case_bool_decide as E; [rewrite E; split_and!; [by intros ? ?%not_elem_of_empty|lia|by left]|]. clear E.
  apply (set_fold_ind_L (λ o X, (∀ xid, xid ∈ X → o ≤ xid) ∧ o ≤ counter m ∧ (o = counter m ∨ o ∈ X))).
  - split_and!; [by intros ? ?%not_elem_of_empty|lia|by left].
  - intros x X o Hx (H1 & H2 & H3). destruct (Z.ltb_spec x o).
    + split_and!; [|lia|right; set_solver]. intros xid [->%elem_of_singleton|Hin]%elem_of_union; [lia|].
      specialize (H1 _ Hin). lia.
    + split_and!; [|lia|destruct H3; [by left|right; set_solver]].
      intros xid [->%elem_of_singleton|Hin]%elem_of_union; [lia|]. by apply H1.
Qed.

(** ** Properties *)


(** A codec for three sample operations. *)
Definition posOp (n : Z) : PendingOp unit :=
  mkOp unit "insert" "db" "t" (PayloadOther tt) tt tt n EmptyString 0.
Definition posEncode (op : PendingOp unit) : option (list byte) :=
  if bool_decide (op = posOp 1) then Some [Byte.x31]
  else if bool_decide (op = posOp 2) then Some [Byte.x32]
  else if bool_decide (op = posOp 3) then Some [Byte.x33] else None.
Definition posDecode (b : list byte) : option (PendingOp unit) :=
  match b with
  | [Byte.x31] => Some (posOp 1) | [Byte.x32] => Some (posOp 2) | [Byte.x33] => Some (posOp 3)
  | _ => None
  end.
Definition okEnv : spillEnv := mkEnv true true true true true 0.

(** Two operations spill; the second is rolled back and replaced. *)
Definition sampleBuf : list (spillEnv * bufOp) :=
  [(okEnv, BAdd (posOp 1)); (okEnv, BSave "a"); (okEnv, BAdd (posOp 2)); (okEnv, BRollback "a");
   (okEnv, BAdd (posOp 3))].
Definition sampleManager : Manager := mkManager 0 2 "spill" ∅ 3 ∅ [] NewSSITracker.



(** One session reads table "t", another writes "u"; the first commits. *)
Definition sampleOcc : list (occEvent (V := unit) (C := Z)) :=
  [OBegin; OBegin; ORead 1 "db" "t"; OAuto "db" "u" 5; OAdd 1 okEnv (posOp 1)].



Definition ddlOp (ty : string) (op : DDLUndoOp) : PendingOp unit :=
  mkOp unit ty "db" (du_TableName op) (PayloadDDL op) tt tt 0 EmptyString 0.


(** ** Corner cases *)

(** Reusing a savepoint name keeps its old place in the order: rolling back to
    a savepoint made in between leaves the reused one alive with a mark behind
    the end of the buffer, so a later rollback to it keeps an operation added
    after it. *)
Example savepoint_reuse_stale :
  let run := fix run (l : list bufOp) (tx : Transaction unit) :=
    match l with
    | [] => tx
    | o :: l => run l (stepBuf posEncode posDecode NewManager okEnv o tx ∅).1.1
    end in
  Ops (run [BSave "a"; BAdd (posOp 1); BSave "b"; BAdd (posOp 2); BSave "a"; BRollback "b";
            BAdd (posOp 3); BRollback "a"]
        (snd (Begin NewManager)))
  = [posOp 1; posOp 3].
Proof. vm_compute. reflexivity. Qed.

(** When the rows are read before the version is recorded, as the executor
    does, a write in between goes unnoticed: the transaction read 7, the table
    holds 8, and the commit succeeds. *)
Example stale_read_commits :
  let effect := λ (_ : list (PendingOp unit)) (_ : gmap string Z), ([], @None string) in
  let s0 := occRun posEncode posDecode effect [OBegin] (occInit {["db/t"%string := 7]}) in
  let observed := t_rows (snd (o_world s0)) !! "db/t"%string in
  let s1 := occRun posEncode posDecode effect [OAuto "db" "t" 8; ORead 1 "db" "t"] s0 in
  observed = Some 7 ∧ t_rows (snd (o_world s1)) !! "db/t"%string = Some 8 ∧
  snd (occStep posEncode posDecode effect (OCommit 1 okEnv) s1) = true.
Proof. vm_compute. by split_and!. Qed.

(** A failed attempt of [CommitWithRetry] has already left the active set, so
    the attempts behind it run with an id that the horizon ignores. *)
Lemma Commit_leaves_active {V D} decodeOp env (tx : Transaction V) files
    (applyFn : list (PendingOp V) → M (Manager * D) string unit) m d e m' d' :
  validate m tx (merge_sort strLe (elements (dom (TableSnapshots tx)))) = Some e →
  Commit decodeOp env tx files applyFn (m, d) = ((m', d'), Err (CErr e)) ∨
  Commit decodeOp env tx files applyFn (m, d) = ((m', d'), Err (CErr ErrTxConflict)) →
  ID tx ∉ ActiveTxs m'.
Proof.
  unfold Commit. intros ->. destruct (HasCycle _ _); intros [E|E]; injection E as <- <-; cbn; set_solver.
Qed.
