(* ===== verification/Bitmap.v ===== *)
(** * Page bitmaps

    [server/internal/core/storage/bitmap.go]: row positions grouped by page as
    sorted slot lists, with insertion, intersection, union and enumeration. *)

From S2P Require Import Prelude.

(** [sort.Search]: the smallest index in [lo, hi) at which [f] holds, by
    bisection. *)
Fixpoint searchLoop (fuel : nat) (f : nat → bool) (i j : nat) : nat :=
  match fuel with
  | O => i
  | S fuel =>
      if (i <? j)%nat then
        let h := ((i + j) / 2)%nat in
        if negb (f h) then searchLoop fuel f (h + 1) j else searchLoop fuel f i h
      else i
  end.

Definition sortSearch (n : nat) (f : nat → bool) : nat := searchLoop (S n) f 0 n.

Record RowPosition : Type := mkPos { PageID : Z; Slot : Z }.

Record PageBitmap : Type := mkBitmap { Pages : gmap Z (list Z) }.

Definition NewPageBitmap : PageBitmap := mkBitmap ∅.

Definition Add (b : PageBitmap) (pageID slot : Z) : PageBitmap :=
  match Pages b !! pageID with
  | None => mkBitmap (<[pageID := [slot]]> (Pages b))
  | Some slots =>
      let idx := sortSearch (length slots) (λ i, slot <=? nth i slots 0) in
      if (idx <? length slots)%nat && (nth idx slots 0 =? slot) then b
      else mkBitmap (<[pageID := take idx slots ++ slot :: drop idx slots]> (Pages b))
  end.

(** The two-pointer loops of [And] and [Or]. *)
Fixpoint intersectSlots (slots1 slots2 : list Z) : list Z :=
  let fix inner (slots2 : list Z) : list Z :=
    match slots1, slots2 with
    | a :: l1, b :: l2 =>
        if a =? b then a :: intersectSlots l1 l2
        else if a <? b then intersectSlots l1 slots2
        else inner l2
    | _, _ => []
    end in
  inner slots2.

Fixpoint unionSlots (slots1 slots2 : list Z) : list Z :=
  let fix inner (slots2 : list Z) : list Z :=
    match slots1, slots2 with
    | a :: l1, b :: l2 =>
        if a =? b then a :: unionSlots l1 l2
        else if a <? b then a :: unionSlots l1 slots2
        else b :: inner l2
    | [], l2 => l2
    | l1, [] => l1
    end in
  inner slots2.

Definition And (b other : PageBitmap) : PageBitmap :=
  mkBitmap (merge (λ slots1 slots2,
    match slots1, slots2 with
    | Some s1, Some s2 => match intersectSlots s1 s2 with [] => None | common => Some common end
    | _, _ => None
    end) (Pages b) (Pages other)).

Definition Or (b other : PageBitmap) : PageBitmap :=
  mkBitmap (merge (λ slots1 slots2,
    match slots1, slots2 with
    | Some s1, Some s2 => Some (unionSlots s1 s2)
    | Some s1, None => Some s1
    | None, s2 => s2
    end) (Pages b) (Pages other)).

Definition ToPositions (b : PageBitmap) : list RowPosition :=
  let pageIDs := merge_sort Z.le (elements (dom (Pages b))) in
  concat ((λ pageID, mkPos pageID <$> default [] (Pages b !! pageID)) <$> pageIDs).

(** ** Bisection *)

Lemma searchLoop_spec n fuel f i j :
  (i ≤ j ≤ n)%nat → (j - i < fuel)%nat →
  (∀ a b, (a ≤ b < n)%nat → f a = true → f b = true) →
  let r := searchLoop fuel f i j in
  (i ≤ r ≤ j)%nat ∧ (∀ k, (i ≤ k < r)%nat → f k = false) ∧ (∀ k, (r ≤ k < j)%nat → f k = true).
Proof.
  intros Hij Hf Hm. revert i j Hij Hf. induction fuel as [|fuel IH]; intros i j Hij Hf; [lia|].
  cbn [searchLoop]. cbv zeta in IH |- *.
  destruct (Nat.ltb_spec i j); [|split_and!; [lia..| |]; intros; exfalso; lia].
  assert (i ≤ (i + j) / 2 < j)%nat as Hh.
  { pose proof (Nat.div_mod_eq (i + j) 2). pose proof (Nat.mod_upper_bound (i + j) 2). lia. }
  destruct (f ((i + j) / 2)%nat) eqn:E; cbn [negb].
  - destruct (IH i ((i + j) / 2)%nat) as (H1 & H2 & H3); [lia..|]. split_and!; [lia..|done|].
    intros k Hk. destruct (Nat.lt_ge_cases k ((i + j) / 2)); [apply H3; lia|]. eapply Hm; [|exact E]. lia.
  - destruct (IH ((i + j) / 2 + 1)%nat j) as (H1 & H2 & H3); [lia..|]. split_and!; [lia..| |done].
    intros k Hk. destruct (Nat.le_gt_cases k ((i + j) / 2)) as [Hle|?]; [|apply H2; lia].
    destruct (f k) eqn:Ek; [|done]. assert (f ((i + j) / 2)%nat = true); [|congruence].
    eapply Hm; [|exact Ek]. lia.
Qed.

(** ** Sorted slot lists *)

Abbreviation slotsOk l := (StronglySorted Z.lt l).

Lemma nth_sorted l i j : slotsOk l → (i < j < length l)%nat → nth i l 0 < nth j l 0.
Proof.
  intros Hs Hij. apply (StronglySorted_app_1_elem_of Z.lt (take j l) (drop j l)).
  - by rewrite take_drop.
  - rewrite <- (firstn_skipn j l) at 1. rewrite app_nth1 by (rewrite length_take; lia).
    apply list_elem_of_In, nth_In. rewrite length_take. lia.
  - rewrite <- (firstn_skipn j l) at 1. rewrite app_nth2 by (rewrite length_take; lia).
    rewrite length_take, Nat.min_l, Nat.sub_diag by lia.
    apply list_elem_of_In, nth_In. rewrite length_drop. lia.
Qed.

Lemma insert_sorted l1 l2 x :
  slotsOk (l1 ++ l2) → Forall (λ y, y < x) l1 → Forall (λ y, x < y) l2 → slotsOk (l1 ++ x :: l2).
Proof.
  rewrite !StronglySorted_app. intros (H1 & H2 & H3) Hl1 Hl2. rewrite Forall_forall in Hl1.
  split_and!; [|done|by constructor].
  intros a b Ha [->|Hb]%elem_of_cons; [by apply Hl1|by apply H1].
Qed.

Lemma unionSlots_nil_l l : unionSlots [] l = l.
Proof. by destruct l. Qed.
Lemma unionSlots_nil_r l : unionSlots l [] = l.
Proof. by destruct l. Qed.

Lemma unionSlots_spec l1 l2 :
  slotsOk l1 → slotsOk l2 →
  slotsOk (unionSlots l1 l2) ∧ ∀ x, x ∈ unionSlots l1 l2 ↔ x ∈ l1 ∨ x ∈ l2.
Proof.
  intros H1. revert l2. induction H1 as [|a l1 H1 IH1 Ha]; intros l2 H2.
  { rewrite unionSlots_nil_l. split; [done|]. intros x. rewrite elem_of_nil. tauto. }
  induction H2 as [|b l2 H2 IH2 Hb].
  { rewrite unionSlots_nil_r. split; [by constructor|]. intros x. rewrite elem_of_nil. tauto. }
  rewrite Forall_forall in Ha, Hb. cbn. destruct (Z.eqb_spec a b) as [->|Hne]; [|destruct (Z.ltb_spec a b)].
  - destruct (IH1 l2 H2) as [Hs Hin]. split; [|intros x; rewrite !elem_of_cons, Hin; tauto].
    constructor; [done|]. apply Forall_forall. intros x [?|?]%Hin; auto.
  - destruct (IH1 (b :: l2)) as [Hs Hin]; [by constructor; [|apply Forall_forall]|].
    split; [|intros x; rewrite !elem_of_cons, Hin, elem_of_cons; tauto].
    constructor; [done|]. apply Forall_forall. intros x [?|[->|Hx]%elem_of_cons]%Hin; [by apply Ha|done|].
    specialize (Hb _ Hx). lia.
  - destruct IH2 as [Hs Hin]. split; [|intros x; rewrite !elem_of_cons; change (x ∈ (fix inner (s2 : list Z) := _) l2) with (x ∈ unionSlots (a :: l1) l2); rewrite Hin, elem_of_cons; tauto].
    constructor; [exact Hs|]. apply Forall_forall. intros x Hx. apply Hin in Hx as [[->|Hx]%elem_of_cons|?]; [lia| |by apply Hb].
    specialize (Ha _ Hx). lia.
Qed.

Lemma intersectSlots_nil_l l : intersectSlots [] l = [].
Proof. by destruct l. Qed.
Lemma intersectSlots_nil_r l : intersectSlots l [] = [].
Proof. by destruct l. Qed.

Lemma intersectSlots_spec l1 l2 :
  slotsOk l1 → slotsOk l2 →
  slotsOk (intersectSlots l1 l2) ∧ ∀ x, x ∈ intersectSlots l1 l2 ↔ x ∈ l1 ∧ x ∈ l2.
Proof.
  intros H1. revert l2. induction H1 as [|a l1 H1 IH1 Ha]; intros l2 H2.
  { rewrite intersectSlots_nil_l. split; [constructor|]. intros x. rewrite elem_of_nil. tauto. }
  induction H2 as [|b l2 H2 IH2 Hb].
  { rewrite intersectSlots_nil_r. split; [constructor|]. intros x. rewrite elem_of_nil. tauto. }
  rewrite Forall_forall in Ha, Hb. cbn. destruct (Z.eqb_spec a b) as [->|Hne]; [|destruct (Z.ltb_spec a b)].
  - destruct (IH1 l2 H2) as [Hs Hin]. split.
    + constructor; [done|]. apply Forall_forall. intros x [? ?]%Hin. auto.
    + intros x. rewrite !elem_of_cons, Hin. split; [tauto|]. intros [[->|?] [?|?]]; try tauto.
  - destruct (IH1 (b :: l2)) as [Hs Hin]; [by constructor; [|apply Forall_forall]|]. split; [done|].
    intros x. rewrite Hin, !elem_of_cons. split; [tauto|]. intros [[->|?] [?|Hx]]; try tauto.
    specialize (Hb _ Hx). lia.
  - destruct IH2 as [Hs Hin]. split; [exact Hs|]. intros x.
    change (x ∈ intersectSlots (a :: l1) l2 ↔ x ∈ a :: l1 ∧ x ∈ b :: l2). rewrite Hin, !elem_of_cons.
    split; [tauto|]. intros [[->|Hx] [?|?]]; try tauto. subst. specialize (Ha _ Hx). lia.
Qed.

Lemma sortSearch_split l s :
  slotsOk l →
  ∃ l1 l2, l = l1 ++ l2 ∧ Forall (λ y, y < s) l1 ∧ Forall (λ y, s ≤ y) l2 ∧
    sortSearch (length l) (λ i, s <=? nth i l 0) = length l1.
Proof.
  intros Hs. unfold sortSearch. set (f := λ i, s <=? nth i l 0).
  destruct (searchLoop_spec (length l) (S (length l)) f 0 (length l)) as (H1 & H2 & H3); [lia..| |].
  { intros a c Hac Ha%Z.leb_le. apply Z.leb_le. destruct (decide (a = c)) as [->|]; [done|].
    pose proof (nth_sorted l a c Hs). lia. }
  set (idx := searchLoop (S (length l)) f 0 (length l)) in *.
  exists (take idx l), (drop idx l). split_and!; [by rewrite take_drop| | |rewrite length_take; lia].
  - apply Forall_forall. intros y Hy. apply list_elem_of_In, (In_nth _ _ 0) in Hy as (k & Hk & <-).
    rewrite length_take in Hk. specialize (H2 k ltac:(lia)). apply Z.leb_gt in H2.
    rewrite <- (firstn_skipn idx l), app_nth1 in H2 by (rewrite length_take; lia). exact H2.
  - apply Forall_forall. intros y Hy. apply list_elem_of_In, (In_nth _ _ 0) in Hy as (k & Hk & <-).
    rewrite length_drop in Hk. specialize (H3 (idx + k)%nat ltac:(lia)). apply Z.leb_le in H3.
    rewrite <- (firstn_skipn idx l), app_nth2 in H3 by (rewrite length_take; lia).
    rewrite length_take, Nat.min_l in H3 by lia. by replace (idx + k - idx)%nat with k in H3 by lia.
Qed.

(** ** The operations on the set of positions *)

Definition bitmapOk (b : PageBitmap) : Prop := map_Forall (λ _ l, slotsOk l ∧ l ≠ []) (Pages b).

Definition holds (b : PageBitmap) (p s : Z) : Prop := ∃ l, Pages b !! p = Some l ∧ s ∈ l.

Lemma Add_spec b p s :
  bitmapOk b → bitmapOk (Add b p s) ∧ ∀ q x, holds (Add b p s) q x ↔ (q = p ∧ x = s) ∨ holds b q x.
Proof.
  intros Hok. unfold Add, holds. destruct (Pages b !! p) as [slots|] eqn:E.
  2: { split.
    - apply map_Forall_insert_2; [|done]. split; [by repeat constructor|done].
    - intros q x. cbn. destruct (decide (q = p)) as [->|Hne].
      + rewrite lookup_insert_eq, E. split.
        * intros (? & [= <-] & ->%list_elem_of_singleton). by left.
        * intros [[_ ->]|(? & ? & _)]; [|done]. eexists. split; [done|]. by apply list_elem_of_singleton.
      + rewrite lookup_insert_ne by done. tauto. }
  destruct (Hok p slots E) as [Hs Hne0].
  destruct (sortSearch_split slots s Hs) as (l1 & l2 & El & Hl1 & Hl2 & Hidx). rewrite Hidx.
  destruct (_ && _) eqn:Efound.
  - apply andb_prop in Efound as [Hlt%Nat.ltb_lt Heq%Z.eqb_eq]. split; [done|]. intros q x. split; [tauto|].
    intros [[-> ->]|?]; [|done]. exists slots. split; [done|]. rewrite <- Heq.
    apply list_elem_of_In, nth_In. by rewrite El in Hlt |- *.
  - assert (Forall (λ y, s < y) l2) as Hgt.
    { destruct l2 as [|y l2]; [constructor|]. assert (y ≠ s) as Hne.
      { intros ->. rewrite El, length_app, app_nth2, Nat.sub_diag in Efound by lia. cbn in Efound.
        rewrite Z.eqb_refl, andb_true_r in Efound. apply Nat.ltb_ge in Efound. lia. }
      rewrite El in Hs. apply StronglySorted_app in Hs as (_ & _ & Hs). inversion Hs as [|? ? _ Hy]; subst.
      inversion Hl2; subst. constructor; [lia|]. eapply Forall_impl; [exact Hy|]. cbn. intros. lia. }
    rewrite El, take_app_length, drop_app_length. split.
    + apply map_Forall_insert_2; [|done]. split; [|by destruct l1]. apply insert_sorted; [by rewrite <- El|done|done].
    + intros q x. cbn. destruct (decide (q = p)) as [->|Hne].
      * rewrite lookup_insert_eq, E. split.
        -- intros (? & [= <-] & [Hx|[->|Hx]%elem_of_cons]%elem_of_app); [|by left|]; right; exists slots;
             (split; [done|]); rewrite El; apply elem_of_app; tauto.
        -- intros [[_ ->]|(? & [= <-] & Hx)]; eexists; (split; [done|]); apply elem_of_app; rewrite elem_of_cons; [tauto|].
           rewrite El in Hx. apply elem_of_app in Hx. tauto.
      * rewrite lookup_insert_ne by done. tauto.
Qed.

Lemma And_spec b1 b2 :
  bitmapOk b1 → bitmapOk b2 → bitmapOk (And b1 b2) ∧ ∀ q x, holds (And b1 b2) q x ↔ holds b1 q x ∧ holds b2 q x.
Proof.
  intros H1 H2. unfold And, holds, bitmapOk. cbn. split.
  - intros p l. rewrite lookup_merge. unfold diag_None.
    destruct (Pages b1 !! p) as [l1|] eqn:E1, (Pages b2 !! p) as [l2|] eqn:E2; try done.
    destruct (intersectSlots_spec l1 l2) as [Hs _]; [by eapply H1|by eapply H2|].
    destruct (intersectSlots l1 l2); [done|]. by intros [= <-].
  - intros q x. rewrite lookup_merge. unfold diag_None.
    destruct (Pages b1 !! q) as [l1|] eqn:E1, (Pages b2 !! q) as [l2|] eqn:E2.
    2,3,4: split; [by intros (? & ? & _)|]; by intros [(? & ? & _) (? & ? & _)].
    destruct (intersectSlots_spec l1 l2) as [_ Hin]; [by eapply H1|by eapply H2|]. specialize (Hin x).
    split.
    + intros (l & El & Hx). assert (x ∈ intersectSlots l1 l2) as Hx' by (destruct (intersectSlots l1 l2); simplify_eq; done).
      apply Hin in Hx' as [? ?]. split; eexists; done.
    + intros [(? & [= <-] & Hx1) (? & [= <-] & Hx2)]. assert (x ∈ intersectSlots l1 l2) as Hx by (by apply Hin).
      destruct (intersectSlots l1 l2); [by apply elem_of_nil in Hx|]. by eexists.
Qed.

Lemma Or_spec b1 b2 :
  bitmapOk b1 → bitmapOk b2 → bitmapOk (Or b1 b2) ∧ ∀ q x, holds (Or b1 b2) q x ↔ holds b1 q x ∨ holds b2 q x.
Proof.
  intros H1 H2. unfold Or, holds, bitmapOk. cbn. split.
  - intros p l. rewrite lookup_merge. unfold diag_None.
    destruct (Pages b1 !! p) as [l1|] eqn:E1, (Pages b2 !! p) as [l2|] eqn:E2; intros [= <-].
    + destruct (H1 p l1 E1) as [Hs1 Hn1], (H2 p l2 E2) as [Hs2 _].
      destruct (unionSlots_spec l1 l2 Hs1 Hs2) as [Hs Hin]. split; [done|]. intros Hnil.
      destruct l1 as [|y l1]; [done|]. assert (y ∈ unionSlots (y :: l1) l2) as Hy by (apply Hin; left; by left).
      rewrite Hnil in Hy. by apply elem_of_nil in Hy.
    + by eapply H1.
    + by eapply H2.
  - intros q x. rewrite lookup_merge. unfold diag_None.
    destruct (Pages b1 !! q) as [l1|] eqn:E1, (Pages b2 !! q) as [l2|] eqn:E2.
    + destruct (unionSlots_spec l1 l2) as [_ Hin]; [by eapply H1|by eapply H2|]. specialize (Hin x). split.
      * intros (l & [= <-] & Hx). apply Hin in Hx as [?|?]; [left|right]; by eexists.
      * intros [(? & [= <-] & Hx)|(? & [= <-] & Hx)]; eexists; (split; [done|]); apply Hin; tauto.
    + split; [intros; by left|]. by intros [?|(? & ? & _)].
    + split; [intros; by right|]. by intros [(? & ? & _)|?].
    + split; [by intros (? & ? & _)|]. by intros [(? & ? & _)|(? & ? & _)].
Qed.

(** ** Enumeration *)

Definition posLt (a b : RowPosition) : Prop :=
  PageID a < PageID b ∨ PageID a = PageID b ∧ Slot a < Slot b.

Lemma ToPositions_spec b :
  bitmapOk b → StronglySorted posLt (ToPositions b) ∧
  ∀ q x, mkPos q x ∈ ToPositions b ↔ holds b q x.
Proof.
  intros Hok. unfold ToPositions.
  assert (StronglySorted Z.lt (merge_sort Z.le (elements (dom (Pages b))))) as Hs.
  { assert (NoDup (merge_sort Z.le (elements (dom (Pages b))))) as Hn
      by (rewrite merge_sort_Permutation; apply NoDup_elements).
    pose proof (StronglySorted_merge_sort Z.le (elements (dom (Pages b)))) as Hle. revert Hle Hn.
    generalize (merge_sort Z.le (elements (dom (Pages b)))). intros l.
    induction 1 as [|a l _ IH Ha]; [constructor|]. intros [Hn Hnd]%NoDup_cons. constructor; [by apply IH|].
    rewrite Forall_forall in Ha |- *. intros x Hx. specialize (Ha x Hx). assert (x ≠ a) by (by intros ->). lia. }
  assert (∀ p, p ∈ merge_sort Z.le (elements (dom (Pages b))) ↔ is_Some (Pages b !! p)) as Hin.
  { intros p. by rewrite merge_sort_Permutation, elem_of_elements, elem_of_dom. }
  revert Hs Hin. generalize (merge_sort Z.le (elements (dom (Pages b)))). intros ps Hs Hin.
  assert (∀ q x, mkPos q x ∈ concat ((λ p, mkPos p <$> default [] (Pages b !! p)) <$> ps) ↔
                 q ∈ ps ∧ holds b q x) as Hel.
  { intros q x. clear Hs Hin. rewrite list_elem_of_In, in_concat. split.
    - intros (l & Hl & Hx). rewrite <- !list_elem_of_In in *. apply list_elem_of_fmap in Hl as (p & -> & Hp).
      apply list_elem_of_fmap in Hx as (s & [= -> ->] & Hx). split; [done|]. unfold holds.
      destruct (Pages b !! p) as [l|]; [|by apply elem_of_nil in Hx]. by exists l.
    - intros [Hq (l & El & Hx)]. exists (mkPos q <$> l). rewrite <- !list_elem_of_In. split.
      + apply list_elem_of_fmap. exists q. by rewrite El.
      + apply list_elem_of_fmap. by exists x. }
  split.
  - assert (∀ p, p ∈ ps → is_Some (Pages b !! p)) as Hsome by (intros p; apply Hin). clear Hin Hel.
    induction Hs as [|p ps Hs IH Hp]; cbn; [constructor|]. apply StronglySorted_app. split_and!.
    + intros [q x] [q' y] Hx Hy. apply list_elem_of_fmap in Hx as (s & [= -> ->] & Hx). left. cbn.
      clear IH. assert (q' ∈ ps) as Hq'.
      { apply list_elem_of_In, in_concat in Hy as (l & Hl & Hy). rewrite <- !list_elem_of_In in *.
        apply list_elem_of_fmap in Hl as (p' & -> & Hp'). by apply list_elem_of_fmap in Hy as (s' & [= -> ->] & _). }
      rewrite Forall_forall in Hp. by apply Hp.
    + destruct (Hsome p) as [l El]; [by left|]. rewrite El. cbn. destruct (Hok p l El) as [Hl _].
      clear -Hl. induction Hl as [|a l _ IH Ha]; cbn; [constructor|]. constructor; [done|].
      apply Forall_fmap. eapply Forall_impl; [exact Ha|]. intros x Hx. right. by split.
    + apply IH. intros q Hq. apply Hsome. by right.
  - intros q x. rewrite Hel, Hin. split; [tauto|]. intros Hh. split; [|done]. destruct Hh as (l & El & _). by eexists.
Qed.

(** ** Properties *)

(** Bitmaps built by the operations, and the sets they stand for. *)
Inductive bexpr : Type :=
| BEmpty
| BInsert (e : bexpr) (pageID slot : Z)
| BAnd (e1 e2 : bexpr)
| BOr (e1 e2 : bexpr).

Fixpoint build (e : bexpr) : PageBitmap :=
  match e with
  | BEmpty => NewPageBitmap
  | BInsert e p s => Add (build e) p s
  | BAnd e1 e2 => And (build e1) (build e2)
  | BOr e1 e2 => Or (build e1) (build e2)
  end.

Fixpoint meaning (e : bexpr) : gset (Z * Z) :=
  match e with
  | BEmpty => ∅
  | BInsert e p s => {[(p, s)]} ∪ meaning e
  | BAnd e1 e2 => meaning e1 ∩ meaning e2
  | BOr e1 e2 => meaning e1 ∪ meaning e2
  end.

Lemma build_ok e : bitmapOk (build e) ∧ ∀ p s, holds (build e) p s ↔ (p, s) ∈ meaning e.
Proof.
  induction e as [|e [IH1 IH2] p s|e1 [IH1 IH1'] e2 [IH2 IH2']|e1 [IH1 IH1'] e2 [IH2 IH2']]; cbn [build meaning].
  - split; [done|]. intros p s. split; [by intros (? & ? & _)|]. by intros ?%not_elem_of_empty.
  - destruct (Add_spec _ p s IH1) as [H1 H2]. split; [done|]. intros q x.
    rewrite H2, IH2, elem_of_union, elem_of_singleton, pair_eq. done.
  - destruct (And_spec _ _ IH1 IH2) as [H1 H2]. split; [done|]. intros q x.
    by rewrite H2, IH1', IH2', elem_of_intersection.
  - destruct (Or_spec _ _ IH1 IH2) as [H1 H2]. split; [done|]. intros q x.
    by rewrite H2, IH1', IH2', elem_of_union.
Qed.

(** Every bitmap built by insertions, intersections and unions enumerates
    exactly the positions of the set it stands for, each once, in increasing
    order of page and slot: the binary search of [Add] and the merge loops of
    [And] and [Or] keep the slot lists sorted. *)
Theorem bitmap_enumerates_set (e : bexpr) :
  StronglySorted posLt (ToPositions (build e)) ∧
  ∀ p s, mkPos p s ∈ ToPositions (build e) ↔ (p, s) ∈ meaning e.
Proof.
  destruct (build_ok e) as [Hok Hm]. destruct (ToPositions_spec _ Hok) as [Hs Hin].
  split; [done|]. intros p s. by rewrite Hin, Hm.
Qed.
