(* ===== verification/Deadlock.v ===== *)
(** * Deadlock detection

    [server/internal/core/storage/deadlock.go]: the wait-for graph and its
    depth-first search for a cycle. *)

From stdpp Require Import relations.
From S2P Require Import Prelude.

(** The wait-for graph: the transactions each transaction waits for, in order. *)
Definition wfg : Type := gmap Z (list Z).

Definition succs (g : wfg) (n : Z) : list Z := default [] (g !! n).

(** The closure [dfs] with the maps [visited] and [recursionStack] it shares. *)
Fixpoint dfs (fuel : nat) (g : wfg) (node : Z) (visited recursionStack : gset Z)
    : option (bool * gset Z * gset Z) :=
  match fuel with
  | O => None
  | S fuel =>
      let fix loop (neighbors : list Z) (visited recursionStack : gset Z) : option (bool * gset Z * gset Z) :=
        match neighbors with
        | [] => Some (false, visited, recursionStack ∖ {[node]})
        | neighbor :: neighbors =>
            if negb (bool_decide (neighbor ∈ visited)) then
              '(found, visited, recursionStack) ← dfs fuel g neighbor visited recursionStack;
              if (found : bool) then Some (true, visited, recursionStack)
              else loop neighbors visited recursionStack
            else if bool_decide (neighbor ∈ recursionStack) then Some (true, visited, recursionStack)
            else loop neighbors visited recursionStack
        end in
      loop (succs g node) ({[node]} ∪ visited) ({[node]} ∪ recursionStack)
  end.

(** Every transaction of the graph, the start included. *)
Definition nodes (g : wfg) (start : Z) : gset Z :=
  {[start]} ∪ dom g ∪ list_to_set (concat (map_to_list g).*2).

(** The recursion is at most as deep as there are nodes. *)
Definition detectCycle (g : wfg) (startNode : Z) : option bool :=
  '(found, _, _) ← dfs (size (nodes g startNode)) g startNode ∅ ∅; Some found.

Definition AddEdge (waiter holder : Z) (g : wfg) : wfg * option bool :=
  let g := <[waiter := succs g waiter ++ [holder]]> g in
  (g, detectCycle g waiter).

Fixpoint removeOne (holder : Z) (edges : list Z) : option (list Z) :=
  match edges with
  | [] => None
  | h :: edges =>
      if h =? holder then Some edges
      else rest ← removeOne holder edges; Some (h :: rest)
  end.

(** An edge that is absent leaves the map alone. *)
Definition RemoveEdge (waiter holder : Z) (g : wfg) : wfg :=
  match removeOne holder (succs g waiter) with
  | Some edges => <[waiter := edges]> g
  | None => g
  end.

Definition RemoveNode (tx : Z) (g : wfg) : wfg :=
  filter (λ h, h ≠ tx) <$> delete tx g.

(** ** The graph as a relation *)

Definition waits (g : wfg) (a b : Z) : Prop := b ∈ succs g a.

(** A set that the edges do not leave and that holds no cycle. *)
Definition finished (g : wfg) (B : gset Z) : Prop :=
  (∀ a b, a ∈ B → waits g a b → b ∈ B) ∧ (∀ a, a ∈ B → ¬ tc (waits g) a a).

Lemma finished_reach g B a b : finished g B → a ∈ B → rtc (waits g) a b → b ∈ B.
Proof. intros [Hc _] Ha. induction 1 as [|a c b Hac _ IH]; [done|]. apply IH. by eapply Hc. Qed.

(** A node whose successors are all finished is finished. *)
Lemma finished_add g B u :
  finished g B → u ∉ B → (∀ b, waits g u b → b ∈ B) → finished g ({[u]} ∪ B).
Proof.
  intros HB Hu Hs. pose proof HB as [Hc Ha]. split.
  - intros a b [->%elem_of_singleton|Hin]%elem_of_union Hab; apply elem_of_union; right; [by apply Hs|by eapply Hc].
  - intros a [->%elem_of_singleton|Hin]%elem_of_union Hcyc; [|by eapply Ha].
    inversion Hcyc as [? ? H1|? c ? H1 H2]; subst.
    + by apply Hu, Hs.
    + apply Hu. eapply finished_reach; [exact HB|by apply Hs|]. by apply tc_rtc.
Qed.

(** Facts on the sets of the search. *)
Lemma pop_stack (node : Z) (stk : gset Z) : node ∉ stk → ({[node]} ∪ stk) ∖ {[node]} = stk.
Proof. set_solver. Qed.
Lemma blacken (node : Z) (v stk : gset Z) :
  node ∈ v → node ∉ stk → v ∖ stk = {[node]} ∪ v ∖ ({[node]} ∪ stk).
Proof.
  intros Hv Hs. apply set_eq. intros x. rewrite elem_of_union, !elem_of_difference, elem_of_union, elem_of_singleton.
  destruct (decide (x = node)) as [->|]; tauto.
Qed.
Lemma push_stack (node : Z) (v stk : gset Z) :
  node ∉ v → ({[node]} ∪ v) ∖ ({[node]} ∪ stk) = v ∖ stk.
Proof. set_solver. Qed.
Lemma black_mono (x node : Z) (v v' stk : gset Z) :
  v ⊆ v' → x ∈ v ∖ ({[node]} ∪ stk) → x ∈ v' ∖ ({[node]} ∪ stk).
Proof. set_solver. Qed.

Section Dfs.
Context (g : wfg).

Lemma dfs_spec fuel node vis stk found vis' stk' :
  node ∉ vis → stk ⊆ vis → finished g (vis ∖ stk) → (∀ r, r ∈ stk → tc (waits g) r node) →
  dfs fuel g node vis stk = Some (found, vis', stk') →
  (found = true → ∃ n, rtc (waits g) node n ∧ tc (waits g) n n) ∧
  (found = false → stk' = stk ∧ vis ⊆ vis' ∧ node ∈ vis' ∖ stk ∧ finished g (vis' ∖ stk)).
Proof.
  revert node vis stk found vis' stk'. induction fuel as [|fuel IH]; intros node vis stk found vis' stk' Hn Hsub Hfin Hpath E;
    [done|]. cbn [dfs] in E.
  match type of E with ?l _ _ _ = _ => set (loop := l) in E end.
  assert (∀ ns v, (∀ n, n ∈ ns → waits g node n) → {[node]} ∪ vis ⊆ v → finished g (v ∖ ({[node]} ∪ stk)) →
    (∀ n, waits g node n → n ∈ ns ∨ n ∈ v ∖ ({[node]} ∪ stk)) →
    loop ns v ({[node]} ∪ stk) = Some (found, vis', stk') →
    (found = true → ∃ n, rtc (waits g) node n ∧ tc (waits g) n n) ∧
    (found = false → stk' = stk ∧ vis ⊆ vis' ∧ node ∈ vis' ∖ stk ∧ finished g (vis' ∖ stk))) as Hloop.
  { clear E. assert (node ∉ stk) as Hnst by (intros ?; by apply Hn, Hsub).
    induction ns as [|n ns IHns]; intros v Hns Hv Hf Hall E; cbn in E.
    - injection E as <- <- <-. split; [done|]. intros _.
      assert (node ∈ v) as Hnv by (apply Hv, elem_of_union; left; by apply elem_of_singleton).
      rewrite (pop_stack node stk Hnst), (blacken node v stk Hnv Hnst). split_and!; [done| | |].
      + etransitivity; [apply union_subseteq_r|exact Hv].
      + apply elem_of_union. left. by apply elem_of_singleton.
      + apply finished_add; [done| |].
        * rewrite elem_of_difference, elem_of_union, elem_of_singleton. tauto.
        * intros b Hb. destruct (Hall b Hb) as [?%elem_of_nil|?]; done.
    - case_bool_decide as Hin; cbn [negb] in E.
      + case_bool_decide as Hst.
        * injection E as <- <- <-. split; [|done]. intros _. exists node. split; [constructor|].
          assert (waits g node n) as Hw by (apply Hns; by left).
          apply elem_of_union in Hst as [->%elem_of_singleton|Hst]; [by constructor|].
          eapply tc_l; [exact Hw|]. by apply Hpath.
        * eapply IHns; [|done|done| |exact E]; [intros x Hx; apply Hns; by right|].
          intros x Hx. destruct (Hall x Hx) as [[->|?]%elem_of_cons|?]; [right|by left|by right].
          by apply elem_of_difference.
      + destruct (dfs fuel g n v ({[node]} ∪ stk)) as [[[f v1] s1]|] eqn:Ed; [|done]. cbn in E.
        assert (waits g node n) as Hw by (apply Hns; by left).
        apply IH in Ed as [Ht Hfl]; [|done| |done|].
        2: { etransitivity; [|exact Hv]. by apply union_mono_l. }
        2: { intros r [->%elem_of_singleton|Hr]%elem_of_union; [by constructor|].
             eapply tc_r; [by apply Hpath|done]. }
        destruct f.
        * injection E as <- <- <-. split; [|done]. intros _. destruct (Ht eq_refl) as (m & Hm & Hc).
          exists m. split; [by eapply rtc_l|done].
        * destruct (Hfl eq_refl) as (-> & Hvv & Hnv & Hfv).
          eapply IHns; [|by etransitivity|done| |exact E]; [intros x Hx; apply Hns; by right|].
          intros x Hx. destruct (Hall x Hx) as [[->|?]%elem_of_cons|?]; [by right|by left|right].
          by eapply black_mono. }
  eapply Hloop; [| | | |exact E].
  - intros n Hin. exact Hin.
  - done.
  - by rewrite push_stack.
  - intros n Hin. by left.
Qed.

Lemma dfs_total (N : gset Z) fuel node vis stk :
  (∀ a b, a ∈ N → waits g a b → b ∈ N) → node ∈ N → node ∉ vis → (size (N ∖ vis) ≤ fuel)%nat →
  ∃ found vis' stk', dfs fuel g node vis stk = Some (found, vis', stk') ∧ vis ⊆ vis'.
Proof.
  intros HN. revert node vis stk. induction fuel as [|fuel IH]; intros node vis stk Hn Hv Hsz.
  { assert (N ∖ vis ≡ ∅) as He by (apply size_empty_iff; lia). set_solver. }
  cbn [dfs]. match goal with |- context [?l (succs g node) _ _] => set (loop := l) end.
  assert (∀ ns v s, (∀ n, n ∈ ns → n ∈ N) → {[node]} ∪ vis ⊆ v →
    ∃ found vis' stk', loop ns v s = Some (found, vis', stk') ∧ v ⊆ vis') as Hloop.
  { induction ns as [|n ns IHns]; intros v s Hns Hvv; cbn; [by eexists _, _, _|].
    case_bool_decide as Hin; cbn [negb].
    - case_bool_decide; [by eexists _, _, _|]. apply IHns; [set_solver|done].
    - assert (size (N ∖ v) ≤ fuel)%nat as Hsz2.
      { assert (size (N ∖ v) < size (N ∖ vis))%nat; [|lia]. apply subset_size. set_solver. }
      destruct (IH n v s) as (f & v1 & s1 & -> & Hsub); [apply Hns; by left|done|done|]. cbn.
      destruct f; [by eexists _, _, _|].
      destruct (IHns v1 s1) as (f & v2 & s2 & -> & Hsub2); [set_solver..|]. eexists _, _, _. split; [done|set_solver]. }
  destruct (Hloop (succs g node) ({[node]} ∪ vis) ({[node]} ∪ stk)) as (f & v & s & -> & Hsub); [|done|].
  - intros n Hin. by eapply HN.
  - eexists _, _, _. split; [done|set_solver].
Qed.

Lemma nodes_closed start a b : a ∈ nodes g start → waits g a b → b ∈ nodes g start.
Proof.
  intros _ Hab. unfold waits, succs in Hab. destruct (g !! a) as [l|] eqn:E; [|by apply elem_of_nil in Hab].
  unfold nodes. apply elem_of_union. right. apply elem_of_list_to_set.
  apply list_elem_of_In, in_concat. exists l. rewrite <- !list_elem_of_In. split; [|done].
  apply list_elem_of_fmap. exists (a, l). split; [done|]. by apply elem_of_map_to_list.
Qed.

(** The search answers, and says whether a cycle is reachable. *)
Lemma detectCycle_spec start :
  ∃ found, detectCycle g start = Some found ∧
    (found = true ↔ ∃ n, rtc (waits g) start n ∧ tc (waits g) n n).
Proof.
  destruct (dfs_total (nodes g start) (size (nodes g start)) start ∅ ∅) as (f & v & s & E & _).
  - apply nodes_closed.
  - unfold nodes. set_solver.
  - set_solver.
  - by rewrite difference_empty_L.
  - exists f. unfold detectCycle. rewrite E. split; [done|].
    apply dfs_spec in E as [Ht Hf]; [|set_solver|set_solver| |set_solver].
    + split; [exact Ht|]. intros (n & Hn & Hc). destruct f; [done|].
      destruct (Hf eq_refl) as (_ & _ & Hs & Hfin). destruct Hfin as [Hcl Hac].
      exfalso. apply (Hac n); [|done]. by eapply finished_reach.
    + rewrite difference_diag_L. split; set_solver.
Qed.
End Dfs.

(** ** Acyclic graphs *)

Definition acyclic (g : wfg) : Prop := ∀ n, ¬ tc (waits g) n n.

Lemma tc_mono (R S : relation Z) a b : (∀ x y, R x y → S x y) → tc R a b → tc S a b.
Proof. intros Hi. induction 1; [constructor; auto|]. eapply tc_l; eauto. Qed.

Lemma acyclic_sub g g' : (∀ a b, waits g' a b → waits g a b) → acyclic g → acyclic g'.
Proof. intros Hs Ha n Hc. apply (Ha n). by eapply tc_mono. Qed.

Lemma succs_insert (g : wfg) w l a : succs (<[w := l]> g) a = if decide (a = w) then l else succs g a.
Proof.
  unfold succs, wfg in *. destruct (decide (a = w)) as [->|Hne]; [by rewrite lookup_insert_eq|by rewrite lookup_insert_ne].
Qed.

Lemma waits_insert (g : wfg) w l a b :
  waits (<[w := l]> g) a b ↔ (a = w ∧ b ∈ l) ∨ (a ≠ w ∧ waits g a b).
Proof. unfold waits. rewrite succs_insert. destruct (decide (a = w)); tauto. Qed.

Lemma waits_AddEdge w h g a b : waits (fst (AddEdge w h g)) a b ↔ waits g a b ∨ (a = w ∧ b = h).
Proof.
  cbn. rewrite waits_insert, elem_of_app, list_elem_of_singleton.
  destruct (decide (a = w)) as [->|]; unfold waits; tauto.
Qed.

(** A path of the new graph is one of the old graph or passes the new edge. *)
Lemma new_edge_path w h g a b :
  tc (waits (fst (AddEdge w h g))) a b → tc (waits g) a b ∨ rtc (waits (fst (AddEdge w h g))) w b.
Proof.
  induction 1 as [a b Hab|a c b Hac _ [IH|IH]]; [|apply waits_AddEdge in Hac as [?|[-> ->]]|by right].
  - apply waits_AddEdge in Hab as [?|[-> ->]]; [left; by constructor|].
    right. apply rtc_once, waits_AddEdge. by right.
  - left. by eapply tc_l.
  - right. eapply rtc_l; [apply waits_AddEdge; by right|].
    apply tc_rtc. eapply tc_mono; [|exact IH]. intros x y Hxy. apply waits_AddEdge. by left.
Qed.

Lemma removeOne_spec h l : 
  match removeOne h l with
  | Some l' => l ≡ₚ h :: l'
  | None => h ∉ l
  end.
Proof.
  induction l as [|x l IH]; cbn; [apply not_elem_of_nil|]. destruct (Z.eqb_spec x h) as [->|Hne]; [done|].
  destruct (removeOne h l) as [l'|]; cbn.
  - rewrite IH. constructor.
  - apply not_elem_of_cons. done.
Qed.

Lemma waits_RemoveEdge w h g a b : waits (RemoveEdge w h g) a b → waits g a b.
Proof.
  unfold RemoveEdge. pose proof (removeOne_spec h (succs g w)) as Hr.
  destruct (removeOne h (succs g w)) as [l|]; [|done]. rewrite waits_insert. intros [[-> Hb]|[_ ?]]; [|done].
  unfold waits. rewrite Hr. by right.
Qed.

Lemma waits_RemoveNode tx g a b : waits (RemoveNode tx g) a b ↔ waits g a b ∧ a ≠ tx ∧ b ≠ tx.
Proof.
  unfold waits, succs, RemoveNode, wfg in *. rewrite lookup_fmap. destruct (decide (a = tx)) as [->|Hne].
  - rewrite lookup_delete_eq. cbn. rewrite elem_of_nil. tauto.
  - rewrite lookup_delete_ne by done. destruct (g !! a) as [l|]; cbn; [|rewrite elem_of_nil; tauto].
    rewrite list_elem_of_filter. tauto.
Qed.

(** Taking the new edge back leaves the edges there were. *)
Lemma waits_undo w h g a b : waits (RemoveEdge w h (fst (AddEdge w h g))) a b ↔ waits g a b.
Proof.
  unfold RemoveEdge. cbn. set (g' := <[w := _]> g).
  assert (succs g' w = succs g w ++ [h]) as Es by (unfold g'; by rewrite succs_insert, decide_True).
  rewrite Es. pose proof (removeOne_spec h (succs g w ++ [h])) as Hr.
  destruct (removeOne h (succs g w ++ [h])) as [l|].
  - rewrite Permutation_app_comm in Hr. cbn in Hr. apply Permutation_cons_inv in Hr.
    unfold g'. rewrite !waits_insert, <- Hr.
    destruct (decide (a = w)) as [->|]; unfold waits; tauto.
  - destruct Hr. apply elem_of_app. right. by left.
Qed.

(** The operations of a lock manager: a reported deadlock is refused, so its
    edge is taken back. *)
Inductive graphOp : Type := GWait (waiter holder : Z) | GStop (waiter holder : Z) | GEnd (tx : Z).

Definition graphStep (g : wfg) (o : graphOp) : wfg :=
  match o with
  | GWait w h =>
      match AddEdge w h g with
      | (g', Some false) => g'
      | (g', _) => RemoveEdge w h g'
      end
  | GStop w h => RemoveEdge w h g
  | GEnd tx => RemoveNode tx g
  end.

Lemma AddEdge_exact w h g :
  acyclic g → ∃ found, snd (AddEdge w h g) = Some found ∧
    (found = true ↔ ∃ n, tc (waits (fst (AddEdge w h g))) n n).
Proof.
  intros Ha. destruct (detectCycle_spec (fst (AddEdge w h g)) w) as (found & E & Hf).
  exists found. split; [exact E|]. rewrite Hf. split.
  - intros (n & _ & Hc). by exists n.
  - intros (n & Hc). destruct (new_edge_path _ _ _ _ _ Hc) as [?|Hr]; [by destruct (Ha n)|]. by exists n.
Qed.

Lemma graphStep_acyclic g o : acyclic g → acyclic (graphStep g o).
Proof.
  intros Ha. destruct o as [w h|w h|tx]; cbn [graphStep].
  - destruct (AddEdge_exact w h g Ha) as (found & E & Hf).
    pose proof (waits_undo w h g) as Hu. destruct (AddEdge w h g) as [g' r]. cbn in *. subst r.
    destruct found.
    + eapply acyclic_sub; [|exact Ha]. intros a b. apply Hu.
    + intros n Hc. assert (false = true) by (apply Hf; by exists n). done.
  - eapply acyclic_sub; [|exact Ha]. intros a b. apply waits_RemoveEdge.
  - eapply acyclic_sub; [|exact Ha]. intros a b Hab. by apply waits_RemoveNode in Hab as [? _].
Qed.

(** ** Properties *)

(** C37: Deadlock detection is exact.  After any sequence of waits, releases and
    ends of transactions, where waits reported as deadlocks are taken back, the
    wait-for graph has no cycle, and adding an edge reports a deadlock exactly
    when it closes a cycle; the depth-first search always ends. *)
Theorem deadlock_detection_exact (ops : list graphOp) (waiter holder : Z) :
  let g := foldl graphStep ∅ ops in
  acyclic g ∧
  ∃ found, snd (AddEdge waiter holder g) = Some found ∧
    (found = true ↔ ∃ n, tc (waits (fst (AddEdge waiter holder g))) n n).
Proof.
  intros g. assert (acyclic g) as Ha; [|split; [done|by apply AddEdge_exact]].
  unfold g. assert (acyclic ∅) as H0.
  { intros n Hc. assert (∃ b, waits ∅ n b) as [b Hb] by (inversion Hc; eauto). by apply elem_of_nil in Hb. }
  revert H0. generalize (∅ : wfg). induction ops as [|o ops IH]; intros g0 H0; [done|]. apply IH.
  by apply graphStep_acyclic.
Qed.
