(* ===== verification/Locks.v ===== *)
(** * Locks of the storage engine

    [server/internal/core/storage/lock_manager.go] (row locks),
    [lwlock.go] (spin locks) and [page_lock.go] (page lock stripes), as
    components that several goroutines step. *)

From stdpp Require Import relations.
From S2P Require Import Prelude.

(** ** Row locks *)

Module RowLocks.

Inductive LockMode : Type := LockModeNone | LockModeShare | LockModeUpdate.

#[export] Instance LockMode_eq_dec : EqDecision LockMode.
Proof. solve_decision. Defined.

(** The order of the constants. *)
Definition modeLt (a b : LockMode) : bool :=
  match a, b with
  | LockModeNone, LockModeShare | LockModeNone, LockModeUpdate | LockModeShare, LockModeUpdate => true
  | _, _ => false
  end.

Record RowLock : Type := mkRowLock { Mode : LockMode; OwnerTx : Z }.

(** An entry object; the key it was made for is kept for the statements. *)
Record rowLockEntry : Type := mkEntry { owners : list RowLock; entryKey : string }.

(** The map holds pointers: an entry that left the map lives on for those who
    wait on its condition variable. *)
Record LockManager : Type := mkLM { locks : gmap string nat; heap : gmap nat rowLockEntry; fresh : nat }.

Definition NewLockManager : LockManager := mkLM ∅ ∅ 0.

Fixpoint canAcquire (owners : list RowLock) (txID : Z) (mode : LockMode) : bool :=
  match owners with
  | [] => true
  | owner :: owners =>
      if OwnerTx owner =? txID then canAcquire owners txID mode
      else if bool_decide (Mode owner = LockModeUpdate) || bool_decide (mode = LockModeUpdate) then false
      else canAcquire owners txID mode
  end.

(** The upgrade loop of [Acquire] and the append behind it. *)
Fixpoint addOwner (owners : list RowLock) (txID : Z) (mode : LockMode) : list RowLock :=
  match owners with
  | [] => [mkRowLock mode txID]
  | owner :: owners =>
      if OwnerTx owner =? txID then
        (if modeLt (Mode owner) mode then mkRowLock mode txID else owner) :: owners
      else owner :: addOwner owners txID mode
  end.

(** The first critical section of [Acquire]: find or make the entry. *)
Definition getEntry (key : string) (lm : LockManager) : LockManager * nat :=
  match locks lm !! key with
  | Some p => (lm, p)
  | None =>
      (mkLM (<[key := fresh lm]> (locks lm)) (<[fresh lm := mkEntry [] key]> (heap lm)) (S (fresh lm)), fresh lm)
  end.

(** One test of the wait loop of [Acquire] on the entry; [None]: wait (again). *)
Definition tryAcquire (p : nat) (txID : Z) (mode : LockMode) (lm : LockManager) : option LockManager :=
  e ← heap lm !! p;
  if canAcquire (owners e) txID mode then
    Some (mkLM (locks lm) (<[p := mkEntry (addOwner (owners e) txID mode) (entryKey e)]> (heap lm)) (fresh lm))
  else None.

(** The body of the loop of [ReleaseAll] on one key of the map. *)
Definition releaseKey (txID : Z) (lm : LockManager) (key : string) : LockManager :=
  match locks lm !! key with
  | None => lm
  | Some p =>
      match heap lm !! p with
      | None => lm
      | Some e =>
          let filtered := filter (λ o, OwnerTx o ≠ txID) (owners e) in
          let released := existsb (λ o, OwnerTx o =? txID) (owners e) in
          if released then
            mkLM (match filtered with [] => delete key (locks lm) | _ => locks lm end)
              (<[p := mkEntry filtered (entryKey e)]> (heap lm)) (fresh lm)
          else lm
      end
  end.

Definition ReleaseAll (txID : Z) (lm : LockManager) : LockManager :=
  foldl (releaseKey txID) lm (elements (dom (locks lm))).

(** Goroutines inside [Acquire]: the transaction, the mode and the entry. *)
Record lockSys : Type := mkSys { lm : LockManager; waiting : list (Z * LockMode * nat) }.

Inductive lockStep : lockSys → lockSys → Prop :=
| L_call s key tx mode lm' p :
    getEntry key (lm s) = (lm', p) →
    lockStep s (mkSys lm' ((tx, mode, p) :: waiting s))
| L_grant s l1 l2 tx mode p lm' :
    waiting s = l1 ++ (tx, mode, p) :: l2 → tryAcquire p tx mode (lm s) = Some lm' →
    lockStep s (mkSys lm' (l1 ++ l2))
| L_release s tx : lockStep s (mkSys (ReleaseAll tx (lm s)) (waiting s)).

(** Every entry somebody waits on is the one in the map. *)
Definition quiet (s : lockSys) : Prop :=
  ∀ w e, w ∈ waiting s → heap (lm s) !! snd w = Some e → locks (lm s) !! entryKey e = Some (snd w).

(** The states reached through states that satisfy [P]. *)
Inductive lockRun (P : lockSys → Prop) : lockSys → Prop :=
| run_init : lockRun P (mkSys NewLockManager [])
| run_step s s' : lockRun P s → lockStep s s' → P s' → lockRun P s'.

Definition compatible (owners : list RowLock) : Prop :=
  NoDup (OwnerTx <$> owners) ∧
  ∀ o1 o2, o1 ∈ owners → o2 ∈ owners → Mode o1 = LockModeUpdate → o1 = o2.

Lemma canAcquire_spec l tx mode :
  canAcquire l tx mode = true ↔
  ∀ o, o ∈ l → OwnerTx o = tx ∨ (Mode o ≠ LockModeUpdate ∧ mode ≠ LockModeUpdate).
Proof.
  induction l as [|o l IH]; cbn; [split; [intros _ o Ho; by apply elem_of_nil in Ho|done]|].
  assert ((∀ o0, o0 ∈ o :: l → OwnerTx o0 = tx ∨ Mode o0 ≠ LockModeUpdate ∧ mode ≠ LockModeUpdate) ↔
    (OwnerTx o = tx ∨ Mode o ≠ LockModeUpdate ∧ mode ≠ LockModeUpdate) ∧
    (∀ o0, o0 ∈ l → OwnerTx o0 = tx ∨ Mode o0 ≠ LockModeUpdate ∧ mode ≠ LockModeUpdate)) as ->.
  { split.
    - intros Ha. split; [apply Ha; by left|]. intros o0 Ho. apply Ha. by right.
    - intros [H1 H2] o0 [->|Ho]%elem_of_cons; [done|by apply H2]. }
  rewrite <- IH. destruct (Z.eqb_spec (OwnerTx o) tx); [tauto|].
  repeat case_bool_decide; cbn; (split; [try done; tauto|tauto]).
Qed.

Lemma addOwner_owners l tx mode x : x ∈ OwnerTx <$> addOwner l tx mode ↔ x = tx ∨ x ∈ OwnerTx <$> l.
Proof.
  induction l as [|o l IH]; cbn; [rewrite !elem_of_cons; done|].
  destruct (Z.eqb_spec (OwnerTx o) tx) as [E|E]; cbn; rewrite !elem_of_cons.
  - destruct (modeLt _ _); cbn; rewrite <- ?E; tauto.
  - rewrite IH. tauto.
Qed.

Lemma addOwner_NoDup l tx mode : NoDup (OwnerTx <$> l) → NoDup (OwnerTx <$> addOwner l tx mode).
Proof.
  intros Hn. induction l as [|o l IH]; cbn; [apply NoDup_singleton|].
  cbn in Hn. apply NoDup_cons in Hn as [Hno Hn]. destruct (Z.eqb_spec (OwnerTx o) tx) as [E|E]; cbn.
  - destruct (modeLt _ _); cbn; rewrite <- ?E; by constructor.
  - constructor; [|by apply IH]. rewrite addOwner_owners. intros [?|?]; done.
Qed.

Lemma addOwner_compatible l tx mode :
  compatible l → canAcquire l tx mode = true → compatible (addOwner l tx mode).
Proof.
  intros [Hn Hu] Hc. split.
  - by apply addOwner_NoDup.
  - rewrite canAcquire_spec in Hc.
    assert (∀ o, o ∈ addOwner l tx mode → (OwnerTx o = tx ∧ (Mode o = mode ∨ o ∈ l)) ∨ (o ∈ l ∧ OwnerTx o ≠ tx)) as Hin.
    { clear. induction l as [|x l IH]; intros o; cbn.
      - intros ->%list_elem_of_singleton. left. cbn. split; [done|by left].
      - destruct (Z.eqb_spec (OwnerTx x) tx) as [E|E].
        + intros [->|Ho]%elem_of_cons.
          * destruct (modeLt _ _); cbn; left; split; try done; [by left|right; by left].
          * destruct (decide (OwnerTx o = tx)); [left; split; [done|right; by right]|right; split; [by right|done]].
        + intros [->|Ho]%elem_of_cons; [right; split; [by left|done]|].
          destruct (IH o Ho) as [[? [?|?]]|[? ?]]; [left; split; [done|by left]|left; split; [done|right; by right]|].
          right. split; [by right|done]. }
    assert (∀ o1 o2, o1 ∈ addOwner l tx mode → o2 ∈ addOwner l tx mode → OwnerTx o1 = OwnerTx o2 → o1 = o2) as Huniq.
    { pose proof (addOwner_NoDup l tx mode Hn) as Hnd.
      intros o1 o2 (i & Hi)%list_elem_of_lookup (j & Hj)%list_elem_of_lookup He.
      assert (i = j) as ->; [|congruence]. eapply NoDup_lookup; [exact Hnd|..];
        rewrite list_lookup_fmap; [by rewrite Hi|by rewrite Hj, He]. }
    intros o1 o2 H1 H2 Hm. apply Huniq; [done|done|].
    destruct (decide (OwnerTx o1 = OwnerTx o2)) as [|Hne]; [done|exfalso].
    destruct (Hin _ H1) as [[E1 [M1|L1]]|[L1 N1]], (Hin _ H2) as [[E2 _]|[L2 N2]]; try congruence.
    + destruct (Hc o2 L2) as [?|[? ?]]; congruence.
    + apply Hne. f_equal. by apply Hu.
    + destruct (Hc o1 L1) as [?|[? ?]]; congruence.
    + apply Hne. f_equal. by apply Hu.
Qed.

Record lmOk (m : LockManager) : Prop := {
  lo_compat p e : heap m !! p = Some e → compatible (owners e);
  lo_fresh p e : heap m !! p = Some e → (p < fresh m)%nat;
  lo_locks k p : locks m !! k = Some p → ∃ e, heap m !! p = Some e ∧ entryKey e = k }.

(** Owners only in entries of the map. *)
Definition mapped (m : LockManager) : Prop :=
  ∀ p e, heap m !! p = Some e → owners e ≠ [] → locks m !! entryKey e = Some p.

Lemma getEntry_ok key m m' p :
  lmOk m → getEntry key m = (m', p) → lmOk m' ∧ (mapped m → mapped m').
Proof.
  intros Hok. pose proof Hok as [Hc Hf Hl]. unfold getEntry. destruct (locks m !! key) as [p0|] eqn:E.
  { intros [= <- <-]. done. }
  assert (heap m !! fresh m = None) as Hfr.
  { apply eq_None_not_Some. intros [e He]. specialize (Hf _ _ He). lia. }
  intros [= <- <-]. split; [split|unfold mapped]; cbn.
  - intros q e [[<- <-]|[_ He]]%lookup_insert_Some; [|by eapply Hc]. split; cbn; [apply NoDup_nil_2|].
    intros o1 o2 Ho. by apply elem_of_nil in Ho.
  - intros q e [[<- <-]|[_ He]]%lookup_insert_Some; [lia|]. specialize (Hf _ _ He). lia.
  - intros k q [[<- <-]|[_ Hk]]%lookup_insert_Some; [rewrite lookup_insert_eq; by eexists|].
    destruct (Hl _ _ Hk) as (e & He & Hke). exists e. split; [|done].
    rewrite lookup_insert_ne; [done|]. congruence.
  - intros Hm q e [[<- <-]|[Hne He]]%lookup_insert_Some; [done|]. intros Ho. specialize (Hm _ _ He Ho).
    rewrite lookup_insert_ne; [done|]. congruence.
Qed.

Lemma tryAcquire_ok p tx mode m m' :
  lmOk m → tryAcquire p tx mode m = Some m' →
  lmOk m' ∧ ((∀ e, heap m !! p = Some e → locks m !! entryKey e = Some p) → mapped m → mapped m').
Proof.
  intros [Hc Hf Hl]. unfold tryAcquire. destruct (heap m !! p) as [e|] eqn:E; [|done]. cbn.
  destruct (canAcquire (owners e) tx mode) eqn:Eca; [|done]. intros [= <-]. split; [split|unfold mapped]; cbn.
  - intros q e' [[<- <-]|[_ He]]%lookup_insert_Some; [|by eapply Hc]. cbn.
    apply addOwner_compatible; [by eapply Hc|done].
  - intros q e' [[<- <-]|[_ He]]%lookup_insert_Some; by eapply Hf.
  - intros k q Hk. destruct (Hl _ _ Hk) as (e' & He & Hke). destruct (decide (q = p)) as [->|Hne].
    + rewrite lookup_insert_eq. eexists. split; [done|]. cbn. congruence.
    + rewrite lookup_insert_ne by done. by exists e'.
  - intros Hp Hm q e' [[<- <-]|[Hne He]]%lookup_insert_Some; cbn; [intros _; by apply Hp|by apply Hm].
Qed.

Lemma releaseKey_ok tx m key : lmOk m → lmOk (releaseKey tx m key) ∧ (mapped m → mapped (releaseKey tx m key)).
Proof.
  intros Hok. pose proof Hok as [Hc Hf Hl]. unfold releaseKey. destruct (locks m !! key) as [p|] eqn:Ek; [|done].
  destruct (heap m !! p) as [e|] eqn:Ep; [|done]. destruct (existsb _ _) eqn:Er; [|done].
  destruct (Hl _ _ Ek) as (e0 & He0 & Hk0). rewrite Ep in He0. injection He0 as <-.
  set (filtered := filter (λ o, OwnerTx o ≠ tx) (owners e)).
  assert (compatible filtered) as Hcf.
  { destruct (Hc _ _ Ep) as [Hn Hu]. split.
    - eapply sublist_NoDup; [exact Hn|]. apply fmap_sublist, sublist_filter.
    - intros o1 o2 [_ H1]%list_elem_of_filter [_ H2]%list_elem_of_filter. by apply Hu. }
  split; [split|unfold mapped]; cbn.
  - intros q e' [[<- <-]|[_ He]]%lookup_insert_Some; [done|by eapply Hc].
  - intros q e' [[<- <-]|[_ He]]%lookup_insert_Some; by eapply Hf.
  - intros k q Hk. assert (locks m !! k = Some q) as Hkm.
    { destruct filtered; [by apply lookup_delete_Some in Hk as [_ ?]|done]. }
    destruct (Hl _ _ Hkm) as (e' & He & Hke). destruct (decide (q = p)) as [->|Hne].
    + rewrite lookup_insert_eq. eexists. split; [done|]. cbn. congruence.
    + rewrite lookup_insert_ne by done. by exists e'.
  - intros Hm q e' [[<- <-]|[Hne He]]%lookup_insert_Some; cbn.
    + destruct filtered; [done|]. intros _. by rewrite Hk0.
    + intros Ho. specialize (Hm _ _ He Ho). destruct filtered; [|done].
      rewrite lookup_delete_ne; [done|]. congruence.
Qed.

Lemma ReleaseAll_ok tx m : lmOk m → lmOk (ReleaseAll tx m) ∧ (mapped m → mapped (ReleaseAll tx m)).
Proof.
  unfold ReleaseAll. generalize (elements (dom (locks m))). intros ks. revert m.
  induction ks as [|k ks IH]; intros m Hok; cbn; [done|].
  destruct (releaseKey_ok tx m k Hok) as [H1 H2]. destruct (IH _ H1) as [H3 H4]. tauto.
Qed.

Lemma lockRun_ok P s : lockRun P s → lmOk (lm s).
Proof.
  induction 1 as [|s s' _ IH Hs _].
  { split; cbn; intros ? ? ?; by simplify_map_eq. }
  destruct Hs as [s key tx mode m' p E|s l1 l2 tx mode p m' _ E|s tx]; cbn.
  - by eapply getEntry_ok.
  - by eapply tryAcquire_ok.
  - by apply ReleaseAll_ok.
Qed.

Lemma lockRun_mapped s : lockRun quiet s → mapped (lm s) ∧ quiet s.
Proof.
  induction 1 as [|s s' Hr [IH Hq] Hs HP].
  { split; [intros p e He; cbn in He; by simplify_map_eq|]. intros w e Hw. by apply elem_of_nil in Hw. }
  split; [|done]. pose proof (lockRun_ok _ _ Hr) as Hok.
  destruct Hs as [s key tx mode m' p E|s l1 l2 tx mode p m' Ew E|s tx]; cbn.
  - by eapply getEntry_ok.
  - destruct (tryAcquire_ok _ _ _ _ _ Hok E) as [_ Hm]. apply Hm; [|done].
    intros e He. apply (Hq (tx, mode, p) e); [|done]. rewrite Ew. set_solver.
  - by apply ReleaseAll_ok.
Qed.

(** The transaction owns nothing in the entry of this key. *)
Definition clean (tx : Z) (m : LockManager) (k : string) : Prop :=
  ∀ p e, locks m !! k = Some p → heap m !! p = Some e → ∀ o, o ∈ owners e → OwnerTx o ≠ tx.

Lemma releaseKey_clean tx m key k :
  clean tx m k ∨ k = key → clean tx (releaseKey tx m key) k.
Proof.
  unfold releaseKey. destruct (locks m !! key) as [p|] eqn:Ek.
  2: { intros [?| ->]; [done|]. intros p e Hp. congruence. }
  destruct (heap m !! p) as [e|] eqn:Ep.
  2: { intros [?| ->]; [done|]. intros q e Hq He. congruence. }
  destruct (existsb _ _) eqn:Ex.
  - intros Hor q e' Hq He' o Ho. cbn in Hq, He'.
    assert (locks m !! k = Some q) as Hkq by (destruct (filter _ _); [by apply lookup_delete_Some in Hq as [_ ?]|done]).
    apply lookup_insert_Some in He' as [[<- <-]|[Hne He']]; [by apply list_elem_of_filter in Ho as [? _]|].
    destruct Hor as [Hc| ->]; [by eapply Hc|]. congruence.
  - intros [?| ->]; [done|]. intros q e' Hq He' o Ho Heq. rewrite Ek in Hq. injection Hq as <-.
    rewrite Ep in He'. injection He' as <-. assert (existsb (λ o, OwnerTx o =? tx) (owners e) = true); [|congruence].
    apply existsb_exists. exists o. split; [by apply list_elem_of_In|by apply Z.eqb_eq].
Qed.

Lemma releaseKey_locks tx m key k p : locks (releaseKey tx m key) !! k = Some p → locks m !! k = Some p.
Proof.
  unfold releaseKey. destruct (locks m !! key) as [q|]; [|done]. destruct (heap m !! q); [|done].
  destruct (existsb _ _); [|done]. cbn. destruct (filter _ _); [|done]. by intros [_ ?]%lookup_delete_Some.
Qed.

Lemma ReleaseAll_clean tx m k : clean tx (ReleaseAll tx m) k.
Proof.
  unfold ReleaseAll.
  assert (∀ ks m0, clean tx m0 k ∨ k ∈ ks → clean tx (foldl (releaseKey tx) m0 ks) k) as Hfold.
  { induction ks as [|k0 ks IH]; intros m0 Hor; cbn; [destruct Hor as [?|?%elem_of_nil]; done|].
    apply IH. destruct Hor as [?|[->|?]%elem_of_cons]; [left; apply releaseKey_clean; by left
      |left; apply releaseKey_clean; by right|by right]. }
  apply Hfold. destruct (locks m !! k) as [p|] eqn:E.
  - right. apply elem_of_elements, elem_of_dom. by eexists.
  - left. intros p e Hp. congruence.
Qed.

(** ** Properties of row locks *)

(** C40: Row locks exclude each other.  In every interleaving of [Acquire] calls,
    wake-ups and [ReleaseAll], the owners of one entry are distinct transactions
    and an update lock is alone; as long as nobody waits on an entry that left
    the map, two conflicting owners cannot hold the same row even through
    different entries; and [ReleaseAll] leaves the transaction no lock in any
    entry of the map. *)
Theorem row_locks_exclude :
  (∀ s p e, lockRun (λ _, True) s → heap (lm s) !! p = Some e → compatible (owners e)) ∧
  (∀ s p1 p2 e1 e2 o1 o2, lockRun quiet s →
     heap (lm s) !! p1 = Some e1 → heap (lm s) !! p2 = Some e2 → entryKey e1 = entryKey e2 →
     o1 ∈ owners e1 → o2 ∈ owners e2 → Mode o1 = LockModeUpdate → o1 = o2) ∧
  (∀ tx m k p e o, locks (ReleaseAll tx m) !! k = Some p → heap (ReleaseAll tx m) !! p = Some e →
     o ∈ owners e → OwnerTx o ≠ tx).
Proof.
  split_and!.
  - intros s p e Hr He. by eapply lo_compat; [eapply lockRun_ok|].
  - intros s p1 p2 e1 e2 o1 o2 Hr H1 H2 Hk Ho1 Ho2 Hm.
    destruct (lockRun_mapped _ Hr) as [Hmap _].
    assert (locks (lm s) !! entryKey e1 = Some p1) as L1 by (apply Hmap; [done|by destruct (owners e1); [apply elem_of_nil in Ho1|]]).
    assert (locks (lm s) !! entryKey e2 = Some p2) as L2 by (apply Hmap; [done|by destruct (owners e2); [apply elem_of_nil in Ho2|]]).
    rewrite Hk, L2 in L1. injection L1 as ->. rewrite H1 in H2. injection H2 as ->.
    destruct (lo_compat _ (lockRun_ok _ _ Hr) _ _ H1) as [_ Hu]. by apply Hu.
  - intros tx m k p e o Hk He Ho. by eapply (ReleaseAll_clean tx m k).
Qed.

(** Without that proviso the exclusion is lost: transaction 2 waits on the
    entry of transaction 1, whose release removes the entry from the map;
    transaction 3 then locks the row through a new entry, and transaction 2
    wakes up on the old one.  Both hold the row for update. *)
Example two_update_holders :
  ∃ s p1 p2 e1 e2, lockRun (λ _, True) s ∧ heap (lm s) !! p1 = Some e1 ∧ heap (lm s) !! p2 = Some e2 ∧
    entryKey e1 = "row"%string ∧ entryKey e2 = "row"%string ∧
    owners e1 = [mkRowLock LockModeUpdate 2] ∧ owners e2 = [mkRowLock LockModeUpdate 3].
Proof.
  pose (U := LockModeUpdate).
  pose (m1 := fst (getEntry "row" NewLockManager)).
  pose (m2 := default m1 (tryAcquire 0 1 U m1)). pose (m3 := ReleaseAll 1 m2).
  pose (m4 := fst (getEntry "row" m3)). pose (m5 := default m4 (tryAcquire 1 3 U m4)).
  pose (m6 := default m5 (tryAcquire 0 2 U m5)).
  assert (lockRun (λ _, True) (mkSys m1 [(1, U, 0%nat)])) as R1.
  { eapply run_step; [apply run_init|exact (L_call (mkSys NewLockManager []) "row" 1 U m1 0 eq_refl)|done]. }
  assert (lockRun (λ _, True) (mkSys m2 [])) as R2.
  { eapply run_step; [exact R1|exact (L_grant (mkSys m1 [(1, U, 0%nat)]) [] [] 1 U 0 m2 eq_refl eq_refl)|done]. }
  assert (lockRun (λ _, True) (mkSys m2 [(2, U, 0%nat)])) as R3.
  { eapply run_step; [exact R2|exact (L_call (mkSys m2 []) "row" 2 U m2 0 eq_refl)|done]. }
  assert (lockRun (λ _, True) (mkSys m3 [(2, U, 0%nat)])) as R4.
  { eapply run_step; [exact R3|exact (L_release (mkSys m2 [(2, U, 0%nat)]) 1)|done]. }
  assert (lockRun (λ _, True) (mkSys m4 [(3, U, 1%nat); (2, U, 0%nat)])) as R5.
  { eapply run_step; [exact R4|exact (L_call (mkSys m3 [(2, U, 0%nat)]) "row" 3 U m4 1 eq_refl)|done]. }
  assert (lockRun (λ _, True) (mkSys m5 [(2, U, 0%nat)])) as R6.
  { eapply run_step; [exact R5|exact (L_grant (mkSys m4 [(3, U, 1%nat); (2, U, 0%nat)]) [] [(2, U, 0%nat)] 3 U 1 m5 eq_refl eq_refl)|done]. }
  assert (lockRun (λ _, True) (mkSys m6 [])) as R7.
  { eapply run_step; [exact R6|exact (L_grant (mkSys m5 [(2, U, 0%nat)]) [] [] 2 U 0 m6 eq_refl eq_refl)|done]. }
  exists (mkSys m6 []), 0%nat, 1%nat, (mkEntry [mkRowLock U 2] "row"), (mkEntry [mkRowLock U 3] "row").
  by split_and!.
Qed.
End RowLocks.

(** ** Spin locks *)

Module SpinLocks.

(** Conversion of an [int32] result. *)
Definition s32 (z : Z) : Z := (z + 2 ^ 31) mod 2 ^ 32 - 2 ^ 31.

Lemma s32_small z : - 2 ^ 31 ≤ z < 2 ^ 31 → s32 z = z.
Proof. unfold s32. intros. rewrite Z.mod_small by lia. lia. Qed.

Definition lwRLockWrite : Z := -1.
Definition lwRLockFree : Z := 0.

(** Where a goroutine is in the methods of [LWRLock]: between calls, behind the
    load of [RLock] or [RUnlock] with the value it saw, holding, or panicked. *)
Inductive phase : Type :=
| Idle | RLoaded (s : Z) | Reading | RULoaded (s : Z) | Writing | Panicked.

(** The atomic actions of the methods; [None] when the action does not apply. *)
Inductive action : Type := ARLoad | ARCas | ARULoad | ARUCas | ALock | AUnlock.

Definition lwStep (a : action) (state : Z) (p : phase) : option (Z * phase) :=
  match a, p with
  | ARLoad, Idle => Some (state, RLoaded state)
  | ARCas, RLoaded s =>
      if 0 <=? s then
        if state =? s then Some (s32 (s + 1), Reading) else Some (state, Idle)
      else Some (state, Idle)
  | ARULoad, Reading => if 0 <? state then Some (state, RULoaded state) else Some (state, Panicked)
  | ARUCas, RULoaded s => if state =? s then Some (s32 (s - 1), Idle) else Some (state, Reading)
  | ALock, Idle => if state =? lwRLockFree then Some (lwRLockWrite, Writing) else Some (state, Idle)
  | AUnlock, Writing => if state =? lwRLockWrite then Some (lwRLockFree, Idle) else Some (state, Panicked)
  | _, _ => None
  end.

Inductive lwSys : Z * list phase → Z * list phase → Prop :=
| lw_step a state state' l1 l2 p p' :
    lwStep a state p = Some (state', p') → lwSys (state, l1 ++ p :: l2) (state', l1 ++ p' :: l2).

(** [LWLock]: a compare-and-swap to lock, a plain store to unlock. *)
Inductive xphase : Type := XIdle | XHeld.

Definition xStep (lock : bool) (state : Z) (p : xphase) : option (Z * xphase) :=
  match lock, p with
  | true, XIdle => if state =? 0 then Some (1, XHeld) else Some (state, XIdle)
  | false, XHeld => Some (0, XIdle)
  | _, _ => None
  end.

Inductive xSys : Z * list xphase → Z * list xphase → Prop :=
| x_step b state state' l1 l2 p p' :
    xStep b state p = Some (state', p') → xSys (state, l1 ++ p :: l2) (state', l1 ++ p' :: l2).

Definition reader (p : phase) : bool := match p with Reading | RULoaded _ => true | _ => false end.
Definition writer (p : phase) : bool := match p with Writing => true | _ => false end.
Definition panicked (p : phase) : bool := match p with Panicked => true | _ => false end.
Definition held (p : xphase) : bool := match p with XHeld => true | _ => false end.

Definition count {A} (f : A → bool) (l : list A) : Z := foldr (λ x n, n + Z.b2z (f x)) 0 l.

Lemma count_app {A} (f : A → bool) l1 l2 : count f (l1 ++ l2) = count f l1 + count f l2.
Proof. unfold count. induction l1 as [|x l1 IH]; cbn [app foldr]; [done|]. rewrite IH. lia. Qed.
Lemma count_cons {A} (f : A → bool) x l : count f (x :: l) = count f l + Z.b2z (f x).
Proof. done. Qed.
Lemma count_range {A} (f : A → bool) l : 0 ≤ count f l ≤ Z.of_nat (length l).
Proof.
  induction l as [|x l IH]; [done|]. rewrite count_cons. cbn [length]. destruct (f x); cbn [Z.b2z]; lia.
Qed.
Lemma count_pos {A} (f : A → bool) l i x : l !! i = Some x → f x = true → 1 ≤ count f l.
Proof.
  revert i. induction l as [|y l IH]; intros [|i] Hi Hx; [done..| |]; rewrite count_cons.
  - injection Hi as ->. rewrite Hx. pose proof (count_range f l). cbn. lia.
  - specialize (IH i Hi Hx). destruct (f y); cbn [Z.b2z]; lia.
Qed.
Lemma count_two {A} (f : A → bool) l i j x y :
  l !! i = Some x → l !! j = Some y → i ≠ j → f x = true → f y = true → 2 ≤ count f l.
Proof.
  revert i j. induction l as [|z l IH]; intros [|i] [|j] Hi Hj Hne Hx Hy; try done; rewrite count_cons; cbn in Hi, Hj.
  - injection Hi as ->. rewrite Hx. pose proof (count_pos f l j y Hj Hy). cbn. lia.
  - injection Hj as ->. rewrite Hy. pose proof (count_pos f l i x Hi Hx). cbn. lia.
  - specialize (IH i j Hi Hj ltac:(congruence) Hx Hy). destruct (f z); cbn [Z.b2z]; lia.
Qed.

(** The state word counts the readers, or marks the one writer. *)
Definition lwInv (n : Z) (s : Z * list phase) : Prop :=
  Z.of_nat (length (snd s)) = n ∧ count panicked (snd s) = 0 ∧
  ((fst s = -1 ∧ count writer (snd s) = 1 ∧ count reader (snd s) = 0) ∨
   (fst s = count reader (snd s) ∧ count writer (snd s) = 0)).

Lemma lwSys_inv n s s' : n < 2 ^ 31 → lwInv n s → lwSys s s' → lwInv n s'.
Proof.
  intros Hn (Hlen & Hp & Hst) Hs. destruct Hs as [a state state' l1 l2 p p' E]. unfold lwInv. cbn [fst snd] in *.
  rewrite length_app in *. cbn [length] in *. rewrite !count_app, !count_cons in *.
  pose proof (count_range reader l1). pose proof (count_range reader l2).
  pose proof (count_range writer l1). pose proof (count_range writer l2).
  pose proof (count_range panicked l1). pose proof (count_range panicked l2).
  split; [lia|]. destruct a, p; cbn in E; try done;
    repeat match type of E with
    | context [?x <=? ?y] => destruct (Z.leb_spec x y)
    | context [?x <? ?y] => destruct (Z.ltb_spec x y)
    | context [?x =? ?y] => destruct (Z.eqb_spec x y)
    end; injection E as <- <-; cbn [reader writer panicked Z.b2z] in *; subst;
    try (rewrite s32_small by lia); unfold lwRLockFree, lwRLockWrite in *; lia.
Qed.

Definition xInv (s : Z * list xphase) : Prop :=
  (fst s = 1 ∧ count held (snd s) = 1) ∨ (fst s = 0 ∧ count held (snd s) = 0).

Lemma xSys_inv s s' : xInv s → xSys s s' → xInv s'.
Proof.
  intros Hi Hs. destruct Hs as [b state state' l1 l2 p p' E]. unfold xInv in *. cbn [fst snd] in *.
  rewrite !count_app, !count_cons in *.
  pose proof (count_range held l1). pose proof (count_range held l2).
  destruct b, p; cbn in E; try done; [destruct (Z.eqb_spec state 0)|]; injection E as <- <-; cbn [held Z.b2z] in *; lia.
Qed.

Lemma count_replicate {A} (f : A → bool) n x : f x = false → count f (replicate n x) = 0.
Proof. intros Hf. induction n as [|n IH]; [done|]. cbn [replicate]. rewrite count_cons, IH, Hf. done. Qed.

(** The spin locks exclude.  In every interleaving of the atomic loads and
    compare-and-swaps of any number of goroutines (below the 2^31 an int32 can
    count), a goroutine that holds the read-write lock for writing excludes
    every other holder, and no unlock panics; the plain spin lock has at most
    one holder. *)
Theorem spin_locks_exclude (n : nat) (s : Z * list phase) (x : Z * list xphase) (i j : nat) :
  Z.of_nat n < 2 ^ 31 → i ≠ j →
  rtc lwSys (lwRLockFree, replicate n Idle) s → rtc xSys (0, replicate n XIdle) x →
  (snd s !! i = Some Writing → ∀ p, snd s !! j = Some p → reader p = false ∧ writer p = false) ∧
  (∀ p, snd s !! i = Some p → p ≠ Panicked) ∧
  (snd x !! i = Some XHeld → snd x !! j = Some XHeld → False).
Proof.
  intros Hn Hij Hs Hx.
  assert (lwInv (Z.of_nat n) s) as (Hlen & Hp & Hst).
  { assert (lwInv (Z.of_nat n) (lwRLockFree, replicate n Idle)) as H0.
    { split; [cbn; by rewrite length_replicate|]. cbn [fst snd]. rewrite !count_replicate by done.
      split; [done|]. by right. }
    induction Hs as [|s0 s1 s2 Hstep _ IH]; [done|]. apply IH. by eapply lwSys_inv. }
  assert (xInv x) as Hxi.
  { assert (xInv (0, replicate n XIdle)) as H0 by (right; cbn [fst snd]; by rewrite count_replicate).
    induction Hx as [|x0 x1 x2 Hstep _ IH]; [done|]. apply IH. by eapply xSys_inv. }
  split_and!.
  - intros Hi p Hj. pose proof (count_pos writer _ _ _ Hi eq_refl) as Hw.
    split.
    + destruct (reader p) eqn:E; [|done]. pose proof (count_pos reader _ _ _ Hj E). lia.
    + destruct (writer p) eqn:E; [|done]. pose proof (count_two writer _ _ _ _ _ Hi Hj Hij eq_refl E). lia.
  - intros p Hi ->. pose proof (count_pos panicked _ _ _ Hi eq_refl). lia.
  - intros Hi Hj. pose proof (count_two held _ _ _ _ _ Hi Hj Hij eq_refl eq_refl). destruct Hxi as [[_ ?]|[_ ?]]; lia.
Qed.

Lemma spin_locks_exclude_witness :
  let s := (-1, [Idle; Writing]) in let x := (1, [XHeld; XIdle]) in
  rtc lwSys (lwRLockFree, replicate 2 Idle) s ∧ rtc xSys (0, replicate 2 XIdle) x ∧
  (snd s !! 1%nat = Some Writing → ∀ p, snd s !! 0%nat = Some p → reader p = false ∧ writer p = false) ∧
  (∀ p, snd s !! 1%nat = Some p → p ≠ Panicked) ∧
  (snd x !! 1%nat = Some XHeld → snd x !! 0%nat = Some XHeld → False).
Proof.
  intros s x. assert (rtc lwSys (lwRLockFree, replicate 2 Idle) s) as Hs.
  { apply rtc_once. exact (lw_step ALock 0 (-1) [Idle] [] Idle Writing eq_refl). }
  assert (rtc xSys (0, replicate 2 XIdle) x) as Hx.
  { apply rtc_once. exact (x_step true 0 1 [] [XIdle] XIdle XHeld eq_refl). }
  split; [exact Hs|]. split; [exact Hx|].
  apply (spin_locks_exclude 2 s x 1 0); [lia|lia|exact Hs|exact Hx].
Defined.
End SpinLocks.

(** ** Page lock stripes *)

Module PageLocks.

Record PageID : Type := mkPageID { TableID : Z; SegmentNo : Z; PageNo : Z }.

Definition numPageLocks : Z := 4096.

(** The stripe of a page: the 32-bit hash of [getLock]. *)
Definition stripe (pid : PageID) : Z :=
  Z.lxor (Z.lxor (u32 (TableID pid * 16777619)) (u32 (SegmentNo pid * 1140071481)))
    (u32 (PageNo pid * 2654435761)) mod numPageLocks.

(** The distinct stripes in the order of their first page. *)
Fixpoint distinctStripes (seen : gset Z) (pids : list PageID) : list Z :=
  match pids with
  | [] => []
  | pid :: pids =>
      let hash := stripe pid in
      if bool_decide (hash ∈ seen) then distinctStripes seen pids
      else hash :: distinctStripes ({[hash]} ∪ seen) pids
  end.

(** The inner loop of the insertion sort: the element moves left past larger
    ones; the sorted part is given from its right end. *)
Fixpoint moveLeft (h : Z) (sorted : list Z) : list Z :=
  match sorted with
  | [] => [h]
  | y :: sorted => if h <? y then y :: moveLeft h sorted else h :: y :: sorted
  end.

Definition insertionSort (hashes : list Z) : list Z :=
  rev (foldl (λ sorted h, moveLeft h sorted) [] hashes).

(** The stripes [LockTable] locks and [UnlockTable] unlocks, in order. *)
Definition lockOrder (pids : list PageID) : list Z := insertionSort (distinctStripes ∅ pids).

(** A goroutine that locks a table and unlocks it: the stripes it holds, oldest
    first, and those it has yet to lock. *)
Record thread : Type := mkThread { holding : list Z; todo : list Z }.

Inductive tableStep : list thread → list thread → Prop :=
| t_lock l1 l2 h t x :
    Forall (λ u, x ∉ holding u) (l1 ++ mkThread h (x :: t) :: l2) →
    tableStep (l1 ++ mkThread h (x :: t) :: l2) (l1 ++ mkThread (h ++ [x]) t :: l2)
| t_unlock l1 l2 h x :
    tableStep (l1 ++ mkThread (x :: h) [] :: l2) (l1 ++ mkThread h [] :: l2).

Lemma distinctStripes_spec seen pids :
  NoDup (distinctStripes seen pids) ∧
  ∀ h, h ∈ distinctStripes seen pids ↔ (h ∉ seen) ∧ h ∈ stripe <$> pids.
Proof.
  revert seen. induction pids as [|pid pids IH]; intros seen; cbn.
  { split; [apply NoDup_nil_2|]. intros h. rewrite elem_of_nil. tauto. }
  case_bool_decide as Hin.
  - destruct (IH seen) as [H1 H2]. split; [done|]. intros h. rewrite H2, elem_of_cons.
    split; [tauto|]. intros [? [->|?]]; done.
  - destruct (IH ({[stripe pid]} ∪ seen)) as [H1 H2]. split.
    + constructor; [|done]. rewrite H2. set_solver.
    + intros h. rewrite !elem_of_cons, H2, elem_of_union, elem_of_singleton.
      destruct (decide (h = stripe pid)) as [->|]; tauto.
Qed.

Lemma moveLeft_Permutation h l : moveLeft h l ≡ₚ h :: l.
Proof.
  induction l as [|y l IH]; cbn; [done|]. destruct (h <? y); [|done]. rewrite IH. constructor.
Qed.

Lemma moveLeft_sorted h l : StronglySorted Z.ge l → StronglySorted Z.ge (moveLeft h l).
Proof.
  induction 1 as [|y l Hs IH Hy]; cbn; [by repeat constructor|]. destruct (Z.ltb_spec h y).
  - constructor; [done|]. rewrite moveLeft_Permutation. constructor; [lia|done].
  - constructor; [by constructor|]. constructor; [lia|]. eapply Forall_impl; [exact Hy|]. cbn. intros. lia.
Qed.

Lemma StronglySorted_rev {A} (R : relation A) l :
  StronglySorted R l → StronglySorted (λ a b, R b a) (rev l).
Proof.
  induction 1 as [|x l Hs IH Hx]; cbn; [constructor|]. apply StronglySorted_app. split_and!; [|done|by repeat constructor].
  intros a b Ha ->%list_elem_of_singleton. rewrite Forall_forall in Hx. apply Hx.
  by rewrite list_elem_of_In, <- in_rev, <- list_elem_of_In in Ha.
Qed.

Lemma insertionSort_spec l : insertionSort l ≡ₚ l ∧ StronglySorted Z.le (insertionSort l).
Proof.
  unfold insertionSort.
  assert (∀ hs acc, StronglySorted Z.ge acc →
    foldl (λ sorted h, moveLeft h sorted) acc hs ≡ₚ hs ++ acc ∧
    StronglySorted Z.ge (foldl (λ sorted h, moveLeft h sorted) acc hs)) as Hf.
  { induction hs as [|h hs IH]; intros acc Ha; cbn; [done|].
    destruct (IH (moveLeft h acc)) as [H1 H2]; [by apply moveLeft_sorted|]. split; [|done].
    rewrite H1, moveLeft_Permutation. by rewrite Permutation_middle. }
  destruct (Hf l []) as [H1 H2]; [constructor|]. rewrite app_nil_r in H1. split.
  - by rewrite <- Permutation_rev.
  - apply StronglySorted_rev in H2. revert H2. generalize (rev (foldl (λ sorted h, moveLeft h sorted) [] l)).
    intros l'. induction 1 as [|x l' _ IH Hx]; constructor; [done|]. eapply Forall_impl; [exact Hx|]. cbn. intros. lia.
Qed.

Lemma lockOrder_spec pids :
  StronglySorted Z.lt (lockOrder pids) ∧ ∀ h, h ∈ lockOrder pids ↔ h ∈ stripe <$> pids.
Proof.
  unfold lockOrder. destruct (distinctStripes_spec ∅ pids) as [Hn Hin].
  destruct (insertionSort_spec (distinctStripes ∅ pids)) as [Hp Hs]. split.
  - rewrite <- Hp in Hn. revert Hs Hn. generalize (insertionSort (distinctStripes ∅ pids)). intros l.
    induction 1 as [|a l _ IH Ha]; [constructor|]. intros [Hn Hnd]%NoDup_cons. constructor; [by apply IH|].
    rewrite Forall_forall in Ha |- *. intros x Hx. specialize (Ha x Hx). assert (x ≠ a) by (by intros ->). lia.
  - intros h. rewrite Hp, Hin. split; [by intros [_ ?]|]. intros ?. split; [set_solver|done].
Qed.

(** Every goroutine locks in increasing order. *)
Definition ordered (ts : list thread) : Prop := Forall (λ t, StronglySorted Z.lt (holding t ++ todo t)) ts.

Lemma tableStep_ordered ts ts' : ordered ts → tableStep ts ts' → ordered ts'.
Proof.
  unfold ordered. intros Ho Hs. destruct Hs as [l1 l2 h t x _|l1 l2 h x];
    rewrite Forall_app, Forall_cons in *; destruct Ho as (H1 & H2 & H3); split_and!; try done; cbn in *.
  - by rewrite <- app_assoc.
  - rewrite app_nil_r in *. by inversion H2.
Qed.

(** The goroutine that waits for the largest stripe. *)
Lemma max_waiter (ts : list thread) :
  (∃ t, t ∈ ts ∧ todo t ≠ []) →
  ∃ t x r, t ∈ ts ∧ todo t = x :: r ∧ ∀ u y r', u ∈ ts → todo u = y :: r' → y ≤ x.
Proof.
  induction ts as [|t ts IH]; intros (u & Hu & Hne); [by apply elem_of_nil in Hu|].
  destruct (decide (Exists (λ v, todo v ≠ []) ts)) as [Hex|Hno].
  - apply Exists_exists in Hex as (v & Hv & Hvn).
    destruct IH as (w & x & r & Hw & Ew & Hmax); [by exists v|].
    destruct (todo t) as [|y r'] eqn:Et.
    + exists w, x, r. split_and!; [by right|done|]. intros v' y r' [->|Hv']%elem_of_cons Ey; [congruence|by eapply Hmax].
    + destruct (Z.le_gt_cases y x).
      * exists w, x, r. split_and!; [by right|done|]. intros v' z r2 [->|Hv']%elem_of_cons Ez; [|by eapply Hmax].
        rewrite Et in Ez. injection Ez as <- _. done.
      * exists t, y, r'. split_and!; [by left|done|]. intros v' z r2 [->|Hv']%elem_of_cons Ez.
        -- rewrite Et in Ez. injection Ez as <- _. lia.
        -- specialize (Hmax _ _ _ Hv' Ez). lia.
  - assert (∀ v, v ∈ ts → todo v = []) as Hnil.
    { intros v Hv. destruct (decide (todo v = [])); [done|]. destruct Hno. apply Exists_exists. by exists v. }
    apply elem_of_cons in Hu as [->|Hu]; [|by rewrite (Hnil _ Hu) in Hne].
    destruct (todo t) as [|x r] eqn:Et; [done|]. exists t, x, r. split_and!; [by left|done|].
    intros v y r' [->|Hv]%elem_of_cons Ey; [rewrite Et in Ey; injection Ey as <- _; lia|].
    rewrite (Hnil _ Hv) in Ey. done.
Qed.

Lemma progress ts :
  ordered ts → (∃ t, t ∈ ts ∧ (holding t ≠ [] ∨ todo t ≠ [])) → ∃ ts', tableStep ts ts'.
Proof.
  intros Ho Hex.
  assert (∀ t x h, t ∈ ts → t = mkThread (x :: h) [] → ∃ ts', tableStep ts ts') as Hunlock.
  { intros t x h (l1 & l2 & ->)%list_elem_of_split ->. eexists. apply t_unlock. }
  destruct (decide (Exists (λ v, todo v ≠ []) ts)) as [Hw|Hno].
  - apply Exists_exists in Hw as (v & Hv & Hvn). destruct (max_waiter ts) as (t & x & r & Ht & Et & Hmax); [by exists v|].
    destruct (decide (Forall (λ u, x ∉ holding u) ts)) as [Hfree|Hheld].
    + destruct t as [h td]. cbn in Et. subst td. apply list_elem_of_split in Ht as (l1 & l2 & ->).
      eexists. by apply t_lock.
    + apply not_Forall_Exists, Exists_exists in Hheld as (u & Hu & Hin); [|intros u; apply _].
      assert (x ∈ holding u) as Hin' by (destruct (decide (x ∈ holding u)); [done|by destruct Hin]). clear Hin.
      destruct u as [h td]. cbn in Hin'. destruct td as [|y r'].
      * destruct h as [|z h]; [by apply elem_of_nil in Hin'|]. by eapply Hunlock.
      * specialize (Hmax _ y r' Hu eq_refl). unfold ordered in Ho. rewrite Forall_forall in Ho.
        specialize (Ho _ Hu). cbn in Ho. apply StronglySorted_app in Ho as (Ho & _ & _).
        specialize (Ho x y Hin' ltac:(by left)). lia.
  - destruct Hex as (t & Ht & Hne). assert (todo t = []) as Etd.
    { destruct (decide (todo t = [])); [done|]. destruct Hno. apply Exists_exists. by exists t. }
    destruct Hne as [Hh|?]; [|done]. destruct t as [h td]. cbn in *. subst td.
    destruct h as [|z h]; [done|]. by eapply Hunlock.
Qed.

(** Table locks do not deadlock.  [LockTable] locks exactly the stripes of
    the pages, each once, in increasing order, and [UnlockTable] releases the
    same list; therefore, from any number of goroutines that lock and unlock
    tables, every interleaving either finishes or some goroutine can go on. *)
Theorem table_locks_progress (tables : list (list PageID)) (ts : list thread) :
  rtc tableStep ((λ pids, mkThread [] (lockOrder pids)) <$> tables) ts →
  (∀ pids, StronglySorted Z.lt (lockOrder pids) ∧ ∀ h, h ∈ lockOrder pids ↔ h ∈ stripe <$> pids) ∧
  (Forall (λ t, holding t = [] ∧ todo t = []) ts ∨ ∃ ts', tableStep ts ts').
Proof.
  intros Hr. split; [apply lockOrder_spec|].
  assert (ordered ts) as Ho.
  { assert (ordered ((λ pids, mkThread [] (lockOrder pids)) <$> tables)) as H0.
    { unfold ordered. apply Forall_fmap, Forall_forall. intros pids _. cbn. apply lockOrder_spec. }
    induction Hr as [|t0 t1 t2 Hs _ IH]; [done|]. apply IH. by eapply tableStep_ordered. }
  destruct (decide (Forall (λ t, holding t = [] ∧ todo t = []) ts)) as [?|Hn]; [by left|right].
  apply progress; [done|]. apply not_Forall_Exists, Exists_exists in Hn as (t & Ht & Hne); [|intros t; apply _].
  exists t. split; [done|]. destruct (decide (holding t = [])); [right|by left]. intros ?. by apply Hne.
Qed.

Lemma table_locks_progress_witness :
  let tables := [[mkPageID 1 0 7; mkPageID 1 0 8; mkPageID 1 0 7]; [mkPageID 1 0 8]] in
  let ts := (λ pids, mkThread [] (lockOrder pids)) <$> tables in
  (∀ pids, StronglySorted Z.lt (lockOrder pids) ∧ ∀ h, h ∈ lockOrder pids ↔ h ∈ stripe <$> pids) ∧
  (Forall (λ t, holding t = [] ∧ todo t = []) ts ∨ ∃ ts', tableStep ts ts').
Proof. intros tables ts. apply (table_locks_progress tables ts). apply rtc_refl. Defined.
End PageLocks.
