(* ===== verification/Raft.v ===== *)
(** * Cluster: leader election, replication, snapshots, two-phase commit

    [server/internal/cluster/raft/node.go], [replication.go],
    [snapshot_stream.go] and [server/internal/cluster/tx2pc/2pc.go]. *)

From stdpp Require Import relations.
From S2P Require Import Prelude Bytes.

(** ** Raft nodes *)

Inductive State : Type := Follower | Candidate | Leader.

#[export] Instance State_eq_dec : EqDecision State.
Proof. solve_decision. Defined.

(** [Peers] is the set of node ids the map leads to. *)
Record RaftNode : Type := mkNode {
  nodeID : string; Peers : gset string; nodeState : State; CurrentTerm : Z; VotedFor : string }.

Definition NewRaftNode (id : string) : RaftNode := mkNode id ∅ Follower 0 EmptyString.

Definition AddPeer (id : string) (n : RaftNode) : RaftNode :=
  mkNode (nodeID n) ({[id]} ∪ Peers n) (nodeState n) (CurrentTerm n) (VotedFor n).

(** [RequestVote] and [AppendEntries] also answer with [CurrentTerm] as they
    leave it, which no caller reads. *)
Definition RequestVote (term : Z) (candidateID : string) (n : RaftNode) : RaftNode * bool :=
  let n := if CurrentTerm n <? term then mkNode (nodeID n) (Peers n) Follower term EmptyString else n in
  if (term =? CurrentTerm n) && (bool_decide (VotedFor n = EmptyString) || bool_decide (VotedFor n = candidateID))
  then (mkNode (nodeID n) (Peers n) (nodeState n) (CurrentTerm n) candidateID, true)
  else (n, false).

(** The vote of an earlier term is kept when the term grows. *)
Definition AppendEntries (term : Z) (n : RaftNode) : RaftNode * bool :=
  if term <? CurrentTerm n then (n, false)
  else (mkNode (nodeID n) (Peers n) Follower term (VotedFor n), true).

(** The parts of [Tick] under the mutex: becoming a candidate, and the end of
    the election with the votes counted in between. *)
Definition startElection (n : RaftNode) : RaftNode :=
  mkNode (nodeID n) (Peers n) Candidate (u64 (CurrentTerm n + 1)) (nodeID n).

Definition endElection (term votes : Z) (peers : gset string) (n : RaftNode) : RaftNode :=
  if bool_decide (nodeState n = Candidate) && (CurrentTerm n =? term) &&
     ((Z.of_nat (size peers) + 1) / 2 <? votes)
  then mkNode (nodeID n) (Peers n) Leader (CurrentTerm n) (VotedFor n) else n.

(** An election in progress: the candidate, its term, the peers it has still to
    ask, all the peers, and who voted for it, itself included. *)
Record election : Type := mkElection {
  e_cand : string; e_term : Z; e_left : gset string; e_peers : gset string; e_votes : gset string }.

(** A cluster: its nodes, the elections in progress and the leaders so far. *)
Record cluster : Type := mkCluster {
  c_nodes : gmap string RaftNode; c_elections : list election; c_leaders : list (string * Z) }.

Inductive clusterStep : cluster → cluster → Prop :=
| S_start c id n :
    c_nodes c !! id = Some n → nodeState n ≠ Leader → CurrentTerm n < 2 ^ 64 - 1 →
    clusterStep c (mkCluster (<[id := startElection n]> (c_nodes c))
      (mkElection id (CurrentTerm n + 1) (Peers n) (Peers n) {[id]} :: c_elections c) (c_leaders c))
| S_vote c l1 l2 e p n n' granted :
    c_elections c = l1 ++ e :: l2 → p ∈ e_left e → c_nodes c !! p = Some n →
    RequestVote (e_term e) (e_cand e) n = (n', granted) →
    clusterStep c (mkCluster (<[p := n']> (c_nodes c))
      (l1 ++ mkElection (e_cand e) (e_term e) (e_left e ∖ {[p]}) (e_peers e)
               (if granted then {[p]} ∪ e_votes e else e_votes e) :: l2) (c_leaders c))
| S_lost c l1 l2 e p :
    c_elections c = l1 ++ e :: l2 → p ∈ e_left e →
    clusterStep c (mkCluster (c_nodes c)
      (l1 ++ mkElection (e_cand e) (e_term e) (e_left e ∖ {[p]}) (e_peers e) (e_votes e) :: l2) (c_leaders c))
| S_end c l1 l2 e n :
    c_elections c = l1 ++ e :: l2 → e_left e = ∅ → c_nodes c !! e_cand e = Some n →
    let n' := endElection (e_term e) (Z.of_nat (size (e_votes e))) (e_peers e) n in
    clusterStep c (mkCluster (<[e_cand e := n']> (c_nodes c)) (l1 ++ l2)
      (if bool_decide (nodeState n ≠ Leader) && bool_decide (nodeState n' = Leader)
       then (e_cand e, e_term e) :: c_leaders c else c_leaders c))
| S_append c id p n n' ok term :
    c_nodes c !! p = Some n → (id, term) ∈ c_leaders c → AppendEntries term n = (n', ok) →
    clusterStep c (mkCluster (<[p := n']> (c_nodes c)) (c_elections c) (c_leaders c)).

(** A full mesh of named nodes. *)
Definition clusterInit (ids : gset string) : cluster :=
  mkCluster (set_to_map (λ id, (id, mkNode id (ids ∖ {[id]}) Follower 0 EmptyString)) ids) [] [].

(** ** Election safety *)

Section Election.
Context (ids : gset string).
Context (Hnames : (EmptyString : string) ∉ ids).

(** [cast v t c]: node [v] has voted for [c] in term [t]. *)
Record clusterInv (cast : string → Z → string → Prop) (c : cluster) : Prop := {
  ci_node id n : c_nodes c !! id = Some n →
    id ∈ ids ∧ nodeID n = id ∧ Peers n = ids ∖ {[id]} ∧ 0 ≤ CurrentTerm n < 2 ^ 64 ∧
    (nodeState n = Leader → (id, CurrentTerm n) ∈ c_leaders c);
  ci_cast v t x : cast v t x → x ≠ EmptyString ∧ ∃ n, c_nodes c !! v = Some n ∧ t ≤ CurrentTerm n ∧
    (t = CurrentTerm n → VotedFor n = x);
  ci_once v t x y : cast v t x → cast v t y → x = y;
  ci_election e : e ∈ c_elections c → e_cand e ∈ ids ∧ e_peers e = ids ∖ {[e_cand e]} ∧
    e_left e ⊆ ids ∧ e_votes e ⊆ ids ∧ ∀ v, v ∈ e_votes e → cast v (e_term e) (e_cand e);
  ci_leader x t : (x, t) ∈ c_leaders c →
    ∃ S : gset string, S ⊆ ids ∧ (size ids < 2 * size S)%nat ∧ ∀ v, v ∈ S → cast v t x }.

Lemma named id : id ∈ ids → id ≠ EmptyString.
Proof. by intros Hid ->. Qed.

(** A node that changes without losing a vote it has cast. *)
Lemma clusterInv_node cast c p n n' elections :
  clusterInv cast c → c_nodes c !! p = Some n → nodeID n' = nodeID n → Peers n' = Peers n →
  0 ≤ CurrentTerm n' < 2 ^ 64 → CurrentTerm n ≤ CurrentTerm n' →
  (CurrentTerm n' = CurrentTerm n → VotedFor n ≠ EmptyString → VotedFor n' = VotedFor n) →
  (nodeState n' = Leader → nodeState n = Leader ∧ CurrentTerm n' = CurrentTerm n) →
  (∀ e, e ∈ elections → e ∈ c_elections c) →
  clusterInv cast (mkCluster (<[p := n']> (c_nodes c)) elections (c_leaders c)).
Proof.
  intros [Hn Hc Ho He Hl] Hp Eid Epe Hr Hle Hv Hlead Hel. split; cbn [c_nodes c_elections c_leaders].
  - intros id m [[<- <-]|[_ Hm]]%lookup_insert_Some; [|by apply Hn].
    destruct (Hn _ _ Hp) as (H1 & H2 & H3 & H4 & H5). rewrite Eid, Epe. split_and!; try done; try lia.
    intros HL. destruct (Hlead HL) as [HL' ->]. by apply H5.
  - intros v t x Hcast. destruct (Hc _ _ _ Hcast) as (Hx & m & Hm & Ht & Hvote). split; [done|].
    destruct (decide (v = p)) as [->|Hne]; [|exists m; by rewrite lookup_insert_ne].
    rewrite Hp in Hm. injection Hm as <-. exists n'. rewrite lookup_insert_eq. split_and!; [done|lia|].
    intros Et. assert (t = CurrentTerm n) as Et' by lia. specialize (Hvote Et').
    rewrite <- Hvote. apply Hv; [lia|]. by rewrite Hvote.
  - done.
  - intros e Hin. by apply He, Hel.
  - done.
Qed.

(** Casting a new vote. *)
Lemma clusterInv_cast cast c v t x n :
  clusterInv cast c → c_nodes c !! v = Some n → CurrentTerm n = t → VotedFor n = x → x ≠ EmptyString →
  clusterInv (λ v' t' x', cast v' t' x' ∨ (v' = v ∧ t' = t ∧ x' = x)) c.
Proof.
  intros [Hn Hc Ho He Hl] Hv Et Ex Hx. split.
  - done.
  - intros v' t' x' [Hcast|(-> & -> & ->)]; [by apply Hc|]. split; [done|]. exists n. split_and!; [done|lia|done].
  - intros v' t' x' y' [H1|(-> & -> & ->)] [H2|(E1 & E2 & ->)].
    + by eapply Ho.
    + subst v' t'. destruct (Hc _ _ _ H1) as (_ & m & Hm & _ & Hvote). rewrite Hv in Hm. injection Hm as <-.
      rewrite <- Hvote by done. done.
    + destruct (Hc _ _ _ H2) as (_ & m & Hm & _ & Hvote). rewrite Hv in Hm. injection Hm as <-.
      rewrite <- Hvote by done. done.
    + done.
  - intros e Hin. destruct (He _ Hin) as (? & ? & ? & ? & Hvs). split_and!; try done. intros w Hw. left. by apply Hvs.
  - intros y t' Hin. destruct (Hl _ _ Hin) as (S & ? & ? & HS). exists S. split_and!; try done. intros w Hw. left. by apply HS.
Qed.

Lemma clusterInv_elections cast c elections :
  clusterInv cast c →
  (∀ e, e ∈ elections → e_cand e ∈ ids ∧ e_peers e = ids ∖ {[e_cand e]} ∧
    e_left e ⊆ ids ∧ e_votes e ⊆ ids ∧ ∀ v, v ∈ e_votes e → cast v (e_term e) (e_cand e)) →
  clusterInv cast (mkCluster (c_nodes c) elections (c_leaders c)).
Proof. intros [Hn Hc Ho He Hl] Hel. by split. Qed.

Lemma RequestVote_spec term cand n n' granted :
  RequestVote term cand n = (n', granted) →
  nodeID n' = nodeID n ∧ Peers n' = Peers n ∧ CurrentTerm n' = Z.max (CurrentTerm n) term ∧
  (CurrentTerm n' = CurrentTerm n → VotedFor n ≠ EmptyString → VotedFor n' = VotedFor n) ∧
  (nodeState n' = Leader → nodeState n = Leader ∧ CurrentTerm n' = CurrentTerm n) ∧
  (granted = true → CurrentTerm n' = term ∧ VotedFor n' = cand).
Proof.
  unfold RequestVote. destruct (Z.ltb_spec (CurrentTerm n) term); cbn [CurrentTerm VotedFor nodeID Peers nodeState].
  - rewrite Z.eqb_refl, bool_decide_eq_true_2 by done. cbn. intros [= <- <-]. cbn. split_and!; try done; lia.
  - destruct (Z.eqb_spec term (CurrentTerm n)) as [->|Hne]; cbn [andb].
    + destruct (bool_decide (VotedFor n = EmptyString)) eqn:E1; cbn [orb].
      { apply bool_decide_eq_true in E1. intros [= <- <-]. cbn. split_and!; try done; try lia. }
      apply bool_decide_eq_false in E1. case_bool_decide as E2; intros [= <- <-]; cbn; split_and!; try done; lia.
    + intros [= <- <-]. split_and!; try done. lia.
Qed.

(** The rules one by one. *)
Definition termsBounded (l : list election) : Prop := ∀ e, e ∈ l → 0 ≤ e_term e < 2 ^ 64.

Lemma termsBounded_replace l1 l2 e e' :
  e_term e' = e_term e → termsBounded (l1 ++ e :: l2) → termsBounded (l1 ++ e' :: l2).
Proof.
  intros Et H x [Hx|[->|Hx]%elem_of_cons]%elem_of_app; [apply H, elem_of_app; by left| |].
  - rewrite Et. apply H, elem_of_app. right. apply elem_of_cons. by left.
  - apply H, elem_of_app. right. apply elem_of_cons. by right.
Qed.

Lemma elem_of_middle {A} (l1 l2 : list A) x : x ∈ l1 ++ x :: l2.
Proof. apply elem_of_app. right. apply elem_of_cons. by left. Qed.

Lemma clusterInv_start cast c id n :
  clusterInv cast c → c_nodes c !! id = Some n → nodeState n ≠ Leader → CurrentTerm n < 2 ^ 64 - 1 →
  ∃ cast', clusterInv cast' (mkCluster (<[id := startElection n]> (c_nodes c))
      (mkElection id (CurrentTerm n + 1) (Peers n) (Peers n) {[id]} :: c_elections c) (c_leaders c)).
Proof.
  intros Hinv Hid Hst Hlt. destruct (ci_node _ _ Hinv _ _ Hid) as (H1 & H2 & H3 & H4 & H5).
  assert (u64 (CurrentTerm n + 1) = CurrentTerm n + 1) as Eu by (apply u64_small; lia).
  pose proof (clusterInv_node cast c id n (startElection n) (c_elections c) Hinv Hid) as Hnode.
  unfold startElection in *. cbn in Hnode. rewrite Eu in *.
  specialize (Hnode eq_refl eq_refl ltac:(lia) ltac:(lia) ltac:(lia) ltac:(done) (λ e He, He)).
  eapply (clusterInv_cast _ _ id (CurrentTerm n + 1) id) in Hnode; [|cbn; by rewrite lookup_insert_eq|done|done|by apply named].
  eexists. eapply clusterInv_elections in Hnode; [exact Hnode|]. pose proof (ci_election _ _ Hnode) as He'.
  cbn [c_elections] in He'. intros e [->|Hin]%elem_of_cons; [|by apply He']. cbn. rewrite H3. clear - H1.
  split_and!; [done|done|set_solver|set_solver|]. intros v ->%elem_of_singleton. by right.
Qed.

Lemma clusterInv_vote cast c l1 l2 e p n n' granted :
  clusterInv cast c → termsBounded (c_elections c) → c_elections c = l1 ++ e :: l2 → c_nodes c !! p = Some n →
  RequestVote (e_term e) (e_cand e) n = (n', granted) →
  ∃ cast', clusterInv cast' (mkCluster (<[p := n']> (c_nodes c))
      (l1 ++ mkElection (e_cand e) (e_term e) (e_left e ∖ {[p]}) (e_peers e)
               (if granted then {[p]} ∪ e_votes e else e_votes e) :: l2) (c_leaders c)).
Proof.
  intros Hinv Hterms Ee Hpn Er. destruct (RequestVote_spec _ _ _ _ _ Er) as (R1 & R2 & R3 & R4 & R5 & R6).
  assert (e ∈ c_elections c) as Hin by (rewrite Ee; apply elem_of_middle).
  destruct (ci_election _ _ Hinv _ Hin) as (E1 & E2 & E3 & E4 & E5).
  specialize (Hterms _ Hin) as Hte. destruct (ci_node _ _ Hinv _ _ Hpn) as (P1 & P2 & P3 & P4 & P5).
  pose proof (clusterInv_node cast c p n n' (c_elections c) Hinv Hpn R1 R2 ltac:(lia) ltac:(lia) R4 R5 (λ e He, He)) as Hnode.
  assert (∃ cast', clusterInv cast' (mkCluster (<[p := n']> (c_nodes c)) (c_elections c) (c_leaders c)) ∧
    (∀ v t x, cast v t x → cast' v t x) ∧ (granted = true → cast' p (e_term e) (e_cand e))) as (cast' & Hc1 & Hc2 & Hc3).
  { destruct granted; [|exists cast; by split_and!]. destruct (R6 eq_refl) as [R7 R8].
    eexists. split_and!; [eapply (clusterInv_cast _ _ p (e_term e) (e_cand e)); [exact Hnode| |done|done|by apply named]| |].
    - cbn. by rewrite lookup_insert_eq.
    - intros v t x ?. by left.
    - intros _. by right. }
  exists cast'. eapply clusterInv_elections in Hc1; [exact Hc1|]. pose proof (ci_election _ _ Hc1) as He'.
  cbn [c_elections] in He'. rewrite Ee in He'.
  intros e' [Hin'|[->|Hin']%elem_of_cons]%elem_of_app; [apply He', elem_of_app; by left| |
    apply He', elem_of_app; right; apply elem_of_cons; by right].
  cbn. clear - E1 E2 E3 E4 E5 P1 Hc2 Hc3. split_and!; [done|done|set_solver|destruct granted; set_solver|].
  intros v Hv. destruct granted; [|by apply Hc2, E5].
  apply elem_of_union in Hv as [->%elem_of_singleton|Hv]; [by apply Hc3|by apply Hc2, E5].
Qed.

Lemma clusterInv_lost cast c l1 l2 e p :
  clusterInv cast c → c_elections c = l1 ++ e :: l2 →
  clusterInv cast (mkCluster (c_nodes c)
      (l1 ++ mkElection (e_cand e) (e_term e) (e_left e ∖ {[p]}) (e_peers e) (e_votes e) :: l2) (c_leaders c)).
Proof.
  intros Hinv Ee. pose proof (ci_election _ _ Hinv) as He. rewrite Ee in He.
  destruct (He e (elem_of_middle _ _ _)) as (E1 & E2 & E3 & E4 & E5). apply clusterInv_elections; [done|].
  intros e' [Hin'|[->|Hin']%elem_of_cons]%elem_of_app; [apply He, elem_of_app; by left| |
    apply He, elem_of_app; right; apply elem_of_cons; by right].
  cbn. clear - E1 E2 E3 E4 E5. split_and!; [done|done|set_solver|done|done].
Qed.

(** The votes of a winner are a majority. *)
Lemma winner_majority e votes :
  e_cand e ∈ ids → e_peers e = ids ∖ {[e_cand e]} → (Z.of_nat (size (e_peers e)) + 1) / 2 < Z.of_nat votes →
  (size ids < 2 * votes)%nat.
Proof.
  intros Hc -> Hv. rewrite size_difference in Hv by set_solver. rewrite size_singleton in Hv.
  assert (size ids ≠ 0)%nat; [|mlia]. intros Hz. apply size_empty_iff in Hz. set_solver.
Qed.

Lemma clusterInv_win cast c l1 l2 e n :
  clusterInv cast c → c_elections c = l1 ++ e :: l2 → c_nodes c !! e_cand e = Some n → CurrentTerm n = e_term e →
  (Z.of_nat (size (e_peers e)) + 1) / 2 < Z.of_nat (size (e_votes e)) →
  clusterInv cast (mkCluster (<[e_cand e := mkNode (nodeID n) (Peers n) Leader (CurrentTerm n) (VotedFor n)]> (c_nodes c))
    (l1 ++ l2) ((e_cand e, e_term e) :: c_leaders c)).
Proof.
  intros [Hn Hc Ho He Hl] Ee Hcn Hterm Hvotes. rewrite Ee in He.
  destruct (He e (elem_of_middle _ _ _)) as (E1 & E2 & E3 & E4 & E5). split; cbn [c_nodes c_elections c_leaders].
  - intros id m [[<- <-]|[_ Hm]]%lookup_insert_Some.
    + destruct (Hn _ _ Hcn) as (P1 & P2 & P3 & P4 & P5). cbn. split_and!; try done; try lia.
      intros _. rewrite Hterm. by left.
    + destruct (Hn _ _ Hm) as (P1 & P2 & P3 & P4 & P5). split_and!; try done; try lia.
      intros HL. right. by apply P5.
  - intros v t x Hcast. destruct (Hc _ _ _ Hcast) as (Hx & m & Hm & Ht & Hvote). split; [done|].
    destruct (decide (v = e_cand e)) as [->|Hne]; [|exists m; by rewrite lookup_insert_ne].
    rewrite Hcn in Hm. injection Hm as <-. eexists. rewrite lookup_insert_eq. by split_and!.
  - done.
  - intros e' [Hin|Hin]%elem_of_app; apply He, elem_of_app; [by left|right; apply elem_of_cons; by right].
  - intros y t [[= -> ->]|Hin']%elem_of_cons; [|by apply Hl].
    exists (e_votes e). split_and!; [done|by apply (winner_majority e)|done].
Qed.

Lemma clusterInv_end cast c l1 l2 e n :
  clusterInv cast c → c_elections c = l1 ++ e :: l2 → c_nodes c !! e_cand e = Some n →
  let n' := endElection (e_term e) (Z.of_nat (size (e_votes e))) (e_peers e) n in
  clusterInv cast (mkCluster (<[e_cand e := n']> (c_nodes c)) (l1 ++ l2)
    (if bool_decide (nodeState n ≠ Leader) && bool_decide (nodeState n' = Leader)
     then (e_cand e, e_term e) :: c_leaders c else c_leaders c)).
Proof.
  intros Hinv Ee Hcn n'. unfold n', endElection.
  destruct (bool_decide (nodeState n = Candidate) && (CurrentTerm n =? e_term e) && _) eqn:Ewin.
  - apply andb_prop in Ewin as [[Hcand%bool_decide_eq_true Hterm%Z.eqb_eq]%andb_prop Hvotes%Z.ltb_lt]. cbn [nodeState].
    rewrite bool_decide_eq_true_2 by (rewrite Hcand; done). cbn [andb]. rewrite bool_decide_eq_true_2 by done.
    by apply clusterInv_win.
  - destruct (bool_decide (nodeState n ≠ Leader) && bool_decide (nodeState n = Leader)) eqn:Ebad.
    { apply andb_prop in Ebad as [?%bool_decide_eq_true ?%bool_decide_eq_true]. done. }
    rewrite insert_id by done. apply clusterInv_elections; [done|]. pose proof (ci_election _ _ Hinv) as He.
    rewrite Ee in He. intros e' [Hin|Hin]%elem_of_app; apply He, elem_of_app; [by left|right; apply elem_of_cons; by right].
Qed.

(** The term of a leader is one a node has reached. *)
Lemma leader_term cast c id term : clusterInv cast c → (id, term) ∈ c_leaders c → term < 2 ^ 64.
Proof.
  intros [Hn Hc Ho He Hl] Hlead. destruct (Hl _ _ Hlead) as (S & HS & Hsz & HSc).
  assert (size S ≠ 0)%nat as HS0 by lia. apply size_non_empty_iff in HS0. apply set_choose in HS0 as [v Hv].
  destruct (Hc _ _ _ (HSc _ Hv)) as (_ & m & Hm & Ht & _). destruct (Hn _ _ Hm) as (_ & _ & _ & ? & _). lia.
Qed.

Lemma clusterInv_append cast c id p n n' ok term :
  clusterInv cast c → c_nodes c !! p = Some n → (id, term) ∈ c_leaders c → AppendEntries term n = (n', ok) →
  clusterInv cast (mkCluster (<[p := n']> (c_nodes c)) (c_elections c) (c_leaders c)).
Proof.
  intros Hinv Hp Hlead Ea. pose proof (leader_term _ _ _ _ Hinv Hlead).
  destruct (ci_node _ _ Hinv _ _ Hp) as (_ & _ & _ & ? & _). unfold AppendEntries in Ea.
  destruct (Z.ltb_spec term (CurrentTerm n)); injection Ea as <- <-.
  - rewrite insert_id by done. by destruct c.
  - eapply clusterInv_node; [exact Hinv|exact Hp|done..|cbn; lia|cbn; lia|done|done|done].
Qed.

Lemma clusterStep_inv cast c c' :
  clusterInv cast c → termsBounded (c_elections c) → clusterStep c c' →
  (∃ cast', clusterInv cast' c') ∧ termsBounded (c_elections c').
Proof.
  intros Hinv Hterms Hs. destruct Hs as [c id n Hid Hst Hlt|c l1 l2 e p n n' granted Ee Hp Hpn Er|c l1 l2 e p Ee Hp
    |c l1 l2 e n Ee Hleft Hcn n'|c id p n n' ok term Hp Hlead Ea]; (split; [|cbn [c_elections]]).
  - by eapply clusterInv_start.
  - destruct (ci_node _ _ Hinv _ _ Hid) as (_ & _ & _ & ? & _).
    intros e [->|Hin]%elem_of_cons; [cbn; lia|by apply Hterms].
  - by eapply clusterInv_vote.
  - rewrite Ee in Hterms. by apply (termsBounded_replace l1 l2 e).
  - exists cast. by apply clusterInv_lost.
  - rewrite Ee in Hterms. by apply (termsBounded_replace l1 l2 e).
  - exists cast. by eapply clusterInv_end.
  - intros e' [Hin|Hin]%elem_of_app; apply Hterms; rewrite Ee, elem_of_app; [by left|right; apply elem_of_cons; by right].
  - exists cast. by eapply clusterInv_append.
  - done.
Qed.
End Election.

Lemma clusterInit_inv ids : clusterInv ids (λ _ _ _, False) (clusterInit ids).
Proof.
  split; try done.
  - intros id n Hn. cbn in Hn. apply lookup_set_to_map in Hn as (id' & Hid & [= -> <-]); [|by intros ? ? _ _ [= ->]].
    cbn. split_and!; done.
  - intros e Hin. by apply elem_of_nil in Hin.
  - intros x t Hin. by apply elem_of_nil in Hin.
Qed.

Lemma clusterRun_inv ids c :
  (EmptyString : string) ∉ ids → rtc clusterStep (clusterInit ids) c →
  (∃ cast, clusterInv ids cast c) ∧ termsBounded (c_elections c).
Proof.
  intros Hn Hr. assert ((∃ cast, clusterInv ids cast (clusterInit ids)) ∧
    termsBounded (c_elections (clusterInit ids))) as H0.
  { split; [eexists; apply clusterInit_inv|]. intros e Hin. by apply elem_of_nil in Hin. }
  induction Hr as [|c0 c1 c2 Hs _ IH]; [done|]. apply IH. destruct H0 as [[cast Hi] Ht]. by eapply clusterStep_inv.
Qed.

(** Two majorities meet. *)
Lemma majorities_meet (ids S1 S2 : gset string) :
  S1 ⊆ ids → S2 ⊆ ids → (size ids < 2 * size S1)%nat → (size ids < 2 * size S2)%nat →
  ∃ v, v ∈ S1 ∧ v ∈ S2.
Proof.
  intros H1 H2 Hs1 Hs2. destruct (decide (S1 ∩ S2 = ∅)) as [He|Hne].
  - assert (S1 ## S2) as Hd by set_solver. pose proof (size_union S1 S2 Hd) as Hu.
    assert (size (S1 ∪ S2) ≤ size ids)%nat by (apply subseteq_size; set_solver). lia.
  - apply set_choose_L in Hne as [v Hv]. exists v. set_solver.
Qed.

(** ** Replication *)

Inductive repl_error : Type := ErrNotLeader | ErrLocalAppend | ErrNoQuorum | ErrContext.

(** [answers] are what [AppendEntries] of the peers returned, [lsn] what the
    local log did, and [timedOut] whether the context ended the wait. *)
Definition AppendWithTx (n : RaftNode) (SynchronousCommit : bool) (lsn : option Z) (answers : list bool)
    (timedOut : bool) : outcome repl_error Z :=
  if negb (bool_decide (nodeState n = Leader)) then Err ErrNotLeader else
  match lsn with
  | None => Err ErrLocalAppend
  | Some lsn =>
      let majority := (Z.of_nat (size (Peers n)) + 1) / 2 + 1 in
      if majority <=? 1 then Ok lsn
      else if negb SynchronousCommit then Ok lsn
      else if timedOut then Err ErrContext
      else
        let acks := 1 + Z.of_nat (length (filter (λ b, b = true) answers)) in
        if acks <? majority then Err ErrNoQuorum else Ok lsn
  end.

(** A synchronous append that succeeds was accepted by a majority. *)
Lemma AppendWithTx_majority n lsn answers timedOut l :
  length answers = size (Peers n) →
  AppendWithTx n true lsn answers timedOut = Ok l →
  nodeState n = Leader ∧ lsn = Some l ∧
  Z.of_nat (size (Peers n)) + 1 < 2 * (1 + Z.of_nat (length (filter (λ b, b = true) answers))).
Proof.
  intros Hlen. unfold AppendWithTx. case_bool_decide; [|done]. cbn [negb]. destruct lsn as [z|]; [|done].
  destruct (Z.leb_spec ((Z.of_nat (size (Peers n)) + 1) / 2 + 1) 1).
  - intros [= ->]. split_and!; [done..|]. mlia.
  - cbn [negb]. destruct timedOut; [done|]. destruct (Z.ltb_spec (1 + Z.of_nat (length (filter (λ b, b = true) answers)))
      ((Z.of_nat (size (Peers n)) + 1) / 2 + 1)); [done|]. intros [= ->]. split_and!; [done..|]. mlia.
Qed.

(** ** Snapshot chunks *)

Inductive readErr : Type := RNil | REOF | ROther.

Record SnapshotChunk : Type := mkChunk { ck_Offset : Z; ck_Data : list byte; ck_CRC32 : Z }.

(** The reader is the list of what its [Read] calls return, then end of file. *)
Record SnapshotStreamer : Type := mkStreamer { ss_reads : list (list byte * readErr); ss_offset : Z }.

Definition NextChunk (s : SnapshotStreamer) : SnapshotStreamer * (option SnapshotChunk * readErr) :=
  let '(data, err, rest) :=
    match ss_reads s with [] => ([], REOF, []) | (d, e) :: rest => (d, e, rest) end in
  match data with
  | [] => (mkStreamer rest (ss_offset s), (None, match err with RNil => REOF | e => e end))
  | _ =>
      (mkStreamer rest (ss_offset s + blen data),
       (Some (mkChunk (ss_offset s) data (crc32 data)), match err with REOF => RNil | e => e end))
  end.

(** Chunks until the first error. *)
Fixpoint chunks (fuel : nat) (s : SnapshotStreamer) : list SnapshotChunk * readErr :=
  match fuel with
  | O => ([], RNil)
  | S fuel =>
      match NextChunk s with
      | (s, (Some c, RNil)) => let '(l, e) := chunks fuel s in (c :: l, e)
      | (s, (Some c, e)) => ([c], e)
      | (s, (None, e)) => ([], e)
      end
  end.

Fixpoint contiguous (offset : Z) (l : list SnapshotChunk) : Prop :=
  match l with
  | [] => True
  | c :: l => ck_Offset c = offset ∧ ck_CRC32 c = crc32 (ck_Data c) ∧ contiguous (offset + blen (ck_Data c)) l
  end.

(** A reader that makes progress is streamed completely. *)
Lemma chunks_complete fuel reads offset :
  Forall (λ r, fst r ≠ [] ∧ snd r ≠ ROther) reads → (length reads < fuel)%nat →
  ∃ l, chunks fuel (mkStreamer reads offset) = (l, REOF) ∧
    concat (ck_Data <$> l) = concat reads.*1 ∧ contiguous offset l.
Proof.
  intros Hr. revert fuel offset. induction Hr as [|[d e] reads [Hd He] Hr IH]; intros [|fuel] offset Hf; cbn in *; try lia.
  { by exists []. }
  destruct d as [|b d]; [done|]. cbn. destruct (IH fuel (offset + blen (b :: d))) as (l & El & Hc & Hcont); [lia|].
  rewrite El. exists (mkChunk offset (b :: d) (crc32 (b :: d)) :: l).
  destruct e; [|done..| |]; try done; (split; [done|]; split; [cbn; by rewrite Hc|done]).
Qed.

(** A read of no bytes without an error, which is not the end of the stream,
    ends it: the bytes behind are lost without an error. *)
Example empty_read_truncates :
  chunks 5 (mkStreamer [([Byte.x01], RNil); ([], RNil); ([Byte.x02], RNil)] 0) =
  ([mkChunk 0 [Byte.x01] (crc32 [Byte.x01])], REOF).
Proof. done. Qed.

(** ** Two-phase commit *)

Module TwoPhase.

Inductive TransactionState : Type := TxStateInit | TxStatePrepared | TxStateCommitted | TxStateAborted.

#[export] Instance TransactionState_eq_dec : EqDecision TransactionState.
Proof. solve_decision. Defined.

Abbreviation coordinator := (gmap string TransactionState).

Definition Prepare (txID : string) (c : coordinator) : coordinator * bool :=
  match c !! txID with
  | Some state =>
      if bool_decide (state ≠ TxStateInit) then (c, false) else (<[txID := TxStatePrepared]> c, true)
  | None => (<[txID := TxStatePrepared]> c, true)
  end.

Definition Commit (txID : string) (c : coordinator) : coordinator * bool :=
  match c !! txID with
  | None => (c, false)
  | Some state =>
      if bool_decide (state ≠ TxStatePrepared) then (c, false) else (<[txID := TxStateCommitted]> c, true)
  end.

Definition Rollback (txID : string) (c : coordinator) : coordinator * bool :=
  match c !! txID with
  | None => (c, false)
  | Some state =>
      if bool_decide (state = TxStateCommitted) then (c, false) else (<[txID := TxStateAborted]> c, true)
  end.

Inductive call : Type := CPrepare (tx : string) | CCommit (tx : string) | CRollback (tx : string).

Definition doCall (x : call) (c : coordinator) : coordinator * bool :=
  match x with CPrepare tx => Prepare tx c | CCommit tx => Commit tx c | CRollback tx => Rollback tx c end.

(** The calls that succeeded, in order. *)
Fixpoint succeeded (calls : list call) (c : coordinator) : list call :=
  match calls with
  | [] => []
  | x :: calls => let '(c, ok) := doCall x c in if (ok : bool) then x :: succeeded calls c else succeeded calls c
  end.

(** What a state says about the calls to come. *)
Lemma succeeded_state calls c tx :
  let l := succeeded calls c in
  (c !! tx = Some TxStateCommitted → (CPrepare tx ∉ l) ∧ (CCommit tx ∉ l) ∧ (CRollback tx ∉ l)) ∧
  (c !! tx = Some TxStateAborted → (CPrepare tx ∉ l) ∧ (CCommit tx ∉ l)).
Proof.
  revert c. induction calls as [|x calls IH]; intros c; cbn; [split; intros _; split_and!; apply not_elem_of_nil|].
  destruct (doCall x c) as [c' ok] eqn:E.
  assert (∀ st, c !! tx = Some st → st = TxStateCommitted →
    c' !! tx = Some TxStateCommitted ∧ (ok = true → x ≠ CPrepare tx ∧ x ≠ CCommit tx ∧ x ≠ CRollback tx)) as Hcm.
  { intros st Hst ->. destruct x as [t|t|t]; cbn in E; unfold Prepare, Commit, Rollback in E;
      (destruct (decide (t = tx)) as [->|Hne];
       [rewrite Hst in E; cbn in E; injection E as <- <-; done|]);
      destruct (c !! t) as [s|]; try case_bool_decide; injection E as <- <-;
      rewrite ?lookup_insert_ne by done; (split; [done|]); intros _; split_and!; congruence. }
  assert (∀ st, c !! tx = Some st → st = TxStateAborted →
    c' !! tx = Some TxStateAborted ∧ (ok = true → x ≠ CPrepare tx ∧ x ≠ CCommit tx)) as Hab.
  { intros st Hst ->. destruct x as [t|t|t]; cbn in E; unfold Prepare, Commit, Rollback in E;
      (destruct (decide (t = tx)) as [->|Hne];
       [rewrite Hst in E; cbn in E; injection E as <- <-; rewrite ?lookup_insert_eq; done|]);
      destruct (c !! t) as [s|]; try case_bool_decide; injection E as <- <-;
      rewrite ?lookup_insert_ne by done; (split; [done|]); intros _; split_and!; congruence. }
  destruct (IH c') as [IHc IHa]. split.
  - intros Hst. destruct (Hcm _ Hst eq_refl) as [Hst' Hx]. destruct (IHc Hst') as (? & ? & ?).
    destruct ok; [|done]. destruct (Hx eq_refl) as (? & ? & ?). rewrite !not_elem_of_cons. split_and!; congruence.
  - intros Hst. destruct (Hab _ Hst eq_refl) as [Hst' Hx]. destruct (IHa Hst') as (? & ?).
    destruct ok; [|done]. destruct (Hx eq_refl) as (? & ?). rewrite !not_elem_of_cons. split_and!; congruence.
Qed.

(** One call on the state of one transaction. *)
Lemma doCall_commits x c c' tx :
  doCall x c = (c', true) → x = CCommit tx →
  c !! tx = Some TxStatePrepared ∧ c' !! tx = Some TxStateCommitted.
Proof.
  intros E ->. cbn in E. unfold Commit in E. destruct (c !! tx) as [st|] eqn:Est; [|done].
  case_bool_decide as Hst; [done|]. injection E as <-. rewrite lookup_insert_eq. split; [|done].
  destruct (decide (st = TxStatePrepared)) as [->|?]; [done|by destruct Hst].
Qed.

Lemma doCall_prepares x c c' ok tx :
  doCall x c = (c', ok) → c' !! tx = Some TxStatePrepared →
  c !! tx = Some TxStatePrepared ∨ (ok = true ∧ x = CPrepare tx).
Proof.
  intros E H. destruct x as [t|t|t]; cbn in E; unfold Prepare, Commit, Rollback in E;
    destruct (c !! t) as [s|] eqn:Es; try case_bool_decide; injection E as <- <-; try (by left);
    apply lookup_insert_Some in H as [[-> ?]|[? ?]]; try done; auto.
Qed.

Lemma doCall_aborts x c c' tx :
  doCall x c = (c', true) → x = CRollback tx → c' !! tx = Some TxStateAborted.
Proof.
  intros E ->. cbn in E. unfold Rollback in E. destruct (c !! tx) as [st|] eqn:Est; [|done].
  case_bool_decide; [done|]. injection E as <-. apply lookup_insert_eq.
Qed.

Lemma succeeded_exclusive calls c tx :
  CCommit tx ∈ succeeded calls c → CRollback tx ∈ succeeded calls c → False.
Proof.
  revert c. induction calls as [|x calls IH]; intros c; cbn; [by intros ?%elem_of_nil|].
  destruct (doCall x c) as [c' ok] eqn:E. destruct ok; [|apply IH].
  intros [Hx|H1]%elem_of_cons [Hy|H2]%elem_of_cons.
  - congruence.
  - destruct (doCall_commits _ _ _ _ E (eq_sym Hx)) as [_ Hst]. by apply (succeeded_state calls) in Hst as (_ & _ & ?).
  - pose proof (doCall_aborts _ _ _ _ E (eq_sym Hy)) as Hst. by apply (succeeded_state calls) in Hst as (_ & ?).
  - by apply (IH c').
Qed.

Lemma succeeded_once calls c tx l1 l2 :
  succeeded calls c = l1 ++ CCommit tx :: l2 →
  (CCommit tx ∉ l2) ∧ (c !! tx = Some TxStatePrepared ∨ CPrepare tx ∈ l1).
Proof.
  revert c l1. induction calls as [|x calls IH]; intros c l1; cbn; [by destruct l1|].
  destruct (doCall x c) as [c' ok] eqn:E. destruct ok.
  - destruct l1 as [|y l1]; cbn; intros [= -> El].
    + destruct (doCall_commits _ _ _ _ E eq_refl) as [? Hst]. apply (succeeded_state calls) in Hst as (_ & ? & _).
      split; [congruence|by left].
    + destruct (IH c' l1 El) as [? [Hp|?]]; (split; [done|]); [|set_solver].
      destruct (doCall_prepares _ _ _ _ _ E Hp) as [?|[_ ->]]; [by left|set_solver].
  - intros El. destruct (IH c' l1 El) as [? [Hp|?]]; (split; [done|]); [|set_solver].
    destruct (doCall_prepares _ _ _ _ _ E Hp) as [?|[? _]]; [by left|done].
Qed.

(** over any sequence of calls on a fresh two-phase coordinator, no
    transaction is both committed and rolled back, none is committed twice,
    and a commit that succeeds comes after a prepare that succeeded. *)
Theorem two_phase_decision calls tx :
  let l := succeeded calls ∅ in
  ¬ (CCommit tx ∈ l ∧ CRollback tx ∈ l) ∧
  (∀ l1 l2, l = l1 ++ CCommit tx :: l2 → (CCommit tx ∉ l2) ∧ CPrepare tx ∈ l1).
Proof.
  cbv zeta. split; [intros [H1 H2]; by eapply succeeded_exclusive|]. intros l1 l2 El.
  destruct (succeeded_once calls ∅ tx l1 l2 El) as [? [Hp|?]]; [|done]. by rewrite lookup_empty in Hp.
Qed.
End TwoPhase.

(** ** Election safety: the property *)

(** C33: in a full mesh of named nodes, whatever the order in which elections
    start, votes are answered or lost, elections end and heartbeats arrive, at
    most one node ever becomes leader of a term; in particular two nodes that
    think they lead the same term are the same node. *)
Theorem election_safety ids c :
  (EmptyString : string) ∉ ids → rtc clusterStep (clusterInit ids) c →
  (∀ x y t, (x, t) ∈ c_leaders c → (y, t) ∈ c_leaders c → x = y) ∧
  (∀ x y n m, c_nodes c !! x = Some n → c_nodes c !! y = Some m →
    nodeState n = Leader → nodeState m = Leader → CurrentTerm n = CurrentTerm m → x = y).
Proof.
  intros Hn Hr. destruct (clusterRun_inv _ _ Hn Hr) as [[cast [Hnode Hc Ho He Hl]] _].
  assert (∀ x y t, (x, t) ∈ c_leaders c → (y, t) ∈ c_leaders c → x = y) as Hone.
  { intros x y t Hx Hy. destruct (Hl _ _ Hx) as (S1 & A1 & A2 & A3). destruct (Hl _ _ Hy) as (S2 & B1 & B2 & B3).
    destruct (majorities_meet ids S1 S2 A1 B1 A2 B2) as (v & V1 & V2). exact (Ho v t x y (A3 _ V1) (B3 _ V2)). }
  split; [done|]. intros x y n m Hx Hy Sx Sy Et. apply (Hone x y (CurrentTerm n)).
  - by apply (Hnode _ _ Hx).
  - rewrite Et. by apply (Hnode _ _ Hy).
Qed.

(** Three nodes of which one is elected with the vote of another. *)
Definition trio : gset string := {["a"; "b"; "c"]}.

Definition trioNode (id : string) : RaftNode := mkNode id (trio ∖ {[id]}) Follower 0 EmptyString.
Definition trioStart : cluster :=
  mkCluster (<["a" := startElection (trioNode "a")]> (c_nodes (clusterInit trio)))
    [mkElection "a" 1 (trio ∖ {["a"]}) (trio ∖ {["a"]}) {["a"]}] [].
Definition trioVote : cluster :=
  mkCluster (<["b" := fst (RequestVote 1 "a" (trioNode "b"))]> (c_nodes trioStart))
    [mkElection "a" 1 (trio ∖ {["a"]} ∖ {["b"]}) (trio ∖ {["a"]}) ({["b"]} ∪ {["a"]})] [].
Definition trioLost : cluster :=
  mkCluster (c_nodes trioVote)
    [mkElection "a" 1 (trio ∖ {["a"]} ∖ {["b"]} ∖ {["c"]}) (trio ∖ {["a"]}) ({["b"]} ∪ {["a"]})] [].
Definition trioEnd : cluster :=
  mkCluster (<["a" := mkNode "a" (trio ∖ {["a"]}) Leader 1 "a"]> (c_nodes trioLost)) [] [("a", 1)].

Lemma trio_elects : rtc clusterStep (clusterInit trio) trioEnd.
Proof.
  eapply rtc_l; [exact (S_start (clusterInit trio) "a" (trioNode "a") ltac:(vm_compute; reflexivity) ltac:(done) ltac:(done))|].
  eapply rtc_l; [exact (S_vote trioStart [] [] _ "b" (trioNode "b") (fst (RequestVote 1 "a" (trioNode "b"))) true eq_refl
    ltac:(apply (bool_decide_unpack _); vm_compute; exact I) ltac:(vm_compute; reflexivity) ltac:(vm_compute; reflexivity))|].
  eapply rtc_l; [exact (S_lost trioVote [] [] _ "c" eq_refl ltac:(apply (bool_decide_unpack _); vm_compute; exact I))|].
  apply rtc_once.
  assert (endElection 1 (Z.of_nat (size ({["b"]} ∪ {["a"]} : gset string))) (trio ∖ {["a"]}) (startElection (trioNode "a")) =
    mkNode "a" (trio ∖ {["a"]}) Leader 1 "a") as E by (vm_compute; reflexivity).
  pose proof (S_end trioLost [] [] _ (startElection (trioNode "a")) eq_refl
    ltac:(apply (bool_decide_unpack _); vm_compute; exact I) ltac:(vm_compute; reflexivity)) as H.
  cbv zeta in H. cbn [e_term e_votes e_peers e_cand] in H. rewrite E in H. exact H.
Qed.

Lemma election_safety_witness :
  (∀ x, (x, 1) ∈ c_leaders trioEnd → x = "a") ∧ c_leaders trioEnd = [("a", 1)].
Proof.
  split; [|reflexivity]. intros x Hx.
  apply (proj1 (election_safety trio trioEnd ltac:(apply (bool_decide_unpack _); vm_compute; exact I) trio_elects) x "a" 1 Hx).
  apply elem_of_cons. by left.
Defined.
