(* ===== verification/Float64.v ===== *)
(** * IEEE-754 binary64

    Go's [float64] over the Standard Library's [SpecFloat]: the bit patterns
    of the row codec, the conversion of an [int64], arithmetic rounded to
    nearest-even, and the comparisons. *)

From Stdlib Require Export Floats.SpecFloat.
From S2P Require Import Prelude.

Abbreviation float64 := spec_float.

(** [math.Float64frombits]. *)
Definition Float64frombits (b : Z) : float64 :=
  let s := Z.testbit b 63 in
  let e := Z.land (Z.shiftr b 52) 0x7FF in
  let m := Z.land b 0xFFFFFFFFFFFFF in
  if e =? 0x7FF then (if m =? 0 then S754_infinity s else S754_nan)
  else if e =? 0 then match m with Zpos p => S754_finite s p (-1074) | _ => S754_zero s end
  else match m + 0x10000000000000 with Zpos p => S754_finite s p (e - 1075) | _ => S754_nan end.

Definition fadd : float64 → float64 → float64 := SFadd 53 1024.
Definition fsub : float64 → float64 → float64 := SFsub 53 1024.
Definition fmul : float64 → float64 → float64 := SFmul 53 1024.
Definition fdiv : float64 → float64 → float64 := SFdiv 53 1024.

(** [float64(i)]. *)
Definition fromInt (i : Z) : float64 := binary_normalize 53 1024 i 0 false.

Definition isNaN (f : float64) : bool := match f with S754_nan => true | _ => false end.

Definition feqb : float64 → float64 → bool := SFeqb.
Definition fltb : float64 → float64 → bool := SFltb.
Definition fleb : float64 → float64 → bool := SFleb.

(** ** Comparison *)

Lemma SFcompare_sym x y :
  SFcompare y x = match SFcompare x y with Some c => Some (CompOpp c) | None => None end.
Proof.
  destruct x as [[]|[]| |[] mx ex], y as [[]|[]| |[] my ey]; try done; cbn.
  all: rewrite (Z.compare_antisym ex ey); destruct (ex ?= ey)%Z; cbn; try done.
  all: change (PosDef.Pos.compare_cont Eq my mx) with (my ?= mx)%positive;
    change (PosDef.Pos.compare_cont Eq mx my) with (mx ?= my)%positive;
    rewrite (Pos.compare_antisym mx my); by destruct (mx ?= my)%positive.
Qed.

Lemma fltb_asym x y : fltb x y = true → fltb y x = false.
Proof. unfold fltb, SFltb. rewrite (SFcompare_sym x y). by destruct (SFcompare x y) as [[]|]. Qed.

(** Numbers are comparable. *)
Lemma SFcompare_total x y : isNaN x = false → isNaN y = false → ∃ c, SFcompare x y = Some c.
Proof. destruct x as [[]|[]| |[] mx ex], y as [[]|[]| |[] my ey]; try done; cbn; eauto; destruct (ex ?= ey)%Z; eauto. Qed.

Lemma fgtb_leb x y : isNaN x = false → isNaN y = false → fleb x y = negb (fltb y x).
Proof.
  intros Hx Hy. unfold fleb, fltb, SFleb, SFltb. rewrite (SFcompare_sym x y).
  destruct (SFcompare_total x y Hx Hy) as [[] ->]; done.
Qed.

Example fromInt_7 : fdiv (fromInt 7) (fromInt 2) = Float64frombits 0x400C000000000000.
Proof. reflexivity. Qed.
