(* ===== verification/Eval.v ===== *)
(** * Values and the expression evaluator

    [server/internal/core/executor/eval/operators.go], [compare.go],
    [utils.go] and the part of [server/internal/core/executor/eval.go] that
    evaluates literals, columns, comparisons, arithmetic and logic.  The
    expressions are those of [server/internal/core/parser/ast.go]; the node
    kinds the compiler of [Vm] does not know are one constructor. *)

From S2P Require Import Prelude Bytes RowCodec Float64.

(** ** Values *)

(** What an [interface{}] holds; [int] does not occur, since rows and literals
    carry [int64].  [IOther] is a vector, an object or another type. *)
Inductive iface : Type :=
| INil
| IInt (z : Z)
| IFloat (f : float64)
| IString (s : bytes)
| IBool (b : bool)
| IOther (v : Value).

Definition ofValue (v : Value) : iface :=
  match v with
  | VNil => INil
  | VInt z => IInt z
  | VFloat bits => IFloat (Float64frombits bits)
  | VBool b => IBool b
  | VString s => IString s
  | v => IOther v
  end.

Inductive eval_error : Type :=
| ErrTypeMismatch
| ErrUnknownOperator
| ErrUnsupportedBool
| ErrUnsupportedComparison
| ErrDivisionByZero
| ErrInt64Range
| ErrUnknownColumn
| ErrNotBoolean
| ErrUnsupportedExpression.

Abbreviation eres := (outcome eval_error).

(** A schema is the list of its column names. *)
Abbreviation TableSchema := (list bytes).

(** Go compares strings byte by byte. *)
Fixpoint bytesCompare (a b : bytes) : comparison :=
  match a, b with
  | [], [] => Eq
  | [], _ :: _ => Lt
  | _ :: _, [] => Gt
  | x :: a, y :: b =>
      match byte.unsigned x ?= byte.unsigned y with Eq => bytesCompare a b | c => c end
  end.

Definition sltb (a b : bytes) : bool := match bytesCompare a b with Lt => true | _ => false end.
Definition sleb (a b : bytes) : bool := match bytesCompare a b with Gt => false | _ => true end.

Definition toFloatFast (value : iface) : option float64 :=
  match value with
  | IInt v => Some (fromInt v)
  | IFloat v => if isNaN v then None else Some v
  | _ => None
  end.

(** ** Comparison operators *)

Definition compareInt64 (l r : Z) (op : string) : bool :=
  match op with
  | "=" => l =? r
  | "!=" => negb (l =? r)
  | "<" => l <? r
  | ">" => r <? l
  | "<=" => l <=? r
  | ">=" => r <=? l
  | _ => false
  end.

Definition compareString (l r : bytes) (op : string) : bool :=
  match op with
  | "=" => bool_decide (l = r)
  | "!=" => negb (bool_decide (l = r))
  | "<" => sltb l r
  | ">" => sltb r l
  | "<=" => sleb l r
  | ">=" => sleb r l
  | _ => false
  end.

(** The instances of the generic function. *)
Definition compareOrderedF (left right : float64) (op : string) : eres bool :=
  match op with
  | "=" => Ok (feqb left right)
  | "!=" => Ok (negb (feqb left right))
  | "<" => Ok (fltb left right)
  | ">" => Ok (fltb right left)
  | "<=" => Ok (fleb left right)
  | ">=" => Ok (fleb right left)
  | _ => Err ErrUnknownOperator
  end.

Definition compareOrderedS (left right : bytes) (op : string) : eres bool :=
  match op with
  | "=" => Ok (bool_decide (left = right))
  | "!=" => Ok (negb (bool_decide (left = right)))
  | "<" => Ok (sltb left right)
  | ">" => Ok (sltb right left)
  | "<=" => Ok (sleb left right)
  | ">=" => Ok (sleb right left)
  | _ => Err ErrUnknownOperator
  end.

Section Eval.
(** [strconv.ParseFloat(s, 64)] as a bit pattern; [fmt.Sprintf] of a value;
    [int64(f)] of a float outside the range of [int64], which Go leaves to
    the implementation. *)
Context (ParseFloat : bytes → option Z) (sprint : iface → bytes) (outOfRange : float64 → Z).
(** [strings.ToLower] and [strings.EqualFold]. *)
Context (ToLower : bytes → bytes) (EqualFold : bytes → bytes → bool).

Definition ToFloat (value : iface) : option float64 :=
  match value with
  | IInt v => Some (fromInt v)
  | IFloat v => if isNaN v then None else Some v
  | IString v => Float64frombits <$> ParseFloat v
  | _ => None
  end.

Definition isNil (v : iface) : bool := match v with INil => true | _ => false end.

Definition CompareValues (left right : iface) (op : string) : eres bool :=
  if isNil left || isNil right then
    match op with
    | "=" => Ok (isNil left && isNil right)
    | "!=" => Ok (negb (isNil left && isNil right))
    | _ => Ok false
    end
  else
  match left, right with
  | IInt l, IInt r => Ok (compareInt64 l r op)
  | IString l, IString r => Ok (compareString l r op)
  | _, _ =>
      match toFloatFast left, toFloatFast right with
      | Some lf, Some rf => compareOrderedF lf rf op
      | _, _ =>
          match ToFloat left with
          | Some lf =>
              match ToFloat right with
              | None => Err ErrTypeMismatch
              | Some rf => compareOrderedF lf rf op
              end
          | None =>
              match left with
              | IString l =>
                  match right with IString r => compareOrderedS l r op | _ => Err ErrTypeMismatch end
              | IBool l =>
                  match right with
                  | IBool r =>
                      match op with
                      | "=" => Ok (Bool.eqb l r)
                      | "!=" => Ok (negb (Bool.eqb l r))
                      | _ => Err ErrUnsupportedBool
                      end
                  | _ => Err ErrTypeMismatch
                  end
              | _ => Err ErrUnsupportedComparison
              end
          end
      end
  end.

(** Three-way results as Go returns them. *)
Definition order (lt gt : bool) : Z := if lt then -1 else if gt then 1 else 0.

Definition orderF (a b : float64) : Z := order (fltb a b) (fltb b a).

(** The numeric fast path; [None] is a break out of the switch. *)
Definition orderFast (a b : iface) : option Z :=
  match a with
  | IInt av =>
      match b with
      | IInt bv => Some (order (av <? bv) (bv <? av))
      | IFloat bv => if isNaN bv then None else Some (orderF (fromInt av) bv)
      | _ => None
      end
  | IFloat av =>
      if isNaN av then None else
      match b with
      | IFloat bv => if isNaN bv then None else Some (orderF av bv)
      | IInt bv => Some (orderF av (fromInt bv))
      | _ => None
      end
  | _ => None
  end.

Definition CompareOrdering (a b : iface) : Z :=
  match a, b with
  | INil, INil => 0
  | INil, _ => -1
  | _, INil => 1
  | _, _ =>
      match orderFast a b with
      | Some c => c
      | None =>
          match ToFloat a, ToFloat b with
          | Some af, Some bf => orderF af bf
          | _, _ =>
              match a, b with
              | IString av, IString bv => order (sltb av bv) (sltb bv av)
              | IBool av, IBool bv => if Bool.eqb av bv then 0 else if negb av then -1 else 1
              | _, _ => 0
              end
          end
      end
  end.

Definition ValuesEqual (a b : iface) : bool :=
  if isNil a && isNil b then true
  else if isNil a || isNil b then false
  else
  match ToFloat a, ToFloat b with
  | Some af, Some bf => feqb af bf
  | _, _ =>
      match a, b with
      | IString as_, IString bs => bool_decide (as_ = bs)
      | IBool ab, IBool bb => Bool.eqb ab bb
      | IInt ai, IInt bi => ai =? bi
      | IFloat af, IFloat bf => feqb af bf
      | _, _ => bool_decide (sprint a = sprint b)
      end
  end.

Fixpoint valuesEqualAll (a b : list iface) : bool :=
  match a, b with
  | x :: a, y :: b => if ValuesEqual x y then valuesEqualAll a b else false
  | _, _ => true
  end.

Definition RowsEqual (a b : list iface) : bool :=
  if negb (length a =? length b)%nat then false else valuesEqualAll a b.

(** ** Arithmetic *)

(** [int64(f)] of a float. *)
Definition toInt64 (f : float64) : Z :=
  match f with
  | S754_zero _ => 0
  | S754_finite s m e =>
      let a := if 0 <=? e then Z.pos m * 2 ^ e else Z.pos m / 2 ^ (- e) in
      let z := if s then - a else a in
      if (- 2 ^ 63 <=? z) && (z <? 2 ^ 63) then z else outOfRange f
  | _ => outOfRange f
  end.

Definition maxInt64F : float64 := fromInt (2 ^ 63 - 1).
Definition minInt64F : float64 := fromInt (- 2 ^ 63).

Definition isInt (v : iface) : bool := match v with IInt _ => true | _ => false end.

(** [rest] is what [EvalArithmetic] does with operands that are not both
    numbers: dates, intervals and strings of digits. *)
Definition EvalArithmetic (rest : iface → iface → string → eres iface) (left right : iface) (op : string)
    : eres iface :=
  if isNil left || isNil right then Ok INil else
  match toFloatFast left, toFloatFast right with
  | Some lf, Some rf =>
      res ← match op with
            | "+" => Ok (fadd lf rf)
            | "-" => Ok (fsub lf rf)
            | "*" => Ok (fmul lf rf)
            | "/" => if feqb rf (S754_zero false) then Err ErrDivisionByZero else Ok (fdiv lf rf)
            | _ => Err ErrUnknownOperator
            end;
      if isInt left && isInt right && negb (bool_decide (op = "/"%string)) then
        if fltb maxInt64F res || fltb res minInt64F then Err ErrInt64Range
        else Ok (IInt (toInt64 res))
      else Ok (IFloat res)
  | _, _ => rest left right op
  end.

(** ** Columns *)

Definition dot : byte := Byte.x2e.

(** [strings.IndexByte(s, '.')], [-1] as [None]. *)
Fixpoint IndexDot (s : bytes) : option nat :=
  match s with
  | [] => None
  | b :: s => if bool_decide (b = dot) then Some O else S <$> IndexDot s
  end.

(** [name[dot+1:]] of a name with a dot that is not its last byte. *)
Definition shortName (name : bytes) : option bytes :=
  match IndexDot name with
  | Some d => if (d <? length name - 1)%nat then Some (drop (S d) name) else None
  | None => None
  end.

Fixpoint indexNames (i : nat) (schema : TableSchema) (idx : gmap bytes nat) : gmap bytes nat :=
  match schema with
  | [] => idx
  | name :: schema => indexNames (S i) schema (<[ToLower name := i]> idx)
  end.

Fixpoint indexShort (i : nat) (schema : TableSchema) (idx : gmap bytes nat) : gmap bytes nat :=
  match schema with
  | [] => idx
  | name :: schema =>
      let idx :=
        match shortName (ToLower name) with
        | Some short => match idx !! short with Some _ => idx | None => <[short := i]> idx end
        | None => idx
        end in
      indexShort (S i) schema idx
  end.

Definition BuildColumnIndex (schema : TableSchema) : gmap bytes nat :=
  indexShort 0 schema (indexNames 0 schema ∅).

Definition containsDot (name : bytes) : bool := bool_decide (dot ∈ name).

Fixpoint resolveLoop (i : nat) (schema : TableSchema) (row : list iface) (name : bytes) : eres iface :=
  match schema with
  | [] => Err ErrUnknownColumn
  | column :: schema =>
      match (if EqualFold column name then row !! i else None) with
      | Some v => Ok v
      | None =>
          match (if negb (containsDot name) then
                   match shortName column with
                   | Some short => if EqualFold short name then row !! i else None
                   | None => None
                   end
                 else None) with
          | Some v => Ok v
          | None => resolveLoop (S i) schema row name
          end
      end
  end.

Definition ResolveColumn (row : list iface) (schema : TableSchema) (name : bytes)
    (columnIndex : option (gmap bytes nat)) : eres iface :=
  match (idx ← columnIndex; i ← (idx : gmap bytes nat) !! ToLower name; row !! i) with
  | Some v => Ok v
  | None => resolveLoop 0 schema row name
  end.

(** ** Expressions *)

(** [parser.Value]. *)
Record literal : Type := mkLit { l_Type : bytes; IntVal : Z; FltVal : float64; StrVal : bytes; BoolVal : bool }.

Inductive Expression : Type :=
| ENil
| EValue (v : literal)
| EColumnRef (Name Table : bytes)
| EBinary (Left : Expression) (Operator : string) (Right : Expression)
| EAnd (Left Right : Expression)
| EOr (Left Right : Expression)
| ENot (Expr : Expression)
| EOther (node : nat).

Definition tInt : bytes := [Byte.x69; Byte.x6e; Byte.x74].
Definition tFloat : bytes := [Byte.x66; Byte.x6c; Byte.x6f; Byte.x61; Byte.x74].
Definition tString : bytes := [Byte.x73; Byte.x74; Byte.x72; Byte.x69; Byte.x6e; Byte.x67].
Definition tBool : bytes := [Byte.x62; Byte.x6f; Byte.x6f; Byte.x6c].
Definition tableOld : bytes := [Byte.x6f; Byte.x6c; Byte.x64].
Definition tableNew : bytes := [Byte.x6e; Byte.x65; Byte.x77].

Definition ParserValueToRaw (value : literal) : iface :=
  if bool_decide (l_Type value = tInt) then IInt (IntVal value)
  else if bool_decide (l_Type value = tFloat) then IFloat (FltVal value)
  else if bool_decide (l_Type value = tString) then IString (StrVal value)
  else if bool_decide (l_Type value = tBool) then IBool (BoolVal value)
  else INil.

Record ExecutionContext : Type := mkCtx {
  ColumnIndex : option (gmap bytes nat); OldRow : option (list iface); NewRow : option (list iface) }.

Definition evalColumn (ctx : option ExecutionContext) (row : list iface) (schema : TableSchema) (Name Table : bytes)
    : eres iface :=
  let colIdx := ctx ≫= ColumnIndex in
  match (if bool_decide (Table = tableOld) then ctx ≫= OldRow else None) with
  | Some old => ResolveColumn old schema Name colIdx
  | None =>
      match (if bool_decide (Table = tableNew) then ctx ≫= NewRow else None) with
      | Some new => ResolveColumn new schema Name colIdx
      | None =>
          match (if bool_decide (Table = []) then Err ErrUnknownColumn
                 else ResolveColumn row schema (Table ++ dot :: Name) colIdx) with
          | Ok val => Ok val
          | _ => ResolveColumn row schema Name colIdx
          end
      end
  end.

Definition isComparison (op : string) : bool :=
  match op with "=" | "!=" | "<" | ">" | "<=" | ">=" => true | _ => false end.
Definition isArithmetic (op : string) : bool :=
  match op with "+" | "-" | "*" | "/" => true | _ => false end.

(** [b, ok := val.(bool)]. *)
Definition asBool (val : iface) : eres bool :=
  match val with IBool b => Ok b | _ => Err ErrNotBoolean end.

Section Operand.
Context (rest : iface → iface → string → eres iface).
(** The operators and node kinds evaluated elsewhere. *)
Context (evalOperator : string → iface → iface → eres iface) (evalNode : nat → list iface → eres iface).
Context (row : list iface) (schema : TableSchema) (ctx : option ExecutionContext).

Fixpoint evalOperand (expr : Expression) : eres iface :=
  let evalExpr e :=
    match e with
    | ENil => Ok true
    | _ => val ← evalOperand e; asBool val
    end in
  match expr with
  | ENil => Ok INil
  | EValue e => Ok (ParserValueToRaw e)
  | EColumnRef Name Table => evalColumn ctx row schema Name Table
  | EBinary Left Operator Right =>
      left ← evalOperand Left;
      right ← evalOperand Right;
      if isComparison Operator then b ← CompareValues left right Operator; Ok (IBool b)
      else if isArithmetic Operator then EvalArithmetic rest left right Operator
      else evalOperator Operator left right
  | EAnd Left Right => left ← evalExpr Left; right ← evalExpr Right; Ok (IBool (left && right))
  | EOr Left Right => left ← evalExpr Left; right ← evalExpr Right; Ok (IBool (left || right))
  | ENot Expr => val ← evalExpr Expr; Ok (IBool (negb val))
  | EOther node => evalNode node row
  end.

Definition evalExpr (expr : Expression) : eres bool :=
  match expr with
  | ENil => Ok true
  | _ => val ← evalOperand expr; asBool val
  end.
End Operand.
End Eval.

(** ** The order of values *)

Lemma bytesCompare_antisym a b : bytesCompare b a = CompOpp (bytesCompare a b).
Proof.
  revert b. induction a as [|x a IH]; intros [|y b]; try done. cbn.
  rewrite (Z.compare_antisym (byte.unsigned x) (byte.unsigned y)).
  destruct (byte.unsigned x ?= byte.unsigned y); cbn; [apply IH|done..].
Qed.

Lemma bytesCompare_le_trans a b c :
  bytesCompare a b ≠ Gt → bytesCompare b c ≠ Gt → bytesCompare a c ≠ Gt.
Proof.
  revert b c. induction a as [|x a IH]; intros [|y b] [|z c]; try done. cbn.
  destruct (Z.compare_spec (byte.unsigned x) (byte.unsigned y)), (Z.compare_spec (byte.unsigned y) (byte.unsigned z)),
    (Z.compare_spec (byte.unsigned x) (byte.unsigned z)); try done; try lia. apply IH.
Qed.

Lemma order_sltb a b : order (sltb a b) (sltb b a) = match bytesCompare a b with Lt => -1 | Eq => 0 | Gt => 1 end.
Proof. unfold sltb. rewrite (bytesCompare_antisym a b). by destruct (bytesCompare a b). Qed.

Lemma orderF_antisym a b : orderF b a = - orderF a b.
Proof.
  unfold orderF, order. destruct (fltb a b) eqn:E; [by rewrite (fltb_asym _ _ E)|]. by destruct (fltb b a).
Qed.

Lemma orderF_le a b : isNaN a = false → isNaN b = false → orderF a b ≤ 0 ↔ SFcompare a b ≠ Some Gt.
Proof.
  intros Ha Hb. unfold orderF, order, fltb, SFltb. rewrite (SFcompare_sym a b).
  destruct (SFcompare_total a b Ha Hb) as [[] ->]; cbn; split; intros; try done; try lia.
Qed.

(** Floats: by sign, then exponent, then mantissa. *)
Lemma SFcompare_le_trans a b c :
  isNaN a = false → isNaN b = false → isNaN c = false →
  SFcompare a b ≠ Some Gt → SFcompare b c ≠ Some Gt → SFcompare a c ≠ Some Gt.
Proof.
  destruct a as [[]|[]| |[] ma ea], b as [[]|[]| |[] mb eb], c as [[]|[]| |[] mc ec]; try done; cbn; intros _ _ _.
  all: change PosDef.Pos.compare_cont with Pos.compare_cont;
    change (Pos.compare_cont Eq ?x ?y) with (x ?= y)%positive.
  all: destruct (Z.compare_spec ea eb), (Z.compare_spec eb ec), (Z.compare_spec ea ec); try done; try lia.
  all: destruct (Pos.compare_spec ma mb), (Pos.compare_spec mb mc), (Pos.compare_spec ma mc); try done; try lia.
Qed.

(** The values of one column: nulls and values of its type; texts that read
    as numbers are set apart, since those are compared as numbers. *)
Inductive columnType : Type := CInt | CFloat | CText | CBool.

Definition inColumn (ParseFloat : bytes → option Z) (t : columnType) (v : iface) : Prop :=
  match t, v with
  | _, INil | CInt, IInt _ | CBool, IBool _ => True
  | CFloat, IFloat f => isNaN f = false
  | CText, IString s => ParseFloat s = None
  | _, _ => False
  end.

Lemma orderFast_antisym a b : orderFast b a = Z.opp <$> orderFast a b.
Proof.
  destruct a as [|x|x| | |], b as [|y|y| | |]; try done; cbn.
  all: repeat match goal with |- context [isNaN ?f] => destruct (isNaN f) end; try done; cbn; try (by rewrite orderF_antisym).
  unfold order. f_equal. destruct (Z.ltb_spec x y), (Z.ltb_spec y x); lia || done.
Qed.

Lemma order_antisym p q : ¬ (p = true ∧ q = true) → order q p = - order p q.
Proof. destruct p, q; cbn; try done. intros H. by destruct H. Qed.


(** Texts of which some read as numbers have no order: ['1a' < '9'] and
    ['10' < '1a'] as texts, ['9' < '10'] as numbers. *)
Lemma mixed_text_cycle ParseFloat (t1a t9 t10 : bytes) :
  t1a = [Byte.x31; Byte.x61] → t9 = [Byte.x39] → t10 = [Byte.x31; Byte.x30] →
  ParseFloat t1a = None → ParseFloat t9 = Some 0x4022000000000000 → ParseFloat t10 = Some 0x4024000000000000 →
  CompareOrdering ParseFloat (IString t1a) (IString t9) = -1 ∧
  CompareOrdering ParseFloat (IString t9) (IString t10) = -1 ∧
  CompareOrdering ParseFloat (IString t10) (IString t1a) = -1.
Proof.
  intros -> -> -> H1 H9 H10. unfold CompareOrdering. cbn [orderFast ToFloat]. rewrite H1, H9, H10. by split_and!.
Qed.

(** Integer arithmetic goes through [float64]: [2^53 + 1] is [2^53]. *)
Example int_addition_rounds outOfRange rest :
  EvalArithmetic outOfRange rest (IInt (2 ^ 53)) (IInt 1) "+" = Ok (IInt (2 ^ 53)).
Proof. vm_compute. reflexivity. Qed.

(** The range test compares with [float64(math.MaxInt64)], which is [2^63]. *)
Example int_addition_overflows outOfRange rest :
  EvalArithmetic outOfRange rest (IInt (2 ^ 63 - 1)) (IInt 1) "+" = Ok (IInt (outOfRange (fromInt (2 ^ 63)))).
Proof. vm_compute. reflexivity. Qed.
