(* ===== verification/Vm.v ===== *)
(** * The expression virtual machine

    [server/internal/core/executor/eval/vm/compiler.go] and [vm.go]: WHERE
    clauses are compiled to stack code, which three interpreters run: over a
    decoded row with any result ([ExecuteVM]), over a decoded row with a
    boolean result ([ExecuteVMBool]), and over the bytes of an encoded tuple
    ([ExecuteVMRaw]).  Their bodies are the same text but for the load of a
    column and the result, so the model shares the step.  The filters of
    [commands/sel/select.go] and [parallel/parallel.go] run them. *)

From S2P Require Import Prelude Bytes RowCodec Float64 Eval.

(** ** Instructions and values *)

Inductive OpCode : Type :=
| OpPushInt (i : Z)
| OpPushFloat (f : float64)
| OpPushString (s : bytes)
| OpPushBool (b : bool)
| OpLoadColumn (ColIdx : Z)
| OpAdd | OpSub | OpMul | OpDiv
| OpEq | OpNeq | OpLt | OpGt | OpLte | OpGte
| OpAnd | OpOr | OpNot
| OpReturn.

(** A [Value] of the machine: the tag with the field it selects. *)
Inductive vmValue : Type :=
| ValInt (i : Z)
| ValFloat (f : float64)
| ValString (s : bytes)
| ValBool (b : bool)
| ValNull.

Definition ToInterface (v : vmValue) : iface :=
  match v with
  | ValInt i => IInt i
  | ValFloat f => IFloat f
  | ValString s => IString s
  | ValBool b => IBool b
  | ValNull => INil
  end.

(** The field [Bool], which is [false] under the other tags. *)
Definition boolField (v : vmValue) : bool := match v with ValBool b => b | _ => false end.

Inductive vm_error : Type :=
| ErrColumnRange
| ErrUnsupportedColumnType
| ErrStackUnderflow
| ErrVmDivisionByZero
| ErrArithmeticMismatch
| ErrComparisonMismatch
| ErrLogicalMismatch
| ErrNotMismatch
| ErrTupleShort
| ErrTupleHeader
| ErrTupleOffsets
| ErrCorruptValue
| ErrUnsupportedTag
| ErrUnsupportedValueType
| ErrColumnNotFound
| ErrUnsupportedBinary
| ErrUnsupportedNode.

Abbreviation vres := (outcome vm_error).

(** ** The operations of the machine *)

Definition floatOp (op : OpCode) (l r : float64) : vres vmValue :=
  match op with
  | OpAdd => Ok (ValFloat (fadd l r))
  | OpSub => Ok (ValFloat (fsub l r))
  | OpMul => Ok (ValFloat (fmul l r))
  | _ => if feqb r (S754_zero false) then Err ErrVmDivisionByZero else Ok (ValFloat (fdiv l r))
  end.

(** [OpAdd], [OpSub], [OpMul] and [OpDiv]; [int64] arithmetic wraps and
    division truncates. *)
Definition arith (op : OpCode) (left right : vmValue) : vres vmValue :=
  match left, right with
  | ValInt l, ValInt r =>
      match op with
      | OpAdd => Ok (ValInt (s64 (l + r)))
      | OpSub => Ok (ValInt (s64 (l - r)))
      | OpMul => Ok (ValInt (s64 (l * r)))
      | _ => if r =? 0 then Err ErrVmDivisionByZero else Ok (ValInt (s64 (Z.quot l r)))
      end
  | ValFloat l, ValFloat r => floatOp op l r
  | ValInt l, ValFloat r => floatOp op (fromInt l) r
  | ValFloat l, ValInt r => floatOp op l (fromInt r)
  | _, _ => Err ErrArithmeticMismatch
  end.

Definition floatCmp (op : OpCode) (l r : float64) : bool :=
  match op with
  | OpEq => feqb l r
  | OpNeq => negb (feqb l r)
  | OpLt => fltb l r
  | OpGt => fltb r l
  | OpLte => fleb l r
  | _ => fleb r l
  end.

Definition compare (op : OpCode) (left right : vmValue) : vres bool :=
  match left, right with
  | ValInt l, ValInt r =>
      Ok match op with
         | OpEq => l =? r
         | OpNeq => negb (l =? r)
         | OpLt => l <? r
         | OpGt => r <? l
         | OpLte => l <=? r
         | _ => r <=? l
         end
  | ValFloat l, ValFloat r => Ok (floatCmp op l r)
  | ValInt l, ValFloat r => Ok (floatCmp op (fromInt l) r)
  | ValFloat l, ValInt r => Ok (floatCmp op l (fromInt r))
  | ValString l, ValString r =>
      Ok match op with
         | OpEq => bool_decide (l = r)
         | OpNeq => negb (bool_decide (l = r))
         | OpLt => sltb l r
         | OpGt => sltb r l
         | OpLte => sleb l r
         | _ => sleb r l
         end
  | _, _ =>
      match op, left, right with
      | OpEq, ValBool l, ValBool r => Ok (Bool.eqb l r)
      | OpNeq, ValBool l, ValBool r => Ok (negb (Bool.eqb l r))
      | OpEq, _, _ => Ok false
      | OpNeq, _, _ => Ok true
      | _, _, _ => Err ErrComparisonMismatch
      end
  end.

Definition logic (op : OpCode) (left right : vmValue) : vres vmValue :=
  match left, right with
  | ValBool l, ValBool r => Ok (ValBool (match op with OpAnd => l && r | _ => l || r end))
  | _, _ => Err ErrLogicalMismatch
  end.

Definition logicNot (val : vmValue) : vres vmValue :=
  match val with ValBool b => Ok (ValBool (negb b)) | _ => Err ErrNotMismatch end.

(** A binary instruction on its two operands. *)
Definition binop (op : OpCode) (left right : vmValue) : vres vmValue :=
  match op with
  | OpAdd | OpSub | OpMul | OpDiv => arith op left right
  | OpAnd | OpOr => logic op left right
  | _ => b ← compare op left right; Ok (ValBool b)
  end.

(** ** Loading a column *)

Definition loadValue (v : iface) : vres vmValue :=
  match v with
  | IInt v => Ok (ValInt v)
  | IFloat v => Ok (ValFloat v)
  | IString v => Ok (ValString v)
  | IBool v => Ok (ValBool v)
  | INil => Ok ValNull
  | IOther _ => Err ErrUnsupportedColumnType
  end.

Definition loadRow (row : list iface) (ColIdx : Z) : vres vmValue :=
  if (ColIdx <? 0) || (Z.of_nat (length row) <=? ColIdx) then Err ErrColumnRange else
  val ← must (row !! Z.to_nat ColIdx);
  loadValue val.

(** The value in the bytes of a column. *)
Definition rawValue (valBytes : bytes) : vres vmValue :=
  match valBytes with
  | [] => Ok ValNull
  | tag :: _ =>
      if bool_decide (tag = Byte.x00) then Ok ValNull
      else if bool_decide (tag = tagInt) then
        if blen valBytes <? 9 then Err ErrCorruptValue else Ok (ValInt (s64 (le_at 8 1 valBytes)))
      else if bool_decide (tag = tagFloat) then
        if blen valBytes <? 9 then Err ErrCorruptValue else Ok (ValFloat (Float64frombits (le_at 8 1 valBytes)))
      else if bool_decide (tag = tagBool) then
        if blen valBytes <? 2 then Err ErrCorruptValue
        else Ok (ValBool (bool_decide (nth 1 valBytes Byte.x00 = Byte.x01)))
      else if bool_decide (tag = tagString) then
        if blen valBytes <? 3 then Err ErrCorruptValue else
        let strLen := le_at 2 1 valBytes in
        if blen valBytes <? 3 + strLen then Err ErrCorruptValue
        else Ok (ValString (bslice 3 (Z.to_nat strLen) valBytes))
      else Err ErrUnsupportedTag
  end.

Definition loadRaw (rawTuple : bytes) (ColIdx : Z) : vres vmValue :=
  if blen rawTuple <? 18 then Err ErrTupleShort else
  let colCount := le_at 2 16 rawTuple in
  if (ColIdx <? 0) || (colCount <=? ColIdx) then Err ErrColumnRange else
  let offIdx := 18 + ColIdx * 2 in
  if blen rawTuple <? offIdx + 2 then Err ErrTupleHeader else
  valOffset ← must (get_le 2 offIdx rawTuple);
  nextOffset ←
    (if ColIdx + 1 <? colCount then
       let nextOffIdx := 18 + (ColIdx + 1) * 2 in
       if blen rawTuple <? nextOffIdx + 2 then Err ErrTupleHeader
       else must (get_le 2 nextOffIdx rawTuple)
     else Ok (u16 (blen rawTuple)));
  if (blen rawTuple <? valOffset) || (blen rawTuple <? nextOffset) || (nextOffset <? valOffset)
  then Err ErrTupleOffsets else
  valBytes ← must (slice valOffset nextOffset rawTuple);
  rawValue valBytes.

(** ** The machine *)

(** [var stack [8]Value] and [sp]. *)
Record machine : Type := mkMachine { stack : list vmValue; sp : nat }.

Definition stackSize : nat := 8.
Definition newMachine : machine := mkMachine (replicate stackSize (ValInt 0)) 0.

(** [stack[sp] = v; sp++]. *)
Definition push (v : vmValue) (s : machine) : vres machine :=
  if (sp s <? stackSize)%nat then Ok (mkMachine (<[sp s := v]> (stack s)) (S (sp s))) else Panic.

(** What an instruction leads to: the next one, or the end with the value on
    top, if any. *)
Inductive next : Type := Continue (s : machine) | Return (v : vmValue).

Section Machine.
Context (load : Z → vres vmValue).

Definition step (inst : OpCode) (s : machine) : vres next :=
  match inst with
  | OpPushInt i => s ← push (ValInt i) s; Ok (Continue s)
  | OpPushFloat f => s ← push (ValFloat f) s; Ok (Continue s)
  | OpPushString v => s ← push (ValString v) s; Ok (Continue s)
  | OpPushBool b => s ← push (ValBool b) s; Ok (Continue s)
  | OpLoadColumn ColIdx => v ← load ColIdx; s ← push v s; Ok (Continue s)
  | OpNot =>
      if (sp s <? 1)%nat then Err ErrStackUnderflow else
      val ← must (stack s !! (sp s - 1)%nat);
      v ← logicNot val;
      s ← push v (mkMachine (stack s) (sp s - 1));
      Ok (Continue s)
  | OpReturn =>
      if (sp s <? 1)%nat then Err ErrStackUnderflow else
      v ← must (stack s !! (sp s - 1)%nat);
      Ok (Return v)
  | op =>
      if (sp s <? 2)%nat then Err ErrStackUnderflow else
      right ← must (stack s !! (sp s - 1)%nat);
      left ← must (stack s !! (sp s - 2)%nat);
      v ← binop op left right;
      s ← push v (mkMachine (stack s) (sp s - 2));
      Ok (Continue s)
  end.

(** The value on top when the code ends, [None] when the stack is empty. *)
Fixpoint run (instructions : list OpCode) (s : machine) : vres (option vmValue) :=
  match instructions with
  | [] => if (0 <? sp s)%nat then Some <$> must (stack s !! (sp s - 1)%nat) else Ok None
  | inst :: instructions =>
      n ← step inst s;
      match n with Continue s => run instructions s | Return v => Ok (Some v) end
  end.
End Machine.

Definition ExecuteVM (instructions : list OpCode) (row : list iface) : vres iface :=
  v ← run (loadRow row) instructions newMachine;
  Ok match v with Some v => ToInterface v | None => INil end.

Definition ExecuteVMBool (instructions : list OpCode) (row : list iface) : vres bool :=
  v ← run (loadRow row) instructions newMachine;
  Ok match v with Some v => boolField v | None => false end.

Definition ExecuteVMRaw (instructions : list OpCode) (rawTuple : bytes) : vres bool :=
  v ← run (loadRaw rawTuple) instructions newMachine;
  Ok match v with Some v => boolField v | None => false end.

(** ** The compiler *)

Section Compiler.
Context (ToLower : bytes → bytes) (EqualFold : bytes → bytes → bool).

Definition compileValue (e : literal) : vres (list OpCode) :=
  let t := ToLower (l_Type e) in
  if bool_decide (t = tInt) then Ok [OpPushInt (IntVal e)]
  else if bool_decide (t = tFloat) then Ok [OpPushFloat (FltVal e)]
  else if bool_decide (t = tString) then Ok [OpPushString (StrVal e)]
  else if bool_decide (t = tBool) then Ok [OpPushBool (BoolVal e)]
  else Err ErrUnsupportedValueType.

(** The first column of that name. *)
Fixpoint columnIdx (i : Z) (schema : TableSchema) (name : bytes) : option Z :=
  match schema with
  | [] => None
  | col :: schema => if EqualFold col name then Some i else columnIdx (i + 1) schema name
  end.

Definition binaryOp (op : string) : option OpCode :=
  match op with
  | "+" => Some OpAdd
  | "-" => Some OpSub
  | "*" => Some OpMul
  | "/" => Some OpDiv
  | "=" => Some OpEq
  | "!=" => Some OpNeq
  | "<" => Some OpLt
  | ">" => Some OpGt
  | "<=" => Some OpLte
  | ">=" => Some OpGte
  | _ => None
  end.

(** [insts] is what has been emitted so far. *)
Fixpoint compileNode (expr : Expression) (schema : TableSchema) (insts : list OpCode) : vres (list OpCode) :=
  match expr with
  | EValue e => code ← compileValue e; Ok (insts ++ code)
  | EColumnRef Name Table =>
      match columnIdx 0 schema Name with
      | None => Err ErrColumnNotFound
      | Some idx => Ok (insts ++ [OpLoadColumn idx])
      end
  | EBinary Left Operator Right =>
      insts ← compileNode Left schema insts;
      insts ← compileNode Right schema insts;
      match binaryOp Operator with
      | Some op => Ok (insts ++ [op])
      | None => Err ErrUnsupportedBinary
      end
  | EAnd Left Right =>
      insts ← compileNode Left schema insts;
      insts ← compileNode Right schema insts;
      Ok (insts ++ [OpAnd])
  | EOr Left Right =>
      insts ← compileNode Left schema insts;
      insts ← compileNode Right schema insts;
      Ok (insts ++ [OpOr])
  | ENot Expr =>
      insts ← compileNode Expr schema insts;
      Ok (insts ++ [OpNot])
  | ENil | EOther _ => Err ErrUnsupportedNode
  end.

Definition Compile (expr : Expression) (schema : TableSchema) : vres (list OpCode) :=
  match expr with
  | ENil => Ok [OpPushBool true]
  | _ => compileNode expr schema []
  end.
End Compiler.

(** ** Filtering rows *)

Section Filter.
Context (ToLower : bytes → bytes) (EqualFold : bytes → bytes → bool).
(** [types.EvalExpr] on the clause. *)
Context (EvalExpr : list iface → eres bool).
Context (where_ : Expression) (schema : TableSchema).

(** The test of one row in [SelectCommand]: the machine when the clause
    compiles and it answers with a boolean, the evaluator else. *)
Definition rowPasses (compiledWhere : option (list OpCode)) (row : list iface) : eres bool :=
  match compiledWhere with
  | Some insts =>
      match ExecuteVM insts row with
      | Ok (IBool b) => Ok b
      | Panic => Panic
      | _ => EvalExpr row
      end
  | None => EvalExpr row
  end.

Fixpoint filterRows (compiledWhere : option (list OpCode)) (rows : list (list iface)) : eres (list (list iface)) :=
  match rows with
  | [] => Ok []
  | row :: rows =>
      ok ← rowPasses compiledWhere row;
      filtered ← filterRows compiledWhere rows;
      Ok (if (ok : bool) then row :: filtered else filtered)
  end.

Definition selectFilter (rows : list (list iface)) : eres (list (list iface)) :=
  filterRows (match Compile ToLower EqualFold where_ schema with Ok insts => Some insts | _ => None end) rows.

Definition NewParallelCoordinator (numWorkers : Z) : Z := if numWorkers <? 1 then 2 else numWorkers.

(** [splitRows]; [fuel] bounds the number of chunks. *)
Fixpoint chunksOf {A} (fuel : nat) (chunkSize : nat) (rows : list A) : list (list A) :=
  match fuel, rows with
  | S fuel, _ :: _ => take chunkSize rows :: chunksOf fuel chunkSize (drop chunkSize rows)
  | _, _ => []
  end.

Definition splitRows {A} (numWorkers : nat) (rows : list A) : list (list A) :=
  let chunkSize := (length rows / numWorkers)%nat in
  let chunkSize := if (chunkSize =? 0)%nat then 1%nat else chunkSize in
  chunksOf (length rows) chunkSize rows.

(** The work of one goroutine: a row whose test fails with an error is left
    out. *)
Fixpoint filterChunk (test : list iface → outcome unit bool) (r : list (list iface)) : eres (list (list iface)) :=
  match r with
  | [] => Ok []
  | row :: r =>
      match test row with
      | Panic => Panic
      | res =>
          filtered ← filterChunk test r;
          Ok (match res with Ok true => row :: filtered | _ => filtered end)
      end
  end.

(** Every goroutine writes its own cell of the results, which are joined in
    the order of the chunks. *)
Fixpoint filterChunks (test : list iface → outcome unit bool) (chunks : list (list (list iface)))
    : eres (list (list iface)) :=
  match chunks with
  | [] => Ok []
  | c :: chunks => r ← filterChunk test c; rest ← filterChunks test chunks; Ok (r ++ rest)
  end.

Definition forget {E A} (o : outcome E A) : outcome unit A :=
  match o with Ok a => Ok a | Err _ => Err tt | Panic => Panic end.

(** [NewParallelCoordinator(numWorkers).ParallelFilter(rows, ...)]. *)
Definition ParallelFilter (numWorkers : Z) (rows : list (list iface)) : eres (list (list iface)) :=
  match rows with
  | [] => Ok []
  | _ =>
      let test row :=
        match Compile ToLower EqualFold where_ schema with
        | Ok ((_ :: _) as insts) => forget (ExecuteVMBool insts row)
        | _ => forget (EvalExpr row)
        end in
      filterChunks test (splitRows (Z.to_nat (NewParallelCoordinator numWorkers)) rows)
  end.
End Filter.

(** ** The stack as a list *)

Section StackList.
Context (load : Z → vres vmValue).

Definition pushL (v : vmValue) (st : list vmValue) : vres (list vmValue) :=
  if (length st <? stackSize)%nat then Ok (v :: st) else Panic.

(** The instructions on the live part of the stack, top first. *)
Fixpoint runL (instructions : list OpCode) (st : list vmValue) : vres (option vmValue) :=
  match instructions with
  | [] => Ok (head st)
  | inst :: instructions =>
      match inst with
      | OpPushInt i => st ← pushL (ValInt i) st; runL instructions st
      | OpPushFloat f => st ← pushL (ValFloat f) st; runL instructions st
      | OpPushString v => st ← pushL (ValString v) st; runL instructions st
      | OpPushBool b => st ← pushL (ValBool b) st; runL instructions st
      | OpLoadColumn i => v ← load i; st ← pushL v st; runL instructions st
      | OpNot =>
          match st with
          | v :: st => v ← logicNot v; runL instructions (v :: st)
          | _ => Err ErrStackUnderflow
          end
      | OpReturn => match st with v :: _ => Ok (Some v) | _ => Err ErrStackUnderflow end
      | op =>
          match st with
          | r :: l :: st => v ← binop op l r; runL instructions (v :: st)
          | _ => Err ErrStackUnderflow
          end
      end
  end.

(** The cells below [sp] hold the list. *)
Definition holds (s : machine) (st : list vmValue) : Prop :=
  sp s = length st ∧ (length st ≤ stackSize)%nat ∧ length (stack s) = stackSize ∧ take (sp s) (stack s) = reverse st.

Lemma holds_lookup s st i v :
  holds s st → st !! i = Some v → stack s !! (sp s - S i)%nat = Some v.
Proof.
  intros (Hsp & Hle & Hlen & Htake) Hv. pose proof (lookup_lt_Some _ _ _ Hv) as Hi.
  rewrite <- (lookup_take_lt _ (sp s)), Htake by lia. rewrite reverse_lookup by lia.
  rewrite Hsp. replace (length st - S (length st - S i))%nat with i by lia. done.
Qed.

Lemma holds_pop s st n : holds s st → (n ≤ length st)%nat → holds (mkMachine (stack s) (sp s - n)) (drop n st).
Proof.
  intros (Hsp & Hle & Hlen & Htake) Hn. split_and!; cbn [sp stack]; [rewrite length_drop; lia|rewrite length_drop; lia|done|].
  replace (take (sp s - n) (stack s)) with (take (sp s - n) (take (sp s) (stack s))) by (rewrite take_take; f_equal; lia).
  rewrite Htake. rewrite <- (take_drop n st) at 1. rewrite reverse_app. apply take_app_length'.
  rewrite length_reverse, length_drop. lia.
Qed.

Lemma holds_push s st v :
  holds s st → match push v s with
               | Ok s' => pushL v st = Ok (v :: st) ∧ holds s' (v :: st)
               | _ => push v s = Panic ∧ pushL v st = Panic
               end.
Proof.
  intros (Hsp & Hle & Hlen & Htake). unfold push, pushL. rewrite Hsp.
  destruct (Nat.ltb_spec (length st) stackSize); [|done]. split; [done|]. split_and!; cbn [sp stack length]; [done|lia|by rewrite length_insert|].
  rewrite <- Hsp. rewrite (take_S_r _ _ v) by (apply list_lookup_insert_eq; lia).
  rewrite take_insert_ge by lia. by rewrite Htake, reverse_cons.
Qed.

Lemma holds_new : holds newMachine [].
Proof. split_and!; try done. cbn. lia. Qed.

(** Pushing and going on. *)
Lemma run_push v s st (k : machine → vres (option vmValue)) (kl : list vmValue → vres (option vmValue)) :
  holds s st → (∀ s' st', holds s' st' → k s' = kl st') →
  (n ← (s' ← push v s; Ok (Continue s')); match n with Continue s' => k s' | Return v => Ok (Some v) end) =
  (st' ← pushL v st; kl st').
Proof.
  intros Hh Hk. pose proof (holds_push s st v Hh) as H. destruct (push v s) as [s'|e|].
  - destruct H as [-> H]. cbn. by apply Hk.
  - by destruct H.
  - by destruct H as [_ ->].
Qed.

(** Replacing operands by a result, which always fits. *)
Lemma run_replace v s st n (k : machine → vres (option vmValue)) (kl : list vmValue → vres (option vmValue)) :
  holds s st → (1 ≤ n ≤ length st)%nat → (∀ s' st', holds s' st' → k s' = kl st') →
  (n ← (s' ← push v (mkMachine (stack s) (sp s - n)); Ok (Continue s'));
   match n with Continue s' => k s' | Return v => Ok (Some v) end) = kl (v :: drop n st).
Proof.
  intros Hh Hn Hk. rewrite (run_push v _ (drop n st) k kl); [|apply holds_pop; [done|lia]|done].
  unfold pushL. destruct Hh as (_ & Hle & _). rewrite length_drop.
  destruct (Nat.ltb_spec (length st - n) stackSize); [done|lia].
Qed.

Lemma run_runL insts s st : holds s st → run load insts s = runL insts st.
Proof.
  revert s st. induction insts as [|inst insts IH]; intros s st Hh.
  { cbn [run runL]. destruct st as [|v st].
    - destruct Hh as (-> & _). done.
    - rewrite (holds_lookup s _ 0 v Hh) by done. destruct Hh as (-> & _). done. }
  cbn [run]. destruct inst; cbn [step runL].
  all: try (by apply run_push).
  all: try (destruct (load _) as [v|e|]; [|done..]; cbn [mbind outcome_bind]; by apply run_push).
  all: try (destruct st as [|r [|l st]]; [by destruct Hh as (-> & _)|by destruct Hh as (-> & _)|];
    rewrite (holds_lookup s _ 0 r Hh), (holds_lookup s _ 1 l Hh) by done; cbn [must mbind outcome_bind];
    destruct (Nat.ltb_spec (sp s) 2) as [Hlt|_]; [destruct Hh as (Hsp & _); cbn in Hsp; lia|];
    destruct (binop _ l r) as [v|e|]; [|done..]; cbn [mbind outcome_bind];
    apply (run_replace v s (r :: l :: st) 2 (run load insts) (runL insts)); [done|cbn; lia|done]).
  - destruct st as [|v st]; [by destruct Hh as (-> & _)|].
    rewrite (holds_lookup s _ 0 v Hh) by done. cbn [must mbind outcome_bind].
    destruct (Nat.ltb_spec (sp s) 1) as [Hlt|_]; [destruct Hh as (Hsp & _); cbn in Hsp; lia|].
    destruct (logicNot v) as [v'|e|]; [|done..]. cbn [mbind outcome_bind].
    apply (run_replace v' s (v :: st) 1 (run load insts) (runL insts)); [done|cbn; lia|done].
  - destruct st as [|v st]; [by destruct Hh as (-> & _)|].
    rewrite (holds_lookup s _ 0 v Hh) by done. cbn [must mbind outcome_bind].
    destruct (Nat.ltb_spec (sp s) 1) as [Hlt|_]; [destruct Hh as (Hsp & _); cbn in Hsp; lia|done].
Qed.
End StackList.

(** ** What compiled code computes *)

Section Meaning.
Context (ToLower : bytes → bytes) (EqualFold : bytes → bytes → bool).
Context (load : Z → vres vmValue) (schema : TableSchema).

Definition literalValue (e : literal) : vres vmValue :=
  let t := ToLower (l_Type e) in
  if bool_decide (t = tInt) then Ok (ValInt (IntVal e))
  else if bool_decide (t = tFloat) then Ok (ValFloat (FltVal e))
  else if bool_decide (t = tString) then Ok (ValString (StrVal e))
  else if bool_decide (t = tBool) then Ok (ValBool (BoolVal e))
  else Err ErrUnsupportedValueType.

(** The value of an expression, left operand first, without a stack. *)
Fixpoint meaning (expr : Expression) : vres vmValue :=
  match expr with
  | ENil => Ok (ValBool true)
  | EValue e => literalValue e
  | EColumnRef Name _ =>
      match columnIdx EqualFold 0 schema Name with Some i => load i | None => Err ErrColumnNotFound end
  | EBinary l Operator r =>
      lv ← meaning l; rv ← meaning r;
      match binaryOp Operator with Some op => binop op lv rv | None => Err ErrUnsupportedBinary end
  | EAnd l r => lv ← meaning l; rv ← meaning r; logic OpAnd lv rv
  | EOr l r => lv ← meaning l; rv ← meaning r; logic OpOr lv rv
  | ENot e => v ← meaning e; logicNot v
  | EOther _ => Err ErrUnsupportedNode
  end.

(** The stack cells an expression needs. *)
Fixpoint need (expr : Expression) : nat :=
  match expr with
  | EBinary l _ r | EAnd l r | EOr l r => Nat.max (need l) (S (need r))
  | ENot e => need e
  | _ => 1
  end.

Lemma need_pos e : (1 ≤ need e)%nat.
Proof. induction e; cbn; lia. Qed.

(** The same with [d] free cells. *)
Fixpoint bounded (d : nat) (expr : Expression) : vres vmValue :=
  let pushed v := match d with O => Panic | S _ => Ok v end in
  match expr with
  | EBinary l Operator r =>
      lv ← bounded d l; rv ← bounded (d - 1) r;
      match binaryOp Operator with Some op => binop op lv rv | None => Err ErrUnsupportedBinary end
  | EAnd l r => lv ← bounded d l; rv ← bounded (d - 1) r; logic OpAnd lv rv
  | EOr l r => lv ← bounded d l; rv ← bounded (d - 1) r; logic OpOr lv rv
  | ENot e => v ← bounded d e; logicNot v
  | e => v ← meaning e; pushed v
  end.

Lemma bounded_enough d e : (need e ≤ d)%nat → bounded d e = meaning e.
Proof.
  revert d. induction e as [|v|c t|l IHl op r IHr|l IHl r IHr|l IHl r IHr|e IHe|n]; intros d Hd; cbn in *.
  all: try (rewrite IHl, IHr by lia; done).
  all: try (by rewrite IHe).
  all: destruct d; [lia|]; try done.
  - by destruct (literalValue v).
  - destruct (columnIdx _ _ _ _) as [i|]; [|done]. by destruct (load i).
Qed.

Lemma bounded_short d e v : (d < need e)%nat → meaning e = Ok v → bounded d e = Panic.
Proof.
  assert (∀ l r (f : vmValue → vmValue → vres vmValue) d v, (d < Nat.max (need l) (S (need r)))%nat →
    (∀ d v, (d < need l)%nat → meaning l = Ok v → bounded d l = Panic) →
    (∀ d v, (d < need r)%nat → meaning r = Ok v → bounded d r = Panic) →
    (lv ← meaning l; rv ← meaning r; f lv rv) = Ok v →
    (lv ← bounded d l; rv ← bounded (d - 1) r; f lv rv) = Panic) as Hbin.
  { clear. intros l r f d v Hd IHl IHr Hm.
    destruct (meaning l) as [lv| |] eqn:El; [|done..]. destruct (meaning r) as [rv| |] eqn:Er; [|done..].
    destruct (decide (d < need l)%nat); [by rewrite (IHl d lv)|].
    rewrite (bounded_enough d l), El by lia. cbn. pose proof (need_pos l).
    rewrite (IHr (d - 1)%nat rv); [done|lia|done]. }
  revert d v. induction e as [|c|c t|l IHl op r IHr|l IHl r IHr|l IHl r IHr|e IHe|n]; intros d v Hd Hm; cbn [need] in Hd.
  all: try (cbn [bounded meaning] in *; by eapply Hbin).
  all: try (replace d with O by lia; cbn [bounded]; by rewrite Hm).
  cbn [bounded meaning] in *. destruct (meaning e) as [b| |] eqn:E; [|done..]. by rewrite (IHe d b).
Qed.

Lemma bounded_pos d e v : bounded d e = Ok v → (1 ≤ d)%nat.
Proof.
  revert v. induction e as [|c|c t|l IHl op r IHr|l IHl r IHr|l IHl r IHr|e IHe|n]; intros v; cbn [bounded].
  all: try (destruct (bounded d l) as [lv| |]; [|done..]; intros _; by apply (IHl lv)).
  all: try (destruct (bounded d e) as [lv| |]; [|done..]; intros _; by apply (IHe lv)).
  all: destruct (meaning _); [|done..]; destruct d; [done|lia].
Qed.

(** ** The compiler *)

Definition computes (code : list OpCode) (e : Expression) : Prop :=
  ∀ rest st, (length st ≤ stackSize)%nat →
  runL load (code ++ rest) st = (v ← bounded (stackSize - length st) e; runL load rest (v :: st)).

Lemma computes_push inst v e :
  (∀ rest st, runL load (inst :: rest) st = (w ← v; st ← pushL w st; runL load rest st)) →
  meaning e = v → (∀ d, bounded d e = w ← meaning e; match d with O => Panic | S _ => Ok w end) →
  computes [inst] e.
Proof.
  intros Hrun Hm Hb rest st Hst. cbn [app]. rewrite Hrun, Hb, Hm. destruct v as [w| |]; [|done..]. cbn [mbind outcome_bind].
  unfold pushL. destruct (Nat.ltb_spec (length st) stackSize).
  - by destruct (stackSize - length st)%nat eqn:E; [lia|].
  - by replace (stackSize - length st)%nat with O by lia.
Qed.

Lemma computes_binary cl cr inst l r e (f : vmValue → vmValue → vres vmValue) :
  computes cl l → computes cr r →
  (∀ rest rv lv st, runL load (inst :: rest) (rv :: lv :: st) = (v ← f lv rv; runL load rest (v :: st))) →
  (∀ d, bounded d e = (lv ← bounded d l; rv ← bounded (d - 1) r; f lv rv)) →
  computes ((cl ++ cr) ++ [inst]) e.
Proof.
  intros Hl Hr Hi He rest st Hst. rewrite <- !app_assoc, Hl, He by done. set (d := (stackSize - length st)%nat).
  destruct (bounded d l) as [lv| |] eqn:El; [|done..]. cbn [mbind outcome_bind].
  pose proof (bounded_pos _ _ _ El) as Hd. unfold d in Hd. rewrite Hr by (cbn [length]; lia). cbn [length].
  replace (stackSize - S (length st))%nat with (d - 1)%nat by (unfold d; lia).
  destruct (bounded (d - 1) r) as [rv| |]; [|done..]. cbn [mbind outcome_bind app]. by rewrite Hi.
Qed.

(** The instruction that pushes a constant. *)
Definition pushOf (v : vmValue) : OpCode :=
  match v with
  | ValInt i => OpPushInt i
  | ValFloat f => OpPushFloat f
  | ValString s => OpPushString s
  | ValBool b => OpPushBool b
  | ValNull => OpReturn
  end.

Lemma compileValue_literal c own :
  compileValue ToLower c = Ok own → ∃ v, literalValue c = Ok v ∧ own = [pushOf v] ∧ v ≠ ValNull.
Proof.
  unfold compileValue, literalValue. cbv zeta. intros H.
  repeat case_bool_decide; try done; apply Ok_inj in H as <-; eexists; (split; [done|]); done.
Qed.

Lemma compileValue_computes c own : compileValue ToLower c = Ok own → computes own (EValue c).
Proof.
  intros (v & Ev & -> & Hv)%compileValue_literal. apply (computes_push _ (Ok v)); [|done|done].
  intros rest st. by destruct v.
Qed.

Lemma compileNode_computes e insts code :
  compileNode ToLower EqualFold e schema insts = Ok code →
  ∃ own, code = insts ++ own ∧ computes own e.
Proof.
  revert insts code. induction e as [|c|c t|l IHl op r IHr|l IHl r IHr|l IHl r IHr|e IHe|n]; intros insts code H; cbn [compileNode] in H.
  - done.
  - destruct (compileValue ToLower c) as [own| |] eqn:E; [|done..]. apply Ok_inj in H as <-.
    exists own. split; [done|by apply compileValue_computes].
  - destruct (columnIdx EqualFold 0 schema c) as [i|] eqn:Ei; [|done]. apply Ok_inj in H as <-.
    eexists. split; [reflexivity|]. apply (computes_push _ (load i)); [done| |done]. cbn [meaning]. by rewrite Ei.
  - destruct (compileNode _ _ l schema insts) as [c1| |] eqn:E1; [|done..]. cbn [mbind outcome_bind] in H.
    destruct (compileNode _ _ r schema c1) as [c2| |] eqn:E2; [|done..]. cbn [mbind outcome_bind] in H.
    destruct (binaryOp op) as [o|] eqn:Eo; [|done]. apply Ok_inj in H as <-.
    destruct (IHl _ _ E1) as (o1 & -> & H1). destruct (IHr _ _ E2) as (o2 & -> & H2).
    exists ((o1 ++ o2) ++ [o]). split; [by rewrite <- !app_assoc|]. apply (computes_binary _ _ _ l r _ (binop o)); [done|done| |].
    + intros. unfold binaryOp in Eo. repeat (destruct op as [|[[] [] [] [] [] [] [] []] op]; try done); simplify_eq; done.
    + intros d. cbn [bounded]. by rewrite Eo.
  - destruct (compileNode _ _ l schema insts) as [c1| |] eqn:E1; [|done..]. cbn [mbind outcome_bind] in H.
    destruct (compileNode _ _ r schema c1) as [c2| |] eqn:E2; [|done..]. apply Ok_inj in H as <-.
    destruct (IHl _ _ E1) as (o1 & -> & H1). destruct (IHr _ _ E2) as (o2 & -> & H2).
    exists ((o1 ++ o2) ++ [OpAnd]). split; [by rewrite <- !app_assoc|]. by apply (computes_binary _ _ _ l r _ (logic OpAnd)).
  - destruct (compileNode _ _ l schema insts) as [c1| |] eqn:E1; [|done..]. cbn [mbind outcome_bind] in H.
    destruct (compileNode _ _ r schema c1) as [c2| |] eqn:E2; [|done..]. apply Ok_inj in H as <-.
    destruct (IHl _ _ E1) as (o1 & -> & H1). destruct (IHr _ _ E2) as (o2 & -> & H2).
    exists ((o1 ++ o2) ++ [OpOr]). split; [by rewrite <- !app_assoc|]. by apply (computes_binary _ _ _ l r _ (logic OpOr)).
  - destruct (compileNode _ _ e schema insts) as [c1| |] eqn:E1; [|done..]. apply Ok_inj in H as <-.
    destruct (IHe _ _ E1) as (o1 & -> & H1). exists (o1 ++ [OpNot]). split; [by rewrite <- app_assoc|].
    intros rest st Hst. rewrite <- app_assoc, H1 by done. cbn [bounded]. destruct (bounded _ e) as [v| |]; done.
  - done.
Qed.

Lemma run_Compile e insts :
  Compile ToLower EqualFold e schema = Ok insts → run load insts newMachine = Some <$> bounded stackSize e.
Proof.
  intros H. rewrite (run_runL load insts newMachine []) by apply holds_new.
  assert (computes insts e) as Hc.
  { destruct e; try (destruct (compileNode_computes _ _ _ H) as (own & -> & Hown); done).
    cbn in H. apply Ok_inj in H as <-. by apply (computes_push _ (Ok (ValBool true))). }
  specialize (Hc [] [] ltac:(cbn; lia)). rewrite app_nil_r in Hc. rewrite Hc. by destruct (bounded _ e).
Qed.
End Meaning.

(** ** Raw tuples *)

Lemma run_load_ext load1 load2 insts s :
  (∀ i, forget (load1 i) = forget (load2 i)) → forget (run load1 insts s) = forget (run load2 insts s).
Proof.
  intros Hl. revert s. induction insts as [|inst insts IH]; intros s; [done|].
  assert (forget (step load1 inst s) = forget (step load2 inst s)) as Hs.
  { destruct inst; try done. cbn [step]. specialize (Hl ColIdx). by destruct (load1 ColIdx), (load2 ColIdx); simplify_eq/=. }
  cbn [run]. destruct (step load1 inst s) as [[]| |], (step load2 inst s) as [[]| |]; simplify_eq/=; try done.
Qed.

(** The range of the machine words. *)
Definition wordFits (v : Value) : Prop :=
  match v with
  | VInt z => - 2 ^ 63 ≤ z < 2 ^ 63
  | VFloat f => 0 ≤ f < 2 ^ 64
  | _ => True
  end.

Lemma rawValue_encode Marshal v e :
  encodeColumnValue Marshal v = Ok e → wordFits v → v ≠ VNil → forget (rawValue e) = forget (loadValue (ofValue v)).
Proof.
  intros He Hv Hn. destruct v as [|z|f|bb|s|v|m|]; cbn [encodeColumnValue] in He; try done.
  - apply Ok_inj in He as <-. cbn [rawValue]. tags. cbn in Hv.
    rewrite le_at_tag_end by apply u64_range. by rewrite s64_u64.
  - apply Ok_inj in He as <-. cbn [rawValue]. tags. by rewrite le_at_tag_end.
  - apply Ok_inj in He as <-. cbn [rawValue]. tags. by destruct bb.
  - destruct (Z.ltb_spec 65535 (blen s)); [done|]. apply Ok_inj in He as <-.
    pose proof (blen_nonneg s). cbn [rawValue]. tags.
    rewrite blen_counted, u16_small, le_at_tag by (change (2 ^ (Z.of_nat 2 * 8)) with 65536; lia). zbool.
    unfold blen. by rewrite Nat2Z.id, bslice_counted.
  - apply Ok_inj in He as <-. cbn [rawValue]. by tags.
  - destruct (Marshal m) as [js|]; [|done]. destruct (65535 <? blen js); [done|]. apply Ok_inj in He as <-.
    cbn [rawValue]. by tags.
Qed.

Lemma loadRaw_layout c d encs i :
  headerBytes (length encs) + blen (concat encs) ≤ 65535 →
  loadRaw (layout c d encs) i =
  if (i <? 0) || (Z.of_nat (length encs) <=? i) then Err ErrColumnRange
  else v ← must (encs !! Z.to_nat i); rawValue v.
Proof.
  intros Hfits. pose proof (blen_nonneg (concat encs)) as Hpos. unfold loadRaw. rewrite blen_layout.
  assert (le_at 2 16 (layout c d encs) = Z.of_nat (length encs)) as Hcount.
  { unfold layout. rewrite app_assoc. apply le_at_app; [by rewrite length_app, !length_le_split|].
    unfold headerBytes in Hfits. cbn. lia. }
  rewrite Hcount. unfold headerBytes in *. zbool. destruct (_ || _) eqn:Er; [done|].
  apply orb_false_iff in Er as [H0%Z.ltb_ge Hi%Z.leb_gt].
  destruct (lookup_lt_is_Some_2 encs (Z.to_nat i) ltac:(lia)) as [e He]. rewrite He. cbn [must mbind outcome_bind].
  set (j := Z.to_nat i) in *. replace i with (Z.of_nat j) by (unfold j; lia).
  pose proof (concat_take_le encs j) as Hcj. pose proof (concat_take_le encs (S j)) as Hcj'.
  pose proof (blen_nonneg (concat (take j encs))).
  assert (blen (concat (take (S j) encs)) = blen (concat (take j encs)) + blen e) as Hnext.
  { rewrite (take_S_r _ _ _ He), concat_app, blen_app. cbn. by rewrite app_nil_r. }
  pose proof (blen_nonneg e). unfold layout in * |-. zbool.
  replace (18 + Z.of_nat j * 2) with (18 + 2 * Z.of_nat j) by lia.
  rewrite (layout_offset c d encs Hfits j) by lia. cbn [must mbind outcome_bind].
  assert ((if Z.of_nat j + 1 <? Z.of_nat (length encs)
    then if 18 + 2 * Z.of_nat (length encs) + blen (concat encs) <? 18 + (Z.of_nat j + 1) * 2 + 2 then Err ErrTupleHeader
         else must (get_le 2 (18 + (Z.of_nat j + 1) * 2) (layout c d encs))
    else Ok (u16 (18 + 2 * Z.of_nat (length encs) + blen (concat encs))) : vres Z)
    = Ok (headerBytes (length encs) + blen (concat (take (S j) encs)))) as ->.
  { destruct (Z.ltb_spec (Z.of_nat j + 1) (Z.of_nat (length encs))).
    - zbool. replace (18 + (Z.of_nat j + 1) * 2) with (18 + 2 * Z.of_nat (S j)) by lia.
      by rewrite (layout_offset c d encs Hfits (S j)) by lia.
    - rewrite u16_small by lia. unfold headerBytes. by rewrite (take_ge encs (S j)) by lia. }
  cbn [must mbind outcome_bind]. unfold headerBytes. zbool. cbn [orb].
  pose proof (layout_column c d encs j e [] He) as Hs. rewrite app_nil_r in Hs. unfold headerBytes in Hs. rewrite Hs. done.
Qed.

Lemma loadRaw_row Marshal c d row encs i :
  encodeCols Marshal row = Ok encs → headerBytes (length encs) + blen (concat encs) ≤ 65535 →
  Forall wordFits row → VNil ∉ row →
  forget (loadRaw (layout c d encs) i) = forget (loadRow (ofValue <$> row) i).
Proof.
  intros He Hfits Hw Hn. rewrite loadRaw_layout by done. unfold loadRow.
  rewrite length_fmap, <- (encodeCols_length _ _ _ He). destruct (_ || _) eqn:Er; [done|].
  apply orb_false_iff in Er as [H0%Z.ltb_ge Hi%Z.leb_gt]. rewrite list_lookup_fmap.
  set (j := Z.to_nat i). assert (j < length encs)%nat as Hj by lia. clearbody j. clear i H0 Hi Hfits.
  revert encs j He Hj. induction Hw as [|v row Hv Hw IH]; intros encs j He Hj; cbn in He.
  { apply Ok_inj in He as <-. cbn in Hj. lia. }
  destruct (encodeColumnValue Marshal v) as [e| |] eqn:Ev; [|done..].
  destruct (encodeCols Marshal row) as [es| |]; [|done..]. apply Ok_inj in He as <-.
  apply not_elem_of_cons in Hn as [Hn1 Hn2]. destruct j as [|j]; cbn [lookup list_lookup fmap option_fmap option_map must mbind outcome_bind].
  - by apply (rawValue_encode Marshal).
  - apply IH; [done|done|]. cbn in Hj. lia.
Qed.

(** ** The machine and the evaluator *)

Definition isAscii (s : bytes) : Prop := Forall (λ b, byte.unsigned b < 128) s.

Definition lowerByte (b : byte) : byte :=
  if (65 <=? byte.unsigned b) && (byte.unsigned b <=? 90) then byte.of_Z (byte.unsigned b + 32) else b.

Definition lower (s : bytes) : bytes := lowerByte <$> s.

(** What Go documents of [strings.ToLower] and [strings.EqualFold] on ASCII
    strings. *)
Class AsciiCase (ToLower : bytes → bytes) (EqualFold : bytes → bytes → bool) : Prop := {
  ToLower_ascii s : isAscii s → ToLower s = lower s;
  EqualFold_ascii s t : isAscii s → isAscii t → EqualFold s t = bool_decide (lower s = lower t) }.

Lemma lowerByte_dot b : lowerByte b = dot ↔ b = dot.
Proof. by destruct b; vm_compute. Qed.

Lemma lower_no_dot (s : bytes) : dot ∉ s → dot ∉ (lower s).
Proof. intros Hs (b & Hb & Hin)%list_elem_of_fmap. symmetry in Hb. apply lowerByte_dot in Hb as ->. done. Qed.

Lemma IndexDot_None (s : bytes) : dot ∉ s → IndexDot s = None.
Proof.
  induction s as [|b s IH]; intros Hs; [done|]. apply not_elem_of_cons in Hs as [Hb Hs]. cbn.
  rewrite bool_decide_eq_false_2 by congruence. by rewrite IH.
Qed.

Lemma shortName_None (s : bytes) : dot ∉ s → shortName s = None.
Proof. intros Hs. unfold shortName. by rewrite IndexDot_None. Qed.

(** Column names without qualification, different but for case. *)
Definition plainName (s : bytes) : Prop := isAscii s ∧ (dot ∉ s).
Definition plainSchema (schema : TableSchema) : Prop :=
  Forall plainName schema ∧ NoDup (lower <$> schema).

Section Agreement.
Context {ToLower : bytes → bytes} {EqualFold : bytes → bytes → bool} {Hcase : AsciiCase ToLower EqualFold}.

(** The column a name stands for. *)
Definition columnOf (schema : TableSchema) (name : bytes) (i : nat) : Prop :=
  ∃ col, schema !! i = Some col ∧ lower col = lower name.

Lemma columnOf_unique schema name i j : plainSchema schema → columnOf schema name i → columnOf schema name j → i = j.
Proof.
  intros [_ Hnd] (c1 & H1 & E1) (c2 & H2 & E2). eapply (NoDup_lookup _ i j); [exact Hnd| |].
  - rewrite list_lookup_fmap, H1. cbn. by rewrite E1.
  - rewrite list_lookup_fmap, H2. cbn. by rewrite E2.
Qed.

Lemma columnIdx_spec k schema name i :
  Forall plainName schema → isAscii name → columnIdx EqualFold k schema name = Some i →
  ∃ j, i = k + Z.of_nat j ∧ columnOf schema name j.
Proof.
  intros Hs Hn. revert k. induction Hs as [|col schema [Hc _] Hs IH]; intros k; cbn; [done|].
  rewrite EqualFold_ascii by done. case_bool_decide as E.
  - intros [= <-]. exists O. split; [lia|]. by exists col.
  - intros H. destruct (IH _ H) as (j & -> & col' & Hl & Hcol). exists (S j). split; [lia|]. by exists col'.
Qed.

Lemma indexNames_lookup k schema idx l :
  Forall plainName schema → NoDup (lower <$> schema) →
  indexNames ToLower k schema idx !! l =
  match list_find (λ name, lower name = l) schema with Some (j, _) => Some (k + j)%nat | None => idx !! l end.
Proof.
  intros Hs. revert k idx. induction Hs as [|col schema [Hc Hd] Hs IH]; intros k idx Hnd; [done|].
  cbn in Hnd. apply NoDup_cons in Hnd as [Hnin Hnd]. cbn [indexNames list_find]. rewrite IH, ToLower_ascii by done.
  case_decide as E.
  - replace (list_find (λ name, lower name = l) schema) with (@None (nat * bytes)).
    + subst l. rewrite lookup_insert_eq. f_equal. lia.
    + symmetry. apply list_find_None, Forall_forall. intros name Hin Heq. apply Hnin, list_elem_of_fmap. exists name. by rewrite Heq.
  - destruct (list_find _ schema) as [[j c]|]; cbn; [f_equal; lia|]. by rewrite lookup_insert_ne.
Qed.

Lemma indexShort_plain k schema idx : Forall plainName schema → indexShort ToLower k schema idx = idx.
Proof.
  intros Hs. revert k. induction Hs as [|col schema [Hc Hd] Hs IH]; intros k; [done|]. cbn [indexShort].
  rewrite ToLower_ascii, shortName_None by (done || by apply lower_no_dot). apply IH.
Qed.

Lemma resolveLoop_found row schema name k j v :
  plainSchema schema → plainName name → columnOf schema name j → row !! (k + j)%nat = Some v →
  resolveLoop EqualFold k schema row name = Ok v.
Proof.
  intros Hp [Hna Hnd]. revert k j Hp. induction schema as [|col s IH]; intros k j Hp Hcol Hr.
  { by destruct Hcol as (c & Hc & _). }
  pose proof Hp as [Hs Hdup]. apply Forall_cons in Hs as [[Ha Hd] Hs]. cbn [resolveLoop]. rewrite EqualFold_ascii by done.
  case_bool_decide as E.
  - rewrite (columnOf_unique (col :: s) name j O Hp Hcol) in Hr by (by exists col).
    rewrite Nat.add_0_r in Hr. by rewrite Hr.
  - rewrite shortName_None by done. destruct j as [|j]; [by destruct Hcol as (c & [= <-] & Ec)|].
    replace (if negb (containsDot name) then None else None) with (@None iface) by (by destruct (negb _)).
    cbn in Hdup. apply NoDup_cons in Hdup as [_ Hdup]. apply (IH (S k) j); [done| |].
    + destruct Hcol as (c & Hc & Ec). by exists c.
    + by replace (S k + j)%nat with (k + S j)%nat by lia.
Qed.

(** A name that matches no column, because it has a dot. *)
Lemma resolveLoop_dotted (row : list iface) schema name k :
  Forall plainName schema → isAscii name → dot ∈ name → resolveLoop EqualFold k schema row name = Err ErrUnknownColumn.
Proof.
  intros Hs Hna Hd. revert k. induction Hs as [|col s [Ha Hcd] Hs IH]; intros k; [done|]. cbn [resolveLoop].
  rewrite EqualFold_ascii by done. rewrite bool_decide_eq_false_2.
  - unfold containsDot. rewrite (bool_decide_eq_true_2 (dot ∈ name)) by done. apply IH.
  - intros E. apply (lower_no_dot col Hcd). rewrite E. apply list_elem_of_fmap. exists dot. split; [|done].
    symmetry. by apply lowerByte_dot.
Qed.

Lemma index_lookup schema name :
  plainSchema schema → isAscii name →
  BuildColumnIndex ToLower schema !! ToLower name =
  fst <$> list_find (λ col, lower col = lower name) schema.
Proof.
  intros [Hs Hdup] Hna. unfold BuildColumnIndex. rewrite indexShort_plain by done.
  rewrite indexNames_lookup, ToLower_ascii by done. by destruct (list_find _ schema) as [[]|].
Qed.

(** Looking a plain name up, with or without the index of the schema. *)
Lemma ResolveColumn_found row schema name idx i v :
  plainSchema schema → plainName name → columnOf schema name i → row !! i = Some v →
  (idx = None ∨ idx = Some (BuildColumnIndex ToLower schema)) →
  ResolveColumn ToLower EqualFold row schema name idx = Ok v.
Proof.
  intros Hp Hn Hcol Hrow Hidx. unfold ResolveColumn.
  rewrite (resolveLoop_found row schema name 0 i v) by done. destruct Hidx as [->| ->]; [done|]. cbn [mbind option_bind].
  rewrite index_lookup by (done || apply Hn).
  destruct (list_find _ schema) as [[j c]|] eqn:Ef; [|done]. apply list_find_Some in Ef as (Hj & Ej & _). cbn.
  by rewrite (columnOf_unique schema name j i Hp (ex_intro _ c (conj Hj Ej)) Hcol), Hrow.
Qed.

Lemma ResolveColumn_dotted (row : list iface) schema name idx :
  plainSchema schema → isAscii name → dot ∈ name → (idx = None ∨ idx = Some (BuildColumnIndex ToLower schema)) →
  ResolveColumn ToLower EqualFold row schema name idx = Err ErrUnknownColumn.
Proof.
  intros Hp Hn Hd Hidx. unfold ResolveColumn. rewrite resolveLoop_dotted by (done || apply Hp).
  destruct Hidx as [->| ->]; [done|]. cbn [mbind option_bind]. rewrite index_lookup by done.
  destruct (list_find _ schema) as [[j c]|] eqn:Ef; [|done]. apply list_find_Some in Ef as (Hj & Ej & _).
  destruct Hp as [Hs _]. rewrite Forall_lookup in Hs. destruct (Hs _ _ Hj) as [_ Hcd].
  exfalso. apply (lower_no_dot c Hcd). rewrite Ej. apply list_elem_of_fmap. exists dot. split; [|done].
  symmetry. by apply lowerByte_dot.
Qed.

(** ** Typed clauses *)

Inductive kind : Type := KNum | KStr | KBool.

#[local] Instance kind_eq_dec : EqDecision kind.
Proof. solve_decision. Defined.

(** Numbers are comparable with numbers, strings with strings and booleans
    with booleans; null and not-a-number have no kind. *)
Definition hasKind (k : kind) (v : iface) : Prop :=
  match k, v with
  | KNum, IInt _ | KStr, IString _ | KBool, IBool _ => True
  | KNum, IFloat f => isNaN f = false
  | _, _ => False
  end.

Definition literalKind (v : iface) : option kind :=
  match v with
  | IInt _ => Some KNum
  | IFloat f => if isNaN f then None else Some KNum
  | IString _ => Some KStr
  | IBool _ => Some KBool
  | _ => None
  end.

Section Clause.
Context (schema : TableSchema) (kinds : list kind).

(** The kind of a clause of comparisons and logic over columns and literals. *)
Fixpoint kindOf (e : Expression) : option kind :=
  match e with
  | EValue l => literalKind (ParserValueToRaw l)
  | EColumnRef Name _ => i ← columnIdx EqualFold 0 schema Name; kinds !! Z.to_nat i
  | EBinary l op r =>
      kl ← kindOf l; kr ← kindOf r;
      if bool_decide (kl = kr) && isComparison op &&
         (negb (bool_decide (kl = KBool)) || bool_decide (op = "="%string) || bool_decide (op = "!="%string))
      then Some KBool else None
  | EAnd l r | EOr l r =>
      kl ← kindOf l; kr ← kindOf r;
      if bool_decide (kl = KBool) && bool_decide (kr = KBool) then Some KBool else None
  | ENot e => k ← kindOf e; if bool_decide (k = KBool) then Some KBool else None
  | ENil | EOther _ => None
  end.

(** The names a clause refers to. *)
Fixpoint plainRefs (e : Expression) : Prop :=
  match e with
  | EColumnRef Name Table => plainName Name ∧ isAscii Table
  | EBinary l _ r | EAnd l r | EOr l r => plainRefs l ∧ plainRefs r
  | ENot e => plainRefs e
  | _ => True
  end.

Definition conforms (row : list iface) : Prop := length schema = length row ∧ Forall2 hasKind kinds row.

(** The context of a SELECT: no trigger rows, the index of the schema or none. *)
Definition selectCtx (ctx : option ExecutionContext) : Prop :=
  (ctx ≫= ColumnIndex = None ∨ ctx ≫= ColumnIndex = Some (BuildColumnIndex ToLower schema)) ∧
  ctx ≫= OldRow = None ∧ ctx ≫= NewRow = None.
End Clause.

Lemma isComparison_cases op :
  isComparison op = true → op ∈ ["="; "!="; "<"; ">"; "<="; ">="]%string.
Proof.
  unfold isComparison. intros H.
  repeat (destruct op as [|[[] [] [] [] [] [] [] []] op]; try done); set_solver.
Qed.

Lemma ToInterface_loadValue k v : hasKind k v → ∃ w, loadValue v = Ok w ∧ ToInterface w = v.
Proof. destruct k, v; try done; intros _; eexists; (split; [reflexivity|done]). Qed.

(** The two comparisons. *)
Lemma compare_agrees ParseFloat k op o lv rv :
  isComparison op = true → binaryOp op = Some o → hasKind k (ToInterface lv) → hasKind k (ToInterface rv) →
  (k = KBool → op = "="%string ∨ op = "!="%string) →
  ∃ b, binop o lv rv = Ok (ValBool b) ∧ CompareValues ParseFloat (ToInterface lv) (ToInterface rv) op = Ok b.
Proof.
  intros Hop Ho Hl Hr Hk. apply isComparison_cases in Hop.
  destruct k; [clear Hk|clear Hk|destruct (Hk eq_refl) as [-> | ->]; clear Hk Hop];
    destruct lv as [?|lf| | |], rv as [?|rf| | |]; cbn in Hl, Hr; try done.
  all: repeat (apply elem_of_cons in Hop as [->|Hop]); try (by apply elem_of_nil in Hop).
  all: cbn in Ho; injection Ho as <-; cbn; unfold CompareValues; cbn; rewrite ?Hl, ?Hr; eexists; split; reflexivity.
Qed.

Lemma literal_agrees l k :
  literalKind (ParserValueToRaw l) = Some k →
  ∃ v, literalValue ToLower l = Ok v ∧ ToInterface v = ParserValueToRaw l ∧ hasKind k (ParserValueToRaw l).
Proof.
  assert (∀ t, isAscii t → lower t = t → ToLower t = t) as Hlow by (intros t Ha Hl; by rewrite ToLower_ascii).
  assert (Hi : ToLower tInt = tInt) by (apply Hlow; [by repeat constructor|done]).
  assert (Hf : ToLower tFloat = tFloat) by (apply Hlow; [by repeat constructor|done]).
  assert (Hs : ToLower tString = tString) by (apply Hlow; [by repeat constructor|done]).
  assert (Hb : ToLower tBool = tBool) by (apply Hlow; [by repeat constructor|done]).
  destruct l as [ty i f str b]. unfold ParserValueToRaw, literalValue. cbn [l_Type IntVal FltVal StrVal BoolVal].
  cbv zeta. destruct (decide (ty = tInt)) as [->|H1]; [rewrite Hi; tags; intros [= <-]; by eexists|].
  rewrite (bool_decide_eq_false_2 (ty = tInt)) by done.
  destruct (decide (ty = tFloat)) as [->|H2].
  { rewrite Hf. tags. cbn [literalKind]. destruct (isNaN f) eqn:En; [done|]. intros [= <-]. by eexists. }
  rewrite (bool_decide_eq_false_2 (ty = tFloat)) by done.
  destruct (decide (ty = tString)) as [->|H3]; [rewrite Hs; tags; intros [= <-]; by eexists|].
  rewrite (bool_decide_eq_false_2 (ty = tString)) by done.
  destruct (decide (ty = tBool)) as [->|H4]; [rewrite Hb; tags; intros [= <-]; by eexists|].
  by rewrite (bool_decide_eq_false_2 (ty = tBool)) by done.
Qed.

(** A column of the row, whatever table the reference names. *)
Lemma evalColumn_found row schema ctx name table j v :
  plainSchema schema → plainName name → isAscii table → selectCtx schema ctx → columnOf schema name j → row !! j = Some v →
  evalColumn ToLower EqualFold ctx row schema name table = Ok v.
Proof.
  intros Hp Hn Ht (Hidx & Hold & Hnew) Hcol Hv. unfold evalColumn. rewrite Hold, Hnew.
  replace (if bool_decide (table = tableOld) then None else None) with (@None (list iface)) by (by case_bool_decide).
  replace (if bool_decide (table = tableNew) then None else None) with (@None (list iface)) by (by case_bool_decide).
  replace (if bool_decide (table = []) then Err ErrUnknownColumn
    else ResolveColumn ToLower EqualFold row schema (table ++ dot :: name) (ctx ≫= ColumnIndex))
    with (@Err eval_error iface ErrUnknownColumn).
  + by apply (ResolveColumn_found _ _ _ _ j).
  + case_bool_decide; [done|]. symmetry. apply ResolveColumn_dotted; [done| | |done].
    * apply Forall_app. split; [done|]. constructor; [done|apply Hn].
    * apply elem_of_app. right. by left.
Qed.

Lemma column_agrees schema kinds row ctx name table i k :
  plainSchema schema → plainName name → isAscii table → conforms schema kinds row → selectCtx schema ctx →
  columnIdx EqualFold 0 schema name = Some i → kinds !! Z.to_nat i = Some k →
  ∃ v, loadRow row i = Ok v ∧ evalColumn ToLower EqualFold ctx row schema name table = Ok (ToInterface v) ∧
       hasKind k (ToInterface v).
Proof.
  intros Hp Hn Ht [Hlen Hrow] Hctx Hi Hk.
  destruct (columnIdx_spec 0 schema name i (proj1 Hp) (proj1 Hn) Hi) as (j & Ej & Hcol). assert (i = Z.of_nat j) as -> by lia.
  rewrite Nat2Z.id in Hk. destruct (Forall2_lookup_l _ _ _ _ _ Hrow Hk) as (v & Hv & Hkv).
  destruct (ToInterface_loadValue k v Hkv) as (w & Hw & <-). exists w. split_and!; [|  |done].
  - unfold loadRow. pose proof (lookup_lt_Some _ _ _ Hv). zbool. cbn [orb]. by rewrite Nat2Z.id, Hv.
  - by apply (evalColumn_found _ _ _ _ _ j).
Qed.

Section AgreeClause.
Context (ParseFloat : bytes → option Z) (outOfRange : float64 → Z) (rest : iface → iface → string → eres iface).
Context (evalOperator : string → iface → iface → eres iface) (evalNode : nat → list iface → eres iface).
Context (schema : TableSchema) (kinds : list kind) (ctx : option ExecutionContext).
Context (Hp : plainSchema schema) (Hctx : selectCtx schema ctx).

Let evalC row e := evalOperand ParseFloat outOfRange ToLower EqualFold rest evalOperator evalNode row schema ctx e.
Let exprC row e := evalExpr ParseFloat outOfRange ToLower EqualFold rest evalOperator evalNode row schema ctx e.

Lemma exprC_bool row e b : evalC row e = Ok (IBool b) → e ≠ ENil → exprC row e = Ok b.
Proof. unfold exprC, evalExpr, evalC. intros H He. destruct e; try done; by rewrite H. Qed.

Definition agrees (row : list iface) (e : Expression) : Prop :=
  ∀ k, kindOf schema kinds e = Some k → plainRefs e →
  ∃ v, meaning ToLower EqualFold (loadRow row) schema e = Ok v ∧ evalC row e = Ok (ToInterface v) ∧
       hasKind k (ToInterface v).

Lemma agrees_bool row e :
  agrees row e → kindOf schema kinds e = Some KBool → plainRefs e →
  ∃ b, meaning ToLower EqualFold (loadRow row) schema e = Ok (ValBool b) ∧ exprC row e = Ok b.
Proof.
  intros H Hk Hr. destruct (H _ Hk Hr) as (v & Hm & He & Hv). destruct v; try done. exists b. split; [done|].
  apply exprC_bool; [done|]. by intros ->.
Qed.

Lemma connective_kind k (kl kr : option kind) :
  (a ← kl; b ← kr; if bool_decide (a = KBool) && bool_decide (b = KBool) then Some KBool else None) = Some k →
  kl = Some KBool ∧ kr = Some KBool ∧ k = KBool.
Proof.
  destruct kl as [a|], kr as [b|]; try done. cbn. destruct (_ && _) eqn:E; [|done]. intros [= <-].
  by apply andb_prop in E as [->%bool_decide_eq_true ->%bool_decide_eq_true].
Qed.

(** A clause with a kind has the same value in the machine's reading and for
    the evaluator. *)
Lemma clause_agrees row e :
  conforms schema kinds row → agrees row e.
Proof.
  intros Hrow. induction e as [|l|n t|l IHl op r IHr|l IHl r IHr|l IHl r IHr|e IHe|n]; intros k Hk Hr;
    cbn [kindOf] in Hk; try done.
  - destruct (literal_agrees _ _ Hk) as (v & Hv & Ev & Hkv). exists v. cbn [meaning]. rewrite Ev. by split_and!.
  - destruct (columnIdx EqualFold 0 schema n) as [i|] eqn:Ei; [|done]. cbn in Hk, Hr. destruct Hr as [Hn Ht].
    destruct (column_agrees schema kinds row ctx n t i k) as (v & Hv & Ev & Hkv); [done..|].
    exists v. cbn [meaning]. rewrite Ei. by split_and!.
  - destruct (kindOf schema kinds l) as [kl|] eqn:Kl; [|done]. destruct (kindOf schema kinds r) as [kr|] eqn:Kr; [|done]. cbn in Hk, Hr.
    destruct (_ && _) eqn:Ec in Hk; [|done]. injection Hk as <-.
    apply andb_prop in Ec as [[<-%bool_decide_eq_true Hop]%andb_prop Hkb].
    destruct (IHl _ Kl (proj1 Hr)) as (lv & Hl & El & Hkl). destruct (IHr _ Kr (proj2 Hr)) as (rv & Hrv & Er & Hkr).
    destruct (binaryOp op) as [o|] eqn:Eo.
    2: { apply isComparison_cases in Hop. repeat (apply elem_of_cons in Hop as [->|Hop]); try done. by apply elem_of_nil in Hop. }
    destruct (compare_agrees ParseFloat kl op o lv rv) as (b & Hb & Eb); [done..| |].
    { intros ->. apply orb_true_iff in Hkb as [Hkb%orb_true_iff|?%bool_decide_eq_true]; [|by right].
      destruct Hkb as [?|?%bool_decide_eq_true]; [done|by left]. }
    exists (ValBool b). cbn [meaning evalOperand]. rewrite Hl, Hrv. unfold evalC in *. cbn [mbind outcome_bind evalOperand].
    rewrite Eo, Hb, El, Er, Hop. cbn [mbind outcome_bind]. by rewrite Eb.
  - apply connective_kind in Hk as (Kl & Kr & ->). destruct (agrees_bool row l) as (lb & Hl & El); [done..|apply Hr|].
    destruct (agrees_bool row r) as (rb & Hrv & Er); [done..|apply Hr|]. exists (ValBool (lb && rb)).
    cbn [meaning]. rewrite Hl, Hrv. split_and!; [done| |done]. unfold exprC, evalExpr in El, Er. unfold evalC. cbn [evalOperand].
    by rewrite El; cbn [mbind outcome_bind]; rewrite Er.
  - apply connective_kind in Hk as (Kl & Kr & ->). destruct (agrees_bool row l) as (lb & Hl & El); [done..|apply Hr|].
    destruct (agrees_bool row r) as (rb & Hrv & Er); [done..|apply Hr|]. exists (ValBool (lb || rb)).
    cbn [meaning]. rewrite Hl, Hrv. split_and!; [done| |done]. unfold exprC, evalExpr in El, Er. unfold evalC. cbn [evalOperand].
    by rewrite El; cbn [mbind outcome_bind]; rewrite Er.
  - destruct (kindOf schema kinds e) as [ke|] eqn:Ke; [|done]. cbn in Hk. case_bool_decide as Eb; [|done]. subst ke. injection Hk as <-.
    destruct (agrees_bool row e) as (b & Hb & Eb); [done..|]. exists (ValBool (negb b)).
    cbn [meaning]. rewrite Hb. split_and!; [done| |done]. unfold exprC, evalExpr in Eb. unfold evalC. cbn [evalOperand]. by rewrite Eb.
Qed.

Lemma literalValue_compiles c v : literalValue ToLower c = Ok v → ∃ code, compileValue ToLower c = Ok code.
Proof. unfold literalValue, compileValue. cbv zeta. repeat case_bool_decide; eauto. done. Qed.

Lemma kinded_compiles e k insts :
  kindOf schema kinds e = Some k → ∃ code, compileNode ToLower EqualFold e schema insts = Ok code.
Proof.
  revert k insts. induction e as [|l|n t|l IHl op r IHr|l IHl r IHr|l IHl r IHr|e IHe|n]; intros k insts Hk;
    cbn [kindOf compileNode] in *; try done.
  - destruct (literal_agrees _ _ Hk) as (v & Hv & _). destruct (literalValue_compiles _ _ Hv) as [code ->]. by eexists.
  - destruct (columnIdx EqualFold 0 schema n); [by eexists|done].
  - destruct (kindOf schema kinds l) as [kl|]; [|done]. destruct (kindOf schema kinds r) as [kr|]; [|done]. cbn in Hk.
    destruct (_ && _) eqn:Ec in Hk; [|done]. apply andb_prop in Ec as [[_ Hop]%andb_prop _].
    destruct (IHl kl insts eq_refl) as [c1 ->]. cbn. destruct (IHr kr c1 eq_refl) as [c2 ->]. cbn.
    apply isComparison_cases in Hop. repeat (apply elem_of_cons in Hop as [->|Hop]); try by eexists. by apply elem_of_nil in Hop.
  - apply connective_kind in Hk as (Kl & Kr & ->).
    destruct (IHl KBool insts Kl) as [c1 ->]. cbn. destruct (IHr KBool c1 Kr) as [c2 ->]. by eexists.
  - apply connective_kind in Hk as (Kl & Kr & ->).
    destruct (IHl KBool insts Kl) as [c1 ->]. cbn. destruct (IHr KBool c1 Kr) as [c2 ->]. by eexists.
  - destruct (kindOf schema kinds e) as [ke|]; [|done]. destruct (IHe ke insts eq_refl) as [c1 ->]. by eexists.
Qed.

(** What the machine and the evaluator say of one row. *)
Lemma row_agrees row e insts :
  kindOf schema kinds e = Some KBool → plainRefs e → (need e ≤ stackSize)%nat → conforms schema kinds row →
  Compile ToLower EqualFold e schema = Ok insts →
  ∃ b, ExecuteVM insts row = Ok (IBool b) ∧ ExecuteVMBool insts row = Ok b ∧ exprC row e = Ok b.
Proof.
  intros Hk Hr Hn Hrow Hc. destruct (agrees_bool row e) as (b & Hm & He); [by apply clause_agrees|done..|].
  exists b. unfold ExecuteVM, ExecuteVMBool.
  rewrite (run_Compile ToLower EqualFold _ _ _ _ Hc), (bounded_enough ToLower EqualFold _ _ _ _ Hn), Hm. done.
Qed.

Lemma kinded_Compile e k :
  kindOf schema kinds e = Some k → ∃ i insts, Compile ToLower EqualFold e schema = Ok (i :: insts).
Proof.
  intros Hk. assert (∃ code, Compile ToLower EqualFold e schema = Ok code) as [[|i code] Hc].
  { destruct e; try done; by eapply kinded_compiles. }
  - pose proof (run_Compile ToLower EqualFold (λ _, Ok ValNull) schema e [] Hc) as Hr. cbn in Hr. by destruct (bounded _ _ _ _ _ e).
  - by eexists _, _.
Qed.
End AgreeClause.
End Agreement.

(** ** Chunks *)

Lemma chunksOf_concat {A} fuel size (rows : list A) :
  (1 ≤ size)%nat → (length rows ≤ fuel)%nat → concat (chunksOf fuel size rows) = rows.
Proof.
  intros Hs. revert rows. induction fuel as [|fuel IH]; intros [|x rows] Hf; cbn [chunksOf concat length] in *; try done; [lia|].
  rewrite IH by (rewrite length_drop; cbn; lia). apply take_drop.
Qed.

Lemma splitRows_concat {A} numWorkers (rows : list A) : concat (splitRows numWorkers rows) = rows.
Proof.
  unfold splitRows. apply chunksOf_concat; [|done]. destruct (Nat.eqb_spec (length rows / numWorkers) 0); lia.
Qed.

Lemma filterChunk_spec test keep rows :
  (∀ row, row ∈ rows → test row = Ok (keep row)) → filterChunk test rows = Ok (filter (λ row, keep row = true) rows).
Proof.
  induction rows as [|row rows IH]; intros H; [done|]. cbn [filterChunk]. rewrite (H row) by (by left).
  rewrite IH by (intros; apply H; by right). cbn [mbind outcome_bind]. rewrite filter_cons. destruct (keep row); [by rewrite decide_True|by rewrite decide_False].
Qed.

Lemma filterChunks_spec test keep chunks :
  (∀ row, row ∈ concat chunks → test row = Ok (keep row)) →
  filterChunks test chunks = Ok (filter (λ row, keep row = true) (concat chunks)).
Proof.
  induction chunks as [|c chunks IH]; intros H; [done|]. cbn [filterChunks concat] in *.
  rewrite (filterChunk_spec test keep) by (intros; apply H, elem_of_app; by left). cbn [mbind outcome_bind].
  rewrite IH by (intros; apply H, elem_of_app; by right). cbn. by rewrite filter_app.
Qed.

Lemma filterRows_spec EvalExpr compiled keep rows :
  (∀ row, row ∈ rows → rowPasses EvalExpr compiled row = Ok (keep row)) →
  filterRows EvalExpr compiled rows = Ok (filter (λ row, keep row = true) rows).
Proof.
  induction rows as [|row rows IH]; intros H; [done|]. cbn [filterRows]. rewrite (H row) by (by left). cbn [mbind outcome_bind].
  rewrite IH by (intros; apply H; by right). cbn [mbind outcome_bind]. rewrite filter_cons. destruct (keep row); [by rewrite decide_True|by rewrite decide_False].
Qed.

(** Without rows there are no chunks. *)
Lemma ParallelFilter_eq ToLower EqualFold EvalExpr e schema numWorkers rows :
  ParallelFilter ToLower EqualFold EvalExpr e schema numWorkers rows =
  filterChunks (λ row, match Compile ToLower EqualFold e schema with
                       | Ok ((_ :: _) as insts) => forget (ExecuteVMBool insts row)
                       | _ => forget (EvalExpr row)
                       end) (splitRows (Z.to_nat (NewParallelCoordinator numWorkers)) rows).
Proof. by destruct rows. Qed.

(** ** Properties *)

(** C22: compiled code computes the expression: with at most eight cells of
    stack needed, [ExecuteVM] and [ExecuteVMBool] return the value of the
    expression evaluated directly, operands from left to right, errors
    included; an expression that has a value but needs a ninth cell makes both
    panic. *)
Theorem vm_compiler_correct ToLower EqualFold e schema insts row :
  Compile ToLower EqualFold e schema = Ok insts →
  let value := meaning ToLower EqualFold (loadRow row) schema e in
  ((need e ≤ stackSize)%nat →
     ExecuteVM insts row = ToInterface <$> value ∧ ExecuteVMBool insts row = boolField <$> value) ∧
  ((stackSize < need e)%nat → ∀ v, value = Ok v →
     ExecuteVM insts row = Panic ∧ ExecuteVMBool insts row = Panic).
Proof.
  intros Hc value. unfold ExecuteVM, ExecuteVMBool. rewrite (run_Compile _ _ _ _ _ _ Hc). split.
  - intros Hn. rewrite bounded_enough by done. fold value. by destruct value.
  - intros Hn v Hv. by rewrite (bounded_short _ _ _ _ _ _ v Hn Hv).
Qed.

(** C30: the interpreter over raw tuples agrees with the one over rows: on the
    encoding of a row without nulls, any code gives the same boolean, an error
    for both, or a panic for both. *)
Theorem raw_agrees_with_row Marshal pooled createdTx deletedTx row tuple insts :
  Forall wordFits row → VNil ∉ row →
  EncodeRow Marshal pooled createdTx deletedTx row = Ok tuple →
  forget (ExecuteVMRaw insts tuple) = forget (ExecuteVMBool insts (ofValue <$> row)).
Proof.
  intros Hw Hn. rewrite EncodeRow_eq. destruct row as [|v row]; [done|]. unfold encodeReference. set (r := v :: row) in *.
  destruct (encodeCols Marshal r) as [encs| |] eqn:Ee; cbn [mbind outcome_bind]; [|done..].
  destruct (Z.ltb_spec 65535 (headerBytes (length r) + blen (concat encs))) as [|Hle]; [done|].
  intros Ht. apply Ok_inj in Ht as <-. rewrite <- (encodeCols_length _ _ _ Ee) in Hle.
  pose proof (run_load_ext _ _ insts newMachine (λ i, loadRaw_row Marshal createdTx deletedTx r encs i Ee Hle Hw Hn)) as Hr.
  unfold ExecuteVMRaw, ExecuteVMBool.
  by destruct (run (loadRaw _) insts newMachine) as [a| |], (run (loadRow _) insts newMachine) as [b| |]; simplify_eq/=.
Qed.

(** C26: the ways to filter rows agree: for a clause of comparisons and logic
    over columns and literals of matching kinds, on rows without nulls, the
    sequential filter and the parallel one, with any number of workers, return
    exactly the rows the evaluator accepts, in their order. *)
Theorem where_filters_agree ToLower EqualFold `{!AsciiCase ToLower EqualFold}
    ParseFloat outOfRange rest evalOperator evalNode schema kinds ctx e (rows : list (list iface)) :
  plainSchema schema → selectCtx (ToLower := ToLower) schema ctx →
  kindOf (EqualFold := EqualFold) schema kinds e = Some KBool → plainRefs e → (need e ≤ stackSize)%nat →
  Forall (conforms schema kinds) rows →
  let EvalExpr row := evalExpr ParseFloat outOfRange ToLower EqualFold rest evalOperator evalNode row schema ctx e in
  let accepted := filter (λ row, match EvalExpr row with Ok b => b | _ => false end = true) rows in
  (∀ row, row ∈ rows → ∃ b, EvalExpr row = Ok b) ∧
  selectFilter ToLower EqualFold EvalExpr e schema rows = Ok accepted ∧
  ∀ numWorkers, ParallelFilter ToLower EqualFold EvalExpr e schema numWorkers rows = Ok accepted.
Proof.
  intros Hp Hctx Hk Hr Hn Hrows EvalExpr accepted. rewrite Forall_forall in Hrows.
  destruct (kinded_Compile schema kinds e KBool Hk) as (i & insts & Hc).
  assert (∀ row, row ∈ rows → ∃ b, ExecuteVM (i :: insts) row = Ok (IBool b) ∧
    ExecuteVMBool (i :: insts) row = Ok b ∧ EvalExpr row = Ok b) as Hrow.
  { intros row Hin. by apply (row_agrees ParseFloat outOfRange rest evalOperator evalNode schema kinds ctx Hp Hctx row e); try apply Hrows. }
  set (keep := λ row, match EvalExpr row with Ok b => b | _ => false end).
  split_and!.
  - intros row Hin. destruct (Hrow row Hin) as (b & _ & _ & H). by exists b.
  - unfold selectFilter. rewrite Hc. apply (filterRows_spec EvalExpr _ keep). intros row Hin.
    destruct (Hrow row Hin) as (b & H1 & _ & H3). unfold rowPasses, keep. by rewrite H1, H3.
  - intros numWorkers. rewrite ParallelFilter_eq, Hc. rewrite (filterChunks_spec _ keep); rewrite splitRows_concat; [done|].
    intros row Hin. destruct (Hrow row Hin) as (b & _ & H2 & H3). unfold keep. by rewrite H2, H3.
Qed.

(** ** Samples *)

Definition foldAscii (s t : bytes) : bool := bool_decide (lower s = lower t).

#[export] Instance foldAscii_case : AsciiCase lower foldAscii.
Proof. by split. Qed.

Definition litInt (i : Z) : Expression := EValue (mkLit tInt i (S754_zero false) [] false).
Definition litString (s : string) : Expression := EValue (mkLit tString 0 (S754_zero false) (str s) false).
Definition col (s : string) : Expression := EColumnRef (str s) [].

Definition sampleSchema : TableSchema := [str "id"; str "Name"; str "ok"].
Definition sampleKinds : list kind := [KNum; KStr; KBool].
Definition sampleRows : list (list iface) :=
  [[IInt 7; IString (str "x"); IBool false]; [IFloat (fromInt 9); IString (str "y"); IBool false];
   [IInt 1; IString (str "z"); IBool true]].

(** [id > 5 AND NOT (name = 'x') OR ok]. *)
Definition sampleClause : Expression :=
  EOr (EAnd (EBinary (col "id") ">" (litInt 5)) (ENot (EBinary (col "name") "=" (litString "x")))) (col "ok").

Definition sampleCode : list OpCode :=
  [OpLoadColumn 0; OpPushInt 5; OpGt; OpLoadColumn 1; OpPushString (str "x"); OpEq; OpNot; OpAnd; OpLoadColumn 2; OpOr].

Lemma vm_compiler_correct_witness :
  ExecuteVM sampleCode [IInt 9; IString (str "y"); IBool false] = Ok (IBool true) ∧
  meaning lower foldAscii (loadRow [IInt 9; IString (str "y"); IBool false]) sampleSchema sampleClause = Ok (ValBool true).
Proof.
  split; [|vm_compute; reflexivity].
  destruct (vm_compiler_correct lower foldAscii sampleClause sampleSchema sampleCode
    [IInt 9; IString (str "y"); IBool false] ltac:(vm_compute; reflexivity)) as [H _].
  rewrite (proj1 (H ltac:(vm_compute; lia))). vm_compute. reflexivity.
Defined.

Definition sampleTuple : bytes :=
  match EncodeRow (λ _, None) [] 7 0 [VInt 9; VString (str "y"); VBool false] with Ok t => t | _ => [] end.

Lemma raw_agrees_with_row_witness :
  forget (ExecuteVMRaw sampleCode sampleTuple) = Ok true.
Proof.
  rewrite (raw_agrees_with_row (λ _, None) [] 7 0 [VInt 9; VString (str "y"); VBool false] sampleTuple sampleCode).
  - vm_compute. reflexivity.
  - repeat constructor; cbn; lia.
  - repeat (apply not_elem_of_cons; split; [done|]). apply not_elem_of_nil.
  - vm_compute. reflexivity.
Defined.

Lemma where_filters_agree_witness :
  ParallelFilter lower foldAscii (λ row, evalExpr (λ _, None) (λ _, 0) lower foldAscii (λ _ _ _, Err ErrTypeMismatch)
      (λ _ _ _, Err ErrUnknownOperator) (λ _ _, Err ErrUnsupportedExpression) row sampleSchema None sampleClause)
    sampleClause sampleSchema 2 sampleRows = Ok (drop 1 sampleRows).
Proof.
  destruct (where_filters_agree lower foldAscii (λ _, None) (λ _, 0) (λ _ _ _, Err ErrTypeMismatch)
      (λ _ _ _, Err ErrUnknownOperator) (λ _ _, Err ErrUnsupportedExpression) sampleSchema sampleKinds None sampleClause sampleRows)
    as (_ & _ & H).
  - split; [|apply (bool_decide_unpack _); vm_compute; exact I].
    repeat constructor; apply (bool_decide_unpack _); vm_compute; exact I.
  - split; [by left|done].
  - vm_compute. reflexivity.
  - repeat split; try apply (bool_decide_unpack _); vm_compute; try exact I; repeat constructor; done.
  - vm_compute. lia.
  - repeat constructor.
  - rewrite (H 2). vm_compute. reflexivity.
Defined.

(** ** Where they differ *)

(** Eight conditions joined by AND and grouped to the right need a ninth cell. *)
Fixpoint rightNested (n : nat) : Expression :=
  match n with
  | O => EBinary (col "id") "=" (litInt 1)
  | S n => EAnd (EBinary (col "id") "=" (litInt 1)) (rightNested n)
  end.

Example right_nested_panics :
  ∃ insts, Compile lower foldAscii (rightNested 7) sampleSchema = Ok insts ∧
    ExecuteVMBool insts [IInt 1; IString []; IBool true] = Panic.
Proof. eexists. split; [vm_compute; reflexivity|]. vm_compute. reflexivity. Qed.

Definition evalSample (row : list iface) (e : Expression) : eres bool :=
  evalExpr (λ _, None) (λ _, 0) lower foldAscii (λ _ _ _, Err ErrTypeMismatch)
    (λ _ _ _, Err ErrUnknownOperator) (λ _ _, Err ErrUnsupportedExpression) row sampleSchema None e.

(** [7 / 2 > 3]: the machine divides integers, the evaluator floats. *)
Example division_differs :
  ∃ insts, Compile lower foldAscii (EBinary (EBinary (col "id") "/" (litInt 2)) ">" (litInt 3)) sampleSchema = Ok insts ∧
    ExecuteVM insts [IInt 7; IString []; IBool true] = Ok (IBool false) ∧
    evalSample [IInt 7; IString []; IBool true] (EBinary (EBinary (col "id") "/" (litInt 2)) ">" (litInt 3)) = Ok true.
Proof. eexists. split; [vm_compute; reflexivity|]. split; vm_compute; reflexivity. Qed.

(** Two nulls are equal for the evaluator and different for the machine. *)
Example null_equality_differs :
  ∃ insts, Compile lower foldAscii (EBinary (col "id") "=" (col "name")) sampleSchema = Ok insts ∧
    ExecuteVM insts [INil; INil; INil] = Ok (IBool false) ∧
    evalSample [INil; INil; INil] (EBinary (col "id") "=" (col "name")) = Ok true.
Proof. eexists. split; [vm_compute; reflexivity|]. split; vm_compute; reflexivity. Qed.

(** A null is written with the marker 0xFF, which the raw interpreter does not
    know: it fails where the one over rows answers. *)
Example null_breaks_raw :
  ∃ tuple, EncodeRow (λ _, None) [] 7 0 [VNil; VString []; VBool false] = Ok tuple ∧
    ExecuteVMRaw [OpLoadColumn 0; OpPushInt 5; OpEq] tuple = Err ErrUnsupportedTag ∧
    ExecuteVMBool [OpLoadColumn 0; OpPushInt 5; OpEq] [INil; IString []; IBool false] = Ok false.
Proof. eexists. split; [vm_compute; reflexivity|]. split; vm_compute; reflexivity. Qed.

(** [NOT (id < 5)] of a null: the sequential filter falls back to the
    evaluator and keeps the row, the parallel one drops it. *)
Example parallel_drops_nulls :
  let e := ENot (EBinary (col "id") "<" (litInt 5)) in
  let row := [INil; IString []; IBool false] in
  selectFilter lower foldAscii (λ row, evalSample row e) e sampleSchema [row] = Ok [row] ∧
  ParallelFilter lower foldAscii (λ row, evalSample row e) e sampleSchema 4 [row] = Ok [].
Proof. split; vm_compute; reflexivity. Qed.
