(* ===== verification/Like.v ===== *)
(** * LIKE

    [server/internal/core/executor/eval/like.go]: a pattern without ['_'] is
    split at ['%'] and matched segment by segment; any other becomes a regular
    expression over runes.  Compiled patterns live in a cache with
    least-recently-used eviction that goroutines share. *)

From S2P Require Import Prelude Bytes RowCodec Float64 Eval.

(** ** Strings *)

Definition percent : byte := Byte.x25.
Definition underscore : byte := Byte.x5f.

(** [strings.HasPrefix], [strings.HasSuffix]. *)
Definition HasPrefix (s p : bytes) : bool := bool_decide (take (length p) s = p).
Definition HasSuffix (s p : bytes) : bool :=
  (length p <=? length s)%nat && bool_decide (drop (length s - length p) s = p).

(** [strings.Index]: where [m] occurs first, [-1] as [None]. *)
Fixpoint Index (s m : bytes) : option nat :=
  if HasPrefix s m then Some O
  else match s with [] => None | _ :: s => S <$> Index s m end.

(** [strings.Split(s, "%")]. *)
Fixpoint Split (s : bytes) : list bytes :=
  match s with
  | [] => [[]]
  | b :: s =>
      if bool_decide (b = percent) then [] :: Split s
      else match Split s with seg :: segs => (b :: seg) :: segs | [] => [[b]] end
  end.

(** ** Runes *)

Definition RuneError : Z := 0xFFFD.

Definition isCont (lo hi : Z) (b : byte) : bool := (lo <=? byte.unsigned b) && (byte.unsigned b <=? hi).

(** [utf8.DecodeRune] of a non-empty string: the rune and its width. *)
Definition decodeRune (b0 : byte) (rest : bytes) : Z * nat :=
  let c := byte.unsigned b0 in
  let tail b := Z.land (byte.unsigned b) 0x3F in
  if c <? 0x80 then (c, 1%nat)
  else if c <? 0xC2 then (RuneError, 1%nat)
  else if c <? 0xE0 then
    match rest with
    | b1 :: _ => if isCont 0x80 0xBF b1 then (Z.land c 0x1F * 64 + tail b1, 2%nat) else (RuneError, 1%nat)
    | _ => (RuneError, 1%nat)
    end
  else if c <? 0xF0 then
    match rest with
    | b1 :: b2 :: _ =>
        if isCont (if c =? 0xE0 then 0xA0 else 0x80) (if c =? 0xED then 0x9F else 0xBF) b1 && isCont 0x80 0xBF b2
        then (Z.land c 0x0F * 4096 + tail b1 * 64 + tail b2, 3%nat) else (RuneError, 1%nat)
    | _ => (RuneError, 1%nat)
    end
  else if c <? 0xF5 then
    match rest with
    | b1 :: b2 :: b3 :: _ =>
        if isCont (if c =? 0xF0 then 0x90 else 0x80) (if c =? 0xF4 then 0x8F else 0xBF) b1 &&
           isCont 0x80 0xBF b2 && isCont 0x80 0xBF b3
        then (Z.land c 0x07 * 262144 + tail b1 * 4096 + tail b2 * 64 + tail b3, 4%nat) else (RuneError, 1%nat)
    | _ => (RuneError, 1%nat)
    end
  else (RuneError, 1%nat).

(** [for _, r := range s]; the length of [s] is fuel enough. *)
Fixpoint runesLoop (fuel : nat) (s : bytes) : list Z :=
  match fuel, s with
  | S fuel, b :: rest => let '(r, w) := decodeRune b rest in r :: runesLoop fuel (drop w s)
  | _, _ => []
  end.

Definition runes (s : bytes) : list Z := runesLoop (length s) s.

(** ** Patterns *)

(** The parts of the regular expression between [^] and [$]: [.*], [.] and a
    quoted rune; [(?s)] lets the dot match a line break. *)
Inductive reItem : Type := ReMany | ReOne | ReRune (r : Z).

Definition itemOf (r : Z) : reItem :=
  if r =? 0x25 then ReMany else if r =? 0x5F then ReOne else ReRune r.

(** [regexp.MatchString] of such an expression whose runes come from valid
    UTF-8. *)
Fixpoint reMatch (re : list reItem) (text : list Z) : bool :=
  match re with
  | [] => match text with [] => true | _ => false end
  | ReOne :: re => match text with _ :: text => reMatch re text | [] => false end
  | ReRune r :: re => match text with c :: text => (r =? c) && reMatch re text | [] => false end
  | ReMany :: re =>
      (fix skip (text : list Z) : bool :=
         reMatch re text || match text with [] => false | _ :: text => skip text end) text
  end.

(** The loop over the segments in the middle. *)
Fixpoint matchMiddle (text : bytes) (mids : list bytes) : bool :=
  match mids with
  | [] => true
  | mid :: mids =>
      if bool_decide (mid = []) then matchMiddle text mids
      else match Index text mid with
           | None => false
           | Some i => matchMiddle (drop (i + length mid) text) mids
           end
  end.

Definition matchSegments (text : bytes) (segs : list bytes) : bool :=
  match segs with
  | [] => false
  | [seg] => bool_decide (text = seg)
  | first :: rest =>
      if negb (HasPrefix text first) then false else
      let text := drop (length first) text in
      let last := List.last rest [] in
      if (length text <? length last)%nat || negb (HasSuffix text last) then false else
      let text := take (length text - length last) text in
      matchMiddle text (removelast rest)
  end.

Inductive compiledPattern : Type :=
| Simple (segments : list bytes)
| Regexp (re : list reItem).

Definition patMatch (cp : compiledPattern) (text : bytes) : bool :=
  match cp with
  | Simple segments => matchSegments text segments
  | Regexp re => reMatch re (runes text)
  end.

Inductive like_error : Type := ErrPatternNotString | ErrInvalidPattern.

Section Like.
(** Whether [regexp.Compile] refuses an expression for its size. *)
Context (tooLarge : list reItem → bool).

Definition compilePattern (pattern : bytes) : outcome like_error compiledPattern :=
  if negb (bool_decide (underscore ∈ pattern)) then Ok (Simple (Split pattern))
  else let re := itemOf <$> runes pattern in
       if tooLarge re then Err ErrInvalidPattern else Ok (Regexp re).

(** ** The cache *)

(** [entries] leads from a pattern to its element of [order]; the elements are
    identified by their pattern. *)
Record likePatternCache : Type := mkCache {
  capacity : nat; entries : gmap bytes compiledPattern; order_ : list (bytes * compiledPattern) }.

Definition newLikePatternCache (capacity : nat) : likePatternCache := mkCache capacity ∅ [].

Definition MoveToFront (pattern : bytes) (l : list (bytes * compiledPattern)) : list (bytes * compiledPattern) :=
  filter (λ x, x.1 = pattern) l ++ filter (λ x, x.1 ≠ pattern) l.

(** The first critical section of [getOrCompile]. *)
Definition lookupCache (pattern : bytes) (c : likePatternCache) : likePatternCache * option compiledPattern :=
  match entries c !! pattern with
  | Some cp => (mkCache (capacity c) (entries c) (MoveToFront pattern (order_ c)), Some cp)
  | None => (c, None)
  end.

(** The second one, with the pattern compiled in between. *)
Definition insertCache (pattern : bytes) (cp : compiledPattern) (c : likePatternCache)
    : likePatternCache * compiledPattern :=
  match entries c !! pattern with
  | Some cp => (mkCache (capacity c) (entries c) (MoveToFront pattern (order_ c)), cp)
  | None =>
      let order := (pattern, cp) :: order_ c in
      let entries := <[pattern := cp]> (entries c) in
      if (capacity c <? length order)%nat then
        match last order with
        | Some oldest => (mkCache (capacity c) (delete oldest.1 entries) (removelast order), cp)
        | None => (mkCache (capacity c) entries order, cp)
        end
      else (mkCache (capacity c) entries order, cp)
  end.

(** What goroutines do with the cache, one critical section at a time. *)
Inductive cacheStep : likePatternCache → likePatternCache → Prop :=
| C_lookup c pattern : cacheStep c (lookupCache pattern c).1
| C_insert c pattern cp : compilePattern pattern = Ok cp → cacheStep c (insertCache pattern cp c).1.

Context (ValueToString : iface → bytes).

(** [EvalLike] where the cache was [c] at the first critical section and
    [d] at the second one. *)
Definition getOrCompile (pattern : bytes) (c d : likePatternCache) : outcome like_error compiledPattern :=
  match (lookupCache pattern c).2 with
  | Some cp => Ok cp
  | None => cp ← compilePattern pattern; Ok (insertCache pattern cp d).2
  end.

Definition EvalLike (left right : iface) (c d : likePatternCache) : outcome like_error bool :=
  if isNil left || isNil right then Ok false else
  match right with
  | IString pattern =>
      let text := match left with IString s => s | _ => ValueToString left end in
      cp ← getOrCompile pattern c d;
      Ok (patMatch cp text)
  | _ => Err ErrPatternNotString
  end.

Context (ToLower : bytes → bytes).

Definition EvalILike (left right : iface) (c d : likePatternCache) : outcome like_error bool :=
  if isNil left || isNil right then Ok false else
  match right with
  | IString pattern =>
      let text := match left with IString s => s | _ => ValueToString left end in
      cp ← getOrCompile (ToLower pattern) c d;
      Ok (patMatch cp (ToLower text))
  | _ => Err ErrPatternNotString
  end.
End Like.

(** ** What LIKE means *)

Section Wild.
Context {A : Type} (many one : A).

(** [many] stands for any sequence, [one] for any single element. *)
Inductive likes : list A → list A → Prop :=
| likes_nil : likes [] []
| likes_many p t1 t2 : likes p t2 → likes (many :: p) (t1 ++ t2)
| likes_one p c t : likes p t → likes (one :: p) (c :: t)
| likes_char a p t : a ≠ many → a ≠ one → likes p t → likes (a :: p) (a :: t).
End Wild.

(** ** The regular expression *)

Lemma reMatch_skip re text :
  reMatch (ReMany :: re) text = true ↔ ∃ t1 t2, text = t1 ++ t2 ∧ reMatch re t2 = true.
Proof.
  induction text as [|c text IH].
  - cbn. rewrite orb_false_r. split; [by exists [], []|]. by intros ([|] & [|] & [=] & ?).
  - change (reMatch (ReMany :: re) (c :: text)) with (reMatch re (c :: text) || reMatch (ReMany :: re) text).
    rewrite orb_true_iff, IH. split.
    + intros [H|(t1 & t2 & -> & H)]; [by exists [], (c :: text)|by exists (c :: t1), t2].
    + intros ([|c' t1] & t2 & E & H); [left; cbn in E; by rewrite E|right]. injection E as <- ->. by exists t1, t2.
Qed.

Lemma reMatch_likes p t : reMatch (itemOf <$> p) t = true ↔ likes 0x25 0x5F p t.
Proof.
  revert t. induction p as [|r p IH]; intros t.
  { cbn. split; [destruct t; [constructor|done]|by inversion 1]. }
  cbn [fmap list_fmap]. unfold itemOf at 1. destruct (Z.eqb_spec r 0x25) as [->|Hm]; [|destruct (Z.eqb_spec r 0x5F) as [->|Ho]].
  - rewrite reMatch_skip. split.
    + intros (t1 & t2 & -> & H%IH). by constructor.
    + inversion 1 as [|p' t1 t2 Hl| |]; simplify_eq. exists t1, t2. split; [done|by apply IH].
  - cbn. destruct t as [|c t]; [split; [done|by inversion 1]|]. rewrite IH. split; [by constructor|].
    by inversion 1; simplify_eq.
  - cbn. destruct t as [|c t]; [split; [done|by inversion 1]|]. rewrite andb_true_iff, IH, Z.eqb_eq. split.
    + intros [-> H]. by constructor.
    + by inversion 1; simplify_eq.
Qed.

(** ** The segments *)

(** The text is the segments with gaps between them. *)
Fixpoint segsLike (segs : list bytes) (t : bytes) : Prop :=
  match segs with
  | [] => False
  | [s] => t = s
  | s :: segs => ∃ g t', t = s ++ g ++ t' ∧ segsLike segs t'
  end.

Lemma Split_nonempty p : Split p ≠ [].
Proof. destruct p as [|b p]; [done|]. cbn. case_bool_decide; [done|]. by destruct (Split p). Qed.

Lemma segsLike_cons b s segs t :
  segsLike ((b :: s) :: segs) t ↔ ∃ t', t = b :: t' ∧ segsLike (s :: segs) t'.
Proof.
  destruct segs as [|s' segs]; cbn.
  - split; [intros ->; by exists s|]. by intros (t' & -> & ->).
  - split.
    + intros (g & t' & -> & H). eexists. split; [done|]. by exists g, t'.
    + intros (t' & -> & g & t2 & -> & H). by exists g, t2.
Qed.

Lemma Split_likes p t : underscore ∉ p → likes percent underscore p t ↔ segsLike (Split p) t.
Proof.
  revert t. induction p as [|b p IH]; intros t Hu.
  { cbn. split; [by inversion 1|intros ->; constructor]. }
  apply not_elem_of_cons in Hu as [Hb Hu]. cbn [Split]. case_bool_decide as Ep.
  - subst b. assert (∃ s segs, Split p = s :: segs) as (s & segs & Es)
      by (pose proof (Split_nonempty p); destruct (Split p) as [|s segs]; [done|by exists s, segs]).
    assert (segsLike ([] :: Split p) t ↔ ∃ g t', t = g ++ t' ∧ segsLike (Split p) t') as -> by (by rewrite Es).
    split.
    + inversion 1 as [|p' t1 t2 Hl| |]; simplify_eq. exists t1, t2. split; [done|by apply IH].
    + intros (g & t' & -> & H'). constructor. by apply IH.
  - pose proof (Split_nonempty p). destruct (Split p) as [|s segs] eqn:Es; [done|]. rewrite segsLike_cons. split.
    + inversion 1; simplify_eq. eexists. split; [done|]. by apply IH.
    + intros (t' & -> & H'). constructor; [done|congruence|]. by apply IH.
Qed.

(** The segments in the middle, anywhere in order. *)
Fixpoint midLike (mids : list bytes) (t : bytes) : Prop :=
  match mids with
  | [] => True
  | m :: mids => ∃ g t', t = g ++ m ++ t' ∧ midLike mids t'
  end.

Lemma midLike_app mids g t : midLike mids t → midLike mids (g ++ t).
Proof.
  destruct mids as [|m mids]; [done|]. intros (g' & t' & -> & H). exists (g ++ g'), t'. by rewrite <- app_assoc.
Qed.

Lemma segsLike_middle rest t :
  rest ≠ [] →
  (∃ g t', t = g ++ t' ∧ segsLike rest t') ↔ ∃ u, t = u ++ List.last rest [] ∧ midLike (removelast rest) u.
Proof.
  revert t. induction rest as [|s rest IH]; intros t Hne; [done|]. destruct rest as [|s' rest].
  - cbn. split; [intros (g & t' & -> & ->); by exists g|]. intros (u & -> & _). by exists u, s.
  - change (List.last (s :: s' :: rest) []) with (List.last (s' :: rest) []).
    change (removelast (s :: s' :: rest)) with (s :: removelast (s' :: rest)). split.
    + intros (g & t' & -> & g2 & t2 & -> & H).
      destruct (proj1 (IH (g2 ++ t2) ltac:(done))) as (u & Eu & Hu); [by exists g2, t2|].
      exists (g ++ s ++ u). rewrite Eu, <- !app_assoc. split; [done|]. by exists g, u.
    + intros (u & -> & g & u' & -> & Hu).
      destruct (proj2 (IH (u' ++ List.last (s' :: rest) []) ltac:(done))) as (g2 & t2 & E & H2); [by exists u'|].
      exists g, (s ++ g2 ++ t2). rewrite <- !app_assoc, E. split; [done|]. by exists g2, t2.
Qed.

Lemma HasPrefix_spec s p : HasPrefix s p = true ↔ ∃ t, s = p ++ t.
Proof.
  unfold HasPrefix. rewrite bool_decide_eq_true. split.
  - intros E. exists (drop (length p) s). rewrite <- E at 1. by rewrite take_drop.
  - intros [t ->]. by rewrite take_app_length.
Qed.

Lemma HasSuffix_spec s p : HasSuffix s p = true ↔ ∃ u, s = u ++ p.
Proof.
  unfold HasSuffix. rewrite andb_true_iff, Nat.leb_le, bool_decide_eq_true. split.
  - intros [Hl E]. exists (take (length s - length p) s). rewrite <- E at 2. by rewrite take_drop.
  - intros [u ->]. rewrite length_app. split; [lia|]. by rewrite Nat.add_sub, drop_app_length.
Qed.

(** The first occurrence. *)
Lemma Index_spec s m :
  match Index s m with
  | Some i => s = take i s ++ m ++ drop (i + length m) s ∧ ∀ g t, s = g ++ m ++ t → (i ≤ length g)%nat
  | None => ∀ g t, s ≠ g ++ m ++ t
  end.
Proof.
  induction s as [|b s IH]; cbn [Index]; destruct (HasPrefix _ m) eqn:Ep.
  - apply HasPrefix_spec in Ep as [t E]. split; [|intros; lia]. symmetry in E. by apply app_nil in E as [-> ->].
  - intros g t E. assert (HasPrefix [] m = true) as Ht; [|congruence]. apply HasPrefix_spec.
    symmetry in E. apply app_nil in E as [_ [-> ->]%app_nil]. by exists [].
  - apply HasPrefix_spec in Ep as [t ->]. split; [|intros; lia]. cbn. by rewrite drop_app_length.
  - assert (∀ g t, b :: s = g ++ m ++ t → ∃ g', g = b :: g' ∧ s = g' ++ m ++ t) as Hcut.
    { intros [|b' g] t E; [|injection E as <- ->; by exists g].
      assert (HasPrefix (b :: s) m = true); [|congruence]. apply HasPrefix_spec. by exists t. }
    destruct (Index s m) as [i|]; cbn.
    + destruct IH as [E Hmin]. split; [by f_equal|]. intros g t (g' & -> & Es)%Hcut. cbn. specialize (Hmin _ _ Es). lia.
    + intros g t (g' & -> & Es)%Hcut. by apply (IH g' t).
Qed.

Lemma matchMiddle_spec t mids : matchMiddle t mids = true ↔ midLike mids t.
Proof.
  revert t. induction mids as [|m mids IH]; intros t; cbn [matchMiddle midLike]; [done|]. case_bool_decide as Em.
  - subst m. rewrite IH. split; [intros H; by exists [], t|]. intros (g & t' & -> & H). by apply midLike_app.
  - pose proof (Index_spec t m) as Hi. destruct (Index t m) as [i|].
    + destruct Hi as [E Hmin]. rewrite IH. split.
      * intros H. exists (take i t), (drop (i + length m) t). done.
      * intros (g & t' & Et & H). specialize (Hmin g t' Et).
        replace (drop (i + length m) t) with (drop (i + length m) (g ++ m) ++ t'); [by apply midLike_app|].
        rewrite Et, app_assoc. symmetry. apply drop_app_le. rewrite length_app. lia.
    + split; [done|]. intros (g & t' & Et & _). by destruct (Hi g t').
Qed.

Lemma matchSegments_spec t segs : matchSegments t segs = true ↔ segsLike segs t.
Proof.
  destruct segs as [|s [|s' rest]]; [done|cbn; by rewrite bool_decide_eq_true|]. set (r := s' :: rest).
  change (segsLike (s :: r) t) with (∃ g t', t = s ++ g ++ t' ∧ segsLike r t').
  assert (matchSegments t (s :: r) =
    if negb (HasPrefix t s) then false else
    let text := drop (length s) t in
    if (length text <? length (List.last r []))%nat || negb (HasSuffix text (List.last r [])) then false
    else matchMiddle (take (length text - length (List.last r [])) text) (removelast r)) as -> by done.
  cbv zeta. destruct (HasPrefix t s) eqn:Ep; cbn [negb].
  2: { split; [done|]. intros (g & t' & -> & _). assert (HasPrefix (s ++ g ++ t') s = true); [|congruence].
       apply HasPrefix_spec. by eexists. }
  apply HasPrefix_spec in Ep as [t1 ->]. rewrite drop_app_length.
  assert ((∃ g t', s ++ t1 = s ++ g ++ t' ∧ segsLike r t') ↔ ∃ u, t1 = u ++ List.last r [] ∧ midLike (removelast r) u) as ->.
  { rewrite <- (segsLike_middle r t1) by done. split; intros (g & t' & E & H); exists g, t'; (split; [|done]).
    - by apply app_inv_head in E.
    - by rewrite E. }
  destruct (HasSuffix t1 (List.last r [])) eqn:Es.
  - apply HasSuffix_spec in Es as [u ->]. rewrite length_app.
    destruct (Nat.ltb_spec (length u + length (List.last r [])) (length (List.last r []))); [lia|]. cbn [negb orb].
    rewrite Nat.add_sub, take_app_length, matchMiddle_spec. split; [intros H'; by exists u|].
    intros (u' & E & H'). by apply app_inv_tail in E as ->.
  - rewrite orb_true_r. split; [done|]. intros (u & -> & _).
    assert (HasSuffix (u ++ List.last r []) (List.last r []) = true); [|congruence]. apply HasSuffix_spec. by exists u.
Qed.

(** ** The cache is transparent *)

Section Cache.
Context (tooLarge : list reItem → bool).

Record cacheInv (c : likePatternCache) : Prop := {
  ca_entries p cp : entries c !! p = Some cp ↔ (p, cp) ∈ order_ c;
  ca_keys : NoDup (order_ c).*1;
  ca_size : (length (order_ c) ≤ capacity c)%nat;
  ca_compiled p cp : (p, cp) ∈ order_ c → compilePattern tooLarge p = Ok cp }.

Lemma MoveToFront_perm p l : MoveToFront p l ≡ₚ l.
Proof.
  unfold MoveToFront. induction l as [|x l IH]; [done|]. rewrite !filter_cons. destruct (decide (x.1 = p)).
  - rewrite decide_False by auto. cbn. by rewrite IH.
  - rewrite decide_True by auto. rewrite <- Permutation_middle. by rewrite IH.
Qed.

Lemma cacheInv_move c p :
  cacheInv c → cacheInv (mkCache (capacity c) (entries c) (MoveToFront p (order_ c))).
Proof.
  intros [He Hk Hs Hc]. split; cbn [entries order_ capacity].
  - intros q cp. by rewrite MoveToFront_perm.
  - by rewrite MoveToFront_perm.
  - by rewrite MoveToFront_perm.
  - intros q cp. rewrite MoveToFront_perm. apply Hc.
Qed.

(** A new element at the front. *)
Lemma cacheInv_push c p cp :
  cacheInv c → entries c !! p = None → compilePattern tooLarge p = Ok cp →
  cacheInv (mkCache (S (capacity c)) (<[p := cp]> (entries c)) ((p, cp) :: order_ c)).
Proof.
  intros [He Hk Hs Hc] Hp Hcp. assert (p ∉ (order_ c).*1) as Hnin.
  { intros ([q x] & -> & Hin)%list_elem_of_fmap. apply He in Hin. cbn in Hp. congruence. }
  split; cbn [entries order_ capacity].
  - intros q x. rewrite elem_of_cons, lookup_insert_Some. split.
    + intros [[-> ->]|[_ Hq]]; [by left|right; by apply He].
    + intros [[= -> ->]|Hin]; [by left|right]. split; [|by apply He]. intros ->. apply Hnin, list_elem_of_fmap. by exists (q, x).
  - cbn. by apply NoDup_cons.
  - cbn. lia.
  - intros q x [[= -> ->]|Hin]%elem_of_cons; [done|by apply Hc].
Qed.

(** Dropping the last element. *)
Lemma cacheInv_evict c l x :
  cacheInv c → order_ c = l ++ [x] → cacheInv (mkCache (pred (capacity c)) (delete x.1 (entries c)) l).
Proof.
  intros [He Hk Hs Hc] El. rewrite El in *. rewrite fmap_app in Hk. apply NoDup_app in Hk as (Hkl & Hd & _).
  rewrite length_app in Hs. cbn in Hs. destruct x as [px cx]. split; cbn [entries order_ capacity].
  - intros q y. rewrite lookup_delete_Some, He, elem_of_app, list_elem_of_singleton. split.
    + intros [Hne [?|[= -> ->]]]; done.
    + intros Hin. split; [|by left]. cbn. intros <-. apply (Hd px); [apply list_elem_of_fmap; by exists (px, y)|by left].
  - done.
  - lia.
  - intros q y Hin. apply Hc, elem_of_app. by left.
Qed.

Lemma cacheStep_inv c d : cacheStep tooLarge c d → cacheInv c → cacheInv d ∧ capacity d = capacity c.
Proof.
  intros [c' p|c' p cp Hcp] Hinv.
  - unfold lookupCache. destruct (entries c' !! p); [split; [by apply cacheInv_move|done]|done].
  - unfold insertCache. destruct (entries c' !! p) as [x|] eqn:Ep; [split; [by apply cacheInv_move|done]|].
    pose proof (cacheInv_push c' p cp Hinv Ep Hcp) as Hpush.
    destruct (Nat.ltb_spec (capacity c') (length ((p, cp) :: order_ c'))) as [Hlt|Hge].
    + destruct (last ((p, cp) :: order_ c')) as [x|] eqn:El; [|by apply last_None in El].
      apply last_Some in El as [l El]. cbn [fst]. split; [|done].
      rewrite El, removelast_last. by apply (cacheInv_evict _ l x) in Hpush.
    + split; [|done]. destruct Hpush as [He Hk Hs Hc]. split; try done.
Qed.

Lemma cacheRun_inv cap c :
  rtc (cacheStep tooLarge) (newLikePatternCache cap) c → cacheInv c ∧ capacity c = cap.
Proof.
  intros Hr. assert (cacheInv (newLikePatternCache cap) ∧ capacity (newLikePatternCache cap) = cap) as H0.
  { split; [|done]. split; cbn; [|constructor|lia|by intros ? ? ?%elem_of_nil].
    intros p cp. rewrite lookup_empty. split; [done|by intros ?%elem_of_nil]. }
  revert Hr H0. generalize (newLikePatternCache cap). intros c0 Hr H0.
  induction Hr as [|c1 c2 c3 Hs _ IH]; [done|]. apply IH. destruct H0 as [Hi <-]. by apply cacheStep_inv.
Qed.

(** Whatever the cache holds, the answer is the compiled pattern. *)
Lemma getOrCompile_spec p c d :
  cacheInv c → cacheInv d → getOrCompile tooLarge p c d = compilePattern tooLarge p.
Proof.
  intros Hc Hd. unfold getOrCompile, lookupCache. destruct (entries c !! p) as [cp|] eqn:Ec; cbn.
  { apply (ca_entries _ Hc) in Ec. by rewrite (ca_compiled _ Hc _ _ Ec). }
  destruct (compilePattern tooLarge p) as [cp| |] eqn:Ecp; [|done..]. cbn [mbind outcome_bind]. unfold insertCache.
  destruct (entries d !! p) as [x|] eqn:Ed.
  - cbn. apply (ca_entries _ Hd) in Ed. rewrite (ca_compiled _ Hd _ _ Ed) in Ecp. congruence.
  - cbv zeta. destruct (capacity d <? length ((p, cp) :: order_ d))%nat; [|done]. by destruct (last ((p, cp) :: order_ d)).
Qed.
End Cache.

(** ** Properties *)

(** C32: LIKE matches as SQL says, whatever goroutines have done to the pattern
    cache before and between the critical sections of the call: ['%'] stands
    for any sequence and ['_'] for one rune.  A pattern without ['_'] is
    matched byte by byte and never fails; the cache never holds more patterns
    than its capacity. *)
Theorem EvalLike_matches tooLarge ValueToString cap c d text pattern :
  rtc (cacheStep tooLarge) (newLikePatternCache cap) c → rtc (cacheStep tooLarge) c d →
  (length (order_ d) ≤ cap)%nat ∧
  match EvalLike tooLarge ValueToString (IString text) (IString pattern) c d with
  | Ok b =>
      b = true ↔ if bool_decide (underscore ∈ pattern) then likes 0x25 0x5F (runes pattern) (runes text)
                 else likes percent underscore pattern text
  | Err _ => underscore ∈ pattern ∧ tooLarge (itemOf <$> runes pattern) = true
  | Panic => False
  end.
Proof.
  intros Hc Hd. destruct (cacheRun_inv tooLarge cap c Hc) as [Ic _].
  destruct (cacheRun_inv tooLarge cap d) as [Id <-]; [by etrans|]. split; [apply Id|].
  unfold EvalLike. cbn [isNil orb]. rewrite getOrCompile_spec by done. unfold compilePattern.
  case_bool_decide as Hu; cbn [negb].
  - destruct (tooLarge _) eqn:Et; [done|]. cbn. apply reMatch_likes.
  - cbn. by rewrite matchSegments_spec, Split_likes.
Qed.

(** ['h_llo%'] and ['%ell%o'] on ['hello'], with another pattern in the cache. *)
Definition sampleCache : likePatternCache := (insertCache [percent] (Simple [[]; []]) (newLikePatternCache 1)).1.

Lemma EvalLike_matches_witness :
  EvalLike (λ _, false) (λ _, []) (IString (String.list_byte_of_string "hello"))
    (IString (String.list_byte_of_string "%ell%o")) sampleCache sampleCache = Ok true ∧
  likes percent underscore (String.list_byte_of_string "%ell%o") (String.list_byte_of_string "hello").
Proof.
  assert (EvalLike (λ _, false) (λ _, []) (IString (String.list_byte_of_string "hello"))
    (IString (String.list_byte_of_string "%ell%o")) sampleCache sampleCache = Ok true) as E by (vm_compute; reflexivity).
  split; [exact E|].
  pose proof (EvalLike_matches (λ _, false) (λ _, []) 1 sampleCache sampleCache
    (String.list_byte_of_string "hello") (String.list_byte_of_string "%ell%o")
    (rtc_once _ _ (C_insert (λ _, false) (newLikePatternCache 1) [percent] (Simple [[]; []]) ltac:(vm_compute; reflexivity)))
    (rtc_refl _ _)) as [_ H].
  rewrite E in H. rewrite bool_decide_eq_false_2 in H; [by apply H|].
  apply (bool_decide_unpack _). vm_compute. exact I.
Defined.

Example EvalLike_rune :
  EvalLike (λ _, false) (λ _, []) (IString [Byte.x68; Byte.xc3; Byte.xa9; Byte.x6c]) (IString (String.list_byte_of_string "h_l"))
    sampleCache sampleCache = Ok true.
Proof. vm_compute. reflexivity. Qed.
