(* ===== verification/BufferPool.v ===== *)
(** * The buffer pool

    [server/internal/core/storage/buffer_pool.go]: a fixed array of page
    buffers with a map from page ids, a stack of free slots and a clock hand.
    Pages are written back on eviction and by the flushes.  The heap files are
    the map [disk] from page ids to pages; [HeapFile.ReadPage],
    [HeapFile.WritePage] and [WAL.Flush] may fail, and a failed write may leave
    anything on disk. *)

From stdpp Require Import relations.
From S2P Require Import Prelude Bytes Locks.
Import PageLocks.

#[export] Instance PageID_eq_dec : EqDecision PageID.
Proof. solve_decision. Defined.

#[export] Instance PageID_countable : Countable PageID.
Proof.
  apply (inj_countable' (λ p, (TableID p, SegmentNo p, PageNo p)) (λ x, mkPageID x.1.1 x.1.2 x.2)). by intros [].
Defined.

(** ** State *)

Record bufferEntry : Type := mkEntry {
  pid : PageID; page : bytes; hf : bool; pinCnt : nat; usageCount : Z;
  imageWritten : bool; db : bytes; table : bytes; dirty : bool; lastModifiedLSN : Z }.

(** What the outside sees, in order. *)
Inductive event : Type := EvFlush | EvWrite (p : PageID) | EvImage (p : PageID).

Record BufferPool : Type := mkPool {
  capacity : nat; cache : gmap PageID nat; buffers : list (option bufferEntry); freeSlots : list nat;
  clockHand : nat; count : nat; wal : bool;
  disk : gmap PageID bytes; events : list event }.

(** The outcomes of the calls outside: whether a read and a flush succeed, and
    what a failed write leaves on disk. *)
Record io : Type := mkIo { io_read : bool; io_flush : bool; io_write : PageID → option bytes }.

Inductive pool_error : Type :=
| ErrRead | ErrWritePage | ErrWalFlush | ErrAllPinned | ErrNoSlot | ErrPageNotDirty | ErrPagePinned.

Abbreviation PoolM := (M BufferPool pool_error).

Definition maxUsageCount : Z := 5.
Definition defaultBufferPoolCapacity : Z := 16384.

Definition NewBufferPool (cap : Z) (w : bool) (d : gmap PageID bytes) : BufferPool :=
  let cap := Z.to_nat (if cap <=? 0 then defaultBufferPoolCapacity else cap) in
  mkPool cap ∅ (replicate cap None) ((λ i, cap - 1 - i)%nat <$> seq 0 cap) 0 0 w d [].

Definition withBuffers (b : list (option bufferEntry)) (p : BufferPool) : BufferPool :=
  mkPool (capacity p) (cache p) b (freeSlots p) (clockHand p) (count p) (wal p) (disk p) (events p).

Definition emit (e : event) (p : BufferPool) : BufferPool :=
  mkPool (capacity p) (cache p) (buffers p) (freeSlots p) (clockHand p) (count p) (wal p) (disk p) (events p ++ [e]).

(** [buffers[i] = e]. *)
Definition setBuffer (i : nat) (e : bufferEntry) (p : BufferPool) : BufferPool :=
  withBuffers (<[i := Some e]> (buffers p)) p.

Definition Reference (e : bufferEntry) : bufferEntry :=
  mkEntry (pid e) (page e) (hf e) (pinCnt e)
    (if usageCount e <? maxUsageCount then usageCount e + 1 else usageCount e)
    (imageWritten e) (db e) (table e) (dirty e) (lastModifiedLSN e).

Definition withPin (n : nat) (e : bufferEntry) : bufferEntry :=
  mkEntry (pid e) (page e) (hf e) n (usageCount e) (imageWritten e) (db e) (table e) (dirty e) (lastModifiedLSN e).
Definition withUsage (u : Z) (e : bufferEntry) : bufferEntry :=
  mkEntry (pid e) (page e) (hf e) (pinCnt e) u (imageWritten e) (db e) (table e) (dirty e) (lastModifiedLSN e).
Definition withImage (b : bool) (e : bufferEntry) : bufferEntry :=
  mkEntry (pid e) (page e) (hf e) (pinCnt e) (usageCount e) b (db e) (table e) (dirty e) (lastModifiedLSN e).
Definition withDirty (b : bool) (lsn : Z) (e : bufferEntry) : bufferEntry :=
  mkEntry (pid e) (page e) (hf e) (pinCnt e) (usageCount e) (imageWritten e) (db e) (table e) b lsn.
Definition withPage (d : bytes) (e : bufferEntry) : bufferEntry :=
  mkEntry (pid e) d (hf e) (pinCnt e) (usageCount e) (imageWritten e) (db e) (table e) (dirty e) (lastModifiedLSN e).

(** [WAL.Flush()]. *)
Definition walFlush (o : io) : PoolM unit := λ p,
  if io_flush o then (emit EvFlush p, Ok tt) else (p, Err ErrWalFlush).

(** [hf.WritePage(pid, page)]. *)
Definition WritePage (o : io) (x : PageID) (d : bytes) : PoolM unit := λ p,
  let write d := mkPool (capacity p) (cache p) (buffers p) (freeSlots p) (clockHand p) (count p) (wal p)
                   (<[x := d]> (disk p)) (events p ++ [EvWrite x]) in
  match io_write o x with
  | None => (write d, Ok tt)
  | Some garbage => (write garbage, Err ErrWritePage)
  end.

(** The entry in slot [i]; an index out of range panics. *)
Definition bufferAt (i : nat) : PoolM (option bufferEntry) := λ p, (p, must (buffers p !! i)).

(** The entry a map index leads to; using [nil] as an entry panics. *)
Definition entryAt (i : nat) : PoolM bufferEntry := λ p,
  match buffers p !! i with Some (Some e) => (p, Ok e) | _ => (p, Panic) end.

(** Dropping the page in slot [i]. *)
Definition release (i : nat) (x : PageID) (p : BufferPool) : BufferPool :=
  mkPool (capacity p) (delete x (cache p)) (<[i := None]> (buffers p)) (freeSlots p ++ [i])
    (clockHand p) (pred (count p)) (wal p) (disk p) (events p).

(** ** Eviction *)

(** The loop of [evict] with [attempts] left; [flushed] is [walFlushed] and
    [failed] says that [walErr] is set. *)
Fixpoint evictLoop (o : io) (attempts : nat) (flushed failed : bool) : PoolM unit :=
  match attempts with
  | O => if failed then throw ErrWalFlush else throw ErrAllPinned
  | S attempts =>
      idx ← gets clockHand;
      modify (λ p, mkPool (capacity p) (cache p) (buffers p) (freeSlots p)
                     ((clockHand p + 1) mod capacity p) (count p) (wal p) (disk p) (events p));;
      buf ← bufferAt idx;
      match buf with
      | None => mret tt
      | Some buf =>
          if (0 <? pinCnt buf)%nat then evictLoop o attempts flushed failed
          else if 0 <? usageCount buf then
            modify (setBuffer idx (withUsage (usageCount buf - 1) buf));;
            evictLoop o attempts flushed failed
          else
            w ← gets wal;
            let finish := modify (release idx (pid buf)) in
            let write :=
              WritePage o (pid buf) (page buf);;
              modify (setBuffer idx (withDirty false 0 buf));;
              finish in
            if dirty buf && hf buf then
              if (w : bool) then
                if negb flushed && negb failed then
                  if io_flush o then walFlush o;; write
                  else evictLoop o attempts flushed true
                else if failed then evictLoop o attempts flushed failed
                else write
              else write
            else finish
      end
  end.

Definition evict (o : io) : PoolM unit := λ p, evictLoop o (capacity p * 2) false false p.

(** [for bp.count >= bp.capacity { evict }]; out of fuel is no result. *)
Fixpoint evictWhileFull (o : io) (fuel : nat) : PoolM unit :=
  match fuel with
  | O => λ p, (p, Panic)
  | S fuel =>
      full ← gets (λ p, capacity p <=? count p)%nat;
      if (full : bool) then evict o;; evictWhileFull o fuel else mret tt
  end.

(** The first empty slot from [i] on. *)
Fixpoint firstEmpty (i : nat) (b : list (option bufferEntry)) : option nat :=
  match b with
  | [] => None
  | None :: _ => Some i
  | Some _ :: b => firstEmpty (S i) b
  end.

Definition findEmptySlot : PoolM nat := λ p,
  match last (freeSlots p) with
  | Some idx =>
      (mkPool (capacity p) (cache p) (buffers p) (removelast (freeSlots p)) (clockHand p) (count p) (wal p)
         (disk p) (events p), Ok idx)
  | None => match firstEmpty 0 (buffers p) with Some i => (p, Ok i) | None => (p, Err ErrNoSlot) end
  end.

(** [buffers[idx] = entry; cache[pid] = idx; count++]. *)
Definition insertEntry (idx : nat) (e : bufferEntry) : PoolM unit :=
  update (λ p,
    if (idx <? length (buffers p))%nat then
      Some (mkPool (capacity p) (<[pid e := idx]> (cache p)) (<[idx := Some e]> (buffers p)) (freeSlots p)
              (clockHand p) (S (count p)) (wal p) (disk p) (events p))
    else None).

(** Making room for a page and adding it; [fuel] bounds the evictions. *)
Definition addEntry (o : io) (e : bufferEntry) : PoolM unit := λ p,
  (evictWhileFull o (2 + count p);;
   idx ← findEmptySlot;
   insertEntry idx e) p.

(** ** Operations *)

Definition ReadPage (o : io) (x : PageID) : PoolM bytes := λ p,
  match disk p !! x with
  | Some d => if io_read o then (p, Ok d) else (p, Err ErrRead)
  | None => (p, Err ErrRead)
  end.

(** The page that is returned is shared with the entry. *)
Definition FetchPage (o : io) (x : PageID) (dbName tableName : bytes) : PoolM bytes :=
  c ← gets cache;
  match (c : gmap PageID nat) !! x with
  | Some idx =>
      entry ← entryAt idx;
      modify (setBuffer idx (Reference (withPin (S (pinCnt entry)) entry)));;
      mret (page entry)
  | None =>
      pg ← ReadPage o x;
      addEntry o (mkEntry x pg true 1 1 false dbName tableName false 0);;
      mret pg
  end.

(** The code logs an error of the eviction and returns nothing: the error here is
    that log entry, the caller does not learn that the page is not cached. *)
Definition CachePage (o : io) (x : PageID) (pg : bytes) (dbName tableName : bytes) : PoolM unit :=
  c ← gets cache;
  match (c : gmap PageID nat) !! x with
  | Some _ => mret tt
  | None => addEntry o (mkEntry x pg true 1 1 false dbName tableName true 0)
  end.

(** The write of the image to the log is not checked. *)
Definition WritePreImage (x : PageID) : PoolM unit :=
  c ← gets cache;
  w ← gets wal;
  match (c : gmap PageID nat) !! x with
  | Some idx =>
      if (w : bool) then
        entry ← entryAt idx;
        if imageWritten entry then mret tt
        else modify (setBuffer idx (withImage true entry));; modify (emit (EvImage x))
      else mret tt
  | None => mret tt
  end.

Definition UnpinPage (x : PageID) (d : bool) : PoolM unit :=
  c ← gets cache;
  match (c : gmap PageID nat) !! x with
  | None => mret tt
  | Some idx =>
      entry ← entryAt idx;
      let entry := withPin (pred (pinCnt entry)) entry in
      modify (setBuffer idx (if d then withDirty true (lastModifiedLSN entry) entry else entry))
  end.

Definition UnpinPageDirty (x : PageID) (lsn : Z) : PoolM unit :=
  c ← gets cache;
  match (c : gmap PageID nat) !! x with
  | None => mret tt
  | Some idx =>
      entry ← entryAt idx;
      modify (setBuffer idx (withDirty true lsn (withPin (pred (pinCnt entry)) entry)))
  end.

Definition InvalidatePage (x : PageID) : PoolM unit :=
  c ← gets cache;
  match (c : gmap PageID nat) !! x with
  | None => mret tt
  | Some idx =>
      entry ← entryAt idx;
      if (0 <? pinCnt entry)%nat then mret tt else modify (release idx x)
  end.

(** The loops over all slots: [f] on each entry from [i] on. *)
Fixpoint forSlots (n i : nat) (f : nat → bufferEntry → PoolM unit) : PoolM unit :=
  match n with
  | O => mret tt
  | S n =>
      entry ← bufferAt i;
      match entry with Some e => f i e | None => mret tt end;;
      forSlots n (S i) f
  end.

Definition forAll (f : nat → bufferEntry → PoolM unit) : PoolM unit := λ p, forSlots (capacity p) 0 f p.

Definition flushEntry (o : io) (i : nat) (e : bufferEntry) : PoolM unit :=
  WritePage o (pid e) (page e);;
  modify (setBuffer i (withImage false (withDirty false 0 e))).

Definition flushWal (o : io) : PoolM unit :=
  w ← gets wal; if (w : bool) then walFlush o else mret tt.

Definition FlushAll (o : io) : PoolM unit :=
  flushWal o;;
  forAll (λ i e, if dirty e && hf e then flushEntry o i e else mret tt).

Definition FlushDirtyPagesUpToLSN (o : io) (maxLSN : Z) : PoolM unit :=
  flushWal o;;
  forAll (λ i e, if dirty e && (lastModifiedLSN e <=? maxLSN) && hf e then flushEntry o i e else mret tt).

Definition InvalidateTable (tableID : Z) : PoolM unit :=
  forAll (λ i e, if (TableID (pid e) =? tableID) && (pinCnt e =? 0)%nat then modify (release i (pid e)) else mret tt).

Definition InvalidateTableForce (tableID : Z) : PoolM unit :=
  forAll (λ i e, if TableID (pid e) =? tableID then modify (release i (pid e)) else mret tt).

Definition FlushPage (o : io) (x : PageID) : PoolM unit :=
  c ← gets cache;
  match (c : gmap PageID nat) !! x with
  | None => throw ErrPageNotDirty
  | Some idx =>
      entry ← bufferAt idx;
      match entry with
      | None => throw ErrPageNotDirty
      | Some entry =>
          if negb (dirty entry) then throw ErrPageNotDirty
          else if (0 <? pinCnt entry)%nat then throw ErrPagePinned
          else
            (if hf entry then flushWal o;; WritePage o x (page entry) else mret tt);;
            modify (setBuffer idx (withImage false (withDirty false 0 entry)))
      end
  end.

(** One round of [PrefetchPages]: the read is done without the lock, so that
    [pg] is what the disk held at some earlier time. *)
Definition PrefetchInsert (o : io) (x : PageID) (pg : bytes) : PoolM unit :=
  c ← gets cache;
  match (c : gmap PageID nat) !! x with
  | Some _ => mret tt
  | None => addEntry o (mkEntry x pg true 0 1 false [] [] false 0)
  end.

(** A user of a page it has pinned changes it. *)
Definition ModifyPage (x : PageID) (d : bytes) : PoolM unit :=
  c ← gets cache;
  match (c : gmap PageID nat) !! x with
  | None => mret tt
  | Some idx => entry ← entryAt idx; modify (setBuffer idx (withPage d entry))
  end.

(** Up to [batchSize] pages to flush. *)
Fixpoint collect (b : list (option bufferEntry)) (n : nat) : list PageID :=
  match b with
  | [] => []
  | Some e :: b =>
      if dirty e && (pinCnt e =? 0)%nat then pid e :: match n with S (S _ as n) => collect b n | _ => [] end
      else collect b n
  | None :: b => collect b n
  end.

Definition CollectDirtyPages (batchSize : nat) : PoolM (list PageID) := gets (λ p, collect (buffers p) batchSize).

(** ** Invariants *)

Definition entryOf (p : BufferPool) (x : PageID) : option bufferEntry :=
  match cache p !! x with
  | Some i => match buffers p !! i with Some (Some e) => Some e | _ => None end
  | None => None
  end.

(** The page as a user of the pool sees it. *)
Definition view (p : BufferPool) (x : PageID) : option bytes :=
  match entryOf p x with Some e => Some (page e) | None => disk p !! x end.

(** Map, array, free slots and count describe the same set of pages. *)
Record poolInv (p : BufferPool) : Prop := {
  pi_length : length (buffers p) = capacity p;
  pi_hand : (clockHand p < capacity p)%nat;
  pi_cache x i : cache p !! x = Some i ↔ ∃ e, buffers p !! i = Some (Some e) ∧ pid e = x;
  pi_free i : i ∈ freeSlots p ↔ buffers p !! i = Some None;
  pi_nodup : NoDup (freeSlots p);
  pi_count : (count p + length (freeSlots p))%nat = capacity p }.

(** A clean page nobody is changing is the page on disk; [mods] are the pages
    changed by a user that has not released them yet, which are pinned. *)
Record coherent (mods : gset PageID) (p : BufferPool) : Prop := {
  co_entry x e : entryOf p x = Some e →
    hf e = true ∧ (dirty e = false → x ∉ mods → disk p !! x = Some (page e));
  co_mods x : x ∈ mods → ∃ e, entryOf p x = Some e ∧ (0 < pinCnt e)%nat }.

(** Every page write follows a flush of the log. *)
Definition walFirst (w : bool) (evs : list event) : Prop :=
  w = true → ∀ l1 x l2, evs = l1 ++ EvWrite x :: l2 → EvFlush ∈ l1.

(** What goes on behind the users' backs, with the events it causes: no page
    changes and pinned pages stay with their pins. *)
Definition quietly (evs : list event) (p p' : BufferPool) : Prop :=
  capacity p' = capacity p ∧ wal p' = wal p ∧ (∀ x, view p' x = view p x) ∧
  (∀ x e, entryOf p x = Some e → (0 < pinCnt e)%nat → ∃ e', entryOf p' x = Some e' ∧ pinCnt e' = pinCnt e) ∧
  (∀ x, entryOf p x = None → entryOf p' x = None) ∧
  events p' = events p ++ evs.

Definition quiet (p p' : BufferPool) : Prop := ∃ evs, quietly evs p p' ∧ walFirst (wal p) evs.

Lemma walFirst_nil w : walFirst w [].
Proof. intros _ [|] ? ?; done. Qed.

Lemma walFirst_app w l l' : walFirst w l → walFirst w l' → walFirst w (l ++ l').
Proof.
  intros H H' Hw l1 x l2 E. apply app_eq_inv in E as [(k & -> & E)|(k & -> & E)].
  - destruct k as [|y k]; cbn in E.
    + symmetry in E. pose proof (H' Hw [] x l2 E) as Hin. by apply elem_of_nil in Hin.
    + injection E as <- ->. by apply (H Hw l1 x k).
  - apply elem_of_app. right. by apply (H' Hw k x l2).
Qed.

Lemma quietly_refl p : quietly [] p p.
Proof. split_and!; try done; [by intros x e; exists e|]. by rewrite app_nil_r. Qed.

Lemma quietly_trans e1 e2 p q r : quietly e1 p q → quietly e2 q r → quietly (e1 ++ e2) p r.
Proof.
  intros (C1 & W1 & V1 & P1 & N1 & E1) (C2 & W2 & V2 & P2 & N2 & E2). split_and!.
  - congruence.
  - congruence.
  - intros x. by rewrite V2.
  - intros x e He Hp. destruct (P1 x e He Hp) as (e' & He' & Hp'). destruct (P2 x e' He') as (e'' & ? & ?); [lia|].
    exists e''. split; [done|lia].
  - auto.
  - by rewrite E2, E1, app_assoc.
Qed.

Lemma quiet_refl p : quiet p p.
Proof. exists []. split; [apply quietly_refl|apply walFirst_nil]. Qed.

Lemma quiet_trans p q r : quiet p q → quiet q r → quiet p r.
Proof.
  intros (e1 & Q1 & F1) (e2 & Q2 & F2). exists (e1 ++ e2). split; [by eapply quietly_trans|].
  apply walFirst_app; [done|]. destruct Q1 as (_ & W & _). by rewrite <- W.
Qed.

(** ** Slots and entries *)

Lemma entryOf_slot p i e : poolInv p → buffers p !! i = Some (Some e) → cache p !! pid e = Some i ∧ entryOf p (pid e) = Some e.
Proof.
  intros Hi He. assert (cache p !! pid e = Some i) as Hc by (apply (pi_cache _ Hi); by exists e).
  split; [done|]. unfold entryOf. by rewrite Hc, He.
Qed.

Lemma entryOf_Some p x e :
  poolInv p → entryOf p x = Some e → ∃ i, cache p !! x = Some i ∧ buffers p !! i = Some (Some e) ∧ pid e = x.
Proof.
  intros Hi. unfold entryOf. destruct (cache p !! x) as [i|] eqn:Hc; [|done].
  destruct (proj1 (pi_cache _ Hi x i) Hc) as (e' & He' & Hx). rewrite He'. intros [= <-]. by exists i.
Qed.

(** The pid of an entry tells its slot. *)
Lemma slot_unique p i j e e' :
  poolInv p → buffers p !! i = Some (Some e) → buffers p !! j = Some (Some e') → pid e = pid e' → i = j.
Proof.
  intros Hi He He' Hp. destruct (entryOf_slot p i e Hi He) as [H1 _]. destruct (entryOf_slot p j e' Hi He') as [H2 _]. congruence.
Qed.

Lemma entryOf_ext p q x : cache q = cache p → buffers q = buffers p → entryOf q x = entryOf p x.
Proof. unfold entryOf. by intros -> ->. Qed.

Lemma poolInv_ext p q :
  capacity q = capacity p → cache q = cache p → buffers q = buffers p → freeSlots q = freeSlots p →
  count q = count p → (clockHand q < capacity q)%nat → poolInv p → poolInv q.
Proof.
  intros Ec Eca Eb Ef En Hh [H1 H2 H3 H4 H5 H6]. split; rewrite ?Ec, ?Eca, ?Eb, ?Ef, ?En in *; try done.
Qed.

Lemma setBuffer_inv p i e e' :
  poolInv p → buffers p !! i = Some (Some e) → pid e' = pid e → poolInv (setBuffer i e' p).
Proof.
  intros Hi He Hp. pose proof (lookup_lt_Some _ _ _ He) as Hlt. destruct Hi as [H1 H2 H3 H4 H5 H6].
  split; cbn; try done.
  - by rewrite length_insert.
  - intros x j. rewrite H3. destruct (decide (i = j)) as [->|Hne].
    + rewrite list_lookup_insert_eq by done. split; intros (e0 & E & <-); simplify_eq.
      * by exists e'.
      * by exists e.
    + by rewrite list_lookup_insert_ne.
  - intros j. rewrite H4. destruct (decide (i = j)) as [->|Hne]; [|by rewrite list_lookup_insert_ne].
    rewrite list_lookup_insert_eq by done. split; congruence.
Qed.

Lemma setBuffer_entryOf p i e e' x :
  poolInv p → buffers p !! i = Some (Some e) → pid e' = pid e →
  entryOf (setBuffer i e' p) x = if bool_decide (x = pid e) then Some e' else entryOf p x.
Proof.
  intros Hi He Hp. pose proof (lookup_lt_Some _ _ _ He) as Hlt. unfold entryOf. cbn.
  case_bool_decide as Hx.
  - subst x. destruct (entryOf_slot p i e Hi He) as [-> _]. by rewrite list_lookup_insert_eq.
  - destruct (cache p !! x) as [j|] eqn:Hc; [|done]. apply (pi_cache _ Hi) in Hc as (e0 & He0 & <-).
    rewrite list_lookup_insert_ne; [done|]. intros ->. congruence.
Qed.

Lemma release_inv p i e : poolInv p → buffers p !! i = Some (Some e) → poolInv (release i (pid e) p).
Proof.
  intros Hi He. pose proof (lookup_lt_Some _ _ _ He) as Hlt. pose proof (entryOf_slot p i e Hi He) as [Hc _].
  pose proof Hi as [H1 H2 H3 H4 H5 H6].
  assert (i ∉ freeSlots p) as Hnf by (rewrite H4; congruence). 
  assert (length (freeSlots p) < capacity p)%nat as Hcount.
  { assert (i :: freeSlots p ⊆+ seq 0 (length (buffers p))) as Hsub%submseteq_length.
    { apply NoDup_submseteq; [by apply NoDup_cons|]. intros j [->|Hj]%elem_of_cons; apply elem_of_seq; [lia|].
      apply H4, lookup_lt_Some in Hj. lia. }
    rewrite length_seq in Hsub. cbn in Hsub. lia. }
  split; cbn.
  - by rewrite length_insert.
  - done.
  - intros x j. rewrite lookup_delete_Some, H3. split.
    + intros (Hne & e0 & He0 & <-). exists e0. rewrite list_lookup_insert_ne; [done|]. intros ->. congruence.
    + intros (e0 & He0 & <-). destruct (decide (i = j)) as [->|Hij]; [by rewrite list_lookup_insert_eq in He0|].
      rewrite list_lookup_insert_ne in He0 by done. split; [|by exists e0]. intros E. by destruct (slot_unique p i j e e0 Hi He He0 E).
  - intros j. rewrite elem_of_app, list_elem_of_singleton, H4. destruct (decide (i = j)) as [->|Hne].
    + rewrite list_lookup_insert_eq by done. split; [done|by right].
    + rewrite list_lookup_insert_ne by done. split; [by intros [?| ->]|by left].
  - apply NoDup_app. split_and!; [done| |apply NoDup_singleton]. intros j Hj ->%list_elem_of_singleton. done.
  - rewrite length_app. cbn. lia.
Qed.

Lemma release_entryOf p i e x :
  poolInv p → buffers p !! i = Some (Some e) →
  entryOf (release i (pid e) p) x = if bool_decide (x = pid e) then None else entryOf p x.
Proof.
  intros Hi He. unfold entryOf. cbn. case_bool_decide as Hx; [subst x; by rewrite lookup_delete_eq|].
  rewrite lookup_delete_ne by congruence. destruct (cache p !! x) as [j|] eqn:Hc; [|done].
  apply (pi_cache _ Hi) in Hc as (e0 & He0 & <-). rewrite list_lookup_insert_ne; [done|]. intros ->. congruence.
Qed.

(** ** Small steps *)

Section Steps.
Context (mods : gset PageID).

(** A state the pool may be in after [evs]. *)
Definition after (evs : list event) (p p' : BufferPool) : Prop :=
  poolInv p' ∧ coherent mods p' ∧ quietly evs p p'.

Lemma after_refl p : poolInv p → coherent mods p → after [] p p.
Proof. intros. split_and!; [done|done|apply quietly_refl]. Qed.

Lemma after_trans e1 e2 p q r : after e1 p q → after e2 q r → after (e1 ++ e2) p r.
Proof. intros (_ & _ & Q1) (I & C & Q2). split_and!; [done|done|by eapply quietly_trans]. Qed.

(** Fields no page depends on. *)
Lemma after_ext evs p q :
  poolInv p → coherent mods p →
  capacity q = capacity p → cache q = cache p → buffers q = buffers p → freeSlots q = freeSlots p →
  count q = count p → (clockHand q < capacity q)%nat → wal q = wal p → disk q = disk p → events q = events p ++ evs →
  after evs p q.
Proof.
  intros Hi Hc E1 E2 E3 E4 E5 Hh E6 E7 E8. assert (∀ x, entryOf q x = entryOf p x) as He by (intros; by apply entryOf_ext).
  split_and!.
  - by apply (poolInv_ext p).
  - destruct Hc as [C1 C2]. split; [intros x e|intros x]; rewrite He, ?E7; auto.
  - split_and!; try done; unfold view; intros x.
    + by rewrite He, E7.
    + intros e He'. exists e. by rewrite He.
    + by rewrite He.
Qed.

Lemma after_setBuffer p i e e' :
  poolInv p → coherent mods p → buffers p !! i = Some (Some e) →
  pid e' = pid e → page e' = page e → hf e' = hf e → pinCnt e' = pinCnt e →
  (dirty e' = false → dirty e = false ∨ disk p !! pid e = Some (page e)) →
  after [] p (setBuffer i e' p).
Proof.
  intros Hi [C1 C2] He E1 E2 E3 E4 Hd. pose proof (proj2 (entryOf_slot p i e Hi He)) as Hent.
  assert (∀ x, entryOf (setBuffer i e' p) x = if bool_decide (x = pid e) then Some e' else entryOf p x) as Hx
    by (intros; by apply setBuffer_entryOf).
  split_and!; [by apply (setBuffer_inv p i e e')| |].
  - split.
    + intros x e0. rewrite Hx. case_bool_decide as Hxe; [|apply C1]. intros [= <-]. subst x.
      destruct (C1 _ _ Hent) as [H1 H2]. split; [congruence|]. intros Hd' Hm. cbn. rewrite E2.
      destruct (Hd Hd') as [?|?]; [by apply H2|done].
    + intros x Hm. destruct (C2 x Hm) as (e0 & He0 & Hp). rewrite Hx. case_bool_decide; [|by exists e0].
      subst x. rewrite Hent in He0. injection He0 as <-. exists e'. split; [done|lia].
  - split_and!; try done.
    + intros x. unfold view. rewrite Hx. case_bool_decide; [|done]. subst x. by rewrite Hent, E2.
    + intros x e0 He0 Hp. rewrite Hx. case_bool_decide; [|by exists e0]. subst x. rewrite Hent in He0.
      injection He0 as <-. by exists e'.
    + intros x Hn. rewrite Hx. case_bool_decide; [|done]. subst x. congruence.
    + by rewrite app_nil_r.
Qed.

(** Dropping an unpinned page that is on disk. *)
Lemma after_release p i e :
  poolInv p → coherent mods p → buffers p !! i = Some (Some e) → pinCnt e = O → disk p !! pid e = Some (page e) →
  after [] p (release i (pid e) p).
Proof.
  intros Hi [C1 C2] He Hp Hd. pose proof (proj2 (entryOf_slot p i e Hi He)) as Hent.
  assert (∀ x, entryOf (release i (pid e) p) x = if bool_decide (x = pid e) then None else entryOf p x) as Hx
    by (intros; by apply release_entryOf).
  split_and!; [by apply release_inv| |].
  - split.
    + intros x e0. rewrite Hx. case_bool_decide; [done|apply C1].
    + intros x Hm. destruct (C2 x Hm) as (e0 & He0 & Hp0). rewrite Hx. case_bool_decide; [|by exists e0].
      subst x. rewrite Hent in He0. injection He0 as <-. lia.
  - split_and!; try done.
    + intros x. unfold view. rewrite Hx. case_bool_decide; [|done]. subst x. by rewrite Hent.
    + intros x e0 He0 Hp0. rewrite Hx. case_bool_decide; [|by exists e0]. subst x. rewrite Hent in He0.
      injection He0 as <-. lia.
    + intros x Hn. rewrite Hx. by case_bool_decide.
    + by rewrite app_nil_r.
Qed.

(** Writing a dirty cached page, whatever reaches the disk. *)
Lemma after_write p x e d :
  poolInv p → coherent mods p → entryOf p x = Some e → dirty e = true →
  after [EvWrite x] p (mkPool (capacity p) (cache p) (buffers p) (freeSlots p) (clockHand p) (count p) (wal p)
                         (<[x := d]> (disk p)) (events p ++ [EvWrite x])).
Proof.
  intros Hi [C1 C2] He Hd. split_and!.
  - apply (poolInv_ext p); try done. apply Hi.
  - split; [|done]. intros y e0 He0. change (entryOf p y = Some e0) in He0. destruct (C1 _ _ He0) as [H1 H2]. split; [done|].
    intros Hd0 Hm. cbn. rewrite lookup_insert_ne; [by apply H2|]. intros <-. congruence.
  - split_and!; try done.
    + intros y. unfold view. change (entryOf (mkPool _ _ _ _ _ _ _ _ _) y) with (entryOf p y) at 1.
      destruct (entryOf p y) eqn:E; [done|]. cbn. apply lookup_insert_ne. intros <-. congruence.
    + intros y e0 He0. by exists e0.
Qed.

(** The result of an internal step: the pages are as before, the log was
    flushed before every write, and nothing panicked. *)
Definition settled {A} (p : BufferPool) (res : BufferPool * outcome pool_error A) : Prop :=
  (∃ evs, after evs p res.1 ∧ walFirst (wal p) evs) ∧ res.2 ≠ Panic.

Lemma settled_after {A} evs p q (res : BufferPool * outcome pool_error A) :
  after evs p q → walFirst (wal p) evs → settled q res → settled p res.
Proof.
  intros Ha Hw [(evs' & Ha' & Hw') Hp]. split; [|done]. exists (evs ++ evs'). split; [by eapply after_trans|].
  apply walFirst_app; [done|]. destruct Ha as (_ & _ & _ & W & _). by rewrite <- W.
Qed.

Lemma settled_ret {A} p (r : outcome pool_error A) : poolInv p → coherent mods p → r ≠ Panic → settled p (p, r).
Proof. intros Hi Hc Hr. split; [|done]. exists []. split; [by apply after_refl|apply walFirst_nil]. Qed.

Lemma full_no_free p i : poolInv p → buffers p !! i = Some None → (count p < capacity p)%nat.
Proof.
  intros Hi Hb. apply (pi_free _ Hi) in Hb. pose proof (pi_count _ Hi). destruct (freeSlots p); [by apply elem_of_nil in Hb|].
  cbn in *. lia.
Qed.

(** Writing a dirty page and dropping it, after a flush when there is a log. *)
Lemma evict_write o p i e :
  poolInv p → coherent mods p → buffers p !! i = Some (Some e) → pinCnt e = O → dirty e = true →
  ∀ evs q, after evs q p → (wal q = true → EvFlush ∈ evs) → walFirst (wal q) evs →
  settled q ((WritePage o (pid e) (page e);;
              modify (setBuffer i (withDirty false 0 e));;
              modify (release i (pid e))) p) ∧
  (((WritePage o (pid e) (page e);;
     modify (setBuffer i (withDirty false 0 e));;
     modify (release i (pid e))) p).2 = Ok tt →
   (count ((WritePage o (pid e) (page e);;
     modify (setBuffer i (withDirty false 0 e));;
     modify (release i (pid e))) p).1 < capacity p)%nat).
Proof.
  intros Hi Hc He Hp Hd evs q Hq Hfl Hwf. pose proof (proj2 (entryOf_slot p i e Hi He)) as Hent.
  assert (walFirst (wal q) (evs ++ [EvWrite (pid e)])) as Hwf'.
  { intros Hw l1 x l2 E. apply app_eq_inv in E as [(k & E1 & E2)|(k & -> & E2)].
    - destruct k as [|y k]; cbn in E2; [injection E2 as -> ->; rewrite app_nil_r in E1; subst l1; by apply Hfl|].
      injection E2 as <- ->. rewrite E1 in Hwf. by apply (Hwf Hw l1 x k).
    - apply elem_of_app. left. by apply Hfl. }
  set (wrote := λ d, mkPool (capacity p) (cache p) (buffers p) (freeSlots p) (clockHand p) (count p) (wal p)
    (<[pid e := d]> (disk p)) (events p ++ [EvWrite (pid e)])).
  assert (∀ d, after (evs ++ [EvWrite (pid e)]) q (wrote d)) as Hwrote.
  { intros d. eapply after_trans; [exact Hq|]. by apply (after_write p (pid e) e d). }
  unfold mbind, M_bind, WritePage, modify. cbv zeta. destruct (io_write o (pid e)) as [g|].
  - split; [|done]. split; [|done]. exists (evs ++ [EvWrite (pid e)]). split; [apply Hwrote|done].
  - fold (wrote (page e)). destruct (Hwrote (page e)) as (Hi1 & Hc1 & Hq1).
    assert (buffers (wrote (page e)) !! i = Some (Some e)) as He1 by done.
    pose proof (after_setBuffer (wrote (page e)) i e (withDirty false 0 e) Hi1 Hc1 He1 eq_refl eq_refl eq_refl eq_refl
      (λ _, or_intror (lookup_insert_eq _ _ _))) as Hset.
    destruct Hset as (Hi2 & Hc2 & Hq2). set (p2 := setBuffer i (withDirty false 0 e) (wrote (page e))) in *.
    assert (buffers p2 !! i = Some (Some (withDirty false 0 e))) as He2.
    { cbn. apply list_lookup_insert_eq. by eapply lookup_lt_Some. }
    pose proof (after_release p2 i _ Hi2 Hc2 He2 Hp (lookup_insert_eq _ _ _)) as Hrel.
    split.
    + split; [|done]. exists (evs ++ [EvWrite (pid e)]). split; [|done]. rewrite <- (app_nil_r (evs ++ _)).
      eapply after_trans; [|exact Hrel]. rewrite <- (app_nil_r (evs ++ _)). eapply after_trans; [apply Hwrote|by split_and!].
    + intros _. cbn. pose proof (pi_count _ Hi). pose proof (pi_hand _ Hi). lia.
Qed.

(** The clock hand moves on. *)
Definition tick (p : BufferPool) : BufferPool :=
  mkPool (capacity p) (cache p) (buffers p) (freeSlots p) ((clockHand p + 1) mod capacity p) (count p) (wal p)
    (disk p) (events p).

Lemma after_tick p : poolInv p → coherent mods p → after [] p (tick p).
Proof.
  intros Hi Hc. pose proof (pi_hand _ Hi). apply after_ext; try done; cbn.
  - apply Nat.mod_upper_bound. lia.
  - by rewrite app_nil_r.
Qed.

Definition evicted (p : BufferPool) (res : BufferPool * outcome pool_error unit) : Prop :=
  settled p res ∧ (res.2 = Ok tt → (count res.1 < capacity p)%nat).

Lemma evicted_after p q res : after [] p q → evicted q res → evicted p res.
Proof.
  intros Ha [Hs Hc]. split; [eapply settled_after; [done|apply walFirst_nil|done]|].
  intros Hr. specialize (Hc Hr). destruct Ha as (_ & _ & C & _). by rewrite <- C.
Qed.

Lemma evictLoop_spec o n failed p : poolInv p → coherent mods p → evicted p (evictLoop o n false failed p).
Proof.
  revert failed p. induction n as [|n IH]; intros failed p Hi Hc.
  { cbn. split; [|by destruct failed]. destruct failed; by apply settled_ret. }
  pose proof (after_tick p Hi Hc) as Ht. pose proof Ht as (Hi1 & Hc1 & _).
  apply (evicted_after p (tick p)); [done|].
  destruct (lookup_lt_is_Some_2 (buffers p) (clockHand p)) as [buf Hb]; [rewrite (pi_length _ Hi); apply Hi|].
  cbn [evictLoop]. unfold mbind at 1, M_bind at 1, gets at 1. unfold mbind at 1, M_bind at 1, modify at 1.
  fold (tick p). unfold mbind at 1, M_bind at 1, bufferAt at 1. cbn [buffers tick]. rewrite Hb. cbn [must].
  set (p1 := tick p) in *. set (idx := clockHand p) in *. assert (buffers p1 !! idx = Some buf) as Hb1 by done.
  destruct buf as [e|].
  2: { split; [by apply settled_ret|]. intros _. by apply (full_no_free p1 idx). }
  destruct (Nat.ltb_spec 0 (pinCnt e)) as [Hp|Hp]; [by apply IH|].
  destruct (Z.ltb_spec 0 (usageCount e)) as [Hu|Hu].
  { unfold mbind, M_bind, modify.
    pose proof (after_setBuffer p1 idx e (withUsage (usageCount e - 1) e) Hi1 Hc1 Hb1 eq_refl eq_refl eq_refl eq_refl (λ H, or_introl H)) as Hs.
    eapply evicted_after; [exact Hs|]. apply IH; apply Hs. }
  unfold mbind at 1, M_bind at 1, gets at 1. cbv zeta.
  assert (pinCnt e = O) as Hp0 by lia. pose proof (proj2 (entryOf_slot p1 idx e Hi1 Hb1)) as Hent.
  destruct (co_entry _ _ Hc1 _ _ Hent) as [Hhf Hclean]. rewrite Hhf, andb_true_r.
  destruct (dirty e) eqn:Hd.
  - assert (∀ evs q, after evs q p1 → (wal q = true → EvFlush ∈ evs) → walFirst (wal q) evs → capacity q = capacity p1 →
      evicted q ((WritePage o (pid e) (page e);; modify (setBuffer idx (withDirty false 0 e));; modify (release idx (pid e))) p1)) as Hw.
    { intros evs q Hq Hf Hwf Hcap. destruct (evict_write o p1 idx e Hi1 Hc1 Hb1 Hp0 Hd evs q Hq Hf Hwf) as [H1 H2].
      split; [done|]. by rewrite Hcap. }
    destruct (wal p1) eqn:Ew.
    + cbn [negb andb]. destruct failed; cbn [negb andb].
      * by apply IH.
      * destruct (io_flush o) eqn:Ef; [|by apply IH].
        unfold mbind at 1, M_bind at 1, walFlush. rewrite Ef.
        set (p2 := emit EvFlush p1).
        assert (after [EvFlush] p1 p2) as Ha by (apply after_ext; try done; apply Hi1).
        destruct Ha as (Hi2 & Hc2 & Hq2).
        destruct (evict_write o p2 idx e Hi2 Hc2 Hb1 Hp0 Hd [EvFlush] p1) as [H1 H2]; [by split_and!|intros _; by left| |by split].
        intros _ [|y l1] x l2 E; [done|]. injection E as <- E. by destruct l1.
    + apply (Hw [] p1); [by apply after_refl|by rewrite Ew|apply walFirst_nil|done].
  - assert (pid e ∉ mods) as Hm.
    { intros Hm. destruct (co_mods _ _ Hc1 _ Hm) as (e0 & He0 & Hp'). rewrite Hent in He0. injection He0 as <-. lia. }
    pose proof (after_release p1 idx e Hi1 Hc1 Hb1 Hp0 (Hclean eq_refl Hm)) as Hr. unfold modify. split.
    + split; [|done]. exists []. split; [done|apply walFirst_nil].
    + intros _. cbn. pose proof (pi_count _ Hi). pose proof (pi_hand _ Hi). lia.
Qed.

Lemma evict_spec o p : poolInv p → coherent mods p → evicted p (evict o p).
Proof. apply evictLoop_spec. Qed.

(** Two rounds are enough, since one eviction makes room. *)
Lemma evictWhileFull_spec o fuel p : poolInv p → coherent mods p → evicted p (evictWhileFull o (2 + fuel) p).
Proof.
  intros Hi Hc. cbn [Nat.add evictWhileFull]. unfold mbind at 1, M_bind at 1, gets at 1.
  destruct (Nat.leb_spec (capacity p) (count p)) as [Hfull|Hfree].
  2: { split; [by apply settled_ret|]. done. }
  pose proof (evict_spec o p Hi Hc) as [[(evs & Ha & Hw) Hnp] Hok]. unfold mbind at 1, M_bind at 1.
  destruct (evict o p) as [p1 [[]| |]]; cbn [fst snd] in *; [|by split; [split; [by exists evs|]|]..].
  specialize (Hok eq_refl). pose proof Ha as (Hi1 & Hc1 & C & _). rewrite <- C in Hok.
  unfold mbind, M_bind, gets. destruct (Nat.leb_spec (capacity p1) (count p1)) as [|_]; [lia|].
  split; [split; [by exists evs|done]|]. intros _. cbn. by rewrite <- C.
Qed.

(** ** Adding a page *)

(** The pool with [e] in slot [idx], which is no longer free. *)
Definition inserted (idx : nat) (free : list nat) (e : bufferEntry) (p : BufferPool) : BufferPool :=
  mkPool (capacity p) (<[pid e := idx]> (cache p)) (<[idx := Some e]> (buffers p)) free (clockHand p) (S (count p))
    (wal p) (disk p) (events p).

Lemma inserted_inv p idx free e :
  poolInv p → cache p !! pid e = None → freeSlots p = free ++ [idx] → poolInv (inserted idx free e p).
Proof.
  intros [H1 H2 H3 H4 H5 H6] Hn Hf. rewrite Hf in *. apply NoDup_app in H5 as (Hnd & Hd & _).
  assert (buffers p !! idx = Some None) as Hb by (apply H4, elem_of_app; right; by left).
  pose proof (lookup_lt_Some _ _ _ Hb) as Hlt. split; cbn; try done.
  - by rewrite length_insert.
  - intros x j. rewrite lookup_insert_Some. destruct (decide (idx = j)) as [->|Hne].
    + rewrite list_lookup_insert_eq by done. split.
      * intros [[<- _]|[Hx (e0 & He0 & _)%H3]]; [by exists e|congruence].
      * intros (e0 & [= <-] & <-). by left.
    + rewrite list_lookup_insert_ne by done. rewrite <- H3. split; [by intros [[_ ?]|[_ ?]]|].
      intros Hx. right. split; [|done]. intros <-. congruence.
  - intros j. destruct (decide (idx = j)) as [->|Hne].
    + rewrite list_lookup_insert_eq by done. split; [|done]. intros Hj. exfalso. apply (Hd j Hj). by left.
    + rewrite list_lookup_insert_ne, <- H4, elem_of_app, list_elem_of_singleton by done. split; [by left|by intros [?| ->]].
  - rewrite length_app in H6. cbn in H6. lia.
Qed.

Lemma inserted_entryOf p idx free e x :
  poolInv p → cache p !! pid e = None → freeSlots p = free ++ [idx] →
  entryOf (inserted idx free e p) x = if bool_decide (x = pid e) then Some e else entryOf p x.
Proof.
  intros Hi Hn Hf.
  assert (buffers p !! idx = Some None) as Hb by (apply (pi_free _ Hi); rewrite Hf; apply elem_of_app; right; by left).
  pose proof (lookup_lt_Some _ _ _ Hb) as Hlt. unfold entryOf. cbn. case_bool_decide as Hx.
  - subst x. by rewrite lookup_insert_eq, list_lookup_insert_eq.
  - rewrite lookup_insert_ne by congruence. destruct (cache p !! x) as [j|] eqn:Hc; [|done].
    apply (pi_cache _ Hi) in Hc as (e0 & He0 & <-). rewrite list_lookup_insert_ne; [done|]. intros ->. congruence.
Qed.

(** Either room was made and the page was added, or an error left the pages as
    they were. *)
Definition added (e : bufferEntry) (p : BufferPool) (res : BufferPool * outcome pool_error unit) : Prop :=
  match res with
  | (p', Ok _) =>
      poolInv p' ∧ coherent mods p' ∧
      ∃ evs q, after evs p q ∧ walFirst (wal p) evs ∧
        capacity p' = capacity q ∧ wal p' = wal q ∧ disk p' = disk q ∧ events p' = events q ∧
        ∀ x, entryOf p' x = if bool_decide (x = pid e) then Some e else entryOf q x
  | (p', Err _) => ∃ evs, after evs p p' ∧ walFirst (wal p) evs
  | (_, Panic) => False
  end.

Lemma addEntry_spec o e p :
  poolInv p → coherent mods p → entryOf p (pid e) = None → hf e = true →
  (dirty e = false → disk p !! pid e = Some (page e)) → added e p (addEntry o e p).
Proof.
  intros Hi Hc Hn Hhf Hclean. unfold addEntry. unfold mbind at 1, M_bind at 1.
  pose proof (evictWhileFull_spec o (count p) p Hi Hc) as [[(evs & Ha & Hw) Hnp] Hok].
  destruct (evictWhileFull o (2 + count p) p) as [q [[]|err|]]; cbn [fst snd] in *; [|by exists evs|done].
  specialize (Hok eq_refl). pose proof Ha as (Hi1 & Hc1 & C & W & V & P & N & _).
  assert (entryOf q (pid e) = None) as Hnq by (by apply N).
  assert (cache q !! pid e = None) as Hcq.
  { destruct (cache q !! pid e) as [i|] eqn:E; [|done]. unfold entryOf in Hnq. rewrite E in Hnq.
    apply (pi_cache _ Hi1) in E as (e0 & E & _). by rewrite E in Hnq. }
  unfold mbind, M_bind, findEmptySlot. pose proof (pi_count _ Hi1) as Hcount.
  destruct (last (freeSlots q)) as [idx|] eqn:El; [|apply last_None in El; rewrite El in Hcount; cbn in Hcount; lia].
  apply last_Some in El as [free El]. rewrite El, removelast_last.
  assert (buffers q !! idx = Some None) as Hb by (apply (pi_free _ Hi1); rewrite El; apply elem_of_app; right; by left).
  unfold insertEntry, update. cbn [buffers capacity cache freeSlots clockHand count wal disk events]. rewrite (proj2 (Nat.ltb_lt _ _)) by (by eapply lookup_lt_Some).
  change (mkPool _ _ _ _ _ _ _ _ _) with (inserted idx free e q).
  pose proof (inserted_inv q idx free e Hi1 Hcq El) as Hi2.
  pose proof (λ x, inserted_entryOf q idx free e x Hi1 Hcq El) as Hent.
  split; [done|]. split; [|by exists evs, q].
  assert (disk q !! pid e = disk p !! pid e) as Hdisk.
  { pose proof (V (pid e)) as Hv. unfold view in Hv. by rewrite Hnq, Hn in Hv. }
  destruct Hc1 as [C1 C2]. split.
  - intros x e0. rewrite Hent. case_bool_decide; [|apply C1]. intros [= <-]. subst x. split; [done|].
    intros Hd _. cbn. rewrite Hdisk. by apply Hclean.
  - intros x Hm. destruct (C2 x Hm) as (e0 & He0 & Hp). rewrite Hent. case_bool_decide; [|by exists e0]. subst x. congruence.
Qed.

(** ** Flushing *)

(** A state from which pages may be written: the log has been flushed. *)
Definition ready (q : BufferPool) (p : BufferPool) : Prop :=
  ∃ evs, after evs q p ∧ (wal q = true → EvFlush ∈ evs) ∧ walFirst (wal q) evs.

Lemma ready_inv q p : ready q p → poolInv p ∧ coherent mods p.
Proof. intros (evs & (? & ? & _) & _). done. Qed.

Lemma ready_step q p p' evs :
  ready q p → after evs p p' → (evs = [] ∨ ∃ x, evs = [EvWrite x]) → ready q p'.
Proof.
  intros (evs0 & Ha & Hf & Hw) Ha' Hevs. exists (evs0 ++ evs). split_and!; [by eapply after_trans| |].
  - intros Hwal. apply elem_of_app. left. by apply Hf.
  - destruct Hevs as [->|[y ->]]; [by rewrite app_nil_r|]. intros Hwal l1 x l2 E.
    apply app_eq_inv in E as [(k & E1 & E2)|(k & -> & E2)].
    + destruct k as [|z k]; cbn in E2; [injection E2 as -> ->; rewrite app_nil_r in E1; subst l1; by apply Hf|].
      injection E2 as <- ->. rewrite E1 in Hw. by apply (Hw Hwal l1 x k).
    + apply elem_of_app. left. by apply Hf.
Qed.

Lemma ready_settled {A} q p (r : outcome pool_error A) : ready q p → r ≠ Panic → settled q (p, r).
Proof. intros (evs & Ha & _ & Hw) Hr. split; [by exists evs|done]. Qed.

(** Writing a dirty page out and marking it clean. *)
Lemma write_clean o q p i e :
  ready q p → buffers p !! i = Some (Some e) → dirty e = true →
  match (WritePage o (pid e) (page e);; modify (setBuffer i (withImage false (withDirty false 0 e)))) p with
  | (p', Ok _) => ready q p' ∧ length (buffers p') = length (buffers p)
  | (p', Err _) => ready q p'
  | (_, Panic) => False
  end.
Proof.
  intros Hr He Hd. destruct (ready_inv q p Hr) as [Hi Hc]. pose proof (proj2 (entryOf_slot p i e Hi He)) as Hent.
  pose proof (λ d, ready_step q p _ _ Hr (after_write p (pid e) e d Hi Hc Hent Hd) (or_intror (ex_intro _ _ eq_refl))) as Hw.
  unfold mbind, M_bind, WritePage, modify. cbv zeta. destruct (io_write o (pid e)) as [g|]; [apply Hw|].
  specialize (Hw (page e)). destruct (ready_inv _ _ Hw) as [Hi1 Hc1]. split; [|cbn; by rewrite length_insert].
  eapply ready_step; [exact Hw| |by left].
  by apply (after_setBuffer _ i e); try done; intros _; right; apply lookup_insert_eq.
Qed.

(** The loop over the slots, with an invariant for the slots done. *)
Lemma forSlots_rule (I : nat → BufferPool → Prop) (E : BufferPool → Prop) f n i p :
  (∀ j p, I j p → (j < i + n)%nat → is_Some (buffers p !! j)) →
  (∀ j p e, I j p → buffers p !! j = Some (Some e) →
     match f j e p with (p', Ok _) => I (S j) p' | (p', Err _) => E p' | (_, Panic) => False end) →
  (∀ j p, I j p → buffers p !! j = Some None → I (S j) p) →
  I i p →
  match forSlots n i f p with (p', Ok _) => I (i + n)%nat p' | (p', Err _) => E p' | (_, Panic) => False end.
Proof.
  revert i p. induction n as [|n IH]; intros i p Hlen Hf Hn Hp; [by rewrite Nat.add_0_r|]. cbn [forSlots].
  unfold mbind at 1, M_bind at 1, bufferAt.
  destruct (Hlen i p Hp) as [b Hb]; [lia|]. rewrite Hb. cbn [must].
  assert (∀ j p, I j p → (j < S i + n)%nat → is_Some (buffers p !! j)) as Hlen' by (intros; apply Hlen; [done|lia]).
  replace (i + S n)%nat with (S i + n)%nat by lia. unfold mbind, M_bind. destruct b as [e|].
  - specialize (Hf i p e Hp Hb) as Hfi. destruct (f i e p) as [p' [u|err|]]; [|done..]. by apply IH.
  - cbn [mret M_ret]. by apply IH; [..|apply Hn].
Qed.

Lemma flushWal_spec o p :
  poolInv p → coherent mods p →
  match flushWal o p with (p', Ok _) => ready p p' | (p', Err _) => p' = p | (_, Panic) => False end.
Proof.
  intros Hi Hc. unfold flushWal, mbind, M_bind, gets. destruct (wal p) eqn:Ew.
  - unfold walFlush. destruct (io_flush o); [|done]. exists [EvFlush]. split_and!.
    + apply after_ext; try done. apply Hi.
    + intros _. by left.
    + intros _ [|y l1] x l2 E; [done|]. injection E as <- E. by destruct l1.
  - exists []. split_and!; [by apply after_refl|by rewrite Ew|apply walFirst_nil].
Qed.

(** Both flushes of the whole pool. *)
Lemma flush_pool o (test : bufferEntry → bool) p :
  (∀ e, test e = true → dirty e = true) → poolInv p → coherent mods p →
  settled p ((flushWal o;; forAll (λ i e, if test e then flushEntry o i e else mret tt)) p).
Proof.
  intros Ht Hi Hc. unfold mbind at 1, M_bind at 1. pose proof (flushWal_spec o p Hi Hc) as Hfl.
  destruct (flushWal o p) as [q [[]|err|]]; [|subst q; by apply settled_ret|done]. unfold forAll.
  set (I := λ (_ : nat) r, ready p r ∧ length (buffers r) = capacity q).
  assert (I O q) as HI.
  { split; [done|]. destruct (ready_inv _ _ Hfl) as [Hiq _]. apply Hiq. }
  assert (match forSlots (capacity q) 0 (λ i e, (if test e then flushEntry o i e else mret tt) : PoolM unit) q with
          | (p', Ok _) => I (capacity q) p' | (p', Err _) => ready p p' | (_, Panic) => False end) as Hr.
  { apply (forSlots_rule I); [intros j r [_ Hl] Hj; apply lookup_lt_is_Some; lia| |done|done].
    intros i r e [Hr' Hl] He. destruct (test e) eqn:Et; [|done].
    pose proof (write_clean o p r i e Hr' He (Ht e Et)) as Hw. unfold flushEntry.
    destruct ((WritePage o (pid e) (page e);; modify (setBuffer i (withImage false (withDirty false 0 e)))) r) as [r' [u|err|]]; [|done..].
    destruct Hw as [? Hl']. split; [done|]. by rewrite Hl'. }
  destruct (forSlots (capacity q) 0 _ q) as [r [[]|err|]]; [|by apply ready_settled|done].
  apply ready_settled; [apply Hr|done].
Qed.
End Steps.

(** ** Dropping pages *)

Lemma entryOf_iff p x e :
  poolInv p → entryOf p x = Some e ↔ ∃ i, buffers p !! i = Some (Some e) ∧ pid e = x.
Proof.
  intros Hi. split.
  - intros (i & _ & He & Hx)%entryOf_Some; [|done]. by exists i.
  - intros (i & He & <-). by apply entryOf_slot with i.
Qed.

(** Both invalidations of a table. *)
Definition sameOutside (p p' : BufferPool) : Prop :=
  capacity p' = capacity p ∧ wal p' = wal p ∧ disk p' = disk p ∧ events p' = events p.

Lemma drop_pool (test : bufferEntry → bool) p :
  poolInv p →
  match forAll (λ i e, if test e then modify (release i (pid e)) else mret tt) p with
  | (p', Ok _) =>
      poolInv p' ∧ sameOutside p p' ∧
      ∀ x, entryOf p' x = match entryOf p x with Some e => if test e then None else Some e | None => None end
  | _ => False
  end.
Proof.
  intros Hi. unfold forAll.
  set (I := λ i r, poolInv r ∧ sameOutside p r ∧ ∀ j, buffers r !! j =
    match buffers p !! j with
    | Some (Some e) => Some (if (j <? i)%nat && test e then None else Some e)
    | b => b
    end).
  assert (match forSlots (capacity p) 0 (λ i e, (if test e then modify (release i (pid e)) else mret tt) : PoolM unit) p with
          | (p', Ok _) => I (0 + capacity p)%nat p' | (p', Err _) => False | (_, Panic) => False end) as Hr.
  { apply (forSlots_rule I).
    - intros j r (Hir & (Hcap & _) & _) Hj. apply lookup_lt_is_Some. rewrite (pi_length _ Hir). lia.
    - intros i r e (Hir & Hs & Hb) He. specialize (Hb i) as Hbi. rewrite He in Hbi.
      destruct (buffers p !! i) as [[e0|]|] eqn:Ei; try done. rewrite Nat.ltb_irrefl in Hbi. cbn in Hbi. injection Hbi as <-.
      assert (∀ j, (j <? S i)%nat = (j <? i)%nat || (j =? i)%nat) as Hlt.
      { intros j. destruct (Nat.ltb_spec j (S i)), (Nat.ltb_spec j i), (Nat.eqb_spec j i); try done; lia. }
      destruct (test e) eqn:Et; cbn [modify mret M_ret].
      + split_and!; [by apply release_inv|done|]. intros j. cbn [buffers release]. destruct (decide (j = i)) as [->|Hne].
        * rewrite list_lookup_insert_eq by (by eapply lookup_lt_Some).
          rewrite Ei, Et, (proj2 (Nat.ltb_lt i (S i))) by lia. done.
        * rewrite list_lookup_insert_ne, Hb, Hlt by done. rewrite (proj2 (Nat.eqb_neq j i)) by done. by rewrite orb_false_r.
      + split_and!; [done|done|]. intros j. rewrite Hb, Hlt. destruct (decide (j = i)) as [->|Hne].
        * rewrite Ei, Et. by rewrite !andb_false_r.
        * rewrite (proj2 (Nat.eqb_neq j i)) by done. by rewrite orb_false_r.
    - intros i r (Hir & Hs & Hb) Hn. split_and!; [done|done|]. intros j. rewrite Hb.
      destruct (buffers p !! j) as [[e|]|] eqn:Ej; [|done..]. do 2 f_equal. specialize (Hb i). rewrite Hn in Hb.
      destruct (Nat.ltb_spec j i), (Nat.ltb_spec j (S i)); try done; try lia. assert (j = i) as -> by lia.
      rewrite Ej in Hb. by rewrite Nat.ltb_irrefl in Hb.
    - split_and!; try done. intros j. by destruct (buffers p !! j) as [[e|]|]. }
  destruct (forSlots (capacity p) 0 _ p) as [r [u|err|]]; [|done..]. destruct Hr as (Hir & Hs & Hb). split_and!; [done|done|].
  assert (∀ j e, buffers p !! j = Some (Some e) → buffers r !! j = Some (if test e then None else Some e)) as Hj.
  { intros j e He. rewrite Hb, He. rewrite (proj2 (Nat.ltb_lt j _)); [done|].
    rewrite <- (pi_length _ Hi). by eapply lookup_lt_Some. }
  intros x. apply option_eq. intros e. rewrite (entryOf_iff r x e Hir). split.
  - intros (j & He & Hx). specialize (Hb j). rewrite He in Hb. destruct (buffers p !! j) as [[e0|]|] eqn:Ej; try done.
    specialize (Hj j e0 Ej). rewrite He in Hj. destruct (test e0) eqn:Et; [done|]. injection Hj as <-.
    rewrite (proj2 (entryOf_iff p x e Hi)) by (by exists j). by rewrite Et.
  - destruct (entryOf p x) as [e0|] eqn:E0; [|done]. destruct (test e0) eqn:Et; [done|]. intros [= <-].
    apply (entryOf_iff p x e0 Hi) in E0 as (j & He & Hx). exists j. split; [|done]. by rewrite (Hj j e0 He), Et.
Qed.

(** Changing one entry. *)
Lemma update_entry mods mods' p i e e' :
  poolInv p → coherent mods p → buffers p !! i = Some (Some e) → pid e' = pid e → hf e' = hf e →
  (dirty e' = false → pid e ∉ mods' → disk p !! pid e = Some (page e')) →
  (∀ x, x ≠ pid e → x ∈ mods ↔ x ∈ mods') → (pid e ∈ mods' → (0 < pinCnt e')%nat) →
  poolInv (setBuffer i e' p) ∧ coherent mods' (setBuffer i e' p) ∧
  ∀ x, entryOf (setBuffer i e' p) x = if bool_decide (x = pid e) then Some e' else entryOf p x.
Proof.
  intros Hi [C1 C2] He Hpid Hhf Hd Hm Hpin. pose proof (proj2 (entryOf_slot p i e Hi He)) as Hent.
  pose proof (λ x, setBuffer_entryOf p i e e' x Hi He Hpid) as Hx.
  split_and!; [by apply (setBuffer_inv p i e)| |done]. split.
  - intros x e0. rewrite Hx. case_bool_decide as Hxe.
    + intros [= <-]. subst x. destruct (C1 _ _ Hent) as [H1 _]. split; [congruence|done].
    + intros He0. destruct (C1 _ _ He0) as [H1 H2]. split; [done|]. intros Hd0 Hx0. apply H2; [done|]. by rewrite Hm.
  - intros x Hx0. rewrite Hx. case_bool_decide as Hxe.
    + subst x. exists e'. split; [done|by apply Hpin].
    + apply C2. by rewrite Hm.
Qed.

(** ** Histories *)

Inductive op : Type :=
| OFetch (o : io) (x : PageID) (dbName tableName : bytes)
| OCache (o : io) (x : PageID) (pg : bytes) (dbName tableName : bytes)
| OImage (x : PageID)
| OUnpin (x : PageID) (d : bool)
| OUnpinDirty (x : PageID) (lsn : Z)
| OInvalidate (x : PageID)
| OInvalidateTable (tableID : Z)
| OInvalidateForce (tableID : Z)
| OFlushAll (o : io)
| OFlushUpTo (o : io) (maxLSN : Z)
| OFlushPage (o : io) (x : PageID)
| OPrefetch (o : io) (x : PageID)
| OModify (x : PageID) (d : bytes).

(** [OPrefetch] is a round of [PrefetchPages] that nothing interrupts between
    the read and the insertion. *)
Definition exec (a : op) : PoolM (option bytes) :=
  match a with
  | OFetch o x d t => pg ← FetchPage o x d t; mret (Some pg)
  | OCache o x pg d t => CachePage o x pg d t;; mret None
  | OImage x => WritePreImage x;; mret None
  | OUnpin x d => UnpinPage x d;; mret None
  | OUnpinDirty x lsn => UnpinPageDirty x lsn;; mret None
  | OInvalidate x => InvalidatePage x;; mret None
  | OInvalidateTable t => InvalidateTable t;; mret None
  | OInvalidateForce t => InvalidateTableForce t;; mret None
  | OFlushAll o => FlushAll o;; mret None
  | OFlushUpTo o lsn => FlushDirtyPagesUpToLSN o lsn;; mret None
  | OFlushPage o x => FlushPage o x;; mret None
  | OPrefetch o x => pg ← ReadPage o x; PrefetchInsert o x pg;; mret None
  | OModify x d => ModifyPage x d;; mret None
  end.

(** The discipline of the users: a page is changed only while it is pinned, and
    who changed a page releases it as dirty. *)
Definition legal (mods : gset PageID) (p : BufferPool) (a : op) : Prop :=
  match a with
  | OModify x _ => ∃ e, entryOf p x = Some e ∧ (0 < pinCnt e)%nat
  | OUnpin x false => x ∈ mods → ∃ e, entryOf p x = Some e ∧ (1 < pinCnt e)%nat
  | _ => True
  end.

Definition newMods (a : op) (mods : gset PageID) : gset PageID :=
  match a with
  | OModify x _ => {[x]} ∪ mods
  | OUnpin x true | OUnpinDirty x _ => mods ∖ {[x]}
  | OInvalidateForce t => filter (λ x, TableID x ≠ t) mods
  | _ => mods
  end.

(** What a page is for the users after an operation that returned [r]. *)
Definition effect (a : op) (p : BufferPool) (r : outcome pool_error (option bytes)) (y : PageID) : option bytes :=
  match a with
  | OModify x d => if bool_decide (y = x) then Some d else view p y
  | OCache _ x pg _ _ =>
      match entryOf p x, r with
      | None, Ok _ => if bool_decide (y = x) then Some pg else view p y
      | _, _ => view p y
      end
  | OInvalidate x =>
      if bool_decide (y = x) then
        match entryOf p y with Some e => if (0 <? pinCnt e)%nat then view p y else disk p !! y | None => view p y end
      else view p y
  | OInvalidateTable t =>
      match entryOf p y with
      | Some e => if (TableID y =? t) && (pinCnt e =? 0)%nat then disk p !! y else view p y
      | None => view p y
      end
  | OInvalidateForce t => if TableID y =? t then disk p !! y else view p y
  | _ => view p y
  end.

(** The operations that may take a pin away. *)
Definition releases (a : op) (x : PageID) : Prop :=
  match a with
  | OUnpin y _ | OUnpinDirty y _ => x = y
  | OInvalidateForce t => TableID x = t
  | _ => False
  end.

Record stepOk (mods : gset PageID) (a : op) (p p' : BufferPool) (r : outcome pool_error (option bytes)) : Prop := {
  so_panic : r ≠ Panic;
  so_inv : poolInv p';
  so_coherent : coherent (newMods a mods) p';
  so_same : capacity p' = capacity p ∧ wal p' = wal p;
  so_view y : view p' y = effect a p r y;
  so_pins x e : entryOf p x = Some e → (0 < pinCnt e)%nat → ¬ releases a x →
    ∃ e', entryOf p' x = Some e' ∧ (pinCnt e ≤ pinCnt e')%nat;
  so_wal : ∃ evs, events p' = events p ++ evs ∧ walFirst (wal p) evs }.

(** Operations that only shuffle pages. *)
Lemma settled_stepOk {A} mods a p (res : BufferPool * outcome pool_error A) r :
  newMods a mods = mods → (∀ y, effect a p r y = view p y) → r ≠ Panic →
  settled mods p res → stepOk mods a p res.1 r.
Proof.
  intros Hm He Hr [(evs & (Hi & Hc & C & W & V & P & N & E) & Hw) _]. split; try done.
  - by rewrite Hm.
  - intros y. by rewrite He.
  - intros x e Hx Hp _. destruct (P x e Hx Hp) as (e' & Hx' & Hp'). exists e'. split; [done|lia].
  - by exists evs.
Qed.

Lemma unit_result {A} (m : PoolM unit) (x : A) p :
  (m;; mret x) p = ((m p).1, match (m p).2 with Ok _ => Ok x | Err e => Err e | Panic => Panic end).
Proof. unfold mbind, M_bind. by destruct (m p) as [q []]. Qed.

(** Operations on one entry that is in the pool. *)
Lemma entry_stepOk mods a p i e e' :
  poolInv p → coherent mods p → buffers p !! i = Some (Some e) → pid e' = pid e → hf e' = hf e →
  (dirty e' = false → pid e ∉ newMods a mods → disk p !! pid e = Some (page e')) →
  (∀ x, x ≠ pid e → x ∈ mods ↔ x ∈ newMods a mods) → (pid e ∈ newMods a mods → (0 < pinCnt e')%nat) →
  (releases a (pid e) ∨ (pinCnt e ≤ pinCnt e')%nat) →
  (∀ r y, effect a p r y = if bool_decide (y = pid e) then Some (page e') else view p y) →
  ∀ evs r q, walFirst (wal p) evs → r ≠ Panic →
  q = mkPool (capacity p) (cache p) (<[i := Some e']> (buffers p)) (freeSlots p) (clockHand p) (count p) (wal p)
        (disk p) (events p ++ evs) →
  stepOk mods a p q r.
Proof.
  intros Hi Hc He Hpid Hhf Hd Hm Hpin Hrel Heff evs r q Hw Hr ->.
  destruct (update_entry mods (newMods a mods) p i e e' Hi Hc He Hpid Hhf Hd Hm Hpin) as (Hi' & Hc' & Hx).
  pose proof (proj2 (entryOf_slot p i e Hi He)) as Hent.
  assert (after (newMods a mods) evs (setBuffer i e' p) (mkPool (capacity p) (cache p) (<[i := Some e']> (buffers p)) (freeSlots p) (clockHand p)
    (count p) (wal p) (disk p) (events p ++ evs))) as (Hi2 & Hc2 & _ & _ & V2 & _).
  { apply after_ext; try done. apply Hi'. }
  split; try done.
  - intros y. rewrite V2, Heff. unfold view. rewrite Hx. by case_bool_decide.
  - intros x e0 He0 Hp0 Hnr. change (∃ e1, entryOf (setBuffer i e' p) x = Some e1 ∧ (pinCnt e0 ≤ pinCnt e1)%nat).
    rewrite Hx. case_bool_decide; [|by exists e0]. subst x. rewrite Hent in He0. injection He0 as <-.
    destruct Hrel as [?|?]; [done|by exists e'].
  - by exists evs.
Qed.

Section Exec.
Context (mods : gset PageID) (p : BufferPool).
Context (Hi : poolInv p) (Hc : coherent mods p).

Lemma cache_hit x i : cache p !! x = Some i → ∃ e, buffers p !! i = Some (Some e) ∧ pid e = x ∧ entryOf p x = Some e.
Proof.
  intros (e & He & <-)%(pi_cache _ Hi). exists e. split_and!; [done|done|]. by apply (entryOf_slot p i e).
Qed.

Lemma cache_miss x : cache p !! x = None → entryOf p x = None.
Proof. unfold entryOf. by intros ->. Qed.

Lemma miss_mods x : cache p !! x = None → x ∉ mods.
Proof. intros Hx%cache_miss Hm. destruct (co_mods _ _ Hc x Hm) as (e & He & _). congruence. Qed.

Lemma nothing_ok a r :
  newMods a mods = mods → (∀ y, effect a p r y = view p y) → r ≠ Panic → stepOk mods a p p r.
Proof.
  intros Hm He Hr. apply (settled_stepOk mods a p (p, r) r Hm He Hr). by apply settled_ret.
Qed.

Lemma view_entry x e y : entryOf p x = Some e → view p y = if bool_decide (y = x) then Some (page e) else view p y.
Proof. intros He. case_bool_decide; [|done]. subst y. unfold view. by rewrite He. Qed.

(** A page added behind the users' backs or by one of them. *)
Lemma added_stepOk a e (res : BufferPool * outcome pool_error unit) (x : option bytes) :
  newMods a mods = mods → entryOf p (pid e) = None →
  (∀ y, effect a p (Ok x) y = if bool_decide (y = pid e) then Some (page e) else view p y) →
  (∀ err y, effect a p (Err err) y = view p y) →
  added mods e p res →
  stepOk mods a p res.1 (match res.2 with Ok _ => Ok x | Err err => Err err | Panic => Panic end).
Proof.
  intros Hm Hn He1 He2 Ha. destruct res as [p' [u|err|]]; cbn [fst snd]; [| |done].
  - destruct Ha as (Hi' & Hc' & evs & q & (Hiq & Hcq & C & W & V & P & N & E) & Hw & E1 & E2 & E3 & E4 & Hx). split; try done.
    + by rewrite Hm.
    + split; congruence.
    + intros y. rewrite He1. unfold view at 1. rewrite Hx, E3. case_bool_decide; [done|]. apply V.
    + intros y e0 He0 Hp0 _. destruct (P y e0 He0 Hp0) as (e1 & He1' & Hp1). exists e1. rewrite Hx. case_bool_decide; [|split; [done|lia]].
      subst y. congruence.
    + exists evs. split; [congruence|done].
  - destruct Ha as (evs & Ha & Hw). apply (settled_stepOk mods a p (p', Err err : outcome pool_error unit)); [done|apply He2|done|].
    split; [by exists evs|done].
Qed.

Lemma fetch_ok o x d t : stepOk mods (OFetch o x d t) p (exec (OFetch o x d t) p).1 (exec (OFetch o x d t) p).2 ∧
  ∀ pg, (exec (OFetch o x d t) p).2 = Ok (Some pg) →
    view p x = Some pg ∧ ∃ e, entryOf (exec (OFetch o x d t) p).1 x = Some e ∧ (0 < pinCnt e)%nat.
Proof.
  cbn [exec]. unfold FetchPage, mbind, M_bind, gets. destruct (cache p !! x) as [i|] eqn:Hx.
  - destruct (cache_hit x i Hx) as (e & He & Hpid & Hent). unfold entryAt. rewrite He. cbn [modify mret M_ret fst snd].
    split.
    + apply (entry_stepOk mods (OFetch o x d t) p i e (Reference (withPin (S (pinCnt e)) e)) Hi Hc He eq_refl eq_refl) with [];
        try done; cbn.
      * rewrite Hpid. apply (co_entry _ _ Hc _ _ Hent).
      * intros. lia.
      * right. lia.
      * intros _ y. rewrite Hpid. by apply view_entry.
      * apply walFirst_nil.
      * unfold setBuffer, withBuffers. by rewrite app_nil_r.
    + intros pg [= <-]. split; [unfold view; by rewrite Hent|].
      rewrite (setBuffer_entryOf p i e) by done. rewrite Hpid, bool_decide_eq_true_2 by done. eexists. split; [done|]. cbn. lia.
  - unfold ReadPage. destruct (disk p !! x) as [pg|] eqn:Hd; [|split; [by apply nothing_ok|done]].
    destruct (io_read o); [|split; [by apply nothing_ok|done]].
    set (e := mkEntry x pg true 1 1 false d t false 0).
    pose proof (addEntry_spec mods o e p Hi Hc (cache_miss x Hx) eq_refl (λ _, Hd)) as Ha.
    pose proof (added_stepOk (OFetch o x d t) e (addEntry o e p) (Some pg) eq_refl (cache_miss x Hx)) as Hok.
    assert (view p x = Some pg) as Hv by (unfold view; by rewrite (cache_miss x Hx)).
    destruct (addEntry o e p) as [p' [u|err|]]; cbn [fst snd mret M_ret] in *.
    + split.
      * apply Hok; [|done|done]. intros y. cbn. case_bool_decide; [by subst y|done].
      * intros pg' [= <-]. split; [done|]. destruct Ha as (_ & _ & evs & q & _ & _ & _ & _ & _ & _ & Hx').
        exists e. rewrite Hx', bool_decide_eq_true_2 by done. split; [done|cbn; lia].
    + split; [|done]. apply Hok; [|done|done]. intros y. cbn. case_bool_decide; [by subst y|done].
    + done.
Qed.

Lemma cache_ok o x pg d t : stepOk mods (OCache o x pg d t) p (exec (OCache o x pg d t) p).1 (exec (OCache o x pg d t) p).2.
Proof.
  cbn [exec]. rewrite unit_result. unfold CachePage, mbind, M_bind, gets. destruct (cache p !! x) as [i|] eqn:Hx.
  - destruct (cache_hit x i Hx) as (e & He & Hpid & Hent). cbn [fst snd mret M_ret]. apply nothing_ok; [done| |done].
    intros y. cbn. by rewrite Hent.
  - set (e := mkEntry x pg true 1 1 false d t true 0).
    apply (added_stepOk _ e); [done|by apply cache_miss| | |].
    + intros y. cbn. by rewrite (cache_miss x Hx).
    + intros err y. cbn. by rewrite (cache_miss x Hx).
    + by apply addEntry_spec; try done; apply cache_miss.
Qed.

Lemma prefetch_ok o x : stepOk mods (OPrefetch o x) p (exec (OPrefetch o x) p).1 (exec (OPrefetch o x) p).2.
Proof.
  assert (exec (OPrefetch o x) p =
    match disk p !! x with
    | Some d => if io_read o then (PrefetchInsert o x d;; mret None) p else (p, Err ErrRead)
    | None => (p, Err ErrRead)
    end) as ->.
  { cbn [exec]. unfold mbind at 1, M_bind at 1, ReadPage. destruct (disk p !! x); [by destruct (io_read o)|done]. }
  destruct (disk p !! x) as [pg|] eqn:Hd; [|by apply nothing_ok].
  destruct (io_read o); [|by apply nothing_ok]. rewrite unit_result. unfold PrefetchInsert, mbind, M_bind, gets.
  destruct (cache p !! x) as [i|] eqn:Hx; [by apply nothing_ok|].
  set (e := mkEntry x pg true 0 1 false [] [] false 0).
  apply (added_stepOk _ e); [done|by apply cache_miss| |done|].
  - intros y. cbn. case_bool_decide; [|done]. subst y. unfold view. by rewrite (cache_miss x Hx).
  - by apply addEntry_spec; try done; [by apply cache_miss].
Qed.

Lemma image_ok x : stepOk mods (OImage x) p (exec (OImage x) p).1 (exec (OImage x) p).2.
Proof.
  cbn [exec]. rewrite unit_result. unfold WritePreImage, mbind, M_bind, gets.
  destruct (cache p !! x) as [i|] eqn:Hx; [|by apply nothing_ok]. destruct (wal p) eqn:Hw; [|by apply nothing_ok].
  destruct (cache_hit x i Hx) as (e & He & Hpid & Hent). unfold entryAt. rewrite He.
  destruct (imageWritten e); [by apply nothing_ok|]. cbn [modify fst snd].
  apply (entry_stepOk mods (OImage x) p i e (withImage true e) Hi Hc He eq_refl eq_refl) with [EvImage x]; try done; cbn.
  - rewrite Hpid. apply (co_entry _ _ Hc _ _ Hent).
  - intros Hm. destruct (co_mods _ _ Hc _ Hm) as (e0 & He0 & Hp). rewrite Hpid, Hent in He0. by injection He0 as <-.
  - by right.
  - intros _ y. rewrite Hpid. by apply view_entry.
  - intros _ l1 y l2 E. destruct l1 as [|? [|]]; done.
Qed.

Lemma unpin_ok x d : legal mods p (OUnpin x d) → stepOk mods (OUnpin x d) p (exec (OUnpin x d) p).1 (exec (OUnpin x d) p).2.
Proof.
  intros Hl. cbn [exec]. rewrite unit_result. unfold UnpinPage, mbind, M_bind, gets.
  destruct (cache p !! x) as [i|] eqn:Hx.
  2: { apply nothing_ok; [|done|done]. pose proof (miss_mods x Hx). destruct d; [|done]. cbn. set_solver. }
  destruct (cache_hit x i Hx) as (e & He & Hpid & Hent). unfold entryAt. rewrite He. cbn [modify fst snd].
  set (e1 := withPin (pred (pinCnt e)) e). set (e' := if d then withDirty true (lastModifiedLSN e1) e1 else e1).
  apply (entry_stepOk mods (OUnpin x d) p i e e' Hi Hc He) with []; try done.
  - by destruct d.
  - by destruct d.
  - destruct d; [done|]. cbn. rewrite Hpid. apply (co_entry _ _ Hc _ _ Hent).
  - intros y Hy. destruct d; [|done]. cbn. rewrite Hpid in Hy. set_solver.
  - destruct d; cbn; [rewrite Hpid; set_solver|]. intros Hm. rewrite Hpid in Hm.
    destruct (Hl Hm) as (e0 & He0 & Hp). rewrite Hent in He0. injection He0 as <-. lia.
  - by left.
  - intros r y. cbn. rewrite Hpid. etrans; [by apply (view_entry x e y)|]. by destruct d.
  - apply walFirst_nil.
  - unfold setBuffer, withBuffers. by rewrite app_nil_r.
Qed.

Lemma unpinDirty_ok x lsn : stepOk mods (OUnpinDirty x lsn) p (exec (OUnpinDirty x lsn) p).1 (exec (OUnpinDirty x lsn) p).2.
Proof.
  cbn [exec]. rewrite unit_result. unfold UnpinPageDirty, mbind, M_bind, gets.
  destruct (cache p !! x) as [i|] eqn:Hx.
  2: { apply nothing_ok; [|done|done]. pose proof (miss_mods x Hx). cbn. set_solver. }
  destruct (cache_hit x i Hx) as (e & He & Hpid & Hent). unfold entryAt. rewrite He. cbn [modify fst snd].
  apply (entry_stepOk mods (OUnpinDirty x lsn) p i e (withDirty true lsn (withPin (pred (pinCnt e)) e)) Hi Hc He eq_refl eq_refl) with []; try done; cbn.
  - intros y Hy. rewrite Hpid in Hy. set_solver.
  - rewrite Hpid. set_solver.
  - by left.
  - intros _ y. rewrite Hpid. by apply view_entry.
  - apply walFirst_nil.
  - unfold setBuffer, withBuffers. by rewrite app_nil_r.
Qed.

Lemma modify_ok x d : legal mods p (OModify x d) → stepOk mods (OModify x d) p (exec (OModify x d) p).1 (exec (OModify x d) p).2.
Proof.
  intros (e & Hent & Hp). cbn [exec]. rewrite unit_result. unfold ModifyPage, mbind, M_bind, gets.
  destruct (entryOf_Some p x e Hi Hent) as (i & Hx & He & Hpid). rewrite Hx. unfold entryAt. rewrite He. cbn [modify fst snd].
  apply (entry_stepOk mods (OModify x d) p i e (withPage d e) Hi Hc He eq_refl eq_refl) with []; try done; cbn.
  - rewrite Hpid. set_solver.
  - intros y Hy. rewrite Hpid in Hy. set_solver.
  - by right.
  - intros _ y. by rewrite Hpid.
  - apply walFirst_nil.
  - unfold setBuffer, withBuffers. by rewrite app_nil_r.
Qed.

(** Pages dropped from the pool: what the users see of them is the disk again. *)
Lemma dropped_ok a (test : bufferEntry → bool) p' :
  poolInv p' → sameOutside p p' →
  (∀ x, entryOf p' x = match entryOf p x with Some e => if test e then None else Some e | None => None end) →
  (∀ x, x ∈ newMods a mods ↔ x ∈ mods ∧ ∀ e, entryOf p x = Some e → test e = false) →
  (∀ x e, entryOf p x = Some e → (0 < pinCnt e)%nat → test e = true → releases a x) →
  (∀ r y, effect a p r y = match entryOf p y with Some e => if test e then disk p !! y else view p y | None => view p y end) →
  stepOk mods a p p' (Ok None).
Proof.
  intros Hi' (C & W & D & E) Hx Hm Hrel Heff. split; [done|done| |done| | |].
  - split.
    + intros x e. rewrite Hx, D. destruct (entryOf p x) as [e0|] eqn:E0; [|done]. destruct (test e0) eqn:Et; [done|]. intros [= <-].
      destruct (co_entry _ _ Hc x e0 E0) as [Hh Hd]. split; [done|]. intros Hcl Hnm. apply Hd; [done|]. intros Hin. apply Hnm, Hm.
      split; [done|]. intros e [= <-]%(eq_trans (eq_sym E0)). done.
    + intros x [Hin Ht]%Hm. destruct (co_mods _ _ Hc x Hin) as (e & He & Hp). exists e. by rewrite Hx, He, (Ht e He).
  - intros y. rewrite Heff. unfold view. rewrite Hx, D. destruct (entryOf p y) as [e|]; [|done]. by destruct (test e).
  - intros x e He Hp Hnr. exists e. rewrite Hx, He. destruct (test e) eqn:Et; [|done]. by destruct Hnr; apply (Hrel x e).
  - exists []. split; [by rewrite app_nil_r|apply walFirst_nil].
Qed.

Lemma unpinned_mods x e : entryOf p x = Some e → (0 <? pinCnt e)%nat = false → x ∉ mods.
Proof.
  intros He Hp Hin. destruct (co_mods _ _ Hc x Hin) as (e0 & He0 & Hp0). rewrite He in He0. injection He0 as <-.
  apply Nat.ltb_ge in Hp. lia.
Qed.

Lemma entry_pid x e : entryOf p x = Some e → pid e = x.
Proof. intros H. by destruct (entryOf_Some p x e Hi H) as (_ & _ & _ & ?). Qed.

Lemma invalidate_ok x : stepOk mods (OInvalidate x) p (exec (OInvalidate x) p).1 (exec (OInvalidate x) p).2.
Proof.
  cbn [exec]. rewrite unit_result. unfold InvalidatePage, mbind, M_bind, gets.
  destruct (cache p !! x) as [i|] eqn:Hx.
  2: { apply nothing_ok; [done| |done]. intros y. cbn [effect]. case_bool_decide; [|done]. subst y. by rewrite (cache_miss x Hx). }
  destruct (cache_hit x i Hx) as (e & He & Hpid & Hent). unfold entryAt. rewrite He. destruct (0 <? pinCnt e)%nat eqn:Hp.
  { apply nothing_ok; [done| |done]. intros y. cbn [effect]. case_bool_decide; [|done]. subst y. by rewrite Hent, Hp. }
  cbn [modify fst snd]. apply (dropped_ok _ (λ e0, bool_decide (pid e0 = x))).
  - rewrite <- Hpid. by apply release_inv.
  - done.
  - intros y. rewrite <- Hpid, (release_entryOf p i e) by done. destruct (entryOf p y) as [e0|] eqn:E0; [|by case_bool_decide].
    by rewrite (entry_pid y e0 E0).
  - intros y. cbn. split; [|tauto]. intros Hy. split; [done|]. intros e0 E0.
    apply bool_decide_eq_false_2. rewrite (entry_pid y e0 E0). intros ->. by apply (unpinned_mods x e Hent Hp).
  - intros y e0 E0 Hp0 Hy%bool_decide_eq_true. rewrite (entry_pid y e0 E0) in Hy. subst y.
    rewrite Hent in E0. injection E0 as <-. apply Nat.ltb_ge in Hp. lia.
  - intros r y. cbn [effect]. case_bool_decide as Hy.
    + subst y. rewrite Hent, Hp. by rewrite bool_decide_eq_true_2.
    + destruct (entryOf p y) as [e0|] eqn:E0; [|done]. rewrite (entry_pid y e0 E0).
      by rewrite bool_decide_eq_false_2.
Qed.

Lemma invalidateTable_ok t :
  stepOk mods (OInvalidateTable t) p (exec (OInvalidateTable t) p).1 (exec (OInvalidateTable t) p).2.
Proof.
  cbn [exec]. rewrite unit_result. unfold InvalidateTable.
  set (test := λ e, (TableID (pid e) =? t) && (pinCnt e =? 0)%nat).
  pose proof (drop_pool test p Hi) as Hd. unfold test at 1 in Hd. destruct (forAll _ p) as [p' [u|err|]]; [|done..].
  destruct Hd as (Hi' & Hs & Hx). cbn [fst snd]. apply (dropped_ok _ test); [done|done|done| | |].
  - intros y. cbn. split; [|tauto]. intros Hy. split; [done|]. intros e E0. unfold test.
    destruct (co_mods _ _ Hc y Hy) as (e0 & He0 & Hp0). rewrite E0 in He0. injection He0 as <-.
    rewrite (proj2 (Nat.eqb_neq (pinCnt e) 0)) by lia. by rewrite andb_false_r.
  - intros y e E0 Hp [_ Hz%Nat.eqb_eq]%andb_true_iff. lia.
  - intros r y. cbn [effect]. destruct (entryOf p y) as [e|] eqn:E0; [|done]. unfold test. by rewrite (entry_pid y e E0).
Qed.

Lemma invalidateForce_ok t :
  stepOk mods (OInvalidateForce t) p (exec (OInvalidateForce t) p).1 (exec (OInvalidateForce t) p).2.
Proof.
  cbn [exec]. rewrite unit_result. unfold InvalidateTableForce.
  set (test := λ e, TableID (pid e) =? t).
  pose proof (drop_pool test p Hi) as Hd. unfold test at 1 in Hd. destruct (forAll _ p) as [p' [u|err|]]; [|done..].
  destruct Hd as (Hi' & Hs & Hx). cbn [fst snd]. apply (dropped_ok _ test); [done|done|done| | |]; unfold test.
  - intros y. cbn. rewrite elem_of_filter. split; intros [H1 H2].
    + split; [done|]. intros e E0. rewrite (entry_pid y e E0). by apply Z.eqb_neq.
    + split; [|done]. destruct (co_mods _ _ Hc y H1) as (e0 & He0 & _). specialize (H2 e0 He0). rewrite (entry_pid y e0 He0) in H2. by apply Z.eqb_neq.
  - intros y e E0 _ Ht%Z.eqb_eq. cbn. by rewrite (entry_pid y e E0) in Ht.
  - intros r y. cbn [effect]. unfold view. destruct (entryOf p y) as [e|] eqn:E0; [by rewrite (entry_pid y e E0)|]. by destruct (TableID y =? t).
Qed.

Lemma settled_unit_ok a (m : PoolM unit) :
  newMods a mods = mods → (∀ r y, effect a p r y = view p y) → settled mods p (m p) →
  stepOk mods a p ((m;; mret (None : option bytes)) p).1 ((m;; mret (None : option bytes)) p).2.
Proof.
  intros Hm He Hs. rewrite unit_result. cbn [fst snd]. apply (settled_stepOk mods a p (m p)); [done|apply He| |done].
  destruct Hs as [_ Hnp]. by destruct ((m p).2).
Qed.

Lemma flushAll_ok o : stepOk mods (OFlushAll o) p (exec (OFlushAll o) p).1 (exec (OFlushAll o) p).2.
Proof. apply settled_unit_ok; [done|done|]. apply flush_pool; [|done|done]. by intros e [? _]%andb_true_iff. Qed.

Lemma flushUpTo_ok o lsn : stepOk mods (OFlushUpTo o lsn) p (exec (OFlushUpTo o lsn) p).1 (exec (OFlushUpTo o lsn) p).2.
Proof.
  apply settled_unit_ok; [done|done|].
  apply (flush_pool mods o (λ e, dirty e && (lastModifiedLSN e <=? lsn) && hf e)); [|done|done].
  by intros e [[? _]%andb_true_iff _]%andb_true_iff.
Qed.

Lemma flushPage_ok o x : stepOk mods (OFlushPage o x) p (exec (OFlushPage o x) p).1 (exec (OFlushPage o x) p).2.
Proof.
  apply settled_unit_ok; [done|done|].
  unfold FlushPage, mbind at 1, M_bind at 1, gets. destruct (cache p !! x) as [i|] eqn:Hx; [|by apply settled_ret].
  destruct (cache_hit x i Hx) as (e & He & Hpid & Hent). unfold mbind at 1, M_bind at 1, bufferAt. rewrite He. cbn [must].
  destruct (dirty e) eqn:Hd; [|by apply settled_ret]. destruct (0 <? pinCnt e)%nat; [by apply settled_ret|]. cbn [negb].
  rewrite (proj1 (co_entry _ _ Hc x e Hent)). pose proof (flushWal_spec mods o p Hi Hc) as Hf.
  unfold mbind, M_bind. destruct (flushWal o p) as [q [[]|err|]] eqn:Ef; [|subst q; by apply settled_ret|done].
  assert (buffers q = buffers p) as Hb.
  { revert Ef. unfold flushWal, mbind, M_bind, gets. destruct (wal p); [|by intros [= <-]].
    unfold walFlush. destruct (io_flush o); [|done]. by intros [= <-]. }
  rewrite <- Hb in He. pose proof (write_clean mods o p q i e Hf He Hd) as Hwc. unfold mbind, M_bind in Hwc.
  rewrite Hpid in Hwc. destruct (WritePage o x (page e) q) as [q' [[]|err|]]; [|by apply ready_settled|done].
  apply ready_settled; [apply Hwc|done].
Qed.

Lemma exec_ok a : legal mods p a → stepOk mods a p (exec a p).1 (exec a p).2.
Proof.
  destruct a; intros Hl; auto using cache_ok, prefetch_ok, image_ok, unpin_ok, unpinDirty_ok, modify_ok, invalidate_ok,
    invalidateTable_ok, invalidateForce_ok, flushAll_ok, flushUpTo_ok, flushPage_ok.
  apply fetch_ok.
Qed.
End Exec.

(** ** Use counts *)

Definition usageOk (e : bufferEntry) : Prop := 0 <= usageCount e <= maxUsageCount.
Definition usagesOk (p : BufferPool) : Prop := ∀ i e, buffers p !! i = Some (Some e) → usageOk e.

(** [m] keeps the use counts in range and returns values in [Q]. *)
Definition keeps {A} (Q : A → Prop) (m : PoolM A) : Prop :=
  ∀ p, usagesOk p → usagesOk (m p).1 ∧ ∀ a, (m p).2 = Ok a → Q a.

Lemma keeps_bind {A B} (Q : A → Prop) (R : B → Prop) (m : PoolM A) (f : A → PoolM B) :
  keeps Q m → (∀ a, Q a → keeps R (f a)) → keeps R (m ≫= f).
Proof.
  intros Hm Hf p Hp. unfold mbind, M_bind. specialize (Hm p Hp). destruct (m p) as [q [a|e|]]; cbn [fst snd] in *; [|by destruct Hm..].
  destruct Hm as [Hq Ha]. apply (Hf a); auto.
Qed.

Lemma keeps_ret {A} (Q : A → Prop) a : Q a → keeps Q (mret a).
Proof. intros Ha p Hp. split; [done|]. by intros b [= <-]. Qed.

Lemma keeps_throw {A} (Q : A → Prop) e : keeps Q (throw e).
Proof. by intros p Hp. Qed.

Lemma keeps_gets {A} (f : BufferPool → A) : keeps (λ _, True) (gets f).
Proof. by intros p Hp. Qed.

Lemma keeps_modify (f : BufferPool → BufferPool) : (∀ p, usagesOk p → usagesOk (f p)) → keeps (λ _, True) (modify f).
Proof. intros H p Hp. split; [by apply H|done]. Qed.

Lemma usages_insert p i (b : option bufferEntry) : usagesOk p → (∀ e, b = Some e → usageOk e) → usagesOk (withBuffers (<[i := b]> (buffers p)) p).
Proof. intros Hp Hb j e. cbn. intros [(_ & -> & _)|[_ H]]%list_lookup_insert_Some; [by apply Hb|by apply (Hp j)]. Qed.

Lemma keeps_setBuffer i e : usageOk e → keeps (λ _, True) (modify (setBuffer i e)).
Proof. intros He. apply keeps_modify. intros p Hp. apply usages_insert; [done|]. by intros e' [= <-]. Qed.

Lemma keeps_release i x : keeps (λ _, True) (modify (release i x)).
Proof. apply keeps_modify. intros p Hp. by apply (usages_insert p i None Hp). Qed.

Lemma keeps_entryAt i : keeps usageOk (entryAt i).
Proof.
  intros p Hp. unfold entryAt. destruct (buffers p !! i) as [[e|]|] eqn:E; [|done..]. split; [done|]. intros e' [= <-]. by apply (Hp i).
Qed.

Lemma keeps_bufferAt i : keeps (λ b, ∀ e, b = Some e → usageOk e) (bufferAt i).
Proof.
  intros p Hp. unfold bufferAt, must. destruct (buffers p !! i) as [b|] eqn:E; [|done]. split; [done|]. intros b' [= <-] e ->. by apply (Hp i).
Qed.

Lemma keeps_WritePage o x d : keeps (λ _, True) (WritePage o x d).
Proof. intros p Hp. unfold WritePage. by destruct (io_write o x). Qed.

Lemma keeps_walFlush o : keeps (λ _, True) (walFlush o).
Proof. intros p Hp. unfold walFlush. by destruct (io_flush o). Qed.

Lemma keeps_ReadPage o x : keeps (λ _, True) (ReadPage o x).
Proof. intros p Hp. unfold ReadPage. destruct (disk p !! x), (io_read o); done. Qed.

Lemma keeps_findEmptySlot : keeps (λ _, True) findEmptySlot.
Proof. intros p Hp. unfold findEmptySlot. destruct (last (freeSlots p)); [done|]. by destruct (firstEmpty 0 (buffers p)). Qed.

Lemma keeps_insertEntry i e : usageOk e → keeps (λ _, True) (insertEntry i e).
Proof.
  intros He p Hp. unfold insertEntry, update. case_match; [|done]. case_match; [|done]. simplify_eq/=. split; [|done].
  apply (usages_insert p i (Some e) Hp). by intros e' [= <-].
Qed.

(** The hint database of the bound on use counts. *)
Create HintDb usage.
#[export] Hint Resolve keeps_ret keeps_throw keeps_gets keeps_setBuffer keeps_release keeps_entryAt keeps_bufferAt
  keeps_WritePage keeps_walFlush keeps_ReadPage keeps_findEmptySlot keeps_insertEntry : usage.

(** One step into a computation. *)
Ltac keep :=
  match goal with
  | H : ∀ e, Some ?b = Some e → usageOk e |- _ => specialize (H b eq_refl)
  | |- keeps _ (mbind _ _) => eapply keeps_bind; [|intros ? ?]
  | |- keeps _ (if ?b then _ else _) => destruct b eqn:?
  | |- keeps _ (match ?b with _ => _ end) => destruct b eqn:?
  | |- keeps _ _ => solve [eauto with usage]
  end.

Lemma keeps_evictLoop o n flushed failed : keeps (λ _, True) (evictLoop o n flushed failed).
Proof.
  revert flushed failed. induction n as [|n IH]; intros flushed failed; cbn [evictLoop]; [repeat keep|].
  apply keeps_bind with (λ _, True); [by apply keeps_gets|]. intros idx _.
  apply keeps_bind with (λ _, True); [by apply keeps_modify|]. intros _ _.
  eapply keeps_bind; [apply keeps_bufferAt|]. intros [buf|] Hb; [|by apply keeps_ret]. specialize (Hb buf eq_refl).
  destruct (0 <? pinCnt buf)%nat; [apply IH|]. destruct (Z.ltb_spec 0 (usageCount buf)).
  { eapply keeps_bind; [apply keeps_setBuffer|intros _ _; apply IH]. unfold usageOk in *. cbn. lia. }
  repeat first [apply IH | keep].
Qed.

Lemma keeps_evict o : keeps (λ _, True) (evict o).
Proof. intros p Hp. by apply keeps_evictLoop. Qed.

Lemma keeps_evictWhileFull o n : keeps (λ _, True) (evictWhileFull o n).
Proof.
  induction n as [|n IH]; cbn [evictWhileFull]; [by intros p Hp|]. eapply keeps_bind; [apply keeps_gets|]. intros full _.
  destruct full; [|by apply keeps_ret]. eapply keeps_bind; [apply keeps_evict|by intros].
Qed.

Lemma keeps_addEntry o e : usageOk e → keeps (λ _, True) (addEntry o e).
Proof.
  intros He p Hp. unfold addEntry. eapply keeps_bind; [apply keeps_evictWhileFull| |done]. intros _ _. repeat keep.
Qed.

Lemma keeps_forSlots n i f : (∀ j e, usageOk e → keeps (λ _, True) (f j e)) → keeps (λ _, True) (forSlots n i f).
Proof.
  intros Hf. revert i. induction n as [|n IH]; intros i; cbn [forSlots]; [by apply keeps_ret|].
  eapply keeps_bind; [apply keeps_bufferAt|]. intros b Hb. eapply (keeps_bind (λ _, True)); [|by intros].
  destruct b as [e|]; [by apply Hf, Hb|by apply keeps_ret].
Qed.

Lemma keeps_forAll f : (∀ j e, usageOk e → keeps (λ _, True) (f j e)) → keeps (λ _, True) (forAll f).
Proof. intros Hf p Hp. by apply keeps_forSlots. Qed.

Lemma keeps_flushWal o : keeps (λ _, True) (flushWal o).
Proof. unfold flushWal. repeat keep. Qed.

#[export] Hint Resolve keeps_addEntry keeps_flushWal keeps_forAll : usage.

Lemma usageOk_Reference e : usageOk e → usageOk (Reference e).
Proof. unfold usageOk, Reference, maxUsageCount. cbn. destruct (Z.ltb_spec (usageCount e) 5); lia. Qed.

Lemma usageOk_one x pg n d t b : usageOk (mkEntry x pg true n 1 false d t b 0).
Proof. unfold usageOk, maxUsageCount. cbn. lia. Qed.

#[export] Hint Resolve usageOk_Reference usageOk_one : usage.

Lemma keeps_modifySame f : (∀ p, buffers (f p) = buffers p) → keeps (λ _, True) (modify f).
Proof. intros H. apply keeps_modify. intros p Hp i e. rewrite H. apply Hp. Qed.

#[export] Hint Extern 2 (usageOk (withPin _ _)) => (unfold usageOk in *; cbn; assumption) : usage.
#[export] Hint Extern 2 (usageOk (withDirty _ _ _)) => (unfold usageOk in *; cbn; assumption) : usage.
#[export] Hint Extern 2 (usageOk (withImage _ _)) => (unfold usageOk in *; cbn; assumption) : usage.
#[export] Hint Extern 2 (usageOk (withPage _ _)) => (unfold usageOk in *; cbn; assumption) : usage.
#[export] Hint Extern 2 (usageOk (if ?b then _ else _)) => (destruct b; unfold usageOk in *; cbn; assumption) : usage.
#[export] Hint Resolve keeps_modifySame : usage.

Lemma keeps_flushEntry o i e : usageOk e → keeps (λ _, True) (flushEntry o i e).
Proof. intros He. unfold flushEntry. repeat keep. Qed.

#[export] Hint Resolve keeps_flushEntry : usage.

Lemma keeps_exec a : keeps (λ _, True) (exec a).
Proof.
  destruct a; cbn [exec].
  all: unfold FetchPage, CachePage, WritePreImage, UnpinPage, UnpinPageDirty, InvalidatePage, InvalidateTable,
    InvalidateTableForce, FlushAll, FlushDirtyPagesUpToLSN, FlushPage, PrefetchInsert, ModifyPage.
  all: repeat first [keep | apply keeps_forAll; intros ? ? ?].
Qed.

(** ** The pool *)

(** The reachable states with the pages changed and not yet released. *)
Inductive poolRun (cap : Z) (w : bool) (d : gmap PageID bytes) : gset PageID → BufferPool → Prop :=
| run_new : poolRun cap w d ∅ (NewBufferPool cap w d)
| run_op mods p a : poolRun cap w d mods p → legal mods p a → poolRun cap w d (newMods a mods) (exec a p).1.

Definition poolCapacity (cap : Z) : nat := Z.to_nat (if cap <=? 0 then defaultBufferPoolCapacity else cap).

Lemma NewBufferPool_inv cap w d : poolInv (NewBufferPool cap w d).
Proof.
  unfold NewBufferPool. fold (poolCapacity cap).
  assert (0 < poolCapacity cap)%nat as Hpos.
  { unfold poolCapacity, defaultBufferPoolCapacity. destruct (Z.leb_spec cap 0); lia. }
  generalize dependent (poolCapacity cap). intros n Hn. split; cbn.
  - by rewrite length_replicate.
  - done.
  - intros x i. rewrite lookup_empty. split; [done|]. by intros (e & [? _]%lookup_replicate & _).
  - intros i. rewrite list_elem_of_fmap, lookup_replicate. split.
    + intros (j & -> & Hj%elem_of_seq). split; [done|lia].
    + intros [_ Hi]. exists (n - 1 - i)%nat. rewrite elem_of_seq. lia.
  - apply NoDup_fmap_2_strong; [|apply NoDup_seq]. intros i j Hi%elem_of_seq Hj%elem_of_seq. lia.
  - by rewrite length_fmap, length_seq.
Qed.

Lemma NewBufferPool_entry cap w d x : entryOf (NewBufferPool cap w d) x = None.
Proof. unfold entryOf. cbn. by rewrite lookup_empty. Qed.

Lemma poolRun_inv cap w d mods p :
  poolRun cap w d mods p → poolInv p ∧ coherent mods p ∧ usagesOk p ∧ capacity p = poolCapacity cap ∧ wal p = w.
Proof.
  induction 1 as [|mods p a _ (Hi & Hc & Hu & C & W) Hl].
  - split_and!; [apply NewBufferPool_inv| | |done|done].
    + split; [intros x e; by rewrite NewBufferPool_entry|intros x; set_solver].
    + intros i e [? _]%lookup_replicate. done.
  - destruct (exec_ok mods p Hi Hc a Hl) as [_ Hi' Hc' [C' W'] _ _ _]. split_and!; [done|done|by apply keeps_exec|congruence|congruence].
Qed.

(** The map has one entry for each occupied slot. *)
Lemma pool_size p : poolInv p → size (cache p) = count p.
Proof.
  intros [H1 H2 H3 H4 H5 H6].
  set (occ := (map_to_list (cache p)).*2).
  assert (NoDup occ) as Hnd.
  { apply NoDup_fmap_2_strong; [|apply NoDup_map_to_list]. intros [x i] [y j] Hx%elem_of_map_to_list Hy%elem_of_map_to_list.
    cbn. intros <-. apply H3 in Hx as (e & He & <-), Hy as (e' & He' & <-). congruence. }
  assert (∀ i, i ∈ occ ↔ ∃ e, buffers p !! i = Some (Some e)) as Hocc.
  { intros i. unfold occ. rewrite list_elem_of_fmap. split.
    - intros ([x j] & -> & Hx%elem_of_map_to_list). apply H3 in Hx as (e & He & _). by exists e.
    - intros (e & He). exists (pid e, i). split; [done|]. apply elem_of_map_to_list, H3. by exists e. }
  assert (occ ++ freeSlots p ≡ₚ seq 0 (capacity p)) as Hp.
  { apply NoDup_Permutation.
    - apply NoDup_app. split_and!; [done| |done]. intros i (e & He)%Hocc Hf%H4. congruence.
    - apply NoDup_seq.
    - intros i. rewrite elem_of_app, Hocc, H4, elem_of_seq, <- H1. split.
      + intros [(e & He)|He]; apply lookup_lt_Some in He; lia.
      + intros [_ Hi]. destruct (lookup_lt_is_Some_2 (buffers p) i ltac:(lia)) as [[e|] He]; [left; by exists e|by right]. }
  apply Permutation_length in Hp. rewrite length_app, length_seq in Hp. unfold occ in Hp.
  rewrite length_fmap, length_map_to_list in Hp. lia.
Qed.


(** C34: the bounds of the pool. In every reachable state the pool holds at most
    its capacity of pages, the map, the count and the array agree on how many,
    the clock hand is a slot, and every use count is between 0 and 5. *)
Theorem pool_bounds cap w d mods p :
  poolRun cap w d mods p →
  size (cache p) = count p ∧ (count p ≤ poolCapacity cap)%nat ∧ length (buffers p) = poolCapacity cap ∧
  (clockHand p < poolCapacity cap)%nat ∧
  (∀ x i, cache p !! x = Some i → (i < poolCapacity cap)%nat) ∧
  ∀ x e, entryOf p x = Some e → 0 <= usageCount e <= maxUsageCount.
Proof.
  intros (Hi & _ & Hu & C & _)%poolRun_inv. rewrite <- C. split_and!.
  - by apply pool_size.
  - pose proof (pi_count _ Hi). lia.
  - apply Hi.
  - apply Hi.
  - intros x i (e & He & _)%(pi_cache _ Hi). rewrite <- (pi_length _ Hi). by eapply lookup_lt_Some.
  - intros x e (i & _ & He & _)%(entryOf_Some p x e Hi). by apply (Hu i e).
Qed.

(** ** A pool of one page *)

Definition pageX : PageID := mkPageID 1 0 0.
Definition pageY : PageID := mkPageID 1 0 1.
Definition exDisk : gmap PageID bytes := {[ pageX := [Byte.x00]; pageY := [Byte.x01] ]}.
Definition fine : io := mkIo true true (λ _, None).

Definition runOps (l : list op) (p : BufferPool) : BufferPool := foldl (λ p a, (exec a p).1) p l.

(** [pageX] changed and released. *)
Definition exOps : list op := [OFetch fine pageX [] []; OModify pageX [Byte.x02]; OUnpinDirty pageX 7].
Definition exPool : BufferPool := runOps exOps (NewBufferPool 1 true exDisk).

Lemma exPool_run : ∃ mods, poolRun 1 true exDisk mods exPool.
Proof.
  eexists. unfold exPool, exOps, runOps. cbn [foldl]. apply run_op; [|done]. apply run_op.
  - apply run_op; [apply run_new|done].
  - exists (mkEntry pageX [Byte.x00] true 1 1 false [] [] false 0). split; [vm_compute; reflexivity|cbn; lia].
Qed.


Lemma pool_bounds_witness : size (cache exPool) = count exPool ∧ count exPool = 1%nat.
Proof.
  assert (∃ mods, poolRun 1 true exDisk mods exPool) as [mods Hr] by exact exPool_run.
  split; [exact (proj1 (pool_bounds 1 true exDisk mods exPool Hr))|]. vm_compute. reflexivity.
Defined.

(** The eviction of a changed page flushes the log, writes the page and brings
    the other one in; the changed page then reads back as it was left. *)
Example evict_dirty :
  let p := runOps [OFetch fine pageY [] []; OUnpin pageY false] exPool in
  events p = [EvFlush; EvWrite pageX] ∧ (exec (OFetch fine pageX [] []) p).2 = Ok (Some [Byte.x02]).
Proof. vm_compute. done. Qed.

(** [evict] gives up after two rounds of the clock although a use count may be
    five: a page used twice cannot be evicted by the first fetch that needs room, which
    reports that all pages are pinned when none is. *)
Example evict_gives_up :
  let p := runOps [OFetch fine pageX [] []; OUnpin pageX false; OFetch fine pageX [] []; OUnpin pageX false]
             (NewBufferPool 1 true exDisk) in
  (∀ e, entryOf p pageX = Some e → pinCnt e = O) ∧
  (exec (OFetch fine pageY [] []) p).2 = Err ErrAllPinned.
Proof. split; [|vm_compute; reflexivity]. intros e. vm_compute. by intros [= <-]. Qed.

(** A new page for which there is no room is dropped without an error. *)
Example CachePage_drops :
  let p := runOps [OFetch fine pageX [] []] (NewBufferPool 1 true exDisk) in
  let p' := (exec (OCache fine (mkPageID 1 0 2) [Byte.x09] [] []) p).1 in
  view p' (mkPageID 1 0 2) = None.
Proof. vm_compute. done. Qed.

(** [PrefetchPages] reads without the lock: a page that was changed and evicted
    between its read and its insertion is replaced by the old contents. *)
Example Prefetch_stale :
  let old := [Byte.x00] in
  let p := runOps [OFetch fine pageY [] []; OUnpin pageY false] exPool in
  let p' := (PrefetchInsert fine pageX old p).1 in
  view p pageX = Some [Byte.x02] ∧ view p' pageX = Some [Byte.x00].
Proof. vm_compute. done. Qed.

(** [FlushAll] does not look at the pins: a dirty page that a user is changing
    goes to disk before the user has logged the change. *)
Example FlushAll_writes_pinned :
  let p := runOps [OFetch fine pageX [] []; OModify pageX [Byte.x03]; OFlushAll fine] exPool in
  disk p !! pageX = Some [Byte.x03].
Proof. vm_compute. done. Qed.
