(* ===== verification/Joins.v ===== *)
(** * Joins

    [server/internal/core/executor/commands/sel/joins.go] with the row pool of
    [storage/pool.go] and [types.ValueToString]: the loop over the joins of a
    statement, the nested loops of each kind of join, and the hash joins tried
    first when the condition equates two columns.  [types.EvalExpr] is a
    parameter, instantiated in the theorems with the evaluator of [Eval]; the
    tables are read through a class of their own. *)

From S2P Require Import Prelude Bytes Strconv RowCodec Float64 Eval Vm.

Abbreviation row := (list iface) (only parsing).

Inductive join_error : Type := ErrNoTable | ErrSchema | ErrRows.
Abbreviation jres := (outcome join_error).

(** ** Keys *)

Section Keys.
(** [strconv.FormatFloat(v, 'g', -1, 64)] and [fmt.Sprintf] of the other types. *)
Context (FormatFloat : float64 → bytes) (sprintV : Value → bytes).

Definition ValueToString (value : iface) : bytes :=
  match value with
  | INil => []
  | IString v => v
  | IBool v => if v then str "true" else str "false"
  | IInt v => FormatInt v
  | IFloat v => FormatFloat v
  | IOther v => sprintV v
  end.

(** Rows grouped by their key, from index [i] on. *)
Fixpoint buildHash (i : nat) (rows : list row) (colIdx : nat) (hash : gmap bytes (list nat)) : gmap bytes (list nat) :=
  match rows with
  | [] => hash
  | r :: rows =>
      let hash :=
        match r !! colIdx with
        | Some v =>
            if isNil v then hash
            else <[ValueToString v := default [] (hash !! ValueToString v) ++ [i]]> hash
        | None => hash
        end in
      buildHash (S i) rows colIdx hash
  end.

Definition buildHashTable (rows : list row) (colIdx : nat) : gmap bytes (list nat) := buildHash 0 rows colIdx ∅.

(** ** Columns of an equi-join *)

Definition stripTablePrefix (name : bytes) : bytes :=
  match IndexDot name with Some idx => drop (S idx) name | None => name end.

Fixpoint findFrom (i : nat) (schema : TableSchema) (name : bytes) : option nat :=
  match schema with
  | [] => None
  | c :: schema => if bool_decide (c = name) then Some i else findFrom (S i) schema name
  end.

(** [-1] is [None]. *)
Definition findColumnIndex (schema : TableSchema) (name : bytes) : option nat := findFrom 0 schema name.

Definition extractEquiJoinCols (cond : Expression) (leftSchema rightSchema : TableSchema) : option (nat * nat) :=
  match cond with
  | EBinary (EColumnRef leftCol _) "=" (EColumnRef rightCol _) =>
      let leftName := stripTablePrefix leftCol in
      let rightName := stripTablePrefix rightCol in
      match findColumnIndex leftSchema leftName, findColumnIndex rightSchema rightName with
      | Some leftIdx, Some rightIdx => Some (leftIdx, rightIdx)
      | _, _ =>
          match findColumnIndex leftSchema rightName, findColumnIndex rightSchema leftName with
          | Some leftIdx, Some rightIdx => Some (leftIdx, rightIdx)
          | _, _ => None
          end
      end
  | _ => None
  end.

(** ** Hash joins *)

(** The rows of the bucket joined with [lrow]. *)
Fixpoint joinBucket (lrow : row) (rightRows : list row) (buckets : list nat) : jres (list row) :=
  match buckets with
  | [] => Ok []
  | ri :: buckets =>
      rrow ← must (rightRows !! ri);
      rest ← joinBucket lrow rightRows buckets;
      Ok ((lrow ++ rrow) :: rest)
  end.

Fixpoint hashInner (hash : gmap bytes (list nat)) (leftIdx : nat) (leftRows rightRows : list row) : jres (list row) :=
  match leftRows with
  | [] => Ok []
  | lrow :: leftRows =>
      v ← must (lrow !! leftIdx);
      here ← match hash !! ValueToString v with
             | Some buckets => joinBucket lrow rightRows buckets
             | None => Ok []
             end;
      rest ← hashInner hash leftIdx leftRows rightRows;
      Ok (here ++ rest)
  end.

(** [None]: not an equi-join. *)
Definition tryHashJoin (cond : Expression) (leftRows rightRows : list row) (leftSchema rightSchema : TableSchema)
    : option (jres (list row)) :=
  '(leftIdx, rightIdx) ← extractEquiJoinCols cond leftSchema rightSchema;
  Some (hashInner (buildHashTable rightRows rightIdx) leftIdx leftRows rightRows).

(** [storage.GetRowWithLen(n)], where the pool hands out a row whose array holds
    [pooled]. *)
Definition GetRowWithLen (pooled : row) (n : nat) : row :=
  if (length pooled <? n)%nat then replicate n INil else take n pooled.

Fixpoint hashLeft (hash : gmap bytes (list nat)) (leftIdx : nat) (rightNulls : row) (leftRows rightRows : list row)
    : jres (list row) :=
  match leftRows with
  | [] => Ok []
  | lrow :: leftRows =>
      v ← must (lrow !! leftIdx);
      here ← match hash !! ValueToString v with
             | Some buckets => joinBucket lrow rightRows buckets
             | None => Ok [lrow ++ rightNulls]
             end;
      rest ← hashLeft hash leftIdx rightNulls leftRows rightRows;
      Ok (here ++ rest)
  end.

Definition tryHashJoinLeft (pooled : row) (cond : Expression) (leftRows rightRows : list row)
    (leftSchema rightSchema : TableSchema) : option (jres (list row)) :=
  '(leftIdx, rightIdx) ← extractEquiJoinCols cond leftSchema rightSchema;
  Some (hashLeft (buildHashTable rightRows rightIdx) leftIdx (GetRowWithLen pooled (length rightSchema)) leftRows rightRows).

(** The indices [matched] collects while the left rows are joined. *)
Fixpoint hashMatched (hash : gmap bytes (list nat)) (leftIdx : nat) (leftRows : list row) (matched : gset nat) : gset nat :=
  match leftRows with
  | [] => matched
  | lrow :: leftRows =>
      let matched :=
        match lrow !! leftIdx with
        | Some v => match hash !! ValueToString v with Some buckets => matched ∪ list_to_set buckets | None => matched end
        | None => matched
        end in
      hashMatched hash leftIdx leftRows matched
  end.

(** The right rows from index [i] on that are not matched. *)
Fixpoint unmatchedRight (i : nat) (matched : gset nat) (leftNulls : row) (rightRows : list row) : list row :=
  match rightRows with
  | [] => []
  | rrow :: rightRows =>
      let rest := unmatchedRight (S i) matched leftNulls rightRows in
      if bool_decide (i ∈ matched) then rest else (leftNulls ++ rrow) :: rest
  end.

Definition tryHashJoinRight (pooled : row) (cond : Expression) (leftRows rightRows : list row)
    (leftSchema rightSchema : TableSchema) : option (jres (list row)) :=
  '(leftIdx, rightIdx) ← extractEquiJoinCols cond leftSchema rightSchema;
  let hash := buildHashTable rightRows rightIdx in
  Some (result ← hashInner hash leftIdx leftRows rightRows;
        Ok (result ++ unmatchedRight 0 (hashMatched hash leftIdx leftRows ∅)
                        (GetRowWithLen pooled (length leftSchema)) rightRows)).
End Keys.

(** ** Nested loops *)

Section Nested.
(** [types.EvalExpr(join.Condition, combinedBuf, combinedSchema, ctx)]. *)
Context (cond : row → eres bool).

(** [err == nil && ok]. *)
Definition accepts (combined : row) : jres bool :=
  match cond combined with Ok b => Ok b | Err _ => Ok false | Panic => Panic end.

(** The rows of the inner loop, with the flag [matched]. *)
Fixpoint innerLoop (combine : row → row) (rows : list row) : jres (list row * bool) :=
  match rows with
  | [] => Ok ([], false)
  | r :: rows =>
      ok ← accepts (combine r);
      '(rest, matched) ← innerLoop combine rows;
      Ok (if (ok : bool) then (combine r :: rest, true) else (rest, matched))
  end.

Fixpoint nestedInner (leftRows rightRows : list row) : jres (list row) :=
  match leftRows with
  | [] => Ok []
  | lrow :: leftRows =>
      '(here, _) ← innerLoop (λ rrow, lrow ++ rrow) rightRows;
      rest ← nestedInner leftRows rightRows;
      Ok (here ++ rest)
  end.

Fixpoint nestedLeft (rightNulls : row) (leftRows rightRows : list row) : jres (list row) :=
  match leftRows with
  | [] => Ok []
  | lrow :: leftRows =>
      '(here, matched) ← innerLoop (λ rrow, lrow ++ rrow) rightRows;
      rest ← nestedLeft rightNulls leftRows rightRows;
      Ok (here ++ (if (matched : bool) then [] else [lrow ++ rightNulls]) ++ rest)
  end.

Fixpoint nestedRight (leftNulls : row) (leftRows rightRows : list row) : jres (list row) :=
  match rightRows with
  | [] => Ok []
  | rrow :: rightRows =>
      '(here, matched) ← innerLoop (λ lrow, lrow ++ rrow) leftRows;
      rest ← nestedRight leftNulls leftRows rightRows;
      Ok (here ++ (if (matched : bool) then [] else [leftNulls ++ rrow]) ++ rest)
  end.

(** The inner loop of a full join, from index [ri] on, which also collects the
    indices that match. *)
Fixpoint fullLoop (lrow : row) (ri : nat) (rows : list row) (rightMatched : gset nat)
    : jres (list row * bool * gset nat) :=
  match rows with
  | [] => Ok ([], false, rightMatched)
  | rrow :: rows =>
      ok ← accepts (lrow ++ rrow);
      '(rest, lmatched, rightMatched) ← fullLoop lrow (S ri) rows (if (ok : bool) then {[ri]} ∪ rightMatched else rightMatched);
      Ok (if (ok : bool) then ((lrow ++ rrow) :: rest, true, rightMatched) else (rest, lmatched, rightMatched))
  end.

Fixpoint nestedFullLeft (rightNulls : row) (leftRows rightRows : list row) (rightMatched : gset nat)
    : jres (list row * gset nat) :=
  match leftRows with
  | [] => Ok ([], rightMatched)
  | lrow :: leftRows =>
      '(here, lmatched, rightMatched) ← fullLoop lrow 0 rightRows rightMatched;
      '(rest, rightMatched) ← nestedFullLeft rightNulls leftRows rightRows rightMatched;
      Ok (here ++ (if (lmatched : bool) then [] else [lrow ++ rightNulls]) ++ rest, rightMatched)
  end.

Definition nestedFull (leftNulls rightNulls : row) (leftRows rightRows : list row) : jres (list row) :=
  '(rows, rightMatched) ← nestedFullLeft rightNulls leftRows rightRows ∅;
  Ok (rows ++ unmatchedRight 0 rightMatched leftNulls rightRows).
End Nested.

Definition crossJoin (leftRows rightRows : list row) : list row :=
  lrow ← leftRows; rrow ← rightRows; [lrow ++ rrow].

(** ** The joins of a statement *)

Record JoinClause : Type := mkJoin { j_Type : string; TableName : bytes; Alias : bytes; Condition : Expression }.

(** A [*storage.TableSchema]: the name and the names of the columns. *)
Record tableSchema : Type := mkSchema { s_Name : bytes; s_Columns : TableSchema }.

(** What a join asks of the storage engine ([TableExists], [GetTableSchema],
    [ReadCurrentRows] with the changes of the transaction over it) and of the
    statistics ([GetTableSize], -1 for an unknown table). *)
Class Tables : Type := {
  TableExists : bytes → bool;
  GetTableSchema : bytes → option tableSchema;
  ReadCurrentRows : bytes → option (list row);
  GetTableSize : bytes → Z }.

Definition joinResult : bytes := str "JOIN_RESULT".

Definition qualify (table column : bytes) : bytes := table ++ dot :: column.

Definition combineSchemas (leftSchema rightSchema : tableSchema) : tableSchema :=
  let left_ := (λ c, if negb (containsDot c) && negb (bool_decide (s_Name leftSchema = joinResult))
                     then qualify (s_Name leftSchema) c else c) <$> s_Columns leftSchema in
  let right_ := qualify (s_Name rightSchema) <$> s_Columns rightSchema in
  mkSchema joinResult (left_ ++ right_).

Section Execute.
Context (FormatFloat : float64 → bytes) (sprintV : Value → bytes).
Context (EvalExpr : row → TableSchema → Expression → eres bool).

(** A hash join when there is a condition and it is an equi-join. *)
Definition hashOr (cond : Expression) (hash : option (jres (list row))) (nested : jres (list row)) : jres (list row) :=
  match cond with
  | ENil => nested
  | _ => match hash with Some r => r | None => nested end
  end.

Definition nulls (n : nat) : row := replicate n INil.

(** The cases of [switch join.Type]. *)
Inductive joinCase : Type := JCross | JInner | JLeft | JRight | JFull | JNone.

Definition joinCaseOf (joinType : string) : joinCase :=
  match joinType with
  | "CROSS" => JCross
  | "INNER" | EmptyString => JInner
  | "LEFT" => JLeft
  | "RIGHT" => JRight
  | "FULL" => JFull
  | _ => JNone
  end.

(** One join; [pooled] is the row the pool hands to a hash join. *)
Definition joinRows (pooled : row) (joinType : string) (cond : Expression) (leftSchema rightSchema : tableSchema)
    (leftRows rightRows : list row) : jres (list row) :=
  let lcols := s_Columns leftSchema in
  let rcols := s_Columns rightSchema in
  let test r := EvalExpr r (s_Columns (combineSchemas leftSchema rightSchema)) cond in
  match joinCaseOf joinType with
  | JCross => Ok (crossJoin leftRows rightRows)
  | JInner =>
      hashOr cond (tryHashJoin FormatFloat sprintV cond leftRows rightRows lcols rcols)
        (nestedInner test leftRows rightRows)
  | JLeft =>
      hashOr cond (tryHashJoinLeft FormatFloat sprintV pooled cond leftRows rightRows lcols rcols)
        (nestedLeft test (nulls (length rcols)) leftRows rightRows)
  | JRight =>
      hashOr cond (tryHashJoinRight FormatFloat sprintV pooled cond leftRows rightRows lcols rcols)
        (nestedRight test (nulls (length lcols)) leftRows rightRows)
  | JFull => nestedFull test (nulls (length lcols)) (nulls (length rcols)) leftRows rightRows
  | JNone => Ok []
  end.

Context `{!Tables}.

Definition tableSize (name : bytes) : Z :=
  let s := GetTableSize name in if s =? -1 then 2 ^ 63 - 1 else s.

(** [sort.SliceStable] by size. *)
Fixpoint insertJoin (j : JoinClause) (l : list JoinClause) : list JoinClause :=
  match l with
  | [] => [j]
  | k :: l' => if tableSize (TableName k) <? tableSize (TableName j) then k :: insertJoin j l' else j :: l
  end.

Definition sortJoins (l : list JoinClause) : list JoinClause := foldr insertJoin [] l.

Definition isInner (j : JoinClause) : bool :=
  match j_Type j with "INNER" | EmptyString => true | _ => false end.

Definition orderJoins (joins : list JoinClause) : list JoinClause :=
  if forallb isInner joins && (1 <? length joins)%nat then sortJoins joins else joins.

(** The loop; [pool k] is the pooled row of the [k]-th join. *)
Fixpoint runJoins (pool : nat → row) (k : nat) (joins : list JoinClause) (schema : tableSchema) (rows : list row)
    : jres (tableSchema * list row) :=
  match joins with
  | [] => Ok (schema, rows)
  | join :: joins =>
      if negb (TableExists (TableName join)) then Err ErrNoTable else
      match GetTableSchema (TableName join) with
      | None => Err ErrSchema
      | Some rightSchema =>
          let rightSchema := if bool_decide (Alias join = []) then rightSchema else mkSchema (Alias join) (s_Columns rightSchema) in
          match ReadCurrentRows (TableName join) with
          | None => Err ErrRows
          | Some rightRows =>
              newRows ← joinRows (pool k) (j_Type join) (Condition join) schema rightSchema rows rightRows;
              runJoins pool (S k) joins (combineSchemas schema rightSchema) newRows
          end
      end
  end.

Definition executeJoins (pool : nat → row) (joins : list JoinClause) (leftSchema : tableSchema) (leftRows : list row)
    : jres (tableSchema * list row) :=
  runJoins pool 0 (orderJoins joins) leftSchema leftRows.
End Execute.

(** ** Specification *)

Section Spec.
Context (m : row → row → bool).

Definition matchesOf (l : row) (R : list row) : list row := filter (λ r, m l r = true) R.

Definition specInner (L R : list row) : list row := l ← L; (λ r, l ++ r) <$> matchesOf l R.
Definition specLeftOnly (nr : nat) (L R : list row) : list row :=
  (λ l, l ++ nulls nr) <$> filter (λ l, existsb (m l) R = false) L.
Definition specRightOnly (nl : nat) (L R : list row) : list row :=
  (λ r, nulls nl ++ r) <$> filter (λ r, existsb (λ l, m l r) L = false) R.

(** The rows of a join as a multiset: the pairs that match, the rows of the side
    that is kept extended with nulls. *)
Definition joinSpec (joinType : string) (nl nr : nat) (L R : list row) : list row :=
  match joinCaseOf joinType with
  | JCross => crossJoin L R
  | JInner => specInner L R
  | JLeft => specInner L R ++ specLeftOnly nr L R
  | JRight => specInner L R ++ specRightOnly nl L R
  | JFull => specInner L R ++ specLeftOnly nr L R ++ specRightOnly nl L R
  | JNone => []
  end.
End Spec.

(** ** Lists *)

Lemma bind_app_perm {A B} (f g : A → list B) l : l ≫= (λ x, f x ++ g x) ≡ₚ (l ≫= f) ++ (l ≫= g).
Proof. induction l as [|x l IH]; [done|]. rewrite !bind_cons, IH. solve_Permutation. Qed.

Lemma bind_swap {A B C} (f : A → B → list C) l k :
  l ≫= (λ x, k ≫= λ y, f x y) ≡ₚ k ≫= (λ y, l ≫= λ x, f x y).
Proof.
  induction l as [|x l IH].
  - induction k as [|y k IHk]; [done|]. by rewrite bind_cons.
  - rewrite bind_cons, IH. symmetry. rewrite <- bind_app_perm. done.
Qed.

Lemma bind_ext_perm {A B} (f g : A → list B) l : (∀ x, x ∈ l → f x ≡ₚ g x) → l ≫= f ≡ₚ l ≫= g.
Proof.
  induction l as [|x l IH]; intros H; [done|]. rewrite !bind_cons. rewrite (H x) by left. rewrite IH; [done|].
  intros y Hy. apply H. by right.
Qed.

Lemma bind_ext_in {A B} (f g : A → list B) l : (∀ x, x ∈ l → f x = g x) → l ≫= f = l ≫= g.
Proof. induction l as [|x l IH]; intros H; [done|]. rewrite !bind_cons, (H x) by left. rewrite IH; [done|]. intros; apply H; by right. Qed.

Lemma bind_filter {A B} (b : A → bool) (h : A → B) l :
  l ≫= (λ x, if b x then [] else [h x]) = h <$> filter (λ x, b x = false) l.
Proof.
  induction l as [|x l IH]; [done|]. rewrite bind_cons, filter_cons, IH. destruct (b x); [by rewrite decide_False by done|].
  by rewrite decide_True by done.
Qed.

Lemma fmap_filter_bind {A B} (b : A → bool) (h : A → B) l :
  h <$> filter (λ x, b x = true) l = l ≫= (λ x, if b x then [h x] else []).
Proof.
  induction l as [|x l IH]; [done|]. rewrite bind_cons, filter_cons, <- IH. destruct (b x); [by rewrite decide_True by done|].
  by rewrite decide_False by done.
Qed.

Lemma specInner_swap m L R :
  (R ≫= λ r, (λ l, l ++ r) <$> filter (λ l, m l r = true) L) ≡ₚ specInner m L R.
Proof.
  unfold specInner, matchesOf.
  transitivity (R ≫= λ r, L ≫= λ l, if m l r then [l ++ r] else []).
  { apply bind_ext_perm. intros r _. by rewrite fmap_filter_bind. }
  rewrite bind_swap. apply bind_ext_perm. intros l _. by rewrite fmap_filter_bind.
Qed.

(** ** Nested loops *)

Section NestedSpec.
Context (test : row → eres bool) (m : row → row → bool) (L R : list row).
Context (Htest : ∀ l r, l ∈ L → r ∈ R → accepts test (l ++ r) = Ok (m l r)).

Lemma innerLoop_spec (f : row → row) (g : row → bool) rows :
  (∀ r, r ∈ rows → accepts test (f r) = Ok (g r)) →
  innerLoop test f rows = Ok (f <$> filter (λ r, g r = true) rows, existsb g rows).
Proof.
  induction rows as [|r rows IH]; intros H; [done|]. cbn [innerLoop]. rewrite H by left. cbn [mbind outcome_bind].
  rewrite IH by (intros; apply H; by right). cbn [existsb mbind outcome_bind]. rewrite filter_cons.
  destruct (g r); [by rewrite decide_True by done|by rewrite decide_False by done].
Qed.

Lemma nestedInner_spec L' : (∀ l, l ∈ L' → l ∈ L) → nestedInner test L' R = Ok (specInner m L' R).
Proof.
  induction L' as [|l L' IH]; intros Hsub; [done|]. cbn [nestedInner].
  rewrite (innerLoop_spec _ (m l)) by (intros r Hr; apply Htest; [apply Hsub; left|done]). cbn [mbind outcome_bind].
  rewrite IH by (intros; apply Hsub; by right). done.
Qed.

Lemma nestedLeft_spec nr L' : (∀ l, l ∈ L' → l ∈ L) →
  ∃ rows, nestedLeft test (nulls nr) L' R = Ok rows ∧ rows ≡ₚ specInner m L' R ++ specLeftOnly m nr L' R.
Proof.
  induction L' as [|l L' IH]; intros Hsub; [by exists []|]. cbn [nestedLeft].
  rewrite (innerLoop_spec _ (m l)) by (intros r Hr; apply Htest; [apply Hsub; left|done]). cbn [mbind outcome_bind].
  destruct IH as (rows & -> & Hp); [intros; apply Hsub; by right|]. cbn [mbind outcome_bind]. eexists. split; [done|]. rewrite Hp.
  unfold specInner, specLeftOnly, matchesOf. rewrite bind_cons, filter_cons.
  destruct (existsb (m l) R); [rewrite decide_False by done|rewrite decide_True by done]; rewrite ?fmap_cons; solve_Permutation.
Qed.

Lemma nestedRight_spec nl R' : (∀ r, r ∈ R' → r ∈ R) →
  ∃ rows, nestedRight test (nulls nl) L R' = Ok rows ∧ rows ≡ₚ specInner m L R' ++ specRightOnly m nl L R'.
Proof.
  intros Hsub. enough (∃ rows, nestedRight test (nulls nl) L R' = Ok rows ∧
    rows ≡ₚ (R' ≫= λ r, (λ l, l ++ r) <$> filter (λ l, m l r = true) L) ++ specRightOnly m nl L R') as (rows & H1 & H2).
  { exists rows. split; [done|]. by rewrite H2, specInner_swap. }
  induction R' as [|r R' IH]; [by exists []|]. cbn [nestedRight].
  rewrite (innerLoop_spec _ (λ l, m l r)) by (intros l Hl; apply Htest; [done|apply Hsub; left]). cbn [mbind outcome_bind].
  destruct IH as (rows & -> & Hp); [intros; apply Hsub; by right|]. cbn [mbind outcome_bind]. eexists. split; [done|]. rewrite Hp.
  unfold specRightOnly. rewrite bind_cons, filter_cons.
  destruct (existsb (λ l, m l r) L); [rewrite decide_False by done|rewrite decide_True by done]; rewrite ?fmap_cons; solve_Permutation.
Qed.

Lemma fullLoop_spec l ri rows M :
  (∀ r, r ∈ rows → accepts test (l ++ r) = Ok (m l r)) →
  ∃ M', fullLoop test l ri rows M = Ok ((λ r, l ++ r) <$> matchesOf m l rows, existsb (m l) rows, M') ∧
    ∀ k, k ∈ M' ↔ k ∈ M ∨ ∃ j r, k = (ri + j)%nat ∧ rows !! j = Some r ∧ m l r = true.
Proof.
  revert ri M. induction rows as [|r rows IH]; intros ri M H.
  { exists M. split; [done|]. intros k. split; [by left|]. by intros [?|(j & r & _ & ? & _)]. }
  cbn [fullLoop]. rewrite H by left. cbn [mbind outcome_bind].
  destruct (IH (S ri) (if m l r then {[ri]} ∪ M else M)) as (M' & -> & HM); [intros; apply H; by right|].
  cbn [mbind outcome_bind existsb]. unfold matchesOf. rewrite filter_cons. exists M'. split.
  { destruct (m l r); [by rewrite decide_True by done|by rewrite decide_False by done]. }
  intros k. rewrite HM. split.
  - intros [Hk|(j & r' & -> & Hj & Hr)]; [|right; exists (S j), r'; split; [lia|done]].
    destruct (m l r) eqn:E; [|by left]. apply elem_of_union in Hk as [->%elem_of_singleton|]; [|by left].
    right. exists O, r. split; [lia|done].
  - intros [Hk|([|j] & r' & -> & Hj & Hr)].
    + left. destruct (m l r); set_solver.
    + injection Hj as <-. left. rewrite Hr. apply elem_of_union_l, elem_of_singleton. lia.
    + right. exists j, r'. split; [lia|done].
Qed.

Lemma nestedFullLeft_spec nr L' M : (∀ l, l ∈ L' → l ∈ L) →
  ∃ rows M', nestedFullLeft test (nulls nr) L' R M = Ok (rows, M') ∧
    rows ≡ₚ specInner m L' R ++ specLeftOnly m nr L' R ∧
    ∀ k, k ∈ M' ↔ k ∈ M ∨ ∃ l r, l ∈ L' ∧ R !! k = Some r ∧ m l r = true.
Proof.
  revert M. induction L' as [|l L' IH]; intros M Hsub.
  { exists [], M. split_and!; [done|done|]. intros k. split; [by left|]. intros [?|(l & r & Hl & _)]; [done|]. by apply elem_of_nil in Hl. }
  cbn [nestedFullLeft].
  destruct (fullLoop_spec l 0 R M) as (M1 & -> & HM1); [intros r Hr; apply Htest; [apply Hsub; left|done]|].
  cbn [mbind outcome_bind]. destruct (IH M1) as (rows & M2 & -> & Hp & HM2); [intros; apply Hsub; by right|].
  cbn [mbind outcome_bind]. eexists _, M2. split_and!; [done| |].
  - rewrite Hp. unfold specInner, specLeftOnly. rewrite bind_cons, filter_cons.
    destruct (existsb (m l) R); [rewrite decide_False by done|rewrite decide_True by done]; rewrite ?fmap_cons; solve_Permutation.
  - intros k. rewrite HM2, HM1. split.
    + intros [[Hk|(j & r & -> & Hj & Hr)]|(l' & r & Hl & Hj & Hr)]; [by left|right; exists l, r; split; [left|done]|].
      right. exists l', r. split; [by right|done].
    + intros [Hk|(l' & r & [->|Hl]%elem_of_cons & Hj & Hr)]; [by do 2 left|left; right; by exists k, r|].
      right. by exists l', r.
Qed.
End NestedSpec.

Lemma unmatchedRight_spec i M (g : row → bool) leftNulls rows :
  (∀ j r, rows !! j = Some r → (i + j)%nat ∈ M ↔ g r = true) →
  unmatchedRight i M leftNulls rows = (λ r, leftNulls ++ r) <$> filter (λ r, g r = false) rows.
Proof.
  revert i. induction rows as [|r rows IH]; intros i H; [done|]. cbn [unmatchedRight]. rewrite IH.
  - rewrite filter_cons. specialize (H O r eq_refl). rewrite Nat.add_0_r in H. case_bool_decide as Hi.
    + apply H in Hi. by rewrite decide_False by congruence.
    + rewrite decide_True; [done|]. destruct (g r); [|done]. destruct Hi. by apply H.
  - intros j r' Hj. rewrite <- (H (S j) r' Hj). by rewrite Nat.add_succ_comm.
Qed.

Lemma existsb_left (m : row → row → bool) L r : existsb (λ l, m l r) L = true ↔ ∃ l, l ∈ L ∧ m l r = true.
Proof. rewrite existsb_exists. by setoid_rewrite list_elem_of_In. Qed.

Lemma nestedFull_spec test m L R nl nr :
  (∀ l r, l ∈ L → r ∈ R → accepts test (l ++ r) = Ok (m l r)) →
  ∃ rows, nestedFull test (nulls nl) (nulls nr) L R = Ok rows ∧
    rows ≡ₚ specInner m L R ++ specLeftOnly m nr L R ++ specRightOnly m nl L R.
Proof.
  intros Ht. unfold nestedFull.
  destruct (nestedFullLeft_spec test m L R Ht nr L ∅) as (rows & M & -> & Hp & HM); [done|]. cbn [mbind outcome_bind].
  eexists. split; [done|]. rewrite Hp, (unmatchedRight_spec 0 M (λ r, existsb (λ l, m l r) L)).
  - unfold specRightOnly. by rewrite <- app_assoc.
  - intros j r Hj. cbn. rewrite HM, existsb_left. split.
    + intros [?|(l & r' & Hl & Hr' & Hm)]; [set_solver|]. rewrite Hj in Hr'. injection Hr' as <-. by exists l.
    + intros (l & Hl & Hm). right. by exists l, r.
Qed.

(** ** Hash joins *)

Section HashSpec.
Context (FormatFloat : float64 → bytes) (sprintV : Value → bytes).

Abbreviation key := (ValueToString FormatFloat sprintV).

(** A right row the table has under [k]. *)
Definition hasKey (colIdx : nat) (k : bytes) (r : row) : bool :=
  match r !! colIdx with Some v => negb (isNil v) && bool_decide (key v = k) | None => false end.

(** What a hash join takes for a match. *)
Definition hashMatch (leftIdx rightIdx : nat) (l r : row) : bool :=
  match l !! leftIdx with Some v => hasKey rightIdx (key v) r | None => false end.

Fixpoint bucketOf (i : nat) (rows : list row) (colIdx : nat) (k : bytes) : list nat :=
  match rows with
  | [] => []
  | r :: rows => (if hasKey colIdx k r then [i] else []) ++ bucketOf (S i) rows colIdx k
  end.

Lemma buildHash_lookup i rows c h k :
  buildHash FormatFloat sprintV i rows c h !! k =
  match bucketOf i rows c k with [] => h !! k | l => Some (default [] (h !! k) ++ l) end.
Proof.
  revert i h. induction rows as [|r rows IH]; intros i h; [done|]. cbn [buildHash bucketOf]. rewrite IH. unfold hasKey.
  destruct (r !! c) as [v|]; [|done]. destruct (isNil v); [done|]. cbn [negb andb].
  case_bool_decide as Hk; cbn [app].
  - subst k. rewrite lookup_insert_eq. destruct (bucketOf (S i) rows c (key v)); [done|]. cbn. by rewrite <- app_assoc.
  - by rewrite lookup_insert_ne.
Qed.

Lemma bucketOf_spec pre rows c k l :
  joinBucket l (pre ++ rows) (bucketOf (length pre) rows c k) = Ok ((λ r, l ++ r) <$> filter (λ r, hasKey c k r = true) rows).
Proof.
  revert pre. induction rows as [|r rows IH]; intros pre; [done|]. cbn [bucketOf]. rewrite filter_cons.
  specialize (IH (pre ++ [r])). rewrite <- app_assoc, length_app, Nat.add_comm in IH. cbn [app length Nat.add] in IH.
  destruct (hasKey c k r); cbn [app]; [rewrite decide_True by done|by rewrite decide_False by done]. cbn [joinBucket].
  rewrite list_lookup_middle by done. cbn [must mbind outcome_bind]. by rewrite IH.
Qed.

Lemma bucketOf_nil i rows c k : bucketOf i rows c k = [] ↔ existsb (hasKey c k) rows = false.
Proof. revert i. induction rows as [|r rows IH]; intros i; [done|]. cbn. destruct (hasKey c k r); [done|]. apply IH. Qed.

Lemma bucketOf_elem i rows c k j : j ∈ bucketOf i rows c k ↔ ∃ d r, j = (i + d)%nat ∧ rows !! d = Some r ∧ hasKey c k r = true.
Proof.
  revert i. induction rows as [|r rows IH]; intros i; cbn [bucketOf].
  { split; [by intros ?%elem_of_nil|]. by intros (d & r & _ & ? & _). }
  rewrite elem_of_app, IH. split.
  - intros [Hj|(d & r' & -> & Hd & Hr)]; [|exists (S d), r'; split; [lia|done]].
    destruct (hasKey c k r) eqn:E; [|by apply elem_of_nil in Hj]. apply list_elem_of_singleton in Hj as ->.
    exists O, r. split; [lia|done].
  - intros ([|d] & r' & -> & Hd & Hr); [left|right; exists d, r'; split; [lia|done]].
    injection Hd as <-. rewrite Hr. apply list_elem_of_singleton. lia.
Qed.

Lemma hash_bucket l leftIdx rightIdx R v (other : list row) :
  l !! leftIdx = Some v →
  match buildHashTable FormatFloat sprintV R rightIdx !! key v with
  | Some buckets => joinBucket l R buckets
  | None => Ok other
  end = Ok (if existsb (hashMatch leftIdx rightIdx l) R then (λ r, l ++ r) <$> matchesOf (hashMatch leftIdx rightIdx) l R else other).
Proof.
  intros Hv. unfold buildHashTable. rewrite buildHash_lookup, lookup_empty. unfold matchesOf, hashMatch. rewrite Hv.
  change (λ r, hasKey rightIdx (key v) r) with (hasKey rightIdx (key v)).
  pose proof (bucketOf_nil 0 R rightIdx (key v)) as Hn.
  pose proof (bucketOf_spec [] R rightIdx (key v) l) as Hb. cbn [app length] in Hb.
  destruct (bucketOf 0 R rightIdx (key v)) as [|j js].
  - by rewrite (proj1 Hn eq_refl).
  - cbn [default app]. rewrite Hb. destruct (existsb _ R) eqn:E; [done|]. pose proof (proj2 Hn eq_refl). done.
Qed.

Lemma matchesOf_none (m : row → row → bool) l R : existsb (m l) R = false → matchesOf m l R = [].
Proof.
  intros H. unfold matchesOf. induction R as [|r R IH]; [done|]. cbn in H. apply orb_false_iff in H as [H1 H2].
  rewrite filter_cons, decide_False by congruence. by apply IH.
Qed.

Lemma hashInner_spec leftIdx rightIdx L R :
  (∀ l, l ∈ L → is_Some (l !! leftIdx)) →
  hashInner FormatFloat sprintV (buildHashTable FormatFloat sprintV R rightIdx) leftIdx L R =
  Ok (specInner (hashMatch leftIdx rightIdx) L R).
Proof.
  induction L as [|l L IH]; intros H; [done|]. destruct (H l ltac:(left)) as [v Hv]. cbn [hashInner]. rewrite Hv.
  cbn [must mbind outcome_bind]. rewrite (hash_bucket l leftIdx) by done. cbn [mbind outcome_bind].
  rewrite IH by (intros; apply H; by right). cbn [mbind outcome_bind]. unfold specInner. rewrite bind_cons.
  destruct (existsb _ R) eqn:E; [done|]. by rewrite (matchesOf_none _ l R E).
Qed.

Lemma hashLeft_spec leftIdx rightIdx nr L R :
  (∀ l, l ∈ L → is_Some (l !! leftIdx)) →
  ∃ rows, hashLeft FormatFloat sprintV (buildHashTable FormatFloat sprintV R rightIdx) leftIdx (nulls nr) L R = Ok rows ∧
    rows ≡ₚ specInner (hashMatch leftIdx rightIdx) L R ++ specLeftOnly (hashMatch leftIdx rightIdx) nr L R.
Proof.
  induction L as [|l L IH]; intros H; [by exists []|]. destruct (H l ltac:(left)) as [v Hv]. cbn [hashLeft]. rewrite Hv.
  cbn [must mbind outcome_bind]. rewrite (hash_bucket l leftIdx) by done. cbn [mbind outcome_bind].
  destruct IH as (rows & -> & Hp); [intros; apply H; by right|]. cbn [mbind outcome_bind]. eexists. split; [done|]. rewrite Hp.
  unfold specInner, specLeftOnly. rewrite bind_cons, filter_cons.
  destruct (existsb _ R) eqn:E; [by rewrite decide_False, app_assoc by done|].
  rewrite decide_True by done. rewrite (matchesOf_none _ l R E), fmap_cons. solve_Permutation.
Qed.

Lemma hashMatched_spec leftIdx rightIdx L R M k :
  k ∈ hashMatched FormatFloat sprintV (buildHashTable FormatFloat sprintV R rightIdx) leftIdx L M ↔
  k ∈ M ∨ ∃ l r, l ∈ L ∧ R !! k = Some r ∧ hashMatch leftIdx rightIdx l r = true.
Proof.
  revert M. induction L as [|l L IH]; intros M; cbn [hashMatched].
  { split; [by left|]. intros [?|(l & r & Hl & _)]; [done|]. by apply elem_of_nil in Hl. }
  rewrite IH. set (M1 := match l !! leftIdx with Some v => _ | None => M end).
  assert (k ∈ M1 ↔ k ∈ M ∨ ∃ r, R !! k = Some r ∧ hashMatch leftIdx rightIdx l r = true) as HM1.
  { unfold M1, hashMatch, buildHashTable. destruct (l !! leftIdx) as [v|]; [|split; [by left|]; by intros [?|(r & _ & ?)]].
    rewrite buildHash_lookup, lookup_empty. pose proof (bucketOf_elem 0 R rightIdx (key v) k) as Hb.
    destruct (bucketOf 0 R rightIdx (key v)) as [|j js] eqn:E.
    - split; [by left|]. intros [?|(r & Hr & Hm)]; [done|]. exfalso. apply (not_elem_of_nil k), Hb. by exists k, r.
    - cbn [default app]. rewrite elem_of_union, elem_of_list_to_set, Hb. split.
      + intros [?|(d & r & -> & Hr & Hm)]; [by left|]. right. by exists r.
      + intros [?|(r & Hr & Hm)]; [by left|]. right. by exists k, r. }
  rewrite HM1. split.
  - intros [[?|(r & Hr & Hm)]|(l' & r & Hl & Hr & Hm)]; [by left|right; exists l, r; split; [left|done]|].
    right. exists l', r. split; [by right|done].
  - intros [?|(l' & r & [->|Hl]%elem_of_cons & Hr & Hm)]; [by do 2 left|left; right; by exists r|]. right. by exists l', r.
Qed.
End HashSpec.

(** ** One join *)

Lemma filter_ext_in {A} (P Q : A → bool) (b : bool) (l : list A) :
  (∀ x, x ∈ l → P x = Q x) → filter (λ x, P x = b) l = filter (λ x, Q x = b) l.
Proof.
  induction l as [|x l IH]; intros H; [done|]. rewrite !filter_cons, (H x) by left. rewrite IH by (intros; apply H; by right). done.
Qed.

Lemma existsb_ext_in {A} (P Q : A → bool) (l : list A) : (∀ x, x ∈ l → P x = Q x) → existsb P l = existsb Q l.
Proof. induction l as [|x l IH]; intros H; [done|]. cbn. rewrite (H x) by left. rewrite IH; [done|]. intros; apply H; by right. Qed.

Section SpecExt.
Context (m m' : row → row → bool) (L R : list row) (H : ∀ l r, l ∈ L → r ∈ R → m l r = m' l r).

Lemma specInner_ext : specInner m L R = specInner m' L R.
Proof.
  apply bind_ext_in. intros l Hl. unfold matchesOf. by rewrite (filter_ext_in _ (m' l)) by auto.
Qed.

Lemma specLeftOnly_ext nr : specLeftOnly m nr L R = specLeftOnly m' nr L R.
Proof.
  unfold specLeftOnly. f_equal. apply filter_ext_in. intros l Hl. apply existsb_ext_in. auto.
Qed.

Lemma specRightOnly_ext nl : specRightOnly m nl L R = specRightOnly m' nl L R.
Proof.
  unfold specRightOnly. f_equal. apply (filter_ext_in (λ r, existsb (λ l, m l r) L)). intros r Hr. apply existsb_ext_in. auto.
Qed.
End SpecExt.

Lemma GetRowWithLen_clean pooled n : Forall (λ v, v = INil) pooled → GetRowWithLen pooled n = nulls n.
Proof.
  intros Hp. unfold GetRowWithLen, nulls. destruct (Nat.ltb_spec (length pooled) n); [done|].
  assert (pooled = replicate (length pooled) INil) as -> by
    (symmetry; apply replicate_as_Forall_2; [done|]; by eapply Forall_impl; [exact Hp|]; intros ? ->).
  rewrite take_replicate. f_equal. lia.
Qed.

Section JoinSpec.
Context (FormatFloat : float64 → bytes) (sprintV : Value → bytes).
Context (EvalExpr : row → TableSchema → Expression → eres bool).
Context (leftSchema rightSchema : tableSchema) (cond : Expression) (L R : list row).

(** A pair of rows matches when the condition is true of it. *)
Definition rowsMatch (l r : row) : bool :=
  match EvalExpr (l ++ r) (s_Columns (combineSchemas leftSchema rightSchema)) cond with Ok b => b | _ => false end.

(** Where a hash join is taken, it takes for equal what the condition takes
    for equal, and the row from the pool is a row of nulls. *)
Definition hashSafe (pooled : row) : Prop :=
  ∀ leftIdx rightIdx, extractEquiJoinCols cond (s_Columns leftSchema) (s_Columns rightSchema) = Some (leftIdx, rightIdx) →
  Forall (λ v, v = INil) pooled ∧ (∀ l, l ∈ L → is_Some (l !! leftIdx)) ∧
  ∀ l r, l ∈ L → r ∈ R → hashMatch FormatFloat sprintV leftIdx rightIdx l r = rowsMatch l r.

Context (Hpanic : ∀ l r, l ∈ L → r ∈ R → EvalExpr (l ++ r) (s_Columns (combineSchemas leftSchema rightSchema)) cond ≠ Panic).

Lemma accepts_rowsMatch l r : l ∈ L → r ∈ R →
  accepts (λ x, EvalExpr x (s_Columns (combineSchemas leftSchema rightSchema)) cond) (l ++ r) = Ok (rowsMatch l r).
Proof.
  intros Hl Hr. unfold accepts, rowsMatch. specialize (Hpanic l r Hl Hr). by destruct (EvalExpr _ _ _).
Qed.

(** Both ways of doing an outer or inner join. *)
Lemma hashOr_spec hash nested (spec : list row) :
  (∃ rows, nested = Ok rows ∧ rows ≡ₚ spec) →
  (∀ leftIdx rightIdx, extractEquiJoinCols cond (s_Columns leftSchema) (s_Columns rightSchema) = Some (leftIdx, rightIdx) →
    ∃ rows, hash = Some (Ok rows) ∧ rows ≡ₚ spec) →
  (extractEquiJoinCols cond (s_Columns leftSchema) (s_Columns rightSchema) = None → hash = None) →
  ∃ rows, hashOr cond hash nested = Ok rows ∧ rows ≡ₚ spec.
Proof.
  intros Hn Hh Hnone. unfold hashOr.
  destruct (extractEquiJoinCols cond _ _) as [[li ri]|].
  - destruct (Hh li ri eq_refl) as (rows & -> & Hp). destruct cond; [done|by exists rows..].
  - rewrite Hnone by done. by destruct cond.
Qed.

Abbreviation test := (λ r, EvalExpr r (s_Columns (combineSchemas leftSchema rightSchema)) cond).
Abbreviation lcols := (s_Columns leftSchema).
Abbreviation rcols := (s_Columns rightSchema).

Context (pooled : row) (Hs : hashSafe pooled).

Lemma innerJoin_spec :
  ∃ rows, hashOr cond (tryHashJoin FormatFloat sprintV cond L R lcols rcols) (nestedInner test L R) = Ok rows ∧
    rows ≡ₚ specInner rowsMatch L R.
Proof.
  unfold tryHashJoin. apply hashOr_spec.
  - rewrite (nestedInner_spec test rowsMatch L R accepts_rowsMatch) by done. by eexists.
  - intros li ri E. destruct (Hs li ri E) as (_ & Hi & Hm). rewrite E. cbn [mbind option_bind].
    rewrite hashInner_spec, (specInner_ext _ rowsMatch) by done. by eexists.
  - by intros ->.
Qed.

Lemma leftJoin_spec :
  ∃ rows, hashOr cond (tryHashJoinLeft FormatFloat sprintV pooled cond L R lcols rcols)
            (nestedLeft test (nulls (length rcols)) L R) = Ok rows ∧
    rows ≡ₚ specInner rowsMatch L R ++ specLeftOnly rowsMatch (length rcols) L R.
Proof.
  unfold tryHashJoinLeft. apply hashOr_spec.
  - by apply (nestedLeft_spec test rowsMatch L R accepts_rowsMatch).
  - intros li ri E. destruct (Hs li ri E) as (Hnil & Hi & Hm). rewrite E. cbn [mbind option_bind].
    rewrite GetRowWithLen_clean by done.
    destruct (hashLeft_spec FormatFloat sprintV li ri (length rcols) L R Hi) as (rows & -> & Hp). exists rows. split; [done|].
    by rewrite Hp, (specInner_ext _ rowsMatch), (specLeftOnly_ext _ rowsMatch).
  - by intros ->.
Qed.

Lemma rightJoin_spec :
  ∃ rows, hashOr cond (tryHashJoinRight FormatFloat sprintV pooled cond L R lcols rcols)
            (nestedRight test (nulls (length lcols)) L R) = Ok rows ∧
    rows ≡ₚ specInner rowsMatch L R ++ specRightOnly rowsMatch (length lcols) L R.
Proof.
  unfold tryHashJoinRight. apply hashOr_spec.
  - by apply (nestedRight_spec test rowsMatch L R accepts_rowsMatch).
  - intros li ri E. destruct (Hs li ri E) as (Hnil & Hi & Hm). rewrite E. cbn [mbind option_bind].
    rewrite hashInner_spec by done. cbn [mbind outcome_bind]. eexists. split; [done|]. rewrite GetRowWithLen_clean by done.
    rewrite (unmatchedRight_spec _ _ (λ r, existsb (λ l, hashMatch FormatFloat sprintV li ri l r) L)).
    + rewrite (specInner_ext _ rowsMatch) by done. by rewrite <- (specRightOnly_ext (hashMatch FormatFloat sprintV li ri)).
    + intros j r Hj. cbn. rewrite hashMatched_spec, existsb_left. split.
      * intros [?|(l & r' & Hl & Hr' & Hm')]; [set_solver|]. rewrite Hj in Hr'. injection Hr' as <-. by exists l.
      * intros (l & Hl & Hm'). right. by exists l, r.
  - by intros ->.
Qed.

Lemma joinRows_spec joinType :
  ∃ rows, joinRows FormatFloat sprintV EvalExpr pooled joinType cond leftSchema rightSchema L R = Ok rows ∧
    rows ≡ₚ joinSpec rowsMatch joinType (length lcols) (length rcols) L R.
Proof.
  pose proof innerJoin_spec as Hinner. pose proof leftJoin_spec as Hleft. pose proof rightJoin_spec as Hright.
  pose proof (nestedFull_spec test rowsMatch L R (length lcols) (length rcols) accepts_rowsMatch) as Hfull.
  unfold joinRows, joinSpec. cbv zeta. clear Hpanic Hs.
  destruct (joinCaseOf joinType); [by exists (crossJoin L R)|done..|by exists []].
Qed.
End JoinSpec.

(** ** Conditions that equate two columns *)

(** Cells a hash join compares as [=] does: values of one type, and at most one
    null, which is not opposite an empty text. *)
Definition comparable (a b : iface) : Prop :=
  match a, b with
  | IInt x, IInt y => - 2 ^ 63 <= x < 2 ^ 63 ∧ - 2 ^ 63 <= y < 2 ^ 63
  | IString _, IString _ | IBool _, IBool _ => True
  | INil, IString s => s ≠ []
  | INil, IInt x => - 2 ^ 63 <= x < 2 ^ 63
  | INil, IBool _ => True
  | IInt _, INil | IString _, INil | IBool _, INil => True
  | _, _ => False
  end.

Lemma FormatInt_nonempty x : FormatInt x ≠ [].
Proof.
  unfold FormatInt. destruct (Z.ltb_spec x 0); [done|]. by destruct (digits_cons 19 x) as (b & s & -> & _); [lia|lia|].
Qed.

Lemma comparable_keys ParseFloat FormatFloat sprintV a b : comparable a b →
  let eq := negb (isNil b) && bool_decide (ValueToString FormatFloat sprintV b = ValueToString FormatFloat sprintV a) in
  CompareValues ParseFloat a b "=" = Ok eq ∧ CompareValues ParseFloat b a "=" = Ok eq.
Proof.
  destruct a as [|x|x|x|x|], b as [|y|y|y|y|]; try done; cbn [comparable ValueToString isNil negb andb].
  - intros Hy. rewrite bool_decide_eq_false_2 by apply FormatInt_nonempty. done.
  - intros Hy. by rewrite bool_decide_eq_false_2.
  - intros _. by destruct y.
  - intros [Hx Hy]. cbn. rewrite (Z.eqb_sym y x). destruct (Z.eqb_spec x y) as [->|Hne].
    + by rewrite bool_decide_eq_true_2.
    + rewrite bool_decide_eq_false_2; [done|]. intros E. apply FormatInt_inj in E; congruence.
  - intros _. cbn. case_bool_decide as E; [by rewrite bool_decide_eq_true_2|by rewrite bool_decide_eq_false_2 by congruence].
  - intros _. by destruct x, y.
Qed.

Lemma qualify_dot t n : dot ∈ qualify t n.
Proof. unfold qualify. apply elem_of_app. right. left. Qed.

Lemma lower_qualify t n : lower (qualify t n) = qualify (lower t) (lower n).
Proof. unfold qualify, lower. rewrite fmap_app. by rewrite fmap_cons, (proj2 (lowerByte_dot dot) eq_refl). Qed.

Lemma qualify_inj t t' n n' : dot ∉ t → dot ∉ t' → qualify t n = qualify t' n' → t = t' ∧ n = n'.
Proof.
  unfold qualify. revert t'. induction t as [|b t IH]; intros [|b' t'] Ht Ht' E; cbn in E.
  - injection E as <-. done.
  - injection E as <- _. destruct Ht'. left.
  - injection E as -> _. destruct Ht. left.
  - injection E as <- E. apply not_elem_of_cons in Ht as [_ Ht], Ht' as [_ Ht']. by destruct (IH t' Ht Ht' E) as [-> ->].
Qed.

(** Two tables with plain names; the left one is not the result of a join. *)
Record tablesOk (ls rs : tableSchema) : Prop := {
  to_left : plainSchema (s_Columns ls);
  to_right : plainSchema (s_Columns rs);
  to_lname : plainName (s_Name ls) ∧ s_Name ls ≠ [];
  to_rname : plainName (s_Name rs) ∧ s_Name rs ≠ [];
  to_names : lower (s_Name ls) ≠ lower (s_Name rs);
  to_fresh : s_Name ls ≠ joinResult }.

Section Combined.
Context (ls rs : tableSchema) (Ht : tablesOk ls rs).

Definition names : TableSchema := (qualify (s_Name ls) <$> s_Columns ls) ++ (qualify (s_Name rs) <$> s_Columns rs).

Lemma combine_names : s_Columns (combineSchemas ls rs) = names.
Proof.
  unfold combineSchemas, names. cbn [s_Columns]. f_equal. apply list_fmap_ext. intros i c Hc.
  destruct Ht as [[Hl _] _ _ _ _ Hf]. rewrite Forall_lookup in Hl. destruct (Hl i c Hc) as [_ Hd].
  unfold containsDot. by rewrite !bool_decide_eq_false_2.
Qed.

Lemma isAscii_qualify t n : isAscii t → isAscii n → isAscii (qualify t n).
Proof. intros H1 H2. unfold qualify, isAscii in *. apply Forall_app. split; [done|]. by constructor. Qed.

Lemma names_ascii : Forall isAscii names.
Proof.
  destruct Ht as [[Hl _] [Hr _] [[Hla _] _] [[Hra _] _] _ _]. unfold names. apply Forall_app. split; apply Forall_fmap.
  - eapply Forall_impl; [exact Hl|]. intros c [Hc _]. by apply isAscii_qualify.
  - eapply Forall_impl; [exact Hr|]. intros c [Hc _]. by apply isAscii_qualify.
Qed.

Lemma names_nodup_side t (cols : TableSchema) : plainName t → plainSchema cols → NoDup (lower <$> (qualify t <$> cols)).
Proof.
  intros [_ Hd] [_ Hn]. rewrite <- list_fmap_compose.
  replace (lower ∘ qualify t <$> cols) with (qualify (lower t) <$> (lower <$> cols)).
  - apply NoDup_fmap_2; [|done]. intros a b E. apply (qualify_inj _ _ _ _) in E as [_ ->]; [done|by apply lower_no_dot..].
  - rewrite <- list_fmap_compose. apply list_fmap_ext. intros i c _. cbn. by rewrite lower_qualify.
Qed.

Lemma names_nodup : NoDup (lower <$> names).
Proof.
  destruct Ht as [Hl Hr [Hln _] [Hrn _] Hne _]. unfold names. rewrite fmap_app. apply NoDup_app. split_and!.
  - by apply names_nodup_side.
  - intros x (y & -> & Hy)%list_elem_of_fmap (z & E & Hz)%list_elem_of_fmap.
    apply list_elem_of_fmap in Hy as (c & -> & _), Hz as (c' & -> & _). rewrite !lower_qualify in E.
    apply qualify_inj in E as [E _]; [done|apply lower_no_dot; by destruct Hln|apply lower_no_dot; by destruct Hrn].
  - by apply names_nodup_side.
Qed.
End Combined.

Lemma findFrom_spec k schema name :
  match findFrom k schema name with
  | Some i => ∃ j, i = (k + j)%nat ∧ schema !! j = Some name
  | None => name ∉ schema
  end.
Proof.
  revert k. induction schema as [|c schema IH]; intros k; cbn [findFrom]; [apply not_elem_of_nil|].
  case_bool_decide as E; [exists O; split; [lia|by subst c]|]. specialize (IH (S k)). destruct (findFrom (S k) schema name).
  - destruct IH as (j & -> & Hj). exists (S j). split; [lia|done].
  - rewrite not_elem_of_cons. split; [congruence|done].
Qed.

Lemma findColumnIndex_Some schema name i : findColumnIndex schema name = Some i → schema !! i = Some name.
Proof. intros E. pose proof (findFrom_spec 0 schema name) as H. unfold findColumnIndex in E. rewrite E in H. by destruct H as (j & -> & ?). Qed.

Lemma findColumnIndex_elem schema name : name ∈ schema → is_Some (findColumnIndex schema name).
Proof. intros Hin. pose proof (findFrom_spec 0 schema name) as H. unfold findColumnIndex. by destruct (findFrom 0 schema name). Qed.

Section Equi.
Context {ToLower : bytes → bytes} {EqualFold : bytes → bytes → bool} {Hcase : AsciiCase ToLower EqualFold}.
Context (ParseFloat : bytes → option Z) (outOfRange : float64 → Z) (rest : iface → iface → string → eres iface).
Context (evalOperator : string → iface → iface → eres iface) (evalNode : nat → list iface → eres iface).
Context (FormatFloat : float64 → bytes) (sprintV : Value → bytes).

(** No rows of a trigger, and an index, if there is one, of a single table. *)
Definition joinCtx (ctx : option ExecutionContext) : Prop :=
  ctx ≫= OldRow = None ∧ ctx ≫= NewRow = None ∧
  ∀ idx name, ctx ≫= ColumnIndex = Some idx → dot ∈ name → idx !! ToLower name = None.

Lemma resolveLoop_qualified (r : row) schema name k j v :
  Forall isAscii schema → NoDup (lower <$> schema) → isAscii name → dot ∈ name →
  schema !! j = Some name → r !! (k + j)%nat = Some v → resolveLoop EqualFold k schema r name = Ok v.
Proof.
  intros Ha Hnd Hn Hd. revert k j Hnd. induction Ha as [|c schema Hc Ha IH]; intros k j Hnd Hj Hr; [done|].
  cbn [resolveLoop]. cbn in Hnd. apply NoDup_cons in Hnd as [Hnin Hnd]. rewrite EqualFold_ascii by done. destruct j as [|j].
  - injection Hj as ->. rewrite bool_decide_eq_true_2 by done. rewrite Nat.add_0_r in Hr. by rewrite Hr.
  - rewrite bool_decide_eq_false_2.
    + unfold containsDot. rewrite (bool_decide_eq_true_2 (dot ∈ name)) by done. cbn [negb].
      apply (IH (S k) j); [done|done|]. by replace (S k + j)%nat with (k + S j)%nat by lia.
    + intros E. apply Hnin, list_elem_of_fmap. exists name. split; [done|]. by eapply list_elem_of_lookup_2.
Qed.

Lemma evalColumn_qualified ctx (r : row) schema n t j v :
  joinCtx ctx → Forall isAscii schema → NoDup (lower <$> schema) → isAscii t → isAscii n → t ≠ [] →
  schema !! j = Some (qualify t n) → r !! j = Some v → evalColumn ToLower EqualFold ctx r schema n t = Ok v.
Proof.
  intros (Ho & Hn & Hidx) Ha Hnd Hta Hna Hne Hj Hr. unfold evalColumn. rewrite Ho, Hn, (bool_decide_eq_false_2 (t = [])) by done.
  change (t ++ dot :: n) with (qualify t n).
  assert (ResolveColumn ToLower EqualFold r schema (qualify t n) (ctx ≫= ColumnIndex) = Ok v) as Hres.
  { unfold ResolveColumn. rewrite (resolveLoop_qualified r schema (qualify t n) 0 j v);
      [|done|done|by apply isAscii_qualify|apply qualify_dot|done|done].
    destruct (ctx ≫= ColumnIndex) as [idx|] eqn:E; [|done]. cbn [mbind option_bind].
    by rewrite (Hidx idx (qualify t n) eq_refl (qualify_dot t n)). }
  repeat case_bool_decide; by rewrite Hres.
Qed.

Context (ls rs : tableSchema) (ctx : option ExecutionContext) (cond : Expression) (L R : list row).

Abbreviation eval := (λ r schema e, evalExpr ParseFloat outOfRange ToLower EqualFold rest evalOperator evalNode r schema ctx e).

(** [left.ln = right.rn], or the other way round when the names alone do not
    also stand for a column of the other table. *)
Definition equiCond (ln rn : bytes) : Prop :=
  cond = EBinary (EColumnRef ln (s_Name ls)) "=" (EColumnRef rn (s_Name rs)) ∨
  cond = EBinary (EColumnRef rn (s_Name rs)) "=" (EColumnRef ln (s_Name ls)) ∧ ¬ (rn ∈ s_Columns ls ∧ ln ∈ s_Columns rs).

(** The rows have the columns of their tables, and the cells compared are
    comparable. *)
Definition rowsOk (ln rn : bytes) : Prop :=
  (∀ l, l ∈ L → length l = length (s_Columns ls)) ∧
  ∀ i j l r a b, s_Columns ls !! i = Some ln → s_Columns rs !! j = Some rn → l ∈ L → r ∈ R →
    l !! i = Some a → r !! j = Some b → comparable a b.

Lemma equiCond_extract ln rn :
  tablesOk ls rs → ln ∈ s_Columns ls → rn ∈ s_Columns rs → equiCond ln rn →
  ∃ i j, extractEquiJoinCols cond (s_Columns ls) (s_Columns rs) = Some (i, j) ∧
    s_Columns ls !! i = Some ln ∧ s_Columns rs !! j = Some rn.
Proof.
  intros Ht Hl Hr Hc. destruct (findColumnIndex_elem _ _ Hl) as [i Hi], (findColumnIndex_elem _ _ Hr) as [j Hj].
  assert (∀ cols n, plainSchema cols → n ∈ cols → stripTablePrefix n = n) as Hstrip.
  { intros cols n [Hp _] Hn. rewrite Forall_forall in Hp. destruct (Hp n Hn) as [_ Hd]. unfold stripTablePrefix. by rewrite IndexDot_None. }
  pose proof (Hstrip _ _ (to_left _ _ Ht) Hl) as El. pose proof (Hstrip _ _ (to_right _ _ Ht) Hr) as Er.
  exists i, j. split; [|split; by apply findColumnIndex_Some]. destruct Hc as [->|[-> Hno]]; cbn; rewrite El, Er.
  - by rewrite Hi, Hj.
  - destruct (findColumnIndex (s_Columns ls) rn) as [i'|] eqn:E1; [|by rewrite Hi, Hj].
    destruct (findColumnIndex (s_Columns rs) ln) as [j'|] eqn:E2; [|by rewrite Hi, Hj].
    destruct Hno. split; eapply list_elem_of_lookup_2; by apply findColumnIndex_Some.
Qed.

(** The condition compares the cells of the two columns. *)
Lemma equiCond_eval ln rn i j l r a b :
  tablesOk ls rs → joinCtx ctx → equiCond ln rn → s_Columns ls !! i = Some ln → s_Columns rs !! j = Some rn →
  length l = length (s_Columns ls) → l !! i = Some a → r !! j = Some b → comparable a b →
  eval (l ++ r) (s_Columns (combineSchemas ls rs)) cond =
    Ok (negb (isNil b) && bool_decide (ValueToString FormatFloat sprintV b = ValueToString FormatFloat sprintV a)).
Proof.
  intros Ht Hctx Hc Hi Hj Hlen Ha Hb Hcmp. rewrite combine_names by done.
  pose proof (names_ascii ls rs Ht) as Hna. pose proof (names_nodup ls rs Ht) as Hnd.
  destruct (comparable_keys ParseFloat FormatFloat sprintV a b Hcmp) as [E1 E2].
  destruct Ht as [[Hlp _] [Hrp _] [[Hla _] Hlne] [[Hra _] Hrne] _ _]. rewrite Forall_lookup in Hlp, Hrp.
  assert (evalColumn ToLower EqualFold ctx (l ++ r) (names ls rs) ln (s_Name ls) = Ok a) as Hcl.
  { apply evalColumn_qualified with i; try done; [by apply (Hlp i)| |by apply lookup_app_l_Some].
    unfold names. apply lookup_app_l_Some. by rewrite list_lookup_fmap, Hi. }
  assert (evalColumn ToLower EqualFold ctx (l ++ r) (names ls rs) rn (s_Name rs) = Ok b) as Hcr.
  { apply evalColumn_qualified with (length l + j)%nat; try done; [by apply (Hrp j)| |].
    - unfold names. rewrite lookup_app_r by (rewrite length_fmap; lia). rewrite length_fmap, Hlen.
      replace (length (s_Columns ls) + j - length (s_Columns ls))%nat with j by lia. by rewrite list_lookup_fmap, Hj.
    - rewrite lookup_app_r by lia. by replace (length l + j - length l)%nat with j by lia. }
  destruct Hc as [->|[-> _]]; cbn [evalExpr evalOperand]; rewrite Hcl, Hcr; cbn [mbind outcome_bind isComparison].
  - by rewrite E1.
  - by rewrite E2.
Qed.

(** A qualified equi-join over comparable columns is done as a hash join with
    the same result. *)
Lemma equi_safe ln rn pooled :
  tablesOk ls rs → joinCtx ctx → ln ∈ s_Columns ls → rn ∈ s_Columns rs → equiCond ln rn → rowsOk ln rn →
  (∀ r, r ∈ R → length r = length (s_Columns rs)) → Forall (λ v, v = INil) pooled →
  hashSafe FormatFloat sprintV eval ls rs cond L R pooled ∧
  ∀ l r, l ∈ L → r ∈ R → eval (l ++ r) (s_Columns (combineSchemas ls rs)) cond ≠ Panic.
Proof.
  intros Ht Hctx Hl Hr Hc [HwL Hcmp] HwR Hp. destruct (equiCond_extract ln rn Ht Hl Hr Hc) as (i & j & E & Hi & Hj).
  assert (∀ l, l ∈ L → ∃ a, l !! i = Some a) as HL.
  { intros l Hin. apply lookup_lt_is_Some. rewrite (HwL l Hin). by eapply lookup_lt_Some. }
  assert (∀ r, r ∈ R → ∃ b, r !! j = Some b) as HR.
  { intros r Hin. apply lookup_lt_is_Some. rewrite (HwR r Hin). by eapply lookup_lt_Some. }
  split.
  - intros i' j' E'. rewrite E in E'. injection E' as <- <-. split_and!; [done|done|]. intros l r Hlin Hrin.
    destruct (HL l Hlin) as [a Ha], (HR r Hrin) as [b Hb]. unfold rowsMatch.
    rewrite (equiCond_eval ln rn i j l r a b) by eauto. unfold hashMatch, hasKey. by rewrite Ha, Hb.
  - intros l r Hlin Hrin. destruct (HL l Hlin) as [a Ha], (HR r Hrin) as [b Hb].
    by rewrite (equiCond_eval ln rn i j l r a b) by eauto.
Qed.
End Equi.


(** ** Two tables *)

Definition exEval (r : row) (schema : TableSchema) (e : Expression) : eres bool :=
  evalExpr (λ _, None) (λ _, 0) lower foldAscii (λ _ _ _, Err ErrTypeMismatch) (λ _ _ _, Err ErrUnknownOperator)
    (λ _ _, Err ErrUnsupportedExpression) r schema None e.
Definition exJoin (pooled : row) (t : string) : Expression → tableSchema → tableSchema → list row → list row → jres (list row) :=
  joinRows (λ _, []) (λ _, []) exEval pooled t.

Definition tableA : tableSchema := mkSchema (str "a") [str "id"; str "ref"].
Definition tableB : tableSchema := mkSchema (str "b") [str "id"; str "name"].
Definition eqCols (t1 c1 t2 c2 : string) : Expression :=
  EBinary (EColumnRef (str c1) (str t1)) "=" (EColumnRef (str c2) (str t2)).

Definition rowsA : list row := [[IInt 1; IInt 7]; [IInt 2; INil]].
Definition rowsB : list row := [[IInt 7; IString (str "x")]; [IInt 8; IString (str "y")]].

Ltac bdec := apply (bool_decide_unpack _); vm_compute; exact I.

Lemma exTables : tablesOk tableA tableB.
Proof.
  split; unfold plainSchema, plainName, isAscii.
  1,2: split; [repeat constructor; bdec|bdec].
  1,2: split; [split; [repeat constructor; bdec|bdec]|done].
  all: bdec.
Qed.


(** ** Where the joins go wrong *)

(** A null on the left has the key of the empty text. *)
Example null_joins_empty_text :
  let l := [[IInt 1; INil]] in
  let r := [[IString []; IInt 5]] in
  exJoin [] "INNER" (eqCols "a" "ref" "b" "id") tableA tableB l r = Ok [[IInt 1; INil; IString []; IInt 5]] ∧
  rowsMatch exEval tableA tableB (eqCols "a" "ref" "b" "id") [IInt 1; INil] [IString []; IInt 5] = false.
Proof. vm_compute. done. Qed.

(** The columns are found by their names alone: [ON b.id = a.ref] compares
    [a.id] with [b.ref] when both tables have both columns. *)
Example wrong_columns :
  let b := mkSchema (str "b") [str "id"; str "ref"] in
  let l := [[IInt 1; IInt 7]] in
  let r := [[IInt 7; IInt 0]; [IInt 9; IInt 1]] in
  exJoin [] "INNER" (eqCols "b" "id" "a" "ref") tableA b l r = Ok [[IInt 1; IInt 7; IInt 9; IInt 1]] ∧
  specInner (rowsMatch exEval tableA b (eqCols "b" "id" "a" "ref")) l r = [[IInt 1; IInt 7; IInt 7; IInt 0]].
Proof. vm_compute. done. Qed.

(** The nulls of an outer hash join are a row from the pool that is not cleared:
    values of an earlier query come out. *)
Example stale_nulls :
  exJoin [IInt 42; IString (str "old")] "LEFT" (eqCols "a" "ref" "b" "id") tableA tableB [[IInt 1; IInt 7]] [] =
  Ok [[IInt 1; IInt 7; IInt 42; IString (str "old")]].
Proof. vm_compute. done. Qed.

(** Inner joins are reordered by size without looking at what the conditions
    mention: in [FROM a JOIN b ON a.id = b.id JOIN c ON b.name = c.name] with [c]
    smaller than [b], [b.name] is read as [c.name] and every row of [c] joins. *)
Definition tableC : tableSchema := mkSchema (str "c") [str "name"].

#[export] Instance exCatalog : Tables := {|
  TableExists _ := true;
  GetTableSchema t := if bool_decide (t = str "b") then Some tableB else Some tableC;
  ReadCurrentRows t := if bool_decide (t = str "b") then Some [[IInt 1; IString (str "x")]]
                       else Some [[IString (str "x")]; [IString (str "y")]];
  GetTableSize t := if bool_decide (t = str "b") then 3 else 2 |}.

Definition threeTables : list JoinClause :=
  [mkJoin "INNER" (str "b") [] (eqCols "a" "id" "b" "id"); mkJoin "INNER" (str "c") [] (eqCols "b" "name" "c" "name")].

Example reordered_joins :
  let run joins := snd <$> runJoins (λ _, []) (λ _, []) exEval (λ _, []) 0 joins tableA [[IInt 1; IInt 7]] in
  run threeTables = Ok [[IInt 1; IInt 7; IInt 1; IString (str "x"); IString (str "x")]] ∧
  snd <$> executeJoins (λ _, []) (λ _, []) exEval (λ _, []) threeTables tableA [[IInt 1; IInt 7]] =
    Ok [[IInt 1; IInt 7; IString (str "x"); IInt 1; IString (str "x")];
        [IInt 1; IInt 7; IString (str "y"); IInt 1; IString (str "x")]].
Proof. vm_compute. done. Qed.
