(* ===== verification/Coerce.v ===== *)
(** * Values for a column

    A value on its way into a table is converted twice: the executor coerces it
    to the declared type ([CoerceToColumn], [CoerceRowViaEval] and
    [NormalizeForColumn] of [server/internal/core/executor/types/eval.go], with
    [ToVector] of [executor/eval/json.go]), and the storage engine normalizes
    it again ([normalizeValue], [toInt64], [toFloat64], [ValidateObjectName]
    of [server/internal/core/storage/normalize.go]). *)

From S2P Require Import Prelude Bytes Strconv Json RowCodec Float64 Eval Vm Like Joins.

Record ColumnSchema : Type := mkColumn { c_Name : bytes; c_Type : bytes; VarcharLen : Z }.

(** What an expression can evaluate to: the values of [Eval], an [int], or a
    list as JSON decoding makes it. *)
Inductive input : Type :=
| In (v : iface)
| InInt (i : Z)
| InList (l : list iface).

Inductive coerce_error : Type :=
| ErrPrecision | ErrParse | ErrExpected | ErrOverflow | ErrVector | ErrDimension | ErrUnsupportedType | ErrColumn (name : bytes).

Abbreviation cres := (outcome coerce_error).

(** [math.Float64bits]; every NaN is Go's. *)
Definition Float64bits (f : float64) : Z :=
  let signed (s : bool) (b : Z) := if s then 2 ^ 63 + b else b in
  match f with
  | S754_zero s => signed s 0
  | S754_infinity s => signed s 0x7FF0000000000000
  | S754_nan => 0x7FF8000000000001
  | S754_finite s m e =>
      signed s (if Z.pos m <? 2 ^ 52 then Z.pos m else (e + 1075) * 2 ^ 52 + (Z.pos m - 2 ^ 52))
  end.

(** [strings.ToUpper] on ASCII. *)
Definition upperByte (b : byte) : byte :=
  let c := byte.unsigned b in if (97 <=? c) && (c <=? 122) then byte.of_Z (c - 32) else b.
Definition upper (s : bytes) : bytes := upperByte <$> s.

(** The cases of the switch over the column type. *)
Inductive typeCase : Type := TInt | TFloat | TBool | TString | TVector | TFlexible | TPrinted | TUnknown.

Definition typeOf (t : bytes) : typeCase :=
  if bool_decide (t = str "INT") then TInt
  else if bool_decide (t = str "FLOAT") then TFloat
  else if bool_decide (t = str "BOOL") then TBool
  else if bool_decide (t ∈ [str "TEXT"; str "VARCHAR"; str "BLOB"]) then TString
  else if bool_decide (t = str "VECTOR") then TVector
  else if bool_decide (t = str "FLEXIBLE") then TFlexible
  else if bool_decide (t ∈ [str "DATE"; str "TIME"; str "TIMESTAMP"; str "DECIMAL"; str "JSONB"; str "JSON"]) then TPrinted
  else TUnknown.

(** [VARCHAR(n)] with more than [n] runes. *)
Definition overflows (column : ColumnSchema) (s : bytes) : bool :=
  bool_decide (c_Type column = str "VARCHAR") && (0 <? VarcharLen column) &&
  (VarcharLen column <? Z.of_nat (length (runes s))).

Section Coerce.
Context (ParseFloat : bytes → option Z) (FormatFloat : float64 → bytes) (outOfRange : float64 → Z).
(** [fmt.Sprintf] of a vector, an object or another value with [%v]. *)
Context (sprintV : Value → bytes) (sprintList : list iface → bytes).
(** [json.Unmarshal] into a slice of floats, as bit patterns, and [DecodeJSON]. *)
Context (UnmarshalFloats : bytes → option (list Z)) (decodeRaw : bytes → option jvalue).
(** [strings.ToUpper]. *)
Context (ToUpper : bytes → bytes).

Definition inputString (v : input) : bytes :=
  match v with
  | In v => ValueToString FormatFloat sprintV v
  | InInt i => FormatInt i
  | InList l => sprintList l
  end.

(** [[]interface{}]: an element that is no number becomes zero. *)
Definition elemBits (x : iface) : Z :=
  match ToFloat ParseFloat x with Some f => Float64bits f | None => 0 end.

Definition ToVector (val : input) : option (list Z) :=
  match val with
  | In (IOther (VVector v)) => Some v
  | InList l => Some (elemBits <$> l)
  | In (IString s) => UnmarshalFloats s
  | _ => None
  end.

(** The object a text decodes to. *)
Definition decodeObject (s : bytes) : option (list (bytes * jvalue)) :=
  match DecodeJSON ParseFloat decodeRaw s with Some (JObj m) => Some m | _ => None end.

Definition CoerceToColumn (value : input) (column : ColumnSchema) : cres iface :=
  match value with
  | In INil => Ok INil
  | _ =>
      match typeOf (ToUpper (c_Type column)) with
      | TInt =>
          match value with
          | In (IInt v) => Ok (IInt v)
          | InInt v => Ok (IInt v)
          | In (IFloat v) =>
              let i := toInt64 outOfRange v in
              if negb (feqb (fromInt i) v) then Err ErrPrecision else Ok (IInt i)
          | In (IString v) => match ParseInt v with Some parsed => Ok (IInt parsed) | None => Err ErrParse end
          | _ => Err ErrExpected
          end
      | TFloat =>
          match value with
          | In (IFloat v) => Ok (IFloat v)
          | In (IInt v) => Ok (IFloat (fromInt v))
          | InInt v => Ok (IFloat (fromInt v))
          | In (IString v) => match ParseFloat v with Some b => Ok (IFloat (Float64frombits b)) | None => Err ErrParse end
          | _ => Err ErrExpected
          end
      | TBool => match value with In (IBool b) => Ok (IBool b) | _ => Err ErrExpected end
      | TString =>
          match value with
          | In (IString s) => if overflows column s then Err ErrOverflow else Ok (IString s)
          | _ => Err ErrExpected
          end
      | TVector =>
          match ToVector value with
          | None => Err ErrVector
          | Some vec =>
              if (0 <? VarcharLen column) && negb (Z.of_nat (length vec) =? VarcharLen column) then Err ErrDimension
              else Ok (IOther (VVector vec))
          end
      | TFlexible =>
          match value with
          | In (IOther (VMap m)) => Ok (IOther (VMap m))
          | In (IString v) => match decodeObject v with Some m => Ok (IOther (VMap m)) | None => Ok (IString v) end
          | _ => Ok (IString (inputString value))
          end
      | TPrinted => Ok (IString (inputString value))
      | TUnknown => Err ErrUnsupportedType
      end
  end.

(** [schema.Columns[i]] panics past the last column. *)
Fixpoint CoerceRowViaEval (row : list input) (columns : list ColumnSchema) : cres (list iface) :=
  match row with
  | [] => Ok []
  | raw :: row =>
      match columns with
      | [] => Panic
      | column :: columns =>
          match CoerceToColumn raw column with
          | Err _ => Err (ErrColumn (c_Name column))
          | Panic => Panic
          | Ok value => coerced ← CoerceRowViaEval row columns; Ok (value :: coerced)
          end
      end
  end.

Definition NormalizeForColumn (value : input) (col : ColumnSchema) : cres iface :=
  coerced ← CoerceRowViaEval [value] [col];
  match coerced with v :: _ => Ok v | [] => Panic end.

(** ** The storage engine *)

(** [math.Trunc(v) == v]. *)
Definition isWhole (f : float64) : bool :=
  match f with
  | S754_nan => false
  | S754_zero _ | S754_infinity _ => true
  | S754_finite _ m e => (0 <=? e) || (Z.pos m mod 2 ^ (- e) =? 0)
  end.

(** The other widths of Go's numeric types do not reach the engine. *)
Definition toInt64S (value : input) : option Z :=
  match value with
  | InInt v => Some v
  | In (IInt v) => Some v
  | In (IFloat v) => if isWhole v then Some (toInt64 outOfRange v) else None
  | _ => None
  end.

Definition toFloat64 (value : input) : option float64 :=
  match value with
  | InInt v => Some (fromInt v)
  | In (IInt v) => Some (fromInt v)
  | In (IFloat v) => Some v
  | _ => None
  end.

(** The numbers of a list as a vector. *)
Fixpoint numbersOf (l : list iface) : option (list Z) :=
  match l with
  | [] => Some []
  | IFloat f :: l => (Float64bits f ::.) <$> numbersOf l
  | IInt i :: l => (Float64bits (fromInt i) ::.) <$> numbersOf l
  | _ => None
  end.

(** The input as a value of the table: what a [FLEXIBLE] column keeps as it is. *)
Definition keepInput (value : input) : iface :=
  match value with In v => v | InInt i => IInt i | InList _ => IOther VOther end.

Definition normalizeValue (value : input) (col : ColumnSchema) : cres iface :=
  match value with
  | In INil => Ok INil
  | _ =>
      match typeOf (c_Type col) with
      | TInt => match toInt64S value with Some i => Ok (IInt i) | None => Err ErrExpected end
      | TFloat => match toFloat64 value with Some f => Ok (IFloat f) | None => Err ErrExpected end
      | TBool => match value with In (IBool b) => Ok (IBool b) | _ => Err ErrExpected end
      | TString =>
          match value with
          | In (IString s) => if overflows col s then Err ErrOverflow else Ok (IString s)
          | _ => Err ErrExpected
          end
      | TVector =>
          match value with
          | In (IOther (VVector v)) => Ok (IOther (VVector v))
          | InList l => match numbersOf l with Some v => Ok (IOther (VVector v)) | None => Err ErrVector end
          | _ => Err ErrVector
          end
      | TFlexible =>
          match value with
          | In (IOther (VMap m)) => Ok (IOther (VMap m))
          | In (IString v) => match decodeObject v with Some m => Ok (IOther (VMap m)) | None => Ok (IString v) end
          | _ => Ok (keepInput value)
          end
      | TPrinted => Ok (IString (inputString value))
      | TUnknown => Err ErrUnsupportedType
      end
  end.
End Coerce.

(** [^[a-zA-Z_][a-zA-Z0-9_]*$] *)
Definition isIdentStart (b : byte) : bool :=
  let c := byte.unsigned b in
  ((97 <=? c) && (c <=? 122)) || ((65 <=? c) && (c <=? 90)) || (c =? 95).
Definition isIdentByte (b : byte) : bool := isIdentStart b || isDigitByte b.
Definition validIdent (name : bytes) : bool :=
  match name with b :: rest => isIdentStart b && forallb isIdentByte rest | [] => false end.

Inductive name_error : Type := ErrEmpty | ErrTooLong | ErrInvalid | ErrSeparator | ErrTraversal | ErrNul.

Fixpoint containsDotDot (s : bytes) : bool :=
  match s with
  | b :: ((c :: _) as rest) => (bool_decide (b = dot) && bool_decide (c = dot)) || containsDotDot rest
  | _ => false
  end.

Definition ValidateObjectName (name : bytes) : outcome name_error unit :=
  if blen name =? 0 then Err ErrEmpty
  else if 128 <? blen name then Err ErrTooLong
  else if negb (validIdent name) then Err ErrInvalid
  else if bool_decide (Byte.x2f ∈ name) || bool_decide (Byte.x5c ∈ name) then Err ErrSeparator
  else if containsDotDot name then Err ErrTraversal
  else if bool_decide (Byte.x00 ∈ name) then Err ErrNul
  else Ok tt.

(** ** Types *)

Section CoerceSpec.
Context (ParseFloat : bytes → option Z) (FormatFloat : float64 → bytes) (outOfRange : float64 → Z).
Context (sprintV : Value → bytes) (sprintList : list iface → bytes).
Context (UnmarshalFloats : bytes → option (list Z)) (decodeRaw : bytes → option jvalue) (ToUpper : bytes → bytes).

Abbreviation coerce := (CoerceToColumn ParseFloat FormatFloat outOfRange sprintV sprintList UnmarshalFloats decodeRaw ToUpper).
Abbreviation coerceRow := (CoerceRowViaEval ParseFloat FormatFloat outOfRange sprintV sprintList UnmarshalFloats decodeRaw ToUpper).
Abbreviation normalize := (normalizeValue ParseFloat FormatFloat outOfRange sprintV sprintList decodeRaw).
Abbreviation object := (decodeObject ParseFloat decodeRaw).
Abbreviation printed := (inputString FormatFloat sprintV sprintList).

(** The values of a column: nulls and values of the declared type, within the
    declared length. *)
Definition hasType (column : ColumnSchema) (w : iface) : Prop :=
  match typeOf (ToUpper (c_Type column)), w with
  | _, INil => True
  | TInt, IInt _ | TFloat, IFloat _ | TBool, IBool _ => True
  | TString, IString s =>
      c_Type column = str "VARCHAR" → 0 < VarcharLen column → Z.of_nat (length (runes s)) <= VarcharLen column
  | TVector, IOther (VVector v) => 0 < VarcharLen column → Z.of_nat (length v) = VarcharLen column
  | TFlexible, IOther (VMap _) => True
  | TFlexible, IString s => object s = None
  | TPrinted, IString _ => True
  | _, _ => False
  end.

(** Go prints no value but an object or a text as the JSON text of an object. *)
Definition printsPlainly : Prop :=
  ∀ v, match v with In (IString _) | In (IOther (VMap _)) => True | _ => object (printed v) = None end.

Lemma dimension_ok column (v : list Z) :
  (0 <? VarcharLen column) && negb (Z.of_nat (length v) =? VarcharLen column) = false ↔
  (0 < VarcharLen column → Z.of_nat (length v) = VarcharLen column).
Proof.
  destruct (Z.ltb_spec 0 (VarcharLen column)), (Z.eqb_spec (Z.of_nat (length v)) (VarcharLen column)); cbn; split;
    intros; try done; lia.
Qed.

Lemma overflows_false column s :
  overflows column s = false ↔
  (c_Type column = str "VARCHAR" → 0 < VarcharLen column → Z.of_nat (length (runes s)) <= VarcharLen column).
Proof.
  unfold overflows. case_bool_decide; [|split; done].
  destruct (Z.ltb_spec 0 (VarcharLen column)), (Z.ltb_spec (VarcharLen column) (Z.of_nat (length (runes s)))); cbn [andb];
    (split; [intros; try done; lia|]); intros Hle; try done; specialize (Hle H); lia.
Qed.

Lemma coerce_typed v column w : printsPlainly → coerce v column = Ok w → hasType column w.
Proof.
  intros Hp. specialize (Hp v). unfold CoerceToColumn, hasType. destruct (typeOf (ToUpper (c_Type column))).
  all: destruct v as [[|i|f|s|b|x]|i|l]; try done; try (by intros [= <-]).
  - by destruct (negb _); [|intros [= <-]].
  - by destruct (ParseInt s); [intros [= <-]|].
  - by destruct (ParseFloat s); [intros [= <-]|].
  - destruct (overflows column s) eqn:E; [done|]. intros [= <-]. by apply overflows_false.
  - cbn [ToVector]. destruct (UnmarshalFloats s) as [vec|]; [|done]. destruct (_ && _) eqn:E; [done|]. intros [= <-]. by apply dimension_ok.
  - cbn [ToVector]. destruct x as [| | | | |vec| |]; try done. destruct (_ && _) eqn:E; [done|]. intros [= <-]. by apply dimension_ok.
  - cbn [ToVector]. destruct (_ && _) eqn:E; [done|]. intros [= <-]. by apply dimension_ok.
  - destruct (object s) eqn:E; by intros [= <-].
  - destruct x; by intros [= <-].
Qed.

(** A value of the type of the column passes both conversions unchanged. *)
Lemma coerce_fixed column w : hasType column w → coerce (In w) column = Ok w.
Proof.
  unfold CoerceToColumn, hasType. destruct (typeOf (ToUpper (c_Type column))), w as [|i|f|s|b|x]; try done.
  - intros H%overflows_false. by rewrite H.
  - destruct x; try done. cbn. intros H%dimension_ok. by rewrite H.
  - by intros ->.
  - by destruct x.
Qed.

Lemma normalize_fixed column w :
  ToUpper (c_Type column) = c_Type column → hasType column w → normalize (In w) column = Ok w.
Proof.
  unfold normalizeValue, hasType. intros ->. destruct (typeOf (c_Type column)), w as [|i|f|s|b|x]; try done.
  - intros H%overflows_false. by rewrite H.
  - by destruct x.
  - by intros ->.
  - by destruct x.
Qed.

(** C27: a row the executor coerces to the columns of a table has in every cell a
    null or a value of the declared type within the declared length; coercing
    it again changes nothing, and the storage engine, which converts rows once
    more before it encodes them, accepts every cell as it is. *)
Theorem coerced_rows_typed row columns coerced :
  printsPlainly → coerceRow row columns = Ok coerced →
  (∀ i w, coerced !! i = Some w → ∃ column, columns !! i = Some column ∧ hasType column w ∧
     (ToUpper (c_Type column) = c_Type column → normalize (In w) column = Ok w)) ∧
  length coerced = length row ∧ coerceRow (In <$> coerced) columns = Ok coerced.
Proof.
  intros Hp. revert columns coerced. induction row as [|v row IH]; intros columns coerced; cbn [CoerceRowViaEval].
  { intros [= <-]. split_and!; try done. }
  destruct columns as [|column columns]; [done|]. destruct (coerce v column) as [w|e|] eqn:Ev; [|done..].
  destruct (coerceRow row columns) as [ws|e|] eqn:Er; [|done..]. cbn [mbind outcome_bind]. intros [= <-].
  destruct (IH columns ws Er) as (H1 & H2 & H3). pose proof (coerce_typed v column w Hp Ev) as Ht. split_and!.
  - intros [|i] x; cbn; [|apply H1]. intros [= <-]. exists column. split_and!; [done|done|]. intros. by apply normalize_fixed.
  - cbn. lia.
  - rewrite fmap_cons. cbn [CoerceRowViaEval]. by rewrite coerce_fixed, H3.
Qed.
End CoerceSpec.

(** ** Names *)

Lemma identByte_safe b : isIdentByte b = true → b ≠ Byte.x2f ∧ b ≠ Byte.x5c ∧ b ≠ dot ∧ b ≠ Byte.x00.
Proof. by destruct b. Qed.

Lemma validIdent_bytes name b : validIdent name = true → b ∈ name → isIdentByte b = true.
Proof.
  destruct name as [|c name]; [done|]. intros [Hc Hn]%andb_true_iff [->|Hb]%elem_of_cons.
  - unfold isIdentByte. by rewrite Hc.
  - rewrite forallb_forall in Hn. by apply Hn, list_elem_of_In.
Qed.

Lemma containsDotDot_dot s : containsDotDot s = true → dot ∈ s.
Proof.
  induction s as [|b s IH]; [done|]. destruct s as [|c s]; [done|]. cbn [containsDotDot].
  intros [[->%bool_decide_eq_true _]%andb_true_iff|H]%orb_true_iff; [left|right; exact (IH H)].
Qed.

(** [ValidateObjectName] accepts exactly the identifiers of 1 to 128 bytes.
    Its first three errors say which rule is broken, its last three never
    occur; an accepted name has no separator, dot or null byte, so that it is
    one component of a path below the data directory. *)
Theorem ValidateObjectName_errors name :
  match ValidateObjectName name with
  | Ok _ => 0 < blen name <= 128 ∧ validIdent name = true ∧
      ∀ b, b ∈ name → b ≠ Byte.x2f ∧ b ≠ Byte.x5c ∧ b ≠ dot ∧ b ≠ Byte.x00
  | Err ErrEmpty => name = []
  | Err ErrTooLong => 128 < blen name
  | Err ErrInvalid => 0 < blen name <= 128 ∧ validIdent name = false
  | _ => False
  end.
Proof.
  unfold ValidateObjectName. destruct (Z.eqb_spec (blen name) 0) as [E|E].
  { destruct name; [done|]. unfold blen in E. cbn in E. lia. }
  assert (0 < blen name) by (unfold blen in *; lia). destruct (Z.ltb_spec 128 (blen name)); [done|].
  destruct (validIdent name) eqn:Hv; [|done]. cbn [negb].
  pose proof (λ b Hb, identByte_safe b (validIdent_bytes name b Hv Hb)) as Hsafe.
  rewrite !bool_decide_eq_false_2 by (intros Hb; by destruct (Hsafe _ Hb) as (? & ? & ? & ?)). cbn [orb].
  destruct (containsDotDot name) eqn:Hd; [|done].
  apply containsDotDot_dot in Hd. by destruct (Hsafe _ Hd) as (_ & _ & ? & _).
Qed.

(** ** Examples *)

Definition exCoerce : input → ColumnSchema → cres iface :=
  CoerceToColumn (λ _, None) (λ _, []) (λ _, - 2 ^ 63) (λ _, []) (λ _, []) (λ _, None) (λ _, None) upper.
Definition exColumns : list ColumnSchema :=
  [mkColumn (str "id") (str "INT") 0; mkColumn (str "name") (str "VARCHAR") 3; mkColumn (str "on") (str "DATE") 0].
Definition exRow : list input := [In (IString (str "-12")); In (IString (str "abc")); InInt 5].

Lemma coerced_rows_typed_witness :
  CoerceRowViaEval (λ _, None) (λ _, []) (λ _, - 2 ^ 63) (λ _, []) (λ _, []) (λ _, None) (λ _, None) upper
    [In (IInt (-12)); In (IString (str "abc")); In (IString (str "5"))] exColumns =
  Ok [IInt (-12); IString (str "abc"); IString (str "5")].
Proof.
  destruct (coerced_rows_typed (λ _, None) (λ _, []) (λ _, - 2 ^ 63) (λ _, []) (λ _, []) (λ _, None) (λ _, None) upper
    exRow exColumns [IInt (-12); IString (str "abc"); IString (str "5")]) as (_ & _ & H).
  - intros v. destruct v as [[| | | | |[]]| |]; try exact I; unfold decodeObject, DecodeJSON; by destruct (blank _ _).
  - vm_compute. reflexivity.
  - exact H.
Defined.

(** The parser accepts columns of type UUID, INTERVAL, ARRAY and ENUM, no value
    but null can be stored in them. *)
Example uuid_unsupported v :
  exCoerce (In (IString v)) (mkColumn (str "u") (str "UUID") 0) = Err ErrUnsupportedType ∧
  normalizeValue (λ _, None) (λ _, []) (λ _, 0) (λ _, []) (λ _, []) (λ _, None) (In (IString v)) (mkColumn (str "u") (str "UUID") 0) =
    Err ErrUnsupportedType.
Proof. done. Qed.

(** The storage engine takes any whole float for an integer, also one that no
    [int64] holds, which the executor rejects: [10^300]. *)
Example whole_float_out_of_range :
  let big := Float64frombits 0x7E37E43C8800759C in
  let col := mkColumn (str "id") (str "INT") 0 in
  exCoerce (In (IFloat big)) col = Err ErrPrecision ∧
  normalizeValue (λ _, None) (λ _, []) (λ _, - 2 ^ 63) (λ _, []) (λ _, []) (λ _, None) (In (IFloat big)) col = Ok (IInt (- 2 ^ 63)).
Proof. vm_compute. done. Qed.
