(* ===== verification/Index.v ===== *)
(** * Secondary indexes

    [server/internal/core/index]: [hash_index.go], [btree.go] and
    [composite.go], three implementations of the interface [Index] of
    [manager.go], which is a type class here: an index maps the key of a row to
    the positions of the rows with that key.  The tree of [github.com/google/btree]
    is a class with the laws its documentation gives.  [IndexManager] keeps
    the indexes of a table by name and by column. *)

From S2P Require Import Prelude Bytes Strconv RowCodec Float64 Eval Joins Bitmap.

(** ** Keys *)

Record IndexableRow : Type := mkIndexable { DeletedTx : Z; Data : list iface }.

Section Sprint.
Context (FormatFloat : float64 → bytes) (sprintV : Value → bytes).

(** [fmt.Sprintf] with the verb [%v]. *)
Definition sprint (v : iface) : bytes :=
  match v with INil => str "<nil>" | _ => ValueToString FormatFloat sprintV v end.

Definition ValueToIndexKey (v : iface) : bytes :=
  match v with INil => Byte.x00 :: str "NULL" | _ => sprint v end.
End Sprint.

(** ** The interface *)

Class Index (I : Type) : Type := {
  IndexColumn : I → bytes;
  IndexColumns : I → list bytes;
  ColIndex : I → nat;
  Lookup : I → bytes → option (list Z);
  Insert : bytes → Z → I → I;
  Delete : Z → I → I;
  (** [None]: the call does not return. *)
  Rebuild : list IndexableRow → I → option I;
  (** The key under which [Rebuild] files a row, if it does. *)
  rowKey : I → list iface → option bytes }.

(** The live rows with a key, from position [i] on. *)
Fixpoint entriesOf (key : list iface → option bytes) (i : Z) (rows : list IndexableRow) : list (bytes * Z) :=
  match rows with
  | [] => []
  | r :: rows =>
      let rest := entriesOf key (i + 1) rows in
      if DeletedTx r =? 0 then match key (Data r) with Some k => (k, i) :: rest | None => rest end else rest
  end.

Definition flip_pair (e : bytes * Z) : Z * bytes := (snd e, fst e).

(** The index of rows at positions from 0 on. *)
Definition rebuilt (key : list iface → option bytes) (rows : list IndexableRow) : gmap Z bytes :=
  list_to_map (flip_pair <$> entriesOf key 0 rows).

(** [get] returns for each key the positions [rev] has under it. *)
Definition exact (get : bytes → option (list Z)) (rev : gmap Z bytes) : Prop :=
  ∀ k, match get k with
       | Some ps => ps ≠ [] ∧ NoDup ps ∧ ∀ p, p ∈ ps ↔ rev !! p = Some k
       | None => ∀ p, rev !! p ≠ Some k
       end.

(** A value that is not a vector, an object or the like. *)
Definition scalar (v : iface) : Prop := match v with IOther _ => False | _ => True end.

(** What an index promises: it is a finite map from positions to keys, which
    [Lookup] inverts; a position that is inserted is not yet in it. *)
Class IndexLaws (I : Type) `{Index I} : Type := {
  keyAt : I → gmap Z bytes;
  valid : I → Prop;
  Lookup_exact i : valid i → exact (Lookup i) (keyAt i);
  Insert_valid i k p : valid i → keyAt i !! p = None → valid (Insert k p i) ∧ keyAt (Insert k p i) = <[p := k]> (keyAt i);
  Delete_valid i p : valid i → valid (Delete p i) ∧ keyAt (Delete p i) = delete p (keyAt i);
  Rebuild_valid i rows i' :
    Rebuild rows i = Some i' → valid i' ∧ keyAt i' = rebuilt (rowKey i) rows ∧ rowKey i' = rowKey i;
  Rebuild_returns i rows : Forall (λ r, Forall scalar (Data r)) rows → is_Some (Rebuild rows i);
  labels_insert i k p : IndexColumn (Insert k p i) = IndexColumn i ∧ ColIndex (Insert k p i) = ColIndex i;
  labels_delete i p : IndexColumn (Delete p i) = IndexColumn i ∧ ColIndex (Delete p i) = ColIndex i;
  rowKey_insert i k p : rowKey (Insert k p i) = rowKey i;
  rowKey_delete i p : rowKey (Delete p i) = rowKey i }.

(** ** Positions of one key *)

(** [positions[j] = positions[last]; positions = positions[:last]] where
    [positions[j] == rowPos]. *)
Definition swapRemove (rowPos : Z) (positions : list Z) : list Z :=
  match list_find (λ p, p = rowPos) positions, last positions with
  | Some (j, _), Some l => removelast (<[j := l]> positions)
  | _, _ => positions
  end.

(** [append(positions[:j], positions[j+1:]...)]. *)
Definition cutRemove (rowPos : Z) (positions : list Z) : list Z :=
  match list_find (λ p, p = rowPos) positions with
  | Some (j, _) => take j positions ++ drop (S j) positions
  | None => positions
  end.

Lemma cutRemove_perm p ps : p ∈ ps → ps ≡ₚ p :: cutRemove p ps.
Proof.
  intros Hp. unfold cutRemove. destruct (list_find_elem_of (λ q, q = p) ps p Hp eq_refl) as [[j q] E]. rewrite E.
  apply list_find_Some in E as (Hj & -> & _). rewrite <- (take_drop_middle ps j p Hj) at 1. by rewrite Permutation_middle.
Qed.

Lemma swapRemove_perm p ps : p ∈ ps → ps ≡ₚ p :: swapRemove p ps.
Proof.
  intros Hp. unfold swapRemove. destruct (list_find_elem_of (λ q, q = p) ps p Hp eq_refl) as [[j q] E]. rewrite E.
  apply list_find_Some in E as (Hj & -> & _). destruct (last ps) as [l|] eqn:El.
  2: { apply last_None in El as ->. done. }
  apply last_Some in El as [ps' ->]. destruct (decide (j = length ps')) as [->|Hne].
  - rewrite list_insert_id' by (by intros; rewrite lookup_app_r, Nat.sub_diag by lia).
    rewrite lookup_app_r, Nat.sub_diag in Hj by lia. injection Hj as ->. rewrite removelast_last. by rewrite Permutation_app_comm.
  - assert (j < length ps')%nat by (apply lookup_lt_Some in Hj; rewrite length_app in Hj; cbn in Hj; lia).
    rewrite insert_app_l by done. rewrite removelast_last. rewrite lookup_app_l in Hj by done.
    rewrite <- (take_drop_middle ps' j p Hj) at 1. rewrite insert_take_drop by done. solve_Permutation.
Qed.

Section Exact.
Context (get get' : bytes → option (list Z)) (rev : gmap Z bytes).

Lemma exact_insert k p :
  exact get rev → rev !! p = None → get' k = Some (default [] (get k) ++ [p]) → (∀ k', k' ≠ k → get' k' = get k') →
  exact get' (<[p := k]> rev).
Proof.
  intros He Hp Hk Hother k'. destruct (decide (k' = k)) as [->|Hne].
  - rewrite Hk. specialize (He k). destruct (get k) as [ps|]; cbn [default].
    + destruct He as (_ & Hnd & Hin). split_and!; [by destruct ps| |].
      * apply NoDup_app. split_and!; [done| |apply NoDup_singleton]. intros q Hq%Hin ->%list_elem_of_singleton. congruence.
      * intros q. rewrite elem_of_app, list_elem_of_singleton, Hin, lookup_insert_Some. destruct (decide (p = q)) as [->|].
        -- split; [by left|]. by right.
        -- naive_solver.
    + split_and!; [done|apply NoDup_singleton|]. intros q. cbn. rewrite list_elem_of_singleton, lookup_insert_Some.
      split; [by intros ->; left|]. intros [[<- _]|[_ Hq]]; [done|]. by destruct (He q).
  - rewrite Hother by done. specialize (He k'). destruct (get k') as [ps|].
    + destruct He as (Hn & Hnd & Hin). split_and!; [done|done|]. intros q. rewrite Hin, lookup_insert_Some.
      destruct (decide (p = q)) as [->|]; [|naive_solver]. split; [congruence|]. intros [[_ ?]|[? _]]; congruence.
    + intros q Hq. apply lookup_insert_Some in Hq as [[_ ?]|[_ Hq]]; [congruence|]. by destruct (He q).
Qed.

Lemma exact_delete k p ps ps' :
  exact get rev → rev !! p = Some k → get k = Some ps → ps ≡ₚ p :: ps' →
  get' k = match ps' with [] => None | _ => Some ps' end → (∀ k', k' ≠ k → get' k' = get k') →
  exact get' (delete p rev).
Proof.
  intros He Hp Hg Hperm Hk Hother. pose proof (He k) as Hek. rewrite Hg in Hek. destruct Hek as (_ & Hnd & Hin).
  rewrite Hperm in Hnd. apply NoDup_cons in Hnd as [Hnin Hnd].
  assert (∀ q, q ∈ ps' ↔ delete p rev !! q = Some k) as Hin'.
  { intros q. rewrite lookup_delete_Some, <- Hin, Hperm, elem_of_cons. split; [|naive_solver]. intros Hq. split; [|by right].
    intros ->. done. }
  intros k'. destruct (decide (k' = k)) as [->|Hne].
  - rewrite Hk. destruct ps' as [|x ps'']; [|done]. intros q Hq%Hin'. by apply elem_of_nil in Hq.
  - rewrite Hother by done. specialize (He k'). destruct (get k') as [qs|].
    + destruct He as (Hn & Hnd' & Hin''). split_and!; [done|done|]. intros q. rewrite Hin'', lookup_delete_Some.
      split; [|by intros [_ ?]]. intros Hq. split; [|done]. intros ->. congruence.
    + intros q Hq. apply lookup_delete_Some in Hq as [_ Hq]. by destruct (He q).
Qed.

(** A position that is not there. *)
Lemma exact_delete_none p : exact get rev → rev !! p = None → delete p rev = rev.
Proof. intros _ Hp. by apply delete_id. Qed.

(** A position that is there is found under its key. *)
Lemma exact_get p k : exact get rev → rev !! p = Some k → ∃ ps, get k = Some ps ∧ p ∈ ps.
Proof. intros He Hp. specialize (He k). destruct (get k) as [ps|]; [|by destruct (He p)]. exists ps. split; [done|]. by apply He. Qed.
End Exact.

(** ** Rebuilding *)

Lemma entriesOf_pos key i rows p : p ∈ (entriesOf key i rows).*2 → i <= p.
Proof.
  revert i. induction rows as [|r rows IH]; intros i; cbn [entriesOf]; [by intros ?%elem_of_nil|].
  destruct (DeletedTx r =? 0); [|intros Hp%IH; lia]. destruct (key (Data r)) as [k|]; [|intros Hp%IH; lia].
  rewrite fmap_cons. intros [->|Hp%IH]%elem_of_cons; [done|lia].
Qed.

Lemma entriesOf_nodup key i rows : NoDup (entriesOf key i rows).*2.
Proof.
  revert i. induction rows as [|r rows IH]; intros i; cbn [entriesOf]; [constructor|].
  destruct (DeletedTx r =? 0); [|apply IH]. destruct (key (Data r)) as [k|]; [|apply IH].
  rewrite fmap_cons. apply NoDup_cons. split; [|apply IH]. intros Hp%entriesOf_pos. cbn in Hp. lia.
Qed.

Lemma flip_keys (es : list (bytes * Z)) : (flip_pair <$> es).*1 = es.*2.
Proof. induction es as [|[k p] es IH]; [done|]. cbn. by rewrite IH. Qed.

(** Entries inserted one after the other into an index without them. *)
Lemma insertAll {I} (ins : bytes → Z → I → I) (ok : I → Prop) (rev : I → gmap Z bytes) es idx :
  (∀ i k p, ok i → rev i !! p = None → ok (ins k p i) ∧ rev (ins k p i) = <[p := k]> (rev i)) →
  ok idx → rev idx = ∅ → NoDup es.*2 →
  ok (foldl (λ i e, ins e.1 e.2 i) idx es) ∧ rev (foldl (λ i e, ins e.1 e.2 i) idx es) = list_to_map (flip_pair <$> es).
Proof.
  intros Hins Hok Hrev. induction es as [|[k p] es IH] using rev_ind; intros Hnd; [done|].
  rewrite fmap_app in Hnd. apply NoDup_app in Hnd as (Hnd & Hdis & _). destruct (IH Hnd) as [Hok' Hrev'].
  rewrite foldl_app. cbn [foldl fst snd]. set (i' := foldl _ _ _) in *.
  assert (p ∉ (flip_pair <$> es).*1) as Hnin.
  { rewrite flip_keys. intros Hp. apply (Hdis p Hp). left. }
  destruct (Hins i' k p Hok') as [H1 H2].
  { rewrite Hrev'. by apply not_elem_of_list_to_map. }
  split; [done|]. rewrite H2, Hrev', fmap_app. cbn. symmetry. by apply list_to_map_snoc.
Qed.

Lemma list_to_map_flip_perm (es es' : list (bytes * Z)) :
  NoDup es.*2 → es ≡ₚ es' → list_to_map (M := gmap Z bytes) (flip_pair <$> es) = list_to_map (flip_pair <$> es').
Proof. intros Hnd Hp. apply list_to_map_proper; [by rewrite flip_keys|by rewrite Hp]. Qed.

(** ** Hash indexes *)

Record HashIndex : Type := mkHash {
  h_name : bytes; h_column : bytes; h_colIndex : nat; h_unique : bool;
  h_data : gmap bytes (list Z); h_reverse : gmap Z bytes }.

(** [ValueToIndexKey(row.Data[colIndex])], unless there is no such column. *)
Definition columnKey (FormatFloat : float64 → bytes) (sprintV : Value → bytes) (colIndex : nat) (row : list iface)
    : option bytes :=
  ValueToIndexKey FormatFloat sprintV <$> row !! colIndex.

Definition HashIndex_New (name column : bytes) (colIndex : nat) : HashIndex := mkHash name column colIndex false ∅ ∅.

Definition HashIndex_with (idx : HashIndex) (d : gmap bytes (list Z)) (r : gmap Z bytes) : HashIndex :=
  mkHash (h_name idx) (h_column idx) (h_colIndex idx) (h_unique idx) d r.

Definition HashIndex_Lookup (idx : HashIndex) (value : bytes) : option (list Z) := h_data idx !! value.

Definition HashIndex_Insert (value : bytes) (rowPos : Z) (idx : HashIndex) : HashIndex :=
  HashIndex_with idx (<[value := default [] (h_data idx !! value) ++ [rowPos]]> (h_data idx)) (<[rowPos := value]> (h_reverse idx)).

Definition HashIndex_Delete (rowPos : Z) (idx : HashIndex) : HashIndex :=
  match h_reverse idx !! rowPos with
  | None => idx
  | Some key =>
      let positions := swapRemove rowPos (default [] (h_data idx !! key)) in
      HashIndex_with idx (match positions with [] => delete key (h_data idx) | _ => <[key := positions]> (h_data idx) end)
        (delete rowPos (h_reverse idx))
  end.

Definition HashIndex_Rebuild (FormatFloat : float64 → bytes) (sprintV : Value → bytes) (rows : list IndexableRow) (idx : HashIndex)
    : HashIndex :=
  foldl (λ i e, HashIndex_Insert e.1 e.2 i) (HashIndex_with idx ∅ ∅) (entriesOf (columnKey FormatFloat sprintV (h_colIndex idx)) 0 rows).

Section HashLaws.
Context (FormatFloat : float64 → bytes) (sprintV : Value → bytes).

#[export] Instance hash_index : Index HashIndex := {|
  IndexColumn := h_column; IndexColumns _ := []; ColIndex := h_colIndex;
  Lookup := HashIndex_Lookup; Insert := HashIndex_Insert; Delete := HashIndex_Delete;
  Rebuild rows idx := Some (HashIndex_Rebuild FormatFloat sprintV rows idx);
  rowKey idx := columnKey FormatFloat sprintV (h_colIndex idx) |}.

Definition hash_ok (idx : HashIndex) : Prop := exact (λ k, h_data idx !! k) (h_reverse idx).

Lemma hash_insert idx k p :
  hash_ok idx → h_reverse idx !! p = None →
  hash_ok (HashIndex_Insert k p idx) ∧ h_reverse (HashIndex_Insert k p idx) = <[p := k]> (h_reverse idx).
Proof.
  intros Hok Hp. split; [|done]. eapply exact_insert; [exact Hok|done|..]; cbn.
  - by rewrite lookup_insert_eq.
  - intros k' Hne. by rewrite lookup_insert_ne.
Qed.

Lemma hash_delete idx p :
  hash_ok idx → hash_ok (HashIndex_Delete p idx) ∧ h_reverse (HashIndex_Delete p idx) = delete p (h_reverse idx).
Proof.
  intros Hok. unfold HashIndex_Delete. destruct (h_reverse idx !! p) as [k|] eqn:Hp; [|by rewrite delete_id].
  split; [|done]. destruct (exact_get _ _ p k Hok Hp) as (ps & Hg & Hin). rewrite Hg. cbn [default].
  eapply exact_delete; [exact Hok|exact Hp|exact Hg|by apply swapRemove_perm|..]; cbn.
  - destruct (swapRemove p ps); [by rewrite lookup_delete_eq|by rewrite lookup_insert_eq].
  - intros k' Hne. destruct (swapRemove p ps); [by rewrite lookup_delete_ne|by rewrite lookup_insert_ne].
Qed.

Lemma exact_empty (get : bytes → option (list Z)) : (∀ k, get k = None) → exact get ∅.
Proof. intros H k. rewrite H. intros p. by rewrite lookup_empty. Qed.

Lemma hash_Rebuild_colIndex rows idx :
  columnKey FormatFloat sprintV (h_colIndex (HashIndex_Rebuild FormatFloat sprintV rows idx)) =
  columnKey FormatFloat sprintV (h_colIndex idx).
Proof. unfold HashIndex_Rebuild. induction (entriesOf _ _ _) as [|e es IH] using rev_ind; [done|]. by rewrite foldl_app. Qed.

#[export] Instance hash_laws : IndexLaws HashIndex.
Proof.
  refine {| keyAt := h_reverse; valid := hash_ok |}.
  - by intros i.
  - apply hash_insert.
  - apply hash_delete.
  - intros i rows i' [= <-]. rewrite assoc by apply _. split; [|apply hash_Rebuild_colIndex].
    apply (insertAll HashIndex_Insert hash_ok h_reverse); [apply hash_insert| |done|apply entriesOf_nodup].
    apply exact_empty. intros k. cbn. by rewrite lookup_empty.
  - by eexists.
  - done.
  - intros i p. cbn. unfold HashIndex_Delete. by destruct (h_reverse i !! p).
  - done.
  - intros i p. cbn. unfold HashIndex_Delete. by destruct (h_reverse i !! p).
Defined.
End HashLaws.

(** ** The order of keys *)

(** Go compares strings byte by byte. *)
Definition klt (a b : bytes) : Prop := bytesCompare a b = Lt.
Definition kle (a b : bytes) : Prop := bytesCompare a b ≠ Gt.

#[export] Instance kle_dec a b : Decision (kle a b).
Proof. unfold kle. destruct (bytesCompare a b); [left|left|right]; congruence. Defined.

Lemma bytesCompare_eq a b : bytesCompare a b = Eq ↔ a = b.
Proof.
  revert b. induction a as [|x a IH]; intros [|y b]; try done. cbn.
  destruct (Z.compare_spec (byte.unsigned x) (byte.unsigned y)) as [E|E|E].
  - apply byte.unsigned_inj in E as <-. rewrite IH. split; [by intros ->|by intros [= ->]].
  - split; [done|]. intros [= -> _]. lia.
  - split; [done|]. intros [= -> _]. lia.
Qed.

Lemma kle_trans a b c : kle a b → kle b c → kle a c.
Proof. apply bytesCompare_le_trans. Qed.

Lemma kle_lt a b : kle a b ↔ klt a b ∨ a = b.
Proof.
  unfold kle, klt. destruct (bytesCompare a b) eqn:E.
  - apply bytesCompare_eq in E as ->. split; [by right|done].
  - split; [by left|done].
  - split; [done|]. intros [?| ->]; [done|]. by rewrite (proj2 (bytesCompare_eq b b) eq_refl) in E.
Qed.

Lemma kle_or a b : kle a b ∨ klt b a.
Proof. unfold kle, klt. rewrite (bytesCompare_antisym a b). destruct (bytesCompare a b); [by left|by left|by right]. Qed.

Lemma klt_not_kle a b : klt a b → ¬ kle b a.
Proof. unfold kle, klt. rewrite (bytesCompare_antisym a b). intros ->. by intros []. Qed.

Lemma klt_irrefl a : ¬ klt a a.
Proof. unfold klt. by rewrite (proj2 (bytesCompare_eq a a) eq_refl). Qed.

Lemma kle_lt_trans a b c : kle a b → klt b c → klt a c.
Proof.
  intros Hab Hbc. destruct (kle_or c a) as [Hca|?]; [|done]. exfalso. apply (klt_not_kle b c Hbc). by eapply kle_trans.
Qed.

Lemma klt_trans a b c : klt a b → klt b c → klt a c.
Proof. intros Hab. apply kle_lt_trans. apply kle_lt. by left. Qed.

(** ** B-tree indexes *)

(** What [github.com/google/btree] documents of a tree of entries: a sorted map.
    The entries are pointers; a change of the positions of an entry in the
    tree is a replacement of the entry. *)
Class BTreeLib (T : Type) : Type := {
  gNew : T;
  gGet : T → bytes → option (list Z);
  gReplaceOrInsert : bytes → list Z → T → T;
  gDelete : bytes → T → T;
  gAscend : T → list (bytes * list Z);
  gAscendGreaterOrEqual : bytes → T → list (bytes * list Z) }.

Class BTreeLaws (T : Type) `{BTreeLib T} : Prop := {
  gGet_new k : gGet gNew k = None;
  gGet_replace k v t k' : gGet (gReplaceOrInsert k v t) k' = if decide (k' = k) then Some v else gGet t k';
  gGet_delete k t k' : gGet (gDelete k t) k' = if decide (k' = k) then None else gGet t k';
  gAscend_get t k v : (k, v) ∈ gAscend t ↔ gGet t k = Some v;
  gAscend_sorted t : StronglySorted klt (gAscend t).*1;
  gAscend_from low t : gAscendGreaterOrEqual low t = filter (λ e, kle low e.1) (gAscend t) }.

Record BTreeIndex (T : Type) : Type := mkBTree {
  b_name : bytes; b_column : bytes; b_colIndex : nat; b_unique : bool;
  b_tree : T; b_reverse : gmap Z bytes; b_storedCols : gmap Z (gmap bytes iface) }.
Arguments mkBTree {T}.
Arguments b_name {T}.
Arguments b_column {T}.
Arguments b_colIndex {T}.
Arguments b_unique {T}.
Arguments b_tree {T}.
Arguments b_reverse {T}.
Arguments b_storedCols {T}.

Section BTree.
Context {T : Type} `{BTreeLib T}.

Definition NewBTreeIndex (name column : bytes) (colIndex : nat) : BTreeIndex T := mkBTree name column colIndex false gNew ∅ ∅.

Definition BTreeIndex_with (idx : BTreeIndex T) (t : T) (r : gmap Z bytes) (sc : gmap Z (gmap bytes iface)) : BTreeIndex T :=
  mkBTree (b_name idx) (b_column idx) (b_colIndex idx) (b_unique idx) t r sc.

Definition BTreeIndex_Lookup (idx : BTreeIndex T) (value : bytes) : option (list Z) := gGet (b_tree idx) value.

(** The callback of the ascent, which stops at the first key after [high]. *)
Fixpoint collectUpTo (high : bytes) (items : list (bytes * list Z)) : list Z :=
  match items with
  | [] => []
  | (key, positions) :: items => if decide (kle key high) then positions ++ collectUpTo high items else []
  end.

Definition BTreeIndex_Range (low high : bytes) (idx : BTreeIndex T) : list Z :=
  collectUpTo high (gAscendGreaterOrEqual low (b_tree idx)).

Definition insertKey (value : bytes) (rowPos : Z) (t : T) : T :=
  match gGet t value with
  | Some positions => gReplaceOrInsert value (positions ++ [rowPos]) t
  | None => gReplaceOrInsert value [rowPos] t
  end.

Definition BTreeIndex_Insert (value : bytes) (rowPos : Z) (idx : BTreeIndex T) : BTreeIndex T :=
  BTreeIndex_with idx (insertKey value rowPos (b_tree idx)) (<[rowPos := value]> (b_reverse idx)) (b_storedCols idx).

Definition BTreeIndex_StoreColumns (rowPos : Z) (columns : gmap bytes iface) (idx : BTreeIndex T) : BTreeIndex T :=
  BTreeIndex_with idx (b_tree idx) (b_reverse idx) (<[rowPos := columns]> (b_storedCols idx)).

Definition BTreeIndex_InsertWithColumns (value : bytes) (rowPos : Z) (columns : option (gmap bytes iface)) (idx : BTreeIndex T)
    : BTreeIndex T :=
  let idx := BTreeIndex_Insert value rowPos idx in
  match columns with Some c => BTreeIndex_StoreColumns rowPos c idx | None => idx end.

Definition BTreeIndex_GetStoredColumns (rowPos : Z) (idx : BTreeIndex T) : option (gmap bytes iface) := b_storedCols idx !! rowPos.

(** The columns stored with one of the rows. *)
Definition BTreeIndex_Columns (idx : BTreeIndex T) : list bytes :=
  match map_to_list (b_storedCols idx) with [] => [] | (_, cols) :: _ => (map_to_list cols).*1 end.

Definition BTreeIndex_Delete (rowPos : Z) (idx : BTreeIndex T) : BTreeIndex T :=
  match b_reverse idx !! rowPos with
  | None => idx
  | Some key =>
      let t :=
        match gGet (b_tree idx) key with
        | None => b_tree idx
        | Some positions =>
            match swapRemove rowPos positions with
            | [] => gDelete key (b_tree idx)
            | positions => gReplaceOrInsert key positions (b_tree idx)
            end
        end in
      BTreeIndex_with idx t (delete rowPos (b_reverse idx)) (delete rowPos (b_storedCols idx))
  end.

(** [sortEntries] is [sort.Slice] by key; the stored columns are left as they are. *)
Definition BTreeIndex_Rebuild (FormatFloat : float64 → bytes) (sprintV : Value → bytes)
    (sortEntries : list (bytes * Z) → list (bytes * Z)) (rows : list IndexableRow) (idx : BTreeIndex T) : BTreeIndex T :=
  foldl (λ i e, BTreeIndex_Insert e.1 e.2 i) (BTreeIndex_with idx gNew ∅ (b_storedCols idx))
    (sortEntries (entriesOf (columnKey FormatFloat sprintV (b_colIndex idx)) 0 rows)).
End BTree.

(** [sort.Slice] by key: a permutation with the keys in order. *)
Definition sortsByKey (sortEntries : list (bytes * Z) → list (bytes * Z)) : Prop :=
  ∀ es, sortEntries es ≡ₚ es ∧ StronglySorted kle (sortEntries es).*1.

Section BTreeSpec.
Context {T : Type} `{BTreeLaws T} (FormatFloat : float64 → bytes) (sprintV : Value → bytes).
Context (sortEntries : list (bytes * Z) → list (bytes * Z)) (Hsort : sortsByKey sortEntries).

#[export] Instance btree_index : Index (BTreeIndex T) := {|
  IndexColumn := b_column; IndexColumns := BTreeIndex_Columns; ColIndex := b_colIndex;
  Lookup := BTreeIndex_Lookup; Insert := BTreeIndex_Insert; Delete := BTreeIndex_Delete;
  Rebuild rows idx := Some (BTreeIndex_Rebuild FormatFloat sprintV sortEntries rows idx);
  rowKey idx := columnKey FormatFloat sprintV (b_colIndex idx) |}.

Definition btree_ok (idx : BTreeIndex T) : Prop := exact (gGet (b_tree idx)) (b_reverse idx).

Lemma btree_insert idx k p :
  btree_ok idx → b_reverse idx !! p = None →
  btree_ok (BTreeIndex_Insert k p idx) ∧ b_reverse (BTreeIndex_Insert k p idx) = <[p := k]> (b_reverse idx).
Proof.
  intros Hok Hp. split; [|done]. eapply exact_insert; [exact Hok|done|..]; cbn; unfold insertKey.
  - destruct (gGet (b_tree idx) k); rewrite gGet_replace; by case_decide.
  - intros k' Hne. destruct (gGet (b_tree idx) k); rewrite gGet_replace; by case_decide.
Qed.

Lemma btree_delete idx p :
  btree_ok idx → btree_ok (BTreeIndex_Delete p idx) ∧ b_reverse (BTreeIndex_Delete p idx) = delete p (b_reverse idx).
Proof.
  intros Hok. unfold BTreeIndex_Delete. destruct (b_reverse idx !! p) as [k|] eqn:Hp; [|by rewrite delete_id].
  split; [|done]. destruct (exact_get _ _ p k Hok Hp) as (ps & Hg & Hin). rewrite Hg.
  eapply exact_delete; [exact Hok|exact Hp|exact Hg|by apply swapRemove_perm|..]; cbn.
  - destruct (swapRemove p ps); [rewrite gGet_delete|rewrite gGet_replace]; by case_decide.
  - intros k' Hne. destruct (swapRemove p ps); [rewrite gGet_delete|rewrite gGet_replace]; by case_decide.
Qed.

Lemma btree_Rebuild_colIndex rows (idx : BTreeIndex T) :
  columnKey FormatFloat sprintV (b_colIndex (BTreeIndex_Rebuild FormatFloat sprintV sortEntries rows idx)) =
  columnKey FormatFloat sprintV (b_colIndex idx).
Proof. unfold BTreeIndex_Rebuild. induction (sortEntries _) as [|e es IH] using rev_ind; [done|]. by rewrite foldl_app. Qed.

#[export] Instance btree_laws : IndexLaws (BTreeIndex T).
Proof.
  refine {| keyAt := b_reverse; valid := btree_ok |}.
  - by intros i.
  - apply btree_insert.
  - apply btree_delete.
  - intros i rows i' [= <-]. rewrite assoc by apply _. split; [|apply btree_Rebuild_colIndex].
    cbn [rowKey btree_index]. unfold BTreeIndex_Rebuild, rebuilt.
    set (es := entriesOf _ _ _). destruct (Hsort es) as [Hp _].
    pose proof (entriesOf_nodup (columnKey FormatFloat sprintV (b_colIndex i)) 0 rows) as Hnd. fold es in Hnd.
    rewrite <- (list_to_map_flip_perm (sortEntries es) es) by (done || by rewrite Hp).
    apply (insertAll BTreeIndex_Insert btree_ok b_reverse); [apply btree_insert| |done|by rewrite Hp].
    apply exact_empty. apply gGet_new.
  - by eexists.
  - done.
  - intros i p. cbn. unfold BTreeIndex_Delete. by destruct (b_reverse i !! p).
  - done.
  - intros i p. cbn. unfold BTreeIndex_Delete. by destruct (b_reverse i !! p).
Defined.
End BTreeSpec.

(** ** Ranges *)

Lemma filter_none {A} (P : A → Prop) `{!∀ x, Decision (P x)} l : Forall (λ x, ¬ P x) l → filter P l = [].
Proof. induction 1 as [|x l Hx _ IH]; [done|]. by rewrite filter_cons, decide_False. Qed.

Lemma collectUpTo_filter high items :
  StronglySorted klt items.*1 → collectUpTo high items = filter (λ e, kle e.1 high) items ≫= snd.
Proof.
  induction items as [|[k ps] items IH]; intros Hs; [done|]. rewrite fmap_cons in Hs. inversion Hs as [|? ? Hs' Hall]; subst.
  cbn [collectUpTo]. rewrite filter_cons. cbn [fst]. case_decide as Hk; [by rewrite bind_cons, IH|].
  rewrite filter_none; [done|]. rewrite Forall_fmap in Hall. eapply Forall_impl; [exact Hall|]. cbn.
  intros [k' ps'] Hlt Hle. apply Hk. apply (kle_trans _ k'); [|done]. apply kle_lt. by left.
Qed.

Lemma StronglySorted_filter {A} (R : A → A → Prop) {B} (f : B → A) (P : B → Prop) `{!∀ x, Decision (P x)} (l : list B) :
  StronglySorted R (f <$> l) → StronglySorted R (f <$> filter P l).
Proof.
  induction l as [|x l IH]; intros Hs; [done|]. rewrite fmap_cons in Hs. inversion Hs as [|? ? Hs' Hall]; subst.
  rewrite filter_cons. case_decide; [|by apply IH]. rewrite fmap_cons. constructor; [by apply IH|].
  rewrite Forall_fmap in Hall |- *. rewrite Forall_forall in Hall |- *. intros y [_ Hy]%list_elem_of_filter. by apply Hall.
Qed.

Section RangeSpec.
Context {T : Type} `{BTreeLaws T}.

Definition inRange (low high k : bytes) : Prop := kle low k ∧ kle k high.

Lemma Range_filter low high (idx : BTreeIndex T) :
  BTreeIndex_Range low high idx = filter (λ e, kle e.1 high) (filter (λ e, kle low e.1) (gAscend (b_tree idx))) ≫= snd.
Proof.
  unfold BTreeIndex_Range. rewrite gAscend_from. apply collectUpTo_filter. apply (StronglySorted_filter klt fst), gAscend_sorted.
Qed.

Lemma Range_elem low high (idx : BTreeIndex T) p :
  btree_ok idx → p ∈ BTreeIndex_Range low high idx ↔ ∃ k, b_reverse idx !! p = Some k ∧ inRange low high k.
Proof.
  intros Hok. rewrite Range_filter, list_elem_of_bind. setoid_rewrite list_elem_of_filter. setoid_rewrite list_elem_of_filter. split.
  - intros ([k ps] & Hp & Hhigh & Hlow & Hin). cbn in *. exists k. split; [|done]. apply gAscend_get in Hin.
    specialize (Hok k). rewrite Hin in Hok. by apply Hok.
  - intros (k & Hk & Hlow & Hhigh). destruct (exact_get _ _ p k Hok Hk) as (ps & Hg & Hin). exists (k, ps). cbn.
    split_and!; [done|done|done|]. by apply gAscend_get.
Qed.

Definition inOrder (m : gmap Z bytes) (p q : Z) : Prop := ∃ kp kq, m !! p = Some kp ∧ m !! q = Some kq ∧ kle kp kq.

(** Groups of positions in the order of their keys. *)
Lemma groups_inOrder (m : gmap Z bytes) (es : list (bytes * list Z)) :
  StronglySorted klt es.*1 → (∀ k ps, (k, ps) ∈ es → ∀ p, p ∈ ps → m !! p = Some k) → StronglySorted (inOrder m) (es ≫= snd).
Proof.
  induction es as [|[k ps] es IH]; intros Hs Hm; [constructor|]. rewrite fmap_cons in Hs.
  apply StronglySorted_cons in Hs as [Hall Hs]. rewrite Forall_fmap, Forall_forall in Hall. rewrite bind_cons. cbn [snd].
  apply StronglySorted_app. split_and!.
  - intros p q Hp Hq. apply list_elem_of_bind in Hq as ([k' qs] & Hq & Hin). exists k, k'.
    split_and!; [by eapply Hm; [left|]|by eapply Hm; [right|]|]. apply kle_lt. left. by apply (Hall (k', qs)).
  - assert (∀ p, p ∈ ps → m !! p = Some k) as Hk by (intros; by eapply Hm; [left|]). clear -Hk.
    induction ps as [|p ps IH]; [constructor|]. apply StronglySorted_cons. split; [|apply IH; intros; apply Hk; by right].
    apply Forall_forall. intros q Hq. exists k, k. split_and!; [apply Hk; by left|apply Hk; by right|apply kle_lt; by right].
  - apply IH; [done|]. intros. by eapply Hm; [right|].
Qed.

Lemma Range_inOrder low high (idx : BTreeIndex T) : btree_ok idx → StronglySorted (inOrder (b_reverse idx)) (BTreeIndex_Range low high idx).
Proof.
  intros Hok. rewrite Range_filter. apply groups_inOrder.
  - do 2 apply (StronglySorted_filter klt fst). apply gAscend_sorted.
  - intros k ps [_ [_ Hin]%list_elem_of_filter]%list_elem_of_filter p Hp. apply gAscend_get in Hin.
    specialize (Hok k). rewrite Hin in Hok. by apply Hok.
Qed.
End RangeSpec.

(** ** Composite indexes *)

(** [strings.Join(columns, ",")]. *)
Fixpoint joinComma (columns : list bytes) : bytes :=
  match columns with [] => [] | [c] => c | c :: columns => c ++ Byte.x2c :: joinComma columns end.

(** The parallel arrays [keys] and [values] as one list of pairs. *)
Record CompositeIndex : Type := mkComposite {
  m_name : bytes; m_columns : list bytes; m_colIndex : list nat; m_unique : bool;
  m_entries : list (bytes * list Z); m_reverse : gmap Z bytes }.

Definition NewCompositeIndex (name : bytes) (columns : list bytes) (colIndex : list nat) : CompositeIndex :=
  mkComposite name columns colIndex false [] ∅.

Definition CompositeIndex_with (idx : CompositeIndex) (es : list (bytes * list Z)) (r : gmap Z bytes) : CompositeIndex :=
  mkComposite (m_name idx) (m_columns idx) (m_colIndex idx) (m_unique idx) es r.

(** [sort.SearchStrings(idx.keys, value)]. *)
Definition SearchStrings (es : list (bytes * list Z)) (value : bytes) : nat :=
  sortSearch (length es) (λ i, bool_decide (kle value (nth i es.*1 []))).

(** The index of [value] if it is there. *)
Definition find (es : list (bytes * list Z)) (value : bytes) : option (nat * list Z) :=
  let i := SearchStrings es value in
  match es !! i with
  | Some (k, ps) => if bool_decide (k = value) then Some (i, ps) else None
  | None => None
  end.

(** The slice that is returned is the one in the index. *)
Definition CompositeIndex_Lookup (idx : CompositeIndex) (value : bytes) : option (list Z) := snd <$> find (m_entries idx) value.

Definition insertLocked (value : bytes) (rowPos : Z) (idx : CompositeIndex) : CompositeIndex :=
  let es := m_entries idx in
  let es' :=
    match find es value with
    | Some (i, ps) => <[i := (value, ps ++ [rowPos])]> es
    | None => let i := SearchStrings es value in take i es ++ (value, [rowPos]) :: drop i es
    end in
  CompositeIndex_with idx es' (<[rowPos := value]> (m_reverse idx)).

Definition CompositeIndex_Insert (value : bytes) (rowPos : Z) (idx : CompositeIndex) : CompositeIndex := insertLocked value rowPos idx.

Definition CompositeIndex_Delete (rowPos : Z) (idx : CompositeIndex) : CompositeIndex :=
  match m_reverse idx !! rowPos with
  | None => idx
  | Some key =>
      let es := m_entries idx in
      let es' :=
        match find es key with
        | None => es
        | Some (i, ps) =>
            match cutRemove rowPos ps with
            | [] => take i es ++ drop (S i) es
            | ps => <[i := (key, ps)]> es
            end
        end in
      CompositeIndex_with idx es' (delete rowPos (m_reverse idx))
  end.

(** The loop over the sorted entries: a key equal to the last one extends it. *)
Definition addKeyed (es : list (bytes * list Z)) (e : bytes * Z) : list (bytes * list Z) :=
  match last es with
  | Some (k, ps) =>
      if bool_decide (e.1 = k) then removelast es ++ [(k, ps ++ [e.2])] else es ++ [(e.1, [e.2])]
  | None => [(e.1, [e.2])]
  end.

(** The keys of the live rows; [None] if a key does not return. *)
Fixpoint liveEntries (key : list iface → option bytes) (i : Z) (rows : list IndexableRow) : option (list (bytes * Z)) :=
  match rows with
  | [] => Some []
  | r :: rows =>
      if DeletedTx r =? 0 then k ← key (Data r); es ← liveEntries key (i + 1) rows; Some ((k, i) :: es)
      else liveEntries key (i + 1) rows
  end.

Section Keys.
(** [strings.ToLower], [strings.TrimSpace] and [strconv.FormatFloat] with the format ['f']. *)
Context (ToLower TrimSpace : bytes → bytes) (FormatFixed : float64 → bytes).
Context (sortEntries : list (bytes * Z) → list (bytes * Z)).

(** [strings.TrimLeft(s, "-")]. *)
Fixpoint TrimLeft (s : bytes) : bytes :=
  match s with c :: s' => if bool_decide (c = Byte.x2d) then TrimLeft s' else s | [] => [] end.

Definition pad20 (s : bytes) : bytes := replicate (20 - length (TrimLeft s)) Byte.x20 ++ s.

(** [formatAny] and [formatAnyRaw] call each other on the same value; [None]: out of fuel. *)
Fixpoint formatAnyRaw (fuel : nat) (v : iface) : option bytes :=
  match fuel with
  | O => None
  | S fuel =>
      let formatAny v :=
        raw ← formatAnyRaw fuel v;
        let s := TrimSpace (TrimLeft (TrimSpace raw)) in
        Some (match s with [] => str "0" | _ => s end) in
      match v with
      | IString val => Some val
      | IInt val => Some (FormatInt val)
      | IBool val => Some (if val then str "1" else str "0")
      | INil | IFloat _ | IOther _ => a ← formatAny v; Some (TrimSpace (TrimLeft (TrimSpace a)))
      end
  end.

Definition formatAny (fuel : nat) (v : iface) : option bytes :=
  raw ← formatAnyRaw fuel v;
  let s := TrimSpace (TrimLeft (TrimSpace raw)) in
  Some (match s with [] => str "0" | _ => s end).

Definition formatValue (fuel : nat) (v : iface) : option bytes :=
  match v with
  | IString val => Some val
  | IInt val => Some (pad20 (FormatInt val))
  | IFloat val => Some (pad20 (FormatFixed val))
  | IBool val => Some (if val then str "1" else str "0")
  | INil | IOther _ => a ← formatAny fuel v; Some (TrimSpace (TrimLeft (TrimSpace a)))
  end.

Definition formatIndexValue (fuel : nat) (v : iface) : option bytes :=
  match v with INil => Some [] | _ => s ← formatValue fuel v; Some (ToLower (TrimSpace s)) end.

(** [strings.Join(parts, "\x00")]. *)
Fixpoint join0 (parts : list bytes) : bytes :=
  match parts with [] => [] | [p] => p | p :: parts => p ++ Byte.x00 :: join0 parts end.

(** The part of a column that the row does not have is empty. *)
Definition compositeKey (fuel : nat) (idx : CompositeIndex) (values : list iface) : option bytes :=
  parts ← mapM (λ ci, match values !! ci with Some v => formatIndexValue fuel v | None => Some [] end) (m_colIndex idx);
  Some (join0 parts).

Definition CompositeIndex_Rebuild (fuel : nat) (rows : list IndexableRow) (idx : CompositeIndex) : option CompositeIndex :=
  entries ← liveEntries (compositeKey fuel idx) 0 rows;
  Some (CompositeIndex_with idx (foldl addKeyed [] (sortEntries entries)) (list_to_map (flip_pair <$> entries))).
End Keys.

(** *** Search *)

Lemma key_nth (es : list (bytes * list Z)) i e : es !! i = Some e → nth i es.*1 [] = e.1.
Proof. intros H. rewrite nth_lookup, list_lookup_fmap, H. done. Qed.

Lemma sorted_keys (es : list (bytes * list Z)) i j a b :
  StronglySorted klt es.*1 → es !! i = Some a → es !! j = Some b → (i < j)%nat → klt a.1 b.1.
Proof.
  intros Hs Ha Hb Hij. rewrite <- (take_drop_middle es i a Ha), fmap_app, fmap_cons in Hs.
  apply StronglySorted_app_1_r, StronglySorted_cons in Hs as [Hall _]. rewrite Forall_fmap, Forall_forall in Hall.
  apply Hall, list_elem_of_lookup. exists (j - S i)%nat. rewrite lookup_drop. by replace (S i + (j - S i))%nat with j by lia.
Qed.

Lemma SearchStrings_split es v :
  StronglySorted klt es.*1 →
  ∃ l1 l2, es = l1 ++ l2 ∧ SearchStrings es v = length l1 ∧ Forall (λ e, klt e.1 v) l1 ∧ Forall (λ e, kle v e.1) l2.
Proof.
  intros Hs. unfold SearchStrings, sortSearch. set (f := λ i, bool_decide (kle v (nth i es.*1 []))).
  destruct (searchLoop_spec (length es) (S (length es)) f 0 (length es)) as (Hr & H1 & H2); [lia..| |].
  { intros a b Hab Ha%bool_decide_eq_true. apply bool_decide_eq_true. destruct (decide (a = b)) as [->|]; [done|].
    destruct (lookup_lt_is_Some_2 es a) as [ea Ea]; [lia|]. destruct (lookup_lt_is_Some_2 es b) as [eb Eb]; [lia|].
    rewrite (key_nth _ _ _ Ea) in Ha. rewrite (key_nth _ _ _ Eb). eapply kle_trans; [done|]. apply kle_lt. left.
    eapply sorted_keys; [done..|lia]. }
  set (r := searchLoop _ _ _ _) in *. exists (take r es), (drop r es). split_and!; [by rewrite take_drop|rewrite length_take; lia|..].
  - apply Forall_lookup. intros j e Hj. apply lookup_take_Some in Hj as [Hj Hlt]. specialize (H1 j ltac:(lia)).
    unfold f in H1. rewrite (key_nth _ _ _ Hj) in H1. apply bool_decide_eq_false in H1. by destruct (kle_or v e.1).
  - apply Forall_lookup. intros j e Hj. rewrite lookup_drop in Hj. pose proof (lookup_lt_Some _ _ _ Hj).
    specialize (H2 (r + j)%nat ltac:(lia)). unfold f in H2. rewrite (key_nth _ _ _ Hj) in H2. by apply bool_decide_eq_true in H2.
Qed.

(** A key is either found, or goes between the entries before and after it. *)
Lemma find_cases es v :
  StronglySorted klt es.*1 →
  (∃ l1 ps l2, es = l1 ++ (v, ps) :: l2 ∧ find es v = Some (length l1, ps)) ∨
  (∃ l1 l2, es = l1 ++ l2 ∧ find es v = None ∧ SearchStrings es v = length l1 ∧
     Forall (λ e, klt e.1 v) l1 ∧ Forall (λ e, klt v e.1) l2).
Proof.
  intros Hs. destruct (SearchStrings_split es v Hs) as (l1 & l2 & -> & Hi & H1 & H2). unfold find. rewrite Hi.
  rewrite lookup_app_r, Nat.sub_diag by lia. destruct l2 as [|[k ps] l2]; cbn [lookup list_lookup].
  - right. by exists l1, [].
  - case_bool_decide as Hk; [subst; left; by exists l1, ps, l2|]. right. exists l1, ((k, ps) :: l2). split_and!; try done.
    apply Forall_cons in H2 as [Hvk H2]. assert (klt v k) as Hlt by (apply kle_lt in Hvk as [?| ->]; done).
    constructor; [done|]. rewrite fmap_app, fmap_cons in Hs. apply StronglySorted_app_1_r, StronglySorted_cons in Hs as [Hall _].
    rewrite Forall_fmap in Hall. eapply Forall_impl; [exact Hall|]. intros e He. cbn in He. by eapply klt_trans.
Qed.

Definition getC (es : list (bytes * list Z)) (k : bytes) : option (list Z) := snd <$> find es k.

Lemma sorted_key_unique (es : list (bytes * list Z)) k ps ps' :
  StronglySorted klt es.*1 → (k, ps) ∈ es → (k, ps') ∈ es → ps = ps'.
Proof.
  intros Hs [i Hi]%list_elem_of_lookup [j Hj]%list_elem_of_lookup. destruct (lt_eq_lt_dec i j) as [[Hij| ->]|Hij]; [|congruence|].
  - destruct (klt_irrefl k). apply (sorted_keys es i j (k, ps) (k, ps')); done.
  - destruct (klt_irrefl k). apply (sorted_keys es j i (k, ps') (k, ps)); done.
Qed.

Lemma getC_elem es k ps : StronglySorted klt es.*1 → getC es k = Some ps ↔ (k, ps) ∈ es.
Proof.
  intros Hs. unfold getC. destruct (find_cases es k Hs) as [(l1 & ps' & l2 & E & ->)|(l1 & l2 & E & -> & _ & H1 & H2)]; cbn.
  - split; [intros [= <-]; rewrite E; set_solver|]. intros Hin. f_equal. eapply sorted_key_unique; [exact Hs| |exact Hin].
    rewrite E. set_solver.
  - split; [done|]. rewrite E. rewrite Forall_forall in H1, H2.
    intros [Hin%H1|Hin%H2]%elem_of_app; by destruct (klt_irrefl k).
Qed.

(** Entries that agree but at one key. *)
Lemma getC_other es es' k :
  StronglySorted klt es.*1 → StronglySorted klt es'.*1 →
  (∀ ps, (k, ps) ∈ es' ↔ (k, ps) ∈ es) → getC es' k = getC es k.
Proof. intros Hs Hs' Hiff. apply option_eq. intros ps. rewrite !getC_elem by done. apply Hiff. Qed.

(** *** The operations *)

Definition composite_ok (idx : CompositeIndex) : Prop :=
  StronglySorted klt (m_entries idx).*1 ∧ exact (getC (m_entries idx)) (m_reverse idx).

Lemma sorted_insert l1 l2 (k : bytes) :
  StronglySorted klt (l1 ++ l2) → Forall (λ x, klt x k) l1 → Forall (klt k) l2 → StronglySorted klt (l1 ++ k :: l2).
Proof.
  rewrite !StronglySorted_app, StronglySorted_cons. intros (H & H1 & H2) Hl Hr. split_and!; [|done|done|done].
  rewrite Forall_forall in Hl, Hr. intros x1 x2 Hx1 [->|Hx2]%elem_of_cons; [by apply Hl|by apply H].
Qed.

Lemma composite_insert idx k p :
  composite_ok idx → m_reverse idx !! p = None →
  composite_ok (insertLocked k p idx) ∧ m_reverse (insertLocked k p idx) = <[p := k]> (m_reverse idx).
Proof.
  intros [Hs He] Hp. split; [|done]. unfold composite_ok. cbn [m_entries m_reverse insertLocked CompositeIndex_with].
  set (es := m_entries idx) in *.
  destruct (find_cases es k Hs) as [(l1 & ps & l2 & E & Hf)|(l1 & l2 & E & Hf & Hi & H1 & H2)]; rewrite Hf.
  - rewrite E at 1 2. rewrite E in Hs. rewrite insert_app_r_alt, Nat.sub_diag by lia. cbn [insert list_insert].
    rewrite fmap_app, fmap_cons in Hs. assert (StronglySorted klt (l1 ++ (k, ps ++ [p]) :: l2).*1) as Hs' by (by rewrite fmap_app, fmap_cons).
    split; [done|]. rewrite <- (fmap_cons fst (k, ps)), <- fmap_app, <- E in Hs. eapply exact_insert; [exact He|done|..].
    + unfold getC at 2. rewrite Hf. cbn. apply getC_elem; [done|]. set_solver.
    + intros k' Hne. apply getC_other; [done|done|]. intros qs. rewrite E. set_solver.
  - rewrite Hi. rewrite E at 1 2 3 4. rewrite E in Hs. rewrite take_app_length, drop_app_length.
    rewrite fmap_app in Hs. assert (StronglySorted klt (l1 ++ (k, [p]) :: l2).*1) as Hs'.
    { rewrite fmap_app, fmap_cons. apply sorted_insert; [done|by rewrite Forall_fmap..]. }
    split; [done|]. rewrite <- fmap_app, <- E in Hs. eapply exact_insert; [exact He|done|..].
    + unfold getC at 2. rewrite Hf. cbn. apply getC_elem; [done|]. set_solver.
    + intros k' Hne. apply getC_other; [done|done|]. intros qs. rewrite E. set_solver.
Qed.

Lemma composite_delete idx p :
  composite_ok idx → composite_ok (CompositeIndex_Delete p idx) ∧ m_reverse (CompositeIndex_Delete p idx) = delete p (m_reverse idx).
Proof.
  intros [Hs He]. unfold CompositeIndex_Delete. destruct (m_reverse idx !! p) as [k|] eqn:Hp; [|by rewrite delete_id].
  split; [|done]. unfold composite_ok. cbn [m_entries m_reverse CompositeIndex_with]. set (es := m_entries idx) in *.
  destruct (exact_get _ _ p k He Hp) as (ps & Hg & Hin).
  destruct (find_cases es k Hs) as [(l1 & ps' & l2 & E & Hf)|(l1 & l2 & _ & Hf & _)]; unfold getC in Hg; rewrite Hf in Hg; [|done].
  injection Hg as ->. rewrite Hf. assert (getC es k = Some ps) as Hg by (unfold getC; by rewrite Hf).
  assert (StronglySorted klt (l1.*1 ++ k :: l2.*1)) as Hs1 by (by rewrite E, fmap_app, fmap_cons in Hs).
  assert (∀ k', k' ≠ k → ∀ qs, (k', qs) ∈ es ↔ (k', qs) ∈ l1 ++ l2) as Hel by (intros; rewrite E; set_solver).
  assert (∀ qs, (k, qs) ∉ l1 ++ l2) as Hno.
  { apply StronglySorted_app in Hs1 as (H12 & _ & [H2 _]%StronglySorted_cons). rewrite Forall_forall in H2. intros qs Hq.
    apply (klt_irrefl k). apply (list_elem_of_fmap_2 fst) in Hq. rewrite fmap_app in Hq.
    apply elem_of_app in Hq as [Hq|Hq]; [apply H12; [done|left]|by apply H2]. }
  destruct (cutRemove p ps) as [|q qs] eqn:Ec.
  - rewrite E at 1 2 3 4. rewrite take_app_length.
    replace (drop (S (length l1)) (l1 ++ (k, ps) :: l2)) with l2 by (rewrite drop_app_ge, Nat.sub_succ_l, Nat.sub_diag by lia; done).
    assert (StronglySorted klt (l1 ++ l2).*1) as Hs'.
    { rewrite fmap_app. apply StronglySorted_app in Hs1 as (H12 & H1 & [_ H2]%StronglySorted_cons).
      apply StronglySorted_app_2; [|done|done]. intros. apply H12; [done|by right]. }
    split; [done|]. eapply exact_delete; [exact He|exact Hp|exact Hg|by apply cutRemove_perm|rewrite Ec|].
    + apply eq_None_not_Some. intros [qs Hqs%getC_elem]; [by destruct (Hno qs)|done].
    + intros k' Hne. apply getC_other; [done|done|]. intros. by rewrite Hel.
  - rewrite E at 1 2. rewrite insert_app_r_alt, Nat.sub_diag by lia. cbn [insert list_insert].
    assert (StronglySorted klt (l1 ++ (k, q :: qs) :: l2).*1) as Hs' by (by rewrite fmap_app, fmap_cons).
    split; [done|]. eapply exact_delete; [exact He|exact Hp|exact Hg|by apply cutRemove_perm|rewrite Ec|].
    + apply getC_elem; [done|]. set_solver.
    + intros k' Hne. apply getC_other; [done|done|]. intros. rewrite E. set_solver.
Qed.

(** *** Rebuilding *)

Lemma liveEntries_spec key i rows es : liveEntries key i rows = Some es → es = entriesOf key i rows.
Proof.
  revert i es. induction rows as [|r rows IH]; intros i es; cbn [liveEntries entriesOf]; [by intros [= <-]|].
  destruct (DeletedTx r =? 0); [|apply IH]. destruct (key (Data r)) as [k|]; cbn [mbind option_bind]; [|done].
  destruct (liveEntries key (i + 1) rows) as [es'|] eqn:E; cbn [mbind option_bind]; [|done]. intros [= <-]. by rewrite (IH _ _ E).
Qed.

Lemma find_last es k ps :
  StronglySorted klt (es ++ [(k, ps)]).*1 → find (es ++ [(k, ps)]) k = Some (length es, ps).
Proof.
  intros Hs. assert (getC (es ++ [(k, ps)]) k = Some ps) as Hg by (apply getC_elem; [done|set_solver]).
  destruct (find_cases _ k Hs) as [(l1 & ps' & l2 & E & Hf)|(l1 & l2 & _ & Hf & _)]; unfold getC in Hg; rewrite Hf in Hg; [|done].
  injection Hg as ->. rewrite Hf. do 2 f_equal. destruct l2 as [|e l2 _] using rev_ind; [by apply app_inj_2 in E as [-> _]|].
  exfalso. rewrite app_comm_cons, app_assoc in E. apply app_inj_2 in E as [-> [= <-]]; [|done].
  rewrite fmap_app in Hs. apply (klt_irrefl k). eapply (StronglySorted_app_1_elem_of klt _ _ k k Hs); [|by left].
  rewrite fmap_app, fmap_cons. set_solver.
Qed.

(** The next entry in the order of keys goes to the end. *)
Lemma addEntry_insert idx e :
  StronglySorted klt (m_entries idx).*1 → Forall (λ k, kle k e.1) (m_entries idx).*1 →
  m_entries (insertLocked e.1 e.2 idx) = addKeyed (m_entries idx) e.
Proof.
  destruct e as [k p]. cbn [fst snd insertLocked m_entries CompositeIndex_with]. generalize (m_entries idx). intros es Hs Hall.
  unfold addKeyed. destruct es as [|[k' ps] es _] using rev_ind; [done|]. rewrite last_snoc. cbn [fst snd].
  case_bool_decide as Hk.
  - subst k'. rewrite find_last by done. rewrite insert_app_r_alt, Nat.sub_diag by lia. by rewrite removelast_last.
  - rewrite fmap_app, Forall_app, list_fmap_singleton, Forall_singleton in Hall. destruct Hall as [Hall Hle]. cbn in Hle.
    apply kle_lt in Hle as [Hlt| ->]; [|done].
    assert (Forall (λ x, klt x k) (es ++ [(k', ps)]).*1) as Hlts.
    { rewrite fmap_app, Forall_app, list_fmap_singleton, Forall_singleton. split; [|done]. rewrite fmap_app in Hs. apply Forall_forall. intros x Hx.
      eapply klt_trans; [|exact Hlt]. eapply (StronglySorted_app_1_elem_of klt _ _ _ _ Hs); [done|by left]. }
    destruct (find_cases _ k Hs) as [(l1 & ps' & l2 & E & Hf)|(l1 & l2 & E & Hf & Hi & H1 & H2)]; rewrite Hf.
    + exfalso. apply (klt_irrefl k). rewrite Forall_forall in Hlts. apply Hlts. rewrite E, fmap_app, fmap_cons. set_solver.
    + rewrite Hi. destruct l2 as [|e2 l2].
      * rewrite app_nil_r in E. rewrite E, firstn_all, skipn_all. done.
      * exfalso. apply (klt_irrefl k). apply Forall_cons in H2 as [H2 _]. eapply klt_trans; [exact H2|].
        rewrite Forall_forall in Hlts. apply Hlts. rewrite E, fmap_app, fmap_cons. set_solver.
Qed.

Lemma addEntry_keys es e k : k ∈ (addKeyed es e).*1 → k ∈ es.*1 ∨ k = e.1.
Proof.
  unfold addKeyed. destruct es as [|[k' ps] es _] using rev_ind; [cbn; set_solver|]. rewrite last_snoc.
  case_bool_decide; [rewrite removelast_last|]; rewrite !fmap_app; cbn; set_solver.
Qed.

Lemma addEntry_keys_all es k : k ∈ (foldl addKeyed [] es).*1 → k ∈ es.*1.
Proof.
  induction es as [|e es IH] using rev_ind; [done|]. rewrite foldl_app, fmap_app. cbn [foldl].
  intros [Hk%IH| ->]%addEntry_keys; cbn; set_solver.
Qed.

Lemma addEntries_insert idx es :
  composite_ok idx → m_entries idx = [] → m_reverse idx = ∅ → NoDup es.*2 → StronglySorted kle es.*1 →
  m_entries (foldl (λ i e, insertLocked e.1 e.2 i) idx es) = foldl addKeyed [] es.
Proof.
  intros Hok Hnil Hrev. induction es as [|e es IH] using rev_ind; intros Hnd Hs; [done|].
  rewrite fmap_app in Hnd. rewrite fmap_app in Hs. apply NoDup_app in Hnd as (Hnd & _ & _). rewrite !foldl_app. cbn [foldl].
  pose proof (StronglySorted_app_1_l _ _ _ Hs) as Hs1. destruct (insertAll insertLocked composite_ok m_reverse es idx) as [[Hsort _] _];
    [apply composite_insert|done|done|done|]. rewrite addEntry_insert; [by rewrite IH|done|]. rewrite IH by done.
  apply Forall_forall. intros k Hk%addEntry_keys_all. eapply (StronglySorted_app_1_elem_of kle _ _ _ _ Hs); [done|cbn; by left].
Qed.

Section CompositeLaws.
Context (ToLower TrimSpace : bytes → bytes) (FormatFixed : float64 → bytes).
Context (sortEntries : list (bytes * Z) → list (bytes * Z)) (Hsort : sortsByKey sortEntries) (fuel : nat).

#[export] Instance composite_index : Index CompositeIndex := {|
  IndexColumn idx := joinComma (m_columns idx); IndexColumns := m_columns; ColIndex idx := default 0%nat (head (m_colIndex idx));
  Lookup := CompositeIndex_Lookup; Insert := CompositeIndex_Insert; Delete := CompositeIndex_Delete;
  Rebuild := CompositeIndex_Rebuild ToLower TrimSpace FormatFixed sortEntries fuel;
  rowKey := compositeKey ToLower TrimSpace FormatFixed fuel |}.

(** No fuel is enough for a value that is none of the cases. *)
Lemma formatAnyRaw_diverges n v : formatAnyRaw TrimSpace n (IOther v) = None.
Proof. induction n as [|n IH]; [done|]. cbn. by rewrite IH. Qed.

Lemma formatIndexValue_scalar v : scalar v → is_Some (formatIndexValue ToLower TrimSpace FormatFixed fuel v).
Proof. destruct v; try done; by eexists. Qed.

Lemma compositeKey_scalar idx row :
  Forall scalar row → is_Some (compositeKey ToLower TrimSpace FormatFixed fuel idx row).
Proof.
  intros Hrow. unfold compositeKey.
  assert (is_Some (mapM (λ ci, match row !! ci with
    Some v => formatIndexValue ToLower TrimSpace FormatFixed fuel v | None => Some [] end) (m_colIndex idx))) as [parts ->].
  { apply mapM_is_Some. apply Forall_forall. intros ci _. cbn. destruct (row !! ci) as [v|] eqn:E; [|by eexists].
    apply formatIndexValue_scalar. by eapply Forall_lookup_1. }
  by eexists.
Qed.

Lemma liveEntries_scalar key i rows :
  (∀ row, Forall scalar row → is_Some (key row)) → Forall (λ r, Forall scalar (Data r)) rows →
  is_Some (liveEntries key i rows).
Proof.
  intros Hkey Hall. revert i. induction Hall as [|r rows Hr _ IH]; intros i; cbn [liveEntries]; [by eexists|].
  destruct (DeletedTx r =? 0); [|apply IH]. destruct (Hkey _ Hr) as [k ->]. destruct (IH (i + 1)) as [es ->]. by eexists.
Qed.

#[export] Instance composite_laws : IndexLaws CompositeIndex.
Proof.
  refine {| keyAt := m_reverse; valid := composite_ok |}.
  - by intros i [_ ?].
  - apply composite_insert.
  - apply composite_delete.
  - intros i rows i'. cbn [Rebuild composite_index]. unfold CompositeIndex_Rebuild.
    destruct (liveEntries _ 0 rows) as [es|] eqn:E; cbn [mbind option_bind]; [|done]. intros [= <-].
    apply liveEntries_spec in E. split_and!; [|by rewrite E|done]. destruct (Hsort es) as [Hp Hs].
    assert (NoDup es.*2) as Hnd by (rewrite E; apply entriesOf_nodup).
    set (idx0 := CompositeIndex_with i [] ∅). assert (composite_ok idx0) as Hok0.
    { split; [constructor|]. by apply exact_empty. }
    destruct (insertAll insertLocked composite_ok m_reverse (sortEntries es) idx0) as [Hok Hrev];
      [apply composite_insert|done|done|by rewrite Hp|].
    rewrite <- (list_to_map_flip_perm (sortEntries es) es) by (done || by rewrite Hp).
    unfold composite_ok in *. cbn [m_entries m_reverse CompositeIndex_with]. rewrite Hrev, addEntries_insert in Hok; try done. by rewrite Hp.
  - intros i rows Hall. cbn [Rebuild composite_index]. unfold CompositeIndex_Rebuild.
    destruct (liveEntries_scalar (compositeKey ToLower TrimSpace FormatFixed fuel i) 0 rows) as [es ->]; [|done|by eexists].
    apply compositeKey_scalar.
  - done.
  - intros i p. cbn. unfold CompositeIndex_Delete. by destruct (m_reverse i !! p).
  - done.
  - intros i p. cbn. unfold CompositeIndex_Delete. by destruct (m_reverse i !! p).
Defined.
End CompositeLaws.

(** ** Histories of an index *)

Lemma rebuilt_lookup_from key i rows p k :
  (k, p) ∈ entriesOf key i rows ↔
  ∃ j r, p = i + Z.of_nat j ∧ rows !! j = Some r ∧ DeletedTx r = 0 ∧ key (Data r) = Some k.
Proof.
  revert i. induction rows as [|r rows IH]; intros i; cbn [entriesOf].
  { split; [by intros ?%elem_of_nil|]. by intros (j & r & _ & ? & _). }
  assert ((k, p) ∈ entriesOf key (i + 1) rows ↔
    ∃ j r', p = i + Z.of_nat (S j) ∧ rows !! j = Some r' ∧ DeletedTx r' = 0 ∧ key (Data r') = Some k) as IH'.
  { rewrite IH. split; intros (j & r' & Hp & H); exists j, r'; (split; [lia|done]). }
  assert ((∃ j r', p = i + Z.of_nat j ∧ (r :: rows) !! j = Some r' ∧ DeletedTx r' = 0 ∧ key (Data r') = Some k) ↔
    (p = i ∧ DeletedTx r = 0 ∧ key (Data r) = Some k) ∨ (k, p) ∈ entriesOf key (i + 1) rows) as ->.
  { rewrite IH'. split.
    - intros ([|j] & r' & Hp & Hr & H); [left|right; by exists j, r']. injection Hr as <-. split; [lia|done].
    - intros [(-> & H)|(j & r' & Hp & H)]; [exists 0%nat, r|exists (S j), r']; (split; [lia|done]). }
  destruct (Z.eqb_spec (DeletedTx r) 0); [|naive_solver].
  destruct (key (Data r)) as [k'|]; [|naive_solver]. rewrite elem_of_cons. naive_solver.
Qed.

(** What rebuilding gives: the live rows under their keys. *)
Lemma rebuilt_lookup key rows (p : Z) k :
  rebuilt key rows !! p = Some k ↔
  ∃ j r, p = Z.of_nat j ∧ rows !! j = Some r ∧ DeletedTx r = 0 ∧ key (Data r) = Some k.
Proof.
  unfold rebuilt. rewrite <- elem_of_list_to_map by (rewrite flip_keys; apply entriesOf_nodup).
  rewrite <- (rebuilt_lookup_from key 0). rewrite list_elem_of_fmap. split; [|intros; by exists (k, p)].
  by intros ([k' p'] & [= -> ->] & ?).
Qed.

Inductive iop : Type := OInsert (k : bytes) (p : Z) | ODelete (p : Z) | ORebuild (rows : list IndexableRow).

Definition istep {I} `{Index I} (idx : I) (o : iop) : option I :=
  match o with
  | OInsert k p => Some (Insert k p idx)
  | ODelete p => Some (Delete p idx)
  | ORebuild rows => Rebuild rows idx
  end.

Fixpoint irun {I} `{Index I} (idx : I) (ops : list iop) : option I :=
  match ops with [] => Some idx | o :: ops => idx ← istep idx o; irun idx ops end.

(** The map from positions to keys that a history is to leave; a position is inserted once. *)
Definition mstep (key : list iface → option bytes) (m : gmap Z bytes) (o : iop) : option (gmap Z bytes) :=
  match o with
  | OInsert k p => match m !! p with None => Some (<[p := k]> m) | Some _ => None end
  | ODelete p => Some (delete p m)
  | ORebuild rows => Some (rebuilt key rows)
  end.

Fixpoint mrun (key : list iface → option bytes) (m : gmap Z bytes) (ops : list iop) : option (gmap Z bytes) :=
  match ops with [] => Some m | o :: ops => m ← mstep key m o; mrun key m ops end.

Definition scalarOp (o : iop) : Prop :=
  match o with ORebuild rows => Forall (λ r, Forall scalar (Data r)) rows | _ => True end.

Section History.
Context {I : Type} `{IndexLaws I}.

Lemma istep_refines idx o m :
  valid idx → scalarOp o → mstep (rowKey idx) (keyAt idx) o = Some m →
  ∃ idx', istep idx o = Some idx' ∧ valid idx' ∧ keyAt idx' = m ∧ rowKey idx' = rowKey idx.
Proof.
  intros Hv Hs Hm. destruct o as [k p|p|rows]; cbn in Hs, Hm |- *.
  - destruct (keyAt idx !! p) eqn:E; [done|]. injection Hm as <-. destruct (Insert_valid idx k p Hv E) as [? ?].
    eexists. split_and!; [done..|]. apply rowKey_insert.
  - injection Hm as <-. destruct (Delete_valid idx p Hv) as [? ?]. eexists. split_and!; [done..|]. apply rowKey_delete.
  - injection Hm as <-. destruct (Rebuild_returns idx rows Hs) as [idx' E]. exists idx'. split; [done|]. by apply Rebuild_valid.
Qed.

Lemma irun_refines ops idx m :
  valid idx → Forall scalarOp ops → mrun (rowKey idx) (keyAt idx) ops = Some m →
  ∃ idx', irun idx ops = Some idx' ∧ valid idx' ∧ keyAt idx' = m.
Proof.
  intros Hv Hs. revert idx Hv. induction Hs as [|o ops Ho _ IH]; intros idx Hv; cbn [mrun irun]; [intros [= <-]; by exists idx|].
  destruct (mstep _ _ o) as [m1|] eqn:E; cbn [mbind option_bind]; [|done].
  destruct (istep_refines idx o m1 Hv Ho E) as (idx1 & -> & Hv1 & <- & Hk). cbn [mbind option_bind]. rewrite <- Hk. by apply IH.
Qed.
End History.

(** ** A B-tree and a sort *)

(** The laws hold of a finite map whose entries are listed in order. *)
Definition keyOrder {A} (a b : bytes * A) : Prop := kle a.1 b.1.

#[export] Instance keyOrder_dec {A} (a b : bytes * A) : Decision (keyOrder a b) := kle_dec _ _.
#[export] Instance keyOrder_trans {A} : Transitive (keyOrder (A := A)).
Proof. intros a b c. apply kle_trans. Qed.
#[export] Instance keyOrder_total {A} : Total (keyOrder (A := A)).
Proof. intros a b. destruct (kle_or a.1 b.1) as [?|Hlt]; [by left|right]. apply kle_lt. by left. Qed.

Definition sortSlice {A} : list (bytes * A) → list (bytes * A) := merge_sort keyOrder.

Lemma StronglySorted_keys {A} (l : list (bytes * A)) : StronglySorted keyOrder l → StronglySorted kle l.*1.
Proof.
  induction 1 as [|e l _ IH Hall]; [constructor|]. rewrite fmap_cons. constructor; [done|]. by rewrite Forall_fmap.
Qed.

Lemma StronglySorted_strict (l : list bytes) : NoDup l → StronglySorted kle l → StronglySorted klt l.
Proof.
  induction l as [|k l IH]; intros Hnd Hs; [constructor|]. apply NoDup_cons in Hnd as [Hk Hnd]. inversion Hs as [|? ? Hs' Hall]; subst.
  constructor; [by apply IH|]. rewrite Forall_forall in Hall |- *. intros x Hx. destruct (proj1 (kle_lt k x) (Hall x Hx)) as [?| ->]; done.
Qed.

Lemma sortSlice_sorts : sortsByKey sortSlice.
Proof.
  intros es. split; [apply merge_sort_Permutation|]. apply StronglySorted_keys, StronglySorted_merge_sort; apply _.
Qed.

#[export] Instance map_btree : BTreeLib (gmap bytes (list Z)) := {|
  gNew := ∅; gGet t k := t !! k; gReplaceOrInsert k v t := <[k := v]> t; gDelete k t := delete k t;
  gAscend t := sortSlice (map_to_list t); gAscendGreaterOrEqual low t := filter (λ e, kle low e.1) (sortSlice (map_to_list t)) |}.

#[export] Instance map_btree_laws : BTreeLaws (gmap bytes (list Z)).
Proof.
  split; cbn [gNew gGet gReplaceOrInsert gDelete gAscend gAscendGreaterOrEqual map_btree].
  - intros k. apply lookup_empty.
  - intros k v t k'. case_decide; [subst; by rewrite lookup_insert_eq|by rewrite lookup_insert_ne].
  - intros k t k'. case_decide; [subst; by rewrite lookup_delete_eq|by rewrite lookup_delete_ne].
  - intros t k v. unfold sortSlice. by rewrite merge_sort_Permutation, elem_of_map_to_list.
  - intros t. apply StronglySorted_strict.
    + unfold sortSlice. rewrite (merge_sort_Permutation keyOrder). apply NoDup_fst_map_to_list.
    + apply StronglySorted_keys, StronglySorted_merge_sort; apply _.
  - done.
Qed.

(** ** The indexes of a table *)

Inductive IndexKind : Type := KHash | KBTree | KComposite.

#[export] Instance IndexKind_eq_dec : EqDecision IndexKind.
Proof. solve_decision. Defined.

(** What the manager reads of an index; the indexes are shared, so a name of
    the store stands for the pointer. *)
Record IndexMeta : Type := mkMeta { x_Name : bytes; x_columns : list bytes; x_kind : IndexKind }.

Record IndexManager : Type := mkManager {
  x_store : gmap nat IndexMeta;
  x_indexes : gmap bytes nat;
  x_byColumn : gmap bytes (list nat) }.

Section Manager.
Context (ToLower : bytes → bytes).

Definition NewIndexManager (store : gmap nat IndexMeta) : IndexManager := mkManager store ∅ ∅.

Definition Column (x : IndexMeta) : bytes := joinComma (x_columns x).

Definition IndexManager_columnKey (column : bytes) : bytes := ToLower column.

Fixpoint replaceFirst (old new : bytes) (columns : list bytes) : list bytes :=
  match columns with
  | [] => []
  | c :: columns => if bool_decide (c = old) then new :: columns else c :: replaceFirst old new columns
  end.

(** [Index.RenameColumn]: the column of a hash index or B-tree is set, a
    composite index replaces the one that matches. *)
Definition renameIndex (old new : bytes) (x : IndexMeta) : IndexMeta :=
  mkMeta (x_Name x) (match x_kind x with KComposite => replaceFirst old new (x_columns x) | _ => [new] end) (x_kind x).

Definition meta (m : IndexManager) (p : nat) : IndexMeta := default (mkMeta [] [] KHash) (x_store m !! p).

(** The list without the first index with the name. *)
Fixpoint cutNamed (m : IndexManager) (name : bytes) (col : list nat) : list nat :=
  match col with
  | [] => []
  | v :: col => if bool_decide (x_Name (meta m v) = name) then col else v :: cutNamed m name col
  end.

Definition removeFromColumn (p : nat) (m : IndexManager) : IndexManager :=
  let key := IndexManager_columnKey (Column (meta m p)) in
  let col := cutNamed m (x_Name (meta m p)) (default [] (x_byColumn m !! key)) in
  mkManager (x_store m) (x_indexes m)
    (match col with [] => delete key (x_byColumn m) | _ => <[key := col]> (x_byColumn m) end).

Definition appendColumn (key : bytes) (p : nat) (m : IndexManager) : IndexManager :=
  mkManager (x_store m) (x_indexes m) (<[key := default [] (x_byColumn m !! key) ++ [p]]> (x_byColumn m)).

Definition IndexManager_Add (p : nat) (m : IndexManager) : IndexManager :=
  let name := x_Name (meta m p) in
  let m := match x_indexes m !! name with Some old => removeFromColumn old m | None => m end in
  let m := mkManager (x_store m) (<[name := p]> (x_indexes m)) (x_byColumn m) in
  appendColumn (IndexManager_columnKey (Column (meta m p))) p m.

Definition IndexManager_Remove (name : bytes) (m : IndexManager) : IndexManager :=
  match x_indexes m !! name with
  | None => m
  | Some p => removeFromColumn p (mkManager (x_store m) (delete name (x_indexes m)) (x_byColumn m))
  end.

Definition IndexManager_RenameColumn (indexName oldColumn newColumn : bytes) (m : IndexManager) : IndexManager :=
  match x_indexes m !! indexName with
  | None => m
  | Some p =>
      let m := removeFromColumn p m in
      let m := mkManager (<[p := renameIndex oldColumn newColumn (meta m p)]> (x_store m)) (x_indexes m) (x_byColumn m) in
      appendColumn (IndexManager_columnKey newColumn) p m
  end.

Definition IndexManager_Has (name : bytes) (m : IndexManager) : bool := bool_decide (is_Some (x_indexes m !! name)).

Definition FindForColumn (column : bytes) (m : IndexManager) : option nat := x_byColumn m !! IndexManager_columnKey column ≫= head.

Definition FindForColumnMultiple (column : bytes) (m : IndexManager) : option (list nat) :=
  match x_byColumn m !! IndexManager_columnKey column with None | Some [] => None | Some idxs => Some idxs end.

(** The first B-tree of the column. *)
Definition rangeIndex (column : bytes) (m : IndexManager) : option nat :=
  idxs ← FindForColumnMultiple column m;
  snd <$> list_find (λ p, x_kind (meta m p) = KBTree) idxs.
End Manager.

Section ManagerSpec.
Context {ToLower : bytes → bytes}.
Abbreviation keyOf m p := (IndexManager_columnKey ToLower (Column (meta m p))).

Definition listedAt (m : IndexManager) (key : bytes) : list nat := default [] (x_byColumn m !! key).

(** The index is registered under its name. *)
Definition registered (m : IndexManager) (p : nat) : Prop := x_indexes m !! x_Name (meta m p) = Some p.

(** The lists of [byColumn] hold the indexes [P], each under its column. *)
Definition lists (m : IndexManager) (P : nat → Prop) : Prop :=
  (∀ key, NoDup (listedAt m key) ∧ x_byColumn m !! key ≠ Some []) ∧
  (∀ key p, p ∈ listedAt m key ↔ P p ∧ keyOf m p = key) ∧
  (∀ name p, x_indexes m !! name = Some p → x_Name (meta m p) = name).

Definition managerOk (m : IndexManager) : Prop := lists m (registered m).

Lemma cutNamed_spec m p col :
  NoDup col → (∀ q, q ∈ col → x_Name (meta m q) = x_Name (meta m p) → q = p) →
  NoDup (cutNamed m (x_Name (meta m p)) col) ∧
  ∀ q, q ∈ cutNamed m (x_Name (meta m p)) col ↔ q ∈ col ∧ q ≠ p.
Proof.
  induction col as [|v col IH]; intros Hnd Hinj; [split; [constructor|set_solver]|]. apply NoDup_cons in Hnd as [Hv Hnd].
  cbn [cutNamed]. case_bool_decide as E.
  - rewrite (Hinj v) in Hv |- * by (done || by left). split; [done|]. set_solver.
  - destruct IH as [IH1 IH2]; [done|intros; apply Hinj; [by right|done]|]. split.
    + apply NoDup_cons. rewrite IH2. naive_solver.
    + intros q. rewrite !elem_of_cons, IH2. split; [|naive_solver]. intros [->|?]; [|naive_solver]. split; [by left|]. by intros ->.
Qed.

Lemma removeFromColumn_lists m (P : nat → Prop) p :
  lists m P → P p → (∀ q, P q → x_Name (meta m q) = x_Name (meta m p) → q = p) →
  lists (removeFromColumn ToLower p m) (λ q, P q ∧ q ≠ p).
Proof.
  intros (Hl & Hin & Hn) Hp Hinj. set (k := keyOf m p).
  destruct (cutNamed_spec m p (listedAt m k)) as [Hnd Hcut]; [apply Hl|intros q [? _]%Hin; by apply Hinj|].
  assert (∀ key, listedAt (removeFromColumn ToLower p m) key =
    if decide (key = k) then cutNamed m (x_Name (meta m p)) (listedAt m k) else listedAt m key) as Hat.
  { intros key. unfold listedAt at 1, removeFromColumn. cbn [x_byColumn]. fold k. fold (listedAt m k).
    destruct (cutNamed _ _ _) as [|v col]; case_decide; subst;
      rewrite ?lookup_delete_eq, ?lookup_insert_eq, ?lookup_delete_ne, ?lookup_insert_ne by done; done. }
  split_and!; [|intros key q|exact Hn].
  - intros key. rewrite Hat. split; [case_decide; [done|apply Hl]|]. unfold removeFromColumn. cbn [x_byColumn]. fold k.
    fold (listedAt m k). destruct (cutNamed _ _ _) as [|v col]; destruct (decide (key = k)) as [->|];
      rewrite ?lookup_delete_eq, ?lookup_insert_eq, ?lookup_delete_ne, ?lookup_insert_ne by done; try done; apply Hl.
  - rewrite Hat. change (keyOf (removeFromColumn ToLower p m) q) with (keyOf m q).
    case_decide as E; [subst; rewrite Hcut, Hin; naive_solver|]. rewrite Hin. split; [|naive_solver].
    intros [? <-]. split; [split; [done|]|done]. by intros ->.
Qed.

Lemma appendColumn_lists m (P : nat → Prop) p :
  lists m P → ¬ P p → lists (appendColumn (keyOf m p) p m) (λ q, P q ∨ q = p).
Proof.
  intros (Hl & Hin & Hn) Hp. set (k := keyOf m p).
  assert (∀ key, listedAt (appendColumn k p m) key = if decide (key = k) then listedAt m k ++ [p] else listedAt m key) as Hat.
  { intros key. unfold listedAt at 1, appendColumn. cbn [x_byColumn].
    case_decide; subst; [by rewrite lookup_insert_eq|by rewrite lookup_insert_ne]. }
  assert (p ∉ listedAt m k) as Hnin by (rewrite Hin; naive_solver).
  split_and!; [|intros key q|exact Hn].
  - intros key. rewrite Hat. split.
    + case_decide; [|apply Hl]. apply NoDup_app. split_and!; [apply Hl| |apply NoDup_singleton]. set_solver.
    + unfold appendColumn. cbn [x_byColumn]. destruct (decide (key = k)) as [->|];
        [rewrite lookup_insert_eq|rewrite lookup_insert_ne by done; apply Hl]. by destruct (default _ _).
  - rewrite Hat. change (keyOf (appendColumn k p m) q) with (keyOf m q).
    case_decide as E; [subst; rewrite elem_of_app, list_elem_of_singleton, Hin; naive_solver|]. rewrite Hin. naive_solver.
Qed.

Lemma lists_iff m (P Q : nat → Prop) : (∀ q, P q ↔ Q q) → lists m P → lists m Q.
Proof. intros HPQ (Hl & Hin & Hn). split_and!; [done| |done]. intros key p. by rewrite Hin, HPQ. Qed.

(** The lists do not depend on the map of names. *)
Lemma lists_indexes m idxs P :
  lists m P → (∀ name p, idxs !! name = Some p → x_Name (meta m p) = name) →
  lists (mkManager (x_store m) idxs (x_byColumn m)) P.
Proof. intros (Hl & Hin & _) Hn. by split_and!. Qed.

Lemma registered_inj m p q : registered m p → registered m q → x_Name (meta m q) = x_Name (meta m p) → q = p.
Proof. unfold registered. intros Hp Hq E. rewrite E in Hq. congruence. Qed.

Lemma Add_ok p m : managerOk m → managerOk (IndexManager_Add ToLower p m).
Proof.
  intros Hok. pose proof Hok as (_ & _ & Hn). unfold IndexManager_Add. set (name := x_Name (meta m p)).
  set (m1 := match _ with Some old => _ | None => m end).
  assert (lists m1 (λ q, registered m q ∧ x_Name (meta m q) ≠ name) ∧ x_store m1 = x_store m ∧ x_indexes m1 = x_indexes m)
    as (H1 & Hst & Hix).
  { subst m1. destruct (x_indexes m !! name) as [old|] eqn:E.
    - assert (registered m old) as Hold by (unfold registered; by rewrite (Hn _ _ E)). split_and!; [|done|done].
      eapply lists_iff; [|apply (removeFromColumn_lists m (registered m) old)]; [|done|done|intros; by eapply registered_inj].
      intros q. cbn. split; intros [Hq Hne]; (split; [done|]); [intros Eq; apply Hne|intros ->; apply Hne; by apply Hn].
      unfold registered in Hq. rewrite Eq in Hq. congruence.
    - split_and!; [|done|done]. eapply lists_iff; [|exact Hok]. intros q. split; [|by intros [? _]]. intros Hq. split; [done|].
      unfold registered in Hq. congruence. }
  assert (∀ q, meta m1 q = meta m q) as Hmeta by (intros; unfold meta; by rewrite Hst).
  set (m2 := mkManager (x_store m1) (<[name:=p]> (x_indexes m1)) (x_byColumn m1)).
  assert (lists m2 (λ q, registered m q ∧ x_Name (meta m q) ≠ name)) as H2.
  { apply lists_indexes; [exact H1|]. intros name' q Hq. rewrite Hmeta. apply lookup_insert_Some in Hq as [[<- <-]|[_ Hq]]; [done|].
    rewrite Hix in Hq. by apply Hn. }
  pose proof (appendColumn_lists m2 _ p H2) as H3. cbn beta in H3. eapply lists_iff; [|apply H3; by intros [_ []]].
  intros q. unfold registered at 2. change (meta (appendColumn _ p m2) q) with (meta m1 q).
  rewrite Hmeta. cbn [x_indexes appendColumn m2]. rewrite Hix.
  destruct (decide (x_Name (meta m q) = name)) as [E|E].
  - rewrite E, lookup_insert_eq. naive_solver.
  - rewrite lookup_insert_ne by done. split; [|by left]. intros [[? _]| ->]; done.
Qed.

Lemma Remove_ok name m : managerOk m → managerOk (IndexManager_Remove ToLower name m).
Proof.
  intros Hok. pose proof Hok as (_ & _ & Hn). unfold IndexManager_Remove. destruct (x_indexes m !! name) as [p|] eqn:E; [|done].
  assert (registered m p) as Hp by (unfold registered; by rewrite (Hn _ _ E)).
  set (m1 := mkManager _ _ _). assert (lists m1 (registered m)) as H1.
  { apply lists_indexes; [done|]. intros name' q [_ Hq]%lookup_delete_Some. by apply Hn. }
  eapply lists_iff; [|apply (removeFromColumn_lists m1 (registered m) p H1 Hp); exact (λ q Hq, registered_inj m p q Hp Hq)].
  intros q. unfold registered at 2. change (meta (removeFromColumn ToLower p m1) q) with (meta m q).
  cbn [x_indexes removeFromColumn m1]. rewrite lookup_delete_Some. split.
  - intros [Hq Hne]. split; [|done]. intros Eq. apply Hne. unfold registered in Hq. congruence.
  - intros [Hne Hq]. split; [done|]. intros ->. apply Hne. symmetry. by apply Hn.
Qed.

Lemma RenameColumn_ok name old new m :
  managerOk m → (∀ p, x_indexes m !! name = Some p → x_kind (meta m p) ≠ KComposite) →
  managerOk (IndexManager_RenameColumn ToLower name old new m).
Proof.
  intros Hok Hk. pose proof Hok as (_ & _ & Hn). unfold IndexManager_RenameColumn. destruct (x_indexes m !! name) as [p|] eqn:E; [|done].
  specialize (Hk p eq_refl). assert (registered m p) as Hp by (unfold registered; by rewrite (Hn _ _ E)).
  destruct (removeFromColumn_lists m (registered m) p Hok Hp) as (Hl & Hin & _); [intros; by eapply registered_inj|].
  set (m1 := removeFromColumn ToLower p m) in *. set (x' := renameIndex old new (meta m1 p)).
  set (m2 := mkManager (<[p:=x']> (x_store m1)) (x_indexes m1) (x_byColumn m1)).
  assert (meta m2 p = x') as Hx by (unfold meta; cbn [x_store m2]; by rewrite lookup_insert_eq).
  assert (∀ q, q ≠ p → meta m2 q = meta m q) as Hother.
  { intros q Hq. unfold meta. cbn [x_store m2]. by rewrite lookup_insert_ne. }
  assert (∀ q, x_Name (meta m2 q) = x_Name (meta m q)) as Hname.
  { intros q. destruct (decide (q = p)) as [->|]; [by rewrite Hx|by rewrite Hother]. }
  assert (lists m2 (λ q, registered m q ∧ q ≠ p)) as H2.
  { split_and!; [done| |intros; rewrite Hname; by apply Hn]. intros key q. change (listedAt m2 key) with (listedAt m1 key).
    rewrite Hin. destruct (decide (q = p)) as [->|Hq]; [naive_solver|]. rewrite Hother by done. done. }
  assert (IndexManager_columnKey ToLower new = keyOf m2 p) as ->.
  { rewrite Hx. unfold Column. cbn [x_columns x' renameIndex].
    change (meta m1 p) with (meta m p). by destruct (x_kind (meta m p)). }
  eapply lists_iff; [|apply (appendColumn_lists m2 _ p H2); naive_solver].
  intros q. unfold registered at 2. change (meta (appendColumn _ p m2) q) with (meta m2 q).
  rewrite Hname. change (x_indexes (appendColumn _ p m2)) with (x_indexes m). fold (registered m q).
  destruct (decide (q = p)) as [->|]; [split; [done|by right]|]. split; [by intros [[? _]|?]|by left].
Qed.

(** *** Histories *)

Inductive mop : Type := MAdd (p : nat) | MRemove (name : bytes) | MRename (name old new : bytes).

Definition mgrStep (m : IndexManager) (o : mop) : IndexManager :=
  match o with
  | MAdd p => IndexManager_Add ToLower p m
  | MRemove name => IndexManager_Remove ToLower name m
  | MRename name old new => IndexManager_RenameColumn ToLower name old new m
  end.

(** Renaming is of an index on one column. *)
Definition mopOk (m : IndexManager) (o : mop) : Prop :=
  match o with MRename name _ _ => ∀ p, x_indexes m !! name = Some p → x_kind (meta m p) ≠ KComposite | _ => True end.

Inductive mgrReach (store : gmap nat IndexMeta) : IndexManager → Prop :=
| mgr_new : mgrReach store (NewIndexManager store)
| mgr_step m o : mgrReach store m → mopOk m o → mgrReach store (mgrStep m o).

Lemma mgrReach_ok store m : mgrReach store m → managerOk m.
Proof.
  induction 1 as [|m o _ IH Ho].
  - split_and!; [intros key; split; [constructor|done]| |done]. intros key p. split; [by intros ?%elem_of_nil|].
    intros [Hr _]. unfold registered in Hr. cbn [x_indexes NewIndexManager] in Hr. by rewrite lookup_empty in Hr.
  - destruct o; cbn [mgrStep]; [by apply Add_ok|by apply Remove_ok|by apply RenameColumn_ok].
Qed.

(** The indexes of a column are those registered whose column is that one up to case. *)
Lemma FindForColumnMultiple_exact store m column p :
  mgrReach store m →
  p ∈ default [] (FindForColumnMultiple ToLower column m) ↔
  registered m p ∧ ToLower (Column (meta m p)) = ToLower column.
Proof.
  intros (Hl & Hin & _)%mgrReach_ok. specialize (Hin (ToLower column) p). unfold listedAt in Hin. rewrite <- Hin.
  unfold FindForColumnMultiple, IndexManager_columnKey. by destruct (x_byColumn m !! ToLower column) as [[|]|].
Qed.
End ManagerSpec.

(** ** Properties *)


Definition someRows : list IndexableRow :=
  [mkIndexable 0 [IInt 30; IString (str "x")]; mkIndexable 7 [IInt 10; IString (str "y")]; mkIndexable 0 [IInt 10; IString (str "z")]].

Definition someOps : list iop := [ORebuild someRows; OInsert (str "10") 5; ODelete 0; OInsert (str "2") 1].

Definition someMap : gmap Z bytes := {[2 := str "10"; 5 := str "10"; 1 := str "2"]}.


Example indexes_computed :
  (λ idx : BTreeIndex (gmap bytes (list Z)), (BTreeIndex_Lookup idx (str "10"), BTreeIndex_Range (str "1") (str "2") idx)) <$>
    irun (H := btree_index (λ _, []) (λ _, []) sortSlice) (NewBTreeIndex (str "i") (str "c") 0) someOps =
  Some (Some [2; 5], [2; 5; 1]).
Proof. vm_compute. reflexivity. Qed.

(** *** What the code does elsewhere *)

(** A position that is inserted again stays under its old key. *)
Example insert_again :
  let idx := HashIndex_Insert (str "b") 0 (HashIndex_Insert (str "a") 0 (HashIndex_New (str "i") (str "c") 0)) in
  HashIndex_Lookup idx (str "a") = Some [0] ∧ HashIndex_Lookup (HashIndex_Delete 0 idx) (str "a") = Some [0].
Proof. split; vm_compute; reflexivity. Qed.

(** Keys of a composite index: the padding that would keep numbers in order is trimmed. *)
Definition trimSpaces (s : bytes) : bytes := filter (λ c, c ≠ Byte.x20) s.

Example padding_lost :
  formatIndexValue id trimSpaces (λ _, []) 1 (IInt 9) = Some (str "9") ∧
  formatIndexValue id trimSpaces (λ _, []) 1 (IInt 10) = Some (str "10") ∧ klt (str "10") (str "9").
Proof. split_and!; vm_compute; reflexivity. Qed.

(** A composite index on [a] and [b] is not among the indexes of [a]. *)
Example composite_not_found :
  let m := IndexManager_Add id 0 (NewIndexManager {[ 0%nat := mkMeta (str "u") [str "a"; str "b"] KComposite ]}) in
  FindForColumnMultiple id (str "a") m = None ∧ FindForColumnMultiple id (str "a,b") m = Some [0%nat].
Proof. split; vm_compute; reflexivity. Qed.

(** A composite index whose column was renamed is still found after it is removed. *)
Example renamed_composite_stays :
  let m := IndexManager_Add id 0 (NewIndexManager {[ 0%nat := mkMeta (str "u") [str "a"; str "b"] KComposite ]}) in
  let m := IndexManager_Remove id (str "u") (IndexManager_RenameColumn id (str "u") (str "a") (str "c") m) in
  IndexManager_Has (str "u") m = false ∧ FindForColumn id (str "c") m = Some 0%nat.
Proof. split; vm_compute; reflexivity. Qed.
