(* ===== verification/Engine.v ===== *)
(** * The page storage engine

    [server/internal/core/storage/page_engine_io.go], [page_engine_index.go],
    the transaction counter of [page_engine.go] and [Vacuum] of
    [page_engine_vacuum.go], for one table.  A page is the list of slots with a
    byte budget that [Page] shows the bytes of a page to implement; the buffer
    pool gives the page that was last written ([BufferPool]).  A tuple is the
    bytes [RowCodec] writes and reads.  The calls that can fail (reading and
    allocating pages, appending to the log) consult a list of faults. *)

From S2P Require Import Prelude Bytes Page Json RowCodec Float64 Eval Index.

(** ** Tables *)

Record PageSlot : Type := mkSlot { s_page : nat; s_slot : nat }.

#[export] Instance PageSlot_eq_dec : EqDecision PageSlot.
Proof. solve_decision. Defined.

Inductive engine_error : Type :=
| ErrIO | ErrWal | ErrTooLarge | ErrDuplicateKey | ErrNormalize | ErrNoColumn | ErrCallback
| ErrTuple (e : codec_error).

(** The records of the log that the engine writes. *)
Inductive walRecord : Type :=
| WPageInsert (tx : Z) (loc : PageSlot) (tuple : bytes)
| WPageDelete (tx : Z) (loc : PageSlot)
| WCommit (tx : Z)
| WTruncateTable
| WVacuumBegin
| WVacuumCommit.

(** The transaction manager: its counter and the snapshots of the transactions it has open. *)
Record TxMgr : Type := mkTxMgr { t_counter : Z; t_active : gmap Z (gset Z) }.

Record Column : Type := mkCol { col_Name : bytes; col_PrimaryKey : bool }.

Record engine (I : Type) : Type := mkEngine {
  heap : list slotPage;
  posDirectory : option (list PageSlot);
  rowCount : Z;
  lastTxID : Z;
  indexes : list I;
  txCounter : Z;
  txMgr : option TxMgr;
  wal : list walRecord;
  RowCounts : Z;
  TxTimes : list (Z * Z);
  faults : list bool }.
Arguments mkEngine {I}.
Arguments heap {I}.
Arguments posDirectory {I}.
Arguments rowCount {I}.
Arguments lastTxID {I}.
Arguments indexes {I}.
Arguments txCounter {I}.
Arguments txMgr {I}.
Arguments wal {I}.
Arguments RowCounts {I}.
Arguments TxTimes {I}.
Arguments faults {I}.

Section Updates.
Context {I : Type}.
Implicit Types s : engine I.
Definition set_heap h s := mkEngine h (posDirectory s) (rowCount s) (lastTxID s) (indexes s) (txCounter s) (txMgr s) (wal s) (RowCounts s) (TxTimes s) (faults s).
Definition set_posDirectory d s := mkEngine (heap s) d (rowCount s) (lastTxID s) (indexes s) (txCounter s) (txMgr s) (wal s) (RowCounts s) (TxTimes s) (faults s).
Definition set_rowCount n s := mkEngine (heap s) (posDirectory s) n (lastTxID s) (indexes s) (txCounter s) (txMgr s) (wal s) (RowCounts s) (TxTimes s) (faults s).
Definition set_lastTxID n s := mkEngine (heap s) (posDirectory s) (rowCount s) n (indexes s) (txCounter s) (txMgr s) (wal s) (RowCounts s) (TxTimes s) (faults s).
Definition set_indexes (l : list I) s := mkEngine (heap s) (posDirectory s) (rowCount s) (lastTxID s) l (txCounter s) (txMgr s) (wal s) (RowCounts s) (TxTimes s) (faults s).
Definition set_counters c m s := mkEngine (heap s) (posDirectory s) (rowCount s) (lastTxID s) (indexes s) c m (wal s) (RowCounts s) (TxTimes s) (faults s).
Definition set_wal l s := mkEngine (heap s) (posDirectory s) (rowCount s) (lastTxID s) (indexes s) (txCounter s) (txMgr s) l (RowCounts s) (TxTimes s) (faults s).
Definition set_catalog n l s := mkEngine (heap s) (posDirectory s) (rowCount s) (lastTxID s) (indexes s) (txCounter s) (txMgr s) (wal s) n l (faults s).
Definition set_faults l s := mkEngine (heap s) (posDirectory s) (rowCount s) (lastTxID s) (indexes s) (txCounter s) (txMgr s) (wal s) (RowCounts s) (TxTimes s) l.
End Updates.

(** ** Names of pages and tables *)

Definition PagesPerSegment : Z := 131072.

(** The segment and the page in it. *)
Definition pageIDAt (global : Z) : Z * Z := (u16 (global / PagesPerSegment), global mod PagesPerSegment).

(** FNV-1a. *)
Definition tableIDFromPath (path : bytes) : Z :=
  let h := fold_left (λ h b, u32 (Z.lxor h (byte.unsigned b) * 16777619)) path 2166136261 in
  if h =? 0 then 1 else h.

(** ** The transaction counter and visibility *)

(** [u64] wraps; the manager's counter stays ahead. *)
Definition EnsureCounterAtLeast (v : Z) (m : TxMgr) : TxMgr := mkTxMgr (Z.max (t_counter m) v) (t_active m).

Definition IsCommitted (m : TxMgr) (xid : Z) : bool := xid <? t_counter m.

Definition IsAborted (m : TxMgr) (xid : Z) : bool := false.

Definition GetSnapshot (m : TxMgr) (txID : Z) : option (gset Z) := t_active m !! txID.

Definition OldestActiveXID (m : TxMgr) : Z :=
  fold_right Z.min (t_counter m) (map_to_list (t_active m)).*1.

(** The tests of the visitor of [readRows] for transaction [txID] when there is a manager. *)
Definition xminVisible (m : TxMgr) (txID created : Z) : bool :=
  let xminCommitted := negb (Z.land created xminCommittedFlag =? 0) in
  let xmin := Z.land created TxIDMask in
  (xmin =? txID) ||
  ((xmin <=? txID) && (xminCommitted || IsCommitted m xmin) &&
   match GetSnapshot m txID with None => true | Some snapshot => negb (bool_decide (xmin ∈ snapshot)) end).

Definition xmaxVisible (m : TxMgr) (txID deleted : Z) : bool :=
  let xmax := Z.land deleted TxIDMask in
  (xmax =? 0) || ((0 <? deleted) && IsAborted m deleted) || (txID <? xmax) ||
  match GetSnapshot m txID with None => false | Some snapshot => bool_decide (xmax ∈ snapshot) end.

(** The visitor of [readRowsVM], [UpdateRowsVM] and [DeleteRowsVM] takes both words as they are given. *)
Definition rawVisible (txMgr : option TxMgr) (txID created deleted : Z) : bool :=
  ((created =? txID) ||
   match txMgr with
   | None => false
   | Some m => (created <=? txID) && IsCommitted m created &&
       match GetSnapshot m txID with None => true | Some snapshot => negb (bool_decide (created ∈ snapshot)) end
   end) &&
  ((deleted =? 0) || match txMgr with Some m => (0 <? deleted) && IsAborted m deleted | None => false end || (txID <? deleted) ||
   match txMgr ≫= λ m, GetSnapshot m txID with None => false | Some snapshot => bool_decide (deleted ∈ snapshot) end).

(** ** The engine *)

(** What a visitor says to a scan. *)
Inductive control : Type := Continue | Stop | Fail (e : engine_error) | Crash.

Section Engine.
Context {I : Type} `{Index I}.
(** [json.Marshal] and the decoder of [DecodeJSON]. *)
Context (Marshal : list (list byte * jvalue) → option bytes).
Context (ParseFloat : bytes → option Z) (decodeRaw : bytes → option jvalue).
(** [strings.ToLower] and the text [fmt.Sprintf] gives for floats and for vectors and objects. *)
Context (ToLower : bytes → bytes) (FormatFloat : float64 → bytes) (sprintV : Value → bytes).
(** [reflect.DeepEqual] on vectors and objects. *)
Context (deepEqualOther : Value → Value → bool).
(** The columns of the table, and [normalizeValue] of [normalize.go] for each of them ([Coerce]). *)
Context (columns : list Column) (normalize : nat → Value → option Value).

Abbreviation EM := (M (engine I) engine_error).

Definition fallible (e : engine_error) : EM unit := λ s,
  match faults s with
  | [] => (s, Ok tt)
  | b :: bs => (set_faults bs s, if (b : bool) then Err e else Ok tt)
  end.

Definition encodePageTuple (createdTx deletedTx : Z) (row : Row) : outcome engine_error bytes :=
  match EncodeRow Marshal [] createdTx deletedTx row with Ok t => Ok t | Err e => Err (ErrTuple e) | Panic => Panic end.

Definition decodePageTuple (tuple : bytes) : outcome engine_error (Z * Z * Row) :=
  match DecodeRow ParseFloat decodeRaw [] tuple with Ok r => Ok r | Err e => Err (ErrTuple e) | Panic => Panic end.

Definition createdWord (tuple : bytes) : Z := le_at 8 0 tuple.
Definition deletedWord (tuple : bytes) : Z := le_at 8 8 tuple.

(** *** Pages *)

Definition getPage (g : nat) : EM slotPage :=
  fallible ErrIO;;
  o ← gets (λ s, heap s !! g);
  match o with Some pg => mret pg | None => throw ErrIO end.

Definition putPage (g : nat) (pg : slotPage) : EM unit := modify (λ s, set_heap (<[g := pg]> (heap s)) s).

Definition emptyPage : slotPage := {| slots := []; free := 8164 |}.

Definition AllocatePage : EM nat :=
  fallible ErrIO;;
  g ← gets (λ s, length (heap s));
  modify (λ s, set_heap (heap s ++ [emptyPage]) s);;
  mret g.

Definition GetTuple (pg : slotPage) (slot : nat) : option bytes := mjoin (slots pg !! slot).

(** [pg.InsertTuple]; [None] if the page is full. *)
Definition insertTuple (g : nat) (pg : slotPage) (tuple : bytes) : EM (option nat) :=
  match stepSlots (POInsert tuple) pg with
  | (pg', Ok (ASlot slot)) => putPage g pg';; mret (Some (Z.to_nat slot))
  | _ => mret None
  end.

(** [binary.LittleEndian.PutUint64(tuple[8:16], xmax)] on a tuple in its page. *)
Definition putDeleted (loc : PageSlot) (xmax : Z) : EM unit :=
  pg ← getPage (s_page loc);
  match GetTuple pg (s_slot loc) ≫= put_slice 8 8 16 xmax with
  | Some tuple => putPage (s_page loc) {| slots := <[s_slot loc := Some tuple]> (slots pg); free := free pg |}
  | None => lift Panic
  end.

Definition appendWal (r : walRecord) : EM unit :=
  fallible ErrWal;;
  modify (λ s, set_wal (wal s ++ [r]) s).

(** *** Scanning *)

Definition pageTuples (g : nat) (pg : slotPage) : list (PageSlot * bytes) :=
  omap (λ '(i, o), (λ t, (mkSlot g i, t)) <$> (o : option bytes)) (imap pair (slots pg)).

Section Scan.
Context {A : Type} (visit : A → PageSlot → bytes → A * control).

Fixpoint visitSlots (acc : A) (l : list (PageSlot * bytes)) : A * control :=
  match l with
  | [] => (acc, Continue)
  | (loc, tuple) :: l => match visit acc loc tuple with (acc, Continue) => visitSlots acc l | r => r end
  end.

(** [n] pages from page [g] on; the visits before an error have been made. *)
Fixpoint scanPages (n g : nat) (acc : A) : EM (A * option engine_error) := λ s,
  match n with
  | O => (s, Ok (acc, None))
  | S n =>
      match getPage g s with
      | (s, Ok pg) =>
          match visitSlots acc (pageTuples g pg) with
          | (acc, Continue) => scanPages n (S g) acc s
          | (acc, Stop) => (s, Ok (acc, None))
          | (acc, Fail e) => (s, Ok (acc, Some e))
          | (_, Crash) => (s, Panic)
          end
      | (s, Err e) => (s, Ok (acc, Some e))
      | (s, Panic) => (s, Panic)
      end
  end.

Definition scan (acc : A) : EM (A * option engine_error) := λ s,
  match fallible ErrIO s with
  | (s, Ok _) => scanPages (length (heap s)) 0 acc s
  | (s, Err e) => (s, Ok (acc, Some e))
  | (s, Panic) => (s, Panic)
  end.
End Scan.

(** The visitor of [scanSlots] and [scanTuplesRaw] sees the words as they are, *)
Definition slotVisitor {A} (visit : A → PageSlot → Z → Z → bytes → A * control) (acc : A) (loc : PageSlot) (tuple : bytes)
    : A * control :=
  if blen tuple <? 16 then (acc, Continue) else visit acc loc (createdWord tuple) (deletedWord tuple) tuple.

(** the one of [scanTuples] the transaction ids and the row. *)
Definition tupleVisitor {A} (visit : A → PageSlot → Z → Z → Row → A * control) (acc : A) (loc : PageSlot) (tuple : bytes)
    : A * control :=
  match decodePageTuple tuple with
  | Ok (createdTx, deletedTx, row) => visit acc loc (Z.land createdTx TxIDMask) (Z.land deletedTx TxIDMask) row
  | Err e => (acc, Fail e)
  | Panic => (acc, Crash)
  end.

Definition scanSlots {A} (visit : A → PageSlot → Z → Z → bytes → A * control) (acc : A) : EM (A * option engine_error) :=
  scan (slotVisitor visit) acc.

Definition scanTuples {A} (visit : A → PageSlot → Z → Z → Row → A * control) (acc : A) : EM (A * option engine_error) :=
  scan (tupleVisitor visit) acc.

(** A scan whose error is returned. *)
Definition orFail {A} (m : EM (A * option engine_error)) : EM A :=
  '(a, e) ← m;
  match e with None => mret a | Some e => throw e end.

Definition ensurePosDirectory : EM (list PageSlot) :=
  o ← gets posDirectory;
  match o with
  | Some dir => mret dir
  | None =>
      dir ← orFail (scanSlots (λ dir loc _ deletedTx _, (if deletedTx =? 0 then dir ++ [loc] else dir, Continue)) []);
      modify (set_posDirectory (Some dir));;
      mret dir
  end.

(** *** Writing *)

Definition nextTxID : EM Z :=
  txID ← gets (λ s, u64 (txCounter s + 1));
  modify (λ s, set_counters txID (EnsureCounterAtLeast (u64 (txID + 1)) <$> txMgr s) s);;
  mret txID.

(** The tuple goes on page [g] if it fits. *)
Definition placeOn (g : nat) (pg : slotPage) (tuple : bytes) (txID : Z) : EM (option PageSlot) :=
  o ← insertTuple g pg tuple;
  match o with
  | Some slot => appendWal (WPageInsert txID (mkSlot g slot) tuple);; mret (Some (mkSlot g slot))
  | None => mret None
  end.

Definition placeFresh (tuple : bytes) (txID : Z) : EM PageSlot :=
  g ← AllocatePage;
  o ← placeOn g emptyPage tuple txID;
  match o with Some loc => mret loc | None => throw ErrTooLarge end.

(** The loop over the pages for one tuple: the page at hand if there is one,
    then a fresh one. *)
Definition placeTuple (have : option (nat * slotPage)) (tuple : bytes) (txID : Z) : EM PageSlot :=
  match have with
  | None => placeFresh tuple txID
  | Some (g, pg) =>
      o ← placeOn g pg tuple txID;
      match o with Some loc => mret loc | None => placeFresh tuple txID end
  end.

Definition lastPage : EM (option (nat * slotPage)) :=
  n ← gets (λ s, length (heap s));
  match n with
  | O => mret None
  | S g => pg ← getPage g; mret (Some (g, pg))
  end.

(** The page at hand is given up with each tuple that is placed. *)
Fixpoint appendLoop (have : option (nat * slotPage)) (tuples : list bytes) (txID : Z) : EM (list PageSlot) :=
  match tuples with
  | [] => mret []
  | tuple :: tuples =>
      loc ← placeTuple have tuple txID;
      locs ← appendLoop None tuples txID;
      mret (loc :: locs)
  end.

Definition appendTuplesLocked (tuples : list bytes) (txID : Z) : EM (list PageSlot) :=
  fallible ErrIO;;
  have ← lastPage;
  appendLoop have tuples txID.

(** [e.catalog.TxTimes = append(...)] with its bound. *)
Definition maxTxTimesEntries : Z := 10000.
Definition keepTxTimesEntries : Z := 5000.

Definition stampTx (txID now : Z) (times : list (Z * Z)) : list (Z * Z) :=
  let times := times ++ [(txID, now)] in
  let n := Z.of_nat (length times) in
  if maxTxTimesEntries <? n then drop (Z.to_nat (n - keepTxTimesEntries)) times else times.

Definition syncCatalog (txID now : Z) : EM unit :=
  modify (λ s, set_catalog (rowCount s) (stampTx txID now (TxTimes s)) s).

(** *** Indexes *)

Definition sprintValue (v : Value) : bytes := sprint FormatFloat sprintV (ofValue v).

(** The rows at [startPos] and after it. *)
Fixpoint insertKeys (rows : list Row) (startPos : Z) (idx : I) : I :=
  match rows with
  | [] => idx
  | row :: rows =>
      insertKeys rows (startPos + 1)
        (match row !! ColIndex idx with Some v => Insert (sprintValue v) startPos idx | None => idx end)
  end.

Definition updateIndexesOnInsert (rows : list Row) (startPos : Z) : EM unit :=
  modify (λ s, set_indexes (insertKeys rows startPos <$> indexes s) s).

Definition updateIndexesOnDelete (rowPositions : list Z) : EM unit :=
  modify (λ s, set_indexes ((λ idx, foldl (λ idx pos, Delete pos idx) idx rowPositions) <$> indexes s) s).

Definition updateIndexesOnUpdate (positions : list Z) (newRows : list Row) : EM unit :=
  modify (λ s, set_indexes ((λ idx, foldl (λ idx '(pos, row),
    match (row : Row) !! ColIndex idx with Some v => Insert (sprintValue v) pos idx | None => idx end) idx
    (zip positions newRows)) <$> indexes s) s).

(** The first index of a column. *)
Definition findIndexForColumn (column : bytes) : EM (option I) :=
  gets (λ s, snd <$> list_find (λ idx, ToLower (IndexColumn idx) = ToLower column) (indexes s)).

(** *** Insertion *)

(** Keys of a Go map with [interface{}] keys; [None]: a vector or an object panics. *)
Definition keyEq (v w : Value) : bool :=
  match v, w with
  | VNil, VNil => true
  | VInt a, VInt b => a =? b
  | VFloat a, VFloat b => feqb (Float64frombits a) (Float64frombits b)
  | VBool a, VBool b => Bool.eqb a b
  | VString a, VString b => bool_decide (a = b)
  | _, _ => false
  end.

Definition hashable (v : Value) : bool := match v with VVector _ | VMap _ | VOther => false | _ => true end.

Definition hasKey (v : Value) (keys : list Value) : EM bool :=
  if hashable v then mret (existsb (keyEq v) keys) else lift Panic.

Definition pkIdx : option nat := fst <$> list_find (λ c, col_PrimaryKey c = true) columns.

Fixpoint normalizeFrom (i : nat) (cols : list Column) (row : Row) : option Row :=
  match cols with
  | [] => Some []
  | _ :: cols => v ← normalize i (default VNil (row !! i)); rest ← normalizeFrom (S i) cols row; Some (v :: rest)
  end.

Definition normalizeRow (row : Row) : EM Row :=
  match normalizeFrom 0 columns row with Some r => mret r | None => throw ErrNormalize end.

(** The primary keys there are: those of a scan, unless the column has an index. *)
Definition existingKeys (pkIndex : option I) : EM (list Value) :=
  match pkIdx, pkIndex with
  | Some pk, None =>
      '(keys, _) ← scanTuples (λ keys _ _ deletedTx row,
        if deletedTx =? 0 then
          match row !! pk with
          | Some v => if hashable v then (v :: keys, Continue) else (keys, Crash)
          | None => (keys, Continue)
          end
        else (keys, Continue)) [];
      mret keys
  | _, _ => mret []
  end.

Definition checkKey (pkIndex : option I) (keys : list Value) (row : Row) : EM (list Value) :=
  match pkIdx ≫= λ pk, row !! pk with
  | None => mret keys
  | Some v =>
      match pkIndex ≫= λ idx, Lookup idx (sprintValue v) with
      | Some _ => throw ErrDuplicateKey
      | None =>
          dup ← hasKey v keys;
          if (dup : bool) then throw ErrDuplicateKey else mret (v :: keys)
      end
  end.

Fixpoint prepareRows (txID : Z) (pkIndex : option I) (keys : list Value) (rows : list Row) : EM (list bytes) :=
  match rows with
  | [] => mret []
  | row :: rows =>
      normalized ← normalizeRow row;
      keys ← checkKey pkIndex keys normalized;
      tuple ← lift (encodePageTuple txID 0 normalized);
      tuples ← prepareRows txID pkIndex keys rows;
      mret (tuple :: tuples)
  end.

Fixpoint insertLoop (tuples : list bytes) (txID : Z) : EM unit :=
  match tuples with
  | [] => mret tt
  | tuple :: tuples =>
      have ← lastPage;
      loc ← placeTuple have tuple txID;
      modify (λ s, set_posDirectory ((λ dir, dir ++ [loc]) <$> posDirectory s) s);;
      insertLoop tuples txID
  end.

Definition commitWal (autoCommit : bool) (txID : Z) : EM unit :=
  if autoCommit then appendWal (WCommit txID) else mret tt.

Definition insertRowsInternal (txID now : Z) (rows : list Row) (autoCommit : bool) : EM Z :=
  pkIndex ← match pkIdx ≫= λ pk, columns !! pk with Some c => findIndexForColumn (col_Name c) | None => mret None end;
  keys ← existingKeys pkIndex;
  tuples ← prepareRows txID pkIndex keys rows;
  fallible ErrIO;;
  insertLoop tuples txID;;
  modify (λ s, set_rowCount (rowCount s + Z.of_nat (length rows)) s);;
  modify (set_lastTxID txID);;
  syncCatalog txID now;;
  startPos ← gets (λ s, RowCounts s - Z.of_nat (length rows));
  commitWal autoCommit txID;;
  updateIndexesOnInsert rows startPos;;
  mret (Z.of_nat (length rows)).

Definition InsertRows (now : Z) (rows : list Row) : EM Z :=
  txID ← nextTxID;
  insertRowsInternal txID now rows true.

Definition InsertRowsUncommitted (now : Z) (rows : list Row) : EM Z :=
  txID ← nextTxID;
  insertRowsInternal txID now rows false.

(** *** Heap-only updates *)

(** [reflect.DeepEqual]. *)
Definition deepEqual (v w : Value) : bool :=
  match v, w with
  | VNil, VNil => true
  | VInt a, VInt b => a =? b
  | VFloat a, VFloat b => feqb (Float64frombits a) (Float64frombits b)
  | VBool a, VBool b => Bool.eqb a b
  | VString a, VString b => bool_decide (a = b)
  | VVector _, VVector _ | VMap _, VMap _ | VOther, VOther => deepEqualOther v w
  | _, _ => false
  end.

(** The names of the columns that differ. *)
Definition changedCols (oldRow newRow : Row) : list bytes :=
  omap (λ '(i, c), match oldRow !! i, newRow !! i with
    | Some v, Some w => if deepEqual v w then None else Some (ToLower (col_Name c))
    | _, _ => None
    end) (imap pair columns).

Definition isIndexedColumnUpdated (changed : list bytes) (idxs : list I) : bool :=
  existsb (λ idx, existsb (λ c, bool_decide (ToLower c ∈ changed)) (IndexColumn idx :: IndexColumns idx)) idxs.

Definition ItemPointerSize : Z := 4.

(** The tuple is marked in place: what comes back with [None] may carry the mark. *)
Definition tryHOTInsert (loc : PageSlot) (oldRow newRow : Row) (encoded : bytes) (txID : Z) : EM (bytes * option PageSlot) := λ s,
  if isIndexedColumnUpdated (changedCols oldRow newRow) (indexes s) then (s, Ok (encoded, None)) else
  match getPage (s_page loc) s with
  | (s, Err _) => (s, Ok (encoded, None))
  | (s, Panic) => (s, Panic)
  | (s, Ok pg) =>
      if free pg <? u16 (u16 (blen encoded) + ItemPointerSize) then (s, Ok (encoded, None)) else
      match SetHOTHeapTuple encoded with
      | (encoded, Ok _) =>
          match stepSlots (POInsert encoded) pg with
          | (pg, Ok (ASlot newSlot)) =>
              match GetTuple pg (s_slot loc) with
              | None =>
                  let s := set_heap (<[s_page loc := pg]> (heap s)) s in
                  let new := mkSlot (s_page loc) (Z.to_nat newSlot) in
                  (fst (appendWal (WPageInsert txID new encoded) s), Ok (encoded, Some new))
              | Some oldTuple =>
                  match SetHOTUpdated newSlot oldTuple with
                  | (oldTuple, Ok _) =>
                      let pg := {| slots := <[s_slot loc := Some oldTuple]> (slots pg); free := free pg |} in
                      let s := set_heap (<[s_page loc := pg]> (heap s)) s in
                      let new := mkSlot (s_page loc) (Z.to_nat newSlot) in
                      (fst (appendWal (WPageInsert txID new encoded) s), Ok (encoded, Some new))
                  | (_, _) => (s, Panic)
                  end
              end
          | (_, _) => (s, Ok (encoded, None))
          end
      | (_, _) => (s, Panic)
      end
  end.

(** The rows that were found. *)
Record locatedTuple : Type := mkLoc { l_loc : PageSlot; l_idx : Z; l_row : Row }.

(** New versions on the pages of the old ones where that is possible, then the
    others at the end of the table: where each one is, and which were not heap-only. *)
Fixpoint hotLoop (items : list (locatedTuple * Row * bytes)) (txID : Z) : EM (list (bytes * option PageSlot)) :=
  match items with
  | [] => mret []
  | (loc, nv, encoded) :: items =>
      r ← tryHOTInsert (l_loc loc) (l_row loc) nv encoded txID;
      rs ← hotLoop items txID;
      mret (r :: rs)
  end.

Fixpoint fillSlots (hots : list (bytes * option PageSlot)) (appended : list PageSlot) : list PageSlot :=
  match hots with
  | [] => []
  | (_, Some loc) :: hots => loc :: fillSlots hots appended
  | (_, None) :: hots =>
      match appended with
      | loc :: appended => loc :: fillSlots hots appended
      | [] => mkSlot 0 0 :: fillSlots hots []
      end
  end.

Definition writeVersions (items : list (locatedTuple * Row * bytes)) (txID : Z) : EM (list PageSlot * list (bytes * option PageSlot)) :=
  hots ← hotLoop items txID;
  let nonHot := omap (λ '(encoded, o), match (o : option PageSlot) with None => Some encoded | Some _ => None end) hots in
  appended ← match nonHot with [] => mret [] | _ => appendTuplesLocked nonHot txID end;
  mret (fillSlots hots appended, hots).

(** [t.posDirectory[idx] = newSlots[i]] for the positions that are in range. *)
Definition moveSlots (positions : list Z) (newSlots : list PageSlot) : EM unit :=
  modify (λ s, set_posDirectory ((λ dir, foldl (λ dir '(idx, loc),
    if 0 <=? idx then <[Z.to_nat idx := loc]> dir else dir) dir (zip positions newSlots)) <$> posDirectory s) s).

Definition hotPositions (positions : list Z) (hots : list (bytes * option PageSlot)) : list Z :=
  omap (λ '(idx, h), match snd h with Some _ => Some (idx : Z) | None => None end) (zip positions hots).

(** The positions that are not among the heap-only ones, and the new rows at the same places. *)
Definition nonHotIndices (positions hotIndices : list Z) : list Z := filter (λ idx, idx ∉ hotIndices) positions.

Definition nonHotRows (positions hotIndices : list Z) (newRows : list Row) : list Row :=
  snd <$> filter (λ e, fst e ∉ hotIndices) (zip positions newRows).

(** *** Updating and deleting by predicate *)

Definition iterator (dir : list PageSlot) (positions : option (list Z)) : list (Z * PageSlot) :=
  match positions with
  | Some ps => omap (λ p, if 0 <=? p then (λ loc, (p, loc)) <$> dir !! Z.to_nat p else None) ps
  | None => imap (λ i loc, (Z.of_nat i, loc)) dir
  end.

Fixpoint locate (matchFn : bytes → outcome engine_error bool) (currentTxID : Z) (items : list (Z * PageSlot))
    : EM (list locatedTuple) :=
  match items with
  | [] => mret []
  | (idx, loc) :: items =>
      pg ← getPage (s_page loc);
      m ← gets txMgr;
      found ← match GetTuple pg (s_slot loc) with
              | None => mret []
              | Some rawTuple =>
                  if blen rawTuple <? 16 then mret []
                  else if rawVisible m currentTxID (Z.land (createdWord rawTuple) TxIDMask) (deletedWord rawTuple) then
                    ok ← lift (matchFn rawTuple);
                    if (ok : bool) then
                      match decodePageTuple rawTuple with
                      | Ok (_, _, row) => mret [mkLoc loc idx row]
                      | Err _ => mret []
                      | Panic => lift Panic
                      end
                    else mret []
                  else mret []
              end;
      rest ← locate matchFn currentTxID items;
      mret (found ++ rest)
  end.

Definition currentTx : EM Z :=
  m ← gets txMgr;
  match m with Some _ => gets txCounter | None => mret 0 end.

Fixpoint logDeletes (txID : Z) (located : list locatedTuple) : EM unit :=
  match located with
  | [] => mret tt
  | loc :: located => appendWal (WPageDelete txID (l_loc loc));; logDeletes txID located
  end.

Fixpoint markDeleted (txID : Z) (located : list locatedTuple) : EM unit :=
  match located with
  | [] => mret tt
  | loc :: located => putDeleted (l_loc loc) txID;; markDeleted txID located
  end.

(** A page that cannot be read is passed over. *)
Fixpoint revertDeleted (located : list locatedTuple) : EM unit := λ s,
  match located with
  | [] => (s, Ok tt)
  | loc :: located =>
      match putDeleted (l_loc loc) 0 s with
      | (s, Panic) => (s, Panic)
      | (s, _) => revertDeleted located s
      end
  end.

Fixpoint newVersionsOf (updateFn : Row → outcome engine_error Row) (txID : Z) (located : list locatedTuple)
    : EM (list (Row * bytes)) :=
  match located with
  | [] => mret []
  | loc :: located =>
      nv ← lift (updateFn (l_row loc));
      encoded ← lift (encodePageTuple txID 0 nv);
      rest ← newVersionsOf updateFn txID located;
      mret ((nv, encoded) :: rest)
  end.

Definition withVersions (located : list locatedTuple) (versions : list (Row * bytes)) : list (locatedTuple * Row * bytes) :=
  zip_with (λ loc v, (loc, fst v, snd v)) located versions.

Definition orRevert (located : list locatedTuple) (r : outcome engine_error unit) : EM unit :=
  match r with
  | Ok _ => mret tt
  | Err e => revertDeleted located;; throw e
  | Panic => lift Panic
  end.

(** The table is not locked while [validateFn] runs. *)
Definition UpdateRowsVM (now : Z) (positions : option (list Z)) (matchFn : bytes → outcome engine_error bool)
    (updateFn : Row → outcome engine_error Row) (validateFn : list Z → list Row → outcome engine_error unit) : EM Z :=
  txID ← nextTxID;
  dir ← ensurePosDirectory;
  currentTxID ← currentTx;
  located ← locate matchFn currentTxID (iterator dir positions);
  match located with
  | [] => mret 0
  | _ =>
      logDeletes txID located;;
      versions ← newVersionsOf updateFn txID located;
      markDeleted txID located;;
      let indices := l_idx <$> located in
      let newRows := versions.*1 in
      orRevert located (validateFn indices newRows);;
      '(newSlots, hots) ← writeVersions (withVersions located versions) txID;
      moveSlots indices newSlots;;
      let hot := hotPositions indices hots in
      updateIndexesOnDelete (nonHotIndices indices hot);;
      updateIndexesOnUpdate (nonHotIndices indices hot) (nonHotRows indices hot newRows);;
      modify (set_lastTxID txID);;
      n ← gets RowCounts;
      modify (λ s, set_catalog n (stampTx txID now (TxTimes s)) s);;
      appendWal (WCommit txID);;
      mret (Z.of_nat (length located))
  end.

(** The directory without the rows; a slice with nothing appended is nil. *)
Definition compactDirectory (indices : list Z) (dir : list PageSlot) : option (list PageSlot) :=
  match snd <$> filter (λ e, fst e ∉ indices) (imap (λ i loc, (Z.of_nat i, loc)) dir) with
  | [] => None
  | newPos => Some newPos
  end.

Definition DeleteRowsVM (now : Z) (positions : option (list Z)) (predicate : bytes → outcome engine_error bool)
    (preDelete : list Z → list Row → outcome engine_error unit) : EM Z :=
  txID ← nextTxID;
  dir ← ensurePosDirectory;
  currentTxID ← currentTx;
  located ← locate predicate currentTxID (iterator dir positions);
  match located with
  | [] => mret 0
  | _ =>
      logDeletes txID located;;
      let indices := l_idx <$> located in
      lift (preDelete indices (l_row <$> located));;
      markDeleted txID located;;
      modify (λ s, match posDirectory s with
        | Some dir => set_rowCount (rowCount s - Z.of_nat (length indices)) (set_posDirectory (compactDirectory indices dir) s)
        | None => s
        end);;
      updateIndexesOnDelete indices;;
      modify (set_lastTxID txID);;
      n ← gets RowCounts;
      modify (λ s, set_catalog n (stampTx txID now (TxTimes s)) s);;
      appendWal (WCommit txID);;
      mret (Z.of_nat (length located))
  end.

(** *** Updating and deleting by position *)

(** The rows of the directory at these positions; a row that cannot be read is left out. *)
Fixpoint locateIn (dir : list PageSlot) (indices : list Z) : EM (list locatedTuple) := λ s,
  match indices with
  | [] => (s, Ok [])
  | idx :: indices =>
      match dir !! Z.to_nat idx with
      | None => (s, Panic)
      | Some loc =>
          match getPage (s_page loc) s with
          | (s, Ok pg) =>
              match GetTuple pg (s_slot loc) with
              | Some tuple =>
                  if blen tuple <? 16 then locateIn dir indices s
                  else match decodePageTuple tuple with
                       | Ok (_, _, row) => (rest ← locateIn dir indices; mret (mkLoc loc idx row :: rest)) s
                       | Err _ => locateIn dir indices s
                       | Panic => (s, Panic)
                       end
              | None => locateIn dir indices s
              end
          | (s, Err _) => locateIn dir indices s
          | (s, Panic) => (s, Panic)
          end
      end
  end.

(** The visitor that counts live rows until every wanted one is found. *)
Definition wantedVisitor (acc : Z * list Z * list locatedTuple) (loc : PageSlot) (createdTx deletedTx : Z) (rawTuple : bytes)
    : Z * list Z * list locatedTuple * control :=
  let '(pos, wanted, located) := acc in
  if negb (deletedTx =? 0) then (acc, Continue)
  else
    let r := if bool_decide (pos ∈ wanted) then
        match decodePageTuple rawTuple with
        | Ok (_, _, row) => inl (filter (λ p, p ≠ pos) wanted, located ++ [mkLoc loc pos row])
        | Err e => inr (Fail e)
        | Panic => inr Crash
        end
      else inl (wanted, located) in
    match r with
    | inl (wanted, located) => (pos + 1, wanted, located, match wanted with [] => Stop | _ => Continue end)
    | inr c => (pos + 1, wanted, located, c)
    end.

(** Neither an error of the directory nor one of the scan is returned. *)
Definition locateRows (indices : list Z) : EM (list locatedTuple) := λ s,
  match ensurePosDirectory s with
  | (s, Ok dir) =>
      if forallb (λ idx, (0 <=? idx) && (idx <? Z.of_nat (length dir))) indices then locateIn dir indices s
      else match scanSlots wantedVisitor (0, indices, []) s with
           | (s, Ok ((_, _, located), _)) => (s, Ok located)
           | (s, Err e) => (s, Err e)
           | (s, Panic) => (s, Panic)
           end
  | (s, Err _) => (s, Ok [])
  | (s, Panic) => (s, Panic)
  end.

(** [colIndex[strings.ToLower(name)]]: the last column of that name. *)
Definition colIndexOf (name : bytes) : option nat :=
  last (omap (λ '(i, c), if bool_decide (ToLower (col_Name c) = ToLower name) then Some (i : nat) else None) (imap pair columns)).

Fixpoint applyUpdates (updates : list (bytes * Value)) (newRow : Row) : outcome engine_error Row :=
  match updates with
  | [] => Ok newRow
  | (name, val) :: updates =>
      match colIndexOf name with
      | None => Err ErrNoColumn
      | Some idx =>
          match normalize idx val with
          | None => Err ErrNormalize
          | Some n => if (idx <? length newRow)%nat then applyUpdates updates (<[idx := n]> newRow) else Panic
          end
      end
  end.

(** Each row is marked deleted before its new version is made. *)
Fixpoint mutateLoop (txID : Z) (updates : option (list (bytes * Value))) (located : list locatedTuple) : EM (list (Row * bytes)) :=
  match located with
  | [] => mret []
  | loc :: located =>
      putDeleted (l_loc loc) txID;;
      versions ← match updates with
                 | None => mret []
                 | Some updates =>
                     newRow ← lift (applyUpdates updates (l_row loc));
                     encoded ← lift (encodePageTuple txID 0 newRow);
                     mret [(newRow, encoded)]
                 end;
      rest ← mutateLoop txID updates located;
      mret (versions ++ rest)
  end.

(** [updates] is [None] for a deletion. *)
Definition mutateRows (now : Z) (indices : list Z) (updates : option (list (bytes * Value))) : EM Z :=
  txID ← nextTxID;
  located ← locateRows indices;
  logDeletes txID located;;
  versions ← mutateLoop txID updates located;
  let affected := Z.of_nat (length located) in
  let newRows := versions.*1 in
  '(newSlots, hots) ← match updates with
                      | None => mret ([], [])
                      | Some _ => writeVersions (withVersions located versions) txID
                      end;
  moveSlots indices newSlots;;
  let hot := hotPositions indices hots in
  match located with
  | [] => mret tt
  | _ =>
      updateIndexesOnDelete (nonHotIndices indices hot);;
      startPos ← gets (λ s, rowCount s - affected);
      updateIndexesOnInsert (nonHotRows indices hot newRows) startPos
  end;;
  modify (set_lastTxID txID);;
  modify (λ s, match updates with None => set_rowCount (Z.max 0 (rowCount s - affected)) s | Some _ => s end);;
  syncCatalog txID now;;
  appendWal (WCommit txID);;
  mret affected.

Definition UpdateRows (now : Z) (indices : list Z) (updates : list (bytes * Value)) : EM Z := mutateRows now indices (Some updates).
Definition DeleteRows (now : Z) (indices : list Z) : EM Z := mutateRows now indices None.

(** *** Replacing rows by position *)

Definition positionVisitor (acc : Z * list Z * list (Z * PageSlot)) (loc : PageSlot) (createdTx deletedTx : Z) (rawTuple : bytes)
    : Z * list Z * list (Z * PageSlot) * control :=
  let '(pos, wanted, located) := acc in
  if negb (deletedTx =? 0) then (acc, Continue)
  else
    let '(wanted, located) := if bool_decide (pos ∈ wanted) then (filter (λ p, p ≠ pos) wanted, located ++ [(pos, loc)])
      else (wanted, located) in
    (pos + 1, wanted, located, match wanted with [] => Stop | _ => Continue end).

Definition locatePositions (indices : list Z) : EM (list (Z * PageSlot)) := λ s,
  match ensurePosDirectory s with
  | (s, Ok dir) =>
      if forallb (λ idx, (0 <=? idx) && (idx <? Z.of_nat (length dir))) indices then (s, Ok (iterator dir (Some indices)))
      else ('(_, _, located) ← orFail (scanSlots positionVisitor (0, indices, [])); mret located) s
  | (s, Err _) => (s, Ok [])
  | (s, Panic) => (s, Panic)
  end.

(** The last value given for a position. *)
Definition newByIndex (indices : list Z) (newValues : list Row) (idx : Z) : option Row :=
  last (snd <$> filter (λ e, fst e = idx) (zip indices newValues)).

Fixpoint replaceLoop (txID : Z) (newBy : Z → option Row) (located : list (Z * PageSlot))
    : EM (list locatedTuple * list (Row * bytes)) :=
  match located with
  | [] => mret ([], [])
  | (idx, loc) :: located =>
      pg ← getPage (s_page loc);
      tuple ← lift (must (GetTuple pg (s_slot loc)));
      oldRow ← match decodePageTuple tuple with Ok (_, _, row) => mret row | Err _ => mret [] | Panic => lift Panic end;
      tuple ← lift (must (put_slice 8 8 16 txID tuple));
      putPage (s_page loc) {| slots := <[s_slot loc := Some tuple]> (slots pg); free := free pg |};;
      versions ← match newBy idx with
                 | Some nv => encoded ← lift (encodePageTuple txID 0 nv); mret [(nv, encoded)]
                 | None => mret []
                 end;
      '(locs, rest) ← replaceLoop txID newBy located;
      mret (mkLoc loc idx oldRow :: locs, versions ++ rest)
  end.

(** A position without a value, or one that was not found, panics. *)
Definition UpdateRowsDirect (now : Z) (indices : list Z) (newValues : list Row) : EM Z :=
  txID ← nextTxID;
  found ← locatePositions indices;
  logDeletes txID ((λ '(idx, loc), mkLoc loc idx []) <$> found);;
  '(located, versions) ← replaceLoop txID (newByIndex indices newValues) found;
  if (length versions <? length located)%nat then lift Panic else
  let newRows := versions.*1 in
  '(newSlots, hots) ← writeVersions (withVersions located versions) txID;
  moveSlots indices newSlots;;
  let hot := hotPositions (l_idx <$> located) hots in
  if existsb (λ idx, bool_decide (idx ∉ hot)) (drop (length newRows) indices) then lift Panic else
  match located with
  | [] => mret tt
  | _ =>
      updateIndexesOnDelete (nonHotIndices indices hot);;
      startPos ← gets (λ s, rowCount s - Z.of_nat (length located));
      updateIndexesOnInsert (nonHotRows indices hot newRows) startPos
  end;;
  modify (set_lastTxID txID);;
  n ← gets RowCounts;
  modify (λ s, set_catalog n (stampTx txID now (TxTimes s)) s);;
  appendWal (WCommit txID);;
  mret (Z.of_nat (length located)).

(** *** Reading *)

(** [readRows] with a transaction manager or without. *)
Definition rowVisible (m : option TxMgr) (counter asOf createdTx deletedTx : Z) : bool :=
  match m with
  | None => if asOf =? 0 then deletedTx =? 0
            else (createdTx =? asOf) && ((deletedTx =? 0) || (asOf <? deletedTx))
  | Some m =>
      let txID := if asOf =? 0 then counter else asOf in
      xminVisible m txID createdTx && xmaxVisible m txID deletedTx
  end.

Definition readRows (asOf : Z) : EM (list Row) :=
  m ← gets txMgr;
  counter ← gets txCounter;
  orFail (scanTuples (λ rows _ createdTx deletedTx row,
    (if rowVisible m counter asOf createdTx deletedTx then rows ++ [row] else rows, Continue)) []).

Definition SelectRows : EM (list Row) := readRows 0.
Definition ReadRowsAsOf (txID : Z) : EM (list Row) := readRows txID.

(** A row for which the predicate fails, or that does not decode, is left out. *)
Definition readRowsVM (asOf : Z) (predicate : bytes → outcome engine_error bool) : EM (list Row) :=
  m ← gets txMgr;
  counter ← gets txCounter;
  orFail (scanSlots (λ rows _ createdTx deletedTx rawTuple,
    let visible := match m with
      | None => if asOf =? 0 then deletedTx =? 0 else rawVisible None asOf createdTx deletedTx
      | Some _ => rawVisible m (if asOf =? 0 then counter else asOf) createdTx deletedTx
      end in
    match predicate rawTuple with
    | Ok true =>
        if (visible : bool) then
          match decodePageTuple rawTuple with
          | Ok (_, _, row) => (rows ++ [row], Continue)
          | Err _ => (rows, Continue)
          | Panic => (rows, Crash)
          end
        else (rows, Continue)
    | Panic => (rows, Crash)
    | _ => (rows, Continue)
    end) []).

Definition SelectRowsVM (predicate : bytes → outcome engine_error bool) : EM (list Row) := readRowsVM 0 predicate.

Definition ReadSampleRows (limit : Z) : EM (list Row) :=
  if limit <=? 0 then mret [] else
  m ← gets txMgr;
  orFail (scanTuples (λ rows _ createdTx deletedTx row,
    if (deletedTx =? 0) && match m with Some m => IsCommitted m createdTx | None => true end then
      let rows := rows ++ [row] in
      (rows, if limit <=? Z.of_nat (length rows) then Stop else Continue)
    else (rows, Continue)) []).

(** The row at a place of the directory, unless it is deleted or cannot be read. *)
Definition readAt (loc : PageSlot) : EM (list Row) := λ s,
  match getPage (s_page loc) s with
  | (s, Ok pg) =>
      match GetTuple pg (s_slot loc) with
      | Some tuple =>
          if (16 <=? blen tuple) && (deletedWord tuple =? 0) then
            match decodePageTuple tuple with
            | Ok (_, _, row) => (s, Ok [row])
            | Err _ => (s, Ok [])
            | Panic => (s, Panic)
            end
          else (s, Ok [])
      | None => (s, Ok [])
      end
  | (s, Err _) => (s, Ok [])
  | (s, Panic) => (s, Panic)
  end.

Fixpoint readPositions (dir : list PageSlot) (positions : list Z) : EM (list Row) :=
  match positions with
  | [] => mret []
  | p :: positions =>
      found ← match (if 0 <=? p then dir !! Z.to_nat p else None) with Some loc => readAt loc | None => mret [] end;
      rest ← readPositions dir positions;
      mret (found ++ rest)
  end.

(** If the directory cannot be built, the rows are counted in a scan. *)
Definition ReadRowsByPositions (positions : list Z) : EM (list Row) := λ s,
  match positions with
  | [] => (s, Ok [])
  | _ =>
      match ensurePosDirectory s with
      | (s, Ok dir) => readPositions dir positions s
      | (s, Err _) =>
          ('(_, _, located) ← orFail (scanSlots wantedVisitor (0, positions, [])); mret (l_row <$> located)) s
      | (s, Panic) => (s, Panic)
      end
  end.

Definition CountRows : EM Z := gets rowCount.

Record VersionedRow : Type := mkVersioned { v_CreatedTx : Z; v_DeletedTx : Z; v_Data : Row }.

Definition AllRowHistory : EM (list VersionedRow) :=
  orFail (scanTuples (λ history _ createdTx deletedTx row, (history ++ [mkVersioned createdTx deletedTx row], Continue)) []).

(** The last transaction that was stamped by the time [target]; 0 if there is none. *)
Definition TxIDAtTimestamp (target : Z) : EM Z :=
  gets (λ s, foldl (λ maxTx '(txID, ts), if (ts <=? target) && (maxTx <? txID) then txID else maxTx) 0 (TxTimes s)).

(** *** Indexes of a table with rows *)

(** The live rows of a scan; what an error cuts off is not noticed. *)
Definition CreateIndexOn (idx : I) : EM unit :=
  '(rows, _) ← scanTuples (λ rows _ _ deletedTx row, (if deletedTx =? 0 then rows ++ [row] else rows, Continue)) [];
  match Rebuild ((λ row, mkIndexable 0 (ofValue <$> row)) <$> (rows : list Row)) idx with
  | Some idx => modify (λ s, set_indexes (indexes s ++ [idx]) s)
  | None => lift Panic
  end.

(** *** Truncation and vacuum *)

(** Closing the file, listing the directory, removing segments and creating the
    new file each can fail. *)
Definition TruncateTable (now : Z) : EM unit :=
  modify (set_posDirectory None);;
  appendWal WTruncateTable;;
  fallible ErrIO;;
  fallible ErrIO;;
  modify (set_heap []);;
  fallible ErrIO;;
  txID ← nextTxID;
  modify (set_rowCount 0);;
  modify (set_lastTxID txID);;
  syncCatalog txID now;;
  fallible ErrIO.

(** A version that no transaction can see any more. *)
Definition isDead (m : option TxMgr) (tuple : bytes) : bool :=
  let deletedTx := deletedWord tuple in
  if negb (deletedTx =? 0) then
    match m with
    | Some m => IsCommitted m deletedTx && (deletedTx <? OldestActiveXID m)
    | None => true
    end
  else
    match m with Some m => negb (createdWord tuple =? 0) && IsAborted m (createdWord tuple) | None => false end.

Fixpoint refill (pg : slotPage) (tuples : list bytes) : option slotPage :=
  match tuples with
  | [] => Some pg
  | tuple :: tuples => match stepSlots (POInsert tuple) pg with (pg, Ok _) => refill pg tuples | (_, _) => None end
  end.

Definition liveTuples (m : option TxMgr) (pg : slotPage) : list bytes :=
  filter (λ t, isDead m t = false) (omap id (slots pg)).

Definition vacuumPage (m : option TxMgr) (pg : slotPage) : EM slotPage :=
  fallible ErrIO;;
  match refill emptyPage (liveTuples m pg) with
  | Some pg => fallible ErrIO;; mret pg
  | None => throw ErrTooLarge
  end.

Fixpoint vacuumPages (m : option TxMgr) (pages : list slotPage) : EM (list slotPage) :=
  match pages with
  | [] => mret []
  | pg :: pages => pg ← vacuumPage m pg; rest ← vacuumPages m pages; mret (pg :: rest)
  end.

(** The old files are removed before the new ones take their name; when that
    fails the new ones are removed as well. *)
Definition swapFiles (pages : list slotPage) : EM unit := λ s,
  match (fallible ErrIO;; fallible ErrIO) s with
  | (s, Ok _) =>
      match fallible ErrIO s with
      | (s, Ok _) => (set_heap pages s, Ok tt)
      | (s, Err e) => (set_heap [] s, Err e)
      | (s, Panic) => (s, Panic)
      end
  | r => r
  end.

Definition Vacuum : EM Z :=
  modify (set_posDirectory None);;
  appendWal WVacuumBegin;;
  fallible ErrIO;;
  fallible ErrIO;;
  fallible ErrIO;;
  m ← gets txMgr;
  pages ← gets heap;
  pages ← vacuumPages m pages;
  fallible ErrIO;;
  appendWal WVacuumCommit;;
  swapFiles pages;;
  fallible ErrIO;;
  let rowsAfter := Z.of_nat (length (pages ≫= λ pg, omap id (slots pg))) in
  modify (λ s, set_catalog rowsAfter (TxTimes s) s);;
  fallible ErrIO;;
  mret rowsAfter.
End Engine.
