(* ===== verification/EngineSpec.v ===== *)
(** * The storage engine as a table with a history

    What the operations of [Engine] do to a table: an insertion adds its rows, an
    update and a deletion change exactly the rows that match, and each state of
    the table stays readable under the transaction that made it. *)

From S2P Require Import Prelude Bytes Page Json RowCodec Float64 Eval Index Engine.

#[export] Instance PageSlot_countable : Countable PageSlot.
Proof. refine (inj_countable' (λ p, (s_page p, s_slot p)) (λ '(g, i), mkSlot g i) _). by intros []. Qed.

(** ** Versions *)

(** A version of a row: the two words of its header and its values. *)
Record version : Type := mkVer { created : Z; deleted : Z; values : Row }.

Definition xmin (v : version) : Z := Z.land (created v) TxIDMask.

(** Where every version of a table is. *)
Abbreviation versions := (gmap PageSlot version).

Section Tuples.
Context (Marshal : list (list byte * jvalue) → option bytes).
Context (ParseFloat : bytes → option Z) (decodeRaw : bytes → option jvalue).

(** The bytes of a version. *)
Definition tupleIs (v : version) (t : bytes) : Prop :=
  0 ≤ created v < 2 ^ 64 ∧ 0 ≤ deleted v < 2 ^ 64 ∧ values v ≠ [] ∧ Forall (valueFits Marshal ParseFloat decodeRaw) (values v) ∧
  ∃ encs, encodeCols Marshal (values v) = Ok encs ∧ headerBytes (length encs) + blen (concat encs) ≤ 65535 ∧
    t = layout (created v) (deleted v) encs.

(** A row that fits on a page. *)
Definition rowFits (r : Row) : Prop :=
  r ≠ [] ∧ Forall (valueFits Marshal ParseFloat decodeRaw) r ∧
  ∃ encs, encodeCols Marshal r = Ok encs ∧ headerBytes (length encs) + blen (concat encs) ≤ 8160.

Lemma encode_fits c r :
  rowFits r → 0 ≤ c < 2 ^ 64 →
  ∃ t, encodePageTuple Marshal c 0 r = Ok t ∧ tupleIs (mkVer c 0 r) t ∧ blen t ≤ 8160.
Proof.
  intros (Hne & Hf & encs & He & Hl) Hc. exists (layout c 0 encs). split_and!.
  - unfold encodePageTuple. rewrite EncodeRow_eq. destruct r as [|v r]; [done|]. unfold encodeReference. rewrite He.
    cbn [mbind outcome_bind]. rewrite <- (encodeCols_length _ _ _ He). by zbool.
  - split_and!; cbn [created deleted values]; [lia|lia|lia|lia|done|done|]. exists encs. split_and!; [done|lia|done].
  - rewrite blen_layout. lia.
Qed.

Lemma decode_tuple v t : tupleIs v t → decodePageTuple ParseFloat decodeRaw t = Ok (created v, deleted v, values v).
Proof.
  intros (Hc & Hd & _ & Hf & encs & He & Hl & ->). unfold decodePageTuple. pose proof (blen_nonneg (concat encs)).
  rewrite (DecodeRow_layout _ _ (created v) (deleted v) encs Hl [] (values v)); [done|done|done|].
  apply (encodeCols_decode Marshal); [done..|]. unfold headerBytes in Hl. lia.
Qed.

Lemma blen_tuple v t : tupleIs v t → 16 ≤ blen t.
Proof.
  intros (_ & _ & _ & _ & encs & _ & _ & ->). rewrite blen_layout. pose proof (blen_nonneg (concat encs)).
  unfold headerBytes. lia.
Qed.

Lemma created_tuple v t : tupleIs v t → createdWord t = created v.
Proof. intros (Hc & _ & _ & _ & encs & _ & _ & ->). apply (le_at_app 8 0 _ []); [done|lia]. Qed.

Lemma deleted_tuple v t : tupleIs v t → deletedWord t = deleted v.
Proof. intros (_ & Hd & _ & _ & encs & _ & _ & ->). apply le_at_app; [apply length_le_split|lia]. Qed.

Lemma put_deleted v t x :
  tupleIs v t → 0 ≤ x < 2 ^ 64 → ∃ t', put_slice 8 8 16 x t = Some t' ∧ tupleIs (mkVer (created v) x (values v)) t'.
Proof.
  intros (Hc & _ & Hne & Hf & encs & He & Hl & ->) Hx. exists (layout (created v) x encs). split.
  - unfold layout. rewrite put_slice_app; [by rewrite <- app_assoc|by unfold blen; rewrite length_le_split|done|apply length_le_split].
  - split_and!; cbn [created deleted values]; [lia|lia|lia|lia|done|done|]. by exists encs.
Qed.

Lemma set_word v t f :
  tupleIs v t → 0 ≤ f (created v) < 2 ^ 64 →
  ∃ t', setWord f t = (t', Ok tt) ∧ tupleIs (mkVer (f (created v)) (deleted v) (values v)) t' ∧ blen t' = blen t.
Proof.
  intros (Hc & Hd & Hne & Hf & encs & He & Hl & ->) Hx. exists (layout (f (created v)) (deleted v) encs). split_and!.
  - unfold layout. by rewrite setWord_spec.
  - split_and!; cbn [created deleted values]; [lia|lia|lia|lia|done|done|]. by exists encs.
  - by rewrite !blen_layout.
Qed.
End Tuples.

(** *** The flags leave the transaction id *)

Lemma mask_bits w k : 0 ≤ k → Z.testbit (Z.land w TxIDMask) k = (k <? 48) && Z.testbit w k.
Proof.
  intros Hk. change TxIDMask with (Z.ones 48). rewrite Z.land_spec. destruct (Z.ltb_spec k 48).
  - by rewrite Z.ones_spec_low, andb_true_r by lia.
  - by rewrite Z.ones_spec_high, andb_false_r by lia.
Qed.

Lemma mask_small w : 0 ≤ w < 2 ^ 48 → Z.land w TxIDMask = w.
Proof. intros Hw. change TxIDMask with (Z.ones 48). rewrite Z.land_ones by lia. by apply Z.mod_small. Qed.

Lemma mask_hotHeap w : Z.land (Z.lor w hotHeapTupleFlag) TxIDMask = Z.land w TxIDMask.
Proof.
  apply Z.bits_inj'. intros k Hk. rewrite !mask_bits by done. destruct (Z.ltb_spec k 48); [|done]. cbn [andb].
  rewrite Z.lor_spec. unfold hotHeapTupleFlag. rewrite Z.shiftl_1_l, Z.pow2_bits_eqb, (proj2 (Z.eqb_neq 49 k)) by lia.
  apply orb_false_r.
Qed.

Lemma hotHeap_range w : 0 ≤ w < 2 ^ 64 → 0 ≤ Z.lor w hotHeapTupleFlag < 2 ^ 64.
Proof.
  intros Hw. split; [apply Z.lor_nonneg; split; [lia|done]|]. destruct (decide (w = 0)) as [->|]; [done|].
  apply Z.log2_lt_pow2; [apply Z.lt_le_trans with w; [lia|]|].
  - pose proof (Z.lor_nonneg w hotHeapTupleFlag). apply Z.ldiff_le; [apply Z.lor_nonneg; split; [lia|done]|].
    apply Z.bits_inj'. intros k Hk. rewrite Z.ldiff_spec, Z.lor_spec, Z.bits_0. by destruct (Z.testbit w k).
  - rewrite Z.log2_lor by (lia || done). apply Z.max_lub_lt; [apply Z.log2_lt_pow2; lia|done].
Qed.

Lemma mask_hotWord w slot : 0 ≤ w < 2 ^ 64 → Z.land (hotWord w slot) TxIDMask = Z.land w TxIDMask.
Proof.
  intros Hw. apply Z.bits_inj'. intros k Hk. rewrite !mask_bits by done. destruct (Z.ltb_spec k 48); [|done]. cbn [andb].
  rewrite hotWord_bits by lia. rewrite (proj2 (Z.ltb_lt k 50)), (proj2 (Z.eqb_neq 48 k)) by lia. apply orb_false_r.
Qed.

(** ** The tuples of a heap *)

Definition tupleAt (h : list slotPage) (loc : PageSlot) : option bytes := h !! s_page loc ≫= λ pg, GetTuple pg (s_slot loc).

Definition addSlot (pg : slotPage) (t : bytes) (n : Z) : slotPage := {| slots := slots pg ++ [Some t]; free := n |}.
Definition setSlot (pg : slotPage) (i : nat) (t : bytes) : slotPage := {| slots := <[i := Some t]> (slots pg); free := free pg |}.

Lemma GetTuple_lt pg i t : GetTuple pg i = Some t → (i < length (slots pg))%nat.
Proof. unfold GetTuple. destruct (slots pg !! i) eqn:E; [|done]. intros _. by eapply lookup_lt_Some. Qed.

Lemma GetTuple_add pg t n i : GetTuple (addSlot pg t n) i = if decide (i = length (slots pg)) then Some t else GetTuple pg i.
Proof.
  unfold GetTuple. cbn [slots addSlot]. case_decide as E; [subst; by rewrite list_lookup_middle|].
  destruct (decide (i < length (slots pg))%nat) as [|Hge]; [by rewrite lookup_app_l|].
  rewrite lookup_app_r, (lookup_ge_None_2 (slots pg)) by lia. by rewrite lookup_ge_None_2 by (cbn; lia).
Qed.

Lemma GetTuple_set pg i t j :
  (i < length (slots pg))%nat → GetTuple (setSlot pg i t) j = if decide (j = i) then Some t else GetTuple pg j.
Proof.
  intros Hi. unfold GetTuple. cbn [slots setSlot].
  case_decide; [subst; by rewrite list_lookup_insert_eq|by rewrite list_lookup_insert_ne].
Qed.

Lemma tupleAt_page h g pg pg' loc :
  h !! g = Some pg → tupleAt (<[g := pg']> h) loc = if decide (s_page loc = g) then GetTuple pg' (s_slot loc) else tupleAt h loc.
Proof.
  intros Hg. unfold tupleAt. case_decide as E.
  - by rewrite E, list_lookup_insert_eq by (by eapply lookup_lt_Some).
  - by rewrite list_lookup_insert_ne.
Qed.

Lemma tupleAt_add h g pg t n loc :
  h !! g = Some pg →
  tupleAt (<[g := addSlot pg t n]> h) loc = if decide (loc = mkSlot g (length (slots pg))) then Some t else tupleAt h loc.
Proof.
  intros Hg. rewrite (tupleAt_page h g pg) by done. rewrite GetTuple_add. destruct loc as [g' i]. cbn [s_page s_slot].
  repeat case_decide; subst; try done; try congruence. unfold tupleAt. cbn [s_page s_slot]. by rewrite Hg.
Qed.

Lemma tupleAt_free h g pg : h !! g = Some pg → tupleAt h (mkSlot g (length (slots pg))) = None.
Proof. intros Hg. unfold tupleAt. cbn [s_page s_slot]. rewrite Hg. cbn. unfold GetTuple. by rewrite lookup_ge_None_2. Qed.

Lemma tupleAt_set h g pg i t t0 loc :
  h !! g = Some pg → GetTuple pg i = Some t0 →
  tupleAt (<[g := setSlot pg i t]> h) loc = if decide (loc = mkSlot g i) then Some t else tupleAt h loc.
Proof.
  intros Hg Hi%GetTuple_lt. rewrite (tupleAt_page h g pg) by done. rewrite GetTuple_set by done.
  destruct loc as [g' j]. cbn [s_page s_slot].
  repeat case_decide; subst; try done; try congruence. unfold tupleAt. cbn [s_page s_slot]. by rewrite Hg.
Qed.

Lemma tupleAt_alloc h loc : tupleAt (h ++ [emptyPage]) loc = tupleAt h loc.
Proof.
  unfold tupleAt. destruct (decide (s_page loc < length h)%nat) as [|Hge]; [by rewrite lookup_app_l|].
  rewrite lookup_app_r, (lookup_ge_None_2 h) by lia. cbn [mbind option_bind].
  destruct (decide (s_page loc = length h)) as [->|]; [by rewrite Nat.sub_diag|]. by rewrite lookup_ge_None_2 by (cbn; lia).
Qed.

(** *** Scanning order *)

Fixpoint pagesFrom (g : nat) (h : list slotPage) : list (PageSlot * bytes) :=
  match h with [] => [] | pg :: h => pageTuples g pg ++ pagesFrom (S g) h end.

Lemma pageTuples_elem g pg loc t : (loc, t) ∈ pageTuples g pg ↔ s_page loc = g ∧ GetTuple pg (s_slot loc) = Some t.
Proof.
  unfold pageTuples. rewrite list_elem_of_omap. split.
  - intros ([i o] & Hi & E). apply elem_of_lookup_imap_1 in Hi as (j & o' & [= -> ->] & Hj).
    destruct o' as [t'|]; [|done]. injection E as <- <-. cbn [s_page s_slot]. split; [done|]. unfold GetTuple. by rewrite Hj.
  - intros [<- Ht]. unfold GetTuple in Ht. destruct (slots pg !! s_slot loc) as [o|] eqn:E; [|done]. cbn in Ht. subst o.
    exists (s_slot loc, Some t). split; [by apply elem_of_lookup_imap_2|]. by destruct loc.
Qed.

Lemma pagesFrom_elem g h loc t :
  (loc, t) ∈ pagesFrom g h ↔ (g ≤ s_page loc)%nat ∧ tupleAt h (mkSlot (s_page loc - g) (s_slot loc)) = Some t.
Proof.
  revert g. induction h as [|pg h IH]; intros g; cbn [pagesFrom]; [split; [by intros ?%elem_of_nil|by intros [_ ?]]|].
  rewrite elem_of_app, pageTuples_elem, IH. unfold tupleAt. cbn [s_page s_slot]. split.
  - intros [[<- Ht]|[Hle Ht]]; [by rewrite Nat.sub_diag|]. split; [lia|]. by replace (s_page loc - g)%nat with (S (s_page loc - S g)) by lia.
  - intros [Hle Ht]. destruct (decide (s_page loc = g)) as [<-|]; [left; by rewrite Nat.sub_diag in Ht|right]. split; [lia|].
    by replace (s_page loc - g)%nat with (S (s_page loc - S g)) in Ht by lia.
Qed.

Lemma allTuples_elem h loc t : (loc, t) ∈ pagesFrom 0 h ↔ tupleAt h loc = Some t.
Proof. rewrite pagesFrom_elem, Nat.sub_0_r. destruct loc as [g i]. cbn [s_page s_slot]. split; [by intros [_ ?]|]. intros. split; [lia|done]. Qed.

Lemma pageTuples_nodup g pg : NoDup (pageTuples g pg).*1.
Proof.
  unfold pageTuples. generalize (slots pg). intros l. assert (∀ n, NoDup (omap (λ '(i, o), (λ t, (mkSlot g i, t)) <$> (o : option bytes))
    (imap (λ i o, ((n + i)%nat, o)) l)).*1 ∧ ∀ loc, loc ∈ (omap (λ '(i, o), (λ t, (mkSlot g i, t)) <$> (o : option bytes))
    (imap (λ i o, ((n + i)%nat, o)) l)).*1 → (n ≤ s_slot loc)%nat) as Hgen; [|by apply (Hgen 0%nat)].
  induction l as [|o l IH]; intros n; [split; [constructor|by intros ? ?%elem_of_nil]|].
  cbn [imap]. rewrite (imap_ext _ (λ i o, ((S n + i)%nat, o))) by (intros; cbn; f_equal; lia).
  destruct (IH (S n)) as [Hnd Hlo]. rewrite Nat.add_0_r. destruct o as [t|]; cbn.
  - split; [apply NoDup_cons; split; [|done]; intros Hin%Hlo; cbn in Hin; lia|]. intros loc [->|Hin%Hlo]%elem_of_cons; cbn; lia.
  - split; [done|]. intros loc Hin%Hlo. lia.
Qed.

Lemma pagesFrom_nodup g h : NoDup (pagesFrom g h).*1.
Proof.
  revert g. induction h as [|pg h IH]; intros g; [constructor|]. cbn [pagesFrom]. rewrite fmap_app. apply NoDup_app.
  split_and!; [apply pageTuples_nodup| |apply IH]. intros loc Hin Hin'.
  apply list_elem_of_fmap in Hin as ([loc1 t1] & -> & [E _]%pageTuples_elem).
  apply list_elem_of_fmap in Hin' as ([loc2 t2] & Hl & [Hle _]%pagesFrom_elem). cbn in Hl. subst. lia.
Qed.

(** ** Steps of the engine without faults *)

Lemma bind_ok {S E A B} (m : M S E A) (f : A → M S E B) s s' a : m s = (s', Ok a) → mbind f m s = f a s'.
Proof. unfold mbind, M_bind. by intros ->. Qed.

Lemma bind_err {S E A B} (m : M S E A) (f : A → M S E B) s s' e : m s = (s', Err e) → mbind f m s = (s', Err e).
Proof. unfold mbind, M_bind. by intros ->. Qed.

(** Runs the first step of a sequence. *)
Ltac mstep H := erewrite bind_ok by (first [exact H | eapply H; eauto]); cbv beta.

Section Steps.
Context {I : Type}.
Implicit Types s : engine I.

(** Only the heap and the log differ. *)
Definition frame s s' : Prop := s' = set_wal (wal s') (set_heap (heap s') s).

Lemma frame_refl s : frame s s.
Proof. by destruct s. Qed.

Lemma frame_trans s1 s2 s3 : frame s1 s2 → frame s2 s3 → frame s1 s3.
Proof. unfold frame. intros H1 H2. rewrite H2 at 1. rewrite H1. done. Qed.

Lemma frame_fields s s' :
  frame s s' → posDirectory s' = posDirectory s ∧ rowCount s' = rowCount s ∧ indexes s' = indexes s ∧ txCounter s' = txCounter s ∧
    txMgr s' = txMgr s ∧ RowCounts s' = RowCounts s ∧ TxTimes s' = TxTimes s ∧ faults s' = faults s ∧ lastTxID s' = lastTxID s.
Proof. unfold frame. intros ->. done. Qed.

Lemma frame_faults s s' : frame s s' → faults s = [] → faults s' = [].
Proof. intros Hf Hn. apply frame_fields in Hf. destruct Hf as (_ & _ & _ & _ & _ & _ & _ & -> & _). done. Qed.

Lemma fallible_ok e s : faults s = [] → fallible e s = (s, Ok tt).
Proof. unfold fallible. by intros ->. Qed.

Lemma getPage_ok s g pg : faults s = [] → heap s !! g = Some pg → getPage g s = (s, Ok pg).
Proof.
  intros Hn Hg. unfold getPage. rewrite (bind_ok _ _ s s tt) by (by apply fallible_ok).
  unfold mbind, M_bind, gets. by rewrite Hg.
Qed.

Lemma appendWal_ok r s : faults s = [] → appendWal r s = (set_wal (wal s ++ [r]) s, Ok tt).
Proof. intros Hn. unfold appendWal. by rewrite (bind_ok _ _ s s tt) by (by apply fallible_ok). Qed.

Lemma AllocatePage_ok s : faults s = [] → AllocatePage s = (set_heap (heap s ++ [emptyPage]) s, Ok (length (heap s))).
Proof. intros Hn. unfold AllocatePage. by rewrite (bind_ok _ _ s s tt) by (by apply fallible_ok). Qed.

Lemma insertTuple_ok g pg t s :
  insertTuple g pg t s =
  if blen t + 4 <=? free pg
  then (set_heap (<[g := addSlot pg t (free pg - (blen t + 4))]> (heap s)) s, Ok (Some (length (slots pg))))
  else (s, Ok None).
Proof.
  unfold insertTuple. cbn [stepSlots]. destruct (blen t + 4 <=? free pg); [|done].
  cbn. unfold mbind, M_bind, putPage, modify. by rewrite Nat2Z.id.
Qed.
End Steps.

Section Spec.
Context {I : Type} `{Index I}.
Context (Marshal : list (list byte * jvalue) → option bytes).
Context (ParseFloat : bytes → option Z) (decodeRaw : bytes → option jvalue).
Context (ToLower : bytes → bytes) (FormatFloat : float64 → bytes) (sprintV : Value → bytes).
Context (deepEqualOther : Value → Value → bool).
Context (columns : list Column) (normalize : nat → Value → option Value).
Implicit Types s : engine I.
Implicit Types vm : versions.

Abbreviation tupleIs := (tupleIs Marshal ParseFloat decodeRaw).
Abbreviation rowFits := (rowFits Marshal ParseFloat decodeRaw).

(** The heap holds these versions. *)
Definition heapIs (h : list slotPage) vm : Prop :=
  ∀ loc, match tupleAt h loc, vm !! loc with Some t, Some v => tupleIs v t | None, None => True | _, _ => False end.

Lemma heapIs_get h vm loc v :
  heapIs h vm → vm !! loc = Some v → ∃ pg t, h !! s_page loc = Some pg ∧ GetTuple pg (s_slot loc) = Some t ∧ tupleIs v t.
Proof.
  intros Hh Hv. specialize (Hh loc). rewrite Hv in Hh. unfold tupleAt in Hh.
  destruct (h !! s_page loc) as [pg|]; [|done]. cbn in Hh. destruct (GetTuple pg (s_slot loc)) as [t|] eqn:E; [|done]. by exists pg, t.
Qed.

Lemma heapIs_at h vm loc t : heapIs h vm → tupleAt h loc = Some t → ∃ v, vm !! loc = Some v ∧ tupleIs v t.
Proof. intros Hh Ht. specialize (Hh loc). rewrite Ht in Hh. destruct (vm !! loc) as [v|]; [|done]. by exists v. Qed.

Lemma heapIs_update h h' vm loc v t :
  heapIs h vm → tupleIs v t → (∀ l, tupleAt h' l = if decide (l = loc) then Some t else tupleAt h l) → heapIs h' (<[loc := v]> vm).
Proof.
  intros Hh Ht Hat l. rewrite Hat. case_decide as E; [subst; by rewrite lookup_insert_eq|]. rewrite lookup_insert_ne by done. apply Hh.
Qed.

Lemma heapIs_alloc h vm : heapIs h vm → heapIs (h ++ [emptyPage]) vm.
Proof. intros Hh loc. rewrite tupleAt_alloc. apply Hh. Qed.

Lemma heapIs_free h vm loc : heapIs h vm → tupleAt h loc = None → vm !! loc = None.
Proof. intros Hh Hn. specialize (Hh loc). rewrite Hn in Hh. by destruct (vm !! loc). Qed.

(** *** Placing a tuple *)

Lemma placeOn_fits g pg v t tx s vm :
  faults s = [] → heapIs (heap s) vm → heap s !! g = Some pg → tupleIs v t → blen t + 4 ≤ free pg →
  ∃ s' loc, placeOn g pg t tx s = (s', Ok (Some loc)) ∧ vm !! loc = None ∧ heapIs (heap s') (<[loc := v]> vm) ∧ frame s s'.
Proof.
  intros Hn Hh Hg Ht Hfit. unfold placeOn. pose proof (insertTuple_ok g pg t s) as Hi. rewrite (proj2 (Z.leb_le _ _) Hfit) in Hi.
  rewrite (bind_ok _ _ _ _ _ Hi). cbv beta iota.
  rewrite (bind_ok _ _ _ _ _ (appendWal_ok _ (set_heap _ s) Hn)). eexists _, _. split_and!; [done| | |done].
  - eapply heapIs_free; [done|]. by apply tupleAt_free.
  - eapply heapIs_update; [done..|]. intros l. by apply tupleAt_add.
Qed.

Lemma placeOn_full g pg t tx s : free pg < blen t + 4 → placeOn g pg t tx s = (s, Ok None).
Proof.
  intros Hfull. unfold placeOn. pose proof (insertTuple_ok g pg t s) as Hi. rewrite (proj2 (Z.leb_gt _ _) Hfull) in Hi.
  by rewrite (bind_ok _ _ _ _ _ Hi).
Qed.

Lemma placeFresh_spec v t tx s vm :
  faults s = [] → heapIs (heap s) vm → tupleIs v t → blen t ≤ 8160 →
  ∃ s' loc, placeFresh t tx s = (s', Ok loc) ∧ vm !! loc = None ∧ heapIs (heap s') (<[loc := v]> vm) ∧ frame s s'.
Proof.
  intros Hn Hh Ht Hl. unfold placeFresh. rewrite (bind_ok _ _ _ _ _ (AllocatePage_ok s Hn)). set (s1 := set_heap _ s).
  destruct (placeOn_fits (length (heap s)) emptyPage v t tx s1 vm) as (s' & loc & E & H1 & H2 & H3); [done| | |done|cbn; lia|].
  - by apply heapIs_alloc.
  - cbn [heap s1 set_heap]. by apply list_lookup_middle.
  - rewrite (bind_ok _ _ _ _ _ E). exists s', loc. split_and!; [done..|]. eapply frame_trans; [|done]. done.
Qed.

Definition haveOk (have : option (nat * slotPage)) s : Prop := ∀ g pg, have = Some (g, pg) → heap s !! g = Some pg.

Lemma placeTuple_spec have v t tx s vm :
  faults s = [] → heapIs (heap s) vm → tupleIs v t → blen t ≤ 8160 → haveOk have s →
  ∃ s' loc, placeTuple have t tx s = (s', Ok loc) ∧ vm !! loc = None ∧ heapIs (heap s') (<[loc := v]> vm) ∧ frame s s'.
Proof.
  intros Hn Hh Ht Hl Hhave. unfold placeTuple. destruct have as [[g pg]|]; [|by apply placeFresh_spec].
  specialize (Hhave g pg eq_refl). destruct (Z.le_gt_cases (blen t + 4) (free pg)) as [Hfit|Hfull].
  - destruct (placeOn_fits g pg v t tx s vm Hn Hh Hhave Ht Hfit) as (s' & loc & E & H1 & H2 & H3).
    rewrite (bind_ok _ _ _ _ _ E). by exists s', loc.
  - rewrite (bind_ok _ _ _ _ _ (placeOn_full g pg t tx s Hfull)). by apply placeFresh_spec.
Qed.

Lemma lastPage_ok s : faults s = [] → ∃ have, lastPage s = (s, Ok have) ∧ haveOk have s.
Proof.
  intros Hn. unfold lastPage, haveOk. rewrite (bind_ok _ _ s s (length (heap s)) eq_refl). destruct (length (heap s)) as [|g] eqn:E.
  - by exists None.
  - destruct (lookup_lt_is_Some_2 (heap s) g) as [pg Hg]; [lia|]. rewrite (bind_ok _ _ _ _ _ (getPage_ok s g pg Hn Hg)).
    exists (Some (g, pg)). split; [done|]. by intros ? ? [= <- <-].
Qed.

(** *** What a transaction adds *)

(** The same version, apart from flags. *)
Definition sameVer (v v' : version) : Prop := xmin v' = xmin v ∧ deleted v' = deleted v ∧ values v' = values v.

(** [vm'] has the versions of [vm], and those of the transaction [tx] at [news]. *)
Definition grown (tx : Z) vm (news : list (PageSlot * Row)) vm' : Prop :=
  NoDup news.*1 ∧ (∀ loc, loc ∈ news.*1 → vm !! loc = None) ∧
  ∀ loc, match list_to_map (M := gmap PageSlot Row) news !! loc with
         | Some r => ∃ v, vm' !! loc = Some v ∧ xmin v = tx ∧ deleted v = 0 ∧ values v = r
         | None => option_Forall2 sameVer (vm !! loc) (vm' !! loc)
         end.

Lemma sameVer_refl v : sameVer v v.
Proof. done. Qed.

Lemma sameVer_trans v1 v2 v3 : sameVer v1 v2 → sameVer v2 v3 → sameVer v1 v3.
Proof. unfold sameVer. intros (-> & -> & ->) (-> & -> & ->). done. Qed.

Lemma grown_nil tx vm : grown tx vm [] vm.
Proof.
  split_and!; [constructor|by intros ? ?%elem_of_nil|]. intros loc. cbn. rewrite lookup_empty. destruct (vm !! loc); constructor. done.
Qed.

Lemma grown_perm tx vm news news' vm' : news ≡ₚ news' → grown tx vm news vm' → grown tx vm news' vm'.
Proof.
  intros Hp (Hnd & Hfresh & Hat). split_and!; [by rewrite <- Hp|intros loc; rewrite <- Hp; apply Hfresh|].
  intros loc. rewrite <- (list_to_map_proper news news' Hnd Hp). apply Hat.
Qed.

(** The versions before and after are at the same places, but for the new ones. *)
Lemma grown_none tx vm news vm' loc : grown tx vm news vm' → vm' !! loc = None → vm !! loc = None ∧ loc ∉ news.*1.
Proof.
  intros (Hnd & Hfresh & Hat) Hn. specialize (Hat loc). destruct (list_to_map news !! loc) as [r|] eqn:E.
  - destruct Hat as (v & Hv & _). congruence.
  - rewrite Hn in Hat. split; [inversion Hat; congruence|]. by apply not_elem_of_list_to_map.
Qed.

Lemma grown_place tx vm news vm1 loc v :
  grown tx vm news vm1 → vm1 !! loc = None → xmin v = tx → deleted v = 0 →
  grown tx vm ((loc, values v) :: news) (<[loc := v]> vm1).
Proof.
  intros Hg Hn Hx Hd. destruct (grown_none _ _ _ _ _ Hg Hn) as [Hvm Hnin]. destruct Hg as (Hnd & Hfresh & Hat). split_and!.
  - by apply NoDup_cons.
  - intros l [->|Hl]%elem_of_cons; [done|by apply Hfresh].
  - intros l. cbn [list_to_map foldr fst snd uncurry]. destruct (decide (l = loc)) as [->|Hne].
    + rewrite !lookup_insert_eq. by exists v.
    + rewrite !lookup_insert_ne by done. apply Hat.
Qed.

Lemma grown_flag tx vm news vm1 loc v v' :
  grown tx vm news vm1 → vm1 !! loc = Some v → sameVer v v' → grown tx vm news (<[loc := v']> vm1).
Proof.
  intros (Hnd & Hfresh & Hat) Hv Hs. split_and!; [done|done|]. intros l. specialize (Hat l).
  destruct (decide (l = loc)) as [->|Hne]; [|by rewrite lookup_insert_ne]. rewrite lookup_insert_eq.
  destruct (list_to_map news !! loc) as [r|].
  - destruct Hat as (v0 & Hv0 & Hx & Hd & Hr). rewrite Hv in Hv0. injection Hv0 as <-. exists v'.
    destruct Hs as (-> & -> & ->). done.
  - rewrite Hv in Hat. inversion Hat as [v0 ? Hs0|]; subst. constructor. by eapply sameVer_trans.
Qed.

(** Everything but the heap, the log and the directory is as it was. *)
Definition keeps s s' : Prop := s' = set_posDirectory (posDirectory s') (set_wal (wal s') (set_heap (heap s') s)).

Lemma frame_keeps s s' : frame s s' → keeps s s'.
Proof. unfold frame, keeps. intros ->. by destruct s. Qed.

Lemma keeps_refl s : keeps s s.
Proof. by destruct s. Qed.

Lemma keeps_trans s1 s2 s3 : keeps s1 s2 → keeps s2 s3 → keeps s1 s3.
Proof. unfold keeps. intros H1 H2. rewrite H2 at 1. rewrite H1. done. Qed.

Lemma keeps_fields s s' :
  keeps s s' → rowCount s' = rowCount s ∧ indexes s' = indexes s ∧ txCounter s' = txCounter s ∧
    txMgr s' = txMgr s ∧ RowCounts s' = RowCounts s ∧ TxTimes s' = TxTimes s ∧ faults s' = faults s ∧ lastTxID s' = lastTxID s.
Proof. unfold keeps. intros ->. done. Qed.

Lemma keeps_faults s s' : keeps s s' → faults s = [] → faults s' = [].
Proof. intros Hk Hn. apply keeps_fields in Hk. destruct Hk as (_ & _ & _ & _ & _ & _ & -> & _). done. Qed.

(** The tuples of new versions. *)
Definition tuplesFor (tx : Z) (rows : list Row) (tuples : list bytes) : Prop :=
  Forall2 (λ r t, (∃ c, tupleIs (mkVer c 0 r) t ∧ Z.land c TxIDMask = tx) ∧ blen t ≤ 8160) rows tuples.

Lemma insertLoop_spec tx rows tuples s vm vm0 news :
  faults s = [] → heapIs (heap s) vm → grown tx vm0 news vm → tuplesFor tx rows tuples →
  ∃ s' locs vm', insertLoop tuples tx s = (s', Ok tt) ∧ heapIs (heap s') vm' ∧ length locs = length rows ∧
    grown tx vm0 (zip locs rows ++ news) vm' ∧ keeps s s' ∧ posDirectory s' = (λ dir, dir ++ locs) <$> posDirectory s.
Proof.
  intros Hn Hh Hg Ht. revert s vm news Hn Hh Hg.
  induction Ht as [|r t rows tuples [(c & Ht & Hc) Hl] _ IH]; intros s vm news Hn Hh Hg; cbn [insertLoop].
  { exists s, [], vm. split_and!; [done..|apply keeps_refl|]. destruct (posDirectory s); cbn; [by rewrite app_nil_r|done]. }
  destruct (lastPage_ok s Hn) as (have & E0 & Hhave). rewrite (bind_ok _ _ _ _ _ E0).
  destruct (placeTuple_spec have _ t tx s vm Hn Hh Ht Hl Hhave) as (s1 & loc & E1 & Hfresh & Hh1 & Hf1).
  rewrite (bind_ok _ _ _ _ _ E1). set (s2 := set_posDirectory ((λ dir, dir ++ [loc]) <$> posDirectory s1) s1).
  rewrite (bind_ok _ _ s1 s2 tt) by done.
  pose proof (grown_place tx vm0 news vm loc (mkVer c 0 r) Hg Hfresh Hc eq_refl) as Hg1. cbn [values] in Hg1.
  destruct (IH s2 _ _ (frame_faults _ _ Hf1 Hn) Hh1 Hg1) as (s' & locs & vm' & E2 & Hh' & Hlen & Hg' & Hk & Hp).
  exists s', (loc :: locs), vm'. split_and!; [done|done|cbn; lia| | |].
  - eapply grown_perm; [|exact Hg']. cbn. solve_Permutation.
  - eapply keeps_trans; [apply frame_keeps, Hf1|]. eapply keeps_trans; [|exact Hk]. done.
  - rewrite Hp. cbn [posDirectory s2 set_posDirectory]. destruct (frame_fields _ _ Hf1) as (-> & _).
    destruct (posDirectory s); cbn; [by rewrite <- app_assoc|done].
Qed.

Lemma appendLoop_spec tx rows tuples have s vm vm0 news :
  faults s = [] → heapIs (heap s) vm → grown tx vm0 news vm → tuplesFor tx rows tuples → haveOk have s →
  ∃ s' locs vm', appendLoop have tuples tx s = (s', Ok locs) ∧ heapIs (heap s') vm' ∧ length locs = length rows ∧
    grown tx vm0 (zip locs rows ++ news) vm' ∧ frame s s'.
Proof.
  intros Hn Hh Hg Ht. revert have s vm news Hn Hh Hg.
  induction Ht as [|r t rows tuples [(c & Ht & Hc) Hl] _ IH]; intros have s vm news Hn Hh Hg Hhave; cbn [appendLoop].
  { exists s, [], vm. split_and!; [done..|apply frame_refl]. }
  destruct (placeTuple_spec have _ t tx s vm Hn Hh Ht Hl Hhave) as (s1 & loc & E1 & Hfresh & Hh1 & Hf1).
  rewrite (bind_ok _ _ _ _ _ E1).
  pose proof (grown_place tx vm0 news vm loc (mkVer c 0 r) Hg Hfresh Hc eq_refl) as Hg1. cbn [values] in Hg1.
  destruct (IH None s1 _ _ (frame_faults _ _ Hf1 Hn) Hh1 Hg1) as (s' & locs & vm' & E2 & Hh' & Hlen & Hg' & Hf2); [done|].
  rewrite (bind_ok _ _ _ _ _ E2). exists s', (loc :: locs), vm'. split_and!; [done|done|cbn; lia| |].
  - eapply grown_perm; [|exact Hg']. cbn. solve_Permutation.
  - by eapply frame_trans.
Qed.

Lemma appendTuplesLocked_spec tx rows tuples s vm vm0 news :
  faults s = [] → heapIs (heap s) vm → grown tx vm0 news vm → tuplesFor tx rows tuples →
  ∃ s' locs vm', appendTuplesLocked tuples tx s = (s', Ok locs) ∧ heapIs (heap s') vm' ∧ length locs = length rows ∧
    grown tx vm0 (zip locs rows ++ news) vm' ∧ frame s s'.
Proof.
  intros Hn Hh Hg Ht. unfold appendTuplesLocked. rewrite (bind_ok _ _ _ _ _ (fallible_ok ErrIO s Hn)).
  destruct (lastPage_ok s Hn) as (have & E0 & Hhave). rewrite (bind_ok _ _ _ _ _ E0). by eapply appendLoop_spec.
Qed.

(** *** Heap-only updates *)

Abbreviation tryHOTInsert := (tryHOTInsert ToLower deepEqualOther columns).
Abbreviation hotLoop := (hotLoop ToLower deepEqualOther columns).
Abbreviation writeVersions := (writeVersions ToLower deepEqualOther columns).

(** An indexed column differs. *)
Definition indexedChange s (oldRow newRow : Row) : bool :=
  isIndexedColumnUpdated ToLower (changedCols ToLower deepEqualOther columns oldRow newRow) (indexes s).

Lemma tryHOTInsert_spec loc oldRow nv encoded tx s vm v0 :
  faults s = [] → heapIs (heap s) vm → vm !! loc = Some v0 → 0 ≤ tx < 2 ^ 48 →
  tupleIs (mkVer tx 0 nv) encoded → blen encoded ≤ 8160 →
  tryHOTInsert loc oldRow nv encoded tx s = (s, Ok (encoded, None)) ∨
  (indexedChange s oldRow nv = false ∧
   ∃ s' encoded' new v1 c, tryHOTInsert loc oldRow nv encoded tx s = (s', Ok (encoded', Some new)) ∧ frame s s' ∧
     vm !! new = None ∧ sameVer v0 v1 ∧ Z.land c TxIDMask = tx ∧
     heapIs (heap s') (<[loc := v1]> (<[new := mkVer c 0 nv]> vm))).
Proof.
  intros Hn Hh Hv Htx Ht Hl. unfold Engine.tryHOTInsert, indexedChange. destruct (isIndexedColumnUpdated _ _ _) eqn:Ei; [by left|].
  destruct (heapIs_get _ _ _ _ Hh Hv) as (pg & t0 & Hpg & Ht0 & Hv0). rewrite (getPage_ok s _ pg Hn Hpg).
  pose proof (blen_nonneg encoded). rewrite (u16_small (blen encoded)), u16_small by (unfold ItemPointerSize; lia).
  destruct (Z.ltb_spec (free pg) (blen encoded + ItemPointerSize)) as [|Hfit]; [by left|]. unfold ItemPointerSize in Hfit. right. split; [done|].
  destruct (set_word _ _ _ _ encoded (λ val, Z.lor val hotHeapTupleFlag) Ht) as (enc & E1 & Henc & Hlen); [cbn; apply hotHeap_range; lia|].
  cbn [created deleted values] in Henc. unfold SetHOTHeapTuple. rewrite E1. cbn [stepSlots]. rewrite (proj2 (Z.leb_le _ _)) by lia.
  change {| slots := slots pg ++ [Some enc]; free := free pg - (blen enc + 4) |} with (addSlot pg enc (free pg - (blen enc + 4))).
  pose proof (GetTuple_lt _ _ _ Ht0) as Hlt. rewrite GetTuple_add, decide_False, Ht0 by lia. rewrite Nat2Z.id.
  assert (0 ≤ created v0 < 2 ^ 64) as Hc0 by apply Hv0.
  destruct (set_word _ _ _ v0 t0 (λ w, hotWord w (Z.of_nat (length (slots pg)))) Hv0) as (t1 & E2 & Ht1 & _); [by apply hotWord_range|].
  unfold SetHOTUpdated. unfold hotWord in E2 at 1. rewrite E2. cbn [fst]. rewrite appendWal_ok by done.
  set (new := mkSlot (s_page loc) (length (slots pg))). set (v1 := mkVer (hotWord (created v0) _) _ _) in Ht1.
  eexists _, enc, new, v1, (Z.lor tx hotHeapTupleFlag). split_and!; [done|done| |split_and!; [by apply mask_hotWord|done|done]| |].
  - eapply heapIs_free; [done|]. by apply tupleAt_free.
  - rewrite mask_hotHeap. by apply mask_small.
  - cbn [heap set_wal set_heap fst]. set (pg1 := addSlot pg enc _).
    assert (heapIs (<[s_page loc := pg1]> (heap s)) (<[new := mkVer (Z.lor tx hotHeapTupleFlag) 0 nv]> vm)) as Hh1.
    { eapply heapIs_update; [exact Hh|exact Henc|]. intros l. by apply tupleAt_add. }
    eapply heapIs_update; [exact Hh1|exact Ht1|]. intros l.
    rewrite <- (list_insert_insert_eq (heap s) (s_page loc) _ pg1).
    erewrite (tupleAt_set _ (s_page loc) pg1 (s_slot loc) t1 t0); [|by apply list_lookup_insert_eq; eapply lookup_lt_Some|].
    + by destruct loc.
    + unfold pg1. by rewrite GetTuple_add, decide_False by lia.
Qed.

(** The new versions that are heap-only, with their rows, and the rows of the others. *)
Fixpoint splitHot (hots : list (bytes * option PageSlot)) (rows : list Row) : list (PageSlot * Row) * list Row :=
  match hots, rows with
  | (_, o) :: hots, r :: rows =>
      let '(hot, rest) := splitHot hots rows in
      match o with Some loc => ((loc, r) :: hot, rest) | None => (hot, r :: rest) end
  | _, _ => ([], [])
  end.

Lemma fillSlots_zip hots rows appended :
  length hots = length rows → length appended = length (snd (splitHot hots rows)) →
  zip (fillSlots hots appended) rows ≡ₚ fst (splitHot hots rows) ++ zip appended (snd (splitHot hots rows)) ∧
  length (fillSlots hots appended) = length rows.
Proof.
  revert rows appended. induction hots as [|[enc o] hots IH]; intros [|r rows] appended Hl Ha; [|done..|].
  { by destruct appended. }
  cbn [splitHot fillSlots length] in *. specialize (IH rows). destruct (splitHot hots rows) as [hot rest]. cbn [fst snd] in *.
  destruct o as [loc|]; cbn [fst snd length] in *.
  - destruct (IH appended) as [IH1 IH2]; [lia|done|]. cbn. split; [by rewrite IH1|lia].
  - destruct appended as [|loc appended]; [done|]. destruct (IH appended) as [IH1 IH2]; [lia|cbn in Ha; lia|].
    cbn. split; [|lia]. rewrite IH1. solve_Permutation.
Qed.

(** What an update needs of the rows it found and their new versions. *)
Definition itemsOk (tx : Z) vm (items : list (locatedTuple * Row * bytes)) : Prop :=
  Forall (λ '(loc, nv, encoded), is_Some (vm !! l_loc loc) ∧ tupleIs (mkVer tx 0 nv) encoded ∧ blen encoded ≤ 8160) items.

Lemma itemsOk_keep tx vm vm' items : (∀ loc, is_Some (vm !! loc) → is_Some (vm' !! loc)) → itemsOk tx vm items → itemsOk tx vm' items.
Proof. intros Hk Hi. eapply Forall_impl; [exact Hi|]. intros [[loc nv] enc] [H1 H2]. split; [by apply Hk|done]. Qed.

Definition stayed s (item : locatedTuple * Row * bytes) (h : bytes * option PageSlot) : Prop :=
  is_Some (snd h) → indexedChange s (l_row (fst (fst item))) (snd (fst item)) = false.

Lemma hotLoop_spec tx items s vm vm0 news :
  faults s = [] → heapIs (heap s) vm → grown tx vm0 news vm → 0 ≤ tx < 2 ^ 48 → itemsOk tx vm items →
  ∃ s' hots vm', hotLoop items tx s = (s', Ok hots) ∧ heapIs (heap s') vm' ∧ frame s s' ∧ length hots = length items ∧
    grown tx vm0 (fst (splitHot hots (snd ∘ fst <$> items)) ++ news) vm' ∧
    tuplesFor tx (snd (splitHot hots (snd ∘ fst <$> items)))
      (omap (λ '(encoded, o), match (o : option PageSlot) with None => Some encoded | Some _ => None end) hots) ∧
    Forall2 (stayed s) items hots.
Proof.
  intros Hn Hh Hg Htx Hi. revert s vm news Hn Hh Hg Hi.
  induction items as [|[[loc nv] enc] items IH]; intros s vm news Hn Hh Hg Hi; cbn [Engine.hotLoop].
  { exists s, [], vm. split_and!; [done..|apply frame_refl|done|done|constructor|constructor]. }
  apply Forall_cons in Hi as [([v0 Hv0] & Ht & Hl) Hi].
  destruct (tryHOTInsert_spec (l_loc loc) (l_row loc) nv enc tx s vm v0 Hn Hh Hv0 Htx Ht Hl)
    as [E|(Hidx & s1 & enc1 & new & v1 & c & E & Hf1 & Hfresh & Hs1 & Hc & Hh1)]; rewrite (bind_ok _ _ _ _ _ E).
  - destruct (IH s vm news Hn Hh Hg Hi) as (s' & hots & vm' & E' & Hh' & Hf & Hlen & Hg' & Htup & Hst).
    rewrite (bind_ok _ _ _ _ _ E'). exists s', ((enc, None) :: hots), vm'.
    rewrite fmap_cons. cbn [splitHot compose fst snd omap]. destruct (splitHot hots _) as [hot rest]. cbn [fst snd] in *.
    split_and!; [done..|cbn; lia|done| |]; [constructor; [|done]|constructor; [by intros [? ?]|done]].
    split; [|done]. exists tx. split; [done|by apply mask_small].
  - assert (l_loc loc ≠ new) as Hne by (intros Eq; rewrite Eq in Hv0; congruence).
    set (vm1 := <[l_loc loc := v1]> (<[new := mkVer c 0 nv]> vm)) in *.
    assert (grown tx vm0 ((new, nv) :: news) vm1) as Hg1.
    { eapply grown_flag; [by apply (grown_place tx vm0 news vm new (mkVer c 0 nv))| |exact Hs1]. by rewrite lookup_insert_ne. }
    destruct (IH s1 vm1 _ (frame_faults _ _ Hf1 Hn) Hh1 Hg1) as (s' & hots & vm' & E' & Hh' & Hf & Hlen & Hg' & Htup & Hst).
    { eapply itemsOk_keep; [|exact Hi]. intros l Hl'. unfold vm1. by rewrite !lookup_insert_is_Some'; right; right. }
    rewrite (bind_ok _ _ _ _ _ E'). exists s', ((enc1, Some new) :: hots), vm'.
    rewrite fmap_cons. cbn [splitHot compose fst snd omap]. destruct (splitHot hots _) as [hot rest]. cbn [fst snd] in *.
    split_and!; [done|done|by eapply frame_trans|cbn; lia| |done|].
    + eapply grown_perm; [|exact Hg']. cbn. solve_Permutation.
    + constructor; [by intros _|]. eapply Forall2_impl; [exact Hst|]. intros item h. unfold stayed, indexedChange.
      destruct (frame_fields _ _ Hf1) as (_ & _ & -> & _). done.
Qed.

Lemma writeVersions_spec tx items s vm vm0 news :
  faults s = [] → heapIs (heap s) vm → grown tx vm0 news vm → 0 ≤ tx < 2 ^ 48 → itemsOk tx vm items →
  ∃ s' newSlots hots vm', writeVersions items tx s = (s', Ok (newSlots, hots)) ∧ heapIs (heap s') vm' ∧ frame s s' ∧
    length newSlots = length items ∧ length hots = length items ∧ Forall2 (stayed s) items hots ∧
    grown tx vm0 (zip newSlots (snd ∘ fst <$> items) ++ news) vm'.
Proof.
  intros Hn Hh Hg Htx Hi. unfold Engine.writeVersions.
  destruct (hotLoop_spec tx items s vm vm0 news Hn Hh Hg Htx Hi) as (s1 & hots & vm1 & E1 & Hh1 & Hf1 & Hlen & Hg1 & Htup & Hst).
  rewrite (bind_ok _ _ _ _ _ E1). set (rows := snd ∘ fst <$> items) in *.
  assert (length rows = length items) as Hr by apply length_fmap.
  set (nonHot := omap _ hots) in *.
  assert (∃ s2 appended vm2, (match nonHot with [] => mret [] | _ => appendTuplesLocked nonHot tx end) s1 = (s2, Ok appended) ∧
    heapIs (heap s2) vm2 ∧ length appended = length (snd (splitHot hots rows)) ∧
    grown tx vm0 (zip appended (snd (splitHot hots rows)) ++ fst (splitHot hots rows) ++ news) vm2 ∧ frame s1 s2)
    as (s2 & appended & vm2 & E2 & Hh2 & Hla & Hg2 & Hf2).
  { destruct nonHot as [|t ts] eqn:En.
    - unfold tuplesFor in Htup. inversion Htup as [Hnil|]. exists s1, [], vm1. split_and!; [done|done|done|done|apply frame_refl].
    - eapply appendTuplesLocked_spec; [by eapply frame_faults|done..]. }
  rewrite (bind_ok _ _ _ _ _ E2). destruct (fillSlots_zip hots rows appended) as [Hp Hl]; [lia|done|].
  exists s2, (fillSlots hots appended), hots, vm2. split_and!; [done|done|by eapply frame_trans|lia|done|done|].
  eapply grown_perm; [|exact Hg2]. rewrite Hp. solve_Permutation.
Qed.

(** *** Scans *)

Section Scan.
Context {A : Type} (visit : A → PageSlot → bytes → A * control) (f : A → PageSlot → bytes → A).

Lemma visitSlots_all l acc :
  (∀ acc loc t, (loc, t) ∈ l → visit acc loc t = (f acc loc t, Continue)) →
  visitSlots visit acc l = (foldl (λ a e, f a e.1 e.2) acc l, Continue).
Proof.
  revert acc. induction l as [|[loc t] l IH]; intros acc Hv; [done|]. cbn [visitSlots foldl fst snd]. rewrite Hv by (by left).
  apply IH. intros. apply Hv. by right.
Qed.

Lemma scanPages_all s pre rest acc :
  faults s = [] → heap s = pre ++ rest →
  (∀ acc loc t, (loc, t) ∈ pagesFrom (length pre) rest → visit acc loc t = (f acc loc t, Continue)) →
  scanPages visit (length rest) (length pre) acc s =
  (s, Ok (foldl (λ a e, f a e.1 e.2) acc (pagesFrom (length pre) rest), None)).
Proof.
  intros Hn. revert pre acc. induction rest as [|pg rest IH]; intros pre acc Hh Hv; [done|].
  cbn [scanPages length pagesFrom]. rewrite (getPage_ok s (length pre) pg Hn) by (rewrite Hh; by apply list_lookup_middle).
  rewrite visitSlots_all by (intros; apply Hv; cbn [pagesFrom]; apply elem_of_app; by left). rewrite foldl_app.
  specialize (IH (pre ++ [pg])). rewrite length_app, Nat.add_1_r in IH. apply IH; [by rewrite <- app_assoc|].
  intros. apply Hv. cbn [pagesFrom]. apply elem_of_app. by right.
Qed.

Lemma scan_all s acc :
  faults s = [] → (∀ acc loc t, tupleAt (heap s) loc = Some t → visit acc loc t = (f acc loc t, Continue)) →
  scan visit acc s = (s, Ok (foldl (λ a e, f a e.1 e.2) acc (pagesFrom 0 (heap s)), None)).
Proof.
  intros Hn Hv. unfold scan. rewrite fallible_ok by done. apply (scanPages_all s [] (heap s)); [done..|].
  intros a loc t Hin. apply Hv. by apply allTuples_elem.
Qed.
End Scan.

Lemma foldl_collect {B} (out : PageSlot → bytes → list B) l acc :
  foldl (λ a e, a ++ out e.1 e.2) acc l = acc ++ (l ≫= λ e, out e.1 e.2).
Proof.
  revert acc. induction l as [|e l IH]; intros acc; [by rewrite app_nil_r|]. cbn [foldl]. by rewrite IH, bind_cons, app_assoc.
Qed.

Lemma scan_collect {B} visit (out : PageSlot → bytes → list B) s :
  faults s = [] → (∀ acc loc t, tupleAt (heap s) loc = Some t → visit acc loc t = (acc ++ out loc t, Continue)) →
  orFail (scan visit []) s = (s, Ok (pagesFrom 0 (heap s) ≫= λ e, out e.1 e.2)).
Proof.
  intros Hn Hv. unfold orFail. rewrite (bind_ok _ _ _ _ _ (scan_all visit (λ a loc t, a ++ out loc t) s [] Hn Hv)).
  cbv beta. by rewrite foldl_collect.
Qed.

(** What a scan collects from the tuples, in the order of the places. *)
Lemma collect_versions {B} h vm (out : PageSlot → bytes → list B) (outv : PageSlot → version → list B) :
  heapIs h vm → (∀ loc v t, vm !! loc = Some v → tupleIs v t → out loc t = outv loc v) →
  (pagesFrom 0 h ≫= λ e, out e.1 e.2) ≡ₚ map_to_list vm ≫= λ e, outv e.1 e.2.
Proof.
  intros Hh Hout. set (f := λ e : PageSlot * bytes, (e.1, default (mkVer 0 0 []) (vm !! e.1))).
  assert (f <$> pagesFrom 0 h ≡ₚ map_to_list vm) as <-.
  { apply NoDup_Permutation.
    - apply (NoDup_fmap_1 fst). rewrite <- list_fmap_compose. apply pagesFrom_nodup.
    - apply NoDup_map_to_list.
    - intros [loc v]. rewrite elem_of_map_to_list, list_elem_of_fmap. split.
      + intros ([loc' t] & [= -> ->] & Ht%allTuples_elem). destruct (heapIs_at _ _ _ _ Hh Ht) as (v' & Hv & _).
        cbn. by rewrite Hv.
      + intros Hv. destruct (heapIs_get _ _ _ _ Hh Hv) as (pg & t & Hpg & Ht & _). exists (loc, t). unfold f. cbn [fst].
        rewrite Hv. split; [done|]. apply allTuples_elem. unfold tupleAt. by rewrite Hpg. }
  assert (∀ l : list (PageSlot * bytes), (∀ e, e ∈ l → tupleAt h e.1 = Some e.2) →
    (l ≫= λ e, out e.1 e.2) = (f <$> l) ≫= λ e, outv e.1 e.2) as Heq.
  { induction l as [|[loc t] l IH]; intros Hl; [done|]. rewrite fmap_cons, !bind_cons, IH by (intros; apply Hl; by right).
    f_equal. cbn. destruct (heapIs_at h vm loc t Hh) as (v & Hv & Ht); [apply (Hl (loc, t)); by left|]. rewrite Hv. by apply Hout. }
  rewrite Heq; [done|]. intros [loc t]. apply allTuples_elem.
Qed.

(** *** The directory *)

Definition liveAt vm (loc : PageSlot) : Prop := ∃ v, vm !! loc = Some v ∧ deleted v = 0.

Definition dirOk vm (dir : list PageSlot) : Prop := NoDup dir ∧ ∀ loc, loc ∈ dir ↔ liveAt vm loc.

Lemma bind_singleton_sub {A B} (l : list (A * B)) (P : A → B → bool) :
  NoDup l.*1 → NoDup (l ≫= λ e, if P e.1 e.2 then [e.1] else []) ∧
  ∀ a, a ∈ (l ≫= λ e, if P e.1 e.2 then [e.1] else []) ↔ ∃ b, (a, b) ∈ l ∧ P a b = true.
Proof.
  intros Hnd. assert (∀ a, a ∈ (l ≫= λ e, if P e.1 e.2 then [e.1] else []) ↔ ∃ b, (a, b) ∈ l ∧ P a b = true) as Hin.
  { intros a. rewrite list_elem_of_bind. split.
    - intros ([a' b] & Ha & Hl). cbn in Ha. destruct (P a' b) eqn:E; [|by apply elem_of_nil in Ha].
      apply list_elem_of_singleton in Ha as ->. by exists b.
    - intros (b & Hl & HP). exists (a, b). cbn. rewrite HP. split; [by left|done]. }
  split; [|done]. clear Hin. induction l as [|[a b] l IH]; [constructor|]. rewrite fmap_cons in Hnd. apply NoDup_cons in Hnd as [Ha Hnd].
  rewrite bind_cons. cbn [fst snd]. destruct (P a b); [|by apply IH]. cbn. apply NoDup_cons. split; [|by apply IH].
  rewrite list_elem_of_bind. intros ([a' b'] & Hin & Hl). cbn in Hin. destruct (P a' b'); [|by apply elem_of_nil in Hin].
  apply list_elem_of_singleton in Hin as ->. apply Ha. by apply (list_elem_of_fmap_2 fst) in Hl.
Qed.

Lemma ensurePosDirectory_spec s vm :
  faults s = [] → heapIs (heap s) vm → (∀ dir, posDirectory s = Some dir → dirOk vm dir) →
  ∃ dir, ensurePosDirectory s = (set_posDirectory (Some dir) s, Ok dir) ∧ dirOk vm dir ∧ (∀ dir', posDirectory s = Some dir' → dir' = dir).
Proof.
  intros Hn Hh Hd. unfold ensurePosDirectory. rewrite (bind_ok _ _ s s (posDirectory s) eq_refl).
  destruct (posDirectory s) as [dir|] eqn:E.
  - exists dir. split_and!; [|by apply Hd|by intros ? [= ->]]. rewrite <- E. by destruct s.
  - set (out := λ (loc : PageSlot) (t : bytes), if deletedWord t =? 0 then [loc] else []).
    rewrite (bind_ok _ _ s s (pagesFrom 0 (heap s) ≫= λ e, out e.1 e.2)).
    2: { apply scan_collect; [done|]. intros a loc t (v & _ & Ht)%(heapIs_at _ _ _ _ Hh). unfold slotVisitor, out.
         pose proof (blen_tuple _ _ _ _ _ Ht). zbool. destruct (deletedWord t =? 0); [done|by rewrite app_nil_r]. }
    eexists. split; [reflexivity|]. split; [|done]. unfold out.
    destruct (bind_singleton_sub (pagesFrom 0 (heap s)) (λ _ t, deletedWord t =? 0) (pagesFrom_nodup 0 (heap s))) as [Hnd Hin].
    split; [exact Hnd|]. intros loc. rewrite Hin. split.
    + intros (t & Ht%allTuples_elem & Hz%Z.eqb_eq). destruct (heapIs_at _ _ _ _ Hh Ht) as (v & Hv & Htv).
      exists v. split; [done|]. by rewrite <- (deleted_tuple _ _ _ _ _ Htv).
    + intros (v & Hv & Hz). destruct (heapIs_get _ _ _ _ Hh Hv) as (pg & t & Hpg & Ht & Htv). exists t.
      split; [apply allTuples_elem; unfold tupleAt; by rewrite Hpg|]. apply Z.eqb_eq. by rewrite (deleted_tuple _ _ _ _ _ Htv).
Qed.

(** *** The rows a transaction sees *)

Definition rowsOf (m : gmap PageSlot Row) : list Row := (map_to_list m).*2.

Definition pick (P : version → bool) vm : gmap PageSlot Row := omap (λ v, if P v then Some (values v) else None) vm.

(** Visible to transaction [t] when no other transaction is open. *)
Definition seenBy (t : Z) (v : version) : bool := (xmin v <=? t) && ((deleted v =? 0) || (t <? deleted v)).

Definition isLive (v : version) : bool := deleted v =? 0.

(** The versions of the first [n] transactions. *)
Definition vmOk (n : Z) vm : Prop := ∀ loc v, vm !! loc = Some v → 1 ≤ xmin v ≤ n ∧ 0 ≤ deleted v ≤ n.

Lemma pick_rows (P : version → bool) vm : (map_to_list vm ≫= λ e, if P e.2 then [values e.2] else []) ≡ₚ rowsOf (pick P vm).
Proof.
  unfold rowsOf, pick. induction vm as [|loc v vm Hn IH] using map_ind; [done|].
  rewrite map_to_list_insert by done. rewrite bind_cons, IH, omap_insert. cbn [snd]. destruct (P v) eqn:E.
  - rewrite map_to_list_insert by (by rewrite lookup_omap, Hn). done.
  - rewrite delete_id by (by rewrite lookup_omap, Hn). done.
Qed.

Lemma pick_lookup P vm loc r : pick P vm !! loc = Some r ↔ ∃ v, vm !! loc = Some v ∧ P v = true ∧ values v = r.
Proof.
  unfold pick. rewrite lookup_omap_Some. split.
  - intros (v & Hv & Hl). destruct (P v) eqn:E; [|done]. injection Hv as <-. by exists v.
  - intros (v & Hl & HP & <-). exists v. by rewrite HP.
Qed.

(** The table of the last transaction is what is live. *)
Lemma pick_now n vm : vmOk n vm → pick (seenBy n) vm = pick isLive vm.
Proof.
  intros Hok. apply map_eq. intros loc. unfold pick. rewrite !lookup_omap. destruct (vm !! loc) as [v|] eqn:E; [|done]. cbn.
  specialize (Hok loc v E). unfold seenBy, isLive. zbool. cbn [andb]. destruct (Z.eqb_spec (deleted v) 0); [done|]. by zbool.
Qed.

Definition noSnapshot (m : TxMgr) (t : Z) : Prop := GetSnapshot m t = None.

Lemma rowVisible_seenBy m n t v counter :
  vmOk n {[ mkSlot 0 0 := v ]} → n < 2 ^ 48 → n < t_counter m → noSnapshot m t → t ≠ 0 →
  rowVisible (Some m) counter t (xmin v) (Z.land (deleted v) TxIDMask) = seenBy t v.
Proof.
  intros Hok Hn Hc Hs Ht. destruct (Hok (mkSlot 0 0) v) as [Hx Hd]; [apply lookup_singleton_eq|].
  unfold rowVisible, xminVisible, xmaxVisible, seenBy, IsCommitted, IsAborted. rewrite (proj2 (Z.eqb_neq t 0)) by done. unfold noSnapshot in Hs. rewrite Hs.
  rewrite (mask_small (deleted v)), (mask_small (xmin v)), (mask_small (deleted v)) by lia. rewrite andb_false_r, !orb_false_r.
  assert ((xmin v <? t_counter m) = true) as -> by (apply Z.ltb_lt; lia). rewrite orb_true_r, !andb_true_r.
  destruct (Z.eqb_spec (xmin v) t); [|done]. by rewrite (proj2 (Z.leb_le (xmin v) t)) by lia.
Qed.

Lemma readRows_spec s vm m n asOf :
  faults s = [] → heapIs (heap s) vm → vmOk n vm → n < 2 ^ 48 → txMgr s = Some m → n < t_counter m →
  let t := if asOf =? 0 then txCounter s else asOf in
  t ≠ 0 → noSnapshot m t →
  ∃ rows, readRows ParseFloat decodeRaw asOf s = (s, Ok rows) ∧ rows ≡ₚ rowsOf (pick (seenBy t) vm).
Proof.
  intros Hn Hh Hok Hb Hm Hc t Ht Hs. unfold readRows. rewrite (bind_ok _ _ s s (txMgr s) eq_refl), Hm.
  rewrite (bind_ok _ _ s s (txCounter s) eq_refl). cbv beta.
  set (out := λ (_ : PageSlot) (tup : bytes), match decodePageTuple ParseFloat decodeRaw tup with
    | Ok (c, d, r) => if rowVisible (Some m) (txCounter s) asOf (Z.land c TxIDMask) (Z.land d TxIDMask) then [r] else []
    | _ => [] end).
  eexists. split.
  - apply (scan_collect _ out); [done|]. intros a loc tup (v & _ & Htup)%(heapIs_at _ _ _ _ Hh).
    unfold tupleVisitor, out. rewrite (decode_tuple _ _ _ _ _ Htup). destruct (rowVisible _ _ _ _ _); [done|by rewrite app_nil_r].
  - rewrite <- pick_rows. apply (collect_versions _ vm _ (λ _ v, if seenBy t v then [values v] else [])); [done|].
    intros loc v tup Hv Htup. unfold out. rewrite (decode_tuple _ _ _ _ _ Htup). fold (xmin v).
    assert (rowVisible (Some m) (txCounter s) asOf (xmin v) (Z.land (deleted v) TxIDMask) = seenBy t v) as ->; [|done].
    rewrite <- (rowVisible_seenBy m n t v (txCounter s)); [|by intros ? ? [<- <-]%lookup_singleton_Some; apply (Hok loc)|done..].
    unfold rowVisible, t. destruct (Z.eqb_spec asOf 0) as [->|]; [|by rewrite (proj2 (Z.eqb_neq asOf 0))].
    unfold t in Ht. cbn in Ht. by rewrite (proj2 (Z.eqb_neq (txCounter s) 0)).
Qed.

(** *** Finding rows *)

(** The rows a predicate on rows selects. *)
Definition locatedOf vm (P : Row → bool) (items : list (Z * PageSlot)) : list locatedTuple :=
  omap (λ '(idx, loc), match vm !! loc with
    | Some v => if P (values v) then Some (mkLoc loc idx (values v)) else None
    | None => None
    end) items.

(** A predicate on tuples that is one on their rows. *)
Definition matches (matchFn : bytes → outcome engine_error bool) (P : Row → bool) : Prop :=
  ∀ v t, tupleIs v t → matchFn t = Ok (P (values v)).

Lemma rawVisible_live m t v n :
  1 ≤ xmin v ≤ n → n < t_counter m → n ≤ t → noSnapshot m t → deleted v = 0 → rawVisible (Some m) t (xmin v) (deleted v) = true.
Proof.
  intros Hx Hc Ht Hs Hd. unfold rawVisible, IsCommitted. unfold noSnapshot in Hs. rewrite Hd, Hs. zbool. cbn. by rewrite orb_true_r.
Qed.

Lemma locate_spec matchFn P s vm m n t items :
  faults s = [] → heapIs (heap s) vm → txMgr s = Some m → vmOk n vm → n < t_counter m → n ≤ t → noSnapshot m t → matches matchFn P →
  Forall (λ e, liveAt vm (snd e)) items →
  locate ParseFloat decodeRaw matchFn t items s = (s, Ok (locatedOf vm P items)).
Proof.
  intros Hn Hh Hm Hok Hc Ht Hs Hmatch. induction 1 as [|[idx loc] items (v & Hv & Hd) _ IH]; [done|]. cbn [locate snd] in *.
  destruct (heapIs_get _ _ _ _ Hh Hv) as (pg & tup & Hpg & Htup & Htv). rewrite (bind_ok _ _ _ _ _ (getPage_ok s _ pg Hn Hpg)).
  rewrite (bind_ok _ _ s s (txMgr s) eq_refl), Hm. cbv beta. rewrite Htup.
  pose proof (blen_tuple _ _ _ _ _ Htv). rewrite (proj2 (Z.ltb_ge (blen tup) 16)) by lia.
  rewrite (created_tuple _ _ _ _ _ Htv), (deleted_tuple _ _ _ _ _ Htv). fold (xmin v).
  rewrite (rawVisible_live m t v n); [|by apply (Hok loc)|done..].
  assert (∀ found, (rest ← locate ParseFloat decodeRaw matchFn t items; mret (found ++ rest)) s = (s, Ok (found ++ locatedOf vm P items)))
    as Hrest by (intros; by rewrite (bind_ok _ _ _ _ _ IH)).
  unfold locatedOf. cbn [omap list_omap]. rewrite Hv. unfold lift at 1. rewrite (Hmatch v tup Htv).
  destruct (P (values v)).
  - rewrite (bind_ok _ _ s s [mkLoc loc idx (values v)]); [apply Hrest|].
    rewrite (bind_ok _ _ s s true) by done. by rewrite (decode_tuple _ _ _ _ _ Htv).
  - rewrite (bind_ok _ _ s s []); [apply (Hrest [])|]. by rewrite (bind_ok _ _ s s false) by done.
Qed.

(** *** Marking rows *)

Lemma fmap_SomeE {A B} (f : A → B) x : f <$> Some x = Some (f x).
Proof. done. Qed.

Definition markIf (x : Z) (locs : list PageSlot) (loc : PageSlot) (v : version) : version :=
  if bool_decide (loc ∈ locs) then mkVer (created v) x (values v) else v.

Lemma putDeleted_spec loc x s vm v :
  faults s = [] → heapIs (heap s) vm → vm !! loc = Some v → 0 ≤ x < 2 ^ 64 →
  ∃ s', putDeleted loc x s = (s', Ok tt) ∧ frame s s' ∧ heapIs (heap s') (<[loc := mkVer (created v) x (values v)]> vm).
Proof.
  intros Hn Hh Hv Hx. destruct (heapIs_get _ _ _ _ Hh Hv) as (pg & t & Hpg & Ht & Htv). unfold putDeleted.
  rewrite (bind_ok _ _ _ _ _ (getPage_ok s _ pg Hn Hpg)), Ht. destruct (put_deleted _ _ _ v t x Htv Hx) as (t' & E & Ht').
  cbn [mbind option_bind]. rewrite E. unfold putPage, modify. eexists. split_and!; [done|done|].
  cbn [heap set_heap]. eapply heapIs_update; [done|exact Ht'|]. intros l. destruct loc as [g i]. by eapply tupleAt_set.
Qed.

Lemma markDeleted_spec x located s vm :
  faults s = [] → heapIs (heap s) vm → 0 ≤ x < 2 ^ 64 → Forall (λ loc, is_Some (vm !! l_loc loc)) located →
  ∃ s' vm', markDeleted x located s = (s', Ok tt) ∧ frame s s' ∧ heapIs (heap s') vm' ∧
    ∀ loc, vm' !! loc = markIf x (l_loc <$> located) loc <$> vm !! loc.
Proof.
  intros Hn Hh Hx Hall. revert s vm Hn Hh Hall. induction located as [|l located IH]; intros s vm Hn Hh Hall; cbn [markDeleted].
  { exists s, vm. split_and!; [done|apply frame_refl|done|]. intros loc. by destruct (vm !! loc). }
  apply Forall_cons in Hall as [[v Hv] Hall]. destruct (putDeleted_spec (l_loc l) x s vm v Hn Hh Hv Hx) as (s1 & E1 & Hf1 & Hh1).
  rewrite (bind_ok _ _ _ _ _ E1). set (vm1 := <[l_loc l := _]> vm) in *.
  destruct (IH s1 vm1 (frame_faults _ _ Hf1 Hn) Hh1) as (s' & vm' & E' & Hf' & Hh' & Hat).
  { eapply Forall_impl; [exact Hall|]. intros l' Hl'. cbn. apply lookup_insert_is_Some'. by right. }
  exists s', vm'. split_and!; [done|by eapply frame_trans|done|]. intros loc. rewrite Hat. unfold vm1, markIf.
  destruct (decide (loc = l_loc l)) as [->|Hne].
  - rewrite lookup_insert_eq, Hv, !fmap_SomeE. f_equal.
    rewrite (bool_decide_eq_true_2 (l_loc l ∈ l_loc <$> l :: located)) by (rewrite fmap_cons; by left). by case_bool_decide.
  - rewrite lookup_insert_ne by done. destruct (vm !! loc) as [w|]; [|done]. rewrite !fmap_SomeE. f_equal.
    rewrite (bool_decide_ext (loc ∈ l_loc <$> l :: located) (loc ∈ l_loc <$> located)); [done|].
    rewrite fmap_cons, elem_of_cons. naive_solver.
Qed.

Lemma logDeletes_spec tx located s : faults s = [] → ∃ s', logDeletes tx located s = (s', Ok tt) ∧ frame s s' ∧ heap s' = heap s.
Proof.
  revert s. induction located as [|l located IH]; intros s Hn; cbn [logDeletes]; [exists s; split_and!; [done|apply frame_refl|done]|].
  rewrite (bind_ok _ _ _ _ _ (appendWal_ok _ s Hn)). destruct (IH (set_wal (wal s ++ [WPageDelete tx (l_loc l)]) s) Hn) as (s' & E & Hf & Hh).
  exists s'. split_and!; [exact E| |done]. eapply frame_trans; [|exact Hf]. done.
Qed.

Lemma newVersionsOf_spec updateFn (u : Row → Row) tx located s :
  0 ≤ tx < 2 ^ 64 → Forall (λ l, updateFn (l_row l) = Ok (u (l_row l)) ∧ rowFits (u (l_row l))) located →
  ∃ vers, newVersionsOf Marshal updateFn tx located s = (s, Ok vers) ∧ vers.*1 = u ∘ l_row <$> located ∧
    Forall (λ v, tupleIs (mkVer tx 0 (fst v)) (snd v) ∧ blen (snd v) ≤ 8160) vers.
Proof.
  intros Htx. induction 1 as [|l located [Hu Hf] _ IH]; cbn [newVersionsOf]; [by exists []|].
  destruct (encode_fits _ _ _ tx _ Hf Htx) as (t & Et & Ht & Hl). destruct IH as (vers & E & Hr & Hall).
  rewrite (bind_ok _ _ s s (u (l_row l))) by (unfold lift; by rewrite Hu).
  rewrite (bind_ok _ _ s s t) by (unfold lift; by rewrite Et). rewrite (bind_ok _ _ _ _ _ E).
  eexists. split_and!; [done|by rewrite !fmap_cons, Hr|]. by constructor.
Qed.

(** *** From one transaction to the next *)

Lemma map_to_list_union_perm {A} (m1 m2 : gmap PageSlot A) :
  m1 ##ₘ m2 → map_to_list (m1 ∪ m2) ≡ₚ map_to_list m1 ++ map_to_list m2.
Proof.
  intros Hd. rewrite <- (map_to_list_to_map (M := gmap PageSlot) (map_to_list m1 ++ map_to_list m2)).
  - by rewrite list_to_map_app, !list_to_map_to_list.
  - rewrite fmap_app. apply NoDup_app. split_and!; [apply NoDup_fst_map_to_list| |apply NoDup_fst_map_to_list].
    intros i Hi1 Hi2. apply list_elem_of_fmap in Hi1 as ([i1 x1] & -> & H1%elem_of_map_to_list).
    apply list_elem_of_fmap in Hi2 as ([i2 x2] & E & H2%elem_of_map_to_list). cbn in E. subst.
    by apply (map_disjoint_spec m1 m2) with i2 x1 x2.
Qed.

(** Transaction [tx] deletes the versions [dead] and adds [news]. *)
Definition evolves (tx : Z) vm (dead : list PageSlot) (news : list (PageSlot * Row)) vm' : Prop :=
  ∃ vm1, (∀ loc, vm1 !! loc = markIf tx dead loc <$> vm !! loc) ∧ grown tx vm1 news vm'.

(** What is at a place afterwards. *)
Lemma evolves_at tx vm dead news vm' loc :
  evolves tx vm dead news vm' →
  match list_to_map (M := gmap PageSlot Row) news !! loc with
  | Some r => vm !! loc = None ∧ ∃ v, vm' !! loc = Some v ∧ xmin v = tx ∧ deleted v = 0 ∧ values v = r
  | None => option_Forall2 (λ v v', sameVer (markIf tx dead loc v) v') (vm !! loc) (vm' !! loc)
  end.
Proof.
  intros (vm1 & Hm & Hnd & Hfresh & Hat). specialize (Hat loc). destruct (list_to_map news !! loc) as [r|] eqn:E.
  - split; [|done]. specialize (Hm loc). rewrite Hfresh in Hm; [by destruct (vm !! loc)|].
    apply elem_of_list_to_map_2 in E. by apply (list_elem_of_fmap_2 fst) in E.
  - rewrite Hm in Hat. destruct (vm !! loc) as [v|]; inversion Hat; subst; by constructor.
Qed.

(** The flags aside, a version is kept or marked. *)
Lemma evolves_old tx vm dead news vm' loc v :
  evolves tx vm dead news vm' → vm !! loc = Some v → ∃ v', vm' !! loc = Some v' ∧ sameVer (markIf tx dead loc v) v'.
Proof.
  intros He Hv. pose proof (evolves_at _ _ _ _ _ loc He) as Hat. rewrite Hv in Hat.
  destruct (list_to_map news !! loc); [by destruct Hat|]. inversion Hat; subst. by eexists.
Qed.

Section Evolves.
Context (tx n : Z) vm (dead : list PageSlot) (news : list (PageSlot * Row)) vm'.
Context (He : evolves tx vm dead news vm') (Hok : vmOk n vm) (Hn : n < tx) (Hdead : ∀ loc, loc ∈ dead → liveAt vm loc).

(** What is at a place afterwards, by cases. *)
Lemma evolves_cases loc :
  (∃ r v, list_to_map (M := gmap PageSlot Row) news !! loc = Some r ∧ vm !! loc = None ∧ vm' !! loc = Some v ∧ xmin v = tx ∧
     deleted v = 0 ∧ values v = r) ∨
  (∃ v v', list_to_map (M := gmap PageSlot Row) news !! loc = None ∧ vm !! loc = Some v ∧ vm' !! loc = Some v' ∧ xmin v' = xmin v ∧
     values v' = values v ∧ ((loc ∈ dead ∧ deleted v = 0 ∧ deleted v' = tx) ∨ ((loc ∉ dead) ∧ deleted v' = deleted v))) ∨
  (list_to_map (M := gmap PageSlot Row) news !! loc = None ∧ vm !! loc = None ∧ vm' !! loc = None).
Proof.
  pose proof (evolves_at _ _ _ _ _ loc He) as Hat. destruct (list_to_map news !! loc) as [r|].
  { left. destruct Hat as (? & v & ?). by exists r, v. }
  right. destruct (vm !! loc) as [v|] eqn:Ev; inversion Hat as [? v' (Hx & Hd & Hv)|]; subst; [left|by right].
  exists v, v'. unfold markIf in *. destruct (bool_decide_reflect (loc ∈ dead)) as [Hin|]; cbn in *.
  - destruct (Hdead loc Hin) as (w & Hw & Hlive). assert (w = v) as -> by congruence. split_and!; try done. by left.
  - split_and!; try done. by right.
Qed.

Lemma evolves_past t : t < tx → pick (seenBy t) vm' = pick (seenBy t) vm.
Proof.
  intros Ht. apply map_eq. intros loc. unfold pick. rewrite !lookup_omap.
  destruct (evolves_cases loc) as [(r & v & _ & -> & -> & Hx & _)|[(v & v' & _ & -> & -> & Hx & Hv & Hd)|(_ & -> & ->)]]; [| |done].
  - cbn. unfold seenBy. by rewrite Hx, (proj2 (Z.leb_gt tx t)).
  - cbn. unfold seenBy. rewrite Hx, Hv. destruct Hd as [(_ & -> & ->)|(_ & ->)]; [|done].
    rewrite (proj2 (Z.ltb_lt t tx)) by done. by rewrite orb_true_r.
Qed.

Lemma evolves_live :
  pick isLive vm' = list_to_map news ∪ filter (λ e, e.1 ∉ dead) (pick isLive vm).
Proof.
  apply map_eq. intros loc. unfold pick. rewrite lookup_omap, lookup_union, map_lookup_filter, lookup_omap.
  destruct (evolves_cases loc) as [(r & v & -> & -> & -> & _ & Hd & Hv)|[(v & v' & -> & -> & -> & _ & Hv & Hd)|(-> & -> & ->)]]; [| |done].
  - cbn. unfold isLive. by rewrite Hd, Hv.
  - cbn. unfold isLive. destruct Hd as [(Hin & -> & ->)|(Hin & ->)].
    + rewrite (proj2 (Z.eqb_neq tx 0)); [|destruct (Hdead loc Hin) as (w & Hw & _); destruct (Hok loc w Hw); lia]. cbn.
      by rewrite option_guard_False by naive_solver.
    + destruct (Z.eqb_spec (deleted v) 0); [|done]. cbn. by rewrite option_guard_True, Hv.
Qed.

Lemma evolves_ok : 0 < tx → vmOk tx vm'.
Proof.
  intros H0 loc w Hw. destruct (evolves_cases loc) as [(r & v & _ & _ & Ev & Hx & Hd & _)|[(v & v' & _ & Ev & Ev' & Hx & _ & Hd)|(_ & _ & Ev)]].
  - assert (w = v) as -> by congruence. lia.
  - assert (w = v') as -> by congruence. destruct (Hok loc v Ev). destruct Hd as [(_ & _ & ->)|(_ & ->)]; lia.
  - congruence.
Qed.

Lemma evolves_rows : rowsOf (pick isLive vm') ≡ₚ news.*2 ++ rowsOf (filter (λ e, e.1 ∉ dead) (pick isLive vm)).
Proof.
  rewrite evolves_live. unfold rowsOf. destruct He as (vm1 & Hm & Hnd & Hfresh & _).
  rewrite map_to_list_union_perm; [by rewrite fmap_app, (map_to_list_to_map news)|].
  apply map_disjoint_spec. intros loc r r' Hr Hr'. apply map_lookup_filter_Some in Hr' as [Hr' _].
  apply pick_lookup in Hr' as (v & Hv & _). apply elem_of_list_to_map_2, (list_elem_of_fmap_2 fst), Hfresh in Hr.
  cbn in Hr. by rewrite Hm, Hv in Hr.
Qed.

Lemma evolves_liveAt loc : liveAt vm' loc ↔ loc ∈ news.*1 ∨ (liveAt vm loc ∧ loc ∉ dead).
Proof.
  assert (loc ∈ news.*1 ↔ is_Some (list_to_map (M := gmap PageSlot Row) news !! loc)) as ->.
  { split.
    - intros Hin. destruct (list_to_map news !! loc) eqn:E; [done|]. by apply not_elem_of_list_to_map in E.
    - intros [r Hr]. apply elem_of_list_to_map_2 in Hr. by apply (list_elem_of_fmap_2 fst) in Hr. }
  unfold liveAt. destruct (evolves_cases loc) as [(r & v & -> & -> & -> & _ & Hd & _)|[(v & v' & -> & -> & -> & _ & _ & Hd)|(-> & -> & ->)]].
  - split; [by left|]. intros _. by exists v.
  - split.
    + intros (w & [= <-] & Hz). right. destruct Hd as [(Hin & _ & Hd)|(Hin & Hd)]; [|split; [exists v; split; [done|lia]|done]].
      destruct (Hdead loc Hin) as (w & Hw & _). destruct (Hok loc w Hw). lia.
    + intros [[? ?]|[(w & [= <-] & Hz) Hnin]]; [done|]. destruct Hd as [(Hin & _)|(_ & Hd)]; [done|]. exists v'. split; [done|lia].
  - split; [by intros (? & ? & _)|]. by intros [[? ?]|[(? & ? & _) _]].
Qed.
End Evolves.

(** ** The table an engine holds *)

(** Its rows, and the rows it had after each transaction; no transaction is open. *)
Definition tableIs s (rows : list Row) (hist : Z → list Row) : Prop :=
  ∃ vm m, faults s = [] ∧ txMgr s = Some m ∧ t_active m = ∅ ∧ 0 ≤ txCounter s < 2 ^ 48 ∧ txCounter s < t_counter m ∧
    heapIs (heap s) vm ∧ vmOk (txCounter s) vm ∧ (∀ dir, posDirectory s = Some dir → dirOk vm dir) ∧
    rows ≡ₚ rowsOf (pick isLive vm) ∧ rowCount s = Z.of_nat (length rows) ∧
    ∀ t, 1 ≤ t ≤ txCounter s → hist t ≡ₚ rowsOf (pick (seenBy t) vm).

Definition remember (tx : Z) (rows : list Row) (hist : Z → list Row) : Z → list Row := λ t, if t =? tx then rows else hist t.

Lemma nextTxID_ok s m :
  txMgr s = Some m → 0 ≤ txCounter s → txCounter s + 1 < 2 ^ 48 →
  nextTxID s = (set_counters (txCounter s + 1) (Some (EnsureCounterAtLeast (txCounter s + 2) m)) s, Ok (txCounter s + 1)).
Proof.
  intros Hm H0 Hb. unfold nextTxID. rewrite (bind_ok _ _ s s (u64 (txCounter s + 1)) eq_refl). rewrite u64_small by lia.
  unfold mbind, M_bind, modify. rewrite Hm. cbn [fmap option_fmap option_map]. rewrite u64_small by lia.
  by replace (txCounter s + 1 + 1) with (txCounter s + 2) by lia.
Qed.

(** A transaction that deletes [dead] and adds [news] makes the table [rows']. *)
Lemma tableIs_advance s s' vm vm' m dead news hist rows' :
  let tx := txCounter s + 1 in
  tx < 2 ^ 48 → 0 ≤ txCounter s → vmOk (txCounter s) vm → (∀ loc, loc ∈ dead → liveAt vm loc) →
  (∀ t, 1 ≤ t ≤ txCounter s → hist t ≡ₚ rowsOf (pick (seenBy t) vm)) →
  evolves tx vm dead news vm' →
  faults s' = [] → txMgr s' = Some (EnsureCounterAtLeast (txCounter s + 2) m) → t_active m = ∅ → txCounter s' = tx →
  heapIs (heap s') vm' → (∀ dir, posDirectory s' = Some dir → dirOk vm' dir) →
  rows' ≡ₚ news.*2 ++ rowsOf (filter (λ e, e.1 ∉ dead) (pick isLive vm)) → rowCount s' = Z.of_nat (length rows') →
  tableIs s' rows' (remember tx rows' hist).
Proof.
  intros tx Hb H0 Hok Hdead Hhist He Hf Hm Ha Hc Hh Hd Hr Hn.
  assert (txCounter s < tx) as Hlt by (unfold tx; lia).
  pose proof (evolves_ok _ _ _ _ _ _ He Hok Hlt Hdead ltac:(unfold tx; lia)) as Hok'.
  pose proof (evolves_rows _ _ _ _ _ _ He Hok Hlt Hdead) as Hrows.
  exists vm', (EnsureCounterAtLeast (txCounter s + 2) m). rewrite Hc. split_and!; try done.
  - unfold tx. lia.
  - unfold tx. cbn. lia.
  - by rewrite Hr, Hrows.
  - intros t Ht. unfold remember. destruct (Z.eqb_spec t tx) as [->|].
    + by rewrite Hr, (pick_now tx vm' Hok'), Hrows.
    + rewrite (evolves_past _ _ _ _ _ He Hdead t) by lia. apply Hhist. unfold tx in *. lia.
Qed.

Lemma filter_dead_nil vm : filter (λ e : PageSlot * Row, e.1 ∉ ([] : list PageSlot)) (pick isLive vm) = pick isLive vm.
Proof. apply map_filter_id. intros ? ? _. by apply not_elem_of_nil. Qed.

Lemma evolves_grown tx vm news vm' : grown tx vm news vm' → evolves tx vm [] news vm'.
Proof. intros Hg. exists vm. split; [|done]. intros loc. unfold markIf. by destruct (vm !! loc). Qed.

(** *** Insertion *)

Definition pkVals (pk : nat) (rows : list Row) : list Value := omap (λ r : Row, r !! pk) rows.

(** Whether the keys of new rows are none of [keys] and differ from each other. *)
Fixpoint keysFresh (pk : nat) (keys : list Value) (rows : list Row) : bool :=
  match rows with
  | [] => true
  | r :: rows =>
      match r !! pk with
      | None => keysFresh pk keys rows
      | Some v => forallb (λ k, negb (keyEq v k)) keys && keysFresh pk (v :: keys) rows
      end
  end.

Lemma forallb_perm {A} (f : A → bool) l l' : l ≡ₚ l' → forallb f l = forallb f l'.
Proof. induction 1 as [| |x y l|]; [done|cbn; congruence| |congruence]. cbn. by rewrite !andb_assoc, (andb_comm (f x)). Qed.

Lemma keysFresh_perm pk keys keys' rows : keys ≡ₚ keys' → keysFresh pk keys rows = keysFresh pk keys' rows.
Proof.
  revert keys keys'. induction rows as [|r rows IH]; intros keys keys' Hp; [done|]. cbn.
  destruct (r !! pk) as [v|]; [|by apply IH]. rewrite (forallb_perm _ _ _ Hp). f_equal. apply IH. by rewrite Hp.
Qed.

(** Whether the new rows are accepted: without a primary key they are. *)
Definition acceptsKeys (rows news : list Row) : bool :=
  match pkIdx columns with None => true | Some pk => keysFresh pk (pkVals pk rows) news end.

(** The primary key has no index of its own, and its values can be keys of a map. *)
Definition keysUsable s (rows news : list Row) : Prop :=
  match pkIdx columns with
  | None => True
  | Some pk =>
      Forall (λ idx, ∀ c, columns !! pk = Some c → ToLower (IndexColumn idx) ≠ ToLower (col_Name c)) (indexes s) ∧
      Forall (λ v, hashable v = true) (pkVals pk rows) ∧ Forall (λ v, hashable v = true) (pkVals pk news)
  end.

Definition normalized (news : list Row) (rows : list Row) : Prop :=
  Forall2 (λ r r', normalizeFrom normalize 0 columns r = Some r' ∧ rowFits r') news rows.

Lemma checkKey_spec keys r s :
  (∀ pk v, pkIdx columns = Some pk → r !! pk = Some v → hashable v = true) →
  checkKey FormatFloat sprintV columns None keys r s =
  match pkIdx columns ≫= λ pk, r !! pk with
  | None => (s, Ok keys)
  | Some v => if forallb (λ k, negb (keyEq v k)) keys then (s, Ok (v :: keys)) else (s, Err ErrDuplicateKey)
  end.
Proof.
  intros Hh. unfold checkKey. destruct (pkIdx columns) as [pk|]; cbn [mbind option_bind]; [|done].
  destruct (r !! pk) as [v|] eqn:E; [|done]. rewrite (bind_ok _ _ s s (existsb (keyEq v) keys)) by (unfold hasKey; by rewrite (Hh pk v)).
  assert (forallb (λ k, negb (keyEq v k)) keys = negb (existsb (keyEq v) keys)) as ->; [|by destruct (existsb _ _)].
  induction keys as [|k keys IH]; [done|]. cbn. by rewrite IH, negb_orb.
Qed.

Lemma prepareRows_spec tx keys news rows s :
  0 ≤ tx < 2 ^ 48 → normalized news rows → (∀ pk, pkIdx columns = Some pk → Forall (λ v, hashable v = true) (pkVals pk rows)) →
  let fresh := match pkIdx columns with None => true | Some pk => keysFresh pk keys rows end in
  ∃ tuples, prepareRows Marshal FormatFloat sprintV columns normalize tx None keys news s =
    (s, if fresh then Ok tuples else Err ErrDuplicateKey) ∧ (fresh = true → tuplesFor tx rows tuples).
Proof.
  intros Htx Hnorm. revert keys. induction Hnorm as [|r r' news rows [Hr Hfit] _ IH]; intros keys Hk fresh; cbn [prepareRows].
  { exists []. unfold fresh. destruct (pkIdx columns); split; done || constructor. }
  rewrite (bind_ok _ _ s s r') by (unfold normalizeRow; by rewrite Hr).
  destruct (encode_fits _ _ _ tx r' Hfit) as (t & Et & Ht & Hl); [lia|].
  pose proof (checkKey_spec keys r' s) as Ec. unfold mbind, M_bind at 1. rewrite Ec; clear Ec.
  2:{ intros pk v Hpk Hv. specialize (Hk pk Hpk). unfold pkVals in Hk. cbn in Hk. rewrite Hv in Hk. by apply Forall_cons in Hk as [? _]. }
  assert (∀ pk, pkIdx columns = Some pk → Forall (λ v, hashable v = true) (pkVals pk rows)) as Hk'.
  { intros pk Hpk. specialize (Hk pk Hpk). unfold pkVals in Hk |- *. cbn in Hk. destruct (r' !! pk); [by apply Forall_cons in Hk as [_ ?]|done]. }
  assert (∀ keys', fresh = match pkIdx columns with None => true | Some pk => keysFresh pk keys' rows end →
    ∃ tuples, (tuple ← lift (encodePageTuple Marshal tx 0 r');
      tuples ← prepareRows Marshal FormatFloat sprintV columns normalize tx None keys' news; mret (tuple :: tuples)) s =
      (s, if fresh then Ok tuples else Err ErrDuplicateKey) ∧ (fresh = true → tuplesFor tx (r' :: rows) tuples)) as Hgo.
  { intros keys' Hf. destruct (IH keys' Hk') as (tuples & E & Htup). rewrite <- Hf in E, Htup. exists (t :: tuples).
    rewrite (bind_ok _ _ s s t) by (unfold lift; by rewrite Et). unfold mbind, M_bind. rewrite E.
    destruct fresh; [|done]. split; [done|]. intros _. constructor; [|by apply Htup]. split; [|done]. exists tx. split; [done|]. by apply mask_small. }
  unfold fresh in *. destruct (pkIdx columns) as [pk|] eqn:Epk; cbn [mbind option_bind keysFresh] in *; [|by apply Hgo].
  destruct (r' !! pk) as [v|]; [|by apply Hgo]. destruct (forallb _ keys); cbn [andb] in *; [by apply Hgo|]. by exists [].
Qed.

Lemma foldl_cons_perm {B} (out : PageSlot → bytes → list B) l acc :
  foldl (λ a e, out e.1 e.2 ++ a) acc l ≡ₚ acc ++ (l ≫= λ e, out e.1 e.2).
Proof.
  revert acc. induction l as [|e l IH]; intros acc; [by rewrite app_nil_r|]. cbn [foldl]. rewrite IH, bind_cons. solve_Permutation.
Qed.

Lemma omap_bind {A B C} (f : B → option C) (g : A → list B) l : omap f (l ≫= g) = l ≫= λ a, omap f (g a).
Proof. induction l as [|a l IH]; [done|]. by rewrite !bind_cons, omap_app, IH. Qed.

Lemma pkVals_live pk vm :
  (map_to_list vm ≫= λ e, if isLive e.2 then option_list (values e.2 !! pk) else []) ≡ₚ pkVals pk (rowsOf (pick isLive vm)).
Proof.
  unfold pkVals. rewrite <- pick_rows, omap_bind. apply reflexive_eq. apply list_bind_ext; [|done]. intros [loc v]. cbn.
  destruct (isLive v); [|done]. cbn. by destruct (values v !! pk).
Qed.

Lemma existingKeys_spec s vm n pk rows :
  faults s = [] → heapIs (heap s) vm → vmOk n vm → n < 2 ^ 48 → rows ≡ₚ rowsOf (pick isLive vm) → pkIdx columns = Some pk →
  Forall (λ v, hashable v = true) (pkVals pk rows) →
  ∃ keys, existingKeys ParseFloat decodeRaw columns None s = (s, Ok keys) ∧ keys ≡ₚ pkVals pk rows.
Proof.
  intros Hn Hh Hok Hb Hr Hpk Hhash. unfold existingKeys. rewrite Hpk.
  set (out := λ (_ : PageSlot) (t : bytes), match decodePageTuple ParseFloat decodeRaw t with
    | Ok (_, d, r) => if Z.land d TxIDMask =? 0 then option_list (r !! pk) else [] | _ => [] end).
  assert (∀ loc v t, vm !! loc = Some v → tupleIs v t → out loc t = if isLive v then option_list (values v !! pk) else []) as Hout.
  { intros loc v t Hv Ht. unfold out. rewrite (decode_tuple _ _ _ _ _ Ht). unfold isLive.
    destruct (Hok loc v Hv) as [_ Hd]. by rewrite mask_small by lia. }
  pose proof (collect_versions (heap s) vm out (λ _ v, if isLive v then option_list (values v !! pk) else []) Hh Hout) as Hc.
  rewrite pkVals_live in Hc. assert (pkVals pk rows ≡ₚ pkVals pk (rowsOf (pick isLive vm))) as Hpv by (unfold pkVals; by rewrite Hr).
  rewrite (bind_ok _ _ s s (foldl (λ a e, out e.1 e.2 ++ a) [] (pagesFrom 0 (heap s)), None)).
  - eexists. split; [done|]. by rewrite foldl_cons_perm, Hpv, <- Hc.
  - apply (scan_all _ (λ a loc t, out loc t ++ a)); [done|]. intros a loc t Hat. destruct (heapIs_at _ _ _ _ Hh Hat) as (v & Hv & Ht).
    assert (Forall (λ v, hashable v = true) (out loc t)) as Hho.
    { rewrite Hpv, <- Hc in Hhash. rewrite Forall_forall in Hhash |- *. intros w Hw. apply Hhash. apply list_elem_of_bind.
      exists (loc, t). split; [done|]. by apply allTuples_elem. }
    unfold tupleVisitor, out in *. rewrite (decode_tuple _ _ _ _ _ Ht) in *. destruct (Z.land (deleted v) TxIDMask =? 0); [|done].
    destruct (values v !! pk) as [w|]; [|done]. cbn in Hho. apply Forall_cons in Hho as [-> _]. done.
Qed.

Lemma pkIdx_column pk : pkIdx columns = Some pk → is_Some (columns !! pk).
Proof.
  unfold pkIdx. destruct (list_find _ columns) as [[i c]|] eqn:E; [|done]. intros [= <-]. apply list_find_Some in E as (Hc & _). by exists c.
Qed.

Lemma keysUsable_news s rows news : keysUsable s rows news → ∀ pk, pkIdx columns = Some pk → Forall (λ v, hashable v = true) (pkVals pk news).
Proof. unfold keysUsable. intros Hk pk Hpk. rewrite Hpk in Hk. by destruct Hk as (_ & _ & ?). Qed.

Lemma keysOf_spec s vm n rows news :
  faults s = [] → heapIs (heap s) vm → vmOk n vm → n < 2 ^ 48 → rows ≡ₚ rowsOf (pick isLive vm) → keysUsable s rows news →
  ∃ keys, (pkIndex ← match pkIdx columns ≫= λ pk, columns !! pk with
                     | Some c => findIndexForColumn ToLower (col_Name c) | None => mret None end;
           existingKeys ParseFloat decodeRaw columns pkIndex) s = (s, Ok keys) ∧
    (match pkIdx columns with None => true | Some pk => keysFresh pk keys news end) = acceptsKeys rows news ∧
    (match pkIdx columns ≫= λ pk, columns !! pk with
     | Some c => findIndexForColumn ToLower (col_Name c) | None => mret None end) s = (s, Ok None).
Proof.
  intros Hn Hh Hok Hb Hr Hacc. unfold keysUsable in Hacc. unfold acceptsKeys. destruct (pkIdx columns) as [pk|] eqn:Epk; cbn [mbind option_bind].
  - destruct Hacc as (Hno & Hhash & Hfresh). destruct (pkIdx_column pk Epk) as [c Hc].
    assert ((match columns !! pk with Some c => findIndexForColumn ToLower (col_Name c) | None => mret None end) s = (s, Ok None)) as Ef.
    { rewrite Hc. unfold findIndexForColumn, gets. do 2 f_equal. destruct (list_find _ _) as [[i idx]|] eqn:E; [|done].
      apply list_find_Some in E as (Hi & He & _). exfalso. rewrite Forall_lookup in Hno. by apply (Hno i idx Hi c). }
    destruct (existingKeys_spec s vm n pk rows Hn Hh Hok Hb Hr Epk Hhash) as (keys & E & Hp). exists keys.
    split_and!; [by rewrite (bind_ok _ _ _ _ _ Ef)| |done]. by apply keysFresh_perm.
  - exists []. split_and!; [|done|done]. rewrite (bind_ok _ _ s s None) by done. unfold existingKeys. by rewrite Epk.
Qed.

Abbreviation InsertRows := (InsertRows Marshal ParseFloat decodeRaw ToLower FormatFloat sprintV columns normalize).

Lemma grown_fst tx vm news vm' loc : grown tx vm news vm' → loc ∈ news.*1 → vm !! loc = None.
Proof. intros (_ & Hfresh & _). apply Hfresh. Qed.

Lemma dirOk_append tx n vm news vm' dir locs :
  grown tx vm news vm' → vmOk n vm → n < tx → dirOk vm dir → news.*1 ≡ₚ locs → dirOk vm' (dir ++ locs).
Proof.
  intros Hg Hok Hn [Hnd Hin] Hp. pose proof Hg as (Hnd' & Hfresh & _). split.
  - apply NoDup_app. split_and!; [done| |by rewrite <- Hp]. intros loc Hd%Hin Hl. rewrite <- Hp in Hl.
    destruct Hd as (v & Hv & _). by rewrite Hfresh in Hv.
  - intros loc. rewrite elem_of_app, Hin, <- Hp.
    rewrite (evolves_liveAt tx n vm [] news vm' (evolves_grown _ _ _ _ Hg) Hok Hn); [|by intros ? ?%elem_of_nil].
    split; [intros [?|?]; [right; split; [done|apply not_elem_of_nil]|by left]|]. intros [?|[? _]]; [by right|by left].
Qed.

Lemma InsertRows_accepted now news rows' s rows hist :
  tableIs s rows hist → txCounter s + 1 < 2 ^ 48 → normalized news rows' → keysUsable s rows rows' → acceptsKeys rows rows' = true →
  ∃ s', InsertRows now news s = (s', Ok (Z.of_nat (length news))) ∧
    tableIs s' (rows ++ rows') (remember (txCounter s + 1) (rows ++ rows') hist) ∧ txCounter s' = txCounter s + 1 ∧
    indexes s' = insertKeys FormatFloat sprintV news (Z.of_nat (length rows)) <$> indexes s.
Proof.
  intros (vm & m & Hn & Hm & Ha & Hc & Hlt & Hh & Hok & Hd & Hr & Hrc & Hhist) Hb Hnorm Hacc Hnew.
  set (tx := txCounter s + 1) in *. unfold Engine.InsertRows. rewrite (bind_ok _ _ _ _ _ (nextTxID_ok s m Hm ltac:(lia) Hb)).
  set (s1 := set_counters _ _ s). unfold insertRowsInternal.
  destruct (keysOf_spec s1 vm (txCounter s) rows rows' Hn Hh Hok ltac:(lia) Hr Hacc) as (keys & E0 & Hkeys & Ef).
  rewrite (bind_ok _ _ _ _ _ Ef) in E0. rewrite (bind_ok _ _ _ _ _ Ef), (bind_ok _ _ _ _ _ E0).
  destruct (prepareRows_spec tx keys news rows' s1) as (tuples & E1 & Htup); [lia|done|by apply (keysUsable_news s rows)|].
  rewrite Hkeys, Hnew in E1, Htup. specialize (Htup eq_refl).
  rewrite (bind_ok _ _ _ _ _ E1), (bind_ok _ _ _ _ _ (fallible_ok ErrIO s1 Hn)).
  destruct (insertLoop_spec tx rows' tuples s1 vm vm [] Hn Hh (grown_nil tx vm) Htup) as (s2 & locs & vm' & E2 & Hh2 & Hlen & Hg & Hk & Hp).
  rewrite app_nil_r in Hg. rewrite (bind_ok _ _ _ _ _ E2).
  pose proof (keeps_faults _ _ Hk Hn) as Hn2. pose proof (keeps_fields _ _ Hk) as (Hk1 & Hk2 & Hk3 & Hk4 & Hk5 & Hk6 & _ & _).
  cbn [rowCount indexes txCounter txMgr s1 set_counters] in Hk1, Hk2, Hk3, Hk4. fold tx in Hk3.
  assert (length news = length rows') as Hnews by (by eapply Forall2_length). rewrite Hnews.
  set (s3 := set_catalog (rowCount s2 + Z.of_nat (length rows')) (stampTx tx now (TxTimes s2))
    (set_lastTxID tx (set_rowCount (rowCount s2 + Z.of_nat (length rows')) s2))).
  rewrite (bind_ok _ _ s2 (set_rowCount (rowCount s2 + Z.of_nat (length rows')) s2) tt) by done.
  rewrite (bind_ok _ _ _ (set_lastTxID tx (set_rowCount (rowCount s2 + Z.of_nat (length rows')) s2)) tt) by done.
  rewrite (bind_ok _ _ _ s3 tt) by done. rewrite (bind_ok _ _ s3 s3 (rowCount s2)) by (unfold gets; do 2 f_equal; cbn; lia).
  rewrite (bind_ok _ _ _ _ _ (appendWal_ok (WCommit tx) s3 Hn2)). eexists. split; [done|]. split_and!; [|done|].
  - eapply (tableIs_advance s _ vm vm' m [] (zip locs rows')); try done.
    + lia.
    + by intros ? ?%elem_of_nil.
    + by apply evolves_grown.
    + intros dir. cbn. rewrite Hp. cbn [posDirectory s1 set_counters]. destruct (posDirectory s) as [dir0|] eqn:Ed; [|done]. intros [= <-].
      eapply (dirOk_append tx (txCounter s)); [exact Hg|done|lia|by apply Hd|]. rewrite fst_zip by lia. done.
    + rewrite filter_dead_nil, Hr, snd_zip by lia. solve_Permutation.
    + cbn. rewrite Hk1, Hrc, length_app. lia.
  - cbn. rewrite Hk1, Hk2, Hrc. done.
Qed.

(** A duplicate key: nothing is written, and the transaction id is used up. *)
Lemma InsertRows_rejected now news rows' s rows hist :
  tableIs s rows hist → txCounter s + 1 < 2 ^ 48 → normalized news rows' → keysUsable s rows rows' → acceptsKeys rows rows' = false →
  ∃ s', InsertRows now news s = (s', Err ErrDuplicateKey) ∧
    tableIs s' rows (remember (txCounter s + 1) rows hist) ∧ txCounter s' = txCounter s + 1.
Proof.
  intros (vm & m & Hn & Hm & Ha & Hc & Hlt & Hh & Hok & Hd & Hr & Hrc & Hhist) Hb Hnorm Hacc Hnew.
  unfold Engine.InsertRows. rewrite (bind_ok _ _ _ _ _ (nextTxID_ok s m Hm ltac:(lia) Hb)).
  set (s1 := set_counters _ _ s). unfold insertRowsInternal.
  destruct (keysOf_spec s1 vm (txCounter s) rows rows' Hn Hh Hok ltac:(lia) Hr Hacc) as (keys & E0 & Hkeys & Ef).
  rewrite (bind_ok _ _ _ _ _ Ef) in E0. rewrite (bind_ok _ _ _ _ _ Ef), (bind_ok _ _ _ _ _ E0).
  destruct (prepareRows_spec (txCounter s + 1) keys news rows' s1) as (tuples & E1 & _); [lia|done|by apply (keysUsable_news s rows)|].
  rewrite Hkeys, Hnew in E1. exists s1. split_and!; [by rewrite (bind_err _ _ _ _ _ E1)| |done].
  eapply (tableIs_advance s s1 vm vm m [] []); try done; [lia|by intros ? ?%elem_of_nil|by apply evolves_grown, grown_nil|].
  by rewrite filter_dead_nil.
Qed.

(** *** The rows a statement selects *)

(** Places of the directory with their positions, each once. *)
Definition itemsOf (dir : list PageSlot) (items : list (Z * PageSlot)) : Prop :=
  NoDup items.*1 ∧ Forall (λ e, ∃ i, fst e = Z.of_nat i ∧ dir !! i = Some (snd e)) items.

Lemma iterator_all dir : itemsOf dir (iterator dir None) ∧ (iterator dir None).*2 = dir.
Proof.
  cbn [iterator]. split; [split|].
  - rewrite fmap_imap. assert (∀ n : nat, NoDup (imap (λ i (_ : PageSlot), Z.of_nat (n + i)) dir) ∧
      ∀ z, z ∈ imap (λ i (_ : PageSlot), Z.of_nat (n + i)) dir → Z.of_nat n ≤ z) as Hgen; [|by apply (Hgen 0%nat)].
    induction dir as [|loc dir IH]; intros n; [split; [constructor|by intros ? ?%elem_of_nil]|]. cbn [imap].
    rewrite (imap_ext _ (λ i _, Z.of_nat (S n + i))) by (intros; cbn; f_equal; lia). destruct (IH (S n)) as [Hnd Hlo]. split.
    + apply NoDup_cons. split; [|done]. intros Hz%Hlo. lia.
    + intros z [->|Hz%Hlo]%elem_of_cons; lia.
  - apply Forall_forall. intros e He. apply elem_of_lookup_imap_1 in He as (i & loc & -> & Hl). by exists i.
  - rewrite fmap_imap. assert (∀ (n : nat) (l : list PageSlot), imap (λ (_ : nat) loc, loc) l = l) as Hid.
    { intros _. induction l as [|loc l IH]; [done|]. cbn [imap]. f_equal. exact IH. }
    apply (Hid 0%nat).
Qed.

Lemma iterator_some dir ps : NoDup ps → itemsOf dir (iterator dir (Some ps)).
Proof.
  intros Hnd. cbn [iterator]. split.
  - induction Hnd as [|p ps Hp Hnd IH]; [constructor|]. cbn [omap list_omap]. destruct (0 <=? p) eqn:E0; [|done].
    destruct (dir !! Z.to_nat p) as [loc|]; [|done]. cbn. apply NoDup_cons. split; [|done]. intros Hin.
    apply list_elem_of_fmap in Hin as ([p' loc'] & -> & Hin). apply list_elem_of_omap in Hin as (q & Hq & E). cbn in *.
    destruct (0 <=? q); [|done]. destruct (dir !! Z.to_nat q); [|done]. injection E as -> _. done.
  - apply Forall_forall. intros [p loc] Hin. apply list_elem_of_omap in Hin as (q & Hq & E). destruct (Z.leb_spec 0 q); [|done].
    destruct (dir !! Z.to_nat q) as [l|] eqn:El; [|done]. injection E as <- <-. exists (Z.to_nat q). cbn. split; [lia|done].
Qed.

Lemma itemsOf_nodup dir items : NoDup dir → itemsOf dir items → NoDup items.*2.
Proof.
  intros Hd [Hnd Hall]. induction items as [|[idx loc] items IH]; [constructor|]. rewrite fmap_cons in Hnd. rewrite fmap_cons.
  apply NoDup_cons in Hnd as [Hidx Hnd]. apply Forall_cons in Hall as [(i & Hi & Hl) Hall]. apply NoDup_cons.
  split; [|by apply IH]. intros Hin. apply list_elem_of_fmap in Hin as ([idx' loc'] & E & Hin). cbn in *. subst loc'.
  rewrite Forall_forall in Hall. destruct (Hall _ Hin) as (j & Hj & Hl'). cbn in *. assert (i = j) as <- by exact (NoDup_lookup dir i j loc Hd Hl Hl').
  apply Hidx. subst idx. rewrite <- Hj. by apply (list_elem_of_fmap_2 fst) in Hin.
Qed.

Section Located.
Context vm (dir : list PageSlot) (P : Row → bool) (items : list (Z * PageSlot)).
Context (Hdir : dirOk vm dir) (Hitems : itemsOf dir items).
(** Every row to be selected is among the items. *)
Context (Hcover : ∀ loc v, vm !! loc = Some v → deleted v = 0 → P (values v) = true → loc ∈ items.*2).

Abbreviation L := (locatedOf vm P items).

Lemma items_live : Forall (λ e, liveAt vm (snd e)) items.
Proof.
  destruct Hitems as [_ Hall]. eapply Forall_impl; [exact Hall|]. intros e (i & _ & Hi). apply Hdir. by eapply list_elem_of_lookup_2.
Qed.

Lemma located_elem l :
  l ∈ L ↔ (l_idx l, l_loc l) ∈ items ∧ ∃ v, vm !! l_loc l = Some v ∧ values v = l_row l ∧ P (l_row l) = true.
Proof.
  unfold locatedOf. rewrite list_elem_of_omap. split.
  - intros ([idx loc] & Hin & E). destruct (vm !! loc) as [v|] eqn:Ev; [|done]. destruct (P (values v)) eqn:EP; [|done].
    injection E as <-. cbn. split; [done|]. by exists v.
  - intros (Hin & v & Hv & Hr & HP). exists (l_idx l, l_loc l). split; [done|]. rewrite Hv, Hr, HP. by destruct l.
Qed.

Lemma located_pairs : (λ l, (l_idx l, l_loc l)) <$> L `sublist_of` items.
Proof.
  unfold locatedOf. clear Hcover Hitems. induction items as [|[idx loc] its IH]; [done|]. cbn [omap list_omap].
  destruct (vm !! loc) as [v|]; [destruct (P (values v))|]; cbn; by constructor.
Qed.

Lemma located_nodup : NoDup (l_loc <$> L) ∧ NoDup (l_idx <$> L).
Proof.
  pose proof located_pairs as Hsub. split.
  - eapply (sublist_NoDup _ items.*2); [by apply (itemsOf_nodup dir); [apply Hdir|]|].
    apply (fmap_sublist snd) in Hsub. by rewrite <- list_fmap_compose in Hsub.
  - eapply (sublist_NoDup _ items.*1); [apply Hitems|]. apply (fmap_sublist fst) in Hsub. by rewrite <- list_fmap_compose in Hsub.
Qed.

Lemma located_live loc : loc ∈ l_loc <$> L ↔ ∃ r, pick isLive vm !! loc = Some r ∧ P r = true.
Proof.
  rewrite list_elem_of_fmap. split.
  - intros (l & -> & (Hin & v & Hv & Hr & HP)%located_elem). exists (l_row l). split; [|done]. apply pick_lookup. exists v.
    split_and!; [done| |done]. unfold isLive. apply Z.eqb_eq. pose proof items_live as Hlive. rewrite Forall_forall in Hlive.
    destruct (Hlive _ Hin) as (w & Hw & Hd). cbn in Hw. congruence.
  - intros (r & (v & Hv & Hd%Z.eqb_eq & <-)%pick_lookup & HP). specialize (Hcover loc v Hv Hd HP).
    apply list_elem_of_fmap in Hcover as ([idx loc'] & -> & Hin). exists (mkLoc loc' idx (values v)). split; [done|].
    apply located_elem. split; [done|]. by exists v.
Qed.

Lemma rowsOf_filter (Q : Row → Prop) `{!∀ r, Decision (Q r)} m : rowsOf (filter (λ e, Q e.2) m) ≡ₚ filter Q (rowsOf m).
Proof.
  unfold rowsOf. induction m as [|loc r m Hn IH] using map_ind; [by rewrite map_filter_empty, map_to_list_empty|].
  rewrite map_to_list_insert, fmap_cons, filter_cons by done. cbn [snd]. case_decide as HQ.
  - rewrite map_filter_insert_True by done. rewrite map_to_list_insert by (by apply map_lookup_filter_None_2; left).
    by rewrite fmap_cons, IH.
  - rewrite map_filter_insert_not' by (naive_solver). done.
Qed.

Lemma kept_rows : rowsOf (filter (λ e, e.1 ∉ l_loc <$> L) (pick isLive vm)) ≡ₚ filter (λ r, P r = false) (rowsOf (pick isLive vm)).
Proof.
  rewrite <- rowsOf_filter. apply reflexive_eq. f_equal. apply map_filter_ext. intros loc r Hr. cbn. rewrite located_live.
  rewrite <- not_true_iff_false. split; [|naive_solver]. intros Hno HP. apply Hno. by exists r.
Qed.

Lemma selected_rows : l_row <$> L ≡ₚ filter (λ r, P r = true) (rowsOf (pick isLive vm)).
Proof.
  rewrite <- rowsOf_filter. unfold rowsOf. set (m := filter _ _).
  assert ((λ l, (l_loc l, l_row l)) <$> L ≡ₚ map_to_list m) as <-; [|by rewrite <- list_fmap_compose].
  apply NoDup_Permutation.
  - apply (NoDup_fmap_1 fst). rewrite <- list_fmap_compose. apply located_nodup.
  - apply NoDup_map_to_list.
  - intros [loc r]. rewrite elem_of_map_to_list, list_elem_of_fmap. unfold m. rewrite map_lookup_filter_Some. cbn [snd]. split.
    + intros (l & [= -> ->] & Hl). assert (l_loc l ∈ l_loc <$> L) as Hin by (by apply list_elem_of_fmap_2).
      apply located_live in Hin as (r & Hr & HP). apply located_elem in Hl as (_ & v & Hv & <- & HP').
      pose proof Hr as (w & Hw & _ & <-)%pick_lookup. assert (w = v) as -> by congruence. done.
    + intros [Hr HP]. assert (loc ∈ l_loc <$> L) as Hin by (apply located_live; by exists r).
      apply list_elem_of_fmap in Hin as (l & -> & Hl). exists l. split; [|done]. f_equal.
      pose proof Hl as (_ & v & Hv & <- & _)%located_elem. apply pick_lookup in Hr as (w & Hw & _ & <-). congruence.
Qed.
End Located.

(** *** The directory after a statement *)

(** The directory without the selected places. *)
Lemma compactDirectory_spec (dir : list PageSlot) (L : list locatedTuple) :
  NoDup dir → Forall (λ l, ∃ i, l_idx l = Z.of_nat i ∧ dir !! i = Some (l_loc l)) L →
  ∃ dir', compactDirectory (l_idx <$> L) dir = (match dir' with [] => None | _ => Some dir' end) ∧ NoDup dir' ∧
    ∀ loc, loc ∈ dir' ↔ loc ∈ dir ∧ loc ∉ l_loc <$> L.
Proof.
  intros Hnd Hall. unfold compactDirectory. set (dir' := snd <$> _). exists dir'. split; [by destruct dir'|].
  assert (∀ i loc, dir !! i = Some loc → Z.of_nat i ∈ l_idx <$> L ↔ loc ∈ l_loc <$> L) as Hpos.
  { intros i loc Hi. rewrite Forall_forall in Hall. rewrite !list_elem_of_fmap. split.
    - intros (l & E & Hl). destruct (Hall l Hl) as (j & Hj & Hd). exists l. split; [|done]. assert (i = j) as <- by lia. congruence.
    - intros (l & -> & Hl). destruct (Hall l Hl) as (j & Hj & Hd). exists l. split; [|done].
      by assert (i = j) as -> by exact (NoDup_lookup dir i j (l_loc l) Hnd Hi Hd). }
  split.
  - eapply (sublist_NoDup _ dir Hnd). unfold dir'. set (ps := imap _ dir).
    replace dir with (ps.*2) at 1 by apply (proj2 (iterator_all dir)). apply fmap_sublist, sublist_filter.
  - intros loc. unfold dir'. rewrite list_elem_of_fmap. setoid_rewrite list_elem_of_filter. split.
    + intros ([z l] & -> & Hz & Hin). apply elem_of_lookup_imap_1 in Hin as (i & l' & [= -> ->] & Hi). cbn in *.
      split; [by eapply list_elem_of_lookup_2|]. by rewrite <- (Hpos i l' Hi).
    + intros [[i Hi]%list_elem_of_lookup Hnin]. exists (Z.of_nat i, loc). cbn. split_and!; [done|by rewrite (Hpos i loc Hi)|].
      apply (elem_of_lookup_imap_2 (λ i loc, (Z.of_nat i, loc))). done.
Qed.

Definition moved (dir : list PageSlot) (positions : list Z) (newSlots : list PageSlot) : list PageSlot :=
  foldl (λ dir '(idx, loc), if 0 <=? idx then <[Z.to_nat idx := loc]> dir else dir) dir (zip positions newSlots).

(** The selected places are exchanged for the new ones. *)
Lemma moved_perm dir (L : list locatedTuple) newSlots :
  NoDup (l_idx <$> L) → Forall (λ l, ∃ i, l_idx l = Z.of_nat i ∧ dir !! i = Some (l_loc l)) L → length newSlots = length L →
  (∀ loc, loc ∈ newSlots → loc ∉ l_loc <$> L) →
  ∃ rest, dir ≡ₚ (l_loc <$> L) ++ rest ∧ moved dir (l_idx <$> L) newSlots ≡ₚ newSlots ++ rest.
Proof.
  revert dir newSlots. induction L as [|l L IH]; intros dir newSlots Hnd Hall Hlen Hnew.
  { exists dir. by destruct newSlots. }
  destruct newSlots as [|new newSlots]; [done|]. rewrite fmap_cons in Hnd. apply NoDup_cons in Hnd as [Hidx Hnd].
  apply Forall_cons in Hall as [(i & Hi & Hd) Hall]. unfold moved. rewrite !fmap_cons. cbn [zip zip_with foldl].
  rewrite Hi, (proj2 (Z.leb_le 0 (Z.of_nat i))), Nat2Z.id by lia.
  destruct (IH (<[i := new]> dir) newSlots Hnd) as (rest & Hp1 & Hp2); [|cbn in Hlen; lia| |].
  { rewrite Forall_forall in Hall |- *. intros l' Hl'. destruct (Hall l' Hl') as (j & Hj & Hd'). exists j. split; [done|].
    rewrite list_lookup_insert_ne; [done|]. intros ->. apply Hidx. rewrite Hi, <- Hj. by apply list_elem_of_fmap_2. }
  { intros loc Hloc. specialize (Hnew loc ltac:(by right)). rewrite fmap_cons in Hnew. by apply not_elem_of_cons in Hnew as [_ ?]. }
  fold (moved (<[i := new]> dir) (l_idx <$> L) newSlots). pose proof (lookup_lt_Some _ _ _ Hd) as Hlt.
  rewrite insert_take_drop, <- Permutation_middle in Hp1 by done.
  assert (new ∈ rest) as [rest' Hrest]%elem_of_Permutation.
  { assert (new ∈ (l_loc <$> L) ++ rest) as [Hin|?]%elem_of_app; [rewrite <- Hp1; by left| |done].
    specialize (Hnew new ltac:(by left)). rewrite fmap_cons in Hnew. by apply not_elem_of_cons in Hnew as [_ ?]. }
  exists rest'. rewrite Hrest in Hp1, Hp2. split; [|rewrite Hp2; solve_Permutation].
  rewrite <- Permutation_middle in Hp1. apply Permutation_cons_inv in Hp1.
  rewrite <- (take_drop_middle dir i (l_loc l) Hd) at 1. rewrite <- Permutation_middle, Hp1. done.
Qed.

Lemma moved_dirOk tx n vm dir (L : list locatedTuple) newSlots rows vm' :
  dirOk vm dir → vmOk n vm → n < tx → evolves tx vm (l_loc <$> L) (zip newSlots rows) vm' → (∀ loc, loc ∈ l_loc <$> L → liveAt vm loc) →
  NoDup (l_idx <$> L) → NoDup (l_loc <$> L) → Forall (λ l, ∃ i, l_idx l = Z.of_nat i ∧ dir !! i = Some (l_loc l)) L →
  length newSlots = length L → length rows = length L →
  dirOk vm' (moved dir (l_idx <$> L) newSlots).
Proof.
  intros [Hnd Hin] Hok Hn He Hlive Hidx Hloc Hall Hl1 Hl2. pose proof He as (vm1 & Hm & Hnd' & Hfresh & _).
  rewrite fst_zip in Hnd', Hfresh by lia.
  assert (∀ loc, loc ∈ newSlots → vm !! loc = None) as Hnone.
  { intros loc Hl. apply Hfresh in Hl. rewrite Hm in Hl. by destruct (vm !! loc). }
  destruct (moved_perm dir L newSlots Hidx Hall Hl1) as (rest & Hp1 & Hp2).
  { intros loc Hl Hl'. destruct (Hlive loc Hl') as (v & Hv & _). by rewrite Hnone in Hv. }
  rewrite Hp1 in Hnd. apply NoDup_app in Hnd as (_ & Hdis & Hndr). split.
  - rewrite Hp2. apply NoDup_app. split_and!; [done| |done]. intros loc Hl Hr. assert (loc ∈ dir) as Hd by (rewrite Hp1; set_solver).
    apply Hin in Hd as (v & Hv & _). by rewrite Hnone in Hv.
  - intros loc. rewrite Hp2, elem_of_app, (evolves_liveAt tx n vm _ _ vm' He Hok Hn Hlive), fst_zip, <- Hin, Hp1 by lia. set_solver.
Qed.

(** *** Deleting and updating *)

(** Positions, if they are given, are of all rows that match; an index gives such. *)
Definition positionsOk s (P : Row → bool) (positions : option (list Z)) : Prop :=
  match positions with
  | None => True
  | Some ps =>
      NoDup ps ∧ ∃ dir, posDirectory s = Some dir ∧
        ∀ i loc t v, dir !! i = Some loc → tupleAt (heap s) loc = Some t → tupleIs v t → P (values v) = true → Z.of_nat i ∈ ps
  end.

Lemma iterator_covers s vm dir P positions :
  heapIs (heap s) vm → dirOk vm dir → (∀ dir', posDirectory s = Some dir' → dir' = dir) → positionsOk s P positions →
  itemsOf dir (iterator dir positions) ∧
  ∀ loc v, vm !! loc = Some v → deleted v = 0 → P (values v) = true → loc ∈ (iterator dir positions).*2.
Proof.
  intros Hh [Hnd Hin] Hd Hpos. destruct positions as [ps|].
  - destruct Hpos as (Hnp & dir' & Hdir' & Hps). apply Hd in Hdir' as ->. split; [by apply iterator_some|].
    intros loc v Hv Hz HP. assert (loc ∈ dir) as [i Hi]%list_elem_of_lookup by (apply Hin; by exists v).
    destruct (heapIs_get _ _ _ _ Hh Hv) as (pg & t & Hpg & Ht & Htv). apply list_elem_of_fmap. exists (Z.of_nat i, loc). split; [done|].
    cbn [iterator]. apply list_elem_of_omap. exists (Z.of_nat i).
    split; [eapply Hps; [exact Hi| |exact Htv|done]; unfold tupleAt; by rewrite Hpg|].
    rewrite (proj2 (Z.leb_le 0 (Z.of_nat i))), Nat2Z.id, Hi by lia. done.
  - destruct (iterator_all dir) as [Hit Hsnd]. split; [done|]. intros loc v Hv Hz _. rewrite Hsnd. apply Hin. by exists v.
Qed.

Lemma filter_split_perm (P : Row → bool) (l : list Row) : filter (λ r, P r = false) l ++ filter (λ r, P r = true) l ≡ₚ l.
Proof.
  induction l as [|r l IH]; [done|]. rewrite !filter_cons. destruct (P r) eqn:E; cbn [decide decide_rel bool_eq_dec].
  - rewrite decide_False, decide_True by done. rewrite <- Permutation_middle. by rewrite IH.
  - rewrite decide_True, decide_False by done. cbn. by rewrite IH.
Qed.

(** What the first part of a statement finds. *)
Lemma locating s vm m rows (matchFn : bytes → outcome engine_error bool) P positions :
  let tx := txCounter s + 1 in
  let s1 := set_counters tx (Some (EnsureCounterAtLeast (txCounter s + 2) m)) s in
  tx < 2 ^ 48 → faults s = [] → txMgr s = Some m → t_active m = ∅ → 0 ≤ txCounter s → txCounter s < t_counter m →
  heapIs (heap s) vm → vmOk (txCounter s) vm → (∀ dir, posDirectory s = Some dir → dirOk vm dir) → matches matchFn P → positionsOk s P positions →
  rows ≡ₚ rowsOf (pick isLive vm) →
  ∃ dir L, let s2 := set_posDirectory (Some dir) s1 in
    ensurePosDirectory s1 = (s2, Ok dir) ∧ dirOk vm dir ∧ currentTx s2 = (s2, Ok tx) ∧
    locate ParseFloat decodeRaw matchFn tx (iterator dir positions) s2 = (s2, Ok L) ∧
    (∀ loc, loc ∈ l_loc <$> L → liveAt vm loc) ∧ NoDup (l_loc <$> L) ∧ NoDup (l_idx <$> L) ∧
    Forall (λ l, ∃ i, l_idx l = Z.of_nat i ∧ dir !! i = Some (l_loc l)) L ∧
    Forall (λ l, ∃ v, vm !! l_loc l = Some v ∧ values v = l_row l ∧ P (l_row l) = true) L ∧
    l_row <$> L ≡ₚ filter (λ r, P r = true) rows ∧
    rowsOf (filter (λ e, e.1 ∉ l_loc <$> L) (pick isLive vm)) ≡ₚ filter (λ r, P r = false) rows.
Proof.
  intros tx s1 Hb Hn Hm Ha H0 Hlt Hh Hok Hd Hmatch Hpos Hr.
  destruct (ensurePosDirectory_spec s1 vm Hn Hh Hd) as (dir & E1 & Hdir & Hsame).
  destruct (iterator_covers s vm dir P positions Hh Hdir Hsame Hpos) as [Hitems Hcover].
  exists dir, (locatedOf vm P (iterator dir positions)). intros s2. set (L := locatedOf _ _ _).
  pose proof (items_live vm dir _ Hdir Hitems) as Hlive.
  assert (∀ loc, loc ∈ l_loc <$> L → liveAt vm loc) as HL.
  { intros loc (r & (v & Hv & Hz%Z.eqb_eq & _)%pick_lookup & _)%(located_live vm dir P _ Hdir Hitems Hcover). by exists v. }
  split_and!; [done|done|done| |done|apply (located_nodup vm dir P _ Hdir Hitems)..| | | |].
  - eapply (locate_spec matchFn P s2 vm (EnsureCounterAtLeast (txCounter s + 2) m) (txCounter s)); try done; unfold tx; cbn; try lia.
    unfold noSnapshot, GetSnapshot. cbn. by rewrite Ha, lookup_empty.
  - apply Forall_forall. intros l (Hin & _)%located_elem. destruct Hitems as [_ Hall]. rewrite Forall_forall in Hall. by apply Hall in Hin.
  - apply Forall_forall. intros l (_ & Hv)%located_elem. done.
  - unfold L. by rewrite (selected_rows vm dir P _ Hdir Hitems Hcover), Hr.
  - unfold L. by rewrite (kept_rows vm dir P _ Hdir Hitems Hcover), Hr.
Qed.

Abbreviation DeleteRowsVM := (DeleteRowsVM ParseFloat decodeRaw).

Lemma DeleteRowsVM_spec now positions predicate preDelete P s rows hist :
  tableIs s rows hist → txCounter s + 1 < 2 ^ 48 → matches predicate P → positionsOk s P positions → (∀ ps rs, preDelete ps rs = Ok tt) →
  let rows' := filter (λ r, P r = false) rows in
  ∃ s', DeleteRowsVM now positions predicate preDelete s = (s', Ok (Z.of_nat (length (filter (λ r, P r = true) rows)))) ∧
    tableIs s' rows' (remember (txCounter s + 1) rows' hist) ∧ txCounter s' = txCounter s + 1.
Proof.
  intros (vm & m & Hn & Hm & Ha & Hc & Hlt & Hh & Hok & Hd & Hr & Hrc & Hhist) Hb Hmatch Hpos Hpre rows'.
  destruct (locating s vm m rows predicate P positions Hb Hn Hm Ha ltac:(lia) Hlt Hh Hok Hd Hmatch Hpos Hr)
    as (dir & L & E1 & Hdir & Ec & EL & HL & Hndl & Hndi & Hidx & Hvals & Hsel & Hkept).
  set (tx := txCounter s + 1) in *. set (s1 := set_counters _ _ s) in *. set (s2 := set_posDirectory _ s1) in *.
  unfold Engine.DeleteRowsVM. rewrite (bind_ok _ _ _ _ _ (nextTxID_ok s m Hm ltac:(lia) Hb)). fold tx s1.
  rewrite (bind_ok _ _ _ _ _ E1), (bind_ok _ _ _ _ _ Ec), (bind_ok _ _ _ _ _ EL).
  assert (length (filter (λ r, P r = true) rows) = length L) as HnL by (rewrite <- (Permutation_length Hsel); apply length_fmap). rewrite HnL.
  destruct L as [|l0 L0] eqn:EqL.
  { exists s2. split_and!; [done| |done].
    eapply (tableIs_advance s s2 vm vm m [] []); try done; [lia|by apply evolves_grown, grown_nil|by intros ? [= <-]|].
    cbn. rewrite Hrc. f_equal. rewrite <- (Permutation_length (filter_split_perm P rows)), length_app, HnL.
    unfold rows'. cbn. lia. }
  rewrite <- EqL in *. clear EqL. destruct (logDeletes_spec tx L s2 Hn) as (s3 & E3 & Hf3 & Hh3). rewrite (bind_ok _ _ _ _ _ E3).
  rewrite (bind_ok _ _ s3 s3 tt) by (unfold lift; by rewrite Hpre).
  assert (heapIs (heap s3) vm) as Hh3' by (rewrite Hh3; exact Hh).
  destruct (markDeleted_spec tx L s3 vm (frame_faults _ _ Hf3 Hn) Hh3' ltac:(lia)) as (s4 & vm' & E4 & Hf4 & Hh4 & Hmark).
  { eapply Forall_impl; [exact Hvals|]. intros l (v & Hv & _). by exists v. }
  rewrite (bind_ok _ _ _ _ _ E4). pose proof (frame_trans _ _ _ Hf3 Hf4) as Hf.
  pose proof (frame_fields _ _ Hf) as (Hp4 & Hrc4 & Hi4 & Hc4 & Hm4 & _ & _ & Hfa4 & _).
  cbn [posDirectory s2 s1 set_posDirectory set_counters rowCount txCounter txMgr] in Hp4, Hrc4, Hc4, Hm4.
  destruct (compactDirectory_spec dir L (proj1 Hdir) Hidx) as (dir' & Edir & Hnd' & Hin').
  set (s5 := set_rowCount (rowCount s4 - Z.of_nat (length (l_idx <$> L))) (set_posDirectory (compactDirectory (l_idx <$> L) dir) s4)).
  rewrite (bind_ok _ _ s4 s5 tt) by (unfold modify; by rewrite Hp4).
  assert (evolves tx vm (l_loc <$> L) [] vm') as He by (exists vm'; split; [done|apply grown_nil]).
  pose proof (frame_faults _ _ Hf Hn) as Hn4.
  do 5 (erewrite bind_ok by (first [apply appendWal_ok; exact Hn4 | reflexivity]); cbv beta).
  eexists. split; [by unfold mret, M_ret|]. split; [|done].
  eapply (tableIs_advance s _ vm vm' m (l_loc <$> L) []); try done.
  - lia.
  - intros d. cbn. rewrite Edir. destruct dir' as [|x dir']; [done|]. intros [= <-]. split; [done|]. intros loc.
    rewrite Hin', (evolves_liveAt tx (txCounter s) vm _ _ vm' He Hok ltac:(lia) HL), (proj2 Hdir). set_solver.
  - cbn. rewrite Hrc4, Hrc, length_fmap. rewrite <- (Permutation_length (filter_split_perm P rows)), length_app, HnL.
    unfold rows'. lia.
Qed.

Abbreviation UpdateRowsVM := (UpdateRowsVM Marshal ParseFloat decodeRaw ToLower FormatFloat sprintV deepEqualOther columns).

Definition updated (P : Row → bool) (u : Row → Row) (r : Row) : Row := if P r then u r else r.

Lemma updated_perm P u (rows : list Row) :
  updated P u <$> rows ≡ₚ (u <$> filter (λ r, P r = true) rows) ++ filter (λ r, P r = false) rows.
Proof.
  induction rows as [|r rows IH]; [done|]. rewrite fmap_cons, !filter_cons, IH. unfold updated at 1. destruct (P r) eqn:E.
  - rewrite decide_True, decide_False by done. done.
  - rewrite decide_False, decide_True by done. apply Permutation_middle.
Qed.

Lemma withVersions_rows (L : list locatedTuple) (vers : list (Row * bytes)) :
  length vers = length L → snd ∘ fst <$> withVersions L vers = vers.*1 ∧ length (withVersions L vers) = length L.
Proof.
  revert vers. induction L as [|l L IH]; intros [|v vers] Hl; [done..|]. destruct (IH vers) as [H1 H2]; [cbn in Hl; lia|].
  unfold withVersions in *. cbn [zip_with]. rewrite !fmap_cons, H1. cbn. split; [done|lia].
Qed.

Lemma withVersions_ok tx vm (L : list locatedTuple) vers :
  Forall (λ l, is_Some (vm !! l_loc l)) L → Forall (λ v, tupleIs (mkVer tx 0 (fst v)) (snd v) ∧ blen (snd v) ≤ 8160) vers →
  itemsOk tx vm (withVersions L vers).
Proof.
  intros HL. revert vers. induction HL as [|l L Hl _ IH]; intros vers Hv; [constructor|]. destruct Hv as [|v vers [H1 H2] Hv]; [constructor|].
  unfold withVersions. cbn [zip_with]. constructor; [done|]. by apply IH.
Qed.

Lemma UpdateRowsVM_spec now positions matchFn updateFn validateFn P u s rows hist :
  tableIs s rows hist → txCounter s + 1 < 2 ^ 48 → matches matchFn P → positionsOk s P positions →
  (∀ ps rs, validateFn ps rs = Ok tt) → Forall (λ r, P r = true → updateFn r = Ok (u r) ∧ rowFits (u r)) rows →
  let rows' := updated P u <$> rows in
  ∃ s', UpdateRowsVM now positions matchFn updateFn validateFn s = (s', Ok (Z.of_nat (length (filter (λ r, P r = true) rows)))) ∧
    tableIs s' rows' (remember (txCounter s + 1) rows' hist) ∧ txCounter s' = txCounter s + 1.
Proof.
  intros (vm & m & Hn & Hm & Ha & Hc & Hlt & Hh & Hok & Hd & Hr & Hrc & Hhist) Hb Hmatch Hpos Hval Hupd rows'.
  destruct (locating s vm m rows matchFn P positions Hb Hn Hm Ha ltac:(lia) Hlt Hh Hok Hd Hmatch Hpos Hr)
    as (dir & L & E1 & Hdir & Ec & EL & HL & Hndl & Hndi & Hidx & Hvals & Hsel & Hkept).
  set (tx := txCounter s + 1) in *. set (s1 := set_counters _ _ s) in *. set (s2 := set_posDirectory _ s1) in *.
  unfold Engine.UpdateRowsVM. rewrite (bind_ok _ _ _ _ _ (nextTxID_ok s m Hm ltac:(lia) Hb)). fold tx s1.
  rewrite (bind_ok _ _ _ _ _ E1), (bind_ok _ _ _ _ _ Ec), (bind_ok _ _ _ _ _ EL).
  assert (length (filter (λ r, P r = true) rows) = length L) as HnL by (rewrite <- (Permutation_length Hsel); apply length_fmap). rewrite HnL.
  assert (rows' ≡ₚ (u ∘ l_row <$> L) ++ filter (λ r, P r = false) rows) as Hrows'.
  { unfold rows'. rewrite updated_perm, list_fmap_compose. by rewrite Hsel. }
  destruct L as [|l0 L0] eqn:EqL.
  { exists s2. split_and!; [done| |done].
    eapply (tableIs_advance s s2 vm vm m [] []); try done; [lia|by apply evolves_grown, grown_nil|by intros ? [= <-]| |].
    - rewrite Hrows', <- Hkept. done.
    - cbn. unfold rows'. by rewrite Hrc, length_fmap. }
  rewrite <- EqL in *. clear EqL. destruct (logDeletes_spec tx L s2 Hn) as (s3 & E3 & Hf3 & Hh3). rewrite (bind_ok _ _ _ _ _ E3).
  assert (Forall (λ l, is_Some (vm !! l_loc l)) L) as Hsome by (eapply Forall_impl; [exact Hvals|]; intros l (v & Hv & _); by exists v).
  destruct (newVersionsOf_spec updateFn u tx L s3 ltac:(lia)) as (vers & Ev & Hvr & Hvt).
  { apply Forall_forall. intros l Hl. destruct (proj1 (Forall_forall _ _) Hvals l Hl) as (v & _ & _ & HP).
    apply (proj1 (Forall_forall _ _) Hupd); [|done].
    assert (l_row l ∈ filter (λ r, P r = true) rows) as Hin by (rewrite <- Hsel; by apply list_elem_of_fmap_2).
    by apply list_elem_of_filter in Hin as [_ ?]. }
  rewrite (bind_ok _ _ _ _ _ Ev). assert (heapIs (heap s3) vm) as Hh3' by (rewrite Hh3; exact Hh).
  destruct (markDeleted_spec tx L s3 vm (frame_faults _ _ Hf3 Hn) Hh3' ltac:(lia) Hsome) as (s4 & vm1 & E4 & Hf4 & Hh4 & Hmark).
  rewrite (bind_ok _ _ _ _ _ E4). pose proof (frame_trans _ _ _ Hf3 Hf4) as Hf. pose proof (frame_faults _ _ Hf Hn) as Hn4.
  rewrite (bind_ok _ _ s4 s4 tt) by (unfold orRevert; by rewrite Hval).
  assert (length vers = length L) as Hlv by (by rewrite <- (length_fmap fst vers), Hvr, length_fmap).
  destruct (withVersions_rows L vers Hlv) as [Hwr Hwl].
  destruct (writeVersions_spec tx (withVersions L vers) s4 vm1 vm1 [] Hn4 Hh4 (grown_nil tx vm1)) as
    (s5 & newSlots & hots & vm' & E5 & Hh5 & Hf5 & Hln & _ & _ & Hg); [lia| |].
  { apply withVersions_ok; [|done]. eapply Forall_impl; [exact Hsome|]. intros l [v Hv]. rewrite Hmark, Hv. by eexists. }
  rewrite app_nil_r, Hwr, Hvr in Hg. rewrite (bind_ok _ _ _ _ _ E5). pose proof (frame_trans _ _ _ Hf Hf5) as Hf'.
  pose proof (frame_fields _ _ Hf') as (Hp5 & Hrc5 & Hi5 & Hc5 & Hm5 & _ & _ & Hfa5 & _). pose proof (frame_faults _ _ Hf' Hn) as Hn5.
  cbn [posDirectory s2 s1 set_posDirectory set_counters rowCount txCounter txMgr] in Hp5, Hrc5, Hc5, Hm5.
  do 7 (erewrite bind_ok by (first [apply appendWal_ok; exact Hn5 | reflexivity]); cbv beta).
  eexists. split; [by unfold mret, M_ret|]. split; [|done].
  assert (evolves tx vm (l_loc <$> L) (zip newSlots (u ∘ l_row <$> L)) vm') as He by (by exists vm1).
  eapply (tableIs_advance s _ vm vm' m (l_loc <$> L) (zip newSlots (u ∘ l_row <$> L))); try done.
  - lia.
  - intros d. cbn. rewrite Hp5. intros [= <-]. fold (moved dir (l_idx <$> L) newSlots).
    eapply (moved_dirOk tx (txCounter s) vm); try done; [lia|lia|by rewrite length_fmap].
  - rewrite snd_zip by (rewrite length_fmap; lia). by rewrite Hrows', Hkept.
  - cbn. unfold rows'. by rewrite Hrc5, Hrc, length_fmap.
Qed.

(** *** Histories *)

(** A statement, with what its functions on tuples mean for rows. *)
Inductive statement : Type :=
  | SInsert (now : Z) (news : list Row)
  | SUpdate (now : Z) (positions : option (list Z)) (matchFn : bytes → outcome engine_error bool) (P : Row → bool)
      (updateFn : Row → outcome engine_error Row) (u : Row → Row) (validateFn : list Z → list Row → outcome engine_error unit)
  | SDelete (now : Z) (positions : option (list Z)) (predicate : bytes → outcome engine_error bool) (P : Row → bool)
      (preDelete : list Z → list Row → outcome engine_error unit).

Definition perform (o : statement) : M (engine I) engine_error Z :=
  match o with
  | SInsert now news => InsertRows now news
  | SUpdate now positions matchFn _ updateFn _ validateFn => UpdateRowsVM now positions matchFn updateFn validateFn
  | SDelete now positions predicate _ preDelete => DeleteRowsVM now positions predicate preDelete
  end.

(** The table a statement leaves, and its answer: a number of rows, or the error of a duplicate key. *)
Definition effect (o : statement) (rows : list Row) : list Row :=
  match o with
  | SInsert _ news => let rows' := omap (normalizeFrom normalize 0 columns) news in if acceptsKeys rows rows' then rows ++ rows' else rows
  | SUpdate _ _ _ P _ u _ => updated P u <$> rows
  | SDelete _ _ _ P _ => filter (λ r, P r = false) rows
  end.

Definition answer (o : statement) (rows : list Row) : outcome engine_error Z :=
  match o with
  | SInsert _ news =>
      if acceptsKeys rows (omap (normalizeFrom normalize 0 columns) news) then Ok (Z.of_nat (length news)) else Err ErrDuplicateKey
  | SUpdate _ _ _ P _ _ _ | SDelete _ _ _ P _ => Ok (Z.of_nat (length (filter (λ r, P r = true) rows)))
  end.

(** A statement whose rows have the types of the table and fit on a page, and whose checks pass. *)
Definition allowed (o : statement) s (rows : list Row) : Prop :=
  match o with
  | SInsert _ news => ∃ rows', normalized news rows' ∧ keysUsable s rows rows'
  | SUpdate _ positions matchFn P updateFn u validateFn =>
      matches matchFn P ∧ positionsOk s P positions ∧ (∀ ps rs, validateFn ps rs = Ok tt) ∧
      Forall (λ r, P r = true → updateFn r = Ok (u r) ∧ rowFits (u r)) rows
  | SDelete _ positions predicate P preDelete =>
      matches predicate P ∧ positionsOk s P positions ∧ ∀ ps rs, preDelete ps rs = Ok tt
  end.

Definition tables (rows : list Row) (ops : list statement) : list Row := foldl (λ rows o, effect o rows) rows ops.

Fixpoint performAll (ops : list statement) s : engine I * list (outcome engine_error Z) :=
  match ops with
  | [] => (s, [])
  | o :: ops => let '(s, r) := perform o s in let '(s, rs) := performAll ops s in (s, r :: rs)
  end.

Fixpoint answers (ops : list statement) (rows : list Row) : list (outcome engine_error Z) :=
  match ops with [] => [] | o :: ops => answer o rows :: answers ops (effect o rows) end.

Fixpoint allowedAll (ops : list statement) s (rows : list Row) : Prop :=
  match ops with [] => True | o :: ops => allowed o s rows ∧ allowedAll ops (fst (perform o s)) (effect o rows) end.

Lemma normalized_omap news rows' : normalized news rows' → omap (normalizeFrom normalize 0 columns) news = rows'.
Proof. induction 1 as [|r r' news rows' [Hr _] _ IH]; [done|]. cbn. by rewrite Hr, IH. Qed.

Lemma perform_spec o s rows hist :
  tableIs s rows hist → txCounter s + 1 < 2 ^ 48 → allowed o s rows →
  ∃ s', perform o s = (s', answer o rows) ∧ txCounter s' = txCounter s + 1 ∧
    tableIs s' (effect o rows) (remember (txCounter s + 1) (effect o rows) hist).
Proof.
  intros Ht Hb Ha. destruct o as [now news|now ps matchFn P updateFn u validateFn|now ps predicate P preDelete]; cbn [perform effect answer allowed] in *.
  - destruct Ha as (rows' & Hnorm & Hk). rewrite (normalized_omap _ _ Hnorm).
    destruct (acceptsKeys rows rows') eqn:Ha.
    + destruct (InsertRows_accepted now news rows' s rows hist Ht Hb Hnorm Hk Ha) as (s' & ? & ? & ? & _). by exists s'.
    + destruct (InsertRows_rejected now news rows' s rows hist Ht Hb Hnorm Hk Ha) as (s' & ? & ? & ?). by exists s'.
  - destruct Ha as (Hm & Hp & Hv & Hu).
    destruct (UpdateRowsVM_spec now ps matchFn updateFn validateFn P u s rows hist Ht Hb Hm Hp Hv Hu) as (s' & ? & ? & ?). by exists s'.
  - destruct Ha as (Hm & Hp & Hv).
    destruct (DeleteRowsVM_spec now ps predicate preDelete P s rows hist Ht Hb Hm Hp Hv) as (s' & ? & ? & ?). by exists s'.
Qed.

Lemma tableIs_ext s rows hist hist' :
  tableIs s rows hist → (∀ t, 1 ≤ t ≤ txCounter s → hist' t = hist t) → tableIs s rows hist'.
Proof.
  intros (vm & m & Hn & Hm & Ha & Hc & Hlt & Hh & Hok & Hd & Hr & Hrc & Hhist) He. exists vm, m. split_and!; try done; [lia..|].
  intros t Hti. rewrite He by done. by apply Hhist.
Qed.

(** The table right after transaction [t] of a history that starts at transaction [n]. *)
Definition after (n : Z) (rows : list Row) (ops : list statement) (hist : Z → list Row) : Z → list Row :=
  λ t, if t <=? n then hist t else tables rows (take (Z.to_nat (t - n)) ops).

Lemma performAll_spec ops s rows hist :
  tableIs s rows hist → txCounter s + Z.of_nat (length ops) < 2 ^ 48 → allowedAll ops s rows →
  ∃ s', performAll ops s = (s', answers ops rows) ∧ txCounter s' = txCounter s + Z.of_nat (length ops) ∧
    tableIs s' (tables rows ops) (after (txCounter s) rows ops hist).
Proof.
  revert s rows hist. induction ops as [|o ops IH]; intros s rows hist Ht Hb Hall; cbn [performAll answers allowedAll length tables foldl] in *.
  { exists s. split_and!; [done|lia|]. eapply tableIs_ext; [exact Ht|]. intros t Hti. unfold after. by zbool. }
  destruct Hall as [Ha Hall]. destruct (perform_spec o s rows hist Ht ltac:(lia) Ha) as (s1 & E1 & Hc1 & Ht1).
  rewrite E1 in Hall |- *. cbn [fst] in Hall. destruct (IH s1 _ _ Ht1 ltac:(lia) Hall) as (s2 & E2 & Hc2 & Ht2). rewrite E2.
  exists s2. split_and!; [done|lia|]. eapply tableIs_ext; [exact Ht2|]. intros t Hti. unfold after, remember. rewrite Hc1.
  destruct (Z.leb_spec t (txCounter s)), (Z.leb_spec t (txCounter s + 1)), (Z.eqb_spec t (txCounter s + 1)); try lia; [done|subst t|].
  - by replace (Z.to_nat (txCounter s + 1 - txCounter s)) with 1%nat by lia.
  - by replace (Z.to_nat (t - txCounter s)) with (S (Z.to_nat (t - (txCounter s + 1)))) by lia.
Qed.

Lemma tableIs_read s rows hist asOf :
  tableIs s rows hist → let t := if asOf =? 0 then txCounter s else asOf in 1 ≤ t ≤ txCounter s →
  ∃ rows', readRows ParseFloat decodeRaw asOf s = (s, Ok rows') ∧ rows' ≡ₚ hist t.
Proof.
  intros (vm & m & Hn & Hm & Ha & Hc & Hlt & Hh & Hok & Hd & Hr & Hrc & Hhist) t Hti.
  destruct (readRows_spec s vm m (txCounter s) asOf Hn Hh Hok ltac:(lia) Hm Hlt) as (rows' & E & Hp); [fold t; lia| |].
  - unfold noSnapshot, GetSnapshot. by rewrite Ha.
  - exists rows'. split; [done|]. by rewrite Hhist.
Qed.

(** A new table with the indexes of its definition, in an engine with no transaction open. *)
Definition newTable (idxs : list I) : engine I := mkEngine [] None 0 0 idxs 0 (Some (mkTxMgr 1 ∅)) [] 0 [] [].

Lemma newTable_is idxs : tableIs (newTable idxs) [] (λ _, []).
Proof.
  exists ∅, (mkTxMgr 1 ∅). cbn. split_and!; try done; try lia.
Qed.

End Spec.

(** ** Runs *)

(** A table with a key and a name, in an engine whose indexes are hash indexes. *)
Module Run.
Definition cols : list Column := [mkCol (str "id") true; mkCol (str "name") false].
Definition norm (_ : nat) (v : Value) : option Value := Some v.
Definition hash := hash_index (λ _, []) (λ _, []).
Definition IM := M (engine HashIndex) engine_error.
Definition row (i : Z) (s : bytes) : Row := [VInt i; VString s].
Definition byName : HashIndex := HashIndex_New (str "i") (str "name") 1.

Definition isId (i : Z) (r : Row) : bool := match r with VInt j :: _ => i =? j | _ => false end.
Definition tupleIsId (i : Z) (t : bytes) : outcome engine_error bool :=
  match decodePageTuple (λ _, None) (λ _, None) t with Ok (_, _, r) => Ok (isId i r) | Err e => Err e | Panic => Panic end.
Definition named (s : bytes) (r : Row) : Row := match r with v :: _ => [v; VString s] | [] => [] end.

Definition history : list statement :=
  [ SInsert 10 [row 1 (str "a"); row 2 (str "b")];
    SUpdate 20 None (tupleIsId 1) (isId 1) (λ r, Ok (named (str "z") r)) (named (str "z")) (λ _ _, Ok tt);
    SInsert 30 [row 3 (str "c"); row 2 (str "d")];
    SDelete 40 None (tupleIsId 2) (isId 2) (λ _ _, Ok tt) ].

Definition performAll := performAll (H := hash) (λ _, None) (λ _, None) (λ _, None) id (λ _, []) (λ _, []) (λ _ _, true) cols norm.

Lemma tupleIsId_matches i : matches (λ _, None) (λ _, None) (λ _, None) (tupleIsId i) (isId i).
Proof. intros v t Ht. unfold tupleIsId. by rewrite (decode_tuple _ _ _ _ _ Ht). Qed.

Lemma row_fits i s : - 2 ^ 63 ≤ i < 2 ^ 63 → blen s < 1000 → rowFits (λ _, None) (λ _, None) (λ _, None) (row i s).
Proof.
  intros Hi Hs. split_and!; [done|apply Forall_cons; split; [exact Hi|apply Forall_cons; split; [exact Logic.I|constructor]]|]. exists [tagInt :: le_split 8 (u64 i); tagString :: le_split 2 (u16 (blen s)) ++ s].
  split.
  - cbn. by rewrite (proj2 (Z.ltb_ge 65535 (blen s))) by lia.
  - change (headerBytes _) with 22. cbn [concat]. rewrite app_nil_r, blen_app. unfold blen in *. cbn [length].
    rewrite length_app, !length_le_split. lia.
Qed.

Lemma two_normalized i j s t : - 2 ^ 63 ≤ i < 2 ^ 63 → blen s < 1000 → - 2 ^ 63 ≤ j < 2 ^ 63 → blen t < 1000 →
  normalized (λ _, None) (λ _, None) (λ _, None) cols norm [row i s; row j t] [row i s; row j t].
Proof. intros. repeat (apply Forall2_cons; split; [split; [done|by apply row_fits]|]). constructor. Qed.

Lemma keys_usable s rows news :
  IndexColumn (Index := hash) <$> indexes s = [str "name"] → forallb hashable (pkVals 0 rows) = true → forallb hashable (pkVals 0 news) = true →
  keysUsable (H := hash) id cols s rows news.
Proof.
  intros Hi Hr Hn. unfold keysUsable. change (pkIdx cols) with (Some 0%nat). cbv iota beta. split_and!.
  - apply Forall_forall. intros idx Hidx c [= <-]. apply (list_elem_of_fmap_2 (IndexColumn (Index := hash))) in Hidx. rewrite Hi in Hidx.
    apply list_elem_of_singleton in Hidx as ->. discriminate.
  - apply Forall_forall. intros v Hv%list_elem_of_In. by apply (proj1 (forallb_forall _ _) Hr).
  - apply Forall_forall. intros v Hv%list_elem_of_In. by apply (proj1 (forallb_forall _ _) Hn).
Qed.

Definition allowed := allowed (H := hash) (λ _, None) (λ _, None) (λ _, None) id cols norm.
Definition allowedAll := allowedAll (H := hash) (λ _, None) (λ _, None) (λ _, None) id (λ _, []) (λ _, []) (λ _ _, true) cols norm.
Definition after (o : statement) (s : engine HashIndex) : engine HashIndex :=
  fst (perform (H := hash) (λ _, None) (λ _, None) (λ _, None) id (λ _, []) (λ _, []) (λ _ _, true) cols norm o s).

Lemma allowedAll_cons o ops s rows rows' :
  allowed o s rows → effect cols norm o rows = rows' → allowedAll ops (after o s) rows' → allowedAll (o :: ops) s rows.
Proof. by intros ? <- ?. Qed.

Lemma history_allowed : allowedAll history (newTable [byName]) [].
Proof.
  apply (allowedAll_cons _ _ _ _ [row 1 (str "a"); row 2 (str "b")]); [|by vm_compute|]; [|set (s1 := after _ _)].
  { exists [row 1 (str "a"); row 2 (str "b")]. split; [by apply two_normalized|apply keys_usable; by vm_compute]. }
  apply (allowedAll_cons _ _ _ _ [row 1 (str "z"); row 2 (str "b")]); [|by vm_compute|]; [|set (s2 := after _ _)].
  { split; [apply tupleIsId_matches|]. split; [exact Logic.I|]. split; [by intros|].
    apply Forall_cons; split; [|apply Forall_cons; split; [by intros|constructor]]. intros _. split; [done|]. by apply (row_fits 1 (str "z")). }
  apply (allowedAll_cons _ _ _ _ [row 1 (str "z"); row 2 (str "b")]); [|by vm_compute|]; [|set (s3 := after _ _)].
  { exists [row 3 (str "c"); row 2 (str "d")]. split; [by apply two_normalized|apply keys_usable; by vm_compute]. }
  apply (allowedAll_cons _ _ _ _ [row 1 (str "z")]); [|by vm_compute|exact Logic.I].
  split; [apply tupleIsId_matches|]. split; [exact Logic.I|]. by intros.
Qed.
End Run.


(** ** What positions and flags do *)

Module Positions.
Import Run.
Definition insert rows : IM Z := InsertRows (H := hash) (λ _, None) (λ _, None) (λ _, None) id (λ _, []) (λ _, []) cols norm 0 rows.
Definition delete ps : IM Z :=
  DeleteRows (H := hash) (λ _, None) (λ _, None) (λ _, None) id (λ _, []) (λ _, []) (λ _ _, true) cols norm 0 ps.
Definition update ps us : IM Z :=
  UpdateRows (H := hash) (λ _, None) (λ _, None) (λ _, None) id (λ _, []) (λ _, []) (λ _ _, true) cols norm 0 ps us.
Definition select : IM (list Row) := SelectRows (λ _, None) (λ _, None).
Definition updateVM m u : IM Z :=
  UpdateRowsVM (H := hash) (λ _, None) (λ _, None) (λ _, None) id (λ _, []) (λ _, []) (λ _ _, true) cols 0 None m u (λ _ _, Ok tt).
Definition deleteVM m : IM Z := DeleteRowsVM (H := hash) (λ _, None) (λ _, None) 0 None m (λ _ _, Ok tt).
Definition selectVM m : IM (list Row) := SelectRowsVM (λ _, None) (λ _, None) m.
Definition lookup (k : bytes) : IM (list Row) :=
  ps ← gets (λ s, i ← head (indexes s); HashIndex_Lookup i k); ReadRowsByPositions (λ _, None) (λ _, None) (default [] ps).
Definition three : IM Z := insert [row 1 (str "a"); row 2 (str "b"); row 3 (str "c")].
Definition runNew {A} (m : IM A) : outcome engine_error A := snd (m (newTable [byName])).

(** [DeleteRows] by position leaves the entry of the row in the directory: a
    second deletion of the first row deletes nothing and is counted all the same. *)
Example deleted_twice :
  runNew (three;; delete [0];; delete [0];; rows ← select; n ← gets rowCount; mret (rows, n)) =
  Ok ([row 2 (str "b"); row 3 (str "c")], 1).
Proof. vm_compute. reflexivity. Qed.

(** [DeleteRowsVM] closes the gap in the directory and leaves the positions of the index. *)
Example lookup_after_delete : runNew (three;; deleteVM (tupleIsId 1);; lookup (str "b")) = Ok [row 3 (str "c")].
Proof. vm_compute. reflexivity. Qed.

(** [UpdateRows] files the new key under the position of the last rows. *)
Example lookup_after_update :
  runNew (three;; update [0] [(str "name", VString (str "z"))];; lookup (str "z")) = Ok [row 3 (str "c")].
Proof. vm_compute. reflexivity. Qed.

(** [CreateIndex] numbers the rows in the order of a scan, and an update has moved a row: the directory has the old order. *)
Example lookup_after_create_index :
  snd ((three;; updateVM (tupleIsId 1) (λ _, Ok (row 1 (str "z")));; CreateIndexOn (H := hash) (λ _, None) (λ _, None) byName;;
        lookup (str "b")) (newTable [])) = Ok [row 1 (str "z")].
Proof. vm_compute. reflexivity. Qed.

(** A row updated in place carries a flag in its creation word, which [SelectRowsVM] does not mask. *)
Example updated_in_place_unseen :
  snd ((three;; updateVM (tupleIsId 2) (λ _, Ok (row 2 (str "z")));; a ← select; b ← selectVM (λ _, Ok true); mret (a, b)) (newTable [])) =
  Ok ([row 1 (str "a"); row 3 (str "c"); row 2 (str "z")], [row 1 (str "a"); row 3 (str "c")]).
Proof. vm_compute. reflexivity. Qed.
End Positions.
