(* ===== verification/Lexer.v ===== *)
(** * The lexer

    [core/lexer/lexer.go]: SQL text as runes, the cursor of the lexer, the token at
    the cursor with its line and column, and the loop of [parser.go] that collects
    the tokens of a statement. *)

From S2P Require Import Prelude.
From Stdlib Require Import Ascii.

(** Text is a list of runes. *)
Abbreviation text := (list Z) (only parsing).

Definition rune (c : ascii) : Z := Z.of_N (N_of_ascii c).
Definition rs (s : string) : text := rune <$> String.list_ascii_of_string s.

(** ** Tokens *)

Inductive TokenType : Type :=
  | TOKEN_SELECT | TOKEN_INSERT | TOKEN_UPDATE | TOKEN_DELETE | TOKEN_FROM | TOKEN_INTO | TOKEN_WHERE | TOKEN_SET | TOKEN_VALUES
  | TOKEN_CREATE | TOKEN_DROP | TOKEN_DATABASE | TOKEN_TABLE | TOKEN_USE | TOKEN_SHOW | TOKEN_DATABASES | TOKEN_TABLES
  | TOKEN_DESCRIBE | TOKEN_LIMIT | TOKEN_EXPLAIN | TOKEN_ANALYZE | TOKEN_AS | TOKEN_OF | TOKEN_ON | TOKEN_TIMESTAMP
  | TOKEN_VERSION | TOKEN_HISTORY | TOKEN_KEY | TOKEN_PRIMARY | TOKEN_AND | TOKEN_OR | TOKEN_NOT | TOKEN_NULL | TOKEN_TRUE
  | TOKEN_FALSE | TOKEN_ORDER | TOKEN_BY | TOKEN_ASC | TOKEN_DESC | TOKEN_OFFSET | TOKEN_GROUP | TOKEN_HAVING | TOKEN_JOIN
  | TOKEN_INNER | TOKEN_LEFT | TOKEN_RIGHT | TOKEN_FULL | TOKEN_CROSS | TOKEN_UNION | TOKEN_INTERSECT | TOKEN_EXCEPT | TOKEN_FOR
  | TOKEN_USING | TOKEN_OVER | TOKEN_PARTITION | TOKEN_ROWS | TOKEN_RANGE | TOKEN_UNBOUNDED | TOKEN_PRECEDING | TOKEN_FOLLOWING
  | TOKEN_CURRENT | TOKEN_ROW | TOKEN_BETWEEN | TOKEN_IN | TOKEN_IS | TOKEN_LIKE | TOKEN_ILIKE | TOKEN_SEMANTIC_MATCH
  | TOKEN_FTS_MATCH | TOKEN_ALTER | TOKEN_ADD | TOKEN_COLUMN | TOKEN_RENAME | TOKEN_TO | TOKEN_TYPE | TOKEN_DEFAULT | TOKEN_CAST
  | TOKEN_CASE | TOKEN_WHEN | TOKEN_THEN | TOKEN_ELSE | TOKEN_END | TOKEN_COALESCE | TOKEN_VACUUM | TOKEN_MIGRATION
  | TOKEN_POLICY | TOKEN_ENABLE | TOKEN_RLS | TOKEN_INDEX | TOKEN_INDEXES | TOKEN_BEGIN | TOKEN_COMMIT | TOKEN_ROLLBACK
  | TOKEN_PREPARE | TOKEN_EXECUTE | TOKEN_DEALLOCATE | TOKEN_APPLY | TOKEN_PREVIEW | TOKEN_STRING_AGG | TOKEN_SUBSTRING
  | TOKEN_WITH | TOKEN_CONFLICT | TOKEN_DO | TOKEN_VIEW | TOKEN_ALL | TOKEN_ANY | TOKEN_SOME | TOKEN_REFERENCES | TOKEN_LATERAL
  | TOKEN_TRIGGER | TOKEN_BEFORE | TOKEN_AFTER | TOKEN_EACH | TOKEN_FUNCTION | TOKEN_RETURNS | TOKEN_UUID | TOKEN_INTERVAL
  | TOKEN_PROCEDURE | TOKEN_CALL | TOKEN_JSONB | TOKEN_REPLACE | TOKEN_NOTHING | TOKEN_RETURNING | TOKEN_MERGE | TOKEN_MATCHED
  | TOKEN_TRUNCATE | TOKEN_SAVEPOINT | TOKEN_RELEASE | TOKEN_EXISTS | TOKEN_IF | TOKEN_ENCRYPTED | TOKEN_ENCRYPTION
  | TOKEN_VERIFY | TOKEN_COPY | TOKEN_HASH | TOKEN_LESS | TOKEN_THAN | TOKEN_PARTITIONS | TOKEN_MAXVALUE | TOKEN_ROLE
  | TOKEN_GRANT | TOKEN_REVOKE | TOKEN_PRIVILEGES | TOKEN_TOKEN | TOKEN_INT | TOKEN_FLOAT_TYPE | TOKEN_BOOL | TOKEN_TEXT
  | TOKEN_VARCHAR | TOKEN_DATE | TOKEN_TIME | TOKEN_DECIMAL | TOKEN_ENUM | TOKEN_ARRAY | TOKEN_VECTOR | TOKEN_FLEXIBLE
  | TOKEN_INFER | TOKEN_GENERATED | TOKEN_ALWAYS | TOKEN_STORED | TOKEN_VIRTUAL | TOKEN_SCHEMA | TOKEN_AUTO_INCREMENT
  | TOKEN_BIGINT | TOKEN_NUMERIC | TOKEN_TIMESTAMPTZ | TOKEN_SERIAL | TOKEN_IDENTITY | TOKEN_BLOB | TOKEN_IDENT | TOKEN_INT_LIT
  | TOKEN_FLOAT_LIT | TOKEN_STRING_LIT | TOKEN_EQ | TOKEN_NEQ | TOKEN_LT | TOKEN_GT | TOKEN_LTE | TOKEN_GTE | TOKEN_COMMA
  | TOKEN_DOT | TOKEN_ARROW | TOKEN_DBL_ARROW | TOKEN_SEMICOLON | TOKEN_LPAREN | TOKEN_RPAREN | TOKEN_STAR | TOKEN_MINUS
  | TOKEN_PLUS | TOKEN_SLASH | TOKEN_PARAM | TOKEN_JSON_CONTAINS | TOKEN_JSON_CONTAINED_BY | TOKEN_JSON_HAS_KEY
  | TOKEN_JSON_MERGE | TOKEN_FULLTEXT_MATCH | TOKEN_EOF | TOKEN_ILLEGAL.

(** The values of [iota]. *)
Definition code (t : TokenType) : Z :=
  match t with
  | TOKEN_SELECT => 0 | TOKEN_INSERT => 1 | TOKEN_UPDATE => 2 | TOKEN_DELETE => 3 | TOKEN_FROM => 4 | TOKEN_INTO => 5
  | TOKEN_WHERE => 6 | TOKEN_SET => 7 | TOKEN_VALUES => 8 | TOKEN_CREATE => 9 | TOKEN_DROP => 10 | TOKEN_DATABASE => 11
  | TOKEN_TABLE => 12 | TOKEN_USE => 13 | TOKEN_SHOW => 14 | TOKEN_DATABASES => 15 | TOKEN_TABLES => 16 | TOKEN_DESCRIBE => 17
  | TOKEN_LIMIT => 18 | TOKEN_EXPLAIN => 19 | TOKEN_ANALYZE => 20 | TOKEN_AS => 21 | TOKEN_OF => 22 | TOKEN_ON => 23
  | TOKEN_TIMESTAMP => 24 | TOKEN_VERSION => 25 | TOKEN_HISTORY => 26 | TOKEN_KEY => 27 | TOKEN_PRIMARY => 28 | TOKEN_AND => 29
  | TOKEN_OR => 30 | TOKEN_NOT => 31 | TOKEN_NULL => 32 | TOKEN_TRUE => 33 | TOKEN_FALSE => 34 | TOKEN_ORDER => 35
  | TOKEN_BY => 36 | TOKEN_ASC => 37 | TOKEN_DESC => 38 | TOKEN_OFFSET => 39 | TOKEN_GROUP => 40 | TOKEN_HAVING => 41
  | TOKEN_JOIN => 42 | TOKEN_INNER => 43 | TOKEN_LEFT => 44 | TOKEN_RIGHT => 45 | TOKEN_FULL => 46 | TOKEN_CROSS => 47
  | TOKEN_UNION => 48 | TOKEN_INTERSECT => 49 | TOKEN_EXCEPT => 50 | TOKEN_FOR => 51 | TOKEN_USING => 52 | TOKEN_OVER => 53
  | TOKEN_PARTITION => 54 | TOKEN_ROWS => 55 | TOKEN_RANGE => 56 | TOKEN_UNBOUNDED => 57 | TOKEN_PRECEDING => 58
  | TOKEN_FOLLOWING => 59 | TOKEN_CURRENT => 60 | TOKEN_ROW => 61 | TOKEN_BETWEEN => 62 | TOKEN_IN => 63 | TOKEN_IS => 64
  | TOKEN_LIKE => 65 | TOKEN_ILIKE => 66 | TOKEN_SEMANTIC_MATCH => 67 | TOKEN_FTS_MATCH => 68 | TOKEN_ALTER => 69
  | TOKEN_ADD => 70 | TOKEN_COLUMN => 71 | TOKEN_RENAME => 72 | TOKEN_TO => 73 | TOKEN_TYPE => 74 | TOKEN_DEFAULT => 75
  | TOKEN_CAST => 76 | TOKEN_CASE => 77 | TOKEN_WHEN => 78 | TOKEN_THEN => 79 | TOKEN_ELSE => 80 | TOKEN_END => 81
  | TOKEN_COALESCE => 82 | TOKEN_VACUUM => 83 | TOKEN_MIGRATION => 84 | TOKEN_POLICY => 85 | TOKEN_ENABLE => 86 | TOKEN_RLS => 87
  | TOKEN_INDEX => 88 | TOKEN_INDEXES => 89 | TOKEN_BEGIN => 90 | TOKEN_COMMIT => 91 | TOKEN_ROLLBACK => 92 | TOKEN_PREPARE => 93
  | TOKEN_EXECUTE => 94 | TOKEN_DEALLOCATE => 95 | TOKEN_APPLY => 96 | TOKEN_PREVIEW => 97 | TOKEN_STRING_AGG => 98
  | TOKEN_SUBSTRING => 99 | TOKEN_WITH => 100 | TOKEN_CONFLICT => 101 | TOKEN_DO => 102 | TOKEN_VIEW => 103 | TOKEN_ALL => 104
  | TOKEN_ANY => 105 | TOKEN_SOME => 106 | TOKEN_REFERENCES => 107 | TOKEN_LATERAL => 108 | TOKEN_TRIGGER => 109
  | TOKEN_BEFORE => 110 | TOKEN_AFTER => 111 | TOKEN_EACH => 112 | TOKEN_FUNCTION => 113 | TOKEN_RETURNS => 114
  | TOKEN_UUID => 115 | TOKEN_INTERVAL => 116 | TOKEN_PROCEDURE => 117 | TOKEN_CALL => 118 | TOKEN_JSONB => 119
  | TOKEN_REPLACE => 120 | TOKEN_NOTHING => 121 | TOKEN_RETURNING => 122 | TOKEN_MERGE => 123 | TOKEN_MATCHED => 124
  | TOKEN_TRUNCATE => 125 | TOKEN_SAVEPOINT => 126 | TOKEN_RELEASE => 127 | TOKEN_EXISTS => 128 | TOKEN_IF => 129
  | TOKEN_ENCRYPTED => 130 | TOKEN_ENCRYPTION => 131 | TOKEN_VERIFY => 132 | TOKEN_COPY => 133 | TOKEN_HASH => 134
  | TOKEN_LESS => 135 | TOKEN_THAN => 136 | TOKEN_PARTITIONS => 137 | TOKEN_MAXVALUE => 138 | TOKEN_ROLE => 139
  | TOKEN_GRANT => 140 | TOKEN_REVOKE => 141 | TOKEN_PRIVILEGES => 142 | TOKEN_TOKEN => 143 | TOKEN_INT => 144
  | TOKEN_FLOAT_TYPE => 145 | TOKEN_BOOL => 146 | TOKEN_TEXT => 147 | TOKEN_VARCHAR => 148 | TOKEN_DATE => 149
  | TOKEN_TIME => 150 | TOKEN_DECIMAL => 151 | TOKEN_ENUM => 152 | TOKEN_ARRAY => 153 | TOKEN_VECTOR => 154
  | TOKEN_FLEXIBLE => 155 | TOKEN_INFER => 156 | TOKEN_GENERATED => 157 | TOKEN_ALWAYS => 158 | TOKEN_STORED => 159
  | TOKEN_VIRTUAL => 160 | TOKEN_SCHEMA => 161 | TOKEN_AUTO_INCREMENT => 162 | TOKEN_BIGINT => 163 | TOKEN_NUMERIC => 164
  | TOKEN_TIMESTAMPTZ => 165 | TOKEN_SERIAL => 166 | TOKEN_IDENTITY => 167 | TOKEN_BLOB => 168 | TOKEN_IDENT => 169
  | TOKEN_INT_LIT => 170 | TOKEN_FLOAT_LIT => 171 | TOKEN_STRING_LIT => 172 | TOKEN_EQ => 173 | TOKEN_NEQ => 174
  | TOKEN_LT => 175 | TOKEN_GT => 176 | TOKEN_LTE => 177 | TOKEN_GTE => 178 | TOKEN_COMMA => 179 | TOKEN_DOT => 180
  | TOKEN_ARROW => 181 | TOKEN_DBL_ARROW => 182 | TOKEN_SEMICOLON => 183 | TOKEN_LPAREN => 184 | TOKEN_RPAREN => 185
  | TOKEN_STAR => 186 | TOKEN_MINUS => 187 | TOKEN_PLUS => 188 | TOKEN_SLASH => 189 | TOKEN_PARAM => 190
  | TOKEN_JSON_CONTAINS => 191 | TOKEN_JSON_CONTAINED_BY => 192 | TOKEN_JSON_HAS_KEY => 193 | TOKEN_JSON_MERGE => 194
  | TOKEN_FULLTEXT_MATCH => 195 | TOKEN_EOF => 196 | TOKEN_ILLEGAL => 197
  end.

Definition tok_eqb (a b : TokenType) : bool := code a =? code b.

Definition tokenTypes : list TokenType :=
  [TOKEN_SELECT; TOKEN_INSERT; TOKEN_UPDATE; TOKEN_DELETE; TOKEN_FROM; TOKEN_INTO; TOKEN_WHERE; TOKEN_SET; TOKEN_VALUES;
  TOKEN_CREATE; TOKEN_DROP; TOKEN_DATABASE; TOKEN_TABLE; TOKEN_USE; TOKEN_SHOW; TOKEN_DATABASES; TOKEN_TABLES; TOKEN_DESCRIBE;
  TOKEN_LIMIT; TOKEN_EXPLAIN; TOKEN_ANALYZE; TOKEN_AS; TOKEN_OF; TOKEN_ON; TOKEN_TIMESTAMP; TOKEN_VERSION; TOKEN_HISTORY;
  TOKEN_KEY; TOKEN_PRIMARY; TOKEN_AND; TOKEN_OR; TOKEN_NOT; TOKEN_NULL; TOKEN_TRUE; TOKEN_FALSE; TOKEN_ORDER; TOKEN_BY;
  TOKEN_ASC; TOKEN_DESC; TOKEN_OFFSET; TOKEN_GROUP; TOKEN_HAVING; TOKEN_JOIN; TOKEN_INNER; TOKEN_LEFT; TOKEN_RIGHT; TOKEN_FULL;
  TOKEN_CROSS; TOKEN_UNION; TOKEN_INTERSECT; TOKEN_EXCEPT; TOKEN_FOR; TOKEN_USING; TOKEN_OVER; TOKEN_PARTITION; TOKEN_ROWS;
  TOKEN_RANGE; TOKEN_UNBOUNDED; TOKEN_PRECEDING; TOKEN_FOLLOWING; TOKEN_CURRENT; TOKEN_ROW; TOKEN_BETWEEN; TOKEN_IN; TOKEN_IS;
  TOKEN_LIKE; TOKEN_ILIKE; TOKEN_SEMANTIC_MATCH; TOKEN_FTS_MATCH; TOKEN_ALTER; TOKEN_ADD; TOKEN_COLUMN; TOKEN_RENAME; TOKEN_TO;
  TOKEN_TYPE; TOKEN_DEFAULT; TOKEN_CAST; TOKEN_CASE; TOKEN_WHEN; TOKEN_THEN; TOKEN_ELSE; TOKEN_END; TOKEN_COALESCE; TOKEN_VACUUM;
  TOKEN_MIGRATION; TOKEN_POLICY; TOKEN_ENABLE; TOKEN_RLS; TOKEN_INDEX; TOKEN_INDEXES; TOKEN_BEGIN; TOKEN_COMMIT; TOKEN_ROLLBACK;
  TOKEN_PREPARE; TOKEN_EXECUTE; TOKEN_DEALLOCATE; TOKEN_APPLY; TOKEN_PREVIEW; TOKEN_STRING_AGG; TOKEN_SUBSTRING; TOKEN_WITH;
  TOKEN_CONFLICT; TOKEN_DO; TOKEN_VIEW; TOKEN_ALL; TOKEN_ANY; TOKEN_SOME; TOKEN_REFERENCES; TOKEN_LATERAL; TOKEN_TRIGGER;
  TOKEN_BEFORE; TOKEN_AFTER; TOKEN_EACH; TOKEN_FUNCTION; TOKEN_RETURNS; TOKEN_UUID; TOKEN_INTERVAL; TOKEN_PROCEDURE; TOKEN_CALL;
  TOKEN_JSONB; TOKEN_REPLACE; TOKEN_NOTHING; TOKEN_RETURNING; TOKEN_MERGE; TOKEN_MATCHED; TOKEN_TRUNCATE; TOKEN_SAVEPOINT;
  TOKEN_RELEASE; TOKEN_EXISTS; TOKEN_IF; TOKEN_ENCRYPTED; TOKEN_ENCRYPTION; TOKEN_VERIFY; TOKEN_COPY; TOKEN_HASH; TOKEN_LESS;
  TOKEN_THAN; TOKEN_PARTITIONS; TOKEN_MAXVALUE; TOKEN_ROLE; TOKEN_GRANT; TOKEN_REVOKE; TOKEN_PRIVILEGES; TOKEN_TOKEN; TOKEN_INT;
  TOKEN_FLOAT_TYPE; TOKEN_BOOL; TOKEN_TEXT; TOKEN_VARCHAR; TOKEN_DATE; TOKEN_TIME; TOKEN_DECIMAL; TOKEN_ENUM; TOKEN_ARRAY;
  TOKEN_VECTOR; TOKEN_FLEXIBLE; TOKEN_INFER; TOKEN_GENERATED; TOKEN_ALWAYS; TOKEN_STORED; TOKEN_VIRTUAL; TOKEN_SCHEMA;
  TOKEN_AUTO_INCREMENT; TOKEN_BIGINT; TOKEN_NUMERIC; TOKEN_TIMESTAMPTZ; TOKEN_SERIAL; TOKEN_IDENTITY; TOKEN_BLOB; TOKEN_IDENT;
  TOKEN_INT_LIT; TOKEN_FLOAT_LIT; TOKEN_STRING_LIT; TOKEN_EQ; TOKEN_NEQ; TOKEN_LT; TOKEN_GT; TOKEN_LTE; TOKEN_GTE; TOKEN_COMMA;
  TOKEN_DOT; TOKEN_ARROW; TOKEN_DBL_ARROW; TOKEN_SEMICOLON; TOKEN_LPAREN; TOKEN_RPAREN; TOKEN_STAR; TOKEN_MINUS; TOKEN_PLUS;
  TOKEN_SLASH; TOKEN_PARAM; TOKEN_JSON_CONTAINS; TOKEN_JSON_CONTAINED_BY; TOKEN_JSON_HAS_KEY; TOKEN_JSON_MERGE;
  TOKEN_FULLTEXT_MATCH; TOKEN_EOF; TOKEN_ILLEGAL].

Record Token : Type := mkToken { Type_ : TokenType; Literal : text; Line : Z; Col : Z }.

(** ** Runes *)

Definition IsSpace (r : Z) : bool :=
  bool_decide (r ∈ [9; 10; 11; 12; 13; 32; 0x85; 0xA0; 0x1680; 0x2028; 0x2029; 0x202F; 0x205F; 0x3000]) || ((0x2000 <=? r) && (r <=? 0x200A)).

Definition isDigit (r : Z) : bool := (48 <=? r) && (r <=? 57).

Definition asciiUpper (r : Z) : Z := if (97 <=? r) && (r <=? 122) then r - 32 else r.

Section Lexer.
(** [unicode.IsLetter] beyond Latin-1 and [unicode.ToUpper] beyond ASCII: the tables of Unicode. *)
Context (letterBeyond : Z → bool) (upperBeyond : Z → Z).

Definition IsLetter (r : Z) : bool :=
  if r <=? 255 then
    ((65 <=? r) && (r <=? 90)) || ((97 <=? r) && (r <=? 122)) || (r =? 0xAA) || (r =? 0xB5) || (r =? 0xBA) ||
    ((0xC0 <=? r) && (r <=? 0xFF) && negb (r =? 0xD7) && negb (r =? 0xF7))
  else letterBeyond r.

Definition isLetter (r : Z) : bool := IsLetter r || (r =? rune "_").

(** [strings.ToUpper], rune by rune. *)
Definition ToUpper (s : text) : text := (λ r, if r <? 128 then asciiUpper r else upperBeyond r) <$> s.

Definition keywords : list (text * TokenType) :=
  [(rs "SELECT", TOKEN_SELECT); (rs "INSERT", TOKEN_INSERT); (rs "UPDATE", TOKEN_UPDATE); (rs "DELETE", TOKEN_DELETE);
  (rs "FROM", TOKEN_FROM); (rs "INTO", TOKEN_INTO); (rs "WHERE", TOKEN_WHERE); (rs "SET", TOKEN_SET);
  (rs "VALUES", TOKEN_VALUES); (rs "CREATE", TOKEN_CREATE); (rs "DROP", TOKEN_DROP); (rs "DATABASE", TOKEN_DATABASE);
  (rs "TABLE", TOKEN_TABLE); (rs "USE", TOKEN_USE); (rs "SHOW", TOKEN_SHOW); (rs "DATABASES", TOKEN_DATABASES);
  (rs "TABLES", TOKEN_TABLES); (rs "DESCRIBE", TOKEN_DESCRIBE); (rs "LIMIT", TOKEN_LIMIT); (rs "EXPLAIN", TOKEN_EXPLAIN);
  (rs "ANALYZE", TOKEN_ANALYZE); (rs "AS", TOKEN_AS); (rs "OF", TOKEN_OF); (rs "ON", TOKEN_ON);
  (rs "TIMESTAMP", TOKEN_TIMESTAMP); (rs "HISTORY", TOKEN_HISTORY); (rs "KEY", TOKEN_KEY); (rs "PRIMARY", TOKEN_PRIMARY);
  (rs "AND", TOKEN_AND); (rs "OR", TOKEN_OR); (rs "NOT", TOKEN_NOT); (rs "NULL", TOKEN_NULL); (rs "TRUE", TOKEN_TRUE);
  (rs "FALSE", TOKEN_FALSE); (rs "ORDER", TOKEN_ORDER); (rs "BY", TOKEN_BY); (rs "ASC", TOKEN_ASC); (rs "DESC", TOKEN_DESC);
  (rs "OFFSET", TOKEN_OFFSET); (rs "GROUP", TOKEN_GROUP); (rs "HAVING", TOKEN_HAVING); (rs "JOIN", TOKEN_JOIN);
  (rs "INNER", TOKEN_INNER); (rs "LEFT", TOKEN_LEFT); (rs "RIGHT", TOKEN_RIGHT); (rs "FULL", TOKEN_FULL);
  (rs "CROSS", TOKEN_CROSS); (rs "UNION", TOKEN_UNION); (rs "INTERSECT", TOKEN_INTERSECT); (rs "EXCEPT", TOKEN_EXCEPT);
  (rs "FOR", TOKEN_FOR); (rs "USING", TOKEN_USING); (rs "OVER", TOKEN_OVER); (rs "PARTITION", TOKEN_PARTITION);
  (rs "ROWS", TOKEN_ROWS); (rs "RANGE", TOKEN_RANGE); (rs "UNBOUNDED", TOKEN_UNBOUNDED); (rs "PRECEDING", TOKEN_PRECEDING);
  (rs "FOLLOWING", TOKEN_FOLLOWING); (rs "CURRENT", TOKEN_CURRENT); (rs "ROW", TOKEN_ROW); (rs "BETWEEN", TOKEN_BETWEEN);
  (rs "IN", TOKEN_IN); (rs "IS", TOKEN_IS); (rs "LIKE", TOKEN_LIKE); (rs "ILIKE", TOKEN_ILIKE);
  (rs "SEMANTIC_MATCH", TOKEN_SEMANTIC_MATCH); (rs "FTS_MATCH", TOKEN_FTS_MATCH); (rs "MATCH", TOKEN_FTS_MATCH);
  (rs "ALTER", TOKEN_ALTER); (rs "ADD", TOKEN_ADD); (rs "COLUMN", TOKEN_COLUMN); (rs "RENAME", TOKEN_RENAME);
  (rs "TO", TOKEN_TO); (rs "TYPE", TOKEN_TYPE); (rs "DEFAULT", TOKEN_DEFAULT); (rs "CAST", TOKEN_CAST); (rs "CASE", TOKEN_CASE);
  (rs "WHEN", TOKEN_WHEN); (rs "THEN", TOKEN_THEN); (rs "ELSE", TOKEN_ELSE); (rs "END", TOKEN_END);
  (rs "COALESCE", TOKEN_COALESCE); (rs "INT", TOKEN_INT); (rs "FLOAT", TOKEN_FLOAT_TYPE); (rs "BOOL", TOKEN_BOOL);
  (rs "TEXT", TOKEN_TEXT); (rs "VARCHAR", TOKEN_VARCHAR); (rs "DATE", TOKEN_DATE); (rs "TIME", TOKEN_TIME);
  (rs "DECIMAL", TOKEN_DECIMAL); (rs "ENUM", TOKEN_ENUM); (rs "ARRAY", TOKEN_ARRAY); (rs "VECTOR", TOKEN_VECTOR);
  (rs "FLEXIBLE", TOKEN_FLEXIBLE); (rs "INFER", TOKEN_INFER); (rs "GENERATED", TOKEN_GENERATED); (rs "ALWAYS", TOKEN_ALWAYS);
  (rs "STORED", TOKEN_STORED); (rs "VIRTUAL", TOKEN_VIRTUAL); (rs "SCHEMA", TOKEN_SCHEMA);
  (rs "AUTO_INCREMENT", TOKEN_AUTO_INCREMENT); (rs "BIGINT", TOKEN_BIGINT); (rs "NUMERIC", TOKEN_NUMERIC);
  (rs "TIMESTAMPTZ", TOKEN_TIMESTAMPTZ); (rs "SERIAL", TOKEN_SERIAL); (rs "IDENTITY", TOKEN_IDENTITY);
  (rs "VACUUM", TOKEN_VACUUM); (rs "MIGRATION", TOKEN_MIGRATION); (rs "POLICY", TOKEN_POLICY); (rs "ENABLE", TOKEN_ENABLE);
  (rs "RLS", TOKEN_RLS); (rs "INDEX", TOKEN_INDEX); (rs "INDEXES", TOKEN_INDEXES); (rs "BEGIN", TOKEN_BEGIN);
  (rs "COMMIT", TOKEN_COMMIT); (rs "ROLLBACK", TOKEN_ROLLBACK); (rs "PREPARE", TOKEN_PREPARE); (rs "EXECUTE", TOKEN_EXECUTE);
  (rs "DEALLOCATE", TOKEN_DEALLOCATE); (rs "APPLY", TOKEN_APPLY); (rs "PREVIEW", TOKEN_PREVIEW);
  (rs "SUBSTRING", TOKEN_SUBSTRING); (rs "WITH", TOKEN_WITH); (rs "CONFLICT", TOKEN_CONFLICT); (rs "DO", TOKEN_DO);
  (rs "NOTHING", TOKEN_NOTHING); (rs "VIEW", TOKEN_VIEW); (rs "ALL", TOKEN_ALL); (rs "ANY", TOKEN_ANY); (rs "SOME", TOKEN_SOME);
  (rs "REFERENCES", TOKEN_REFERENCES); (rs "LATERAL", TOKEN_LATERAL); (rs "TRIGGER", TOKEN_TRIGGER); (rs "BEFORE", TOKEN_BEFORE);
  (rs "AFTER", TOKEN_AFTER); (rs "EACH", TOKEN_EACH); (rs "FUNCTION", TOKEN_FUNCTION); (rs "RETURNS", TOKEN_RETURNS);
  (rs "UUID", TOKEN_UUID); (rs "INTERVAL", TOKEN_INTERVAL); (rs "PROCEDURE", TOKEN_PROCEDURE); (rs "CALL", TOKEN_CALL);
  (rs "JSONB", TOKEN_JSONB); (rs "RETURNING", TOKEN_RETURNING); (rs "MERGE", TOKEN_MERGE); (rs "MATCHED", TOKEN_MATCHED);
  (rs "TRUNCATE", TOKEN_TRUNCATE); (rs "SAVEPOINT", TOKEN_SAVEPOINT); (rs "RELEASE", TOKEN_RELEASE); (rs "EXISTS", TOKEN_EXISTS);
  (rs "IF", TOKEN_IF); (rs "BLOB", TOKEN_BLOB); (rs "ENCRYPTED", TOKEN_ENCRYPTED); (rs "ENCRYPTION", TOKEN_ENCRYPTION);
  (rs "VERIFY", TOKEN_VERIFY); (rs "COPY", TOKEN_COPY); (rs "HASH", TOKEN_HASH); (rs "LESS", TOKEN_LESS);
  (rs "THAN", TOKEN_THAN); (rs "PARTITIONS", TOKEN_PARTITIONS); (rs "MAXVALUE", TOKEN_MAXVALUE); (rs "GRANT", TOKEN_GRANT);
  (rs "REVOKE", TOKEN_REVOKE); (rs "PRIVILEGES", TOKEN_PRIVILEGES); (rs "TOKEN", TOKEN_TOKEN)].

Definition assoc {A} (k : text) (l : list (text * A)) : option A := snd <$> find (λ e, bool_decide (fst e = k)) l.

Definition LookupIdent (ident : text) : TokenType := default TOKEN_IDENT (assoc (ToUpper ident) keywords).

(** ** The cursor *)

Record Lexer : Type := mkLexer { input : list Z; position : nat; readPosition : nat; ch : Z; newlines : list nat }.

Definition buildLineColCache (input : list Z) : list nat :=
  fst <$> filter (λ e, snd e = 10) (imap pair input).

Definition readChar (l : Lexer) : Lexer :=
  mkLexer (input l) (readPosition l) (S (readPosition l)) (default 0 (input l !! readPosition l)) (newlines l).

Definition peekChar (l : Lexer) : Z := default 0 (input l !! readPosition l).

Definition New (s : text) : Lexer := readChar (mkLexer s 0 0 0 (buildLineColCache s)).

(** [for p(l.ch) { l.readChar() }], of at most [n] steps. *)
Fixpoint while (p : Z → bool) (n : nat) (l : Lexer) : Lexer :=
  match n with
  | O => l
  | S n => if p (ch l) then while p n (readChar l) else l
  end.

(** More steps than there are runes. *)
Definition steps (l : Lexer) : nat := S (length (input l)).

Definition skipWhitespace (l : Lexer) : Lexer := while IsSpace (steps l) l.

(** [string(l.input[start:l.position])]. *)
Definition since (start : nat) (l : Lexer) : text := take (position l - start) (drop start (input l)).

Definition readIdentifier (l : Lexer) : Lexer * text :=
  let l' := while (λ c, isLetter c || isDigit c) (steps l) l in (l', since (position l) l').

Fixpoint numberLoop (n : nat) (hasDot : bool) (l : Lexer) : Lexer * bool :=
  match n with
  | O => (l, hasDot)
  | S n =>
      if isDigit (ch l) || (negb hasDot && (ch l =? rune ".")) then numberLoop n (hasDot || (ch l =? rune ".")) (readChar l)
      else (l, hasDot)
  end.

Definition readNumber (l : Lexer) : Lexer * (text * bool) :=
  let l1 := if ch l =? rune "-" then readChar l else l in
  let '(l2, hasDot) := numberLoop (steps l) false l1 in (l2, (since (position l) l2, hasDot)).

(** The rune a backslash and [next] stand for. *)
Definition escape (next : Z) : option Z :=
  if next =? rune "\" then Some next
  else if next =? rune "'" then Some next
  else if next =? rune "n" then Some 10
  else if next =? rune "t" then Some 9
  else if next =? rune "r" then Some 13
  else None.

Fixpoint stringLoop (n : nat) (b : text) (l : Lexer) : Lexer * text :=
  match n with
  | O => (l, b)
  | S n =>
      if negb (ch l =? rune "'") && negb (ch l =? 0) then
        match (if ch l =? rune "\" then escape (peekChar l) else None) with
        | Some r => stringLoop n (b ++ [r]) (readChar (readChar l))
        | None => stringLoop n (b ++ [ch l]) (readChar l)
        end
      else (l, b)
  end.

Definition readString (l : Lexer) : Lexer * option text :=
  let '(l, b) := stringLoop (steps l) [] (readChar l) in
  if negb (ch l =? rune "'") then (l, None) else (readChar l, Some b).

(** [None] when the text ends before the closing [$$]. *)
Fixpoint dollarLoop (n : nat) (b : text) (l : Lexer) : Lexer * option text :=
  match n with
  | O => (l, None)
  | S n =>
      if ch l =? 0 then (l, None)
      else if (ch l =? rune "$") && bool_decide (input l !! readPosition l = Some (rune "$")) then (readChar (readChar l), Some b)
      else dollarLoop n (b ++ [ch l]) (readChar l)
  end.

(** [sort.SearchInts]: the first index whose element is not less, of an ascending slice. *)
Fixpoint SearchInts (a : list nat) (x : nat) : nat :=
  match a with [] => O | y :: a => if (x <=? y)%nat then O else S (SearchInts a x) end.

Definition newToken (l : Lexer) (ty : TokenType) (lit : text) (pos : nat) : Token :=
  let pos := Nat.min pos (length (input l)) in
  let idx := SearchInts (newlines l) pos in
  let col := match idx with O => Z.of_nat pos + 1 | S i => Z.of_nat pos - Z.of_nat (default 0%nat (newlines l !! i)) end in
  mkToken ty lit (Z.of_nat idx + 1) col.

(** ** The next token *)

(** A token of one rune. *)
Definition one (ty : TokenType) (start : nat) (l : Lexer) : Lexer * Token :=
  (readChar l, newToken l ty [ch l] start).

(** A token of the rune and the one after it. *)
Definition two (ty : TokenType) (start : nat) (l : Lexer) : Lexer * Token :=
  let l' := readChar l in (readChar l', newToken l' ty [ch l; ch l'] start).

Definition numberToken (start : nat) (l : Lexer) : Lexer * Token :=
  let '(l, (lit, isFloat)) := readNumber l in
  (l, newToken l (if (isFloat : bool) then TOKEN_FLOAT_LIT else TOKEN_INT_LIT) lit start).

(** From the first [$]. *)
Definition dollarToken (start : nat) (l : Lexer) : Lexer * Token :=
  let l := readChar l in
  if ch l =? rune "$" then
    match dollarLoop (steps l) [] (readChar l) with
    | (l, Some b) => (l, newToken l TOKEN_STRING_LIT b start)
    | (l, None) => (l, newToken l TOKEN_ILLEGAL (rs "unterminated dollar-quoted string") start)
    end
  else
    let l' := while isDigit (steps l) l in
    if (position l' =? position l)%nat then (l', newToken l' TOKEN_ILLEGAL (rs "$") start)
    else (l', newToken l' TOKEN_PARAM (since (position l) l') start).

Definition minusToken (start : nat) (l : Lexer) : Lexer * Token :=
  if isDigit (peekChar l) then numberToken start l
  else if peekChar l =? rune ">" then
    let l := readChar l in
    if peekChar l =? rune ">" then
      let l := readChar l in (readChar l, newToken l TOKEN_DBL_ARROW (rs "->>") start)
    else (readChar l, newToken l TOKEN_ARROW (rs "->") start)
  else (readChar l, newToken l TOKEN_MINUS (rs "-") start).

(** The token at the cursor. *)
Definition tokenAt (l : Lexer) : Lexer * Token :=
  let start := position l in
  let c := ch l in
  if c =? 0 then (l, newToken l TOKEN_EOF [] start)
  else if c =? rune "=" then one TOKEN_EQ start l
  else if c =? rune "!" then if peekChar l =? rune "=" then two TOKEN_NEQ start l else one TOKEN_ILLEGAL start l
  else if c =? rune "@" then
    if peekChar l =? rune "@" then two TOKEN_FULLTEXT_MATCH start l
    else if peekChar l =? rune ">" then two TOKEN_JSON_CONTAINS start l
    else one TOKEN_ILLEGAL start l
  else if c =? rune "|" then if peekChar l =? rune "|" then two TOKEN_JSON_MERGE start l else one TOKEN_ILLEGAL start l
  else if c =? rune "," then one TOKEN_COMMA start l
  else if c =? rune "." then one TOKEN_DOT start l
  else if c =? rune "?" then one TOKEN_JSON_HAS_KEY start l
  else if c =? rune ">" then if peekChar l =? rune "=" then two TOKEN_GTE start l else one TOKEN_GT start l
  else if c =? rune "<" then
    if peekChar l =? rune "=" then two TOKEN_LTE start l
    else if peekChar l =? rune "@" then two TOKEN_JSON_CONTAINED_BY start l
    else one TOKEN_LT start l
  else if c =? rune ";" then one TOKEN_SEMICOLON start l
  else if c =? rune "(" then one TOKEN_LPAREN start l
  else if c =? rune ")" then one TOKEN_RPAREN start l
  else if c =? rune "*" then one TOKEN_STAR start l
  else if c =? rune "+" then one TOKEN_PLUS start l
  else if c =? rune "/" then one TOKEN_SLASH start l
  else if c =? rune "$" then dollarToken start l
  else if c =? rune "-" then minusToken start l
  else if c =? rune "'" then
    match readString l with
    | (l, Some lit) => (l, newToken l TOKEN_STRING_LIT lit start)
    | (l, None) => (l, newToken l TOKEN_ILLEGAL (rs "unterminated string literal") start)
    end
  else if isLetter c then let '(l, ident) := readIdentifier l in (l, newToken l (LookupIdent ident) ident start)
  else if isDigit c then numberToken start l
  else one TOKEN_ILLEGAL start l.

Definition NextToken (l : Lexer) : Lexer * Token := tokenAt (skipWhitespace l).

(** The tokens up to the end of the text, or the first illegal one. *)
Fixpoint tokenLoop (n : nat) (tokens : list Token) (l : Lexer) : outcome Token (list Token) :=
  match n with
  | O => Panic
  | S n =>
      let '(l, tok) := NextToken l in
      if tok_eqb (Type_ tok) TOKEN_ILLEGAL then Err tok
      else if tok_eqb (Type_ tok) TOKEN_EOF then Ok (tokens ++ [tok])
      else tokenLoop n (tokens ++ [tok]) l
  end.

(** One token for every rune and the end are enough steps. *)
Definition Tokenize (sql : text) : outcome Token (list Token) := tokenLoop (S (length sql)) [] (New sql).
End Lexer.

(** ** Lines and columns *)

(** Where the rune at [i] is, counted from line 1 and column 1. *)
Definition place (s : text) (i : nat) : Z * Z :=
  foldl (λ '(line, col) r, if r =? 10 then (line + 1, 1) else (line, col + 1)) (1, 1) (take i s).

(** The lexer at a rune. *)
Definition cursor (s : text) (i : nat) : Lexer := mkLexer s i (S i) (default 0 (s !! i)) (buildLineColCache s).

Lemma New_cursor s : New s = cursor s 0.
Proof. done. Qed.

Lemma readChar_cursor s i : readChar (cursor s i) = cursor s (S i).
Proof. done. Qed.

Lemma imap_pair_app {A} (n : nat) (a b : list A) :
  imap (λ i x, ((n + i)%nat, x)) (a ++ b) = imap (λ i x, ((n + i)%nat, x)) a ++ imap (λ i x, ((n + length a + i)%nat, x)) b.
Proof. rewrite imap_app. f_equal. apply imap_ext. intros. cbn. f_equal. lia. Qed.

Lemma cache_snoc a r : buildLineColCache (a ++ [r]) = buildLineColCache a ++ (if r =? 10 then [length a] else []).
Proof.
  unfold buildLineColCache. rewrite (imap_pair_app 0), filter_app, fmap_app. f_equal. cbn. rewrite Nat.add_0_r.
  destruct (Z.eqb_spec r 10) as [->|]; [done|]. by rewrite decide_False.
Qed.

Lemma cache_lt a : Forall (λ i, (i < length a)%nat) (buildLineColCache a).
Proof.
  induction a as [|r a IH] using rev_ind; [constructor|]. rewrite cache_snoc, length_app. apply Forall_app. split.
  - eapply Forall_impl; [exact IH|]. cbn. lia.
  - destruct (r =? 10); repeat constructor. cbn. lia.
Qed.

Lemma cache_app a b : ∃ c, buildLineColCache (a ++ b) = buildLineColCache a ++ c ∧ Forall (λ i, (length a ≤ i)%nat) c.
Proof.
  induction b as [|r b IH] using rev_ind; [exists []; rewrite !app_nil_r; by split|]. destruct IH as (c & E & Hc).
  rewrite app_assoc, cache_snoc, E, <- app_assoc. eexists. split; [done|]. apply Forall_app. split; [done|].
  destruct (r =? 10); repeat constructor. rewrite length_app. lia.
Qed.

Lemma SearchInts_app a b x :
  Forall (λ i, (i < x)%nat) a → Forall (λ i, (x ≤ i)%nat) b → SearchInts (a ++ b) x = length a.
Proof.
  induction 1 as [|y a Hy _ IH]; intros Hb; cbn.
  - destruct Hb as [|y b Hy _]; [done|]. cbn. by rewrite (proj2 (Nat.leb_le x y)).
  - rewrite (proj2 (Nat.leb_gt x y)) by done. by rewrite IH.
Qed.

Lemma place_snoc a r : place (a ++ [r]) (length (a ++ [r])) =
  let '(line, col) := place a (length a) in if r =? 10 then (line + 1, 1) else (line, col + 1).
Proof.
  unfold place. rewrite (take_ge (a ++ [r])), (take_ge a), foldl_app by lia. by destruct (foldl _ _ a).
Qed.

Lemma place_cache a :
  place a (length a) = (Z.of_nat (length (buildLineColCache a)) + 1,
    match last (buildLineColCache a) with None => Z.of_nat (length a) + 1 | Some p => Z.of_nat (length a) - Z.of_nat p end).
Proof.
  induction a as [|r a IH] using rev_ind; [done|]. rewrite place_snoc, IH, cache_snoc, !length_app. cbn [length].
  destruct (r =? 10).
  - rewrite last_snoc. cbn [length]. f_equal; lia.
  - rewrite app_nil_r. cbn [length]. f_equal; [lia|]. destruct (last _); lia.
Qed.

Lemma newToken_place s j ty lit i :
  (i ≤ length s)%nat → newToken (cursor s j) ty lit i = mkToken ty lit (fst (place s i)) (snd (place s i)).
Proof.
  intros Hi. unfold newToken. cbn [input newlines cursor]. rewrite Nat.min_l by done.
  assert (place s i = place (take i s) (length (take i s))) as -> by (unfold place; by rewrite take_take, length_take, !Nat.min_l by lia).
  rewrite place_cache. destruct (cache_app (take i s) (drop i s)) as (c & E & Hc). rewrite take_drop in E. rewrite E.
  rewrite length_take, Nat.min_l in * by done. pose proof (cache_lt (take i s)) as Hlt. rewrite length_take, Nat.min_l in Hlt by done.
  rewrite (SearchInts_app _ _ _ Hlt Hc). cbn [fst snd]. f_equal.
  destruct (buildLineColCache (take i s)) as [|x l] using rev_ind; [done|]. rewrite last_snoc, length_app, Nat.add_1_r. cbn [length].
  rewrite lookup_app_l by (rewrite length_app; cbn; lia). by rewrite list_lookup_middle.
Qed.

(** ** Words

    What a token looks like in a text, and what may stand right after it. *)

Inductive word : Type :=
  | WName (s : text)
  | WInt (neg : bool) (digits : text)
  | WFloat (neg : bool) (whole frac : text)
  | WString (s : text)
  | WParam (digits : text)
  | WSymbol (t : TokenType).

(** The symbols of the language. *)
Definition symbol (t : TokenType) : option text :=
  rs <$> match t with
  | TOKEN_EQ => Some "=" | TOKEN_NEQ => Some "!=" | TOKEN_LT => Some "<" | TOKEN_GT => Some ">" | TOKEN_LTE => Some "<="
  | TOKEN_GTE => Some ">=" | TOKEN_COMMA => Some "," | TOKEN_DOT => Some "." | TOKEN_ARROW => Some "->" | TOKEN_DBL_ARROW => Some "->>"
  | TOKEN_SEMICOLON => Some ";" | TOKEN_LPAREN => Some "(" | TOKEN_RPAREN => Some ")" | TOKEN_STAR => Some "*" | TOKEN_MINUS => Some "-"
  | TOKEN_PLUS => Some "+" | TOKEN_SLASH => Some "/" | TOKEN_JSON_CONTAINS => Some "@>" | TOKEN_JSON_CONTAINED_BY => Some "<@"
  | TOKEN_JSON_HAS_KEY => Some "?" | TOKEN_JSON_MERGE => Some "||" | TOKEN_FULLTEXT_MATCH => Some "@@"
  | _ => None
  end.

Definition sign (neg : bool) : text := if neg then rs "-" else [].

(** A quote and a backslash are written with a backslash before them. *)
Definition quoted (s : text) : text := s ≫= λ r, if (r =? rune "'") || (r =? rune "\") then [rune "\"; r] else [r].

Definition source (w : word) : text :=
  match w with
  | WName s => s
  | WInt neg digits => sign neg ++ digits
  | WFloat neg whole frac => sign neg ++ whole ++ rs "." ++ frac
  | WString s => rs "'" ++ quoted s ++ rs "'"
  | WParam digits => rs "$" ++ digits
  | WSymbol t => default [] (symbol t)
  end.

Section Words.
Context (letterBeyond : Z → bool) (upperBeyond : Z → Z).
Abbreviation letter := (isLetter letterBeyond).
Abbreviation next_token := (NextToken letterBeyond upperBeyond).
Abbreviation tokenize := (Tokenize letterBeyond upperBeyond).

Definition tokenOf (w : word) : TokenType * text :=
  match w with
  | WName s => (LookupIdent upperBeyond s, s)
  | WInt neg digits => (TOKEN_INT_LIT, sign neg ++ digits)
  | WFloat neg whole frac => (TOKEN_FLOAT_LIT, sign neg ++ whole ++ rs "." ++ frac)
  | WString s => (TOKEN_STRING_LIT, s)
  | WParam digits => (TOKEN_PARAM, digits)
  | WSymbol t => (t, default [] (symbol t))
  end.

Definition wordOk (w : word) : bool :=
  match w with
  | WName s => match s with r :: _ => letter r && negb (IsSpace r) | [] => false end && forallb (λ r, letter r || isDigit r) s
  | WInt _ digits | WParam digits => negb (bool_decide (digits = [])) && forallb isDigit digits
  | WFloat _ whole frac => negb (bool_decide (whole = [])) && forallb isDigit whole && forallb isDigit frac
  | WString s => forallb (λ r, negb (r =? 0)) s
  | WSymbol t => match symbol t with Some _ => true | None => false end
  end.

(** Whether the word ends before the rune [c], or before the end of the text when [c] is 0. *)
Definition endsBefore (w : word) (c : Z) : bool :=
  match w with
  | WName _ => negb (letter c || isDigit c)
  | WInt _ _ => negb (isDigit c || (c =? rune "."))
  | WFloat _ _ _ | WParam _ => negb (isDigit c)
  | WString _ => true
  | WSymbol TOKEN_GT => negb (c =? rune "=")
  | WSymbol TOKEN_LT => negb (c =? rune "=") && negb (c =? rune "@")
  | WSymbol TOKEN_MINUS => negb (isDigit c) && negb (c =? rune ">")
  | WSymbol TOKEN_ARROW => negb (c =? rune ">")
  | WSymbol _ => true
  end.

Definition next (r : text) : Z := default 0 (head r).

Lemma cursor_ch s i r : drop i s = r → ch (cursor s i) = next r.
Proof. intros <-. cbn. unfold next. by rewrite head_lookup, lookup_drop, Nat.add_0_r. Qed.

Lemma cursor_peek s i c r : drop i s = c :: r → peekChar (cursor s i) = next r.
Proof.
  intros E. unfold peekChar, next. cbn. rewrite head_lookup.
  assert (drop (S i) s = r) as <- by (rewrite <- (Nat.add_1_r i), <- drop_drop, E; done). by rewrite lookup_drop, Nat.add_0_r.
Qed.

Lemma drop_app_at {A} (s : list A) i a b : drop i s = a ++ b → drop (i + length a) s = b.
Proof. intros E. by rewrite <- drop_drop, E, drop_app_length. Qed.

Lemma drop_cons_at {A} (s : list A) i c b : drop i s = c :: b → drop (S i) s = b.
Proof. intros E. rewrite <- Nat.add_1_r. by apply (drop_app_at s i [c]). Qed.

Lemma drop_lt {A} (s : list A) i a b : drop i s = a ++ b → (i + length a ≤ length s)%nat ∨ a = [].
Proof.
  intros E. destruct a as [|c a]; [by right|left]. apply (f_equal length) in E. rewrite length_drop, length_app in E. cbn in *. lia.
Qed.

Lemma while_spec p n s i w r :
  drop i s = w ++ r → Forall (λ c, p c = true) w → p (next r) = false → (length w < n)%nat →
  while p n (cursor s i) = cursor s (i + length w).
Proof.
  revert i n. induction w as [|c w IH]; intros i [|n] E Hw Hr Hn; cbn [length] in Hn; try lia; cbn [while].
  - rewrite (cursor_ch s i r E), Hr. by rewrite Nat.add_0_r.
  - apply Forall_cons in Hw as [Hc Hw]. rewrite (cursor_ch s i (c :: w ++ r) E). cbn [next head default]. unfold next. cbn. rewrite Hc.
    rewrite readChar_cursor, (IH (S i) n) by (done || lia || by eapply drop_cons_at). cbn. f_equal. lia.
Qed.

Lemma since_cursor s i w r : drop i s = w ++ r → since i (cursor s (i + length w)) = w.
Proof. intros E. unfold since. cbn [position input cursor]. rewrite E. rewrite Nat.add_comm, Nat.add_sub. by rewrite take_app_length. Qed.

Lemma steps_enough s i (w r : text) : drop i s = w ++ r → (length w < steps (cursor s i))%nat.
Proof. intros E. unfold steps. cbn [input cursor]. apply (f_equal length) in E. rewrite length_drop, length_app in E. lia. Qed.

Lemma skip_spec s i ws r :
  drop i s = ws ++ r → Forall (λ c, IsSpace c = true) ws → IsSpace (next r) = false → skipWhitespace (cursor s i) = cursor s (i + length ws).
Proof. intros E Hw Hr. eapply while_spec; [done..|]. by eapply steps_enough. Qed.

Lemma numberLoop_digits s i ds r n hasDot :
  drop i s = ds ++ r → Forall (λ c, isDigit c = true) ds → (length ds ≤ n)%nat →
  numberLoop n hasDot (cursor s i) = numberLoop (n - length ds) hasDot (cursor s (i + length ds)).
Proof.
  revert i n. induction ds as [|c ds IH]; intros i n E Hd Hn; cbn [length] in *; [by rewrite Nat.sub_0_r, Nat.add_0_r|].
  destruct n as [|n]; [lia|]. apply Forall_cons in Hd as [Hc Hd]. cbn [numberLoop]. rewrite (cursor_ch s i _ E). change (next _) with c.
  rewrite Hc. cbn [orb]. assert ((c =? rune ".") = false) as -> by (apply Z.eqb_neq; by intros ->).
  rewrite orb_false_r, readChar_cursor, (IH (S i) n) by (done || lia || by eapply drop_cons_at). do 2 f_equal; lia.
Qed.

Lemma numberLoop_int s i ds r n :
  drop i s = ds ++ r → Forall (λ c, isDigit c = true) ds → isDigit (next r) || (next r =? rune ".") = false → (length ds < n)%nat →
  numberLoop n false (cursor s i) = (cursor s (i + length ds), false).
Proof.
  intros E Hd Hr Hn. rewrite (numberLoop_digits s i ds r) by (done || lia). destruct (n - length ds)%nat as [|m] eqn:Em; [lia|].
  cbn [numberLoop]. rewrite (cursor_ch s _ r) by (by eapply drop_app_at). cbn [negb andb]. by rewrite Hr.
Qed.

Lemma numberLoop_float s i whole frac r n :
  drop i s = whole ++ rs "." ++ frac ++ r → Forall (λ c, isDigit c = true) whole → Forall (λ c, isDigit c = true) frac →
  isDigit (next r) = false → (length whole + length frac + 1 < n)%nat →
  numberLoop n false (cursor s i) = (cursor s (i + length whole + 1 + length frac), true).
Proof.
  intros E Hw Hf Hr Hn. rewrite (numberLoop_digits s i whole _) by (done || lia). apply drop_app_at in E.
  destruct (n - length whole)%nat as [|m] eqn:Em; [lia|]. cbn [numberLoop]. rewrite (cursor_ch s _ _ E). change (next _) with (rune ".").
  change (isDigit (rune ".")) with false. rewrite Z.eqb_refl. cbn [negb andb orb]. rewrite readChar_cursor.
  assert (drop (S (i + length whole)) s = frac ++ r) as E' by exact (drop_cons_at _ _ _ _ E).
  rewrite (numberLoop_digits s _ frac r) by (done || lia). destruct (m - length frac)%nat as [|k] eqn:Ek; [lia|].
  cbn [numberLoop]. rewrite (cursor_ch s _ r) by (by eapply drop_app_at). rewrite Hr. cbn [negb andb orb]. by rewrite Nat.add_1_r.
Qed.

Lemma stringLoop_spec s i t r n b :
  drop i s = quoted t ++ rs "'" ++ r → Forall (λ c, (c =? 0) = false) t → (length (quoted t) < n)%nat →
  stringLoop n b (cursor s i) = (cursor s (i + length (quoted t)), b ++ t).
Proof.
  revert i n b. induction t as [|c t IH]; intros i [|n] b E Ht Hn; try lia.
  { cbn [stringLoop]. rewrite (cursor_ch s i _ E). change (next _) with (rune "'"). by rewrite Nat.add_0_r, app_nil_r. }
  apply Forall_cons in Ht as [Hc Ht]. unfold quoted in E, Hn |- *. rewrite bind_cons in *. fold (quoted t) in *. cbn [stringLoop].
  rewrite <- app_assoc in E. destruct ((c =? rune "'") || (c =? rune "\")) eqn:Eq; cbn [app length] in *.
  - rewrite (cursor_ch s i _ E), (cursor_peek s i _ _ E). change (next (rune "\" :: _)) with (rune "\"). change (next (c :: _)) with c.
    change (rune "\" =? rune "'") with false. change (rune "\" =? 0) with false. rewrite Z.eqb_refl. cbn [negb andb].
    assert (escape c = Some c) as ->.
    { apply orb_true_iff in Eq as [->%Z.eqb_eq| ->%Z.eqb_eq]; reflexivity. }
    rewrite !readChar_cursor, (IH (S (S i)) n) by (done || lia || by do 2 eapply drop_cons_at). rewrite <- app_assoc. f_equal. f_equal. lia.
  - apply orb_false_iff in Eq as [E1 E2]. rewrite (cursor_ch s i _ E). change (next (c :: _)) with c. rewrite E1, E2, Hc. cbn [negb andb].
    rewrite readChar_cursor, (IH (S i) n) by (done || lia || by eapply drop_cons_at). rewrite <- app_assoc. f_equal. f_equal. lia.
Qed.

Lemma ne_of (p : Z → bool) c k : p c = true → p k = false → (c =? k) = false.
Proof. intros H1 H2. apply Z.eqb_neq. congruence. Qed.

Lemma forallb_Forall' {A} (p : A → bool) l : forallb p l = true → Forall (λ x, p x = true) l.
Proof. intros H. apply Forall_forall. intros x Hx. eapply forallb_forall; [exact H|]. by apply list_elem_of_In. Qed.

(** A rune of the class [p] is none of the runes outside of it. *)
Tactic Notation "others" constr(p) constr(c) constr(Hc) := repeat match goal with |- context [c =? ?k] => rewrite (ne_of p c k Hc eq_refl) end.

(** Comparisons of known runes. *)
Ltac runes :=
  repeat match goal with
  | |- context [?a =? ?b] =>
      let v := eval vm_compute in (a =? b) in
      match v with true => change (a =? b) with true | false => change (a =? b) with false end
  end; cbv beta iota.

(** The word at the cursor, with the place where it starts. *)
Definition readsWord (s : text) (i : nat) (w : word) : Prop :=
  tokenAt letterBeyond upperBeyond (cursor s i) =
  (cursor s (i + length (source w)), mkToken (fst (tokenOf w)) (snd (tokenOf w)) (fst (place s i)) (snd (place s i))).

Lemma drop_le {A} (s : list A) i c r : drop i s = c :: r → (i ≤ length s)%nat.
Proof. intros E. apply (f_equal length) in E. rewrite length_drop in E. cbn in E. lia. Qed.

Lemma drop_le_ne {A} (s : list A) i l : drop i s = l → l ≠ [] → (i ≤ length s)%nat.
Proof. intros <- Hne. destruct (decide (i ≤ length s)%nat); [done|]. by rewrite drop_ge in Hne by lia. Qed.

Lemma reads_name s i t r :
  wordOk (WName t) = true → drop i s = t ++ r → endsBefore (WName t) (next r) = true → readsWord s i (WName t).
Proof.
  intros Hok E Hend. cbn in Hok, Hend. destruct t as [|c t]; [done|]. apply andb_true_iff in Hok as [[Hc _]%andb_true_iff Hall].
  unfold readsWord, tokenAt. rewrite (cursor_ch s i _ E). change (next ((c :: t) ++ r)) with c.
  others letter c Hc. rewrite Hc. unfold readIdentifier.
  rewrite (while_spec _ _ s i (c :: t) r E) by (done || by apply forallb_Forall' || by eapply steps_enough || by apply negb_true_iff).
  cbn [position cursor]. rewrite (since_cursor s i _ r E), newToken_place by (by eapply drop_le). done.
Qed.

Lemma numberToken_int s i (neg : bool) ds r :
  drop i s = sign neg ++ ds ++ r → ds ≠ [] → Forall (λ c, isDigit c = true) ds → isDigit (next r) || (next r =? rune ".") = false →
  numberToken i (cursor s i) = (cursor s (i + length (sign neg ++ ds)), newToken (cursor s (i + length (sign neg ++ ds))) TOKEN_INT_LIT (sign neg ++ ds) i).
Proof.
  intros E Hne Hd Hr. unfold numberToken, readNumber. rewrite (cursor_ch s i _ E). rewrite app_assoc in E.
  assert ((if next (sign neg ++ ds ++ r) =? rune "-" then readChar (cursor s i) else cursor s i) = cursor s (i + length (sign neg))) as ->.
  { destruct neg; [by rewrite Nat.add_1_r|]. destruct ds as [|d ds]; [done|]. apply Forall_cons in Hd as [Hd _].
    change (next _) with d. others isDigit d Hd. cbn. by rewrite Nat.add_0_r. }
  pose proof (steps_enough _ _ _ _ E) as Hs. rewrite length_app in *. cbn [position cursor].
  rewrite <- app_assoc in E. rewrite (numberLoop_int s _ ds r) by (done || lia || by eapply drop_app_at). rewrite <- Nat.add_assoc, <- length_app.
  rewrite app_assoc in E. by rewrite (since_cursor s i _ r E).
Qed.

Lemma numberToken_float s i (neg : bool) whole frac r :
  let lit := sign neg ++ whole ++ rs "." ++ frac in
  drop i s = lit ++ r → whole ≠ [] → Forall (λ c, isDigit c = true) whole → Forall (λ c, isDigit c = true) frac → isDigit (next r) = false →
  numberToken i (cursor s i) = (cursor s (i + length lit), newToken (cursor s (i + length lit)) TOKEN_FLOAT_LIT lit i).
Proof.
  intros lit E Hne Hw Hf Hr. unfold numberToken, readNumber. rewrite (cursor_ch s i _ E).
  assert ((if next (lit ++ r) =? rune "-" then readChar (cursor s i) else cursor s i) = cursor s (i + length (sign neg))) as ->.
  { unfold lit. destruct neg; [by rewrite Nat.add_1_r|]. destruct whole as [|d ds]; [done|]. apply Forall_cons in Hw as [Hd _].
    change (next _) with d. others isDigit d Hd. cbn. by rewrite Nat.add_0_r. }
  pose proof (steps_enough _ _ _ _ E) as Hs. cbn [position cursor].
  assert (length lit = length (sign neg) + (length whole + (1 + length frac)))%nat as Hl by (unfold lit; by rewrite !length_app).
  rewrite (numberLoop_float s _ whole frac r); [|unfold lit in E; rewrite <- !app_assoc in E; by eapply drop_app_at|done..|lia].
  replace (i + length (sign neg) + length whole + 1 + length frac)%nat with (i + length lit)%nat by lia.
  by rewrite (since_cursor s i _ r E).
Qed.

Lemma bool_decide_nil (l : text) : negb (bool_decide (l = [])) = true → l ≠ [].
Proof. intros H ->. done. Qed.

(** A number starts with a digit, or with a minus and a digit. *)
Lemma tokenAt_number s i (neg : bool) d r :
  drop i s = sign neg ++ d :: r → isDigit d = true → tokenAt letterBeyond upperBeyond (cursor s i) = numberToken i (cursor s i).
Proof.
  intros E Hd. unfold tokenAt. rewrite (cursor_ch s i _ E). destruct neg.
  - change (next _) with (rune "-"). runes. unfold minusToken. rewrite (cursor_peek s i _ _ E). change (next _) with d. by rewrite Hd.
  - change (next _) with d. others isDigit d Hd. rewrite Hd. destruct (letter d) eqn:El; [|done].
    exfalso. unfold isDigit in Hd. apply andb_true_iff in Hd as [H1%Z.leb_le H2%Z.leb_le].
    assert (d = 48 ∨ d = 49 ∨ d = 50 ∨ d = 51 ∨ d = 52 ∨ d = 53 ∨ d = 54 ∨ d = 55 ∨ d = 56 ∨ d = 57) as Hd by lia.
    by destruct_or! Hd; subst d.
Qed.

Lemma reads_int s i neg ds r :
  wordOk (WInt neg ds) = true → drop i s = source (WInt neg ds) ++ r → endsBefore (WInt neg ds) (next r) = true → readsWord s i (WInt neg ds).
Proof.
  intros Hok E Hend. cbn [wordOk source endsBefore] in *. apply andb_true_iff in Hok as [Hne%bool_decide_nil Hd%forallb_Forall'].
  apply negb_true_iff in Hend. unfold readsWord. rewrite <- app_assoc in E. destruct ds as [|d ds]; [done|].
  rewrite (tokenAt_number s i neg d (ds ++ r) E) by (by apply Forall_cons in Hd as [? _]).
  rewrite (numberToken_int s i neg (d :: ds) r) by done. rewrite newToken_place; [done|]. eapply drop_le_ne; [exact E|]. by destruct neg.
Qed.

Lemma reads_float s i neg whole frac r :
  let w := WFloat neg whole frac in
  wordOk w = true → drop i s = source w ++ r → endsBefore w (next r) = true → readsWord s i w.
Proof.
  intros w Hok E Hend. cbn [w wordOk source endsBefore] in *. apply andb_true_iff in Hok as [[Hne%bool_decide_nil Hw%forallb_Forall']%andb_true_iff Hf%forallb_Forall'].
  apply negb_true_iff in Hend. unfold readsWord. pose proof E as E'. rewrite <- !app_assoc in E'. destruct whole as [|d ds]; [done|].
  rewrite (tokenAt_number s i neg d _ E') by (by apply Forall_cons in Hw as [? _]).
  rewrite (numberToken_float s i neg (d :: ds) frac r) by done. rewrite newToken_place; [done|]. eapply drop_le_ne; [exact E|]. by destruct neg.
Qed.

Lemma reads_string s i t r : wordOk (WString t) = true → drop i s = source (WString t) ++ r → readsWord s i (WString t).
Proof.
  intros Hok E. cbn [wordOk source] in *. rewrite <- !app_assoc in E. unfold readsWord, tokenAt. rewrite (cursor_ch s i _ E).
  change (next _) with (rune "'"). runes. unfold readString. rewrite readChar_cursor.
  assert (drop (S i) s = quoted t ++ rs "'" ++ r) as E1 by exact (drop_cons_at _ _ _ _ E).
  rewrite (stringLoop_spec s (S i) t r); [|done| |].
  - rewrite (cursor_ch s _ _ (drop_app_at _ _ _ _ E1)). change (next _) with (rune "'"). rewrite Z.eqb_refl. cbn [negb position cursor].
    rewrite readChar_cursor, newToken_place by (by eapply drop_le_ne). cbn [tokenOf fst snd source]. rewrite !length_app.
    do 2 f_equal. cbn. lia.
  - eapply Forall_impl; [by apply forallb_Forall'|]. intros c. by intros ?%negb_true_iff.
  - by eapply (steps_enough s (S i)).
Qed.

Lemma reads_param s i ds r :
  wordOk (WParam ds) = true → drop i s = source (WParam ds) ++ r → endsBefore (WParam ds) (next r) = true → readsWord s i (WParam ds).
Proof.
  intros Hok E Hend. cbn [wordOk source endsBefore] in *. apply andb_true_iff in Hok as [Hne%bool_decide_nil Hd%forallb_Forall'].
  apply negb_true_iff in Hend. rewrite <- app_assoc in E. unfold readsWord, tokenAt. rewrite (cursor_ch s i _ E).
  change (next _) with (rune "$"). runes. unfold dollarToken. rewrite readChar_cursor.
  assert (drop (S i) s = ds ++ r) as E1 by exact (drop_cons_at _ _ _ _ E). rewrite (cursor_ch s _ _ E1).
  assert ((next (ds ++ r) =? rune "$") = false) as ->.
  { destruct ds as [|d ds]; [done|]. apply Forall_cons in Hd as [Hd _]. change (next _) with d. by others isDigit d Hd. }
  rewrite (while_spec _ _ s (S i) ds r) by (done || by eapply steps_enough). cbn [position cursor].
  rewrite (proj2 (Nat.eqb_neq _ _)) by (destruct ds; [done|cbn [length]; lia]).
  rewrite (since_cursor s (S i) ds r E1), newToken_place by (by eapply drop_le_ne). cbn. by rewrite Nat.add_succ_r.
Qed.

(** The rune at the cursor and the ones after it, as far as they are known. *)
Ltac knownRunes E :=
  rewrite ?readChar_cursor; cbn [position cursor];
  match type of E with
  | drop ?i ?s = ?c :: ?q =>
      rewrite ?(cursor_ch s i _ E), ?(cursor_peek s i _ _ E); change (next (c :: q)) with c;
      try match q with
          | ?c' :: ?q' =>
              change (next (c' :: q')) with c';
              let E' := fresh in pose proof (drop_cons_at s i c q E) as E'; knownRunes E'
          end
  end; runes; repeat match goal with |- context [isDigit (Zpos ?p)] => change (isDigit (Zpos p)) with false end; cbv beta iota.

(** The rune after a symbol is none that would make it longer. *)
Ltac known_next H :=
  repeat match type of H with
  | _ && _ = true => let H' := fresh in apply andb_true_iff in H as [H' H]; apply negb_true_iff in H'; rewrite ?H'
  | negb _ = true => apply negb_true_iff in H; rewrite ?H
  end; cbv beta iota.

Lemma reads_symbol s i t r :
  wordOk (WSymbol t) = true → drop i s = source (WSymbol t) ++ r → endsBefore (WSymbol t) (next r) = true → readsWord s i (WSymbol t).
Proof.
  intros Hok E Hend. assert (i ≤ length s)%nat as Hi by (eapply drop_le_ne; [exact E|]; by destruct t).
  unfold readsWord. destruct t; try discriminate Hok; clear Hok; cbn [endsBefore] in Hend;
    match type of E with _ = ?a ++ _ => let a := eval vm_compute in a in change (drop i s = a ++ r) in E end; cbn [app] in E;
    unfold tokenAt, one, two, minusToken; knownRunes E; try known_next Hend; runes;
    rewrite newToken_place by done; cbn; rewrite ?Nat.add_succ_r, ?Nat.add_0_r; reflexivity.
Qed.

Lemma reads_word s i w r :
  wordOk w = true → drop i s = source w ++ r → endsBefore w (next r) = true → readsWord s i w.
Proof.
  destruct w; [apply reads_name|apply reads_int|apply reads_float|intros ? ? _; by eapply reads_string|apply reads_param|apply reads_symbol].
Qed.

Lemma word_starts w r : wordOk w = true → IsSpace (next (source w ++ r)) = false ∧ (0 < length (source w))%nat.
Proof.
  assert (∀ d, isDigit d = true → IsSpace d = false) as Hdig.
  { intros d [H1%Z.leb_le H2%Z.leb_le]%andb_true_iff.
    assert (d = 48 ∨ d = 49 ∨ d = 50 ∨ d = 51 ∨ d = 52 ∨ d = 53 ∨ d = 54 ∨ d = 55 ∨ d = 56 ∨ d = 57) as Hd by lia.
    by destruct_or! Hd; subst d. }
  destruct w as [t|neg ds|neg whole frac|t|ds|t]; cbn [wordOk source]; intros Hok.
  - destruct t as [|c t]; [done|]. apply andb_true_iff in Hok as [[_ Hc%negb_true_iff]%andb_true_iff _]. split; [done|cbn; lia].
  - apply andb_true_iff in Hok as [Hne%bool_decide_nil Hd%forallb_Forall']. destruct ds as [|d ds]; [done|]. apply Forall_cons in Hd as [Hd _].
    destruct neg; [split; [done|cbn; lia]|]. split; [by apply (Hdig d)|cbn; lia].
  - apply andb_true_iff in Hok as [[Hne%bool_decide_nil Hd%forallb_Forall']%andb_true_iff _]. destruct whole as [|d ds]; [done|].
    apply Forall_cons in Hd as [Hd _]. destruct neg; [split; [done|cbn; lia]|]. split; [by apply (Hdig d)|cbn; lia].
  - split; [done|cbn; lia].
  - split; [done|cbn; lia].
  - destruct t; try discriminate Hok; split; (done || cbn; lia).
Qed.

Lemma keyword_known k : code (LookupIdent upperBeyond k) ≠ code TOKEN_ILLEGAL ∧ code (LookupIdent upperBeyond k) ≠ code TOKEN_EOF.
Proof.
  unfold LookupIdent, assoc. destruct (find _ keywords) as [[k' t]|] eqn:E; [|done]. apply find_some in E as [Hin _].
  assert (forallb (λ e, negb (tok_eqb (snd e) TOKEN_ILLEGAL) && negb (tok_eqb (snd e) TOKEN_EOF)) keywords = true) as Hall by (by vm_compute).
  apply (proj1 (forallb_forall _ _) Hall) in Hin. apply andb_true_iff in Hin as [H1%negb_true_iff H2%negb_true_iff]. cbn in *.
  unfold tok_eqb in *. apply Z.eqb_neq in H1, H2. done.
Qed.

Lemma word_known w : wordOk w = true → tok_eqb (fst (tokenOf w)) TOKEN_ILLEGAL = false ∧ tok_eqb (fst (tokenOf w)) TOKEN_EOF = false.
Proof.
  destruct w as [t| | | | |t]; try done; intros Hok; cbn [tokenOf fst].
  - unfold tok_eqb. split; apply Z.eqb_neq; apply keyword_known.
  - by destruct t.
Qed.

(** *** Texts *)

(** Words with the space before each of them, and space at the end. *)
Fixpoint render (ps : list (text * word)) (tail : text) : text :=
  match ps with [] => tail | (ws, w) :: ps => ws ++ source w ++ render ps tail end.

(** The words can be told apart. *)
Fixpoint spaced (ps : list (text * word)) (tail : text) : bool :=
  match ps with
  | [] => forallb IsSpace tail
  | (ws, w) :: ps => forallb IsSpace ws && wordOk w && endsBefore w (next (render ps tail)) && spaced ps tail
  end.

(** Their tokens, from rune [i] of the text [s] on. *)
Fixpoint tokensOf (s : text) (i : nat) (ps : list (text * word)) : list Token :=
  match ps with
  | [] => []
  | (ws, w) :: ps =>
      let j := (i + length ws)%nat in
      mkToken (fst (tokenOf w)) (snd (tokenOf w)) (fst (place s j)) (snd (place s j)) :: tokensOf s (j + length (source w)) ps
  end.

Lemma NextToken_end s i tail :
  drop i s = tail → forallb IsSpace tail = true → (i ≤ length s)%nat →
  next_token (cursor s i) = (cursor s (length s), mkToken TOKEN_EOF [] (fst (place s (length s))) (snd (place s (length s)))).
Proof.
  intros E Ht%forallb_Forall' Hi. unfold Lexer.NextToken. assert (drop i s = tail ++ []) as E' by (by rewrite app_nil_r).
  rewrite (skip_spec s i tail []) by done. assert (i + length tail = length s)%nat as -> by (rewrite <- E, length_drop; lia).
  unfold tokenAt. rewrite (cursor_ch s _ [] (drop_all s)). change (next []) with 0. cbn [Z.eqb position cursor]. by rewrite newToken_place.
Qed.

Lemma tokenLoop_render s i ps tail n tokens :
  drop i s = render ps tail → (i ≤ length s)%nat → spaced ps tail = true → (length ps < n)%nat →
  tokenLoop letterBeyond upperBeyond n tokens (cursor s i) =
  Ok (tokens ++ tokensOf s i ps ++ [mkToken TOKEN_EOF [] (fst (place s (length s))) (snd (place s (length s)))]).
Proof.
  revert i n tokens. induction ps as [|[ws w] ps IH]; intros i [|n] tokens E Hi Hs Hn; cbn [length] in Hn; try lia; cbn [tokenLoop].
  { by rewrite (NextToken_end s i tail). }
  cbn [spaced] in Hs. apply andb_true_iff in Hs as [[[Hws%forallb_Forall' Hok]%andb_true_iff Hend]%andb_true_iff Hs].
  cbn [render] in E. destruct (word_starts w (render ps tail) Hok) as [Hsp Hlen]. unfold Lexer.NextToken.
  rewrite (skip_spec s i ws _ E Hws Hsp). apply drop_app_at in E. rewrite (reads_word s _ w _ Hok E Hend).
  destruct (word_known w Hok) as [H1 H2]. cbn [Type_]. rewrite H1, H2. pose proof (drop_le_ne _ _ _ E) as Hj.
  rewrite IH; [|by eapply drop_app_at| |done|lia].
  - cbn [tokensOf]. by rewrite <- app_assoc.
  - apply (f_equal length) in E. rewrite length_drop, length_app in E. lia.
Qed.

(** A rune for each word at least. *)
Lemma render_length ps tail : spaced ps tail = true → (length ps < S (length (render ps tail)))%nat.
Proof.
  intros Hs. induction ps as [|[ws w] ps IH]; cbn [length render spaced] in *; [lia|].
  apply andb_true_iff in Hs as [[[_ Hok]%andb_true_iff _]%andb_true_iff Hs]. specialize (IH Hs).
  destruct (word_starts w [] Hok) as [_ Hlen]. rewrite !length_app. lia.
Qed.

(** C24: the lexer reads back what is written. Words with white space between them, every one of which ends before what follows it,
    are lexed to their tokens, in order: names, keywords in any case, numbers, quoted strings with their escapes, parameters and symbols,
    each with the line and the column where it starts, and the end of the text after them. *)
Theorem Tokenize_render ps tail :
  spaced ps tail = true →
  let s := render ps tail in
  tokenize s = Ok (tokensOf s 0 ps ++ [mkToken TOKEN_EOF [] (fst (place s (length s))) (snd (place s (length s)))]).
Proof.
  intros Hs s. unfold Lexer.Tokenize. rewrite New_cursor. apply (tokenLoop_render s 0 ps tail); [done|lia|done|]. by apply render_length.
Qed.

(** *** Every text *)

Lemma cursor_end s i : (length s ≤ i)%nat → ch (cursor s i) = 0.
Proof. intros Hi. cbn. by rewrite lookup_ge_None_2. Qed.

Lemma cursor_inside s i : ch (cursor s i) ≠ 0 → (i < length s)%nat.
Proof. intros Hc. destruct (decide (i < length s)%nat); [done|]. by rewrite cursor_end in Hc by lia. Qed.

Lemma while_moves p n s i :
  p 0 = false → (i ≤ length s)%nat → ∃ j, while p n (cursor s i) = cursor s j ∧ (i ≤ j ≤ length s)%nat ∧ (p (ch (cursor s i)) = true → (0 < n)%nat → (i < j)%nat).
Proof.
  intros Hp. revert i. induction n as [|n IH]; intros i Hi; cbn [while]; [exists i; split_and!; [done|lia..]|].
  destruct (p (ch (cursor s i))) eqn:E; [|exists i; split_and!; [done|lia|lia|done]].
  assert (i < length s)%nat as Hlt by (apply cursor_inside; by intros Hz; rewrite Hz, Hp in E).
  rewrite readChar_cursor. destruct (IH (S i)) as (j & Ej & Hj & _); [lia|]. exists j. split_and!; [done|lia..].
Qed.

Lemma numberLoop_moves n hasDot s i :
  (i ≤ length s)%nat → ∃ j b, numberLoop n hasDot (cursor s i) = (cursor s j, b) ∧ (i ≤ j ≤ length s)%nat ∧
    (isDigit (ch (cursor s i)) = true → (0 < n)%nat → (i < j)%nat).
Proof.
  revert i hasDot. induction n as [|n IH]; intros i hasDot Hi; cbn [numberLoop]; [exists i, hasDot; split_and!; [done|lia..]|].
  destruct (isDigit (ch (cursor s i)) || _) eqn:E.
  - assert (i < length s)%nat as Hlt by (apply cursor_inside; intros Hz; rewrite Hz in E; by destruct hasDot).
    rewrite readChar_cursor. destruct (IH (S i) (hasDot || (ch (cursor s i) =? rune "."))) as (j & b & Ej & Hj & _); [lia|].
    exists j, b. split_and!; [done|lia..].
  - apply orb_false_iff in E as [E _]. exists i, hasDot. split_and!; [done|lia|lia|congruence].
Qed.

Lemma stringLoop_moves n b s i :
  ∃ j t, stringLoop n b (cursor s i) = (cursor s j, t) ∧ (i ≤ j)%nat.
Proof.
  revert i b. induction n as [|n IH]; intros i b; cbn [stringLoop]; [by exists i, b|].
  destruct (negb (ch (cursor s i) =? rune "'") && _); [|by exists i, b].
  destruct (if _ =? _ then _ else _) as [r|]; rewrite ?readChar_cursor.
  - destruct (IH (S (S i)) (b ++ [r])) as (j & t & E & Hj). exists j, t. split; [exact E|lia].
  - destruct (IH (S i) (b ++ [ch (cursor s i)])) as (j & t & E & Hj). exists j, t. split; [exact E|lia].
Qed.

Lemma dollarLoop_moves n b s i :
  ∃ j o, dollarLoop n b (cursor s i) = (cursor s j, o) ∧ (i ≤ j)%nat ∧ (is_Some o → (j ≤ length s)%nat).
Proof.
  revert i b. induction n as [|n IH]; intros i b; cbn [dollarLoop]; [exists i, None; split_and!; [done|lia|by intros []]|].
  destruct (ch (cursor s i) =? 0); [exists i, None; split_and!; [done|lia|by intros []]|].
  destruct ((ch (cursor s i) =? rune "$") && _) eqn:E; rewrite ?readChar_cursor.
  - apply andb_true_iff in E as [_ E%bool_decide_eq_true]. cbn in E. apply lookup_lt_Some in E.
    exists (S (S i)), (Some b). split_and!; [done|lia|lia].
  - destruct (IH (S i) (b ++ [ch (cursor s i)])) as (j & o & Eo & Hj & Ho). exists j, o. split_and!; [exact Eo|lia|done].
Qed.

(** A token that ends the loop, or progress inside the text. *)
Definition moves (s : text) (i : nat) (r : Lexer * Token) : Prop :=
  ∃ j tok, r = (cursor s j, tok) ∧
    (tok_eqb (Type_ tok) TOKEN_ILLEGAL = true ∨ tok_eqb (Type_ tok) TOKEN_EOF = true ∨ (i < j ≤ length s)%nat).

Lemma one_moves s i t : ch (cursor s i) ≠ 0 → moves s i (one t i (cursor s i)).
Proof. intros Hc%cursor_inside. unfold one. rewrite readChar_cursor. eexists _, _. split; [done|]. right; right. lia. Qed.

Lemma two_moves s i t : peekChar (cursor s i) ≠ 0 → moves s i (two t i (cursor s i)).
Proof.
  intros Hc. assert (S i < length s)%nat as Hlt by (by apply cursor_inside). unfold two. rewrite !readChar_cursor.
  eexists _, _. split; [done|]. right; right. lia.
Qed.

Lemma number_moves s i :
  (i ≤ length s)%nat → isDigit (ch (cursor s i)) = true ∨ (ch (cursor s i) = rune "-" ∧ isDigit (peekChar (cursor s i)) = true) →
  moves s i (numberToken i (cursor s i)).
Proof.
  intros Hi Hc. unfold numberToken, readNumber.
  assert (∃ k, (if ch (cursor s i) =? rune "-" then readChar (cursor s i) else cursor s i) = cursor s k ∧ (i ≤ k ≤ length s)%nat ∧
    isDigit (ch (cursor s k)) = true) as (k & -> & Hk & Hd).
  { destruct Hc as [Hc|[Hc Hd]].
    - exists i. rewrite (ne_of isDigit _ (rune "-") Hc eq_refl). split_and!; [done|lia..|done].
    - exists (S i). rewrite Hc, Z.eqb_refl, readChar_cursor. split_and!; [done|lia| |done].
      assert (S i < length s)%nat; [|lia]. apply cursor_inside. change (ch (cursor s (S i))) with (peekChar (cursor s i)). by intros Hz; rewrite Hz in Hd. }
  destruct (numberLoop_moves (steps (cursor s i)) false s k) as (j & b & -> & Hj & Hlt); [lia|].
  specialize (Hlt Hd ltac:(unfold steps; lia)). eexists _, _. split; [done|]. right; right. lia.
Qed.

Lemma NextToken_moves s i : (i ≤ length s)%nat → moves s i (next_token (cursor s i)).
Proof.
  intros Hi. unfold Lexer.NextToken, skipWhitespace.
  destruct (while_moves IsSpace (steps (cursor s i)) s i eq_refl Hi) as (k & -> & Hk & _).
  assert (moves s k (tokenAt letterBeyond upperBeyond (cursor s k))) as (j & tok & E & H); [|exists j, tok; split; [done|]; naive_solver lia].
  clear Hi. assert (k ≤ length s)%nat as Hi by lia. clear Hk i. rename k into i. unfold tokenAt.
  destruct (Z.eqb_spec (ch (cursor s i)) 0) as [|Hc]; [eexists _, _; split; [done|]; right; by left|].
  repeat match goal with |- moves _ _ (if ch (cursor s i) =? ?k then _ else _) => destruct (Z.eqb_spec (ch (cursor s i)) k) as [Hk|_] end.
  all: repeat match goal with |- moves _ _ (if peekChar ?l =? ?k then _ else _) => destruct (Z.eqb_spec (peekChar l) k) as [Hp|_] end.
  all: try by apply one_moves.
  all: try (apply two_moves; by rewrite Hp).
  - unfold dollarToken. rewrite readChar_cursor. pose proof (cursor_inside s i Hc) as Hlt. destruct (ch (cursor s (S i)) =? rune "$").
    + rewrite readChar_cursor. destruct (dollarLoop_moves (steps (cursor s (S i))) [] s (S (S i))) as (j & [b|] & -> & Hj & Hb).
      * specialize (Hb ltac:(by eexists)). eexists _, _. split; [done|]. right; right. cbn. lia.
      * eexists _, _. split; [done|]. by left.
    + destruct (while_moves isDigit (steps (cursor s (S i))) s (S i) eq_refl) as (j & -> & Hj & _); [lia|]. cbn [position cursor].
      destruct (Nat.eqb_spec j (S i)); eexists _, _; (split; [done|]); [by left|right; right; lia].
  - unfold minusToken. destruct (isDigit (peekChar (cursor s i))) eqn:Ed; [apply number_moves; [lia|by right]|].
    pose proof (cursor_inside s i Hc) as Hlt. rewrite !readChar_cursor.
    destruct (Z.eqb_spec (peekChar (cursor s i)) (rune ">")) as [Hp|_]; [|eexists _, _; split; [done|]; right; right; lia].
    assert (S i < length s)%nat as Hlt1 by (apply cursor_inside; change (ch (cursor s (S i))) with (peekChar (cursor s i)); by rewrite Hp).
    destruct (Z.eqb_spec (peekChar (cursor s (S i))) (rune ">")) as [Hp1|_]; [|eexists _, _; split; [done|]; right; right; lia].
    assert (S (S i) < length s)%nat as Hlt2 by (apply cursor_inside; change (ch (cursor s (S (S i)))) with (peekChar (cursor s (S i))); by rewrite Hp1).
    eexists _, _. split; [done|]. right; right. lia.
  - unfold readString. rewrite readChar_cursor. destruct (stringLoop_moves (steps (cursor s i)) [] s (S i)) as (j & t & -> & Hj).
    destruct (Z.eqb_spec (ch (cursor s j)) (rune "'")) as [Hq|_]; cbn [negb]; [|eexists _, _; split; [done|]; by left].
    assert (j < length s)%nat as Hlt by (apply cursor_inside; by rewrite Hq). rewrite readChar_cursor. eexists _, _. split; [done|]. right; right. lia.
  - destruct (letter (ch (cursor s i))) eqn:El.
    + unfold readIdentifier. destruct (while_moves (λ c, letter c || isDigit c) (steps (cursor s i)) s i eq_refl Hi) as (j & -> & Hj & Hlt).
      cbv beta in Hlt. rewrite El in Hlt. specialize (Hlt eq_refl ltac:(unfold steps; lia)). eexists _, _. split; [done|]. right; right. lia.
    + destruct (isDigit (ch (cursor s i))) eqn:Ed; [apply number_moves; [done|by left]|by apply one_moves].
Qed.

Lemma tokenLoop_total s i n tokens :
  (i ≤ length s)%nat → (length s - i < n)%nat → tokenLoop letterBeyond upperBeyond n tokens (cursor s i) ≠ Panic.
Proof.
  revert i n tokens. assert (∀ m i n tokens, (length s - i ≤ m)%nat → (i ≤ length s)%nat → (length s - i < n)%nat →
    tokenLoop letterBeyond upperBeyond n tokens (cursor s i) ≠ Panic) as Hgen; [|intros i n tokens; by apply (Hgen (length s - i)%nat)].
  induction m as [|m IH]; intros i [|n] tokens Hm Hi Hn; try lia; cbn [tokenLoop];
    destruct (NextToken_moves s i Hi) as (j & tok & -> & H); cbv beta iota;
    destruct (tok_eqb (Type_ tok) TOKEN_ILLEGAL) eqn:E1; [done| |done|]; destruct (tok_eqb (Type_ tok) TOKEN_EOF) eqn:E2; try done.
  - destruct H as [?|[?|?]]; [congruence..|lia].
  - destruct H as [?|[?|?]]; [congruence..|]. apply IH; lia.
Qed.

(** The lexer ends on every text, with the tokens up to the end of the text or the first illegal one, within one step for every rune and one more. *)
Lemma Tokenize_ends s : (∃ tokens, tokenize s = Ok tokens) ∨ (∃ tok, tokenize s = Err tok).
Proof.
  pose proof (tokenLoop_total s 0 (S (length s)) [] ltac:(lia) ltac:(lia)) as Ht. unfold Lexer.Tokenize. rewrite New_cursor.
  destruct (tokenLoop _ _ _ _ _); [by left; eexists|by right; eexists|done].
Qed.
End Words.

Lemma Tokenize_render_witness :
  let ps := [([], WName (rs "select")); (rs " ", WInt true (rs "12")); ([10], WSymbol TOKEN_LTE); ([], WString (rs "it's"))] in
  Tokenize (λ _, false) id (render ps []) =
  Ok [mkToken TOKEN_SELECT (rs "select") 1 1; mkToken TOKEN_INT_LIT (rs "-12") 1 8; mkToken TOKEN_LTE (rs "<=") 2 1;
      mkToken TOKEN_STRING_LIT (rs "it's") 2 3; mkToken TOKEN_EOF [] 2 10].
Proof. intros ps. exact (Tokenize_render (λ _, false) id ps [] eq_refl). Defined.

(** ** The names of the tokens, for messages *)

Definition tokenNames : list (TokenType * string) :=
  [(TOKEN_SELECT, "SELECT"%string); (TOKEN_INSERT, "INSERT"%string); (TOKEN_UPDATE, "UPDATE"%string);
  (TOKEN_DELETE, "DELETE"%string); (TOKEN_FROM, "FROM"%string); (TOKEN_INTO, "INTO"%string); (TOKEN_WHERE, "WHERE"%string);
  (TOKEN_SET, "SET"%string); (TOKEN_VALUES, "VALUES"%string); (TOKEN_CREATE, "CREATE"%string); (TOKEN_DROP, "DROP"%string);
  (TOKEN_DATABASE, "DATABASE"%string); (TOKEN_TABLE, "TABLE"%string); (TOKEN_USE, "USE"%string); (TOKEN_SHOW, "SHOW"%string);
  (TOKEN_DATABASES, "DATABASES"%string); (TOKEN_TABLES, "TABLES"%string); (TOKEN_DESCRIBE, "DESCRIBE"%string);
  (TOKEN_LIMIT, "LIMIT"%string); (TOKEN_EXPLAIN, "EXPLAIN"%string); (TOKEN_ANALYZE, "ANALYZE"%string); (TOKEN_AS, "AS"%string);
  (TOKEN_OF, "OF"%string); (TOKEN_ON, "ON"%string); (TOKEN_TIMESTAMP, "TIMESTAMP"%string); (TOKEN_VERSION, "VERSION"%string);
  (TOKEN_HISTORY, "HISTORY"%string); (TOKEN_KEY, "KEY"%string); (TOKEN_AND, "AND"%string); (TOKEN_OR, "OR"%string);
  (TOKEN_NOT, "NOT"%string); (TOKEN_NULL, "NULL"%string); (TOKEN_TRUE, "TRUE"%string); (TOKEN_FALSE, "FALSE"%string);
  (TOKEN_ORDER, "ORDER"%string); (TOKEN_BY, "BY"%string); (TOKEN_ASC, "ASC"%string); (TOKEN_DESC, "DESC"%string);
  (TOKEN_OFFSET, "OFFSET"%string); (TOKEN_GROUP, "GROUP"%string); (TOKEN_HAVING, "HAVING"%string); (TOKEN_JOIN, "JOIN"%string);
  (TOKEN_INNER, "INNER"%string); (TOKEN_LEFT, "LEFT"%string); (TOKEN_RIGHT, "RIGHT"%string); (TOKEN_FULL, "FULL"%string);
  (TOKEN_CROSS, "CROSS"%string); (TOKEN_UNION, "UNION"%string); (TOKEN_INTERSECT, "INTERSECT"%string);
  (TOKEN_EXCEPT, "EXCEPT"%string); (TOKEN_OVER, "OVER"%string); (TOKEN_PARTITION, "PARTITION"%string);
  (TOKEN_ROWS, "ROWS"%string); (TOKEN_PRECEDING, "PRECEDING"%string); (TOKEN_FOLLOWING, "FOLLOWING"%string);
  (TOKEN_CURRENT, "CURRENT"%string); (TOKEN_ROW, "ROW"%string); (TOKEN_BETWEEN, "BETWEEN"%string); (TOKEN_IN, "IN"%string);
  (TOKEN_IS, "IS"%string); (TOKEN_LIKE, "LIKE"%string); (TOKEN_ILIKE, "ILIKE"%string); (TOKEN_FOR, "FOR"%string);
  (TOKEN_USING, "USING"%string); (TOKEN_SEMANTIC_MATCH, "SEMANTIC_MATCH"%string); (TOKEN_FTS_MATCH, "FTS_MATCH"%string);
  (TOKEN_ALTER, "ALTER"%string); (TOKEN_ADD, "ADD"%string); (TOKEN_COLUMN, "COLUMN"%string); (TOKEN_RENAME, "RENAME"%string);
  (TOKEN_TO, "TO"%string); (TOKEN_TYPE, "TYPE"%string); (TOKEN_DEFAULT, "DEFAULT"%string); (TOKEN_END, "END"%string);
  (TOKEN_COALESCE, "COALESCE"%string); (TOKEN_INT, "INT"%string); (TOKEN_FLOAT_TYPE, "FLOAT"%string);
  (TOKEN_BOOL, "BOOL"%string); (TOKEN_TEXT, "TEXT"%string); (TOKEN_VARCHAR, "VARCHAR"%string); (TOKEN_DATE, "DATE"%string);
  (TOKEN_TIME, "TIME"%string); (TOKEN_DECIMAL, "DECIMAL"%string); (TOKEN_ENUM, "ENUM"%string); (TOKEN_ARRAY, "ARRAY"%string);
  (TOKEN_VECTOR, "VECTOR"%string); (TOKEN_FLEXIBLE, "FLEXIBLE"%string); (TOKEN_INFER, "INFER"%string);
  (TOKEN_GENERATED, "GENERATED"%string); (TOKEN_ALWAYS, "ALWAYS"%string); (TOKEN_STORED, "STORED"%string);
  (TOKEN_VIRTUAL, "VIRTUAL"%string); (TOKEN_SCHEMA, "SCHEMA"%string); (TOKEN_AUTO_INCREMENT, "AUTO_INCREMENT"%string);
  (TOKEN_BIGINT, "BIGINT"%string); (TOKEN_NUMERIC, "NUMERIC"%string); (TOKEN_TIMESTAMPTZ, "TIMESTAMPTZ"%string);
  (TOKEN_SERIAL, "SERIAL"%string); (TOKEN_IDENTITY, "IDENTITY"%string); (TOKEN_VACUUM, "VACUUM"%string);
  (TOKEN_MIGRATION, "MIGRATION"%string); (TOKEN_POLICY, "POLICY"%string); (TOKEN_ENABLE, "ENABLE"%string);
  (TOKEN_RLS, "RLS"%string); (TOKEN_INDEX, "INDEX"%string); (TOKEN_INDEXES, "INDEXES"%string); (TOKEN_BEGIN, "BEGIN"%string);
  (TOKEN_COMMIT, "COMMIT"%string); (TOKEN_ROLLBACK, "ROLLBACK"%string); (TOKEN_PREPARE, "PREPARE"%string);
  (TOKEN_EXECUTE, "EXECUTE"%string); (TOKEN_DEALLOCATE, "DEALLOCATE"%string); (TOKEN_SUBSTRING, "SUBSTRING"%string);
  (TOKEN_WITH, "WITH"%string); (TOKEN_CONFLICT, "CONFLICT"%string); (TOKEN_DO, "DO"%string); (TOKEN_NOTHING, "NOTHING"%string);
  (TOKEN_RETURNING, "RETURNING"%string); (TOKEN_VIEW, "VIEW"%string); (TOKEN_ALL, "ALL"%string); (TOKEN_ANY, "ANY"%string);
  (TOKEN_SOME, "SOME"%string); (TOKEN_REFERENCES, "REFERENCES"%string); (TOKEN_LATERAL, "LATERAL"%string);
  (TOKEN_TRIGGER, "TRIGGER"%string); (TOKEN_BEFORE, "BEFORE"%string); (TOKEN_AFTER, "AFTER"%string);
  (TOKEN_EACH, "EACH"%string); (TOKEN_FUNCTION, "FUNCTION"%string); (TOKEN_RETURNS, "RETURNS"%string);
  (TOKEN_UUID, "UUID"%string); (TOKEN_INTERVAL, "INTERVAL"%string); (TOKEN_PROCEDURE, "PROCEDURE"%string);
  (TOKEN_CALL, "CALL"%string); (TOKEN_JSONB, "JSONB"%string); (TOKEN_REPLACE, "REPLACE"%string); (TOKEN_MERGE, "MERGE"%string);
  (TOKEN_MATCHED, "MATCHED"%string); (TOKEN_TRUNCATE, "TRUNCATE"%string); (TOKEN_SAVEPOINT, "SAVEPOINT"%string);
  (TOKEN_RELEASE, "RELEASE"%string); (TOKEN_EXISTS, "EXISTS"%string); (TOKEN_IF, "IF"%string); (TOKEN_BLOB, "BLOB"%string);
  (TOKEN_ENCRYPTED, "ENCRYPTED"%string); (TOKEN_ENCRYPTION, "ENCRYPTION"%string); (TOKEN_VERIFY, "VERIFY"%string);
  (TOKEN_COPY, "COPY"%string); (TOKEN_HASH, "HASH"%string); (TOKEN_LESS, "LESS"%string); (TOKEN_THAN, "THAN"%string);
  (TOKEN_PARTITIONS, "PARTITIONS"%string); (TOKEN_MAXVALUE, "MAXVALUE"%string); (TOKEN_ROLE, "ROLE"%string);
  (TOKEN_GRANT, "GRANT"%string); (TOKEN_REVOKE, "REVOKE"%string); (TOKEN_PRIVILEGES, "PRIVILEGES"%string);
  (TOKEN_TOKEN, "TOKEN"%string); (TOKEN_IDENT, "IDENT"%string); (TOKEN_INT_LIT, "INT_LIT"%string);
  (TOKEN_FLOAT_LIT, "FLOAT_LIT"%string); (TOKEN_STRING_LIT, "STRING_LIT"%string); (TOKEN_EQ, "="%string);
  (TOKEN_NEQ, "!="%string); (TOKEN_LT, "<"%string); (TOKEN_GT, ">"%string); (TOKEN_LTE, "<="%string); (TOKEN_GTE, ">="%string);
  (TOKEN_COMMA, ","%string); (TOKEN_DOT, "."%string); (TOKEN_SEMICOLON, ";"%string); (TOKEN_LPAREN, "("%string);
  (TOKEN_RPAREN, ")"%string); (TOKEN_STAR, "*"%string); (TOKEN_MINUS, "-"%string); (TOKEN_PLUS, "+"%string);
  (TOKEN_SLASH, "/"%string); (TOKEN_PARAM, "PARAM"%string); (TOKEN_ARROW, "ARROW"%string);
  (TOKEN_DBL_ARROW, "DBL_ARROW"%string); (TOKEN_JSON_CONTAINS, "JSON_CONTAINS"%string);
  (TOKEN_JSON_CONTAINED_BY, "JSON_CONTAINED_BY"%string); (TOKEN_JSON_HAS_KEY, "JSON_HAS_KEY"%string);
  (TOKEN_JSON_MERGE, "JSON_MERGE"%string); (TOKEN_FULLTEXT_MATCH, "FULLTEXT_MATCH"%string); (TOKEN_EOF, "EOF"%string);
  (TOKEN_ILLEGAL, "ILLEGAL"%string)].

(** [TokenType.String]: a token without a name is written with its number, here [None]. *)
Definition nameOf (t : TokenType) : option string := snd <$> find (λ e, tok_eqb t (fst e)) tokenNames.

(** The names of keywords are the keywords: the lexer reads every name back as its token, except for three tokens that no text has. *)
Lemma keyword_names upperBeyond t :
  match nameOf t with
  | Some name => LookupIdent upperBeyond (rs name) = t ∨ code TOKEN_IDENT <= code t ∨ t = TOKEN_VERSION ∨ t = TOKEN_REPLACE ∨ t = TOKEN_ROLE
  | None => True
  end.
Proof.
  destruct t; lazymatch goal with |- context [nameOf ?t] => let n := eval vm_compute in (nameOf t) in change (nameOf t) with n end; cbv iota;
    first [exact I|right; left; discriminate|left; vm_compute; reflexivity|auto].
Qed.

(** Keywords without a name. *)
Example unnamed : filter (λ t, nameOf t = None) tokenTypes =
  [TOKEN_PRIMARY; TOKEN_RANGE; TOKEN_UNBOUNDED; TOKEN_CAST; TOKEN_CASE; TOKEN_WHEN; TOKEN_THEN; TOKEN_ELSE; TOKEN_APPLY; TOKEN_PREVIEW;
   TOKEN_STRING_AGG].
Proof. vm_compute. reflexivity. Qed.

(** ** What the lexer does not read *)

Definition typesOf (letterBeyond : Z → bool) (upperBeyond : Z → Z) (s : text) : option (list TokenType) :=
  match Tokenize letterBeyond upperBeyond s with Ok l => Some (Type_ <$> l) | _ => None end.

(** A minus right before a digit belongs to the number, also after an operand. *)
Example minus_digit : typesOf (λ _, false) id (rs "a-1") = Some [TOKEN_IDENT; TOKEN_INT_LIT; TOKEN_EOF].
Proof. vm_compute. reflexivity. Qed.

(** A doubled quote ends a string and starts another one. *)
Example doubled_quote : typesOf (λ _, false) id (rs "'it''s'") = Some [TOKEN_STRING_LIT; TOKEN_STRING_LIT; TOKEN_EOF].
Proof. vm_compute. reflexivity. Qed.

Example not_equal : typesOf (λ _, false) id (rs "a <> b") = Some [TOKEN_IDENT; TOKEN_LT; TOKEN_GT; TOKEN_IDENT; TOKEN_EOF].
Proof. vm_compute. reflexivity. Qed.

(** A rune 0 is taken for the end of the text. *)
Example nul_ends : typesOf (λ _, false) id (rs "SELECT 1" ++ [0] ++ rs "; DROP") = Some [TOKEN_SELECT; TOKEN_INT_LIT; TOKEN_EOF].
Proof. vm_compute. reflexivity. Qed.

(** The dotless i has the upper case I, so that a name with it is a keyword. *)
Example dotless_i :
  typesOf (λ r, r =? 0x131) (λ r, if r =? 0x131 then rune "I" else r) (rs "l" ++ [0x131] ++ rs "m" ++ [0x131] ++ rs "t") =
  Some [TOKEN_LIMIT; TOKEN_EOF].
Proof. vm_compute. reflexivity. Qed.
