(* ===== verification/Parser.v ===== *)
(** * The SQL parser

    The recursive-descent parser of [core/parser]: the syntax trees of [ast.go],
    the expressions of [parse_utils.go], SELECT with its clauses and set operations
    of [parse_select.go], the types of [parse_ddl.go], and the way back to text of
    [parser.go]. *)

From S2P Require Import Prelude Bytes Strconv Lexer.
From Stdlib Require Import Ascii.

(** ** Syntax trees *)

(** [Value], by its [Type]; a float is its 64 bits. *)
Inductive Value : Type := VInt (z : Z) | VFloat (f : Z) | VString (s : text) | VBool (b : bool) | VNull.

Record FrameSpec : Type := mkFrame { Mode : text; StartType : text; StartN : Z; EndType : text; EndN : Z }.

Record AsOfClause : Type := mkAsOf { Timestamp : text; Version : Z; UseVersion : bool }.

(** [WindowSpec], with its [OrderItem]s. *)
Record WindowSpecOf (E : Type) : Type := mkWindowSpec { PartitionBy : list E; WinOrderBy : list (E * text); Frame : option FrameSpec }.
Arguments mkWindowSpec {E}.
Arguments PartitionBy {E}.
Arguments WinOrderBy {E}.
Arguments Frame {E}.

Record JoinClauseOf (E : Type) : Type := mkJoin { JType : text; JTableName : text; JAlias : text; Condition : option E }.
Arguments mkJoin {E}.
Arguments JType {E}.
Arguments JTableName {E}.
Arguments JAlias {E}.
Arguments Condition {E}.

(** [SelectStatement], over its expressions and the statement of its FROM. *)
Record SelectOf (E S : Type) : Type := mkSelect {
  Columns : list (E * text);
  TableName : text;
  Alias : text;
  FromSubquery : option S;
  FromAlias : text;
  IsLateral : bool;
  Joins : list (JoinClauseOf E);
  Where : option E;
  GroupBy : list E;
  Having : option E;
  OrderBy : list (E * text);
  Limit : Z;
  HasLimit : bool;
  LimitExpr : option E;
  Offset : Z;
  HasOffset : bool;
  OffsetExpr : option E;
  AsOf : option AsOfClause;
  Distinct : bool;
  DistinctOn : list E;
  ForUpdate : bool;
  ForShare : bool }.
Arguments mkSelect {E S}.
Arguments Columns {E S}.
Arguments TableName {E S}.
Arguments Alias {E S}.
Arguments FromSubquery {E S}.
Arguments FromAlias {E S}.
Arguments IsLateral {E S}.
Arguments Joins {E S}.
Arguments Where {E S}.
Arguments GroupBy {E S}.
Arguments Having {E S}.
Arguments OrderBy {E S}.
Arguments Limit {E S}.
Arguments HasLimit {E S}.
Arguments LimitExpr {E S}.
Arguments Offset {E S}.
Arguments HasOffset {E S}.
Arguments OffsetExpr {E S}.
Arguments AsOf {E S}.
Arguments Distinct {E S}.
Arguments DistinctOn {E S}.
Arguments ForUpdate {E S}.
Arguments ForShare {E S}.

#[warnings="-register-all"]
Inductive Expression : Type :=
  | EValue (v : Value)
  | EColumnRef (name table : text)
  | EBinary (left : Expression) (op : text) (right : Expression)
  | EAnd (left right : Expression)
  | EOr (left right : Expression)
  | ENot (e : Expression)
  | EParam (index : Z)
  | EIn (left : Expression) (not : bool) (right : list Expression)
  | EFunctionCall (name : text) (args : list Expression)
  | EAggregate (name : text) (args : list Expression) (distinct : bool)
  | ESubquery (query : Statement)
  | EWindowFunction (name : text) (args : list Expression) (over : WindowSpecOf Expression)
  | EWindow (function : text) (partitionBy : list Expression) (orderBy : list (Expression * text * bool))
  | ECast (e : Expression) (targetType : text)
  | EExists (select : Statement) (not : bool)
  | EBetween (e lower upper : Expression) (not : bool)
  | ECase (base : option Expression) (whens : list (Expression * Expression)) (els : option Expression)
  | EJsonPath (left : Expression) (op path : text)
  | EJSONAccess (e : Expression) (op : text) (argument : Expression)
  | EComparisonSubquery (left : Expression) (op quantifier : text) (subquery : Statement)
with Statement : Type :=
  | SSelect (s : SelectStatement)
  | SSetOperation (left : Statement) (op : text) (right : Statement)
with SelectStatement : Type :=
  | Select (s : SelectOf Expression SelectStatement).

(** Induction over the expressions inside an expression of a kind the printer, the spill file and the freezing of calls go into. *)

Definition children (e : Expression) : list Expression :=
  match e with
  | EBinary l _ r | EAnd l r | EOr l r => [l; r]
  | ENot e | ECast e _ | EJsonPath e _ _ => [e]
  | EIn l _ r => l :: r
  | EFunctionCall _ args | EAggregate _ args _ => args
  | EBetween e lo hi _ => [e; lo; hi]
  | _ => []
  end.

Lemma Expression_children_ind (P : Expression → Prop) : (∀ e, Forall P (children e) → P e) → ∀ e, P e.
Proof.
  intros H. fix IH 1. intros e. assert (∀ l : list Expression, Forall P l) as Hl.
  { fix IHl 1. intros [|x l]; constructor; [apply IH|apply IHl]. }
  apply H. destruct e; cbn [children]; repeat constructor; try apply IH; try apply Hl.
Qed.

Abbreviation WindowSpec := (WindowSpecOf Expression).
Abbreviation JoinClause := (JoinClauseOf Expression).

(** ** The parser *)

Inductive parse_error : Type :=
  | ErrExpected (what : string) (got : Token)
  | ErrSyntax (tok : Token) (message : string)
  | ErrLiteral (tok : Token)
  | ErrMessage (message : string)
  | ErrDepth
  (** The recursion bound of the model, which [parse_total] shows is never reached. *)
  | ErrFuel.

Record sqlParser : Type := mkParser { tokens : list Token; pos : nat; depth : Z }.

Definition defaultMaxParserDepth : Z := 32.

Abbreviation PM := (M sqlParser parse_error).

Definition eofToken : Token := mkToken TOKEN_EOF [] 0 0.

Definition currentOf (p : sqlParser) : Token := default eofToken (tokens p !! pos p).
Definition peekOf (p : sqlParser) : Token := default eofToken (tokens p !! S (pos p)).
Definition advanceOf (p : sqlParser) : sqlParser :=
  if (S (pos p) <? length (tokens p))%nat then mkParser (tokens p) (S (pos p)) (depth p) else p.

Definition current : PM Token := gets currentOf.
Definition peek : PM Token := gets peekOf.
Definition advance : PM unit := modify advanceOf.

(** [tok.Type == t]. *)
Definition isType (tok : Token) (t : TokenType) : bool := tok_eqb (Type_ tok) t.
Definition isOneOf (tok : Token) (ts : list TokenType) : bool := existsb (isType tok) ts.

Definition consume (t : TokenType) (what : string) : PM unit :=
  tok ← current;
  if isType tok t then advance else throw (ErrExpected what tok).

Definition consumeIdent (what : string) : PM text :=
  tok ← current;
  if isType tok TOKEN_IDENT then advance;; mret (Literal tok) else throw (ErrExpected what tok).

Definition checkDepth : PM unit := λ p,
  let p := mkParser (tokens p) (pos p) (depth p + 1) in
  if defaultMaxParserDepth <? depth p then (p, Err ErrDepth) else (p, Ok tt).

Definition exitDepth (p : sqlParser) : sqlParser := if 0 <? depth p then mkParser (tokens p) (pos p) (depth p - 1) else p.

(** [checkDepth], [m], and [exitDepth] on each of the paths out of [m]. *)
Definition nested {A} (m : PM A) : PM A := λ p,
  match checkDepth p with
  | (p, Ok _) => let '(p, r) := m p in (exitDepth p, r)
  | (p, Err e) => (p, Err e)
  | (p, Panic) => (p, Panic)
  end.

(** The steps a loop over the tokens may take. *)
Definition loopSteps : PM nat := gets (λ p, S (length (tokens p))).

(** Numbers of a literal, which has only digits and a sign. *)
Definition asciiBytes (t : text) : bytes := byte.of_Z <$> t.
Definition Atoi (t : text) : option Z := ParseInt (asciiBytes t).
Definition ParseUint (t : text) : option Z :=
  match parseUint (asciiBytes t) with Some n => if n <? 2 ^ 64 then Some n else None | None => None end.

(** [strings.EqualFold] with a word of ASCII letters, whose other forms are the long s and the Kelvin sign. *)
Definition foldRune (r : Z) : Z := if r =? 0x17F then rune "S"%char else if r =? 0x212A then rune "K"%char else asciiUpper r.
Definition EqualFold (s : text) (w : string) : bool := bool_decide (foldRune <$> s = rs w).

Section Parser.
Context (upperBeyond : Z → Z) (ParseFloat : text → option Z).
Abbreviation ToUpper := (ToUpper upperBeyond).

(** [strings.ToUpper(s) == w]. *)
Definition upperIs (s : text) (w : string) : bool := bool_decide (ToUpper s = rs w).

Definition tokenToValue (tok : Token) : PM Value :=
  if isType tok TOKEN_INT_LIT then match Atoi (Literal tok) with Some n => mret (VInt n) | None => throw (ErrLiteral tok) end
  else if isType tok TOKEN_FLOAT_LIT then match ParseFloat (Literal tok) with Some f => mret (VFloat f) | None => throw (ErrLiteral tok) end
  else if isType tok TOKEN_STRING_LIT then mret (VString (Literal tok))
  else if isType tok TOKEN_TRUE then mret (VBool true)
  else if isType tok TOKEN_FALSE then mret (VBool false)
  else if isType tok TOKEN_NULL then mret VNull
  else throw (ErrExpected "literal value" tok).

Definition parseLiteralValue : PM Value :=
  tok ← current; value ← tokenToValue tok; advance;; mret value.

(** *** Lists *)

Fixpoint identifierLoop (n : nat) (what : string) (items : list text) : PM (list text) :=
  match n with
  | O => throw ErrFuel
  | S n =>
      name ← consumeIdent what;
      let items := items ++ [name] in
      tok ← current;
      if isType tok TOKEN_COMMA then advance;; identifierLoop n what items
      else if isType tok TOKEN_RPAREN then mret items
      else throw (ErrExpected "',' or ')'" tok)
  end.

Definition parseIdentifierListUntilRParen (what : string) : PM (list text) := n ← loopSteps; identifierLoop n what [].

(** An item, and another one after each comma. *)
Fixpoint commaLoop {A} (n : nat) (item : PM A) (items : list A) : PM (list A) :=
  match n with
  | O => throw ErrFuel
  | S n =>
      x ← item;
      let items := items ++ [x] in
      tok ← current;
      if isType tok TOKEN_COMMA then advance;; commaLoop n item items else mret items
  end.

Definition commaList {A} (item : PM A) : PM (list A) := n ← loopSteps; commaLoop n item [].

(** *** Types *)

(** A type with an optional length in parentheses. *)
Definition lengthType (name : string) (what bad : string) : PM (text * Z) :=
  advance;;
  tok ← current;
  if isType tok TOKEN_LPAREN then
    advance;;
    lenTok ← current;
    if negb (isType lenTok TOKEN_INT_LIT) then throw (ErrExpected what lenTok)
    else match Atoi (Literal lenTok) with
      | None => throw (ErrMessage bad)
      | Some l => advance;; consume TOKEN_RPAREN "')'";; mret (rs name, l)
      end
  else mret (rs name, 0).

(** The types of one token. *)
Definition plainTypes : list (TokenType * string) :=
  [(TOKEN_INT, "INT"); (TOKEN_FLOAT_TYPE, "FLOAT"); (TOKEN_BOOL, "BOOL"); (TOKEN_TEXT, "TEXT"); (TOKEN_BLOB, "BLOB"); (TOKEN_DATE, "DATE");
   (TOKEN_TIME, "TIME"); (TOKEN_TIMESTAMP, "TIMESTAMP"); (TOKEN_DECIMAL, "DECIMAL"); (TOKEN_UUID, "UUID"); (TOKEN_INTERVAL, "INTERVAL");
   (TOKEN_JSONB, "JSONB"); (TOKEN_BIGINT, "INT"); (TOKEN_NUMERIC, "FLOAT"); (TOKEN_TIMESTAMPTZ, "TIMESTAMP")].

Definition enumValue : PM text :=
  tok ← current;
  if isType tok TOKEN_STRING_LIT then advance;; mret (Literal tok) else throw (ErrExpected "enum value string" tok).

Definition joinText (sep : string) (l : list text) : text :=
  match l with [] => [] | x :: l => foldl (λ acc y, acc ++ rs sep ++ y) x l end.

Fixpoint columnType (n : nat) : PM (text * Z) :=
  match n with
  | O => throw ErrFuel
  | S n =>
      tok ← current;
      match find (λ e, isType tok (fst e)) plainTypes with
      | Some (_, name) => advance;; mret (rs name, 0)
      | None =>
          if isType tok TOKEN_VARCHAR then lengthType "VARCHAR" "VARCHAR length" "invalid VARCHAR length"
          else if isType tok TOKEN_VECTOR then lengthType "VECTOR" "VECTOR dimension" "invalid VECTOR dimension"
          else if isType tok TOKEN_ARRAY then
            advance;; consume TOKEN_LPAREN "'('";;
            base ← columnType n;
            consume TOKEN_RPAREN "')'";;
            mret (rs "ARRAY:" ++ fst base, 0)
          else if isType tok TOKEN_ENUM then
            advance;; consume TOKEN_LPAREN "'('";;
            values ← commaList enumValue;
            consume TOKEN_RPAREN "')'";;
            mret (rs "ENUM:" ++ joinText "," values, 0)
          else if isType tok TOKEN_IDENT then throw (ErrMessage "unknown data type")
          else throw (ErrExpected "data type" tok)
      end
  end.

Definition parseColumnType : PM (text * Z) := n ← loopSteps; columnType n.

(** *** Expressions

    Over the parsers of whole expressions and of SELECT, which the recursion below
    puts in. *)

Section Expressions.
Context (parseExpression : PM Expression) (parseSelect : PM Statement).

Fixpoint valueLoop (n : nat) (items : list Expression) : PM (list Expression) :=
  match n with
  | O => throw ErrFuel
  | S n =>
      value ← parseExpression;
      let items := items ++ [value] in
      tok ← current;
      if isType tok TOKEN_COMMA then advance;; valueLoop n items
      else if isType tok TOKEN_RPAREN then mret items
      else throw (ErrExpected "',' or ')'" tok)
  end.

Definition parseValueListUntilRParen : PM (list Expression) := n ← loopSteps; valueLoop n [].

(** INTERSECT binds stronger than UNION and EXCEPT. *)
Fixpoint setLoop (n : nat) (left : Statement) : PM Statement :=
  match n with
  | O => throw ErrFuel
  | S n =>
      tok ← current;
      if negb (isOneOf tok [TOKEN_UNION; TOKEN_INTERSECT; TOKEN_EXCEPT]) then mret left else
      advance;;
      next ← current;
      op ← (if EqualFold (Literal tok) "UNION" && EqualFold (Literal next) "ALL" then advance;; mret (rs "UNION ALL") else mret (Literal tok));
      tok ← current;
      if negb (isType tok TOKEN_SELECT) then throw (ErrExpected "SELECT after set operator" tok) else
      right ← parseSelect;
      tok ← current;
      right ← (if (EqualFold op "UNION" || EqualFold op "EXCEPT") && isType tok TOKEN_INTERSECT then setLoop n right else mret right);
      setLoop n (SSetOperation left (ToUpper op) right)
  end.

Definition parseSetOperation (left : Statement) : PM Statement := n ← loopSteps; setLoop n left.

Definition parseQuery : PM Statement := stmt ← parseSelect; parseSetOperation stmt.

(** A direction after an expression of ORDER BY. *)
Definition orderItem : PM (Expression * text) :=
  expr ← parseExpression;
  tok ← current;
  if isType tok TOKEN_ASC then advance;; mret (expr, rs "ASC")
  else if isType tok TOKEN_DESC then advance;; mret (expr, rs "DESC")
  else mret (expr, rs "ASC").

Definition parseFrameBound : PM (text * Z) :=
  tok ← current;
  if isType tok TOKEN_UNBOUNDED then
    advance;;
    tok ← current;
    if isType tok TOKEN_PRECEDING then advance;; mret (rs "UNBOUNDED PRECEDING", 0)
    else if isType tok TOKEN_FOLLOWING then advance;; mret (rs "UNBOUNDED FOLLOWING", 0)
    else throw (ErrExpected "PRECEDING or FOLLOWING" tok)
  else if isType tok TOKEN_CURRENT then advance;; consume TOKEN_ROW "ROW";; mret (rs "CURRENT ROW", 0)
  else if isType tok TOKEN_INT_LIT then
    match Atoi (Literal tok) with
    | None => throw (ErrMessage "invalid window frame offset")
    | Some n =>
        advance;;
        tok ← current;
        if isType tok TOKEN_PRECEDING then advance;; mret (rs "PRECEDING", n)
        else if isType tok TOKEN_FOLLOWING then advance;; mret (rs "FOLLOWING", n)
        else throw (ErrExpected "PRECEDING or FOLLOWING" tok)
    end
  else throw (ErrExpected "frame bound" tok).

Definition parseFrameSpec (mode : text) : PM FrameSpec :=
  tok ← current;
  if isType tok TOKEN_BETWEEN then
    advance;;
    start ← parseFrameBound;
    consume TOKEN_AND "AND";;
    end_ ← parseFrameBound;
    mret (mkFrame (ToUpper mode) (fst start) (snd start) (fst end_) (snd end_))
  else
    start ← parseFrameBound;
    mret (mkFrame (ToUpper mode) (fst start) (snd start) (rs "CURRENT ROW") 0).

Definition parseWindowSpec : PM WindowSpec :=
  tok ← current;
  partitionBy ← (if isType tok TOKEN_PARTITION then advance;; consume TOKEN_BY "BY";; commaList parseExpression else mret []);
  tok ← current;
  orderBy ← (if isType tok TOKEN_ORDER then advance;; consume TOKEN_BY "BY";; commaList orderItem else mret []);
  tok ← current;
  frame ← (if isOneOf tok [TOKEN_ROWS; TOKEN_RANGE] then advance;; f ← parseFrameSpec (Literal tok); mret (Some f) else mret None);
  mret (mkWindowSpec partitionBy orderBy frame).

(** What [parsePrimaryPost] does with an error of the argument: it returns what it has. *)
Definition attempt {A} (m : PM A) : PM (option A) := λ p,
  match m p with
  | (p, Ok a) => (p, Ok (Some a))
  | (p, Err ErrFuel) => (p, Err ErrFuel)
  | (p, Err _) => (p, Ok None)
  | (p, Panic) => (p, Panic)
  end.

Fixpoint postLoop (n : nat) (left : Expression) : PM Expression :=
  match n with
  | O => throw ErrFuel
  | S n =>
      tok ← current;
      if isOneOf tok [TOKEN_ARROW; TOKEN_DBL_ARROW] then
        advance;;
        pathTok ← current;
        if negb (isType pathTok TOKEN_STRING_LIT) then mret left
        else advance;; postLoop n (EJsonPath left (Literal tok) (Literal pathTok))
      else if isOneOf tok [TOKEN_JSON_CONTAINS; TOKEN_JSON_HAS_KEY] then
        advance;;
        arg ← attempt parseExpression;
        match arg with
        | None => mret left
        | Some arg => postLoop n (EJSONAccess left (Literal tok) arg)
        end
      else mret left
  end.

Definition parsePrimaryPost (left : Expression) : PM Expression := n ← loopSteps; postLoop n left.

Definition parseCast : PM Expression :=
  advance;; consume TOKEN_LPAREN "'('";;
  expr ← parseExpression;
  consume TOKEN_AS "AS";;
  ty ← parseColumnType;
  consume TOKEN_RPAREN "')'";;
  mret (ECast expr (fst ty)).

Fixpoint whenLoop (n : nat) (whens : list (Expression * Expression)) : PM (list (Expression * Expression)) :=
  match n with
  | O => throw ErrFuel
  | S n =>
      tok ← current;
      if negb (isType tok TOKEN_WHEN) then mret whens else
      advance;;
      cond ← parseExpression;
      consume TOKEN_THEN "THEN";;
      res ← parseExpression;
      whenLoop n (whens ++ [(cond, res)])
  end.

Definition parseCase : PM Expression :=
  advance;;
  tok ← current;
  base ← (if negb (isType tok TOKEN_WHEN) then e ← parseExpression; mret (Some e) else mret None);
  n ← loopSteps;
  whens ← whenLoop n [];
  tok ← current;
  match whens with
  | [] => throw (ErrExpected "at least one WHEN clause" tok)
  | _ =>
      els ← (if isType tok TOKEN_ELSE then advance;; e ← parseExpression; mret (Some e) else mret None);
      consume TOKEN_END "END";;
      mret (ECase base whens els)
  end.

(** [LEFT(...)] and [RIGHT(...)]; the list ends before its closing parenthesis. *)
Definition sideFunction (name : string) (tok : Token) : PM Expression :=
  advance;;
  next ← current;
  if isType next TOKEN_LPAREN then advance;; args ← parseValueListUntilRParen; mret (EFunctionCall (rs name) args)
  else mret (EColumnRef (Literal tok) []).

Definition parseSubstring : PM Expression :=
  advance;; consume TOKEN_LPAREN "'('";;
  expr ← parseExpression;
  tok ← current;
  args ← (if isType tok TOKEN_FROM then
            advance;; start ← parseExpression;
            tok ← current;
            if isType tok TOKEN_FOR then advance;; length ← parseExpression; mret [expr; start; length] else mret [expr; start]
          else if isType tok TOKEN_COMMA then
            advance;; start ← parseExpression;
            tok ← current;
            if isType tok TOKEN_COMMA then advance;; length ← parseExpression; mret [expr; start; length] else mret [expr; start]
          else mret [expr]);
  consume TOKEN_RPAREN "')'";;
  mret (EFunctionCall (rs "SUBSTRING") args).

Definition aggregateNames : list string :=
  ["COUNT"; "SUM"; "AVG"; "MIN"; "MAX"; "STRING_AGG"; "BOOL_AND"; "BOOL_OR"; "STDDEV"; "VARIANCE"; "JSON_OBJECT_AGG"].

Definition isAggregateName (nameUp : text) : bool := existsb (λ w, bool_decide (nameUp = rs w)) aggregateNames.

(** The clauses of [OVER] for the ranking functions. *)
Definition rankOrder (items : list (Expression * text)) : list (Expression * text * bool) :=
  (λ '(e, direction),
     let dir := ToUpper direction in
     (e, if bool_decide (dir = []) then rs "ASC" else dir, negb (bool_decide (dir = rs "DESC")))) <$> items.

(** A call from its opening parenthesis to the closing one, and [OVER] after it:
    a finished expression, or one that may go on. *)
Definition parseCall (ident : text) : PM (Expression + Expression) :=
  nested (
    advance;;
    tok ← current;
    pre ← (if isType tok TOKEN_IDENT && upperIs (Literal tok) "DISTINCT" then advance;; mret (true, [])
           else if isType tok TOKEN_STAR then advance;; mret (false, [EColumnRef (rs "*") []])
           else mret (false, []));
    let '(distinct, star) := pre : bool * list Expression in
    tok ← current;
    args ← (if bool_decide (length star = 0%nat) && negb (isType tok TOKEN_RPAREN) then parseValueListUntilRParen else mret star);
    consume TOKEN_RPAREN "')'";;
    let nameUp := ToUpper ident in
    tok ← current;
    if isType tok TOKEN_OVER then
      advance;; consume TOKEN_LPAREN "'('";;
      spec ← parseWindowSpec;
      consume TOKEN_RPAREN "')'";;
      mret (inl (if bool_decide (nameUp = rs "ROW_NUMBER") || bool_decide (nameUp = rs "RANK") || bool_decide (nameUp = rs "DENSE_RANK")
                 then EWindow nameUp (PartitionBy spec) (rankOrder (WinOrderBy spec))
                 else EWindowFunction nameUp args spec))
    else mret (inr (if isAggregateName nameUp then EAggregate nameUp args distinct else EFunctionCall nameUp args))).

(** [strings.SplitN(ident, ".", 2)]. *)
Fixpoint splitDot (s : text) : text * option text :=
  match s with
  | [] => ([], None)
  | c :: s => if c =? rune "."%char then ([], Some s) else let '(a, b) := splitDot s in (c :: a, b)
  end.

(** [old.col] and [new.col], by the token after the current one. *)
Definition oldNew (ident : text) : PM (option Expression) :=
  next ← peek;
  if (bool_decide (ident = rs "old") || bool_decide (ident = rs "new")) && isType next TOKEN_DOT then
    advance;;
    colTok ← current;
    if isType colTok TOKEN_IDENT then advance;; e ← parsePrimaryPost (EColumnRef (Literal colTok) ident); mret (Some e)
    else mret None
  else mret None.

(** The literals [DATE '...'], [TIME '...'] and [TIMESTAMP '...'] of an identifier. *)
Definition dateLiteral (upper : text) : PM (option Expression) :=
  next ← peek;
  let taken (w f : string) (layout : list string) : option (PM (option Expression)) :=
    if bool_decide (upper = rs w) && isType next TOKEN_STRING_LIT then
      Some (advance;; tok ← current; advance;;
            mret (Some (EFunctionCall (rs f) (EValue (VString (Literal tok)) :: ((λ l, EValue (VString (rs l))) <$> layout)))))
    else None in
  match taken "DATE" "TO_DATE" ["2006-01-02"] with
  | Some m => m
  | None => match taken "TIME" "TO_TIME" [] with
    | Some m => m
    | None => match taken "TIMESTAMP" "TO_TIMESTAMP" ["2006-01-02 15:04:05"] with Some m => m | None => mret None end
    end
  end.

Definition parseName (tok : Token) : PM Expression :=
  let ident := Literal tok in
  let upper := ToUpper ident in
  advance;;
  if bool_decide (upper = rs "CURRENT_DATE") || bool_decide (upper = rs "CURRENT_TIME") || bool_decide (upper = rs "CURRENT_TIMESTAMP")
  then mret (EFunctionCall upper []) else
  lit ← dateLiteral upper;
  match lit with Some e => mret e | None =>
  dot ← current;
  ident ← (if isType dot TOKEN_DOT then
             advance;;
             col ← current;
             if negb (isType col TOKEN_IDENT) then throw (ErrExpected "column name after '.'" col)
             else advance;; mret (ident ++ rs "." ++ Literal col)
           else mret ident);
  old ← oldNew ident;
  match old with Some e => mret e | None =>
  match splitDot ident with
  | (table, Some name) => parsePrimaryPost (EColumnRef name table)
  | (_, None) =>
      tok ← current;
      if isType tok TOKEN_LPAREN then
        r ← parseCall ident;
        match r with inl e => mret e | inr funcExpr => parsePrimaryPost funcExpr end
      else
        old ← oldNew ident;
        match old with Some e => mret e | None => parsePrimaryPost (EColumnRef ident []) end
  end end end.

(** A subquery up to its closing parenthesis. *)
Definition subqueryRest : PM Statement := stmt ← parseQuery; consume TOKEN_RPAREN "')'";; mret stmt.

Definition parsePrimary : PM Expression :=
  tok ← current;
  if isType tok TOKEN_LPAREN then
    nested (
      advance;;
      next ← current;
      if isType next TOKEN_SELECT then stmt ← subqueryRest; mret (ESubquery stmt)
      else expr ← parseExpression; consume TOKEN_RPAREN "')'";; mret expr)
  else if isType tok TOKEN_EXISTS then
    nested (
      advance;; consume TOKEN_LPAREN "'('";;
      next ← current;
      if negb (isType next TOKEN_SELECT) then throw (ErrMessage "expected SELECT after EXISTS (")
      else stmt ← subqueryRest; mret (EExists stmt false))
  else if isType tok TOKEN_CAST then parseCast
  else if isType tok TOKEN_CASE then parseCase
  else if isType tok TOKEN_UUID then
    advance;; consume TOKEN_LPAREN "'('";; consume TOKEN_RPAREN "')'";; mret (EFunctionCall (rs "UUID") [])
  else if isType tok TOKEN_LEFT then sideFunction "LEFT" tok
  else if isType tok TOKEN_RIGHT then sideFunction "RIGHT" tok
  else if isType tok TOKEN_CURRENT then
    advance;;
    next ← current;
    if isType next TOKEN_DATE then advance;; mret (EFunctionCall (rs "CURRENT_DATE") [])
    else if isType next TOKEN_TIME then advance;; mret (EFunctionCall (rs "CURRENT_TIME") [])
    else if isType next TOKEN_TIMESTAMP then advance;; mret (EFunctionCall (rs "CURRENT_TIMESTAMP") [])
    else throw (ErrSyntax tok "expected DATE, TIME, or TIMESTAMP after CURRENT")
  else if isType tok TOKEN_SUBSTRING then parseSubstring
  else if isOneOf tok [TOKEN_IDENT; TOKEN_COALESCE] then parseName tok
  else if isType tok TOKEN_PARAM then
    advance;;
    match Atoi (Literal tok) with Some idx => mret (EParam idx) | None => throw (ErrSyntax tok "invalid parameter index") end
  else if isOneOf tok [TOKEN_INT_LIT; TOKEN_FLOAT_LIT; TOKEN_STRING_LIT; TOKEN_TRUE; TOKEN_FALSE; TOKEN_NULL] then
    value ← tokenToValue tok; advance;; mret (EValue value)
  else throw (ErrExpected "expression" tok).

(** Operators of one level, from the left. *)
Fixpoint binaryLoop (n : nat) (ops : list TokenType) (operand : PM Expression) (left : Expression) : PM Expression :=
  match n with
  | O => throw ErrFuel
  | S n =>
      tok ← current;
      if isOneOf tok ops then advance;; right ← operand; binaryLoop n ops operand (EBinary left (Literal tok) right) else mret left
  end.

Definition parseMultiplication : PM Expression :=
  left ← parsePrimary; n ← loopSteps; binaryLoop n [TOKEN_STAR; TOKEN_SLASH] parsePrimary left.

Definition parseAddition : PM Expression :=
  left ← parseMultiplication; n ← loopSteps; binaryLoop n [TOKEN_PLUS; TOKEN_MINUS] parseMultiplication left.

Definition comparisonOperators : list TokenType :=
  [TOKEN_EQ; TOKEN_NEQ; TOKEN_LT; TOKEN_GT; TOKEN_LTE; TOKEN_GTE; TOKEN_SEMANTIC_MATCH; TOKEN_FTS_MATCH; TOKEN_JSON_CONTAINS;
   TOKEN_JSON_CONTAINED_BY; TOKEN_JSON_HAS_KEY; TOKEN_JSON_MERGE; TOKEN_FULLTEXT_MATCH].

(** After IN. *)
Definition parseIn (left : Expression) (not : bool) : PM Expression :=
  consume TOKEN_LPAREN "'('";;
  tok ← current;
  list ← (if isType tok TOKEN_SELECT then stmt ← nested parseQuery; mret [ESubquery stmt] else parseValueListUntilRParen);
  consume TOKEN_RPAREN "')'";;
  mret (EIn left not list).

(** After BETWEEN. *)
Definition parseBetween (left : Expression) (not : bool) : PM Expression :=
  lower ← parseAddition;
  consume TOKEN_AND "AND";;
  upper ← parseAddition;
  mret (EBetween left lower upper not).

Definition parseLike (left : Expression) (op : string) : PM Expression :=
  right ← parseAddition; mret (EBinary left (rs op) right).

Definition parseComparison : PM Expression :=
  left ← parseAddition;
  tok ← current;
  if isOneOf tok comparisonOperators then
    let op := Literal tok in
    advance;;
    tok ← current;
    if isOneOf tok [TOKEN_ALL; TOKEN_ANY; TOKEN_SOME] then
      advance;;
      stmt ← nested (consume TOKEN_LPAREN "'('";; subqueryRest);
      mret (EComparisonSubquery left op (ToUpper (Literal tok)) stmt)
    else right ← parseAddition; mret (EBinary left op right)
  else if isType tok TOKEN_LIKE then advance;; parseLike left "LIKE"
  else if isType tok TOKEN_ILIKE then advance;; parseLike left "ILIKE"
  else if isType tok TOKEN_IN then advance;; parseIn left false
  else if isType tok TOKEN_NOT then
    next ← peek;
    if isType next TOKEN_BETWEEN then advance;; advance;; parseBetween left true
    else if isType next TOKEN_IN then advance;; advance;; parseIn left true
    else if isType next TOKEN_LIKE then advance;; advance;; e ← parseLike left "LIKE"; mret (ENot e)
    else if isType next TOKEN_ILIKE then advance;; advance;; e ← parseLike left "ILIKE"; mret (ENot e)
    else if isType next TOKEN_EXISTS then
      advance;; advance;; consume TOKEN_LPAREN "'('";;
      tok ← current;
      if negb (isType tok TOKEN_SELECT) then throw (ErrMessage "expected SELECT after NOT EXISTS (")
      else stmt ← nested subqueryRest; mret (EExists stmt true)
    else mret left
  else if isType tok TOKEN_IS then
    advance;;
    tok ← current;
    next ← peek;
    if isType tok TOKEN_NULL then advance;; mret (EBinary left (rs "IS") (EValue VNull))
    else if isType tok TOKEN_NOT && isType next TOKEN_NULL then advance;; advance;; mret (EBinary left (rs "IS NOT") (EValue VNull))
    else mret left
  else if isType tok TOKEN_BETWEEN then advance;; parseBetween left false
  else mret left.

Fixpoint notLoop (n : nat) : PM Expression :=
  match n with
  | O => throw ErrFuel
  | S n =>
      tok ← current;
      if isType tok TOKEN_NOT then advance;; e ← notLoop n; mret (ENot e) else parseComparison
  end.

Definition parseNot : PM Expression := n ← loopSteps; notLoop n.

Fixpoint andLoop (n : nat) (left : Expression) : PM Expression :=
  match n with
  | O => throw ErrFuel
  | S n =>
      tok ← current;
      if isType tok TOKEN_AND then advance;; right ← parseNot; andLoop n (EAnd left right) else mret left
  end.

Definition parseAnd : PM Expression := left ← parseNot; n ← loopSteps; andLoop n left.

Fixpoint orLoop (n : nat) (left : Expression) : PM Expression :=
  match n with
  | O => throw ErrFuel
  | S n =>
      tok ← current;
      if isType tok TOKEN_OR then advance;; right ← parseAnd; orLoop n (EOr left right) else mret left
  end.

Definition parseOr : PM Expression := left ← parseAnd; n ← loopSteps; orLoop n left.

(** *** SELECT *)

Definition isReservedKeyword (s : text) : bool :=
  existsb (upperIs s) ["FROM"; "WHERE"; "GROUP"; "HAVING"; "ORDER"; "LIMIT"; "OFFSET"; "JOIN"; "INNER"; "LEFT"; "RIGHT"; "FULL"; "CROSS"; "ON";
                       "DISTINCT"].

Definition selectColumn : PM (Expression * text) :=
  expr ← parseExpression;
  tok ← current;
  if isType tok TOKEN_AS then advance;; alias ← consumeIdent "alias"; mret (expr, alias)
  else if isType tok TOKEN_IDENT && negb (isReservedKeyword (Literal tok)) then advance;; mret (expr, Literal tok)
  else mret (expr, []).

Definition parseSelectColumns : PM (list (Expression * text)) :=
  tok ← current;
  if isType tok TOKEN_STAR then advance;; mret [] else commaList selectColumn.

Definition parseDistinct : PM (bool * list Expression) :=
  tok ← current;
  if isType tok TOKEN_IDENT && upperIs (Literal tok) "DISTINCT" then
    advance;;
    tok ← current;
    if isType tok TOKEN_ON then
      advance;; consume TOKEN_LPAREN "'(' after DISTINCT ON";;
      on ← commaList parseExpression;
      consume TOKEN_RPAREN "')' after DISTINCT ON columns";;
      mret (true, on)
    else mret (true, [])
  else mret (false, []).

(** A name, or two with a dot between them. *)
Definition dottedName (what : string) : PM text :=
  name ← consumeIdent what;
  tok ← current;
  if isType tok TOKEN_DOT then advance;; sub ← consumeIdent "table name after '.'"; mret (name ++ rs "." ++ sub) else mret name.

(** An alias of the table of FROM, unless the word is one of [others]. *)
Definition fromAlias (what : string) (others : list string) : PM text :=
  tok ← current;
  next ← peek;
  if isType tok TOKEN_AS && negb (isType next TOKEN_OF) then advance;; consumeIdent what
  else if isType tok TOKEN_IDENT && negb (existsb (upperIs (Literal tok)) others) then advance;; mret (Literal tok)
  else mret [].

Definition setLateral (s : SelectStatement) : SelectStatement :=
  match s with
  | Select s => Select (mkSelect (Columns s) (TableName s) (Alias s) (FromSubquery s) (FromAlias s) true (Joins s) (Where s) (GroupBy s) (Having s)
      (OrderBy s) (Limit s) (HasLimit s) (LimitExpr s) (Offset s) (HasOffset s) (OffsetExpr s) (AsOf s) (Distinct s) (DistinctOn s)
      (ForUpdate s) (ForShare s))
  end.

(** The table name and its alias, or the derived table and its alias. *)
Definition parseFrom : PM (text * text * option SelectStatement * text) :=
  tok ← current;
  if negb (isType tok TOKEN_FROM) then mret ([], [], None, []) else
  advance;;
  tok ← current;
  let isLateral := isType tok TOKEN_LATERAL in
  (if isLateral then advance else mret tt);;
  tok ← current;
  if isType tok TOKEN_LPAREN || isLateral then
    sub ← nested (
      (if isType tok TOKEN_LPAREN then advance else mret tt);;
      stmt ← parseSelect;
      match stmt with
      | SSelect sub => (if isLateral then mret tt else consume TOKEN_RPAREN ")");; mret sub
      | _ => throw (ErrMessage "derived table: expected SELECT statement")
      end);
    alias ← fromAlias "derived table alias"
      ["WHERE"; "GROUP"; "HAVING"; "ORDER"; "LIMIT"; "OFFSET"; "JOIN"; "INNER"; "LEFT"; "RIGHT"; "FULL"; "CROSS"];
    mret ([], [], Some (if isLateral then setLateral sub else sub), alias)
  else
    tableName ← dottedName "table name";
    alias ← fromAlias "table alias"
      ["AS"; "VERSION"; "JOIN"; "INNER"; "LEFT"; "RIGHT"; "FULL"; "CROSS"; "WHERE"; "GROUP"; "HAVING"; "ORDER"; "LIMIT"; "OFFSET"];
    mret (tableName, alias, None, []).

Definition parseAsOf : PM (option AsOfClause) :=
  tok ← current;
  next ← peek;
  if isType tok TOKEN_AS && isType next TOKEN_OF then
    advance;; advance;; consume TOKEN_TIMESTAMP "TIMESTAMP";;
    tsToken ← current;
    if negb (isType tsToken TOKEN_STRING_LIT) then throw (ErrExpected "timestamp string literal" tsToken)
    else advance;; mret (Some (mkAsOf (Literal tsToken) 0 false))
  else if isType tok TOKEN_IDENT && upperIs (Literal tok) "VERSION" then
    advance;;
    verTok ← current;
    if negb (isType verTok TOKEN_INT_LIT) then throw (ErrExpected "VERSION number" verTok)
    else match ParseUint (Literal verTok) with
      | None => throw (ErrSyntax verTok "VERSION must be a positive integer")
      | Some ver => advance;; mret (Some (mkAsOf [] ver true))
      end
  else mret None.

Definition joinAlias : PM text :=
  tok ← current;
  if isType tok TOKEN_AS then advance;; consumeIdent "join alias"
  else if isType tok TOKEN_IDENT && negb (upperIs (Literal tok) "ON") then advance;; mret (Literal tok)
  else mret [].

Fixpoint joinLoop (n : nat) (joins : list JoinClause) : PM (list JoinClause) :=
  match n with
  | O => throw ErrFuel
  | S n =>
      tok ← current;
      if negb (isOneOf tok [TOKEN_JOIN; TOKEN_INNER; TOKEN_LEFT; TOKEN_RIGHT; TOKEN_FULL; TOKEN_CROSS]) then mret joins else
      advance;;
      joinType ← (if isType tok TOKEN_JOIN then mret (rs "INNER")
                  else next ← current; (if isType next TOKEN_JOIN then advance else mret tt);; mret (Literal tok));
      joinTable ← dottedName "join table name";
      alias ← joinAlias;
      cond ← (if upperIs joinType "CROSS" then mret None else consume TOKEN_ON "ON";; e ← parseExpression; mret (Some e));
      joinLoop n (joins ++ [mkJoin (ToUpper joinType) joinTable alias cond])
  end.

(** An expression after a keyword, if it is there. *)
Definition clause (t : TokenType) : PM (option Expression) :=
  tok ← current;
  if isType tok t then advance;; e ← parseExpression; mret (Some e) else mret None.

Definition byClause {A} (t : TokenType) (item : PM A) : PM (list A) :=
  tok ← current;
  if isType tok t then advance;; consume TOKEN_BY "BY";; commaList item else mret [].

(** LIMIT and OFFSET: a number, or a parameter. *)
Definition countClause (t : TokenType) (what bad : string) : PM (Z * bool * option Expression) :=
  tok ← current;
  if negb (isType tok t) then mret (0, false, None) else
  advance;;
  tok ← current;
  if isType tok TOKEN_INT_LIT then
    match Atoi (Literal tok) with
    | Some n => if n <? 0 then throw (ErrSyntax tok bad) else advance;; mret (n, true, None)
    | None => throw (ErrSyntax tok bad)
    end
  else if isType tok TOKEN_PARAM then e ← parseExpression; mret (0, true, Some e)
  else throw (ErrExpected what tok).

(** FOR UPDATE and FOR SHARE. *)
Definition forClause : PM (bool * bool) :=
  tok ← current;
  if negb (isType tok TOKEN_FOR) then mret (false, false) else
  advance;;
  tok ← current;
  if isType tok TOKEN_UPDATE then advance;; mret (true, false)
  else if isType tok TOKEN_IDENT && upperIs (Literal tok) "SHARE" then advance;; mret (false, true)
  else throw (ErrExpected "UPDATE or SHARE after FOR" tok).

Definition selectBody : PM Statement :=
  advance;;
  '(distinct, distinctOn) ← parseDistinct;
  columns ← parseSelectColumns;
  '(tableName, alias, fromSubquery, fromAlias) ← parseFrom;
  asOf ← parseAsOf;
  n ← loopSteps;
  joins ← joinLoop n [];
  where_ ← clause TOKEN_WHERE;
  groupBy ← byClause TOKEN_GROUP parseExpression;
  having ← clause TOKEN_HAVING;
  orderBy ← byClause TOKEN_ORDER orderItem;
  '(limit, hasLimit, limitExpr) ← countClause TOKEN_LIMIT "LIMIT value" "LIMIT must be a non-negative integer";
  '(offset, hasOffset, offsetExpr) ← countClause TOKEN_OFFSET "OFFSET value" "OFFSET must be a non-negative integer";
  '(forUpdate, forShare) ← forClause;
  mret (SSelect (Select (mkSelect columns tableName alias fromSubquery fromAlias false joins where_ groupBy having orderBy limit hasLimit limitExpr
    offset hasOffset offsetExpr asOf distinct distinctOn forUpdate forShare))).
End Expressions.

(** *** The recursion *)

Fixpoint parseExpressionN (n : nat) : PM Expression :=
  match n with
  | O => throw ErrFuel
  | S n => parseOr (λ p, parseExpressionN n p) (λ p, parseSelectN n p)
  end
with parseSelectN (n : nat) : PM Statement :=
  match n with
  | O => throw ErrFuel
  | S n => selectBody (λ p, parseExpressionN n p) (λ p, parseSelectN n p)
  end.

(** Two levels for each token are enough. *)
Definition levels (p : sqlParser) : nat := (2 * length (tokens p) + 2)%nat.

Definition parseExpression : PM Expression := λ p, parseExpressionN (levels p) p.
Definition parseSelect : PM Statement := λ p, parseSelectN (levels p) p.
End Parser.

(** ** Back to text *)

Definition ofBytes (b : bytes) : text := byte.unsigned <$> b.
Definition intText (z : Z) : text := ofBytes (FormatInt z).

(** [StatementType]. *)
Definition statementType (s : Statement) : text := match s with SSelect _ => rs "SELECT" | SSetOperation _ _ _ => rs "SET_OPERATION" end.

Definition notText (not : bool) : text := if not then rs "NOT " else [].

Section Format.
(** [strconv.FormatFloat(f, 'f', -1, 64)]. *)
Context (upperBeyond : Z → Z) (FormatFloat : Z → text).

Definition formatValueSQL (v : Value) : text :=
  match v with
  | VString s => rs "'" ++ s ++ rs "'"
  | VInt z => intText z
  | VFloat f => FormatFloat f
  | VBool b => if b then rs "TRUE" else rs "FALSE"
  | VNull => rs "NULL"
  end.

(** The clauses of [OVER (...)]. *)
Definition overParts (partitionBy orderBy : list text) : list text :=
  (if bool_decide (length partitionBy = 0%nat) then [] else [rs "PARTITION BY " ++ joinText ", " partitionBy]) ++
  (if bool_decide (length orderBy = 0%nat) then [] else [rs "ORDER BY " ++ joinText ", " orderBy]).

(** The direction of an [OrderByClause]. *)
Definition direction (dir : text) (asc : bool) : text := if bool_decide (dir = []) then if asc then rs "ASC" else rs "DESC" else dir.

Fixpoint FormatExpression (expr : Expression) : text :=
  match expr with
  | EBinary l op r => FormatExpression l ++ rs " " ++ op ++ rs " " ++ FormatExpression r
  | EAnd l r => rs "(" ++ FormatExpression l ++ rs " AND " ++ FormatExpression r ++ rs ")"
  | EOr l r => rs "(" ++ FormatExpression l ++ rs " OR " ++ FormatExpression r ++ rs ")"
  | ENot e => rs "NOT " ++ FormatExpression e
  | EColumnRef name table => if bool_decide (table = []) then name else table ++ rs "." ++ name
  | EValue v => formatValueSQL v
  | EIn l not r => FormatExpression l ++ rs " " ++ notText not ++ rs "IN (" ++ joinText ", " (FormatExpression <$> r) ++ rs ")"
  | EParam i => rs "$" ++ intText i
  | EFunctionCall name args => name ++ rs "(" ++ joinText ", " (FormatExpression <$> args) ++ rs ")"
  | EAggregate name args distinct =>
      name ++ rs "(" ++ (if distinct then rs "DISTINCT " else []) ++ joinText ", " (FormatExpression <$> args) ++ rs ")"
  | ECast e ty => rs "CAST(" ++ FormatExpression e ++ rs " AS " ++ ty ++ rs ")"
  | ECase base whens els =>
      rs "CASE" ++ match base with Some b => rs " " ++ FormatExpression b | None => [] end ++
      mjoin ((λ '(c, r), rs " WHEN " ++ FormatExpression c ++ rs " THEN " ++ FormatExpression r) <$> whens) ++
      match els with Some e => rs " ELSE " ++ FormatExpression e | None => [] end ++ rs " END"
  | ESubquery q => rs "(" ++ statementType q ++ rs ")"
  | EExists q not => notText not ++ rs "EXISTS (" ++ statementType q ++ rs ")"
  | EBetween e lo hi not =>
      FormatExpression e ++ rs " " ++ notText not ++ rs "BETWEEN " ++ FormatExpression lo ++ rs " AND " ++ FormatExpression hi
  | EJsonPath l op path => FormatExpression l ++ op ++ rs "'" ++ path ++ rs "'"
  | EJSONAccess e op arg => FormatExpression e ++ rs " " ++ op ++ rs " " ++ FormatExpression arg
  | EWindow function partitionBy orderBy =>
      ToUpper upperBeyond function ++ rs "() OVER (" ++
      joinText " " (overParts (FormatExpression <$> partitionBy)
                              ((λ '(e, dir, asc), FormatExpression e ++ rs " " ++ direction dir asc) <$> orderBy)) ++ rs ")"
  | EWindowFunction name args over =>
      let parts := overParts (FormatExpression <$> PartitionBy over)
        ((λ '(e, dir), FormatExpression e ++ if bool_decide (dir = []) then [] else rs " " ++ dir) <$> WinOrderBy over) in
      name ++ rs "(" ++ joinText ", " (FormatExpression <$> args) ++ rs ")" ++
      (if bool_decide (length parts = 0%nat) then [] else rs " OVER (" ++ joinText " " parts ++ rs ")")
  | EComparisonSubquery l op quantifier _ => FormatExpression l ++ rs " " ++ op ++ rs " " ++ quantifier ++ rs " (SUBQUERY)"
  end.

Definition asAlias (alias : text) : text := if bool_decide (alias = []) then [] else rs " AS " ++ alias.

Definition formatJoin (j : JoinClause) : text :=
  rs " " ++ JType j ++ rs " JOIN " ++ JTableName j ++ asAlias (JAlias j) ++
  match Condition j with Some c => rs " ON " ++ FormatExpression c | None => [] end.

Definition formatList {A} (pre : string) (f : A → text) (l : list A) : text :=
  if bool_decide (length l = 0%nat) then [] else rs pre ++ joinText ", " (f <$> l).

Definition formatOption {A} (pre : string) (f : A → text) (o : option A) : text := match o with Some a => rs pre ++ f a | None => [] end.

Fixpoint FormatSelectStatement (sel : SelectStatement) : text :=
  match sel with
  | Select s =>
      rs "SELECT " ++ (if Distinct s then rs "DISTINCT " else []) ++
      (if bool_decide (length (Columns s) = 0%nat) then rs "*"
       else joinText ", " ((λ '(e, alias), FormatExpression e ++ asAlias alias) <$> Columns s)) ++
      (if bool_decide (TableName s = []) then
         match FromSubquery s with
         | Some sub => rs " FROM (" ++ FormatSelectStatement sub ++ rs ")" ++ asAlias (FromAlias s)
         | None => []
         end
       else rs " FROM " ++ TableName s ++ asAlias (Alias s)) ++
      mjoin (formatJoin <$> Joins s) ++
      formatOption " WHERE " FormatExpression (Where s) ++
      formatList " GROUP BY " FormatExpression (GroupBy s) ++
      formatOption " HAVING " FormatExpression (Having s) ++
      formatList " ORDER BY " (λ '(e, dir), FormatExpression e ++ if bool_decide (dir = []) then [] else rs " " ++ dir) (OrderBy s) ++
      (if HasLimit s then rs " LIMIT " ++ intText (Limit s) else formatOption " LIMIT " FormatExpression (LimitExpr s)) ++
      (if HasOffset s then rs " OFFSET " ++ intText (Offset s) else formatOption " OFFSET " FormatExpression (OffsetExpr s))
  end.
End Format.

(** ** Texts *)

Section Text.
Context (letterBeyond : Z → bool) (upperBeyond : Z → Z) (ParseFloat : text → option Z).

(** [strings.TrimSpace(expr) == ""]. *)
Definition blank (s : text) : bool := forallb IsSpace s.

(** [None] is the error of the lexer. *)
Definition ParseExpression (expr : text) : option (outcome parse_error Expression) :=
  if blank expr then Some (Err (ErrMessage "empty expression")) else
  match Tokenize letterBeyond upperBeyond expr with
  | Ok toks => Some (snd (parseExpression upperBeyond ParseFloat (mkParser toks 0 0)))
  | _ => None
  end.
End Text.
