(* ===== verification/ParserSpec.v ===== *)
(** * The parser ends

    On every text the lexer and the parser come to an end: the loops and the
    recursion of the parser go forward over the tokens, so that the bounds of the
    model are never what stops them. *)

From S2P Require Import Prelude Bytes Strconv Lexer Parser.

(** ** Termination *)

(** A token that is not the end of the text. *)
Definition notEof (tok : Token) : Prop := isType tok TOKEN_EOF = false ∨ Literal tok ≠ [].

(** The end of the text is the last token, and the parser is not past it. *)
Definition Wf (p : sqlParser) : Prop :=
  (pos p < length (tokens p))%nat ∧ ¬ notEof (default eofToken (last (tokens p))).

Definition rem (p : sqlParser) : nat := (length (tokens p) - pos p)%nat.

(** From a state with [P] and at most [d] tokens left, [m] only goes forward and does not run out of steps. *)
Definition safeIf {A} (P : sqlParser → Prop) (d : nat) (m : PM A) : Prop :=
  ∀ p, Wf p → (rem p ≤ d)%nat → P p →
  match m p with (p', r) => tokens p' = tokens p ∧ Wf p' ∧ (pos p ≤ pos p')%nat ∧ r ≠ Err ErrFuel ∧ r ≠ Panic end.

Abbreviation safe := (safeIf (λ _, True)).
Abbreviation safeAt tok := (safeIf (λ p, currentOf p = tok)).

Lemma safe_weaken {A} P Q d d' (m : PM A) : (∀ p, P p → Q p) → (d ≤ d')%nat → safeIf Q d' m → safeIf P d m.
Proof. intros HPQ Hd Hm p Hp Hr HP. apply Hm; [done|lia|by apply HPQ]. Qed.

Lemma safe_at {A} d tok (m : PM A) : safe d m → safeAt tok d m.
Proof. intros Hm. by apply (safe_weaken _ (λ _, True) d d). Qed.

Lemma safe_le {A} d d' (m : PM A) : (d ≤ d')%nat → safe d' m → safe d m.
Proof. intros Hd Hm. by apply (safe_weaken _ (λ _, True) d d'). Qed.

Lemma safe_zero {A} P (m : PM A) : safeIf P 0 m.
Proof. intros p [Hp _] Hr. unfold rem in Hr. lia. Qed.

Lemma safe_ret {A} P d (a : A) : safeIf P d (mret a).
Proof. intros p Hp _ _. cbn. by split_and!. Qed.

Lemma safe_throw {A} P d e : e ≠ ErrFuel → safeIf P d (throw e : PM A).
Proof. intros He p Hp _ _. cbn. split_and!; [done|done|done| |done]. by intros [= ->]. Qed.

Lemma safe_bind {A B} P d (m : PM A) (f : A → PM B) : safeIf P d m → (∀ a, safe d (f a)) → safeIf P d (mbind f m).
Proof.
  intros Hm Hf p Hp Hr HP. specialize (Hm p Hp Hr HP). unfold mbind, M_bind. destruct (m p) as [p1 [a|e|]].
  - destruct Hm as (Ht & Hw & Hpos & _ & _). specialize (Hf a p1 Hw). destruct (f a p1) as [p2 r].
    destruct Hf as (Ht2 & Hw2 & Hpos2 & ? & ?); [unfold rem in *; rewrite Ht; lia|done|]. split_and!; [congruence|done|lia|done|done].
  - destruct Hm as (Ht & Hw & Hpos & Hf' & _). split_and!; [done..| |done]. intros [= ->]. done.
  - by destruct Hm as (_ & _ & _ & _ & ?).
Qed.

Lemma safe_current {A} P d (f : Token → PM A) : (∀ tok, safeAt tok d (f tok)) → safeIf P d (mbind f current).
Proof. intros Hf p Hp Hr HP. by apply Hf. Qed.

Lemma safe_peek {A} P d (f : Token → PM A) : (∀ tok, safeIf P d (f tok)) → safeIf P d (mbind f peek).
Proof. intros Hf p Hp Hr HP. by apply Hf. Qed.

Lemma safe_steps {A} P d (f : nat → PM A) : (∀ n d', (d' ≤ d)%nat → (d' < n)%nat → safeIf P d' (f n)) → safeIf P d (mbind f loopSteps).
Proof.
  intros Hf p Hp Hr HP. apply (Hf (S (length (tokens p))) (Nat.min d (length (tokens p))));
    try done; try lia. unfold rem in *. lia.
Qed.

Lemma advance_wf p : Wf p → tokens (advanceOf p) = tokens p ∧ Wf (advanceOf p) ∧ (pos p ≤ pos (advanceOf p))%nat.
Proof. intros [H1 H2]. unfold advanceOf. destruct (Nat.ltb_spec (S (pos p)) (length (tokens p))); cbn; split_and!; try done; lia. Qed.

Lemma safe_advance_last P d : safeIf P d advance.
Proof. intros p Hp _ _. cbn. destruct (advance_wf p Hp) as (? & ? & ?). by split_and!. Qed.

Lemma safe_advance {A} P d (m : PM A) : safe d m → safeIf P d (advance;; m).
Proof.
  intros Hm. apply safe_bind; [|done]. apply safe_advance_last.
Qed.

(** A token that is not the end of the text is really left behind. *)
Lemma safe_over {A} tok d (m : PM A) : notEof tok → safe d m → safeAt tok (S d) (advance;; m).
Proof.
  intros Hne Hm p Hp Hr Hcur. destruct Hp as [Hlt Hlast].
  assert (S (pos p) < length (tokens p))%nat as Hlt'.
  { destruct (decide (S (pos p) < length (tokens p))%nat); [done|]. exfalso. rewrite last_lookup in Hlast.
    replace (pred (length (tokens p))) with (pos p) in Hlast by lia. unfold currentOf in Hcur. by rewrite Hcur in Hlast. }
  unfold mbind, M_bind, advance, modify, advanceOf. rewrite (proj2 (Nat.ltb_lt _ _) Hlt').
  specialize (Hm (mkParser (tokens p) (S (pos p)) (depth p))). destruct (m _) as [p' r]. cbn in Hm.
  destruct Hm as (? & ? & ? & ? & ?); [done| |done|split_and!; try done; lia]. unfold rem in *. cbn in *. lia.
Qed.

Lemma safe_nested {A} P d (m : PM A) : (∀ e, P e → ∀ z, P (mkParser (tokens e) (pos e) z)) → safeIf P d m → safeIf P d (nested m).
Proof.
  intros HP Hm p Hp Hr Hpp. unfold nested, checkDepth. cbn. destruct (defaultMaxParserDepth <? depth p + 1); [by split_and!|].
  specialize (Hm (mkParser (tokens p) (pos p) (depth p + 1)) Hp Hr (HP p Hpp _)). destruct (m _) as [p' r]. cbn in Hm.
  destruct Hm as (? & ? & ? & ? & ?). unfold exitDepth. destruct (0 <? depth p'); by split_and!.
Qed.

Lemma safe_consume P d T what : safeIf P d (consume T what).
Proof.
  intros p Hp _ _. unfold consume, mbind, M_bind, current, gets. destruct (isType (currentOf p) T).
  - unfold advance, modify. destruct (advance_wf p Hp) as (? & ? & ?). by split_and!.
  - by split_and!.
Qed.

Lemma safe_consumeIdent P d what : safeIf P d (consumeIdent what).
Proof.
  intros p Hp _ _. unfold consumeIdent, mbind, M_bind, current, gets. destruct (isType (currentOf p) TOKEN_IDENT).
  - unfold advance, modify. destruct (advance_wf p Hp) as (? & ? & ?). by split_and!.
  - by split_and!.
Qed.

Lemma type_notEof tok T : isType tok T = true → tok_eqb T TOKEN_EOF = false → notEof tok.
Proof. unfold notEof, isType, tok_eqb. intros H1%Z.eqb_eq H2%Z.eqb_neq. left. apply Z.eqb_neq. congruence. Qed.

Lemma oneOf_notEof tok l : isOneOf tok l = true → existsb (λ T, tok_eqb T TOKEN_EOF) l = false → notEof tok.
Proof.
  intros (T & Hin & HT)%existsb_exists Hl. eapply type_notEof; [exact HT|]. apply not_true_is_false. intros He.
  apply not_true_iff_false in Hl. apply Hl, existsb_exists. by exists T.
Qed.

(** The token read is not the end of the text, by what is known of it. *)
Ltac noteof :=
  repeat match goal with
  | H : _ && _ = true |- _ => apply andb_true_iff in H as [? ?]
  | H : negb _ = false |- _ => apply negb_false_iff in H
  end;
  match goal with
  | H : notEof ?tok |- notEof ?tok => exact H
  | H : isType ?tok ?T = true |- notEof ?tok => exact (type_notEof tok T H eq_refl)
  | H : isOneOf ?tok ?l = true |- notEof ?tok => exact (oneOf_notEof tok l H eq_refl)
  end.

Create HintDb safe.
#[export] Hint Resolve safe_consume safe_consumeIdent safe_ret : safe.

(** One step of a proof that a program is safe. *)
Ltac safe_step :=
  match goal with
  | |- safeIf _ O _ => apply safe_zero
  | |- safeIf _ _ (mret _) => apply safe_ret
  | |- safeIf _ _ (throw _) => by apply safe_throw
  | |- safeIf _ _ (consume _ _) => apply safe_consume
  | |- safeIf _ _ (consumeIdent _) => apply safe_consumeIdent
  | |- safeIf _ _ (mbind _ current) => apply safe_current; intros ?tok
  | |- safeIf _ _ (mbind _ peek) => apply safe_peek; intros ?tok
  | |- safeIf _ _ (mbind _ loopSteps) => apply safe_steps; intros ?n ?d' ? ?
  | |- safeIf (λ p, currentOf p = _) (S _) (mbind _ advance) => apply safe_over; [noteof|]
  | |- safeIf _ _ (mbind _ advance) => apply safe_advance
  | |- safeIf _ _ advance => apply safe_advance_last
  | |- safeIf _ _ (nested _) => apply safe_nested; [done|]
  | |- safeIf _ _ (mbind _ _) => apply safe_bind; [|intros ?x]
  | |- safeIf _ _ (if ?b then _ else _) => let E := fresh "E" in destruct b eqn:E
  | |- safeIf _ _ (match ?x with _ => _ end) => let E := fresh "E" in destruct x eqn:E
  | H : safeIf (λ _, True) _ ?m |- safeIf (λ _, True) _ ?m => eapply safe_le; [|exact H]; lia
  | H : safeIf (λ _, True) _ ?m |- safeIf _ _ ?m => apply safe_at; eapply safe_le; [|exact H]; lia
  end.

Ltac safe := repeat safe_step; eauto with safe; try solve [apply safe_at; eauto with safe].

Section Total.
Context (upperBeyond : Z → Z) (ParseFloat : text → option Z).

Lemma safe_identifiers n d what items : (d < n)%nat → safe d (identifierLoop n what items).
Proof.
  revert d items. induction n as [|n IH]; intros [|d] items Hn; try lia; cbn [identifierLoop]; [safe|].
  safe. apply IH. lia.
Qed.

Lemma safe_comma {A} n d (item : PM A) items : safe d item → (d < n)%nat → safe d (commaLoop n item items).
Proof.
  revert d items. induction n as [|n IH]; intros [|d] items Hi Hn; try lia; cbn [commaLoop]; [safe|].
  safe. apply IH; [|lia]. eapply safe_le; [|exact Hi]. lia.
Qed.

Lemma safe_commaList {A} P d (item : PM A) : safe d item → safeIf P d (commaList item).
Proof.
  intros Hi. unfold commaList. safe. apply (safe_weaken _ (λ _, True) _ d'); [done|lia|]. apply safe_comma; [|done]. by eapply safe_le.
Qed.

Lemma safe_lengthType P d name what bad : safeIf P d (lengthType name what bad).
Proof. unfold lengthType. safe. Qed.

Lemma safe_enumValue P d : safeIf P d enumValue.
Proof. unfold enumValue. safe. Qed.

#[local] Hint Resolve safe_lengthType safe_enumValue safe_commaList : safe.

Lemma safe_columnType n d : (d < n)%nat → safe d (columnType n).
Proof.
  revert d. induction n as [|n IH]; intros [|d] Hn; try lia; cbn [columnType]; [safe|]. safe. apply IH. lia.
Qed.

Lemma safe_parseColumnType P d : safeIf P d parseColumnType.
Proof. unfold parseColumnType. safe. apply (safe_weaken _ (λ _, True) _ d'); [done|lia|]. by apply safe_columnType. Qed.

Lemma safe_tokenToValue P d tok : safeIf P d (tokenToValue ParseFloat tok).
Proof. unfold tokenToValue. safe. Qed.

Lemma safe_frameBound P d : safeIf P d parseFrameBound.
Proof. unfold parseFrameBound. safe. Qed.

#[local] Hint Resolve safe_parseColumnType safe_tokenToValue safe_frameBound : safe.

Lemma safe_frameSpec P d mode : safeIf P d (parseFrameSpec upperBeyond mode).
Proof. unfold parseFrameSpec. safe. Qed.

#[local] Hint Resolve safe_frameSpec : safe.

Section Level.
Context (d : nat) (expr : PM Expression) (sel : PM Statement) (Hexpr : safe d expr) (Hsel : safe d sel).

Lemma safe_values n d' items : (d' ≤ d)%nat → (d' < n)%nat → safe d' (valueLoop expr n items).
Proof.
  revert d' items. induction n as [|n IH]; intros [|d'] items Hd Hn; try lia; cbn [valueLoop]; [safe|]. safe. apply IH; lia.
Qed.

Lemma safe_valueList : safe d (parseValueListUntilRParen expr).
Proof. unfold parseValueListUntilRParen. safe. by apply safe_values. Qed.

Lemma safe_setLoop n d' left : (d' ≤ d)%nat → (d' < n)%nat → safe d' (setLoop upperBeyond sel n left).
Proof.
  revert d' left. induction n as [|n IH]; intros [|d'] left Hd Hn; try lia; cbn [setLoop]; [safe|]. safe.
  all: try (apply IH; lia). all: apply safe_at, IH; lia.
Qed.

Lemma safe_setOperation left : safe d (parseSetOperation upperBeyond sel left).
Proof. unfold parseSetOperation. safe. by apply safe_setLoop. Qed.

#[local] Hint Resolve safe_setOperation safe_valueList : safe.

Lemma safe_query : safe d (parseQuery upperBeyond sel).
Proof. unfold parseQuery. safe. Qed.

Lemma safe_orderItem : safe d (orderItem expr).
Proof. unfold orderItem. safe. Qed.

#[local] Hint Resolve safe_query safe_orderItem : safe.

Lemma safe_windowSpec : safe d (parseWindowSpec upperBeyond expr).
Proof. unfold parseWindowSpec. safe. all: try (apply safe_commaList; eauto with safe). Qed.

#[local] Hint Resolve safe_windowSpec : safe.

Lemma safe_attempt {A} d' (m : PM A) : safe d' m → safe d' (attempt m).
Proof.
  intros Hm p Hp Hr _. specialize (Hm p Hp Hr Logic.I). unfold attempt. destruct (m p) as [p' [a|e|]]; destruct Hm as (? & ? & ? & ? & ?).
  - by split_and!.
  - by destruct e; split_and!.
  - done.
Qed.

Lemma safe_postLoop n d' left : (d' ≤ d)%nat → (d' < n)%nat → safe d' (postLoop expr n left).
Proof.
  revert d' left. induction n as [|n IH]; intros [|d'] left Hd Hn; try lia; cbn [postLoop]; [safe|]. safe.
  - apply IH; lia.
  - apply safe_attempt. by eapply safe_le; [|exact Hexpr]; lia.
  - apply IH; lia.
Qed.

Lemma safe_primaryPost left : safe d (parsePrimaryPost expr left).
Proof. unfold parsePrimaryPost. safe. by apply safe_postLoop. Qed.

#[local] Hint Resolve safe_primaryPost : safe.

Lemma safe_cast tok : notEof tok → safeAt tok (S d) (parseCast expr).
Proof. intros. unfold parseCast. safe. Qed.

Lemma safe_whenLoop n d' whens : (d' ≤ d)%nat → (d' < n)%nat → safe d' (whenLoop expr n whens).
Proof. revert d' whens. induction n as [|n IH]; intros [|d'] whens Hd Hn; try lia; cbn [whenLoop]; [safe|]. safe. apply IH; lia. Qed.

Lemma safe_case tok : notEof tok → safeAt tok (S d) (parseCase expr).
Proof. intros. unfold parseCase. safe. by apply safe_whenLoop. Qed.

Lemma safe_side tok name : notEof tok → safeAt tok (S d) (sideFunction expr name tok).
Proof. intros. unfold sideFunction. safe. Qed.

Lemma safe_substring tok : notEof tok → safeAt tok (S d) (parseSubstring expr).
Proof. intros. unfold parseSubstring. safe. Qed.

Lemma safe_call ident : safe d (parseCall upperBeyond expr ident).
Proof. unfold parseCall. safe. Qed.

Lemma safe_oldNew ident : safe d (oldNew expr ident).
Proof. unfold oldNew. safe. Qed.

Lemma safe_dateLiteral upper : safe d (dateLiteral upper).
Proof.
  unfold dateLiteral. apply safe_peek. intros tok. cbv beta zeta.
  destruct (bool_decide (upper = rs "DATE") && _); [safe|]. destruct (bool_decide (upper = rs "TIME") && _); [safe|].
  destruct (bool_decide (upper = rs "TIMESTAMP") && _); safe.
Qed.

#[local] Hint Resolve safe_call safe_oldNew safe_dateLiteral : safe.

Lemma safe_name tok : notEof tok → safeAt tok (S d) (parseName upperBeyond expr tok).
Proof. intros. unfold parseName. safe. Qed.

Lemma safe_subqueryRest : safe d (subqueryRest upperBeyond sel).
Proof. unfold subqueryRest. safe. Qed.

#[local] Hint Resolve safe_cast safe_case safe_side safe_substring safe_name safe_subqueryRest : safe.

Lemma safe_primary : safe (S d) (parsePrimary upperBeyond ParseFloat expr sel).
Proof. unfold parsePrimary. safe. all: eauto using type_notEof, oneOf_notEof with safe. Qed.

Lemma safe_binaryLoop n d' ops operand left :
  existsb (λ T, tok_eqb T TOKEN_EOF) ops = false → safe d' operand → (d' < n)%nat → safe d' (binaryLoop n ops operand left).
Proof.
  intros Hops. revert d' left. induction n as [|n IH]; intros [|d'] left Ho Hn; try lia; cbn [binaryLoop]; [safe|].
  apply safe_current. intros tok. destruct (isOneOf tok ops) eqn:E; [|safe]. pose proof (oneOf_notEof _ _ E Hops). safe.
  apply IH; [|lia]. eapply safe_le; [|exact Ho]. lia.
Qed.

Lemma safe_multiplication : safe (S d) (parseMultiplication upperBeyond ParseFloat expr sel).
Proof.
  pose proof safe_primary as Hp. unfold parseMultiplication. safe. apply safe_binaryLoop; [done| |done]. by eapply safe_le.
Qed.

Lemma safe_addition : safe (S d) (parseAddition upperBeyond ParseFloat expr sel).
Proof.
  pose proof safe_multiplication as Hp. unfold parseAddition. safe. apply safe_binaryLoop; [done| |done]. by eapply safe_le.
Qed.

Lemma safe_in left not : safe d (parseIn upperBeyond expr sel left not).
Proof. unfold parseIn. safe. Qed.

Lemma safe_between left not : safe d (parseBetween upperBeyond ParseFloat expr sel left not).
Proof. pose proof safe_addition. unfold parseBetween. safe. Qed.

Lemma safe_like left op : safe d (parseLike upperBeyond ParseFloat expr sel left op).
Proof. pose proof safe_addition. unfold parseLike. safe. Qed.

#[local] Hint Resolve safe_in safe_between safe_like : safe.

Lemma safe_comparison : safe (S d) (parseComparison upperBeyond ParseFloat expr sel).
Proof. pose proof safe_addition. unfold parseComparison. safe. Qed.

Lemma safe_notLoop n d' : (d' ≤ S d)%nat → (d' < n)%nat → safe d' (notLoop upperBeyond ParseFloat expr sel n).
Proof.
  pose proof safe_comparison. revert d'. induction n as [|n IH]; intros [|d'] Hd Hn; try lia; cbn [notLoop]; [safe|]. safe. apply IH; lia.
Qed.

Lemma safe_not : safe (S d) (parseNot upperBeyond ParseFloat expr sel).
Proof. unfold parseNot. safe. by apply safe_notLoop. Qed.

Lemma safe_andLoop n d' left : (d' ≤ S d)%nat → (d' < n)%nat → safe d' (andLoop upperBeyond ParseFloat expr sel n left).
Proof.
  pose proof safe_not. revert d' left. induction n as [|n IH]; intros [|d'] left Hd Hn; try lia; cbn [andLoop]; [safe|]. safe. apply IH; lia.
Qed.

Lemma safe_and : safe (S d) (parseAnd upperBeyond ParseFloat expr sel).
Proof. pose proof safe_not. unfold parseAnd. safe. by apply safe_andLoop. Qed.

Lemma safe_orLoop n d' left : (d' ≤ S d)%nat → (d' < n)%nat → safe d' (orLoop upperBeyond ParseFloat expr sel n left).
Proof.
  pose proof safe_and. revert d' left. induction n as [|n IH]; intros [|d'] left Hd Hn; try lia; cbn [orLoop]; [safe|]. safe. apply IH; lia.
Qed.

Lemma safe_or : safe (S d) (parseOr upperBeyond ParseFloat expr sel).
Proof. pose proof safe_and. unfold parseOr. safe. by apply safe_orLoop. Qed.

End Level.

(** *** SELECT: an expression may come first, a query only after FROM *)

#[local] Hint Extern 1 (safeIf _ _ (commaList _)) => apply safe_commaList; eapply safe_le; [|eassumption]; lia : safe.

Section SelectLevel.
Context (d : nat) (expr : PM Expression) (sel : PM Statement) (Hexpr : safe (S d) expr) (Hsel : safe d sel).

Lemma safe_selectColumn : safe (S d) (selectColumn upperBeyond expr).
Proof. unfold selectColumn. safe. Qed.

Lemma safe_selectColumns : safe (S d) (parseSelectColumns upperBeyond expr).
Proof. pose proof safe_selectColumn. unfold parseSelectColumns. safe. Qed.

Lemma safe_distinct : safe (S d) (parseDistinct upperBeyond expr).
Proof. unfold parseDistinct. safe. Qed.

Lemma safe_dottedName P d' what : safeIf P d' (dottedName what).
Proof. unfold dottedName. safe. Qed.

Lemma safe_fromAlias P d' what others : safeIf P d' (fromAlias upperBeyond what others).
Proof. unfold fromAlias. safe. Qed.

#[local] Hint Resolve safe_dottedName safe_fromAlias : safe.

Lemma safe_from : safe (S d) (parseFrom upperBeyond sel).
Proof. unfold parseFrom. safe. Qed.

Lemma safe_asOf P d' : safeIf P d' (parseAsOf upperBeyond).
Proof. unfold parseAsOf. safe. Qed.

Lemma safe_joinAlias P d' : safeIf P d' (joinAlias upperBeyond).
Proof. unfold joinAlias. safe. Qed.

#[local] Hint Resolve safe_joinAlias : safe.

Lemma safe_joinLoop n d' joins : (d' ≤ S d)%nat → (d' < n)%nat → safe d' (joinLoop upperBeyond expr n joins).
Proof. revert d' joins. induction n as [|n IH]; intros [|d'] joins Hd Hn; try lia; cbn [joinLoop]; [safe|]. safe. apply IH; lia. Qed.

Lemma safe_clause t : safe (S d) (clause expr t).
Proof. unfold clause. safe. Qed.

Lemma safe_byClause {A} t (item : PM A) : safe (S d) item → safe (S d) (byClause t item).
Proof. intros. unfold byClause. safe. Qed.

Lemma safe_countClause t what bad : safe (S d) (countClause expr t what bad).
Proof. unfold countClause. safe. Qed.

Lemma safe_forClause P d' : safeIf P d' (forClause upperBeyond).
Proof. unfold forClause. safe. Qed.

#[local] Hint Resolve safe_selectColumns safe_distinct safe_from safe_asOf safe_clause safe_countClause safe_forClause : safe.

Lemma safe_selectBody : safe (S d) (selectBody upperBeyond expr sel).
Proof.
  pose proof (safe_orderItem (S d) expr Hexpr) as Ho. unfold selectBody. safe. { by apply safe_joinLoop. }
  all: (apply (safe_le d' (S d)); [lia|]); eauto using safe_byClause with safe.
Qed.
End SelectLevel.

Lemma safe_levels n d :
  ((2 * d ≤ S n)%nat → safe d (parseExpressionN upperBeyond ParseFloat n)) ∧ ((2 * d ≤ n)%nat → safe d (parseSelectN upperBeyond ParseFloat n)).
Proof.
  revert d. induction n as [|n IH]; intros [|d]; split; intros Hn; try lia; try apply safe_zero.
  - cbn [parseExpressionN]. apply safe_or; [apply (IH d); lia|apply (IH d); lia].
  - cbn [parseSelectN]. apply safe_selectBody; [apply (IH (S d)); lia|apply (IH d); lia].
Qed.
End Total.

(** ** Whole texts *)

Section Texts.
Context (letterBeyond : Z → bool) (upperBeyond : Z → Z) (ParseFloat : text → option Z).

Definition eofEmpty (tok : Token) : Prop := isType tok TOKEN_EOF = true → Literal tok = [].

Lemma newToken_empty l ty lit pos : tok_eqb ty TOKEN_EOF = false → eofEmpty (newToken l ty lit pos).
Proof. intros H1 H2. unfold isType in H2. cbn [Type_ newToken] in H2. congruence. Qed.

Lemma NextToken_empty l : eofEmpty (snd (NextToken letterBeyond upperBeyond l)).
Proof.
  unfold NextToken, tokenAt. generalize (skipWhitespace l). clear l. intros l. destruct (ch l =? 0); [done|].
  unfold one, two, numberToken, dollarToken, minusToken.
  repeat (match goal with |- eofEmpty (snd (if ?b then _ else _)) => destruct b | |- eofEmpty (snd (let '(_, _) := ?x in _)) => destruct x as [? ?] end;
          cbv zeta; cbn [snd]; try by apply newToken_empty).
  all: repeat case_match; cbn [snd]; try by apply newToken_empty.
  - unfold numberToken. destruct (readNumber l) as [l' [lit []]]; by apply newToken_empty.
  - match goal with |- context [LookupIdent upperBeyond ?k] => pose proof (keyword_known upperBeyond k) as [_ Hk] end.
    apply newToken_empty. by apply Z.eqb_neq.
Qed.

Lemma tokenLoop_ends n tokens l tokens' :
  tokenLoop letterBeyond upperBeyond n tokens l = Ok tokens' → ∃ before tok, tokens' = before ++ [tok] ∧ isType tok TOKEN_EOF = true ∧ Literal tok = [].
Proof.
  revert tokens l. induction n as [|n IH]; intros tokens l; cbn [tokenLoop]; [done|].
  pose proof (NextToken_empty l) as He. destruct (NextToken _ _ l) as [l' tok]. destruct (tok_eqb (Type_ tok) TOKEN_ILLEGAL); [done|].
  destruct (tok_eqb (Type_ tok) TOKEN_EOF) eqn:E; [intros [= <-]; exists tokens, tok; split_and!; [done|done|by apply He]|apply IH].
Qed.

Lemma Tokenize_wf sql toks depth : Tokenize letterBeyond upperBeyond sql = Ok toks → Wf (mkParser toks 0 depth).
Proof.
  intros (before & tok & -> & E & El)%tokenLoop_ends. split; cbn [pos tokens]; [rewrite length_app; cbn; lia|]. rewrite last_snoc. cbn.
  unfold notEof. rewrite E, El. intros [?|?]; done.
Qed.

(** A result that the bounds of the model have no part in. *)
Definition answered {A} (r : outcome parse_error A) : Prop := r ≠ Err ErrFuel ∧ r ≠ Panic.

Lemma safe_answered {A} p d (m : PM A) : Wf p → (rem p ≤ d)%nat → safe d m → answered (snd (m p)).
Proof. intros Hp Hd Hm. specialize (Hm p Hp Hd Logic.I). destruct (m p) as [p' r]. by destruct Hm as (_ & _ & _ & ? & ?). Qed.

(** Either the text has an illegal token, or its tokens, read as an expression and as a SELECT, give a tree or an error of the language:
    the loops and the recursion stop by themselves, within a step for every token, and two levels of recursion for every token. *)
Lemma expression_total sql depth :
  (∃ tok, Tokenize letterBeyond upperBeyond sql = Err tok) ∨
  (∃ toks, Tokenize letterBeyond upperBeyond sql = Ok toks ∧
     answered (snd (parseExpression upperBeyond ParseFloat (mkParser toks 0 depth))) ∧
     answered (snd (parseSelect upperBeyond ParseFloat (mkParser toks 0 depth)))).
Proof.
  destruct (Tokenize_ends letterBeyond upperBeyond sql) as [[toks E]|[tok E]]; [right|left; by exists tok].
  pose proof (Tokenize_wf sql toks depth E) as Hw. exists toks. split_and!; [done|..].
  - refine (safe_answered _ (length toks) (parseExpressionN _ _ _) Hw _ _); [unfold rem; cbn; lia|]. apply safe_levels. unfold levels. cbn [tokens]. lia.
  - refine (safe_answered _ (length toks) (parseSelectN _ _ _) Hw _ _); [unfold rem; cbn; lia|]. apply safe_levels. unfold levels. cbn [tokens]. lia.
Qed.
End Texts.
