(* ===== verification/Grammar.v ===== *)
(** * The grammar of expressions

    The sentences of the expression language with the trees they stand for, as
    rules by levels of precedence; the parser reads each sentence as its tree, so
    that the grammar is not ambiguous; and [FormatExpression] writes sentences
    that are read back, for the trees that need no parentheses but its own. *)

From S2P Require Import Prelude Bytes Strconv Lexer Parser.
From Stdlib Require Import Ascii.

(** ** The grammar

    The sentences of the expression language, by levels of precedence, with the
    tree each one stands for. [k] bounds the nesting of parentheses and calls. *)

Abbreviation kind := (TokenType * text)%type.
Definition kindOf (tok : Token) : kind := (Type_ tok, Literal tok).

Inductive level : Type := LPost | LPrim | LMul | LAdd | LCmp | LNot | LAnd | LOr.

Definition multiplicative : list TokenType := [TOKEN_STAR; TOKEN_SLASH].
Definition additive : list TokenType := [TOKEN_PLUS; TOKEN_MINUS].
Definition predicates : list TokenType := [TOKEN_LIKE; TOKEN_ILIKE; TOKEN_IN; TOKEN_NOT; TOKEN_IS; TOKEN_BETWEEN].

(** The tokens that go on with a sentence of a level. *)
Definition continues (lv : level) : list TokenType :=
  let call := [TOKEN_DOT; TOKEN_LPAREN; TOKEN_OVER] in
  let prim := call ++ [TOKEN_ARROW; TOKEN_DBL_ARROW; TOKEN_JSON_CONTAINS; TOKEN_JSON_HAS_KEY] in
  let cmp := prim ++ multiplicative ++ additive ++ comparisonOperators ++ predicates in
  match lv with
  | LPost => call
  | LPrim => prim
  | LMul => prim ++ multiplicative
  | LAdd => prim ++ multiplicative ++ additive
  | LCmp | LNot => cmp
  | LAnd => cmp ++ [TOKEN_AND]
  | LOr => cmp ++ [TOKEN_AND; TOKEN_OR]
  end.

Definition stop (lv : level) (t : TokenType) : bool := negb (existsb (tok_eqb t) (continues lv)).

(** The operators that only a comparison has. *)
Definition comparing (t : TokenType) : bool := existsb (tok_eqb t) comparisonOperators && stop LAdd t.

Section Grammar.
Context (upperBeyond : Z → Z) (ParseFloat : text → option Z).
Abbreviation ToUpper := (ToUpper upperBeyond).

(** Names that stand for themselves. *)
Definition plainName (s : text) : bool :=
  negb (existsb (upperIs upperBeyond s)
    ["CURRENT_DATE"; "CURRENT_TIME"; "CURRENT_TIMESTAMP"; "DATE"; "TIME"; "TIMESTAMP"; "DISTINCT"]).

Definition undotted (s : text) : bool := negb (existsb (Z.eqb (rune "."%char)) s).

Definition rowName (s : text) : bool := bool_decide (s = rs "old") || bool_decide (s = rs "new").

Definition callee (t : TokenType) : bool := tok_eqb t TOKEN_IDENT || tok_eqb t TOKEN_COALESCE.

Definition callOf (name : text) (args : list Expression) (distinct : bool) : Expression :=
  let nameUp := ToUpper name in
  if isAggregateName nameUp then EAggregate nameUp args distinct else EFunctionCall nameUp args.

(** The literals. *)
Inductive literal : kind → Value → Prop :=
  | lit_int s z : Atoi s = Some z → literal (TOKEN_INT_LIT, s) (VInt z)
  | lit_float s f : ParseFloat s = Some f → literal (TOKEN_FLOAT_LIT, s) (VFloat f)
  | lit_string s : literal (TOKEN_STRING_LIT, s) (VString s)
  | lit_true s : literal (TOKEN_TRUE, s) (VBool true)
  | lit_false s : literal (TOKEN_FALSE, s) (VBool false)
  | lit_null s : literal (TOKEN_NULL, s) VNull.

(** The types of one token, and VARCHAR with its length. *)
Inductive castType : list kind → text → Prop :=
  | type_plain t s name : find (λ e, tok_eqb t (fst e)) plainTypes = Some (t, name) → castType [(t, s)] (rs name)
  | type_varchar s : castType [(TOKEN_VARCHAR, s)] (rs "VARCHAR")
  | type_varchar_n s a n l b : Atoi n = Some l → castType [(TOKEN_VARCHAR, s); (TOKEN_LPAREN, a); (TOKEN_INT_LIT, n); (TOKEN_RPAREN, b)] (rs "VARCHAR").

Inductive derives : nat → level → Expression → list kind → Prop :=
  | d_column k s : plainName s = true → undotted s = true → rowName s = false → derives k LPost (EColumnRef s []) [(TOKEN_IDENT, s)]
  | d_qualified k t d c : plainName t = true → undotted t = true →
      derives k LPost (EColumnRef c t) [(TOKEN_IDENT, t); (TOKEN_DOT, d); (TOKEN_IDENT, c)]
  | d_call k ty s args ts a b distinct : callee ty = true → plainName s = true → undotted s = true → rowName s = false →
      derivesArgs k distinct args ts → derives (S k) LPost (callOf s args distinct) ((ty, s) :: (TOKEN_LPAREN, a) :: ts ++ [(TOKEN_RPAREN, b)])
  | d_path k e ts ty op path : tok_eqb ty TOKEN_ARROW || tok_eqb ty TOKEN_DBL_ARROW = true → derives k LPost e ts →
      derives k LPost (EJsonPath e op path) (ts ++ [(ty, op); (TOKEN_STRING_LIT, path)])
  | d_post k e ts : derives k LPost e ts → derives k LPrim e ts
  | d_value k t v : literal t v → derives k LPrim (EValue v) [t]
  | d_param k s i : Atoi s = Some i → derives k LPrim (EParam i) [(TOKEN_PARAM, s)]
  | d_paren k e ts a b : derives k LOr e ts → derives (S k) LPrim e ((TOKEN_LPAREN, a) :: ts ++ [(TOKEN_RPAREN, b)])
  | d_cast k e ts ty tys c a s b : derives k LOr e ts → castType tys ty →
      derives k LPrim (ECast e ty) ((TOKEN_CAST, c) :: (TOKEN_LPAREN, a) :: ts ++ (TOKEN_AS, s) :: tys ++ [(TOKEN_RPAREN, b)])
  | d_case k base bs whens ws els es c d : derivesBase k base bs → derivesWhens k whens ws → derivesElse k els es → whens ≠ [] →
      derives k LPrim (ECase base whens els) ((TOKEN_CASE, c) :: bs ++ ws ++ es ++ [(TOKEN_END, d)])
  | d_substring k e ts args ats c a b : derives k LOr e ts → derivesRange k args ats →
      derives k LPrim (EFunctionCall (rs "SUBSTRING") (e :: args)) ((TOKEN_SUBSTRING, c) :: (TOKEN_LPAREN, a) :: ts ++ ats ++ [(TOKEN_RPAREN, b)])
  | d_mul k e ts : derives k LPrim e ts → derives k LMul e ts
  | d_times k l op r ts ty ts' : existsb (tok_eqb ty) multiplicative = true → derives k LMul l ts → derives k LPrim r ts' →
      derives k LMul (EBinary l op r) (ts ++ (ty, op) :: ts')
  | d_add k e ts : derives k LMul e ts → derives k LAdd e ts
  | d_plus k l op r ts ty ts' : existsb (tok_eqb ty) additive = true → derives k LAdd l ts → derives k LMul r ts' →
      derives k LAdd (EBinary l op r) (ts ++ (ty, op) :: ts')
  | d_cmp k e ts : derives k LAdd e ts → derives k LCmp e ts
  | d_compare k l op r ts ty ts' : comparing ty = true → derives k LAdd l ts → derives k LAdd r ts' →
      derives k LCmp (EBinary l op r) (ts ++ (ty, op) :: ts')
  | d_like k l r ts ts' s : derives k LAdd l ts → derives k LAdd r ts' → derives k LCmp (EBinary l (rs "LIKE") r) (ts ++ (TOKEN_LIKE, s) :: ts')
  | d_not_like k l r ts ts' s n : derives k LAdd l ts → derives k LAdd r ts' →
      derives k LCmp (ENot (EBinary l (rs "LIKE") r)) (ts ++ (TOKEN_NOT, n) :: (TOKEN_LIKE, s) :: ts')
  | d_in k l items ts ts' s a b : derives k LAdd l ts → derivesList k items ts' →
      derives k LCmp (EIn l false items) (ts ++ (TOKEN_IN, s) :: (TOKEN_LPAREN, a) :: ts' ++ [(TOKEN_RPAREN, b)])
  | d_not_in k l items ts ts' s a b n : derives k LAdd l ts → derivesList k items ts' →
      derives k LCmp (EIn l true items) (ts ++ (TOKEN_NOT, n) :: (TOKEN_IN, s) :: (TOKEN_LPAREN, a) :: ts' ++ [(TOKEN_RPAREN, b)])
  | d_between k l lo hi ts ts1 ts2 s a : derives k LAdd l ts → derives k LAdd lo ts1 → derives k LAdd hi ts2 →
      derives k LCmp (EBetween l lo hi false) (ts ++ (TOKEN_BETWEEN, s) :: ts1 ++ (TOKEN_AND, a) :: ts2)
  | d_not_between k l lo hi ts ts1 ts2 s a n : derives k LAdd l ts → derives k LAdd lo ts1 → derives k LAdd hi ts2 →
      derives k LCmp (EBetween l lo hi true) (ts ++ (TOKEN_NOT, n) :: (TOKEN_BETWEEN, s) :: ts1 ++ (TOKEN_AND, a) :: ts2)
  | d_is_null k l ts s n : derives k LAdd l ts → derives k LCmp (EBinary l (rs "IS") (EValue VNull)) (ts ++ [(TOKEN_IS, s); (TOKEN_NULL, n)])
  | d_is_not_null k l ts s m n : derives k LAdd l ts →
      derives k LCmp (EBinary l (rs "IS NOT") (EValue VNull)) (ts ++ [(TOKEN_IS, s); (TOKEN_NOT, m); (TOKEN_NULL, n)])
  | d_lift_not k e ts : derives k LCmp e ts → derives k LNot e ts
  | d_not k e ts n : derives k LNot e ts → derives k LNot (ENot e) ((TOKEN_NOT, n) :: ts)
  | d_lift_and k e ts : derives k LNot e ts → derives k LAnd e ts
  | d_and k l r ts ts' s : derives k LAnd l ts → derives k LNot r ts' → derives k LAnd (EAnd l r) (ts ++ (TOKEN_AND, s) :: ts')
  | d_lift_or k e ts : derives k LAnd e ts → derives k LOr e ts
  | d_or k l r ts ts' s : derives k LOr l ts → derives k LAnd r ts' → derives k LOr (EOr l r) (ts ++ (TOKEN_OR, s) :: ts')
with derivesList : nat → list Expression → list kind → Prop :=
  | d_single k e ts : derives k LOr e ts → derivesList k [e] ts
  | d_comma k e ts c items ts' : derives k LOr e ts → derivesList k items ts' → derivesList k (e :: items) (ts ++ (TOKEN_COMMA, c) :: ts')
with derivesArgs : nat → bool → list Expression → list kind → Prop :=
  | d_no_args k : derivesArgs k false [] []
  | d_star k s : derivesArgs k false [EColumnRef (rs "*") []] [(TOKEN_STAR, s)]
  | d_args k items ts : derivesList k items ts → derivesArgs k false items ts
  | d_distinct k s items ts : upperIs upperBeyond s "DISTINCT" = true → derivesList k items ts → derivesArgs k true items ((TOKEN_IDENT, s) :: ts)
with derivesWhens : nat → list (Expression * Expression) → list kind → Prop :=
  | d_no_when k : derivesWhens k [] []
  | d_when k c ts r ts' whens ts'' w t : derives k LOr c ts → derives k LOr r ts' → derivesWhens k whens ts'' →
      derivesWhens k ((c, r) :: whens) ((TOKEN_WHEN, w) :: ts ++ (TOKEN_THEN, t) :: ts' ++ ts'')
with derivesBase : nat → option Expression → list kind → Prop :=
  | d_no_base k : derivesBase k None []
  | d_base k e ts : derives k LOr e ts → derivesBase k (Some e) ts
with derivesElse : nat → option Expression → list kind → Prop :=
  | d_no_else k : derivesElse k None []
  | d_else k e ts s : derives k LOr e ts → derivesElse k (Some e) ((TOKEN_ELSE, s) :: ts)
with derivesRange : nat → list Expression → list kind → Prop :=
  | d_no_range k : derivesRange k [] []
  | d_from k e ts ty s : tok_eqb ty TOKEN_FROM || tok_eqb ty TOKEN_COMMA = true → derives k LOr e ts → derivesRange k [e] ((ty, s) :: ts)
  | d_from_for k e ts e' ts' s f : derives k LOr e ts → derives k LOr e' ts' →
      derivesRange k [e; e'] ((TOKEN_FROM, s) :: ts ++ (TOKEN_FOR, f) :: ts')
  | d_from_comma k e ts e' ts' s f : derives k LOr e ts → derives k LOr e' ts' →
      derivesRange k [e; e'] ((TOKEN_COMMA, s) :: ts ++ (TOKEN_COMMA, f) :: ts').
End Grammar.

Scheme derives_mind := Induction for derives Sort Prop
with derivesList_mind := Induction for derivesList Sort Prop
with derivesArgs_mind := Induction for derivesArgs Sort Prop
with derivesWhens_mind := Induction for derivesWhens Sort Prop
with derivesBase_mind := Induction for derivesBase Sort Prop
with derivesElse_mind := Induction for derivesElse Sort Prop
with derivesRange_mind := Induction for derivesRange Sort Prop.
Combined Scheme derives_all_ind from derives_mind, derivesList_mind, derivesArgs_mind, derivesWhens_mind, derivesBase_mind, derivesElse_mind, derivesRange_mind.

(** ** The tokens ahead *)

Definition skip (p : sqlParser) (n : nat) : sqlParser := mkParser (tokens p) (pos p + n) (depth p).

(** Tokens of the kinds [ts] are ahead, then [w]; and [k] levels of nesting are left. *)
Definition input (k : nat) (ts : list kind) (p : sqlParser) (w : Token) : Prop :=
  ∃ ws rest, drop (pos p) (tokens p) = ws ++ w :: rest ∧ kindOf <$> ws = ts ∧ 0 ≤ depth p ∧ depth p + Z.of_nat k ≤ defaultMaxParserDepth.

Lemma skip_skip p a b : skip (skip p a) b = skip p (a + b).
Proof. unfold skip. cbn. f_equal. lia. Qed.

Lemma skip_0 p : skip p 0 = p.
Proof. unfold skip. rewrite Nat.add_0_r. by destruct p. Qed.

Lemma input_bound k ts p w : input k ts p w → (length ts < length (tokens p))%nat.
Proof.
  intros (ws & rest & E & <- & _). apply (f_equal length) in E. rewrite length_fmap. rewrite length_drop, length_app in E. cbn in E. lia.
Qed.

Lemma input_nil k p w : input k [] p w → currentOf p = w.
Proof.
  intros (ws & rest & E & ->%fmap_nil_inv & _). unfold currentOf. rewrite <- (Nat.add_0_r (pos p)), <- lookup_drop, E. done.
Qed.

Lemma input_app k a t b p w : input k (a ++ t :: b) p w → ∃ w1, kindOf w1 = t ∧ input k a p w1 ∧ input k (t :: b) (skip p (length a)) w.
Proof.
  intros (ws & rest & E & (wa & wb & -> & (w1 & wb' & -> & -> & ->)%symmetry%fmap_cons_inv & ->)%fmap_app_inv & H0 & H1).
  exists w1. rewrite <- app_assoc in E. split_and!; [done| |].
  - exists wa, (wb' ++ w :: rest). by split_and!.
  - exists (w1 :: wb'), rest. split_and!; [|done..]. cbn [skip tokens pos]. rewrite <- drop_drop, E, length_fmap. by rewrite drop_app_length.
Qed.

Lemma input_skip k a b p w : input k (a ++ b) p w → input k b (skip p (length a)) w.
Proof.
  intros (ws & rest & E & (wa & wb & -> & -> & ->)%fmap_app_inv & H0 & H1). rewrite <- app_assoc in E.
  exists wb, rest. split_and!; [|done..]. cbn [skip tokens pos]. rewrite <- drop_drop, E, length_fmap. by rewrite drop_app_length.
Qed.

Lemma input_tl k t ts p w : input k (t :: ts) p w → input k ts (skip p 1) w.
Proof. apply (input_skip k [t] ts p w). Qed.

Lemma input_head k t ts p w : input k (t :: ts) p w → ∃ line col, currentOf p = mkToken (fst t) (snd t) line col.
Proof.
  intros (ws & rest & E & (w1 & ws' & -> & _ & ->)%fmap_cons_inv & _). exists (Line w1), (Col w1). unfold currentOf.
  rewrite <- (Nat.add_0_r (pos p)), <- lookup_drop, E. by destruct w1.
Qed.

Lemma input_advance k t ts p w : input k (t :: ts) p w → advanceOf p = skip p 1.
Proof.
  intros (ws & rest & E & (w1 & ws' & _ & _ & ->)%fmap_cons_inv & _). unfold advanceOf, skip. apply (f_equal length) in E.
  rewrite length_drop in E. cbn in E. rewrite length_app in E. cbn in E. rewrite (proj2 (Nat.ltb_lt _ _)) by lia. f_equal. lia.
Qed.

Lemma peek_skip p : peekOf p = currentOf (skip p 1).
Proof. unfold peekOf, currentOf. cbn. by rewrite Nat.add_1_r. Qed.

(** ** Steps of the parser over the tokens ahead *)

Lemma step_bind {A B} (m : PM A) (f : A → PM B) p p' a R : m p = (p', Ok a) → f a p' = R → mbind f m p = R.
Proof. intros E <-. unfold mbind, M_bind. by rewrite E. Qed.

Lemma step_current {A} k t ts p w (f : Token → PM A) R :
  input k (t :: ts) p w → (∀ line col, f (mkToken (fst t) (snd t) line col) p = R) → mbind f current p = R.
Proof. intros (line & col & E)%input_head Hf. change (mbind f current p) with (f (currentOf p) p). rewrite E. apply Hf. Qed.

Lemma step_next {A} k p w (f : Token → PM A) R : input k [] p w → f w p = R → mbind f current p = R.
Proof. intros <-%input_nil Hf. exact Hf. Qed.

Lemma step_peek {A} k t u ts p w (f : Token → PM A) R :
  input k (t :: u :: ts) p w → (∀ line col, f (mkToken (fst u) (snd u) line col) p = R) → mbind f peek p = R.
Proof.
  intros (line & col & E)%input_tl%input_head Hf. change (mbind f peek p) with (f (peekOf p) p). rewrite peek_skip, E. apply Hf.
Qed.

Lemma step_advance {A} k t ts p w (m : PM A) R : input k (t :: ts) p w → m (skip p 1) = R → (advance;; m) p = R.
Proof. intros E%input_advance <-. unfold mbind, M_bind, advance, modify. by rewrite E. Qed.

Lemma step_consume {A} k t s ts p w what (m : PM A) R : input k ((t, s) :: ts) p w → m (skip p 1) = R → (consume t what;; m) p = R.
Proof.
  intros H Hm. eapply step_bind; [|exact Hm]. unfold consume. eapply step_current; [exact H|]. intros line col. cbn [fst snd].
  unfold isType, tok_eqb. cbn [Type_]. rewrite Z.eqb_refl. unfold advance, modify. by rewrite (input_advance _ _ _ _ _ H).
Qed.

Lemma step_steps {A} (f : nat → PM A) p R : f (S (length (tokens p))) p = R → mbind f loopSteps p = R.
Proof. done. Qed.

Definition deeper (p : sqlParser) : sqlParser := mkParser (tokens p) (pos p) (depth p + 1).

Lemma input_deeper k ts p w : input (S k) ts p w → input k ts (deeper p) w.
Proof. intros (ws & rest & E & Hk & H0 & H1). exists ws, rest. split_and!; [done|done|cbn; lia|cbn in *; lia]. Qed.

Lemma step_nested {A} k ts p w (m : PM A) n a : input (S k) ts p w → m (deeper p) = (skip (deeper p) n, Ok a) → nested m p = (skip p n, Ok a).
Proof.
  intros (_ & _ & _ & _ & H0 & H1) Hm. unfold nested, checkDepth. cbn [depth]. rewrite (proj2 (Z.ltb_ge _ _)) by (unfold defaultMaxParserDepth in *; lia).
  unfold deeper in Hm. rewrite Hm. unfold exitDepth, skip. cbn [depth]. rewrite (proj2 (Z.ltb_lt _ _)) by lia. cbn. repeat f_equal. lia.
Qed.

(** The answers of tests on the type of a known token. *)
Ltac types :=
  repeat match goal with
  | |- context [isType (mkToken ?A ?l ?x ?y) ?B] => let b := eval vm_compute in (tok_eqb A B) in change (isType (mkToken A l x y) B) with b
  | |- context [isOneOf (mkToken ?A ?l ?x ?y) ?L] => let b := eval vm_compute in (existsb (tok_eqb A) L) in change (isOneOf (mkToken A l x y) L) with b
  end; cbn [negb andb orb fst snd Literal]; cbv beta iota.

(** Read the tokens of known kinds. *)
Ltac eat1 :=
  match goal with
  | H : input _ (_ :: _) ?p _ |- mbind _ current ?p = _ => eapply step_current; [exact H|]; intros ?line ?col; types
  | H : input _ (_ :: _) ?p _ |- mbind _ advance ?p = _ => eapply step_advance; [exact H|]; apply input_tl in H
  | H : input _ (_ :: _) ?p _ |- mbind _ (consume _ _) ?p = _ => eapply step_consume; [exact H|]; apply input_tl in H
  | H : input _ (_ :: _ :: _) ?p _ |- mbind _ peek ?p = _ => eapply step_peek; [exact H|]; intros ?line ?col; types
  | |- mbind _ loopSteps _ = _ => apply step_steps
  end.
Ltac eat := repeat eat1.

(** The end: the same state, by the number of tokens read. *)
Ltac done_reading := unfold mret, M_ret; rewrite ?skip_skip; f_equal; f_equal; repeat (progress cbn [length app] || rewrite length_app); lia.

Lemma tok_eqb_eq a b : tok_eqb a b = true → a = b.
Proof.
  intros E%Z.eqb_eq. assert (∀ t, tokenTypes !! Z.to_nat (code t) = Some t) as Hnth by (intros t; destruct t; reflexivity).
  pose proof (Hnth a) as Ha. rewrite E, Hnth in Ha. by injection Ha.
Qed.

Lemma stop_type lv w T : stop lv (Type_ w) = true → existsb (tok_eqb T) (continues lv) = true → isType w T = false.
Proof.
  intros Hs (U & Hin & ->%tok_eqb_eq)%existsb_exists. apply not_true_is_false. intros Ht.
  apply negb_true_iff, not_true_iff_false in Hs. apply Hs, existsb_exists. by exists U.
Qed.

Lemma stop_oneOf lv w L : stop lv (Type_ w) = true → forallb (λ T, existsb (tok_eqb T) (continues lv)) L = true → isOneOf w L = false.
Proof.
  intros Hs HL. apply not_true_is_false. intros (T & Hin & HT)%existsb_exists.
  rewrite (stop_type lv w T Hs) in HT; [done|]. rewrite forallb_forall in HL. by apply HL.
Qed.

(** What the level stops at stops the levels inside it. *)
Lemma stop_sub lv lv' t : forallb (λ T, existsb (tok_eqb T) (continues lv)) (continues lv') = true → stop lv t = true → stop lv' t = true.
Proof. intros Hsub Hs. unfold stop. apply negb_true_iff. exact (stop_oneOf lv (mkToken t [] 0 0) _ Hs Hsub). Qed.

(** [m] reads the tokens [ts] as [a], up to a token that [until] allows. *)
Definition reads {A} (m : PM A) (k : nat) (ts : list kind) (until : TokenType → bool) (a : A) : Prop :=
  ∀ p w, input k ts p w → until (Type_ w) = true → m p = (skip p (length ts), Ok a).

(** [m] comes with [e] from [ts] to its loop. *)
Definition loops (m : PM Expression) (loop : nat → Expression → PM Expression) (k : nat) (ts : list kind) (until : TokenType → bool) (e : Expression) : Prop :=
  ∀ p w, input k ts p w → until (Type_ w) = true →
  ∃ c, (c < length ts)%nat ∧ m p = loop (S (length (tokens p)) - c)%nat e (skip p (length ts)).

Lemma loops_reads m loop k ts until until' e :
  loops m loop k ts until e → (∀ t, until' t = true → until t = true) →
  (∀ n p w, input k [] p w → until' (Type_ w) = true → loop (S n) e p = (p, Ok e)) → reads m k ts until' e.
Proof.
  intros Hl Hu Hstop p w Hin Hw. destruct (Hl p w Hin (Hu _ Hw)) as (c & Hc & ->). pose proof (input_bound _ _ _ _ Hin) as Hb.
  replace (S (length (tokens p)) - c)%nat with (S (length (tokens p) - c)) by lia. apply Hstop with w; [|done].
  apply (input_skip k ts []). by rewrite app_nil_r.
Qed.

(** An operator and its right operand go on with the loop. *)
Lemma loops_operator m loop (operand : PM Expression) mk k ts ty op ts' until until' l r :
  (∀ n p line col, currentOf p = mkToken ty op line col → loop (S n) l p = (advance;; r ← operand; loop n (mk l r)) p) →
  loops m loop k ts until l → until ty = true → reads operand k ts' until' r →
  loops m loop k (ts ++ (ty, op) :: ts') until' (mk l r).
Proof.
  intros Hloop Hl Hty Hr p w Hin Hw. pose proof (input_bound _ _ _ _ Hin) as Hb. rewrite length_app in *. cbn [length] in *.
  apply input_app in Hin as (w1 & Hw1 & Hin1 & Hin2). destruct (Hl p w1 Hin1) as (c & Hc & ->); [by injection Hw1 as -> _|].
  exists (S c). split; [lia|]. replace (S (length (tokens p)) - c)%nat with (S (length (tokens p) - c)) by lia.
  destruct (input_head _ _ _ _ _ Hin2) as (line & col & Ecur). rewrite (Hloop _ _ _ _ Ecur). eat.
  eapply step_bind; [by apply (Hr _ w)|]. rewrite !skip_skip. replace (length ts + 1 + length ts')%nat with (length ts + S (length ts'))%nat by lia. done.
Qed.

(** ** The first token of a sentence *)

Definition starters : list TokenType :=
  [TOKEN_LPAREN; TOKEN_IDENT; TOKEN_COALESCE; TOKEN_CAST; TOKEN_CASE; TOKEN_SUBSTRING; TOKEN_PARAM; TOKEN_INT_LIT; TOKEN_FLOAT_LIT;
   TOKEN_STRING_LIT; TOKEN_TRUE; TOKEN_FALSE; TOKEN_NULL].

Definition negated (lv : level) : bool := match lv with LNot | LAnd | LOr => true | _ => false end.

Section Reading.
Context (upperBeyond : Z → Z) (ParseFloat : text → option Z).
Abbreviation derives := (derives upperBeyond ParseFloat).

Definition starts (lv : level) (t : kind) : bool :=
  (existsb (tok_eqb (fst t)) starters || (negated lv && tok_eqb (fst t) TOKEN_NOT)) &&
  negb (tok_eqb (fst t) TOKEN_IDENT && upperIs upperBeyond (snd t) "DISTINCT").

Lemma plain_not_distinct s : plainName upperBeyond s = true → upperIs upperBeyond s "DISTINCT" = false.
Proof. intros Hp. apply not_true_is_false. intros Hd. unfold plainName in Hp. cbn [existsb] in Hp. rewrite Hd, !orb_true_r in Hp. done. Qed.

Lemma starts_name lv ty s : callee ty = true → plainName upperBeyond s = true → starts lv (ty, s) = true.
Proof.
  intros [->%tok_eqb_eq| ->%tok_eqb_eq]%orb_true_iff Hp; unfold starts; cbn [fst snd]; rewrite (plain_not_distinct s Hp); done.
Qed.

Lemma derives_starts k lv e ts : derives k lv e ts → ∃ t ts', ts = t :: ts' ∧ starts lv t = true.
Proof.
  induction 1; repeat match goal with H : ∃ _, _ |- _ => destruct H as (?t & ?ts' & -> & ?) end;
    try (by eexists _, _); try (eexists _, _; split; [reflexivity|]); try done; try by apply starts_name.
  - match goal with H : literal _ _ _ |- _ => destruct H; done end.
  - unfold starts in *. match goal with H : _ && _ = true |- _ => apply andb_true_iff in H as [H1 ->] end. rewrite andb_true_r.
    cbn [negated andb] in *. apply orb_true_iff in H1 as [->|H1]; done.
Qed.

Lemma starts_type lv t T line col :
  starts lv t = true → existsb (tok_eqb T) starters = false → negated lv = false ∨ tok_eqb T TOKEN_NOT = false →
  isType (mkToken (fst t) (snd t) line col) T = false.
Proof.
  intros [Hs _]%andb_true_iff HT Hn. apply not_true_is_false. intros E%tok_eqb_eq. cbn [Type_] in E. subst T.
  rewrite HT in Hs. cbn [orb] in Hs. apply andb_true_iff in Hs as [Hs1 Hs2]. destruct Hn as [Hn|Hn]; congruence.
Qed.

(** Tests on the first token of a sentence. *)
Lemma step_first {A} k k' lv e ts b p w (f : Token → PM A) R :
  derives k' lv e ts → input k (ts ++ b) p w →
  (∀ tok, (∀ T, existsb (tok_eqb T) starters = false → negated lv = false ∨ tok_eqb T TOKEN_NOT = false → isType tok T = false) →
          isType tok TOKEN_IDENT && upperIs upperBeyond (Literal tok) "DISTINCT" = false → f tok p = R) →
  mbind f current p = R.
Proof.
  intros (t & ts' & -> & Hs)%derives_starts Hin Hf. eapply step_current; [exact Hin|]. intros line col. apply Hf.
  - intros T. by apply (starts_type lv).
  - apply andb_true_iff in Hs as [_ Hs%negb_true_iff]. exact Hs.
Qed.
(** ** The rules, over a parser of whole expressions *)

Section Level.
Context (expr : PM Expression) (sel : PM Statement).
Abbreviation parsePrimary := (parsePrimary upperBeyond ParseFloat expr sel).
Abbreviation parseMultiplication := (parseMultiplication upperBeyond ParseFloat expr sel).
Abbreviation parseAddition := (parseAddition upperBeyond ParseFloat expr sel).
Abbreviation parseComparison := (parseComparison upperBeyond ParseFloat expr sel).
Abbreviation notLoop := (notLoop upperBeyond ParseFloat expr sel).
Abbreviation parseNot := (parseNot upperBeyond ParseFloat expr sel).
Abbreviation andLoop := (andLoop upperBeyond ParseFloat expr sel).
Abbreviation parseAnd := (parseAnd upperBeyond ParseFloat expr sel).
Abbreviation orLoop := (orLoop upperBeyond ParseFloat expr sel).
Abbreviation parseOr := (parseOr upperBeyond ParseFloat expr sel).

(** What the parser of a level does with a sentence of it. *)
Definition accepts (lv : level) (k : nat) (ts : list kind) (e : Expression) : Prop :=
  match lv with
  | LPost => loops parsePrimary (postLoop expr) k ts (stop LPost) e
  | LPrim => reads parsePrimary k ts (stop LPrim) e
  | LMul => loops parseMultiplication (λ n, binaryLoop n multiplicative parsePrimary) k ts (stop LPrim) e
  | LAdd => loops parseAddition (λ n, binaryLoop n additive parseMultiplication) k ts (stop LMul) e
  | LCmp => reads parseComparison k ts (stop LCmp) e
  | LNot => ∀ n, (length ts ≤ n)%nat → reads (notLoop n) k ts (stop LNot) e
  | LAnd => loops parseAnd andLoop k ts (stop LNot) e
  | LOr => loops parseOr orLoop k ts (stop LAnd) e
  end.

Lemma accepts_post k ts e : accepts LPost k ts e → accepts LPrim k ts e.
Proof.
  intros H. apply (loops_reads _ _ _ _ _ (stop LPrim) _ H); [by intros t; apply stop_sub|]. intros n p w Hin Hw. cbn [postLoop].
  eapply step_next; [exact Hin|]. rewrite !(stop_oneOf LPrim) by done. done.
Qed.

Lemma accepts_mul k ts e : accepts LMul k ts e → reads parseMultiplication k ts (stop LMul) e.
Proof.
  intros H. apply (loops_reads _ _ _ _ _ (stop LMul) _ H); [by intros t; apply stop_sub|]. intros n p w Hin Hw. cbn [binaryLoop].
  eapply step_next; [exact Hin|]. by rewrite (stop_oneOf LMul).
Qed.

Lemma accepts_add k ts e : accepts LAdd k ts e → reads parseAddition k ts (stop LAdd) e.
Proof.
  intros H. apply (loops_reads _ _ _ _ _ (stop LAdd) _ H); [by intros t; apply stop_sub|]. intros n p w Hin Hw. cbn [binaryLoop].
  eapply step_next; [exact Hin|]. by rewrite (stop_oneOf LAdd).
Qed.

Lemma accepts_and k ts e : accepts LAnd k ts e → reads parseAnd k ts (stop LAnd) e.
Proof.
  intros H. apply (loops_reads _ _ _ _ _ (stop LAnd) _ H); [by intros t; apply stop_sub|]. intros n p w Hin Hw. cbn [Parser.andLoop].
  eapply step_next; [exact Hin|]. by rewrite (stop_type LAnd).
Qed.

Lemma accepts_or k ts e : accepts LOr k ts e → reads parseOr k ts (stop LOr) e.
Proof.
  intros H. apply (loops_reads _ _ _ _ _ (stop LOr) _ H); [by intros t; apply stop_sub|]. intros n p w Hin Hw. cbn [Parser.orLoop].
  eapply step_next; [exact Hin|]. by rewrite (stop_type LOr).
Qed.

Lemma accepts_not k ts e : accepts LNot k ts e → reads parseNot k ts (stop LNot) e.
Proof. intros H p w Hin Hw. unfold Parser.parseNot. eat. apply (H _) with w; [|done..]. apply input_bound in Hin. lia. Qed.

(** *** From one level to the next *)

(** A sentence of the level inside comes to the loop at once. *)
Lemma loops_lift (m m' : PM Expression) loop k ts until e :
  (∀ p, m' p = (left ← m; n ← loopSteps; loop n left) p) → (0 < length ts)%nat → reads m k ts until e → loops m' loop k ts until e.
Proof.
  intros Hm Hts H p w Hin Hw. exists O. split; [done|]. rewrite Hm. eapply step_bind; [by apply (H _ w)|]. by apply step_steps.
Qed.

Lemma derives_length k lv e ts : derives k lv e ts → (0 < length ts)%nat.
Proof. intros (t & ts' & -> & _)%derives_starts. cbn. lia. Qed.

Lemma lift_mul k k' e ts : derives k' LPrim e ts → accepts LPrim k ts e → accepts LMul k ts e.
Proof. intros Hd%derives_length H. by apply (loops_lift parsePrimary). Qed.

Lemma lift_add k k' e ts : derives k' LMul e ts → accepts LMul k ts e → accepts LAdd k ts e.
Proof. intros Hd%derives_length H%accepts_mul. by apply (loops_lift parseMultiplication). Qed.

Lemma lift_and k k' e ts : derives k' LNot e ts → accepts LNot k ts e → accepts LAnd k ts e.
Proof. intros Hd%derives_length H%accepts_not. by apply (loops_lift parseNot). Qed.

Lemma lift_or k k' e ts : derives k' LAnd e ts → accepts LAnd k ts e → accepts LOr k ts e.
Proof. intros Hd%derives_length H%accepts_and. by apply (loops_lift parseAnd). Qed.

Lemma lift_cmp k ts e : accepts LAdd k ts e → accepts LCmp k ts e.
Proof.
  intros H%accepts_add p w Hin Hw. unfold Parser.parseComparison. eapply step_bind; [apply (H p w); [done|by apply (stop_sub LCmp)]|].
  eapply step_next; [apply (input_skip k ts []); by rewrite app_nil_r|]. by rewrite (stop_oneOf LCmp), !(stop_type LCmp).
Qed.

Lemma lift_not k k' e ts : derives k' LCmp e ts → accepts LCmp k ts e → accepts LNot k ts e.
Proof.
  intros Hd H [|n] Hn p w Hin Hw; [apply derives_length in Hd; lia|]. cbn [Parser.notLoop].
  eapply (step_first _ _ _ _ _ []); [exact Hd|rewrite app_nil_r; exact Hin|]. intros tok HT _. rewrite HT by (done || by left). exact (H p w Hin Hw).
Qed.

Lemma rule_not k ts e s : accepts LNot k ts e → accepts LNot k ((TOKEN_NOT, s) :: ts) (ENot e).
Proof.
  intros H [|n] Hn p w Hin Hw; cbn [length] in Hn; [lia|]. cbn [Parser.notLoop]. eat. eapply step_bind; [apply (H n) with w; [lia|done..]|]. done_reading.
Qed.

(** *** Binary operators *)

Lemma binaryLoop_operator ops operand l ty op :
  existsb (tok_eqb ty) ops = true → ∀ n p line col, currentOf p = mkToken ty op line col →
  binaryLoop (S n) ops operand l p = (advance;; r ← operand; binaryLoop n ops operand (EBinary l op r)) p.
Proof.
  intros Ho n p line col E. cbn [binaryLoop].
  change (mbind ?f current p) with (f (currentOf p) p). rewrite E. change (isOneOf (mkToken ty op line col) ops) with (existsb (tok_eqb ty) ops). by rewrite Ho.
Qed.

Lemma rule_times k ts l ty op ts' r :
  existsb (tok_eqb ty) multiplicative = true → accepts LMul k ts l → accepts LPrim k ts' r → accepts LMul k (ts ++ (ty, op) :: ts') (EBinary l op r).
Proof.
  intros Ho Hl Hr. refine (loops_operator _ _ parsePrimary (λ l r, EBinary l op r) _ _ _ _ _ _ _ _ _ (binaryLoop_operator _ _ l ty op Ho) Hl _ Hr).
  apply existsb_exists in Ho as (T & Hin & ->%tok_eqb_eq). cbn in Hin. by destruct_or! Hin; subst.
Qed.
Lemma rule_plus k ts l ty op ts' r :
  existsb (tok_eqb ty) additive = true → accepts LAdd k ts l → accepts LMul k ts' r → accepts LAdd k (ts ++ (ty, op) :: ts') (EBinary l op r).
Proof.
  intros Ho Hl Hr%accepts_mul. refine (loops_operator _ _ parseMultiplication (λ l r, EBinary l op r) _ _ _ _ _ _ _ _ _ (binaryLoop_operator _ _ l ty op Ho) Hl _ Hr).
  apply existsb_exists in Ho as (T & Hin & ->%tok_eqb_eq). cbn in Hin. by destruct_or! Hin; subst.
Qed.

Lemma rule_and k ts l s ts' r : accepts LAnd k ts l → accepts LNot k ts' r → accepts LAnd k (ts ++ (TOKEN_AND, s) :: ts') (EAnd l r).
Proof.
  intros Hl Hr%accepts_not. refine (loops_operator _ _ parseNot EAnd _ _ _ _ _ _ _ _ _ _ Hl _ Hr); [|done].
  intros n p line col E. cbn [Parser.andLoop]. change (mbind ?f current p) with (f (currentOf p) p). rewrite E. types. done.
Qed.

Lemma rule_or k ts l s ts' r : accepts LOr k ts l → accepts LAnd k ts' r → accepts LOr k (ts ++ (TOKEN_OR, s) :: ts') (EOr l r).
Proof.
  intros Hl Hr%accepts_and. refine (loops_operator _ _ parseAnd EOr _ _ _ _ _ _ _ _ _ _ Hl _ Hr); [|done].
  intros n p line col E. cbn [Parser.orLoop]. change (mbind ?f current p) with (f (currentOf p) p). rewrite E. types. done.
Qed.

(** *** Comparisons *)

(** A program that reads a sentence, before a known token or before the end. *)
Lemma step_before {A B} (m : PM A) (f : A → PM B) k ts until t b p w a R :
  reads m k ts until a → input k (ts ++ t :: b) p w → until (fst t) = true →
  (input k (t :: b) (skip p (length ts)) w → f a (skip p (length ts)) = R) → mbind f m p = R.
Proof.
  intros Hm Hin Ht Hf. apply input_app in Hin as (w1 & Hw1 & Hin1 & Hin2). subst t. eapply step_bind; [by apply (Hm p w1)|by apply Hf].
Qed.

Lemma step_last {A B} (m : PM A) (f : A → PM B) k ts until p w a R :
  reads m k ts until a → input k ts p w → until (Type_ w) = true →
  (input k [] (skip p (length ts)) w → f a (skip p (length ts)) = R) → mbind f m p = R.
Proof.
  intros Hm Hin Hw Hf. eapply step_bind; [by apply (Hm p w)|]. apply Hf. apply (input_skip k ts []). by rewrite app_nil_r.
Qed.

(** A right operand after the tokens of an operator. *)
Lemma like_reads op k ts l r : accepts LAdd k ts r → reads (parseLike upperBeyond ParseFloat expr sel l op) k ts (stop LCmp) (EBinary l (rs op) r).
Proof.
  intros Hr%accepts_add p w Hin Hw. unfold parseLike. eapply step_last; [exact Hr|exact Hin|by apply (stop_sub LCmp)|]. done.
Qed.

Lemma between_reads not k ts1 ts2 l lo hi s :
  accepts LAdd k ts1 lo → accepts LAdd k ts2 hi →
  reads (parseBetween upperBeyond ParseFloat expr sel l not) k (ts1 ++ (TOKEN_AND, s) :: ts2) (stop LCmp) (EBetween l lo hi not).
Proof.
  intros Hlo%accepts_add Hhi%accepts_add p w Hin Hw. unfold parseBetween. eapply step_before; [exact Hlo|exact Hin|done|]. clear Hin. intros Hin. eat.
  eapply step_last; [exact Hhi|exact Hin|by apply (stop_sub LCmp)|]. intros _. done_reading.
Qed.

Definition at_rparen (t : TokenType) : bool := tok_eqb t TOKEN_RPAREN.

(** What the loop over a list does, from any items before it. *)
Definition lists (k : nat) (ts : list kind) (items : list Expression) : Prop :=
  ∀ n before, (length ts ≤ n)%nat → reads (valueLoop expr n before) k ts at_rparen (before ++ items).

Lemma lists_reads k ts items : lists k ts items → reads (parseValueListUntilRParen expr) k ts at_rparen items.
Proof. intros H p w Hin Hw. unfold parseValueListUntilRParen. eat. apply (H _ []) with w; [|done..]. apply input_bound in Hin. lia. Qed.

Lemma rule_single k ts e : (0 < length ts)%nat → reads expr k ts (stop LOr) e → lists k ts [e].
Proof.
  intros Hts He [|n] before Hn p w Hin Hw; [lia|]. cbn [valueLoop]. pose proof (tok_eqb_eq _ _ Hw) as Ew.
  eapply step_last; [exact He|exact Hin|by rewrite Ew|]. clear Hin. intros Hin. eapply step_next; [exact Hin|]. unfold isType. by rewrite Ew.
Qed.

Lemma rule_comma k ts e s ts' items :
  reads expr k ts (stop LOr) e → lists k ts' items → lists k (ts ++ (TOKEN_COMMA, s) :: ts') (e :: items).
Proof.
  intros He Hl [|n] before Hn p w Hin Hw; rewrite length_app in Hn; cbn [length] in Hn; [lia|]. cbn [valueLoop].
  eapply step_before; [exact He|exact Hin|done|]. clear Hin. intros Hin. eat. rewrite (Hl n (before ++ [e])) with (w := w) by (done || lia).
  rewrite <- app_assoc. done_reading.
Qed.

(** The first token of a list is the one of its first item. *)
Lemma derivesList_first k items ts :
  derivesList upperBeyond ParseFloat k items ts → ∃ e ts1 ts2, ts = ts1 ++ ts2 ∧ derives k LOr e ts1.
Proof. destruct 1; [exists e, ts, []; by rewrite app_nil_r|by eexists _, _, _]. Qed.

Lemma in_reads not k items ts l a b :
  derivesList upperBeyond ParseFloat k items ts → lists k ts items →
  reads (parseIn upperBeyond expr sel l not) k ((TOKEN_LPAREN, a) :: ts ++ [(TOKEN_RPAREN, b)]) (stop LCmp) (EIn l not items).
Proof.
  intros (e & ts1 & ts2 & E & Hd)%derivesList_first Hl%lists_reads p w Hin Hw. unfold parseIn. eat.
  eapply step_first; [exact Hd|rewrite app_assoc, <- E; exact Hin|]. intros tok HT _. rewrite HT by (done || by right).
  eapply step_before; [exact Hl|exact Hin|done|]. clear Hin. intros Hin. eat. done_reading.
Qed.
(** The left operand, and then the tokens of the predicate. *)
Ltac predicate Hl :=
  let p := fresh "p" in let w := fresh "w" in let Hin := fresh "Hin" in let Hw := fresh "Hw" in
  intros p w Hin Hw; unfold Parser.parseComparison; eapply step_before; [exact (accepts_add _ _ _ Hl)|exact Hin|done|]; clear Hin; intros Hin; eat.

(** The rest of the comparison, by what its reader does. *)
Ltac finish H :=
  match goal with
  | Hin : input _ ?ts ?p ?w, Hw : _ |- mbind _ _ ?p = _ => eapply step_bind; [exact (H p w Hin Hw)|]; done_reading
  | Hin : input _ ?ts ?p ?w, Hw : _ |- _ ?p = _ => rewrite (H p w Hin Hw); done_reading
  end.

Lemma rule_like k ts ts' l r s : accepts LAdd k ts l → accepts LAdd k ts' r → accepts LCmp k (ts ++ (TOKEN_LIKE, s) :: ts') (EBinary l (rs "LIKE") r).
Proof. intros Hl Hr. predicate Hl. finish (like_reads "LIKE" k ts' l r Hr). Qed.

Lemma rule_not_like k ts ts' l r s n :
  accepts LAdd k ts l → accepts LAdd k ts' r → accepts LCmp k (ts ++ (TOKEN_NOT, n) :: (TOKEN_LIKE, s) :: ts') (ENot (EBinary l (rs "LIKE") r)).
Proof. intros Hl Hr. predicate Hl. finish (like_reads "LIKE" k ts' l r Hr). Qed.

Lemma rule_between k ts ts1 ts2 l lo hi s a : accepts LAdd k ts l → accepts LAdd k ts1 lo → accepts LAdd k ts2 hi →
  accepts LCmp k (ts ++ (TOKEN_BETWEEN, s) :: ts1 ++ (TOKEN_AND, a) :: ts2) (EBetween l lo hi false).
Proof. intros Hl Hlo Hhi. predicate Hl. finish (between_reads false k ts1 ts2 l lo hi a Hlo Hhi). Qed.

Lemma rule_not_between k ts ts1 ts2 l lo hi s a n : accepts LAdd k ts l → accepts LAdd k ts1 lo → accepts LAdd k ts2 hi →
  accepts LCmp k (ts ++ (TOKEN_NOT, n) :: (TOKEN_BETWEEN, s) :: ts1 ++ (TOKEN_AND, a) :: ts2) (EBetween l lo hi true).
Proof. intros Hl Hlo Hhi. predicate Hl. finish (between_reads true k ts1 ts2 l lo hi a Hlo Hhi). Qed.

Lemma rule_in k ts ts' l items s a b : accepts LAdd k ts l → derivesList upperBeyond ParseFloat k items ts' → lists k ts' items →
  accepts LCmp k (ts ++ (TOKEN_IN, s) :: (TOKEN_LPAREN, a) :: ts' ++ [(TOKEN_RPAREN, b)]) (EIn l false items).
Proof. intros Hl Hd Hi. predicate Hl. finish (in_reads false k items ts' l a b Hd Hi). Qed.

Lemma rule_not_in k ts ts' l items s a b n : accepts LAdd k ts l → derivesList upperBeyond ParseFloat k items ts' → lists k ts' items →
  accepts LCmp k (ts ++ (TOKEN_NOT, n) :: (TOKEN_IN, s) :: (TOKEN_LPAREN, a) :: ts' ++ [(TOKEN_RPAREN, b)]) (EIn l true items).
Proof. intros Hl Hd Hi. predicate Hl. finish (in_reads true k items ts' l a b Hd Hi). Qed.

Lemma rule_is_null k ts l s n : accepts LAdd k ts l → accepts LCmp k (ts ++ [(TOKEN_IS, s); (TOKEN_NULL, n)]) (EBinary l (rs "IS") (EValue VNull)).
Proof.
  intros Hl. predicate Hl. change (mbind ?f peek ?p) with (f (peekOf p) p). cbv beta. eat. done_reading.
Qed.

Lemma rule_is_not_null k ts l s m n :
  accepts LAdd k ts l → accepts LCmp k (ts ++ [(TOKEN_IS, s); (TOKEN_NOT, m); (TOKEN_NULL, n)]) (EBinary l (rs "IS NOT") (EValue VNull)).
Proof. intros Hl. predicate Hl. done_reading. Qed.

Lemma rule_compare k k' ts ty op ts' l r : derives k' LAdd r ts' →
  comparing ty = true → accepts LAdd k ts l → accepts LAdd k ts' r → accepts LCmp k (ts ++ (ty, op) :: ts') (EBinary l op r).
Proof.
  intros Hd [Hc1 Hc2]%andb_true_iff Hl Hr%accepts_add p w Hin Hw. unfold Parser.parseComparison.
  eapply step_before; [exact (accepts_add _ _ _ Hl)|exact Hin|done|]. clear Hin. intros Hin.
  eapply step_current; [exact Hin|]. intros line col. change (isOneOf (mkToken _ _ line col) _) with (existsb (tok_eqb ty) comparisonOperators).
  rewrite Hc1. cbn [fst snd Literal]. eat. eapply (step_first _ _ _ _ _ []); [exact Hd|rewrite app_nil_r; exact Hin|]. intros tok HT _.
  unfold isOneOf. cbn [existsb]. rewrite !HT by (done || by left). cbn [orb].
  eapply step_last; [exact Hr|exact Hin|by apply (stop_sub LCmp)|]. intros _. done_reading.
Qed.
(** *** Primaries *)

Ltac start_primary := let p := fresh "p" in let w := fresh "w" in let Hin := fresh "Hin" in let Hw := fresh "Hw" in
  intros p w Hin Hw; unfold Parser.parsePrimary; eat.

(** A sentence inside, before a known token. *)
Ltac sentence H := eapply step_before; [exact H|match goal with Hin : input _ _ _ _ |- _ => exact Hin end|done|];
  match goal with Hin : input _ _ _ _ |- _ => clear Hin; intros Hin end; eat.

Lemma rule_value k t v : literal ParseFloat t v → accepts LPrim k [t] (EValue v).
Proof.
  intros Hv. start_primary. destruct Hv; types; unfold tokenToValue; types; try match goal with H : _ = Some _ |- _ => rewrite H end;
    (eapply step_bind; [reflexivity|]); eat; done_reading.
Qed.

Lemma rule_param k s i : Atoi s = Some i → accepts LPrim k [(TOKEN_PARAM, s)] (EParam i).
Proof. intros Hi. start_primary. rewrite Hi. done_reading. Qed.

Lemma rule_paren k k' ts e a b : derives k' LOr e ts → reads expr k ts (stop LOr) e → accepts LPrim (S k) ((TOKEN_LPAREN, a) :: ts ++ [(TOKEN_RPAREN, b)]) e.
Proof.
  intros Hd He. start_primary. eapply step_nested; [exact Hin|]. apply input_deeper in Hin. eat.
  eapply step_first; [exact Hd|exact Hin|]. intros tok HT _. rewrite HT by (done || by right). sentence He. done_reading.
Qed.

Lemma type_reads k tys ty : castType tys ty → ∀ p w, input k tys p w → isType w TOKEN_LPAREN = false →
  ∃ n, parseColumnType p = (skip p (length tys), Ok (ty, n)).
Proof.
  intros Ht p w Hin Hw. unfold parseColumnType. destruct Ht as [t s name Hf|s|s a n l b Hn].
  - exists 0. apply step_steps. cbn [columnType]. eapply step_current; [exact Hin|]. intros line col.
    change (find _ _) with (find (λ e, tok_eqb t (fst e)) plainTypes). rewrite Hf. eat. done_reading.
  - exists 0. apply step_steps. cbn [columnType]. eapply step_current; [exact Hin|]. intros line col.
    change (find _ _) with (@None (TokenType * string)). types. unfold lengthType. eat. eapply step_next; [exact Hin|]. rewrite Hw. done_reading.
  - exists l. apply step_steps. cbn [columnType]. eapply step_current; [exact Hin|]. intros line col.
    change (find _ _) with (@None (TokenType * string)). types. unfold lengthType. eat. rewrite Hn. eat. done_reading.
Qed.

Lemma rule_cast k ts e tys ty c a s b : reads expr k ts (stop LOr) e → castType tys ty →
  accepts LPrim k ((TOKEN_CAST, c) :: (TOKEN_LPAREN, a) :: ts ++ (TOKEN_AS, s) :: tys ++ [(TOKEN_RPAREN, b)]) (ECast e ty).
Proof.
  intros He Ht. start_primary. unfold parseCast. eat. sentence He.
  apply input_app in Hin as (w1 & Hw1 & Hin1 & Hin2). destruct (type_reads _ _ _ Ht _ _ Hin1) as (n & E); [by destruct w1; injection Hw1 as -> _|].
  eapply step_bind; [exact E|]. clear Hin1. rename Hin2 into Hin. eat. done_reading.
Qed.
(** *** CASE *)

(** A sentence before tokens there may or may not be. *)
Lemma step_until {A B} (m : PM A) (f : A → PM B) k ts until b p w a R :
  reads m k ts until a → input k (ts ++ b) p w → match b with [] => until (Type_ w) | t :: _ => until (fst t) end = true →
  (input k b (skip p (length ts)) w → f a (skip p (length ts)) = R) → mbind f m p = R.
Proof.
  intros Hm Hin Hb Hf. destruct b as [|t b]; [rewrite app_nil_r in Hin; by eapply step_last|by eapply step_before].
Qed.

Definition at_case_end (t : TokenType) : bool := tok_eqb t TOKEN_ELSE || tok_eqb t TOKEN_END.

Definition branches (k : nat) (ts : list kind) (whens : list (Expression * Expression)) : Prop :=
  ∀ n before, (length ts < n)%nat → reads (whenLoop expr n before) k ts at_case_end (before ++ whens).

Lemma case_end_stops t : at_case_end t = true → stop LOr t = true.
Proof. by intros [->%tok_eqb_eq| ->%tok_eqb_eq]%orb_true_iff. Qed.

Lemma rule_no_when k : branches k [] [].
Proof.
  intros [|n] before Hn p w Hin Hw; [cbn in Hn; lia|]. cbn [whenLoop]. eapply step_next; [exact Hin|]. rewrite app_nil_r.
  cbn [length]. rewrite skip_0. unfold isType. by apply orb_true_iff in Hw as [->%tok_eqb_eq| ->%tok_eqb_eq].
Qed.

Lemma rule_when k ts c ts' r ts'' whens s t : derivesWhens upperBeyond ParseFloat k whens ts'' →
  reads expr k ts (stop LOr) c → reads expr k ts' (stop LOr) r → branches k ts'' whens →
  branches k ((TOKEN_WHEN, s) :: ts ++ (TOKEN_THEN, t) :: ts' ++ ts'') ((c, r) :: whens).
Proof.
  intros Hd Hc Hr Hws [|n] before Hn p w Hin Hw; cbn [length] in Hn; rewrite length_app in Hn; cbn [length] in Hn; rewrite length_app in Hn; [lia|].
  cbn [whenLoop]. eat. sentence Hc. eapply step_until; [exact Hr|exact Hin| |].
  { destruct Hd; [by apply case_end_stops|done]. }
  clear Hin. intros Hin. rewrite (Hws n (before ++ [(c, r)])) with (w := w) by (done || lia). rewrite <- app_assoc. done_reading.
Qed.

Lemma whens_first k whens ts : derivesWhens upperBeyond ParseFloat k whens ts → whens ≠ [] → ∃ s ts', ts = (TOKEN_WHEN, s) :: ts'.
Proof. destruct 1; [done|]. intros _. by eexists _, _. Qed.

(** The part of [parseCase] from the branches on. *)
Definition caseRest (base : option Expression) : PM Expression :=
  n ← loopSteps;
  whens ← whenLoop expr n [];
  tok ← current;
  match whens with
  | [] => throw (ErrExpected "at least one WHEN clause" tok)
  | _ =>
      els ← (if isType tok TOKEN_ELSE then advance;; e ← expr; mret (Some e) else mret None);
      consume TOKEN_END "END";;
      mret (ECase base whens els)
  end.

(** A reader of an optional part, after its first token. *)
Definition elseReads (k : nat) (ts : list kind) (els : option Expression) : Prop :=
  match els with
  | None => ts = []
  | Some e => ∃ s ts', ts = (TOKEN_ELSE, s) :: ts' ∧ reads expr k ts' (stop LOr) e
  end.

Lemma caseRest_reads k base whens ws els es d :
  branches k ws whens → whens ≠ [] → elseReads k es els →
  reads (caseRest base) k (ws ++ es ++ [(TOKEN_END, d)]) (λ _, true) (ECase base whens els).
Proof.
  intros Hws Hne Hes p w Hin _. unfold caseRest. apply step_steps.
  assert (reads (whenLoop expr (S (length (tokens p))) []) k ws at_case_end whens) as Hr.
  { apply (Hws _ []). apply input_bound in Hin. rewrite length_app in Hin. lia. }
  destruct whens as [|wh whens]; [done|]. clear Hne. destruct els as [e|].
  - destruct Hes as (s & ts' & -> & He). cbn [app] in Hin. eapply step_before; [exact Hr|exact Hin|done|]. clear Hin. intros Hin. eat.
    eapply step_bind; [eapply step_advance; [exact Hin|]; apply input_tl in Hin; sentence He; reflexivity|]. apply input_tl, input_skip in Hin. eat. done_reading.
  - cbn [elseReads] in Hes. subst es. cbn [app] in Hin. eapply step_before; [exact Hr|exact Hin|done|]. clear Hin. intros Hin. eat.
    eapply step_bind; [reflexivity|]. eat. done_reading.
Qed.
Lemma rule_case k base bs whens ws els es c d :
  derivesBase upperBeyond ParseFloat k base bs → match base with Some e => reads expr k bs (stop LOr) e | None => True end →
  derivesWhens upperBeyond ParseFloat k whens ws → branches k ws whens → whens ≠ [] → elseReads k es els →
  accepts LPrim k ((TOKEN_CASE, c) :: bs ++ ws ++ es ++ [(TOKEN_END, d)]) (ECase base whens els).
Proof.
  intros Hb Hbase Hd Hws Hne Hes. pose proof (caseRest_reads k base whens ws els es d Hws Hne Hes) as Hrest.
  destruct (whens_first _ _ _ Hd Hne) as (s & ws' & ->). start_primary. unfold parseCase. eat. destruct Hb as [k|k e bs Hb].
  - cbn [app] in Hin. eat. eapply step_bind; [reflexivity|]. etransitivity; [exact (Hrest _ w Hin eq_refl)|]. done_reading.
  - eapply step_first; [exact Hb|exact Hin|]. intros tok HT _. rewrite HT by (done || by right). cbn [negb].
    eapply step_bind; [eapply step_before; [exact Hbase|exact Hin|done|]; reflexivity|]. apply input_skip in Hin.
    etransitivity; [exact (Hrest _ w Hin eq_refl)|]. done_reading.
Qed.

(** *** SUBSTRING *)

(** The arguments after the first one, from [ts]. *)
Definition rangeReads (k : nat) (ts : list kind) (args : list Expression) : Prop :=
  match args with
  | [] => ts = []
  | [e] => ∃ ty s ts', ts = (ty, s) :: ts' ∧ (ty = TOKEN_FROM ∨ ty = TOKEN_COMMA) ∧ reads expr k ts' (stop LOr) e
  | [e; e'] => ∃ ty ty' s s' ts1 ts2, ts = (ty, s) :: ts1 ++ (ty', s') :: ts2 ∧ (ty = TOKEN_FROM ∧ ty' = TOKEN_FOR ∨ ty = TOKEN_COMMA ∧ ty' = TOKEN_COMMA) ∧
      reads expr k ts1 (stop LOr) e ∧ reads expr k ts2 (stop LOr) e'
  | _ => False
  end.

Lemma rule_substring k e ts args ats c a b : reads expr k ts (stop LOr) e → rangeReads k ats args →
  accepts LPrim k ((TOKEN_SUBSTRING, c) :: (TOKEN_LPAREN, a) :: ts ++ ats ++ [(TOKEN_RPAREN, b)]) (EFunctionCall (rs "SUBSTRING") (e :: args)).
Proof.
  intros He Hr. start_primary. unfold parseSubstring. eat. destruct args as [|e1 [|e2 [|]]]; [| | |done].
  - cbn [rangeReads] in Hr. subst ats. cbn [app] in Hin. sentence He. eapply step_bind; [reflexivity|]. eat. done_reading.
  - destruct Hr as (ty & s & ts' & -> & [-> | ->] & H1); cbn [app] in Hin; sentence He;
      (eapply step_bind; [eat; sentence H1; reflexivity|]); apply input_tl, input_skip in Hin; eat; done_reading.
  - destruct Hr as (ty & ty' & s & s' & ts1 & ts2 & -> & [[-> ->]|[-> ->]] & H1 & H2); cbn [app] in Hin; rewrite <- app_assoc in Hin; cbn [app] in Hin; sentence He;
      (eapply step_bind; [eat; sentence H1; sentence H2; reflexivity|]); apply input_tl, input_skip, input_tl, input_skip in Hin; eat; done_reading.
Qed.
(** *** Names and calls *)

Lemma plain_upper s w : plainName upperBeyond s = true →
  existsb (String.eqb w) ["CURRENT_DATE"; "CURRENT_TIME"; "CURRENT_TIMESTAMP"; "DATE"; "TIME"; "TIMESTAMP"; "DISTINCT"] = true →
  bool_decide (ToUpper upperBeyond s = rs w) = false.
Proof.
  intros Hp%negb_true_iff (u & Hin & ->%String.eqb_eq)%existsb_exists. apply not_true_is_false. intros Hu. apply not_true_iff_false in Hp.
  apply Hp, existsb_exists. by exists u.
Qed.

Lemma plain_date s p : plainName upperBeyond s = true → dateLiteral (ToUpper upperBeyond s) p = (p, Ok None).
Proof.
  intros Hp. unfold dateLiteral. change (mbind ?f peek p) with (f (peekOf p) p). cbv beta zeta.
  rewrite !(plain_upper s) by done. done.
Qed.

Lemma splitDot_undotted s : undotted s = true → splitDot s = (s, None).
Proof.
  unfold undotted. induction s as [|c s IH]; [done|]. cbn [existsb splitDot]. rewrite negb_orb, Z.eqb_sym. intros [->%negb_true_iff Hs]%andb_true_iff. by rewrite IH.
Qed.

Lemma splitDot_dotted s c : undotted s = true → splitDot (s ++ rs "." ++ c) = (s, Some c).
Proof.
  unfold undotted. induction s as [|a s IH]; [done|]. cbn [existsb splitDot app]. rewrite negb_orb, Z.eqb_sym. intros [->%negb_true_iff Hs]%andb_true_iff. by rewrite IH.
Qed.

Lemma oldNew_none s p : rowName s = false → oldNew expr s p = (p, Ok None).
Proof.
  intros Hs. unfold oldNew. change (mbind ?f peek p) with (f (peekOf p) p). cbv beta. unfold rowName in Hs. by rewrite Hs.
Qed.

Lemma dotted_rowName s c : undotted s = true → rowName (s ++ rs "." ++ c) = false.
Proof.
  intros Hs. pose proof (splitDot_dotted s c Hs) as Hd. unfold rowName. apply orb_false_iff.
  split; apply bool_decide_eq_false; intros E; rewrite E in Hd; done.
Qed.

(** The part of [parseName] after the name and the special words. *)
Lemma primary_name k ty s ts p w : input k ((ty, s) :: ts) p w → callee ty = true → plainName upperBeyond s = true →
  parsePrimary p =
  (dot ← current;
   ident ← (if isType dot TOKEN_DOT then
              advance;;
              col ← current;
              if negb (isType col TOKEN_IDENT) then throw (ErrExpected "column name after '.'" col)
              else advance;; mret (s ++ rs "." ++ Literal col)
            else mret s);
   old ← oldNew expr ident;
   match old with Some e => mret e | None =>
   match splitDot ident with
   | (table, Some name) => parsePrimaryPost expr (EColumnRef name table)
   | (_, None) =>
       tok ← current;
       if isType tok TOKEN_LPAREN then
         r ← parseCall upperBeyond expr ident;
         match r with inl e => mret e | inr funcExpr => parsePrimaryPost expr funcExpr end
       else
         old ← oldNew expr ident;
         match old with Some e => mret e | None => parsePrimaryPost expr (EColumnRef ident []) end
   end end) (skip p 1).
Proof.
  intros Hin Hc Hp. unfold Parser.parsePrimary. apply orb_true_iff in Hc as [->%tok_eqb_eq| ->%tok_eqb_eq]; eat;
    unfold parseName; eat; rewrite !(plain_upper s) by done; cbn [orb]; (eapply step_bind; [by apply plain_date|]); done.
Qed.

Lemma rule_column k s : plainName upperBeyond s = true → undotted s = true → rowName s = false → accepts LPost k [(TOKEN_IDENT, s)] (EColumnRef s []).
Proof.
  intros Hp Hu Hr p w Hin Hw. exists O. split; [cbn; lia|]. rewrite (primary_name _ _ _ _ _ _ Hin eq_refl Hp). apply input_tl in Hin.
  eapply step_next; [exact Hin|]. rewrite (stop_type LPost) by done. eapply step_bind; [reflexivity|].
  eapply step_bind; [by apply oldNew_none|]. rewrite splitDot_undotted by done. eapply step_next; [exact Hin|]. rewrite (stop_type LPost) by done.
  eapply step_bind; [by apply oldNew_none|]. done.
Qed.

Lemma rule_qualified k t d c : plainName upperBeyond t = true → undotted t = true →
  accepts LPost k [(TOKEN_IDENT, t); (TOKEN_DOT, d); (TOKEN_IDENT, c)] (EColumnRef c t).
Proof.
  intros Hp Hu p w Hin Hw. exists O. split; [cbn; lia|]. rewrite (primary_name _ _ _ _ _ _ Hin eq_refl Hp). apply input_tl in Hin. eat.
  eapply step_bind; [eat; reflexivity|]. eapply step_bind; [by apply oldNew_none, dotted_rowName|]. rewrite splitDot_dotted by done.
  rewrite !skip_skip. done.
Qed.

Lemma rule_path k e ts ty op path : tok_eqb ty TOKEN_ARROW || tok_eqb ty TOKEN_DBL_ARROW = true → accepts LPost k ts e →
  accepts LPost k (ts ++ [(ty, op); (TOKEN_STRING_LIT, path)]) (EJsonPath e op path).
Proof.
  intros Hty He p w Hin Hw. pose proof (input_bound _ _ _ _ Hin) as Hb. rewrite length_app in Hb. cbn [length] in Hb.
  apply input_app in Hin as (w1 & Hw1 & Hin1 & Hin). destruct (He p w1 Hin1) as (c & Hc & ->).
  { injection Hw1 as -> _. by apply orb_true_iff in Hty as [->%tok_eqb_eq| ->%tok_eqb_eq]. }
  exists (S c). rewrite length_app. cbn [length]. split; [lia|]. replace (S (length (tokens p)) - c)%nat with (S (length (tokens p) - c)) by lia.
  cbn [postLoop]. apply orb_true_iff in Hty as [->%tok_eqb_eq| ->%tok_eqb_eq]; eat; rewrite !skip_skip; f_equal; f_equal; lia.
Qed.
(** What stands between the parentheses of a call. *)
Definition argsRead (k : nat) (distinct : bool) (args : list Expression) (ts : list kind) : Prop :=
  if distinct then ∃ s ts', ts = (TOKEN_IDENT, s) :: ts' ∧ upperIs upperBeyond s "DISTINCT" = true ∧ derivesList upperBeyond ParseFloat k args ts' ∧ lists k ts' args
  else (ts = [] ∧ args = []) ∨ (∃ s, ts = [(TOKEN_STAR, s)] ∧ args = [EColumnRef (rs "*") []]) ∨
       (derivesList upperBeyond ParseFloat k args ts ∧ lists k ts args).

(** The part of [parseCall] from the closing parenthesis on. *)
Lemma call_end k ident args distinct b p w : input k [(TOKEN_RPAREN, b)] p w → stop LPost (Type_ w) = true →
  (consume TOKEN_RPAREN "')'";;
   let nameUp := ToUpper upperBeyond ident in
   tok ← current;
   if isType tok TOKEN_OVER then
     advance;; consume TOKEN_LPAREN "'('";;
     spec ← parseWindowSpec upperBeyond expr;
     consume TOKEN_RPAREN "')'";;
     mret (inl (if bool_decide (nameUp = rs "ROW_NUMBER") || bool_decide (nameUp = rs "RANK") || bool_decide (nameUp = rs "DENSE_RANK")
                then EWindow nameUp (PartitionBy spec) (rankOrder upperBeyond (WinOrderBy spec))
                else EWindowFunction nameUp args spec))
   else mret (inr (if isAggregateName nameUp then EAggregate nameUp args distinct else EFunctionCall nameUp args))) p =
  (skip p 1, Ok (inr (callOf upperBeyond ident args distinct) : Expression + Expression)).
Proof. intros Hin Hw. eat. cbv zeta. eapply step_next; [exact Hin|]. by rewrite (stop_type LPost). Qed.

Lemma call_list k args ts b p w : derivesList upperBeyond ParseFloat k args ts → lists k ts args → input k (ts ++ [(TOKEN_RPAREN, b)]) p w →
  ∀ {A} (f : list Expression → PM A) R, f args (skip p (length ts)) = R →
  (tok ← current; args ← (if bool_decide (length ([] : list Expression) = 0%nat) && negb (isType tok TOKEN_RPAREN) then parseValueListUntilRParen expr else mret []); f args) p = R.
Proof.
  intros (e & ts1 & ts2 & E & Hd)%derivesList_first Hl%lists_reads Hin A f R Hf. eapply step_first; [exact Hd|rewrite app_assoc, <- E; exact Hin|].
  intros tok HT _. rewrite HT by (done || by right). cbn [negb]. eapply step_before; [exact Hl|exact Hin|done|]. done.
Qed.

Lemma call_reads k ident args distinct ts a b : argsRead k distinct args ts →
  reads (parseCall upperBeyond expr ident) (S k) ((TOKEN_LPAREN, a) :: ts ++ [(TOKEN_RPAREN, b)]) (stop LPost)
        (inr (callOf upperBeyond ident args distinct)).
Proof.
  intros Hargs p w Hin Hw. unfold parseCall. eapply step_nested; [exact Hin|]. apply input_deeper in Hin. eat. destruct distinct.
  - destruct Hargs as (s & ts' & -> & Hs & Hd & Hl). cbn [app] in Hin. eat. rewrite Hs. eapply step_bind; [eat; reflexivity|]. apply input_tl in Hin.
    eapply call_list; [exact Hd|exact Hl|exact Hin|]. apply input_skip in Hin. etransitivity; [exact (call_end k ident _ _ b _ w Hin Hw)|]. done_reading.
  - destruct Hargs as [[-> ->]|[(s & -> & ->)|[Hd Hl]]].
    + cbn [app] in Hin. eat. eapply step_bind; [reflexivity|]. cbv beta iota. eat. eapply step_bind; [reflexivity|]. etransitivity; [exact (call_end k ident _ _ b _ w Hin Hw)|]. done_reading.
    + cbn [app] in Hin. eat. eapply step_bind; [eat; reflexivity|]. cbv beta iota. apply input_tl in Hin. eat. eapply step_bind; [reflexivity|].
      etransitivity; [exact (call_end k ident _ _ b _ w Hin Hw)|]. done_reading.
    + destruct (derivesList_first _ _ _ Hd) as (e & ts1 & ts2 & E & Hd1). eapply step_first; [exact Hd1|rewrite app_assoc, <- E; exact Hin|].
      intros tok HT Hdis. rewrite Hdis, HT by (done || by right). eapply step_bind; [reflexivity|].
      eapply call_list; [exact Hd|exact Hl|exact Hin|]. apply input_skip in Hin. etransitivity; [exact (call_end k ident _ _ b _ w Hin Hw)|]. done_reading.
Qed.

Lemma rule_call k ty s args ts a b distinct :
  callee ty = true → plainName upperBeyond s = true → undotted s = true → rowName s = false → argsRead k distinct args ts →
  accepts LPost (S k) ((ty, s) :: (TOKEN_LPAREN, a) :: ts ++ [(TOKEN_RPAREN, b)]) (callOf upperBeyond s args distinct).
Proof.
  intros Hc Hp Hu Hr Hargs p w Hin Hw. exists O. split; [cbn; lia|]. rewrite (primary_name _ _ _ _ _ _ Hin Hc Hp). apply input_tl in Hin. eat.
  eapply step_bind; [reflexivity|]. eapply step_bind; [by apply oldNew_none|]. rewrite splitDot_undotted by done. eat.
  eapply step_bind; [exact (call_reads _ s _ _ _ _ _ Hargs _ _ Hin Hw)|]. rewrite !skip_skip. done.
Qed.
End Level.

(** ** Every sentence is read as its tree *)

Abbreviation exprN n := (λ p, parseExpressionN upperBeyond ParseFloat n p).
Abbreviation selN n := (λ p, parseSelectN upperBeyond ParseFloat n p).

(** A level of recursion for each token is enough. *)
Definition acceptsN (k : nat) (lv : level) (e : Expression) (ts : list kind) : Prop :=
  ∀ n, (length ts ≤ S n)%nat → accepts (exprN n) (selN n) lv k ts e.

Lemma expr_reads k k' e ts n : derives k' LOr e ts → acceptsN k LOr e ts → (length ts ≤ n)%nat → reads (exprN n) k ts (stop LOr) e.
Proof.
  intros Hd%derives_length H Hn. destruct n as [|n]; [lia|]. exact (accepts_or (exprN n) (selN n) k ts e (H n ltac:(lia))).
Qed.

Ltac lengths := repeat (progress cbn [length app] in * || rewrite length_app in *); lia.

Lemma sentences_accepted :
  (∀ k lv e ts, derives k lv e ts → acceptsN k lv e ts) ∧
  (∀ k items ts, derivesList upperBeyond ParseFloat k items ts → ∀ n, (length ts ≤ n)%nat → lists (exprN n) k ts items) ∧
  (∀ k distinct args ts, derivesArgs upperBeyond ParseFloat k distinct args ts → ∀ n, (length ts ≤ n)%nat → argsRead (exprN n) k distinct args ts) ∧
  (∀ k whens ts, derivesWhens upperBeyond ParseFloat k whens ts → ∀ n, (length ts ≤ n)%nat → branches (exprN n) k ts whens) ∧
  (∀ k base ts, derivesBase upperBeyond ParseFloat k base ts → ∀ n, (length ts ≤ n)%nat →
     match base with Some e => reads (exprN n) k ts (stop LOr) e | None => True end) ∧
  (∀ k els ts, derivesElse upperBeyond ParseFloat k els ts → ∀ n, (length ts ≤ n)%nat → elseReads (exprN n) k ts els) ∧
  (∀ k args ts, derivesRange upperBeyond ParseFloat k args ts → ∀ n, (length ts ≤ n)%nat → rangeReads (exprN n) k ts args).
Proof.
  apply derives_all_ind; intros; try (intros fuel Hfuel).
  - by apply rule_column.
  - by apply rule_qualified.
  - apply rule_call; try done. apply H. lengths.
  - apply rule_path; [done|]. apply H. lengths.
  - by apply accepts_post, H.
  - by apply rule_value.
  - by apply rule_param.
  - eapply rule_paren; [done|]. eapply expr_reads; [done|done|lengths].
  - apply rule_cast; [|done]. eapply expr_reads; [done|done|lengths].
  - eapply rule_case; try done; [apply H|apply H0|apply H1]; lengths.
  - apply rule_substring; [eapply expr_reads; [done|done|lengths]|apply H0; lengths].
  - eapply lift_mul; [done|]. by apply H.
  - apply rule_times; [done|apply H; lengths|apply H0; lengths].
  - eapply lift_add; [done|]. by apply H.
  - apply rule_plus; [done|apply H; lengths|apply H0; lengths].
  - by apply lift_cmp, H.
  - eapply rule_compare; [done|done|apply H; lengths|apply H0; lengths].
  - apply rule_like; [apply H; lengths|apply H0; lengths].
  - apply rule_not_like; [apply H; lengths|apply H0; lengths].
  - apply rule_in; [apply H; lengths|done|apply H0; lengths].
  - apply rule_not_in; [apply H; lengths|done|apply H0; lengths].
  - apply rule_between; [apply H|apply H0|apply H1]; lengths.
  - apply rule_not_between; [apply H|apply H0|apply H1]; lengths.
  - apply rule_is_null, H. lengths.
  - apply rule_is_not_null, H. lengths.
  - eapply lift_not; [done|]. by apply H.
  - apply rule_not, H. lengths.
  - eapply lift_and; [done|]. by apply H.
  - apply rule_and; [apply H|apply H0]; lengths.
  - eapply lift_or; [done|]. by apply H.
  - apply rule_or; [apply H|apply H0]; lengths.
  - apply rule_single; [by eapply derives_length|]. by eapply expr_reads.
  - apply rule_comma; [eapply expr_reads; [done|done|lengths]|apply H0; lengths].
  - by left.
  - right; left. by eexists.
  - right; right. split; [done|]. by apply H.
  - eexists _, _. split_and!; [done..|]. apply H. lengths.
  - apply rule_no_when.
  - eapply rule_when; [done|eapply expr_reads; [done|done|lengths]..|apply H1; lengths].
  - done.
  - by eapply expr_reads.
  - done.
  - eexists _, _. split; [done|]. eapply expr_reads; [done|done|lengths].
  - done.
  - eexists _, _, _. split_and!; [done| |eapply expr_reads; [done|done|lengths]].
    match goal with H : _ || _ = true |- _ => apply orb_true_iff in H as [->%tok_eqb_eq| ->%tok_eqb_eq] end; [by left|by right].
  - eexists _, _, _, _, _, _. split_and!; [done|by left|eapply expr_reads; [done|done|lengths]..].
  - eexists _, _, _, _, _, _. split_and!; [done|by right|eapply expr_reads; [done|done|lengths]..].
Qed.
End Reading.

(** ** Sentences *)

Section Sentences.
Context (upperBeyond : Z → Z) (ParseFloat : text → option Z).

Lemma sentence_parsed k e ts ws w rest : derives upperBeyond ParseFloat k LOr e ts → (k ≤ 32)%nat → kindOf <$> ws = ts → stop LOr (Type_ w) = true →
  parseExpression upperBeyond ParseFloat (mkParser (ws ++ w :: rest) 0 0) = (mkParser (ws ++ w :: rest) (length ws) 0, Ok e).
Proof.
  intros Hd Hk Hts Hw. unfold parseExpression. set (p := mkParser _ 0 0).
  assert (input k ts p w) as Hin by (exists ws, rest; split_and!; [done|done|done|cbn; unfold defaultMaxParserDepth; lia]).
  pose proof (expr_reads upperBeyond ParseFloat k k e ts (levels p) Hd (proj1 (sentences_accepted upperBeyond ParseFloat) k LOr e ts Hd)) as Hr.
  apply input_bound in Hin as Hb. rewrite (Hr ltac:(unfold levels; lia) p w Hin Hw). unfold skip, p. cbn. by rewrite <- Hts, length_fmap.
Qed.

(** C17: the parser follows the grammar of expressions. A sentence, as the rules of the eight levels of precedence derive it, with at most
    32 parentheses and calls inside one another, before a token that cannot go on with it, is read as the tree that the rules give it, up to
    its end; so one sentence never stands for two trees. *)
Theorem parser_follows_grammar k e ws w rest :
  derives upperBeyond ParseFloat k LOr e (kindOf <$> ws) → (k ≤ 32)%nat → stop LOr (Type_ w) = true →
  parseExpression upperBeyond ParseFloat (mkParser (ws ++ w :: rest) 0 0) = (mkParser (ws ++ w :: rest) (length ws) 0, Ok e) ∧
  (∀ k' e', derives upperBeyond ParseFloat k' LOr e' (kindOf <$> ws) → (k' ≤ 32)%nat → e' = e).
Proof.
  intros Hd Hk Hw. pose proof (sentence_parsed k e _ ws w rest Hd Hk eq_refl Hw) as E. split; [done|]. intros k' e' Hd' Hk'.
  pose proof (sentence_parsed k' e' _ ws w rest Hd' Hk' eq_refl Hw) as E'. rewrite E in E'. by injection E'.
Qed.
End Sentences.

(** [NOT (a + 2) * b < 10 AND c IN (1)]. *)
Lemma parser_follows_grammar_witness :
  let sym t s := mkToken t (rs s) 1 1 in
  let ws := [sym TOKEN_NOT "NOT"; sym TOKEN_LPAREN "("; sym TOKEN_IDENT "a"; sym TOKEN_PLUS "+"; sym TOKEN_INT_LIT "2"; sym TOKEN_RPAREN ")";
             sym TOKEN_STAR "*"; sym TOKEN_IDENT "b"; sym TOKEN_LT "<"; sym TOKEN_INT_LIT "10"; sym TOKEN_AND "AND"; sym TOKEN_IDENT "c";
             sym TOKEN_IN "IN"; sym TOKEN_LPAREN "("; sym TOKEN_INT_LIT "1"; sym TOKEN_RPAREN ")"] in
  let col s := EColumnRef (rs s) [] in
  snd (parseExpression id (λ _, None) (mkParser (ws ++ [mkToken TOKEN_EOF [] 1 1]) 0 0)) =
  Ok (EAnd (ENot (EBinary (EBinary (EBinary (col "a") (rs "+") (EValue (VInt 2))) (rs "*") (col "b")) (rs "<") (EValue (VInt 10))))
           (EIn (col "c") false [EValue (VInt 1)])).
Proof.
  intros sym ws col. refine (f_equal snd (proj1 (parser_follows_grammar id (λ _, None) 1 _ ws (mkToken TOKEN_EOF [] 1 1) [] _ _ _))); [|lia|done].
  assert (∀ k s, plainName id (rs s) = true → undotted (rs s) = true → rowName (rs s) = false → derives id (λ _, None) k LPrim (col s) [(TOKEN_IDENT, rs s)]) as Hcol.
  { intros k s ? ? ?. by apply d_post, d_column. }
  assert (∀ k s z, Atoi (rs s) = Some z → derives id (λ _, None) k LPrim (EValue (VInt z)) [(TOKEN_INT_LIT, rs s)]) as Hint.
  { intros k s z ?. by apply d_value, lit_int. }
  apply d_lift_or. refine (d_and _ _ _ _ _ [_; _; _; _; _; _; _; _; _; _] _ _ _ _); [apply d_lift_and, d_not, d_lift_not|apply d_lift_not].
  - refine (d_compare _ _ _ _ _ _ [_; _; _; _; _; _; _] _ _ _ _ _); [done|apply d_add|by apply d_add, d_mul, Hint].
    refine (d_times _ _ _ _ _ _ [_; _; _; _; _] _ _ _ _ _); [done|apply d_mul|by apply Hcol].
    refine (d_paren _ _ _ _ [_; _; _] _ _ _). apply d_lift_or, d_lift_and, d_lift_not, d_cmp.
    refine (d_plus _ _ _ _ _ _ [_] _ _ _ _ _); [done|by apply d_add, d_mul, Hcol|by apply d_mul, Hint].
  - refine (d_in _ _ _ _ _ [_] [_] _ _ _ _ _); [by apply d_add, d_mul, Hcol|].
    apply d_single, d_lift_or, d_lift_and, d_lift_not, d_cmp, d_add, d_mul. by apply Hint.
Defined.
