(* ===== verification/FormatSpec.v ===== *)
(** * Expressions as text

    [FormatExpression] writes an expression back as SQL: for CHECK constraints,
    computed columns and views, which the server stores as text and parses again.
    It puts parentheses around AND and OR and around nothing else. The trees whose
    text stands for them are given by [formatLevel]; for these the text is read
    back as the tree, and for others it is not. *)

From S2P Require Import Prelude Bytes Strconv Lexer Parser Grammar.
From Stdlib Require Import Ascii.

(** ** The words of the text *)

Definition sp : text := rs " ".

(** The symbols that are operators between two expressions. *)
Definition operators : list TokenType :=
  [TOKEN_STAR; TOKEN_SLASH; TOKEN_PLUS; TOKEN_MINUS; TOKEN_EQ; TOKEN_NEQ; TOKEN_LT; TOKEN_GT; TOKEN_LTE; TOKEN_GTE; TOKEN_JSON_CONTAINED_BY;
   TOKEN_JSON_MERGE; TOKEN_FULLTEXT_MATCH].

Definition operatorOf (op : text) : option TokenType := find (λ t, bool_decide (symbol t = Some op)) operators.

Definition opWords (op : text) : list (text * word) :=
  match operatorOf op with
  | Some t => [(sp, WSymbol t)]
  | None => if bool_decide (op = rs "IS NOT") then [(sp, WName (rs "IS")); (sp, WName (rs "NOT"))] else [(sp, WName op)]
  end.

Definition intWord (z : Z) : word := WInt (z <? 0) (ofBytes (digits 19 (Z.abs z))).

Definition valueWord (v : Value) : word :=
  match v with
  | VInt z => intWord z
  | VString s => WString s
  | VBool b => WName (if b then rs "TRUE" else rs "FALSE")
  | _ => WName (rs "NULL")
  end.

Definition notWords (not : bool) : list (text * word) := if not then [(sp, WName (rs "NOT"))] else [].

Definition isStar (e : Expression) : bool := match e with EColumnRef name table => bool_decide (name = rs "*") && bool_decide (table = []) | _ => false end.

(** The items of a list, the first after [g]. *)
Definition listWords (item : text → Expression → list (text * word)) (g : text) (l : list Expression) : list (text * word) :=
  match l with [] => [] | e :: l => item g e ++ flat_map (λ e, ([], WSymbol TOKEN_COMMA) :: item sp e) l end.

(** The words of [e], the first one after [g]. *)
Fixpoint words (g : text) (e : Expression) : list (text * word) :=
  match e with
  | EValue v => [(g, valueWord v)]
  | EColumnRef name table =>
      if isStar e then [(g, WSymbol TOKEN_STAR)]
      else if bool_decide (table = []) then [(g, WName name)] else [(g, WName table); ([], WSymbol TOKEN_DOT); ([], WName name)]
  | EBinary l op r => words g l ++ opWords op ++ words sp r
  | EAnd l r => (g, WSymbol TOKEN_LPAREN) :: words [] l ++ (sp, WName (rs "AND")) :: words sp r ++ [([], WSymbol TOKEN_RPAREN)]
  | EOr l r => (g, WSymbol TOKEN_LPAREN) :: words [] l ++ (sp, WName (rs "OR")) :: words sp r ++ [([], WSymbol TOKEN_RPAREN)]
  | ENot e => (g, WName (rs "NOT")) :: words sp e
  | EParam i => [(g, WParam (ofBytes (digits 19 i)))]
  | EIn l not r =>
      words g l ++ notWords not ++ (sp, WName (rs "IN")) :: (sp, WSymbol TOKEN_LPAREN) :: listWords words [] r ++ [([], WSymbol TOKEN_RPAREN)]
  | EFunctionCall name args => (g, WName name) :: ([], WSymbol TOKEN_LPAREN) :: listWords words [] args ++ [([], WSymbol TOKEN_RPAREN)]
  | EAggregate name args distinct =>
      (g, WName name) :: ([], WSymbol TOKEN_LPAREN) :: (if distinct then [([], WName (rs "DISTINCT"))] else []) ++
      listWords words (if distinct then sp else []) args ++ [([], WSymbol TOKEN_RPAREN)]
  | ECast e ty =>
      (g, WName (rs "CAST")) :: ([], WSymbol TOKEN_LPAREN) :: words [] e ++ [(sp, WName (rs "AS")); (sp, WName ty); ([], WSymbol TOKEN_RPAREN)]
  | EBetween e lo hi not => words g e ++ notWords not ++ (sp, WName (rs "BETWEEN")) :: words sp lo ++ (sp, WName (rs "AND")) :: words sp hi
  | EJsonPath l op path => words g l ++ [([], WSymbol (if bool_decide (op = rs "->") then TOKEN_ARROW else TOKEN_DBL_ARROW)); ([], WString path)]
  | _ => []
  end.

(** ** The trees that are written faithfully *)

Definition rank (lv : level) : nat :=
  match lv with LPost => 0 | LPrim => 1 | LMul => 2 | LAdd => 3 | LCmp => 4 | LNot => 5 | LAnd => 6 | LOr => 7 end.

(** Of a level, or of one inside it. *)
Definition fits (lv : level) (o : option level) : bool := match o with Some l => (rank l <=? rank lv)%nat | None => false end.

Definition guard_ (b : bool) (lv : level) : option level := if b then Some lv else None.

Definition castNames : list string :=
  ["INT"; "FLOAT"; "BOOL"; "TEXT"; "BLOB"; "DATE"; "TIME"; "TIMESTAMP"; "DECIMAL"; "UUID"; "INTERVAL"; "JSONB"; "VARCHAR"].

Definition int64 (z : Z) : bool := (- 2 ^ 63 <=? z) && (z <? 2 ^ 63).

Section Formattable.
Context (letterBeyond : Z → bool) (upperBeyond : Z → Z).

(** A name that the lexer reads as a name, and the parser as itself. *)
Definition nameOk (s : text) : bool :=
  wordOk letterBeyond (WName s) && tok_eqb (LookupIdent upperBeyond s) TOKEN_IDENT && plainName upperBeyond s && undotted s.

Definition callNameOk (s : text) : bool :=
  wordOk letterBeyond (WName s) && callee (LookupIdent upperBeyond s) && plainName upperBeyond s && undotted s && negb (rowName s) &&
  bool_decide (ToUpper upperBeyond s = s).

(** No rune that needs a backslash, and no NUL. *)
Definition stringOk (s : text) : bool := forallb (λ r, negb ((r =? rune "'"%char) || (r =? rune "\"%char)) && negb (r =? 0)) s.

Definition valueOk (v : Value) : bool :=
  match v with VInt z => int64 z | VString s => stringOk s | VBool _ | VNull => true | VFloat _ => false end.

(** The level of the text of [e], if the text stands for [e]. *)
Fixpoint formatLevel (e : Expression) : option level :=
  match e with
  | EValue v => guard_ (valueOk v) LPrim
  | EColumnRef name table =>
      if bool_decide (table = []) then guard_ (nameOk name && negb (rowName name)) LPost
      else guard_ (nameOk table && wordOk letterBeyond (WName name) && tok_eqb (LookupIdent upperBeyond name) TOKEN_IDENT) LPost
  | EBinary l op r =>
      let a := formatLevel l in
      let b := formatLevel r in
      match operatorOf op with
      | Some t =>
          if existsb (tok_eqb t) multiplicative then guard_ (fits LMul a && fits LPrim b) LMul
          else if existsb (tok_eqb t) additive then guard_ (fits LAdd a && fits LMul b) LAdd
          else guard_ (fits LAdd a && fits LAdd b) LCmp
      | None =>
          if bool_decide (op = rs "LIKE") then guard_ (fits LAdd a && fits LAdd b) LCmp
          else if bool_decide (op = rs "IS") || bool_decide (op = rs "IS NOT")
          then guard_ (fits LAdd a && match r with EValue VNull => true | _ => false end) LCmp
          else None
      end
  | EAnd l r | EOr l r => guard_ (fits LNot (formatLevel l) && fits LNot (formatLevel r)) LPrim
  | ENot e => guard_ (fits LNot (formatLevel e)) LNot
  | EParam i => guard_ ((0 <=? i) && int64 i) LPrim
  | EIn l _ r => guard_ (fits LAdd (formatLevel l) && negb (bool_decide (length r = 0%nat)) && forallb (λ e, fits LOr (formatLevel e)) r) LCmp
  | EFunctionCall name args => guard_ (callNameOk name && negb (isAggregateName name) && forallb (λ e, fits LOr (formatLevel e)) args) LPost
  | EAggregate name args distinct =>
      guard_ (callNameOk name && isAggregateName name &&
        if negb distinct && match args with [e] => isStar e | _ => false end then true
        else negb (distinct && bool_decide (length args = 0%nat)) && forallb (λ e, fits LOr (formatLevel e)) args) LPost
  | ECast e ty => guard_ (fits LOr (formatLevel e) && existsb (λ w, bool_decide (ty = rs w)) castNames) LPrim
  | EBetween e lo hi _ => guard_ (fits LAdd (formatLevel e) && fits LAdd (formatLevel lo) && fits LAdd (formatLevel hi)) LCmp
  | EJsonPath l op path =>
      guard_ (fits LPost (formatLevel l) && (bool_decide (op = rs "->") || bool_decide (op = rs "->>")) && stringOk path) LPost
  | _ => None
  end.

(** Parentheses and calls inside one another. *)
Fixpoint nesting (e : Expression) : nat :=
  match e with
  | EBinary l _ r => Nat.max (nesting l) (nesting r)
  | EAnd l r | EOr l r => S (Nat.max (nesting l) (nesting r))
  | ENot e | ECast e _ | EJsonPath e _ _ => nesting e
  | EIn l _ r => Nat.max (nesting l) (list_max (nesting <$> r))
  | EFunctionCall _ args | EAggregate _ args _ => S (list_max (nesting <$> args))
  | EBetween e lo hi _ => Nat.max (nesting e) (Nat.max (nesting lo) (nesting hi))
  | _ => O
  end.
End Formattable.

(** ** The text is the text of the words *)

Lemma render_app a b tail : render (a ++ b) tail = render a (render b tail).
Proof. induction a as [|[ws w] a IH]; [done|]. cbn [render app]. by rewrite IH. Qed.

Lemma joinText_cons sep x l : joinText sep (x :: l) = x ++ flat_map (λ y, rs sep ++ y) l.
Proof.
  cbn [joinText]. revert x. induction l as [|y l IH]; intros x; cbn; [by rewrite app_nil_r|]. by rewrite IH, <- !app_assoc.
Qed.

Lemma fits_Some lv o : fits lv o = true → ∃ l, o = Some l ∧ (rank l ≤ rank lv)%nat.
Proof. destruct o as [l|]; [|done]. cbn. intros H%Nat.leb_le. by exists l. Qed.

Lemma guard_Some b lv l : guard_ b lv = Some l → b = true ∧ lv = l.
Proof. destruct b; [|done]. by intros [= ->]. Qed.

(** The facts of a test that succeeded. *)
Ltac tests :=
  repeat match goal with
  | H : guard_ _ _ = Some _ |- _ => apply guard_Some in H as [H ?]
  | H : _ && _ = true |- _ => apply andb_true_iff in H as [? ?]
  | H : negb _ = true |- _ => apply negb_true_iff in H
  | H : bool_decide _ = true |- _ => apply bool_decide_eq_true in H
  | H : bool_decide _ = false |- _ => apply bool_decide_eq_false in H
  | H : Some _ = Some _ |- _ => injection H as H
  | H : None = Some _ |- _ => discriminate H
  | H : false = true |- _ => discriminate H
  end; subst.

Lemma intText_source z : int64 z = true → source (intWord z) = intText z.
Proof.
  intros _. unfold intWord, source, intText, FormatInt, ofBytes. destruct (Z.ltb_spec z 0).
  - rewrite Z.abs_neq by lia. done.
  - by rewrite Z.abs_eq.
Qed.

Lemma quoted_plain s : stringOk s = true → quoted s = s.
Proof.
  induction s as [|r s IH]; [done|]. unfold stringOk. cbn [forallb]. intros. tests. unfold quoted. cbn [mbind list_bind].
  match goal with H : (_ || _) = false |- _ => rewrite H end. cbn [app]. f_equal. by apply IH.
Qed.

Lemma operator_symbol op t : operatorOf op = Some t → symbol t = Some op ∧ In t operators.
Proof. intros [Hin Hs]%find_some. split; [by apply bool_decide_eq_true in Hs|done]. Qed.

Section Texts.
Context (letterBeyond : Z → bool) (upperBeyond : Z → Z) (FormatFloat : Z → text).
Abbreviation formatLevel := (formatLevel letterBeyond upperBeyond).
Abbreviation FormatExpression := (FormatExpression upperBeyond FormatFloat).

(** A tree that is written, or the star of a call. *)
Definition written (e : Expression) : Prop := is_Some (formatLevel e) ∨ isStar e = true.

Lemma fits_written lv e : fits lv (formatLevel e) = true → written e.
Proof. intros (l & E & _)%fits_Some. left. by exists l. Qed.

Definition renders (e : Expression) : Prop := written e → ∀ g tail, render (words g e) tail = g ++ FormatExpression e ++ tail.

Lemma render_rest l tail : Forall renders l → Forall written l →
  render (flat_map (λ e, ([], WSymbol TOKEN_COMMA) :: words sp e) l) tail = flat_map (λ y, rs ", " ++ y) (FormatExpression <$> l) ++ tail.
Proof.
  induction 1 as [|e l He _ IH]; intros Hw; [done|]. apply Forall_cons in Hw as [Hw1 Hw]. rewrite fmap_cons. cbn [flat_map app render].
  rewrite render_app, He, IH by done. change (source (WSymbol TOKEN_COMMA)) with (rs ","). cbn [app]. by rewrite <- !app_assoc.
Qed.

Lemma render_list g l tail : l ≠ [] → Forall renders l → Forall written l →
  render (listWords words g l) tail = g ++ joinText ", " (FormatExpression <$> l) ++ tail.
Proof.
  intros Hne Hr Hw. destruct l as [|e l]; [done|]. apply Forall_cons in Hr as [He Hr], Hw as [Hw1 Hw]. rewrite fmap_cons. cbn [listWords].
  rewrite render_app, He, render_rest, joinText_cons by done. by rewrite <- !app_assoc.
Qed.

Lemma render_args l tail : Forall renders l → Forall written l → render (listWords words [] l) tail = joinText ", " (FormatExpression <$> l) ++ tail.
Proof. destruct l as [|e l]; [done|]. intros. by rewrite render_list. Qed.

Lemma fits_all lv l : forallb (λ e, fits lv (formatLevel e)) l = true → Forall written l.
Proof. induction l as [|e l IH]; cbn [forallb]; intros; constructor; tests; [by eapply fits_written|by apply IH]. Qed.

Lemma render_op op tail : (is_Some (operatorOf op) ∨ op = rs "LIKE" ∨ op = rs "IS" ∨ op = rs "IS NOT") → render (opWords op) tail = sp ++ op ++ tail.
Proof.
  unfold opWords. destruct (operatorOf op) as [t|] eqn:E.
  - intros _. apply operator_symbol in E as [E _]. cbn [render source]. by rewrite E.
  - intros [[? ?]|[->|[->| ->]]]; done.
Qed.

Lemma op_known op l r lv : formatLevel (EBinary l op r) = Some lv →
  (is_Some (operatorOf op) ∨ op = rs "LIKE" ∨ op = rs "IS" ∨ op = rs "IS NOT") ∧ written l ∧ written r.
Proof.
  cbn [FormatSpec.formatLevel]. destruct (operatorOf op) as [t|] eqn:E.
  - repeat case_match; intros; tests; (split_and!; [left; by eexists|by eapply fits_written|by eapply fits_written]).
  - destruct (bool_decide (op = rs "LIKE")) eqn:E1; [intros; tests; split_and!; eauto using fits_written|].
    destruct (bool_decide (op = rs "IS") || bool_decide (op = rs "IS NOT")) eqn:E2; [|done]. intros. tests. split_and!; [|by eapply fits_written|].
    + apply orb_true_iff in E2 as [E2|E2]; tests; auto.
    + destruct r as [v| | | | | | | | | | | | | | | | | | |]; try done. destruct v; try done. left. by eexists.
Qed.
Lemma written_star name table : isStar (EColumnRef name table) = true → name = rs "*" ∧ table = [].
Proof. cbn. intros. by tests. Qed.

Lemma star_unwritten e lv : formatLevel e = Some lv → isStar e = false.
Proof.
  intros H. apply not_true_is_false. destruct e; try done. intros [-> ->]%written_star. done.
Qed.

Lemma args_written (args : list Expression) (distinct : bool) :
  (if negb distinct && match args with [e] => isStar e | _ => false end then true
   else negb (distinct && bool_decide (length args = 0%nat)) && forallb (λ e, fits LOr (formatLevel e)) args) = true → Forall written args.
Proof.
  destruct (negb distinct && _) eqn:E.
  - intros _. tests. destruct args as [|e [|]]; try done. constructor; [by right|constructor].
  - intros. tests. by eapply fits_all.
Qed.

Lemma render_value v g tail : valueOk v = true → render [(g, valueWord v)] tail = g ++ formatValueSQL FormatFloat v ++ tail.
Proof.
  destruct v as [z|f|t|b|]; cbn [valueOk render valueWord formatValueSQL]; intros H; try done.
  - by rewrite intText_source.
  - cbn [source]. rewrite quoted_plain by done. by rewrite <- !app_assoc.
Qed.

(** A text and what follows it. *)
Ltac texts := cbn [app]; rewrite <- ?app_assoc; try done.

Lemma render_words e : renders e.
Proof.
  induction e as [e IH] using Expression_children_ind. intros Hw g tail. destruct (isStar e) eqn:Hs.
  { destruct e; try done. apply written_star in Hs as [-> ->]. done. }
  destruct Hw as [[lv Hl]|]; [|congruence].
  destruct e as [v|name table|l op r|l r|l r|e|i|l not r|name args|name args distinct| | | |e ty| |e lo hi not| |l op path| |];
    cbn [children] in IH; try discriminate Hl.
  - cbn in Hl. tests. by apply render_value.
  - cbn [words]. rewrite Hs. cbn [FormatSpec.formatLevel] in Hl. cbn [Parser.FormatExpression]. case_bool_decide; texts.
  - apply op_known in Hl as (Ho & Hl & Hr). apply Forall_cons in IH as [IHl [IHr _]%Forall_cons]. cbn [words Parser.FormatExpression].
    rewrite !render_app, IHl, render_op, IHr by done. texts.
  - cbn in Hl. tests. apply Forall_cons in IH as [IHl [IHr _]%Forall_cons]. cbn [words Parser.FormatExpression render].
    rewrite render_app, IHl by (by eapply fits_written). cbn [render]. rewrite render_app, IHr by (by eapply fits_written). texts.
  - cbn in Hl. tests. apply Forall_cons in IH as [IHl [IHr _]%Forall_cons]. cbn [words Parser.FormatExpression render].
    rewrite render_app, IHl by (by eapply fits_written). cbn [render]. rewrite render_app, IHr by (by eapply fits_written). texts.
  - cbn in Hl. tests. apply Forall_cons in IH as [IHe _]. cbn [words Parser.FormatExpression render]. rewrite IHe by (by eapply fits_written). texts.
  - cbn in Hl. tests. cbn [words Parser.FormatExpression render source]. unfold intText, FormatInt.
    rewrite (proj2 (Z.ltb_ge i 0)) by (by apply Z.leb_le). texts.
  - cbn [FormatSpec.formatLevel] in Hl. tests. apply Forall_cons in IH as [IHl IHr]. cbn [words Parser.FormatExpression].
    rewrite !render_app, IHl by (by eapply fits_written). destruct not; cbn [notWords app render]; rewrite render_app, render_args by (done || by eapply fits_all); texts.
  - cbn [FormatSpec.formatLevel] in Hl. tests. cbn [words Parser.FormatExpression render].
    rewrite render_app, render_args by (done || by eapply fits_all). texts.
  - cbn [FormatSpec.formatLevel] in Hl. tests. cbn [words Parser.FormatExpression render]. destruct distinct; cbn [app render].
    + match goal with H : (if _ then _ else _) = true |- _ => pose proof (args_written args true H) as Hw end. cbn [negb andb] in *. tests.
      rewrite render_app, render_list; [texts|by destruct args|done..].
    + match goal with H : (if _ then _ else _) = true |- _ => pose proof (args_written args false H) as Hw end. rewrite render_app, render_args by done. texts.
  - cbn in Hl. tests. apply Forall_cons in IH as [IHe _]. cbn [words Parser.FormatExpression render].
    rewrite render_app, IHe by (by eapply fits_written). texts.
  - cbn in Hl. tests. apply Forall_cons in IH as [IHe [IHl [IHh _]%Forall_cons]%Forall_cons]. cbn [words Parser.FormatExpression].
    rewrite !render_app, IHe by (by eapply fits_written). destruct not; cbn [notWords app render]; rewrite render_app, IHl by (by eapply fits_written); cbn [render];
      rewrite IHh by (by eapply fits_written); texts.
  - cbn [FormatSpec.formatLevel] in Hl. tests. apply Forall_cons in IH as [IHe _]. cbn [words Parser.FormatExpression].
    rewrite render_app, IHe by (by eapply fits_written). cbn [render source]. rewrite quoted_plain by done.
    match goal with H : _ || _ = true |- _ => apply orb_true_iff in H as [H|H]; tests end; texts.
Qed.
(** ** The words can be told apart *)

Abbreviation wordOk := (wordOk letterBeyond).
Abbreviation endsBefore := (endsBefore letterBeyond).

(** Words that end before what comes after them. *)
Fixpoint ends (ps : list (text * word)) (rest : text) : bool :=
  match ps with
  | [] => true
  | (ws, w) :: ps => forallb IsSpace ws && wordOk w && endsBefore w (next (render ps rest)) && ends ps rest
  end.

Lemma spaced_ends ps tail : spaced letterBeyond ps tail = ends ps tail && forallb IsSpace tail.
Proof. induction ps as [|[ws w] ps IH]; [done|]. cbn [spaced ends]. by rewrite IH, andb_assoc. Qed.

Lemma ends_app a b rest : ends (a ++ b) rest = ends a (render b rest) && ends b rest.
Proof. induction a as [|[ws w] a IH]; [done|]. cbn [ends app]. by rewrite IH, render_app, !andb_assoc. Qed.

(** What comes after an expression. *)
Definition delim (c : Z) : bool := existsb (Z.eqb c) [0; 32; rune ")"%char; rune ","%char; rune "-"%char].

(** The words at the end of an expression. *)
Definition closing (w : word) : bool := match w with WSymbol TOKEN_RPAREN | WSymbol TOKEN_STAR => true | WSymbol _ => false | _ => true end.

Lemma closing_ends w c : closing w = true → delim c = true → endsBefore w c = true.
Proof.
  intros Hw (x & Hin & ->%Z.eqb_eq)%existsb_exists. cbn in Hin. destruct w as [| | | | |t]; [..|by destruct t]; cbn [Lexer.endsBefore];
    destruct_or! Hin; subst; done.
Qed.

Lemma ends_one g w rest : forallb IsSpace g = true → wordOk w = true → closing w = true → delim (next rest) = true → ends [(g, w)] rest = true.
Proof. intros Hg Hw Hc Hd. cbn [ends render]. by rewrite Hg, Hw, closing_ends. Qed.

Lemma ends_cons g w ps rest :
  forallb IsSpace g = true → wordOk w = true → endsBefore w (next (render ps rest)) = true → ends ps rest = true → ends ((g, w) :: ps) rest = true.
Proof. intros Hg Hw Hc Hd. cbn [ends]. by rewrite Hg, Hw, Hc, Hd. Qed.

Definition apart (e : Expression) : Prop :=
  written e → ∀ g rest, forallb IsSpace g = true → delim (next rest) = true → ends (words g e) rest = true.

Lemma digits_ok n : 0 <= n → Lexer.wordOk letterBeyond (WParam (ofBytes (digits 19 n))) = true.
Proof.
  intros Hn. cbn [Lexer.wordOk]. assert (∀ fuel n, 0 <= n → forallb isDigit (ofBytes (digits fuel n)) = true) as Hd.
  { clear n Hn. induction fuel as [|fuel IH]; intros n Hn; [done|]. cbn [digits]. unfold ofBytes in *. destruct (Z.ltb_spec n 10).
    - cbn. rewrite digit_unsigned by lia. unfold isDigit. zbool. done.
    - rewrite fmap_app, forallb_app, IH by mlia. cbn. rewrite digit_unsigned by mlia. unfold isDigit. pose proof (Z.mod_pos_bound n 10). zbool. done. }
  rewrite Hd, andb_true_r by done. destruct (digits_cons 19 n) as (b & l & -> & _); [lia|done|]. done.
Qed.

Lemma valueWord_ok v : valueOk v = true → wordOk (valueWord v) = true ∧ closing (valueWord v) = true.
Proof.
  destruct v as [z|f|t|b|]; try done; cbn [valueOk valueWord]; intros H; (split; [|done]).
  - apply (digits_ok (Z.abs z)). lia.
  - cbn [Lexer.wordOk]. unfold stringOk in H. induction t as [|r t IH]; [done|]. cbn [forallb] in *. tests.
    match goal with H : (_ =? 0) = false |- _ => rewrite H end. by apply IH.
  - by destruct b.
Qed.

Lemma ends_rest l rest : Forall apart l → Forall written l → delim (next rest) = true →
  ends (flat_map (λ e, ([], WSymbol TOKEN_COMMA) :: words sp e) l) rest = true.
Proof.
  intros Ha Hw Hd. induction Ha as [|e l He Ha IH]; [done|]. apply Forall_cons in Hw as [Hw1 Hw]. cbn [flat_map]. cbn [app].
  apply ends_cons; [done..|]. rewrite ends_app, IH, andb_true_r by done. apply He; [done..|]. by destruct l.
Qed.

Lemma ends_list g l rest : forallb IsSpace g = true → Forall apart l → Forall written l → delim (next rest) = true → ends (listWords words g l) rest = true.
Proof.
  intros Hg Ha Hw Hd. destruct l as [|e l]; [done|]. apply Forall_cons in Ha as [He Ha], Hw as [Hw1 Hw]. cbn [listWords].
  rewrite ends_app, ends_rest, andb_true_r by done. apply He; [done..|]. by destruct l.
Qed.

Lemma next_words e rest : written e → next (render (words sp e) rest) = 32.
Proof. intros Hw. by rewrite render_words. Qed.

Lemma ends_op op e rest : (is_Some (operatorOf op) ∨ op = rs "LIKE" ∨ op = rs "IS" ∨ op = rs "IS NOT") → written e →
  ends (opWords op) (render (words sp e) rest) = true.
Proof.
  intros Ho He. unfold opWords. destruct (operatorOf op) as [t|] eqn:E.
  - apply operator_symbol in E as [_ Hin]. cbn [ends render]. rewrite next_words by done. cbn in Hin. destruct_or! Hin; subst; done.
  - destruct Ho as [[? ?]|[->|[->| ->]]]; [done|..].
    + rewrite bool_decide_false by done. cbn [ends]. change (render [] ?t) with t. rewrite next_words by done. done.
    + rewrite bool_decide_false by done. cbn [ends]. change (render [] ?t) with t. rewrite next_words by done. done.
    + rewrite bool_decide_true by done. cbn [ends]. change (render [] ?t) with t. rewrite next_words by done. done.
Qed.

Lemma next_op op rest : next (render (opWords op) rest) = 32.
Proof. unfold opWords. destruct (operatorOf op); [done|]. by case_bool_decide. Qed.
Lemma nameOk_word s : nameOk letterBeyond upperBeyond s = true → wordOk (WName s) = true.
Proof. unfold nameOk. intros. by tests. Qed.

Lemma callNameOk_word s : callNameOk letterBeyond upperBeyond s = true → wordOk (WName s) = true.
Proof. unfold callNameOk. intros. by tests. Qed.

Lemma castName_word ty : existsb (λ w, bool_decide (ty = rs w)) castNames = true → wordOk (WName ty) = true.
Proof. intros (w & Hin & ->%bool_decide_eq_true)%existsb_exists. cbn in Hin. destruct_or! Hin; subst; done. Qed.

Lemma string_word s : stringOk s = true → wordOk (WString s) = true.
Proof. intros H. by apply (valueWord_ok (VString s)). Qed.

(** A name before a parenthesis, and a keyword before a space. *)
Lemma ends_call g s ps rest : forallb IsSpace g = true → wordOk (WName s) = true → ends ps rest = true →
  ends ((g, WName s) :: ([], WSymbol TOKEN_LPAREN) :: ps) rest = true.
Proof. intros. apply ends_cons; [done..|]. by apply ends_cons. Qed.

Lemma ends_keyword g s e ps rest : forallb IsSpace g = true → wordOk (WName s) = true → written e → ends (words sp e ++ ps) rest = true →
  ends ((g, WName s) :: words sp e ++ ps) rest = true.
Proof. intros. apply ends_cons; [done..| |done]. rewrite render_app, next_words by done. done. Qed.

(** An expression and a closing parenthesis. *)
Lemma ends_paren ps rest : (∀ rest, delim (next rest) = true → ends ps rest = true) → delim (next rest) = true →
  ends (ps ++ [([], WSymbol TOKEN_RPAREN)]) rest = true.
Proof. intros Hps Hd. rewrite ends_app, Hps by done. cbn [andb]. by apply ends_one. Qed.

(** A part of an expression. *)
Ltac inner := match goal with H : apart ?e |- ends (words _ ?e) _ = true => apply H; [done|done|] end; try done.

Lemma words_apart e : apart e.
Proof.
  induction e as [e IH] using Expression_children_ind. intros Hw g rest Hg Hd. destruct (isStar e) eqn:Hs.
  { destruct e; try done. apply written_star in Hs as [-> ->]. by apply ends_one. }
  destruct Hw as [[lv Hl]|]; [|congruence].
  destruct e as [v|name table|l op r|l r|l r|e|i|l not r|name args|name args distinct| | | |e ty| |e lo hi not| |l op path| |];
    cbn [children] in IH; try discriminate Hl; try (apply op_known in Hl as (Ho & Hl & Hr)); cbn [words FormatSpec.formatLevel] in *; tests;
    rewrite ?Forall_cons in IH; repeat match goal with H : _ ∧ _ |- _ => destruct H end;
    repeat match goal with H : fits _ _ = true |- _ => apply fits_written in H | H : forallb _ _ = true |- _ => apply fits_all in H end.
  - apply ends_one; [done|by apply valueWord_ok..|done].
  - rewrite Hs. case_bool_decide; tests.
    + apply ends_one; [done|by apply nameOk_word|done..].
    + apply ends_cons; [done|by apply nameOk_word|done|]. apply ends_cons; [done..|]. by apply ends_one.
  - rewrite !ends_app, !render_app, ends_op by done. apply andb_true_iff. split; [|cbn [andb]; inner]. inner. by rewrite next_op.
  - apply ends_cons; [done..|]. rewrite ends_app. apply andb_true_iff. split; [inner|]. apply ends_keyword; [done..|]. apply ends_paren; [intros; inner|done].
  - apply ends_cons; [done..|]. rewrite ends_app. apply andb_true_iff. split; [inner|]. apply ends_keyword; [done..|]. apply ends_paren; [intros; inner|done].
  - rewrite <- (app_nil_r (words sp e)). apply ends_keyword; [done..|]. rewrite app_nil_r. inner.
  - apply ends_one; [done| |done..]. apply digits_ok. by apply Z.leb_le.
  - rewrite ends_app. apply andb_true_iff. split; [by destruct not; inner|]. destruct not; cbn [notWords app]; repeat (apply ends_cons; [done..|]);
      (apply ends_paren; [|done]); intros; by apply ends_list.
  - apply ends_call; [done|by apply callNameOk_word|]. apply ends_paren; [|done]. intros; by apply ends_list.
  - match goal with H : (if _ then _ else _) = true |- _ => pose proof (args_written args distinct H) as Hw end.
    apply ends_call; [done|by apply callNameOk_word|]. rewrite app_assoc. apply ends_paren; [|done]. intros. rewrite ends_app.
    destruct distinct; [|by apply ends_list]. cbn [andb negb] in *. tests. rewrite ends_list by done. rewrite andb_true_r.
    apply ends_cons; [done..| |done]. cbn [render]. rewrite render_list; [done|by destruct args|by apply Forall_true, render_words|done].
  - apply ends_call; [done..|]. rewrite ends_app. apply andb_true_iff. split; [inner|]. apply ends_cons; [done..|].
    apply ends_cons; [done|by apply castName_word|done|]. by apply ends_one.
  - rewrite ends_app. apply andb_true_iff. split; [by destruct not; inner|]. destruct not; cbn [notWords app]; repeat (apply ends_cons; [done..|]);
      (apply ends_keyword; [done..|]); rewrite ends_app; (apply andb_true_iff; split; [inner|]);
      rewrite <- (app_nil_r (words sp hi)); (apply ends_keyword; [done..|]); rewrite app_nil_r; inner.
  - rewrite ends_app. apply andb_true_iff. split; [inner; by case_bool_decide|].
    apply ends_cons; [done|by case_bool_decide|by case_bool_decide|]. apply ends_one; [done|by apply string_word|done..].
Qed.
(** ** The words are a sentence for the tree *)

Context (ParseFloat : text → option Z).
Abbreviation derives := (derives upperBeyond ParseFloat).

Definition kinds (ps : list (text * word)) : list kind := (λ p, tokenOf upperBeyond (snd p)) <$> ps.

Lemma kinds_app a b : kinds (a ++ b) = kinds a ++ kinds b.
Proof. apply fmap_app. Qed.

Lemma kinds_cons g w ps : kinds ((g, w) :: ps) = tokenOf upperBeyond w :: kinds ps.
Proof. done. Qed.

Lemma derives_lift k lv lv' e ts : derives k lv e ts → (rank lv ≤ rank lv')%nat → derives k lv' e ts.
Proof.
  intros Hd Hr. remember (rank lv' - rank lv)%nat as n eqn:En. revert lv Hd Hr En. induction n as [|n IH]; intros lv Hd Hr En.
  - assert (rank lv = rank lv') as E by lia. by destruct lv, lv'.
  - destruct lv; [apply (IH LPrim)|apply (IH LMul)|apply (IH LAdd)|apply (IH LCmp)|apply (IH LNot)|apply (IH LAnd)|apply (IH LOr)|destruct lv'; cbn in *; lia];
      cbn [rank] in *; try lia; by constructor.
Qed.

Definition derived (e : Expression) : Prop := ∀ lv, formatLevel e = Some lv → ∀ k g, (nesting e ≤ k)%nat → derives k lv e (kinds (words g e)).

Lemma derived_fits e lv k g : derived e → fits lv (formatLevel e) = true → (nesting e ≤ k)%nat → derives k lv e (kinds (words g e)).
Proof. intros He (l & El & Hr)%fits_Some Hk. eapply derives_lift; [by apply He|done]. Qed.

Lemma list_max_cons (n : nat) l k : (list_max (n :: l) ≤ k)%nat ↔ (n ≤ k)%nat ∧ (list_max l ≤ k)%nat.
Proof. change (list_max (n :: l)) with (Nat.max n (list_max l)). lia. Qed.

Lemma derived_list k g l : l ≠ [] → Forall derived l → forallb (λ e, fits LOr (formatLevel e)) l = true → (list_max (nesting <$> l) ≤ k)%nat →
  derivesList upperBeyond ParseFloat k l (kinds (listWords words g l)).
Proof.
  intros Hne Hl. revert g Hne. induction Hl as [|e l He Hl IH]; intros g Hne Hf Hk; [done|]. cbn [forallb] in Hf. tests.
  rewrite fmap_cons, list_max_cons in Hk. destruct Hk as [Hk1 Hk]. cbn [listWords]. rewrite kinds_app. destruct l as [|e' l].
  - rewrite app_nil_r. apply d_single. by apply derived_fits.
  - cbn [flat_map]. apply (d_comma _ _ k e _ (rs ",") (e' :: l)); [by apply derived_fits|].
    change (derivesList upperBeyond ParseFloat k (e' :: l) (kinds (listWords words sp (e' :: l)))). by apply IH.
Qed.

(** The types of the keywords that are written. *)
Ltac keywordTypes :=
  repeat match goal with
  | |- context [LookupIdent upperBeyond (rs ?s)] =>
      let t := eval vm_compute in (LookupIdent upperBeyond (rs s)) in
      replace (LookupIdent upperBeyond (rs s)) with t by (by vm_compute)
  end.

Ltac sentence := repeat (rewrite kinds_app || rewrite kinds_cons); cbn [tokenOf]; keywordTypes; change (kinds []) with (@nil kind).

Lemma derived_value v k g : valueOk v = true → derives k LPrim (EValue v) (kinds [(g, valueWord v)]).
Proof.
  intros Hv. sentence. apply d_value. destruct v as [z|f|t|b|]; try done; cbn [valueWord tokenOf]; keywordTypes; try constructor.
  - cbn [valueOk] in Hv. unfold int64 in Hv. tests.
    change (sign (z <? 0) ++ ofBytes (digits 19 (Z.abs z))) with (source (intWord z)). rewrite intText_source by (unfold int64; zbool; done).
    unfold Atoi, intText, asciiBytes, ofBytes. rewrite <- list_fmap_compose. erewrite list_fmap_ext; [rewrite list_fmap_id; apply ParseInt_FormatInt; lia|].
    intros i b _. cbn. apply byte.of_Z_unsigned.
  - destruct b; keywordTypes; constructor.
Qed.

Lemma derived_param i k g : 0 <= i → int64 i = true → derives k LPrim (EParam i) (kinds [(g, WParam (ofBytes (digits 19 i)))]).
Proof.
  intros H0 Hi. sentence. apply d_param. unfold int64 in Hi. tests. unfold Atoi, asciiBytes, ofBytes. rewrite <- list_fmap_compose.
  erewrite list_fmap_ext; [rewrite list_fmap_id|intros j b _; cbn; apply byte.of_Z_unsigned].
  replace (digits 19 i) with (FormatInt i) by (unfold FormatInt; by rewrite (proj2 (Z.ltb_ge i 0))). apply ParseInt_FormatInt. lia.
Qed.

Lemma derived_column name table k g lv : formatLevel (EColumnRef name table) = Some lv → derives k lv (EColumnRef name table) (kinds (words g (EColumnRef name table))).
Proof.
  intros Hl. pose proof (star_unwritten _ _ Hl) as Hs. cbn [words]. rewrite Hs. cbn [FormatSpec.formatLevel] in Hl. unfold nameOk in Hl.
  case_bool_decide; tests; sentence; repeat match goal with H : tok_eqb _ _ = true |- _ => apply tok_eqb_eq in H; rewrite ?H end.
  - by apply d_column.
  - by apply d_qualified.
Qed.

Lemma derived_call name args distinct ts k : callNameOk letterBeyond upperBeyond name = true → derivesArgs upperBeyond ParseFloat k distinct args ts →
  derives (S k) LPost (if isAggregateName name then EAggregate name args distinct else EFunctionCall name args)
    ((LookupIdent upperBeyond name, name) :: (TOKEN_LPAREN, rs "(") :: ts ++ [(TOKEN_RPAREN, rs ")")]).
Proof.
  intros Hn Hargs. unfold callNameOk in Hn. tests. match goal with H : ToUpper _ name = name |- _ => rename H into Hup end.
  pose proof (d_call upperBeyond ParseFloat k (LookupIdent upperBeyond name) name args ts (rs "(") (rs ")") distinct) as Hd.
  unfold callOf in Hd. rewrite Hup in Hd. by apply Hd.
Qed.

Lemma castName_type ty : existsb (λ w, bool_decide (ty = rs w)) castNames = true → castType [tokenOf upperBeyond (WName ty)] ty.
Proof.
  intros (w & Hin & ->%bool_decide_eq_true)%existsb_exists. cbn [tokenOf]. cbn in Hin. destruct_or! Hin; subst; try done; keywordTypes; by constructor.
Qed.
Lemma kinds_operator op t : operatorOf op = Some t → kinds (opWords op) = [(t, op)] ∧ In t operators.
Proof. intros E. pose proof (operator_symbol op t E) as [Es Hin]. split; [|done]. unfold opWords. rewrite E. sentence. by rewrite Es. Qed.

Lemma derived_binary l op r lv k g : derived l → derived r → formatLevel (EBinary l op r) = Some lv → (nesting (EBinary l op r) ≤ k)%nat →
  derives k lv (EBinary l op r) (kinds (words g (EBinary l op r))).
Proof.
  intros Hl Hr Hlv Hk. cbn [FormatSpec.formatLevel nesting words] in *. rewrite !kinds_app. destruct (operatorOf op) as [t|] eqn:E.
  - apply kinds_operator in E as [-> Hin]. cbn [app]. destruct (existsb (tok_eqb t) multiplicative) eqn:Em; [|destruct (existsb (tok_eqb t) additive) eqn:Ea]; tests.
    + apply d_times; [done|apply derived_fits; done || lia..].
    + apply d_plus; [done|apply derived_fits; done || lia..].
    + apply d_compare; [|apply derived_fits; done || lia..]. cbn in Hin. destruct_or! Hin; subst; done.
  - destruct (bool_decide (op = rs "LIKE")) eqn:E1; [|destruct (bool_decide (op = rs "IS") || bool_decide (op = rs "IS NOT")) eqn:E2; [|done]]; tests.
    + unfold opWords. rewrite E, bool_decide_false by done. sentence. apply d_like; apply derived_fits; done || lia.
    + destruct r as [v| | | | | | | | | | | | | | | | | | |]; try done. destruct v; try done. apply orb_true_iff in E2 as [E2|E2]; tests; unfold opWords; rewrite E.
      * rewrite bool_decide_false by done. sentence. cbn [words valueWord]. sentence. apply d_is_null, derived_fits; done || lia.
      * rewrite bool_decide_true by done. sentence. cbn [words valueWord]. sentence. apply d_is_not_null, derived_fits; done || lia.
Qed.

(** Parts in parentheses. *)
Lemma derived_paren e a x b k : derives k LOr e (a ++ x :: b) → derives (S k) LPrim e ((TOKEN_LPAREN, rs "(") :: a ++ x :: b ++ [(TOKEN_RPAREN, rs ")")]).
Proof. intros Hd. apply (d_paren _ _ _ _ _ (rs "(") (rs ")")) in Hd. by rewrite <- app_assoc in Hd. Qed.

Lemma derived_args k g args : Forall derived args → forallb (λ e, fits LOr (formatLevel e)) args = true → (list_max (nesting <$> args) ≤ k)%nat →
  derivesArgs upperBeyond ParseFloat k false args (kinds (listWords words g args)).
Proof. intros. destruct args as [|e args]; [apply d_no_args|]. apply d_args. by apply derived_list. Qed.

Lemma derived_distinct k args distinct : Forall derived args →
  (if negb distinct && match args with [e] => isStar e | _ => false end then true
   else negb (distinct && bool_decide (length args = 0%nat)) && forallb (λ e, fits LOr (formatLevel e)) args) = true → (list_max (nesting <$> args) ≤ k)%nat →
  derivesArgs upperBeyond ParseFloat k distinct args
    (kinds ((if distinct then [([], WName (rs "DISTINCT"))] else []) ++ listWords words (if distinct then sp else []) args)).
Proof.
  intros Hd Hargs Hk. destruct distinct; cbn [negb andb] in Hargs.
  - tests. cbn [app]. sentence. apply d_distinct; [by vm_compute|]. apply derived_list; [by destruct args|done..].
  - cbn [app]. destruct (match args with [e] => isStar e | _ => false end) eqn:Es; [|by apply derived_args].
    destruct args as [|e [|]]; try done. destruct e as [|name table| | | | | | | | | | | | | | | | | |]; try done. pose proof (written_star _ _ Es) as [-> ->].
    cbn [listWords words]. rewrite Es. apply d_star.
Qed.

Lemma words_derived e : derived e.
Proof.
  induction e as [e IH] using Expression_children_ind. intros lv Hl k g Hk.
  destruct e as [v|name table|l op r|l r|l r|e|i|l not r|name args|name args distinct| | | |e ty| |e lo hi not| |l op path| |];
    cbn [children] in IH; try discriminate Hl; rewrite ?Forall_cons in IH; repeat match goal with H : _ ∧ _ |- _ => destruct H end;
    try (by apply derived_column); try (by apply derived_binary);
    cbn [FormatSpec.formatLevel nesting words] in *; tests.
  - by apply derived_value.
  - sentence. destruct k as [|k]; [lia|]. apply derived_paren, d_lift_or, d_and; [apply d_lift_and|]; apply derived_fits; done || lia.
  - sentence. destruct k as [|k]; [lia|]. apply derived_paren, d_or; [apply d_lift_or|]; apply d_lift_and; apply derived_fits; done || lia.
  - sentence. apply d_not. by apply derived_fits.
  - apply derived_param; [by apply Z.leb_le|done].
  - destruct not; sentence; cbn [notWords]; sentence; [apply d_not_in|apply d_in]; try (apply derived_fits; done || lia); apply derived_list; try done; try lia;
      by destruct r.
  - destruct k as [|k]; [lia|]. sentence. match goal with H : isAggregateName _ = false |- _ => pose proof (derived_call name args false) as Hc; rewrite H in Hc end.
    apply Hc; [done|]. apply derived_args; done || lia.
  - destruct k as [|k]; [lia|]. rewrite !kinds_cons, app_assoc, kinds_app. sentence.
    match goal with H : isAggregateName _ = true |- _ => pose proof (derived_call name args distinct) as Hc; rewrite H in Hc end.
    apply Hc; [done|]. rewrite <- kinds_app. apply derived_distinct; done || lia.
  - sentence. refine (d_cast _ _ k e _ ty [_] _ _ _ _ _ _); [|by apply castName_type]. by apply derived_fits.
  - destruct not; sentence; cbn [notWords]; sentence; [apply d_not_between|apply d_between]; apply derived_fits; done || lia.
  - sentence. match goal with H : _ || _ = true |- _ => apply orb_true_iff in H as [H|H]; tests end; case_bool_decide; try done;
      (apply d_path; [done|]); by apply derived_fits.
Qed.
(** ** Reading back *)

Lemma tokensOf_kinds s i ps : kindOf <$> tokensOf upperBeyond s i ps = kinds ps.
Proof. revert i. induction ps as [|[ws w] ps IH]; intros i; [done|]. cbn [tokensOf]. rewrite fmap_cons, IH, kinds_cons. unfold kindOf. cbn. by destruct (tokenOf upperBeyond w). Qed.

Lemma words_not_blank e : written e → (0 < length (kinds (words [] e)))%nat → blank (FormatExpression e) = false.
Proof.
  intros Hw Hk. pose proof (words_apart e Hw [] [] eq_refl eq_refl) as He. pose proof (render_words e Hw [] []) as Er. rewrite app_nil_r in Er.
  cbn [app] in Er. rewrite <- Er. destruct (words [] e) as [|[g w] ps]; [by cbn in Hk; lia|]. cbn [ends] in He. tests. cbn [render].
  destruct (word_starts letterBeyond w (render ps [])) as [Hs Hn]; [done|]. unfold blank. rewrite forallb_app. apply andb_false_iff. right.
  destruct (source w ++ render ps []) as [|r t] eqn:E; [apply (f_equal length) in E; rewrite length_app in E; cbn in E; lia|].
  cbn [forallb]. cbn in Hs. by rewrite Hs.
Qed.

End Texts.

Definition col (s : string) : Expression := EColumnRef (rs s) [].
Definition num (z : Z) : Expression := EValue (VInt z).


(** ** Trees that are not written faithfully *)

Definition reparse (s : text) : option (outcome parse_error Expression) := ParseExpression (λ _, false) id (λ _, None) s.
Definition format (e : Expression) : text := FormatExpression id (λ _, rs "2") e.

(** The product of a sum is written as a sum with a product. *)
Example sum_times : let e := EBinary (EBinary (col "a") (rs "+") (col "b")) (rs "*") (num 2) in
  reparse (rs "(a + b) * 2") = Some (Ok e) ∧ format e = rs "a + b * 2" ∧
  reparse (format e) = Some (Ok (EBinary (col "a") (rs "+") (EBinary (col "b") (rs "*") (num 2)))).
Proof. split_and!; vm_compute; reflexivity. Qed.

(** The difference of a difference, too. *)
Example minus_minus : let e := EBinary (col "a") (rs "-") (EBinary (col "b") (rs "-") (num 2)) in
  reparse (rs "a - (b - 2)") = Some (Ok e) ∧
  reparse (format e) = Some (Ok (EBinary (EBinary (col "a") (rs "-") (col "b")) (rs "-") (num 2))).
Proof. split_and!; vm_compute; reflexivity. Qed.

(** A quote ends the text of a string early. *)
Example quote_unescaped : let e := EValue (VString (rs "a' OR 'b")) in
  reparse (rs "'a\' OR \'b'") = Some (Ok e) ∧ format e = rs "'a' OR 'b'" ∧
  reparse (format e) = Some (Ok (EOr (EValue (VString (rs "a"))) (EValue (VString (rs "b"))))).
Proof. split_and!; vm_compute; reflexivity. Qed.

(** The text of a subquery is not the subquery. *)
Example subquery_lost : ∃ q, reparse (rs "a IN (SELECT b FROM t)") = Some (Ok (EIn (col "a") false [ESubquery q])) ∧
  format (EIn (col "a") false [ESubquery q]) = rs "a IN ((SELECT))".
Proof. eexists. split; [vm_compute; reflexivity|]. vm_compute. reflexivity. Qed.
