(* ===== verification/Statements.v ===== *)
(** * The other statements

    The statements of [core/parser] besides SELECT: their trees ([ast.go]), the
    changes of rows ([parse_dml.go], [parse_copy.go]), the definitions
    ([parse_ddl*.go]), WITH and savepoints ([parse_select.go]), the audit log and
    KILL ([parse_misc.go]), and [parse], from a text to one statement ([parser.go]). *)

From S2P Require Import Prelude Bytes Strconv Lexer Parser.
From Stdlib Require Import Ascii.

(** ** Trees *)

Record ColumnDef : Type := mkColumnDef {
  cdName : text;
  cdDataType : text;
  cdVarcharLen : Z;
  cdEnumValues : list text;
  cdDefault : option Expression;
  cdComputed : option Expression;
  cdNotNull : bool;
  cdPrimaryKey : bool;
  cdUnique : bool;
  cdAutoIncrement : bool;
  cdEncrypted : bool;
  cdFullText : bool }.

(** A bound of [None] is MAXVALUE. *)
Record PartitionDef : Type := mkPartitionDef { pdName : text; pdBound : option Expression }.
Record PartitionSpec : Type := mkPartitionSpec { psType : text; psColumns : list text; psPartitions : list PartitionDef; psNumParts : Z }.

Abbreviation SelectColumns := (list (Expression * text)).
Abbreviation Assignment := (text * Expression)%type.

Record OnConflictClause : Type := mkOnConflict { ocColumns : list text; ocAction : text; ocAssignments : list Assignment }.

Record MergeWhenClause : Type := mkMergeWhen {
  mwAction : text; mwAssignments : list Assignment; mwColumns : list text; mwValues : list (list Expression); mwSelectQuery : option Statement }.

Record CopyOptions : Type := mkCopyOptions { coFormat : text; coHeader : bool; coDelimiter : text }.

Inductive AlterTableAction : Type :=
  | AlterAddColumn (column : ColumnDef)
  | AlterDropColumn (columnName : text)
  | AlterRenameColumn (oldName newName : text)
  | AlterRenameTable (newName : text)
  | AlterAddConstraint (name type_ : text) (columns : list text) (checkExpr refTable : text) (refCols : list text) (onDeleteCascade : bool).

(** Returning is [None] without the clause, and [Some []] for [RETURNING *]. *)
#[warnings="-register-all"]
Inductive Stmt : Type :=
  | StQuery (s : Statement)
  | StCreateDatabase (databaseName : text) (ifNotExists encrypted : bool) (encryptionKey : text)
  | StDropDatabase (databaseName : text) (ifExists : bool)
  | StUseDatabase (databaseName : text)
  | StShowDatabases
  | StShowTables (databaseName : text)
  | StAnalyze (tableName : text)
  | StSetVariable (variableName value : text)
  | StShowEncryptionStatus
  | StDescribeTable (tableName databaseName : text)
  | StCreateTable (tableName : text) (columns : list ColumnDef) (inferSchema ifNotExists encrypted : bool) (partitionBy : option PartitionSpec)
      (fullTextColumns : list text)
  | StDropTable (tableName : text) (ifExists : bool)
  | StCTE (ctes : list (text * list text * Stmt)) (body : Stmt) (recursive : bool)
  | StMerge (targetTable sourceTable : text) (sourceQuery : option Statement) (sourceValues : option (list (list Expression)))
      (sourceColumns : list text) (alias : text) (onCondition : Expression) (whenMatched whenNotMatched : option MergeWhenClause)
      (returning : option SelectColumns)
  | StTruncate (tableName : text)
  | StSavepoint (name : text)
  | StRollbackToSavepoint (name : text)
  | StReleaseSavepoint (name : text)
  | StAlterTable (tableName : text) (action : AlterTableAction)
  | StExplain (inner : SelectStatement) (analyze : bool)
  | StHistory (tableName : text) (key where_ : option Expression)
  | StInsert (tableName : text) (columns : list text) (rows : list (list Expression)) (selectQuery : option Statement)
      (onConflict : option OnConflictClause) (returning : option SelectColumns) (orReplace : bool)
  | StUpdate (tableName : text) (assignments : list Assignment) (where_ : option Expression) (returning : option SelectColumns)
      (fromTable fromAlias : text) (fromSubquery : option SelectStatement)
  | StDelete (tableName : text) (where_ : option Expression) (returning : option SelectColumns)
  | StVacuum (tableName : text) (analyze : bool)
  | StCopy (tableName filename : text) (isFrom : bool) (options : CopyOptions)
  | StCreateIndex (indexName tableName column : text) (columns : list text) (unique : bool) (indexType : text) (isExpression : bool)
      (predicate : option Expression)
  | StDropIndex (indexName : text)
  | StShowIndexes (tableName : text)
  | StCreateView (name : text) (query : SelectStatement) (orReplace : bool)
  | StDropView (name : text)
  | StCreateTrigger (name tableName timing event body : text)
  | StDropTrigger (name : text)
  | StCreateFunction (name : text) (params : list text) (returnType body language : text) (options : option (gmap text text))
  | StDropFunction (name : text)
  | StCreateProcedure (name : text) (params : list text) (body language : text) (options : option (gmap text text))
  | StDropProcedure (name : text)
  | StCallProcedure (name : text) (params : list Expression)
  | StBegin | StCommit | StRollback
  | StPrepare (name : text) (query : Stmt)
  | StExecute (name : text) (params : list Value)
  | StDeallocate (name : text)
  | StMigration (op name sql : text)
  | StCreatePolicy (name tableName toUser : text) (using_ : Expression)
  | StEnableRls (tableName : text)
  | StVerifyAuditLog
  | StArchiveAuditLog (path : text) (keepCount : Z)
  | StCreateRole (name password : text)
  | StDropRole (name : text) (ifExists : bool)
  | StGrant (privileges : list text) (on to : text)
  | StRevoke (privileges : list text) (on from : text)
  | StRevokeToken (token : text)
  | StKill (sessionID : Z).

(** [strings.TrimSpace] and [strings.TrimRightFunc(s, unicode.IsSpace)]. *)
Fixpoint trimLeft (s : text) : text := match s with r :: t => if IsSpace r then trimLeft t else s | [] => [] end.
Definition trimRight (s : text) : text := reverse (trimLeft (reverse s)).
Definition TrimSpace (s : text) : text := trimRight (trimLeft s).

(** [strings.Split(s, ",")]. *)
Fixpoint splitCommas (s : text) : list text :=
  match s with
  | [] => [[]]
  | r :: s => if r =? rune ","%char then [] :: splitCommas s else match splitCommas s with w :: ws => (r :: w) :: ws | [] => [[r]] end
  end.

(** The length of the UTF-8 encoding. *)
Definition runeLen (r : Z) : Z := if r <? 0x80 then 1 else if r <? 0x800 then 2 else if r <? 0x10000 then 3 else 4.
Definition byteLen (s : text) : Z := foldr (λ r n, runeLen r + n) 0 s.

Definition maxInputSize : Z := 10 * 1024 * 1024.

(** ** Parts of statements *)

Section Statements.
Context (letterBeyond : Z → bool) (upperBeyond lowerBeyond : Z → Z) (ParseFloat : text → option Z) (FormatFloat : Z → text).
Abbreviation ToUpper := (ToUpper upperBeyond).
Abbreviation upperIs := (upperIs upperBeyond).
Abbreviation parseExpression := (parseExpression upperBeyond ParseFloat).
Abbreviation parseSelect := (parseSelect upperBeyond ParseFloat).
Abbreviation parseSetOperation := (parseSetOperation upperBeyond parseSelect).
Abbreviation parseSelectColumns := (parseSelectColumns upperBeyond parseExpression).
Abbreviation parseValueListUntilRParen := (parseValueListUntilRParen parseExpression).
Abbreviation FormatExpression := (FormatExpression upperBeyond FormatFloat).

(** [strings.ToLower], rune by rune. *)
Definition asciiLower (r : Z) : Z := if (65 <=? r) && (r <=? 90) then r + 32 else r.
Definition ToLower (s : text) : text := (λ r, if r <? 128 then asciiLower r else lowerBeyond r) <$> s.

(** An identifier that is the word [w], in any case. *)
Definition isWord (tok : Token) (w : string) : bool := isType tok TOKEN_IDENT && upperIs (Literal tok) w.

(** The text after a keyword there may be. *)
Definition when (t : TokenType) {A} (m : PM A) : PM (option A) :=
  tok ← current; if isType tok t then advance;; x ← m; mret (Some x) else mret None.

Definition nameAfter (t : TokenType) (what : string) : PM text := name ← when t (consumeIdent what); mret (default [] name).

Definition ifExists : PM bool := e ← when TOKEN_IF (consume TOKEN_EXISTS "EXISTS"); mret (bool_decide (is_Some e)).
Definition ifNotExists : PM bool := e ← when TOKEN_IF (consume TOKEN_NOT "NOT";; consume TOKEN_EXISTS "EXISTS"); mret (bool_decide (is_Some e)).

Definition stringToken (what : string) : PM text :=
  tok ← current; if isType tok TOKEN_STRING_LIT then advance;; mret (Literal tok) else throw (ErrExpected what tok).

Definition inParens {A} (m : PM A) : PM A := consume TOKEN_LPAREN "'('";; x ← m; consume TOKEN_RPAREN "')'";; mret x.

Definition parseColumnList : PM (list text) := commaList (consumeIdent "column name").

(** The list of names in parentheses, if there is one. *)
Definition columnNames : PM (list text) :=
  cols ← when TOKEN_LPAREN (cols ← parseIdentifierListUntilRParen "column name"; consume TOKEN_RPAREN "')'";; mret cols);
  mret (default [] cols).

Definition parseReturning : PM (option SelectColumns) := when TOKEN_RETURNING parseSelectColumns.

Definition parseWhere : PM (option Expression) := when TOKEN_WHERE parseExpression.

Definition valueRow : PM (list Expression) := inParens parseValueListUntilRParen.

(** A SELECT, and what it is. *)
Definition selectOnly (bad : string) : PM SelectStatement :=
  stmt ← parseSelect;
  match stmt with SSelect s => mret s | _ => throw (ErrMessage bad) end.

Definition queryWithSets : PM Statement := stmt ← parseSelect; parseSetOperation stmt.

Definition assignment : PM Assignment :=
  column ← consumeIdent "column name"; consume TOKEN_EQ "'='";; val ← parseExpression; mret (column, val).

(** With a table name before the column. *)
Definition qualifiedAssignment : PM Assignment :=
  column ← consumeIdent "column name";
  tok ← current;
  next ← peek;
  column ← (if isType tok TOKEN_DOT && isType next TOKEN_IDENT then advance;; consumeIdent "column name" else mret column);
  consume TOKEN_EQ "'='";;
  val ← parseExpression;
  mret (column, val).

(** An alias that is a bare identifier. *)
Definition bareAlias : PM text :=
  tok ← current;
  if isType tok TOKEN_IDENT && negb (isReservedKeyword upperBeyond (Literal tok)) then advance;; mret (Literal tok) else mret [].

(** ** Changes of rows *)

Definition parseOnConflict : PM (option OnConflictClause) :=
  when TOKEN_ON (
    consume TOKEN_CONFLICT "CONFLICT";;
    columns ← when TOKEN_LPAREN (cols ← parseColumnList; consume TOKEN_RPAREN ")";; mret cols);
    consume TOKEN_DO "DO";;
    let columns := default [] columns in
    tok ← current;
    if isType tok TOKEN_NOTHING then advance;; mret (mkOnConflict columns (rs "NOTHING") [])
    else if isType tok TOKEN_UPDATE then
      advance;; consume TOKEN_SET "SET";;
      assignments ← commaList assignment;
      mret (mkOnConflict columns (rs "UPDATE") assignments)
    else mret (mkOnConflict columns [] [])).

Definition parseInsert : PM Stmt :=
  advance;;
  tok ← current;
  orReplace ← (if isType tok TOKEN_OR then
                 advance;;
                 tok ← current;
                 if isWord tok "REPLACE" then advance;; mret true else throw (ErrMessage "syntax error: expected REPLACE after OR")
               else mret false);
  consume TOKEN_INTO "INTO";;
  tableName ← consumeIdent "table name";
  columns ← columnNames;
  tok ← current;
  '(rows, selectQuery) ← (if isType tok TOKEN_VALUES then advance;; rows ← commaList valueRow; mret (rows, None)
                          else if isType tok TOKEN_SELECT then query ← queryWithSets; mret ([], Some query)
                          else throw (ErrMessage "syntax error: INSERT requires VALUES or SELECT after column list"));
  onConflict ← parseOnConflict;
  returning ← parseReturning;
  mret (StInsert tableName columns rows selectQuery onConflict returning orReplace).

(** FROM of an UPDATE: a table or a subquery, and its alias. *)
Definition updateFrom : PM (text * text * option SelectStatement) :=
  from ← when TOKEN_FROM (
    tok ← current;
    if isType tok TOKEN_LPAREN then
      advance;;
      sub ← selectOnly "FROM subquery: expected SELECT statement";
      consume TOKEN_RPAREN ")";;
      tok ← current;
      alias ← (if isType tok TOKEN_AS then advance;; consumeIdent "subquery alias" else bareAlias);
      mret ([], alias, Some sub)
    else
      fromTable ← consumeIdent "table name";
      alias ← bareAlias;
      mret (fromTable, alias, None));
  mret (default ([], [], None) from).

Definition parseUpdate : PM Stmt :=
  advance;;
  tableName ← consumeIdent "table name";
  consume TOKEN_SET "SET";;
  assignments ← commaList qualifiedAssignment;
  '(fromTable, fromAlias, fromSubquery) ← updateFrom;
  where_ ← parseWhere;
  returning ← parseReturning;
  mret (StUpdate tableName assignments where_ returning fromTable fromAlias fromSubquery).

Definition parseDelete : PM Stmt :=
  advance;; consume TOKEN_FROM "FROM";;
  tableName ← consumeIdent "table name";
  where_ ← parseWhere;
  returning ← parseReturning;
  mret (StDelete tableName where_ returning).

Definition mergeSource : PM (text * option Statement * option (list (list Expression))) :=
  tok ← current;
  if isType tok TOKEN_LPAREN then
    advance;;
    tok ← current;
    if isType tok TOKEN_VALUES then
      advance;;
      values ← commaList valueRow;
      consume TOKEN_RPAREN "')'";;
      mret ([], None, Some values)
    else query ← queryWithSets; consume TOKEN_RPAREN "')'";; mret ([], Some query, None)
  else sourceTable ← consumeIdent "source table"; mret (sourceTable, None, None).

Definition mergeAlias (values : bool) : PM text :=
  tok ← current;
  next ← peek;
  if isType tok TOKEN_AS then advance;; consumeIdent "alias"
  else if isType tok TOKEN_IDENT && values && negb (isReservedKeyword upperBeyond (Literal tok)) && negb (isType next TOKEN_ON)
  then advance;; mret (Literal tok) else mret [].

(** After WHEN NOT MATCHED THEN INSERT. *)
Definition mergeInsert : PM MergeWhenClause :=
  columns ← columnNames;
  tok ← current;
  if isType tok TOKEN_VALUES then advance;; vals ← valueRow; mret (mkMergeWhen (rs "INSERT") [] columns [vals] None)
  else if isType tok TOKEN_SELECT then query ← queryWithSets; mret (mkMergeWhen (rs "INSERT") [] columns [] (Some query))
  else throw (ErrMessage "syntax error: MERGE INSERT requires VALUES or SELECT after column list").

(** The WHEN clauses; the last one of a kind counts. *)
Fixpoint mergeWhenLoop (n : nat) (matched notMatched : option MergeWhenClause) : PM (option MergeWhenClause * option MergeWhenClause) :=
  match n with
  | O => throw ErrFuel
  | S n =>
      tok ← current;
      if negb (isType tok TOKEN_WHEN) then mret (matched, notMatched) else
      advance;;
      tok ← current;
      if isType tok TOKEN_NOT then
        advance;; consume TOKEN_MATCHED "MATCHED";; consume TOKEN_THEN "THEN";; consume TOKEN_INSERT "INSERT";;
        clause ← mergeInsert;
        mergeWhenLoop n matched (Some clause)
      else
        consume TOKEN_MATCHED "MATCHED";; consume TOKEN_THEN "THEN";; consume TOKEN_UPDATE "UPDATE";; consume TOKEN_SET "SET";;
        assignments ← commaList qualifiedAssignment;
        mergeWhenLoop n (Some (mkMergeWhen (rs "UPDATE") assignments [] [] None)) notMatched
  end.

Definition parseMerge : PM Stmt :=
  advance;; consume TOKEN_INTO "INTO";;
  targetTable ← consumeIdent "target table";
  consume TOKEN_USING "USING";;
  '(sourceTable, sourceQuery, sourceValues) ← mergeSource;
  let values := bool_decide (is_Some sourceValues) in
  alias ← mergeAlias values;
  tok ← current;
  sourceColumns ← (if values && negb (bool_decide (alias = [])) && isType tok TOKEN_LPAREN then columnNames else mret []);
  consume TOKEN_ON "ON";;
  onCondition ← parseExpression;
  n ← loopSteps;
  '(whenMatched, whenNotMatched) ← mergeWhenLoop n None None;
  returning ← parseReturning;
  mret (StMerge targetTable sourceTable sourceQuery sourceValues sourceColumns alias onCondition whenMatched whenNotMatched returning).

(** ** COPY *)

Definition validateDelimiter (delim : text) : PM unit :=
  if byteLen delim =? 0 then throw (ErrMessage "delimiter must not be empty")
  else if 20 <? byteLen delim then throw (ErrMessage "delimiter too long (max 20 characters)")
  else mret tt.

Definition copyFormat : PM text :=
  tok ← current;
  if negb (isOneOf tok [TOKEN_IDENT; TOKEN_STRING_LIT]) then throw (ErrExpected "format name (CSV, JSON)" tok) else
  let val := ToUpper (Literal tok) in
  advance;;
  if bool_decide (val = rs "CSV") || bool_decide (val = rs "JSON") || bool_decide (val = rs "JSONL") then mret val
  else throw (ErrMessage "unsupported format").

Definition copyHeader : PM bool :=
  tok ← current;
  if isType tok TOKEN_TRUE then advance;; mret true
  else if isType tok TOKEN_FALSE then advance;; mret false
  else if isType tok TOKEN_INT_LIT then advance;; mret (negb (bool_decide (Literal tok = rs "0")))
  else if isOneOf tok [TOKEN_RPAREN; TOKEN_COMMA] then mret true
  else throw (ErrExpected "TRUE, FALSE, or integer" tok).

Definition copyDelimiter : PM text :=
  tok ← current;
  if isType tok TOKEN_STRING_LIT then validateDelimiter (Literal tok);; advance;; mret (Literal tok)
  else if isType tok TOKEN_IDENT then
    let delim := if upperIs (Literal tok) "TAB" then [9] else Literal tok in
    validateDelimiter delim;; advance;; mret delim
  else throw (ErrExpected "delimiter string" tok).

Fixpoint copyOptionLoop (n : nat) (opts : CopyOptions) : PM CopyOptions :=
  match n with
  | O => throw ErrFuel
  | S n =>
      tok ← current;
      if isType tok TOKEN_RPAREN then mret opts else
      name ← consumeIdent "option name";
      opts ← (if upperIs name "FORMAT" then val ← copyFormat; mret (mkCopyOptions val (coHeader opts) (coDelimiter opts))
              else if upperIs name "HEADER" then val ← copyHeader; mret (mkCopyOptions (coFormat opts) val (coDelimiter opts))
              else if upperIs name "DELIMITER" then val ← copyDelimiter; mret (mkCopyOptions (coFormat opts) (coHeader opts) val)
              else throw (ErrMessage "unknown COPY option"));
      tok ← current;
      (if isType tok TOKEN_COMMA then advance else mret tt);;
      copyOptionLoop n opts
  end.

Definition parseCopyOptions : PM CopyOptions := n ← loopSteps; copyOptionLoop n (mkCopyOptions [] false []).

Definition copyFile : PM text :=
  tok ← current;
  if isType tok TOKEN_STRING_LIT then advance;; mret (Literal tok)
  else if isType tok TOKEN_IDENT then
    if upperIs (Literal tok) "STDIN" || upperIs (Literal tok) "STDOUT" then advance;; mret (ToUpper (Literal tok))
    else throw (ErrSyntax tok "expected filename string or STDIN/STDOUT")
  else throw (ErrExpected "filename or STDIN/STDOUT" tok).

Definition orElse (t d : text) : text := if bool_decide (t = []) then d else t.

Definition parseCopy : PM Stmt :=
  advance;;
  tableName ← consumeIdent "table name";
  tok ← current;
  isFrom ← (if isType tok TOKEN_FROM then advance;; mret true
            else if isType tok TOKEN_TO then advance;; mret false
            else throw (ErrExpected "FROM or TO" tok));
  filename ← copyFile;
  opts ← when TOKEN_WITH (inParens parseCopyOptions);
  let opts := default (mkCopyOptions [] false []) opts in
  mret (StCopy tableName filename isFrom (mkCopyOptions (orElse (coFormat opts) (rs "CSV")) (coHeader opts) (orElse (coDelimiter opts) (rs ",")))).

(** ** Short statements *)

(** A statement of one name after its keyword. *)
Definition named (what : string) (mk : text → Stmt) : PM Stmt := advance;; name ← consumeIdent what; mret (mk name).

Definition parseTruncate : PM Stmt :=
  advance;;
  tok ← current;
  (if isType tok TOKEN_TABLE then advance else mret tt);;
  tableName ← dottedName "table name";
  mret (StTruncate tableName).

Definition parseRollbackToSavepoint : PM Stmt :=
  advance;; consume TOKEN_TO "TO";; consume TOKEN_SAVEPOINT "SAVEPOINT";;
  name ← consumeIdent "savepoint name";
  mret (StRollbackToSavepoint name).

Definition parseReleaseSavepoint : PM Stmt :=
  advance;; consume TOKEN_SAVEPOINT "SAVEPOINT";; name ← consumeIdent "savepoint name"; mret (StReleaseSavepoint name).

Definition parseCreatePolicy : PM Stmt :=
  advance;; advance;;
  name ← consumeIdent "policy name";
  consume TOKEN_ON "ON";;
  tableName ← consumeIdent "table name";
  consume TOKEN_FOR "FOR";; advance;; consume TOKEN_TO "TO";;
  user ← consumeIdent "user name";
  consume TOKEN_USING "USING";;
  using_ ← inParens parseExpression;
  mret (StCreatePolicy name tableName user using_).

Definition parseEnableRls : PM Stmt :=
  advance;; consume TOKEN_RLS "RLS";; consume TOKEN_ON "ON";; tableName ← consumeIdent "table name"; mret (StEnableRls tableName).

Definition parseSet : PM Stmt :=
  tok ← current;
  if negb (isType tok TOKEN_SET) then throw (ErrMessage "expected SET") else
  advance;;
  tok ← current;
  if negb (isType tok TOKEN_IDENT) then throw (ErrMessage "expected variable name after SET") else
  let varName := Literal tok in
  advance;;
  tok ← current;
  if negb (isType tok TOKEN_EQ) then throw (ErrMessage "expected = after variable name") else
  advance;;
  tok ← current;
  if isOneOf tok [TOKEN_IDENT; TOKEN_STRING_LIT; TOKEN_INT_LIT; TOKEN_FLOAT_LIT] then advance;; mret (StSetVariable varName (Literal tok))
  else throw (ErrMessage "expected value for variable").

Definition parseMigration (op : string) : PM Stmt :=
  advance;;
  tok ← current;
  (if isType tok TOKEN_MIGRATION then advance else mret tt);;
  name ← consumeIdent "migration name";
  tok ← current;
  sql ← (if String.eqb op "CREATE" && isType tok TOKEN_LPAREN then
           advance;; sql ← stringToken "migration SQL string"; consume TOKEN_RPAREN "')'";; mret sql
         else mret []);
  mret (StMigration (rs op) name sql).

(** [ANALYZE] after a keyword. *)
Definition analyzeFlag : PM bool := tok ← current; if isType tok TOKEN_ANALYZE then advance;; mret true else mret false.

Definition parseExplain : PM Stmt :=
  advance;;
  analyze ← analyzeFlag;
  inner ← selectOnly "expected SELECT statement after EXPLAIN";
  mret (StExplain inner analyze).

Definition parseVacuum : PM Stmt :=
  advance;;
  analyze ← analyzeFlag;
  tok ← current;
  tableName ← (if isType tok TOKEN_IDENT then consumeIdent "table name" else mret []);
  mret (StVacuum tableName analyze).

Definition parseExecute : PM Stmt :=
  advance;;
  name ← consumeIdent "statement name";
  params ← when TOKEN_LPAREN (
    tok ← current;
    params ← (if isType tok TOKEN_RPAREN then mret [] else commaList (parseLiteralValue ParseFloat));
    consume TOKEN_RPAREN "')'";;
    mret params);
  mret (StExecute name (default [] params)).

(** [parseCall] of [parse_ddl.go]. *)
Definition parseCallStatement : PM Stmt :=
  advance;;
  name ← consumeIdent "procedure name";
  params ← inParens (tok ← current; if isType tok TOKEN_RPAREN then mret [] else commaList parseExpression);
  mret (StCallProcedure name params).

Definition parseHistory : PM Stmt :=
  advance;;
  tableName ← consumeIdent "table name";
  key ← when TOKEN_KEY parseExpression;
  where_ ← parseWhere;
  match key, where_ with
  | None, None => throw (ErrMessage "syntax error: HISTORY requires KEY or WHERE clause")
  | _, _ => mret (StHistory tableName key where_)
  end.

Definition parseShow : PM Stmt :=
  advance;;
  tok ← current;
  if isType tok TOKEN_DATABASES then advance;; mret StShowDatabases
  else if isType tok TOKEN_ENCRYPTION then
    advance;;
    tok ← current;
    if isWord tok "STATUS" then advance;; mret StShowEncryptionStatus else throw (ErrExpected "STATUS" tok)
  else if isType tok TOKEN_TABLES then advance;; dbName ← nameAfter TOKEN_FROM "database name"; mret (StShowTables dbName)
  else if isType tok TOKEN_INDEXES then
    advance;;
    tok ← current;
    if isOneOf tok [TOKEN_ON; TOKEN_FROM] then advance;; tableName ← consumeIdent "table name"; mret (StShowIndexes tableName)
    else throw (ErrExpected "ON or FROM" tok)
  else throw (ErrExpected "DATABASES, TABLES, INDEXES or ENCRYPTION" tok).

Definition parseDescribe : PM Stmt :=
  advance;;
  tableName ← consumeIdent "table name";
  dbName ← nameAfter TOKEN_FROM "database name";
  mret (StDescribeTable tableName dbName).

Definition parseAnalyze : PM Stmt :=
  advance;;
  tok ← current;
  if isType tok TOKEN_IDENT then advance;; mret (StAnalyze (Literal tok)) else mret (StAnalyze []).

(** A word that is compared as it is written. *)
Definition exactWord (w : string) : PM unit :=
  tok ← current;
  if isType tok TOKEN_IDENT && bool_decide (Literal tok = rs w) then advance else throw (ErrExpected w tok).

Definition parseVerifyAuditLog : PM Stmt := advance;; exactWord "AUDIT";; exactWord "LOG";; mret StVerifyAuditLog.

Definition parseArchiveAuditLog : PM Stmt :=
  advance;; exactWord "AUDIT";; exactWord "LOG";;
  path ← when TOKEN_TO (stringToken "string path");
  tok ← current;
  keep ← (if isType tok TOKEN_IDENT && bool_decide (Literal tok = rs "KEEP") then
            advance;;
            tok ← current;
            if negb (isType tok TOKEN_INT_LIT) then throw (ErrExpected "integer count" tok)
            else match Atoi (Literal tok) with Some val => advance;; mret val | None => throw (ErrLiteral tok) end
          else mret 0);
  mret (StArchiveAuditLog (default [] path) keep).

Definition parseKill : PM Stmt :=
  advance;;
  tok ← current;
  if negb (isType tok TOKEN_IDENT && EqualFold (Literal tok) "QUERY") then throw (ErrExpected "QUERY" tok) else
  advance;;
  tok ← current;
  if negb (isType tok TOKEN_INT_LIT) then throw (ErrExpected "session ID (integer)" tok)
  else match ParseUint (Literal tok) with Some val => advance;; mret (StKill val) | None => throw (ErrMessage "invalid session ID") end.

(** *** GRANT and REVOKE *)

Definition privilegeNames : list string := ["SELECT"; "INSERT"; "UPDATE"; "DELETE"; "CREATE"; "ALL"].

Fixpoint privilegeLoop (n : nat) (privileges : list text) : PM (list text) :=
  match n with
  | O => throw ErrFuel
  | S n =>
      tok ← current;
      if existsb (upperIs (Literal tok)) privilegeNames then
        advance;;
        let privileges := privileges ++ [ToUpper (Literal tok)] in
        tok ← current;
        if isType tok TOKEN_COMMA then advance;; privilegeLoop n privileges else mret privileges
      else match privileges with
        | [] => throw (ErrExpected "privilege name (SELECT, INSERT, UPDATE, DELETE, CREATE, ALL)" tok)
        | _ => mret privileges
        end
  end.

Definition parsePrivilegeList : PM (list text) := n ← loopSteps; privilegeLoop n [].

Definition parseObjectName : PM text :=
  tok ← current; if isType tok TOKEN_STAR then advance;; mret (rs "*") else consumeIdent "object name".

Definition parseGrant : PM Stmt :=
  advance;;
  privileges ← parsePrivilegeList;
  consume TOKEN_ON "ON";;
  on ← parseObjectName;
  consume TOKEN_TO "TO";;
  to ← consumeIdent "role name";
  mret (StGrant privileges on to).

Definition parseRevoke : PM Stmt :=
  advance;;
  tok ← current;
  if isType tok TOKEN_TOKEN then advance;; token ← stringToken "token string literal"; mret (StRevokeToken token) else
  privileges ← parsePrivilegeList;
  consume TOKEN_ON "ON";;
  on ← parseObjectName;
  consume TOKEN_FROM "FROM";;
  from ← consumeIdent "role name";
  mret (StRevoke privileges on from).

(** ** Definitions *)

Definition parseCreateDatabase : PM Stmt :=
  advance;;
  ifNot ← ifNotExists;
  name ← consumeIdent "database name";
  key ← when TOKEN_ENCRYPTED (when TOKEN_WITH (consume TOKEN_KEY "KEY";; parseExpression));
  mret (StCreateDatabase name ifNot (bool_decide (is_Some key))
    match key with Some (Some (EValue (VString s))) => s | _ => [] end).

Definition parseDropDatabase : PM Stmt :=
  advance;; ifEx ← ifExists; name ← consumeIdent "database name"; mret (StDropDatabase name ifEx).

(** The column an index item names, or the text of its expression. *)
Definition indexItem (expr : Expression) : text * bool :=
  match expr with EColumnRef name _ => (name, false) | _ => (FormatExpression expr, true) end.

Fixpoint indexLoop (n : nat) (columns : list text) (isExpression : bool) : PM (list text * bool) :=
  match n with
  | O => throw ErrFuel
  | S n =>
      expr ← parseExpression;
      let columns := columns ++ [fst (indexItem expr)] in
      let isExpression := isExpression || snd (indexItem expr) in
      tok ← current;
      if isType tok TOKEN_COMMA then advance;; indexLoop n columns isExpression
      else if isType tok TOKEN_RPAREN then mret (columns, isExpression)
      else throw (ErrExpected "',' or ')'" tok)
  end.

Definition parseCreateIndex : PM Stmt :=
  tok ← current;
  unique ← (if isWord tok "UNIQUE" then advance;; mret true else mret false);
  consume TOKEN_INDEX "INDEX";;
  indexName ← consumeIdent "index name";
  consume TOKEN_ON "ON";;
  tableName ← consumeIdent "table name";
  indexType ← when TOKEN_USING (
    typeTok ← current;
    if isOneOf typeTok [TOKEN_IDENT; TOKEN_HASH] then advance;; mret (ToUpper (Literal typeTok))
    else throw (ErrExpected "GIN, BTREE, GIST or HASH" typeTok));
  consume TOKEN_LPAREN "'('";;
  n ← loopSteps;
  '(columns, isExpression) ← indexLoop n [] false;
  advance;;
  predicate ← parseWhere;
  let '(column, columns) := match columns with [c] => (c, []) | _ => ([], columns) end in
  mret (StCreateIndex indexName tableName column columns unique (default [] indexType) isExpression predicate).

(** The literals of the tokens up to one of [ends] or the end, with spaces between them. *)
Fixpoint bodyLoop (n : nat) (ends : TokenType) (body : text) : PM text :=
  match n with
  | O => throw ErrFuel
  | S n =>
      tok ← current;
      if isType tok ends || isType tok TOKEN_EOF then mret body
      else advance;; bodyLoop n ends (body ++ Literal tok ++ rs " ")
  end.

Definition bodyUntil (ends : TokenType) : PM text :=
  n ← loopSteps;
  body ← bodyLoop n ends [];
  tok ← current;
  (if isType tok ends then advance else mret tt);;
  mret (TrimSpace body).

Definition parseCreateTrigger : PM Stmt :=
  advance;;
  triggerName ← consumeIdent "trigger name";
  tok ← current;
  timing ← (if isType tok TOKEN_BEFORE then advance;; mret (rs "BEFORE")
            else if isType tok TOKEN_AFTER then advance;; mret (rs "AFTER") else mret (rs "BEFORE"));
  tok ← current;
  let event := ToUpper (Literal tok) in
  if negb (bool_decide (event = rs "INSERT") || bool_decide (event = rs "UPDATE") || bool_decide (event = rs "DELETE"))
  then throw (ErrExpected "INSERT, UPDATE or DELETE" tok) else
  advance;; consume TOKEN_ON "ON";;
  tableName ← consumeIdent "table name";
  body ← when TOKEN_BEGIN (bodyUntil TOKEN_END);
  mret (StCreateTrigger triggerName tableName timing event (default [] body)).

Definition parseCreateView (orReplace : bool) : PM Stmt :=
  advance;;
  viewName ← consumeIdent "view name";
  consume TOKEN_AS "AS";;
  query ← selectOnly "CREATE VIEW: expected SELECT statement";
  mret (StCreateView viewName query orReplace).

(** *** Functions and procedures *)

(** A parameter, and its type, which is skipped. *)
Definition typedParameter : PM text :=
  param ← consumeIdent "parameter name";
  tok ← current;
  (if isOneOf tok [TOKEN_INT; TOKEN_TEXT; TOKEN_FLOAT_TYPE; TOKEN_BOOL; TOKEN_VARCHAR] then advance else mret tt);;
  mret param.

Definition parameters (item : PM text) : PM (list text) :=
  inParens (tok ← current; if isType tok TOKEN_RPAREN then mret [] else commaList item).

(** [LANGUAGE], and the language after it. *)
Definition languageClause (lang : text) : PM text :=
  tok ← current;
  if isWord tok "LANGUAGE" then advance;; tok ← current; advance;; mret (ToUpper (Literal tok)) else mret lang.

Definition routineBody : PM text :=
  tok ← current;
  if isType tok TOKEN_STRING_LIT then advance;; mret (Literal tok) else consume TOKEN_LPAREN "'('";; bodyUntil TOKEN_RPAREN.

Fixpoint optionLoop (n : nat) (options : gmap text text) : PM (gmap text text) :=
  match n with
  | O => throw ErrFuel
  | S n =>
      tok ← current;
      if isOneOf tok [TOKEN_RPAREN; TOKEN_EOF] then mret options else
      key ← consumeIdent "option key";
      consume TOKEN_EQ "'='";;
      val ← stringToken "option value string";
      tok ← current;
      (if isType tok TOKEN_COMMA then advance else mret tt);;
      optionLoop n (<[ToLower key := val]> options)
  end.

(** The part from LANGUAGE to the options. *)
Definition routineRest : PM (text * text * option (gmap text text)) :=
  lang ← languageClause (rs "SQL");
  consume TOKEN_AS "AS";;
  body ← routineBody;
  lang ← (if bool_decide (lang = rs "SQL") then languageClause lang else mret lang);
  options ← when TOKEN_WITH (consume TOKEN_LPAREN "'('";; n ← loopSteps; options ← optionLoop n ∅; consume TOKEN_RPAREN "')'";; mret options);
  mret (body, lang, options).

Definition parseCreateFunction : PM Stmt :=
  advance;;
  funcName ← consumeIdent "function name";
  params ← parameters typedParameter;
  returnType ← when TOKEN_RETURNS (
    tok ← current;
    (if isWord tok "SETOF" then advance else mret tt);;
    typeTok ← current;
    advance;;
    mret (ToUpper (Literal typeTok)));
  '(body, lang, options) ← routineRest;
  mret (StCreateFunction funcName params (default (rs "TEXT") returnType) body lang options).

Definition parseCreateProcedure : PM Stmt :=
  advance;;
  procName ← consumeIdent "procedure name";
  params ← parameters (consumeIdent "parameter name");
  '(body, lang, options) ← routineRest;
  mret (StCreateProcedure procName params body lang options).

(** An error of the role name after WITH ROLE is dropped. *)
Definition parseCreateRole : PM Stmt :=
  advance;;
  name ← consumeIdent "role name";
  password ← when TOKEN_WITH (
    tok ← current;
    if isWord tok "PASSWORD" then advance;; stringToken "password string"
    else if isWord tok "ROLE" then advance;; _ ← attempt (consumeIdent "role name"); mret []
    else mret []);
  mret (StCreateRole name (default [] password)).

(** *** Columns *)

(** [NOT NULL] and [PRIMARY KEY]. *)
Definition pairOf (t u : TokenType) : PM bool :=
  tok ← current;
  next ← peek;
  if isType tok t && isType next u then advance;; advance;; mret true else mret false.

Definition flagOf (t : TokenType) : PM bool := tok ← current; if isType tok t then advance;; mret true else mret false.
Definition wordFlag (w : string) : PM bool := tok ← current; if isWord tok w then advance;; mret true else mret false.

(** [ON DELETE CASCADE], or the beginning of it. *)
Definition skipCascade : PM unit :=
  tok ← current;
  if isType tok TOKEN_ON then
    advance;;
    tok ← current;
    if isType tok TOKEN_DELETE then
      advance;;
      tok ← current;
      if isType tok TOKEN_IDENT && EqualFold (Literal tok) "CASCADE" then advance else mret tt
    else mret tt
  else mret tt.

(** GENERATED: the computed expression, and whether the column counts up. *)
Definition generatedClause : PM (option Expression * bool) :=
  g ← when TOKEN_GENERATED (
    tok ← current;
    if isType tok TOKEN_ALWAYS then
      advance;; consume TOKEN_AS "AS";;
      tok ← current;
      if isType tok TOKEN_IDENTITY then advance;; mret (None, true)
      else
        expr ← inParens parseExpression;
        tok ← current;
        (if isOneOf tok [TOKEN_STORED; TOKEN_VIRTUAL] then advance else mret tt);;
        mret (Some expr, false)
    else if isType tok TOKEN_BY then
      advance;; consume TOKEN_DEFAULT "DEFAULT";; consume TOKEN_AS "AS";; consume TOKEN_IDENTITY "IDENTITY";; mret (None, true)
    else throw (ErrExpected "ALWAYS or BY" tok));
  mret (default (None, false) g).

(** [strings.TrimPrefix(dataType, "ENUM:")], if it is a prefix. *)
Definition enumOf (dataType : text) : option (list text) :=
  if bool_decide (take 5 dataType = rs "ENUM:") then Some (splitCommas (drop 5 dataType)) else None.

Definition parseColumnDef : PM ColumnDef :=
  colName ← consumeIdent "column name";
  tok ← current;
  if isType tok TOKEN_SERIAL then
    advance;;
    notNull ← pairOf TOKEN_NOT TOKEN_NULL;
    primaryKey ← pairOf TOKEN_PRIMARY TOKEN_KEY;
    mret (mkColumnDef colName (rs "INT") 0 [] None None notNull primaryKey false true false false)
  else
    '(dataType, varcharLen) ← parseColumnType;
    notNull ← pairOf TOKEN_NOT TOKEN_NULL;
    dflt ← when TOKEN_DEFAULT parseExpression;
    '(computed, generated) ← generatedClause;
    auto1 ← flagOf TOKEN_AUTO_INCREMENT;
    primaryKey ← pairOf TOKEN_PRIMARY TOKEN_KEY;
    auto2 ← flagOf TOKEN_AUTO_INCREMENT;
    unique ← wordFlag "UNIQUE";
    fullText ← wordFlag "FULLTEXT";
    notNull2 ← pairOf TOKEN_NOT TOKEN_NULL;
    encrypted ← flagOf TOKEN_ENCRYPTED;
    _ ← when TOKEN_REFERENCES (
          consumeIdent "referenced table";; consume TOKEN_LPAREN "'('";; consumeIdent "referenced column";; consume TOKEN_RPAREN "')'";; skipCascade);
    mret (mkColumnDef colName (if bool_decide (is_Some (enumOf dataType)) then rs "ENUM" else dataType) varcharLen (default [] (enumOf dataType))
            dflt computed (notNull || notNull2) primaryKey unique (generated || auto1 || auto2) encrypted fullText).

(** *** CREATE TABLE *)

(** What a constraint of the table adds: nothing, columns of FULLTEXT, or the flag on the last column. *)
Inductive constraint : Type := CIgnored | CFullText (cols : list text) | CLastFullText.

(** A list of names in parentheses that is read and dropped. *)
Definition skipColumns : PM unit := inParens parseColumnList;; mret tt.

(** A constraint at the current token, if there is one. *)
Definition tableConstraint (noColumns : bool) : PM (option constraint) :=
  tok ← current;
  next ← peek;
  if isType tok TOKEN_PRIMARY then advance;; consume TOKEN_KEY "KEY";; skipColumns;; mret (Some CIgnored)
  else if isWord tok "UNIQUE" && isType next TOKEN_LPAREN then advance;; skipColumns;; mret (Some CIgnored)
  else if isWord tok "FOREIGN" && isType next TOKEN_KEY then
    advance;; advance;; skipColumns;; consume TOKEN_REFERENCES "REFERENCES";; consumeIdent "referenced table";; skipColumns;; skipCascade;;
    mret (Some CIgnored)
  else if isWord tok "CHECK" && isType next TOKEN_LPAREN then advance;; inParens parseExpression;; mret (Some CIgnored)
  else if isWord tok "FULLTEXT" then
    if isType next TOKEN_LPAREN then
      advance;; cols ← inParens (parseIdentifierListUntilRParen "FULLTEXT column name"); mret (Some (CFullText cols))
    else if noColumns then throw (ErrSyntax tok "FULLTEXT cannot appear as first column constraint")
    else advance;; mret (Some CLastFullText)
  else mret None.

Definition setFullText (c : ColumnDef) : ColumnDef :=
  mkColumnDef (cdName c) (cdDataType c) (cdVarcharLen c) (cdEnumValues c) (cdDefault c) (cdComputed c) (cdNotNull c) (cdPrimaryKey c) (cdUnique c)
    (cdAutoIncrement c) (cdEncrypted c) true.

(** [columns[len(columns)-1].FullText = true]. *)
Definition markLast (columns : list ColumnDef) : list ColumnDef := alter setFullText (pred (length columns)) columns.

Definition addConstraint (c : constraint) (columns : list ColumnDef) (fullText : list text) : list ColumnDef * list text :=
  match c with CIgnored => (columns, fullText) | CFullText cols => (columns, fullText ++ cols) | CLastFullText => (markLast columns, fullText) end.

Fixpoint tableLoop (n : nat) (columns : list ColumnDef) (fullText : list text) : PM (list ColumnDef * list text) :=
  match n with
  | O => throw ErrFuel
  | S n =>
      tok ← current;
      (if isType tok TOKEN_COMMA then advance else mret tt);;
      c ← tableConstraint (bool_decide (length columns = 0%nat));
      match c with
      | Some c =>
          let '(columns, fullText) := addConstraint c columns fullText in
          tok ← current;
          if isType tok TOKEN_COMMA then tableLoop n columns fullText
          else if isType tok TOKEN_RPAREN then advance;; mret (columns, fullText)
          else throw (ErrExpected "',' or ')'" tok)
      | None =>
          tok ← current;
          if isType tok TOKEN_RPAREN then advance;; mret (columns, fullText) else
          col ← parseColumnDef;
          tableLoop n (columns ++ [col]) fullText
      end
  end.

Definition parsePartitionDef : PM PartitionDef :=
  consume TOKEN_PARTITION "PARTITION";;
  name ← consumeIdent "partition name";
  consume TOKEN_VALUES "VALUES";; consume TOKEN_LESS "LESS";; consume TOKEN_THAN "THAN";;
  bound ← inParens (tok ← current; if isType tok TOKEN_MAXVALUE then advance;; mret None else val ← parseExpression; mret (Some val));
  mret (mkPartitionDef name bound).

Fixpoint partitionLoop (n : nat) (defs : list PartitionDef) : PM (list PartitionDef) :=
  match n with
  | O => throw ErrFuel
  | S n =>
      tok ← current;
      if isType tok TOKEN_RPAREN then advance;; mret defs else
      def ← parsePartitionDef;
      tok ← current;
      (if isType tok TOKEN_COMMA then advance else mret tt);;
      partitionLoop n (defs ++ [def])
  end.

Definition hashPartitions : PM Z :=
  tok ← current;
  if isType tok TOKEN_PARTITIONS then
    advance;;
    tok ← current;
    if negb (isType tok TOKEN_INT_LIT) then throw (ErrExpected "partition count" tok)
    else match Atoi (Literal tok) with
      | None => throw (ErrMessage "invalid partition count")
      | Some n => if n <=? 0 then throw (ErrMessage "partition count must be positive") else advance;; mret n
      end
  else mret 1.

Definition parsePartitionSpec : PM PartitionSpec :=
  tok ← current;
  if isType tok TOKEN_RANGE then
    advance;;
    cols ← inParens parseColumnList;
    tok ← current;
    next ← peek;
    defs ← (if isType tok TOKEN_LPAREN && isType next TOKEN_PARTITION then advance;; n ← loopSteps; partitionLoop n [] else mret []);
    mret (mkPartitionSpec (rs "RANGE") cols defs 0)
  else if isType tok TOKEN_HASH then
    advance;; cols ← inParens parseColumnList; n ← hashPartitions; mret (mkPartitionSpec (rs "HASH") cols [] n)
  else throw (ErrExpected "RANGE or HASH" tok).

Definition parseCreateTable : PM Stmt :=
  advance;;
  ifNot ← ifNotExists;
  tableName ← consumeIdent "table name";
  tok ← current;
  if isType tok TOKEN_INFER then advance;; consume TOKEN_SCHEMA "SCHEMA";; mret (StCreateTable tableName [] true ifNot false None []) else
  consume TOKEN_LPAREN "'('";;
  n ← loopSteps;
  '(columns, fullText) ← tableLoop n [] [];
  match columns with
  | [] => throw (ErrMessage "syntax error: CREATE TABLE requires at least one column")
  | _ =>
      encrypted ← flagOf TOKEN_ENCRYPTED;
      partitioned ← pairOf TOKEN_PARTITION TOKEN_BY;
      partitionBy ← (if (partitioned : bool) then spec ← parsePartitionSpec; mret (Some spec) else mret None);
      mret (StCreateTable tableName columns false ifNot encrypted partitionBy fullText)
  end.

(** *** CREATE, DROP and ALTER *)

Definition parseCreate : PM Stmt :=
  advance;;
  tok ← current;
  orReplace ← (if isType tok TOKEN_OR then advance;; wordFlag "REPLACE" else mret false);
  tok ← current;
  if isType tok TOKEN_DATABASE then parseCreateDatabase
  else if isType tok TOKEN_TABLE then parseCreateTable
  else if isType tok TOKEN_VIEW then parseCreateView orReplace
  else if isType tok TOKEN_TRIGGER then parseCreateTrigger
  else if isType tok TOKEN_FUNCTION then parseCreateFunction
  else if isType tok TOKEN_PROCEDURE then parseCreateProcedure
  else if isType tok TOKEN_INDEX then parseCreateIndex
  else if isType tok TOKEN_IDENT then
    if upperIs (Literal tok) "ROLE" || upperIs (Literal tok) "USER" then parseCreateRole
    else if upperIs (Literal tok) "UNIQUE" then parseCreateIndex
    else throw (ErrExpected "DATABASE, TABLE, VIEW, INDEX, ROLE or USER" tok)
  else throw (ErrExpected "DATABASE, TABLE, VIEW or INDEX" tok).

Definition parseDrop : PM Stmt :=
  advance;;
  tok ← current;
  if isType tok TOKEN_DATABASE then parseDropDatabase
  else if isType tok TOKEN_TABLE then advance;; ifEx ← ifExists; name ← consumeIdent "table name"; mret (StDropTable name ifEx)
  else if isType tok TOKEN_VIEW then named "view name" StDropView
  else if isType tok TOKEN_TRIGGER then named "trigger name" StDropTrigger
  else if isType tok TOKEN_FUNCTION then named "function name" StDropFunction
  else if isType tok TOKEN_PROCEDURE then named "procedure name" StDropProcedure
  else if isType tok TOKEN_INDEX then named "index name" StDropIndex
  else if isType tok TOKEN_IDENT then
    if upperIs (Literal tok) "ROLE" then advance;; ifEx ← ifExists; name ← consumeIdent "role name"; mret (StDropRole name ifEx)
    else throw (ErrExpected "DATABASE, TABLE, VIEW, INDEX or ROLE" tok)
  else throw (ErrExpected "DATABASE, TABLE, VIEW or INDEX" tok).

(** [ON DELETE CASCADE] of ALTER TABLE, where CASCADE may be any token of that text. *)
Definition cascadeFlag : PM bool :=
  tok ← current;
  if isType tok TOKEN_ON then
    advance;;
    tok ← current;
    if isType tok TOKEN_DELETE then
      advance;;
      tok ← current;
      if EqualFold (Literal tok) "CASCADE" then advance;; mret true else mret false
    else mret false
  else mret false.

(** After ADD CONSTRAINT. *)
Definition alterConstraint : PM AlterTableAction :=
  name ← consumeIdent "constraint name";
  tok ← current;
  if isWord tok "UNIQUE" then advance;; cols ← inParens parseColumnList; mret (AlterAddConstraint name (rs "UNIQUE") cols [] [] [] false)
  else if isWord tok "CHECK" then
    advance;; expr ← inParens parseExpression; mret (AlterAddConstraint name (rs "CHECK") [] (FormatExpression expr) [] [] false)
  else if isWord tok "FOREIGN" then
    advance;; consume TOKEN_KEY "KEY";;
    cols ← inParens parseColumnList;
    consume TOKEN_REFERENCES "REFERENCES";;
    refTable ← consumeIdent "referenced table";
    refCols ← inParens parseColumnList;
    cascade ← cascadeFlag;
    mret (AlterAddConstraint name (rs "FOREIGN_KEY") cols [] refTable refCols cascade)
  else throw (ErrExpected "UNIQUE, CHECK, or FOREIGN KEY" tok).

Definition skipKeyword (t : TokenType) : PM unit := tok ← current; if isType tok t then advance else mret tt.

Definition alterAction : PM AlterTableAction :=
  tok ← current;
  if isType tok TOKEN_ADD then
    advance;; skipKeyword TOKEN_COLUMN;;
    tok ← current;
    if isWord tok "CONSTRAINT" then advance;; alterConstraint else col ← parseColumnDef; mret (AlterAddColumn col)
  else if isType tok TOKEN_DROP then
    advance;; skipKeyword TOKEN_COLUMN;; colName ← consumeIdent "column name"; mret (AlterDropColumn colName)
  else if isType tok TOKEN_RENAME then
    advance;;
    tok ← current;
    if isType tok TOKEN_TO then advance;; newName ← consumeIdent "new table name"; mret (AlterRenameTable newName)
    else
      skipKeyword TOKEN_COLUMN;;
      oldName ← consumeIdent "old column name";
      consume TOKEN_TO "TO";;
      newName ← consumeIdent "new column name";
      mret (AlterRenameColumn oldName newName)
  else throw (ErrExpected "ADD, DROP, or RENAME" tok).

Definition parseAlterTable : PM Stmt :=
  advance;; consume TOKEN_TABLE "TABLE";;
  tableName ← consumeIdent "table name";
  action ← alterAction;
  mret (StAlterTable tableName action).

(** ** Statements inside statements *)

Section Recursion.
Context (parseStatement : PM Stmt).

Definition cteBody (s : Stmt) : bool :=
  match s with StQuery _ | StCTE _ _ _ | StDelete _ _ _ | StInsert _ _ _ _ _ _ _ | StUpdate _ _ _ _ _ _ _ => true | _ => false end.

Definition cteDefinition : PM (text * list text * Stmt) :=
  name ← consumeIdent "CTE name";
  columns ← columnNames;
  consume TOKEN_AS "AS";; consume TOKEN_LPAREN "'('";;
  stmt ← parseStatement;
  if cteBody stmt then consume TOKEN_RPAREN "')'";; mret (name, columns, stmt)
  else throw (ErrMessage "CTE body must be a SELECT, DML with RETURNING, set operation, or WITH statement").

Definition parseCTE : PM Stmt :=
  advance;;
  recursive ← wordFlag "RECURSIVE";
  ctes ← commaList cteDefinition;
  body ← parseStatement;
  mret (StCTE ctes body recursive).

Definition parsePrepare : PM Stmt :=
  advance;;
  name ← consumeIdent "statement name";
  consume TOKEN_AS "AS";;
  query ← parseStatement;
  mret (StPrepare name query).

(** A statement at the current token. *)
Definition statementAt : PM Stmt :=
  tok ← current;
  next ← peek;
  let t := isType tok in
  if t TOKEN_CREATE then
    if isType next TOKEN_MIGRATION then parseMigration "CREATE"
    else if isType next TOKEN_POLICY then parseCreatePolicy
    else parseCreate
  else if t TOKEN_ALTER then parseAlterTable
  else if t TOKEN_DROP then parseDrop
  else if t TOKEN_USE then named "database name" StUseDatabase
  else if t TOKEN_SHOW then parseShow
  else if t TOKEN_DESCRIBE then parseDescribe
  else if t TOKEN_EXPLAIN then parseExplain
  else if t TOKEN_ANALYZE then parseAnalyze
  else if t TOKEN_SET then parseSet
  else if t TOKEN_HISTORY then parseHistory
  else if t TOKEN_SELECT then stmt ← parseSelect; mret (StQuery stmt)
  else if t TOKEN_WITH then parseCTE
  else if t TOKEN_INSERT then parseInsert
  else if t TOKEN_UPDATE then parseUpdate
  else if t TOKEN_DELETE then parseDelete
  else if t TOKEN_MERGE then parseMerge
  else if t TOKEN_TRUNCATE then parseTruncate
  else if t TOKEN_COPY then parseCopy
  else if t TOKEN_VACUUM then parseVacuum
  else if t TOKEN_BEGIN then advance;; mret StBegin
  else if t TOKEN_COMMIT then advance;; mret StCommit
  else if t TOKEN_ROLLBACK then
    if isType next TOKEN_TO then parseRollbackToSavepoint
    else if isType next TOKEN_MIGRATION then parseMigration "ROLLBACK"
    else advance;; mret StRollback
  else if t TOKEN_SAVEPOINT then named "savepoint name" StSavepoint
  else if t TOKEN_RELEASE then parseReleaseSavepoint
  else if t TOKEN_PREPARE then parsePrepare
  else if t TOKEN_EXECUTE then parseExecute
  else if t TOKEN_DEALLOCATE then named "statement name" StDeallocate
  else if t TOKEN_CALL then parseCallStatement
  else if t TOKEN_ENABLE then parseEnableRls
  else if t TOKEN_VERIFY then parseVerifyAuditLog
  else if t TOKEN_GRANT then parseGrant
  else if t TOKEN_REVOKE then parseRevoke
  else if t TOKEN_APPLY then parseMigration "APPLY"
  else if t TOKEN_PREVIEW then parseMigration "PREVIEW"
  else if t TOKEN_IDENT && EqualFold (Literal tok) "ARCHIVE" then parseArchiveAuditLog
  else if t TOKEN_IDENT && EqualFold (Literal tok) "KILL" then parseKill
  else throw (ErrExpected "a statement" tok).

(** Set operations go on after a SELECT. *)
Definition statementBody : PM Stmt :=
  stmt ← statementAt;
  match stmt with
  | StQuery (SSelect s) => q ← parseSetOperation (SSelect s); mret (StQuery q)
  | _ => mret stmt
  end.
End Recursion.

Fixpoint parseStatementN (n : nat) : PM Stmt :=
  match n with
  | O => throw ErrFuel
  | S n => statementBody (λ p, parseStatementN n p)
  end.

(** A statement inside another one starts at a later token. *)
Definition parseStatement : PM Stmt := λ p, parseStatementN (S (length (tokens p))) p.

(** One statement, a semicolon and the end. *)
Definition wholeStatement : PM Stmt :=
  stmt ← parseStatement;
  tok ← current;
  if negb (isType tok TOKEN_SEMICOLON) then throw (ErrExpected "';'" tok) else
  advance;;
  tok ← current;
  if negb (isType tok TOKEN_EOF) then throw (ErrSyntax tok "unexpected token after ';'") else
  mret stmt.

(** [strings.HasSuffix(sql, ";")]. *)
Definition endsWithSemicolon (sql : text) : bool := bool_decide (last sql = Some (rune ";"%char)).

Definition terminated (sql : text) : text := let sql := trimRight sql in if endsWithSemicolon sql then sql else sql ++ rs ";".

(** [inl] is an illegal token. *)
Definition parse (sql : text) : Token + outcome parse_error Stmt :=
  if maxInputSize <? byteLen sql then inr (Err (ErrMessage "query too large"))
  else if blank sql then inr (Err (ErrMessage "syntax error: empty query"))
  else match Tokenize letterBeyond upperBeyond (terminated sql) with
    | Ok toks => inr (snd (wholeStatement (mkParser toks 0 0)))
    | Err tok => inl tok
    | Panic => inr Panic
    end.

(** Every error is answered with the same message. *)
Definition Parse (sql : text) : option Stmt := match parse sql with inr (Ok stmt) => Some stmt | _ => None end.
End Statements.
