(* ===== verification/StatementsSpec.v ===== *)
(** * Every statement is parsed in finitely many steps

    [parse] ends on every text, whatever the statement: the lexer, the loops over
    lists, options and bodies, and the statements inside statements. *)

From S2P Require Import Prelude Bytes Strconv Lexer Parser ParserSpec Statements.

Section Total.
Context (letterBeyond : Z → bool) (upperBeyond lowerBeyond : Z → Z) (ParseFloat : text → option Z) (FormatFloat : Z → text).
Abbreviation parseExpression := (parseExpression upperBeyond ParseFloat).
Abbreviation parseSelect := (parseSelect upperBeyond ParseFloat).

(** ** Parts that are safe everywhere *)

Definition total {A} (m : PM A) : Prop := ∀ P d, safeIf P d m.

Lemma total_safe {A} (m : PM A) P d : total m → safeIf P d m.
Proof. intros Hm. apply Hm. Qed.

Lemma safe_total {A} (m : PM A) : (∀ d, safe (S d) m) → total m.
Proof. intros Hm P [|d]; [apply safe_zero|]. by apply (safe_weaken _ (λ _, True) (S d) (S d)). Qed.

(** The bounds count the tokens that are left. *)
Lemma safe_rem {A} (m : nat → PM A) (f : sqlParser → nat) : (∀ p, Wf p → safe (rem p) (m (f p))) → total (λ p, m (f p) p).
Proof. intros Hm P d p Hp Hr HP. by apply (Hm p Hp p Hp). Qed.

Lemma total_expression : total parseExpression.
Proof. apply (safe_rem (parseExpressionN upperBeyond ParseFloat) levels). intros p Hp. apply safe_levels. unfold levels, rem. lia. Qed.

Lemma total_select : total parseSelect.
Proof. apply (safe_rem (parseSelectN upperBeyond ParseFloat) levels). intros p Hp. apply safe_levels. unfold levels, rem. lia. Qed.


Lemma total_setOperation left : total (parseSetOperation upperBeyond parseSelect left).
Proof. apply safe_total. intros d. apply safe_setOperation. apply total_select. Qed.

Lemma total_selectColumns : total (parseSelectColumns upperBeyond parseExpression).
Proof. apply safe_total. intros d. apply safe_selectColumns. apply total_expression. Qed.

Lemma total_valueList : total (parseValueListUntilRParen parseExpression).
Proof. apply safe_total. intros d. apply safe_valueList. apply total_expression. Qed.

Lemma total_commaList {A} (item : PM A) : total item → total (commaList item).
Proof. intros Hi P d. apply safe_commaList, Hi. Qed.

Lemma total_identifierList what : total (parseIdentifierListUntilRParen what).
Proof. apply safe_total. intros d. unfold parseIdentifierListUntilRParen. safe. by apply safe_identifiers. Qed.

Lemma total_dottedName what : total (dottedName what).
Proof. intros P d. apply safe_dottedName. Qed.

Lemma total_columnType : total parseColumnType.
Proof. intros P d. apply safe_parseColumnType. Qed.

Lemma total_literal : total (parseLiteralValue ParseFloat).
Proof. intros P d. unfold parseLiteralValue. safe. apply safe_tokenToValue. Qed.

Lemma total_consumeIdent what : total (consumeIdent what).
Proof. intros P d. apply safe_consumeIdent. Qed.

Lemma total_ret {A} (x : A) : total (mret x).
Proof. intros P d. apply safe_ret. Qed.

Create HintDb total.
#[local] Hint Resolve total_expression total_select total_setOperation total_selectColumns total_valueList total_commaList total_identifierList
  total_dottedName total_columnType total_literal total_consumeIdent total_ret : total.

(** The steps of a program, down to parts that are known to be safe everywhere. *)
Ltac totals := intros ? ?; safe; try (apply total_safe; auto 10 with total).

Lemma total_when t {A} (m : PM A) : total m → total (when t m).
Proof. unfold when. intros. totals. Qed.

Lemma total_consume t what : total (consume t what).
Proof. intros P d. apply safe_consume. Qed.

Lemma total_bind {A B} (m : PM A) (f : A → PM B) : total m → (∀ x, total (f x)) → total (mbind f m).
Proof. intros Hm Hf P d. apply safe_bind; [apply Hm|intros a; apply Hf]. Qed.

#[local] Hint Resolve total_when total_consume : total.
#[local] Hint Extern 3 (total (mbind _ _)) => totals : total.

Lemma total_nameAfter t what : total (nameAfter t what).
Proof. unfold nameAfter. totals. Qed.

Lemma total_ifExists : total ifExists.
Proof. unfold ifExists. totals. Qed.

Lemma total_ifNotExists : total ifNotExists.
Proof. unfold ifNotExists. totals. Qed.

Lemma total_stringToken what : total (stringToken what).
Proof. unfold stringToken. totals. Qed.

Lemma total_inParens {A} (m : PM A) : total m → total (inParens m).
Proof. intros. unfold inParens. totals. Qed.

Lemma total_columnList : total parseColumnList.
Proof. unfold parseColumnList. auto with total. Qed.

Lemma total_columnNames : total columnNames.
Proof. unfold columnNames. totals. Qed.

#[local] Hint Resolve total_nameAfter total_ifExists total_ifNotExists total_stringToken total_inParens total_columnList total_columnNames : total.

Lemma total_returning : total (parseReturning upperBeyond ParseFloat).
Proof. unfold parseReturning. auto with total. Qed.

Lemma total_where : total (parseWhere upperBeyond ParseFloat).
Proof. unfold parseWhere. auto with total. Qed.

Lemma total_valueRow : total (valueRow upperBeyond ParseFloat).
Proof. unfold valueRow. auto with total. Qed.

Lemma total_selectOnly bad : total (selectOnly upperBeyond ParseFloat bad).
Proof. unfold selectOnly. totals. Qed.

Lemma total_query : total (queryWithSets upperBeyond ParseFloat).
Proof. unfold queryWithSets. totals. Qed.

Lemma total_assignment : total (assignment upperBeyond ParseFloat).
Proof. unfold assignment. totals. Qed.

Lemma total_qualifiedAssignment : total (qualifiedAssignment upperBeyond ParseFloat).
Proof. unfold qualifiedAssignment. totals. Qed.

Lemma total_bareAlias : total (bareAlias upperBeyond).
Proof. unfold bareAlias. totals. Qed.

#[local] Hint Resolve total_returning total_where total_valueRow total_selectOnly total_query total_assignment total_qualifiedAssignment total_bareAlias : total.

(** ** Changes of rows *)

Lemma total_onConflict : total (parseOnConflict upperBeyond ParseFloat).
Proof. unfold parseOnConflict. auto with total. Qed.

#[local] Hint Resolve total_onConflict : total.

Lemma total_insert : total (parseInsert upperBeyond ParseFloat).
Proof. unfold parseInsert. totals. Qed.

Lemma total_updateFrom : total (updateFrom upperBeyond ParseFloat).
Proof. unfold updateFrom. totals. Qed.

#[local] Hint Resolve total_updateFrom : total.

Lemma total_update : total (parseUpdate upperBeyond ParseFloat).
Proof. unfold parseUpdate. totals. Qed.

Lemma total_delete : total (parseDelete upperBeyond ParseFloat).
Proof. unfold parseDelete. totals. Qed.

Lemma total_mergeSource : total (mergeSource upperBeyond ParseFloat).
Proof. unfold mergeSource. totals. Qed.

Lemma total_mergeAlias values : total (mergeAlias upperBeyond values).
Proof. unfold mergeAlias. totals. Qed.

Lemma total_mergeInsert : total (mergeInsert upperBeyond ParseFloat).
Proof. unfold mergeInsert. totals. Qed.

#[local] Hint Resolve total_mergeSource total_mergeAlias total_mergeInsert : total.

Lemma safe_mergeWhenLoop n d a b : (d < n)%nat → safe d (mergeWhenLoop upperBeyond ParseFloat n a b).
Proof.
  revert d a b. induction n as [|n IH]; intros [|d] a b Hn; try lia; cbn [mergeWhenLoop]; [safe|]. safe.
  all: try (apply IH; lia). all: apply total_safe; auto with total.
Qed.

Lemma total_merge : total (parseMerge upperBeyond ParseFloat).
Proof. apply safe_total. intros d. unfold parseMerge. safe. all: try (by apply safe_mergeWhenLoop). all: apply total_safe; auto with total. Qed.

(** ** COPY *)

(** A name that is read is left behind. *)
Lemma safe_ident_over {A} P d what (f : text → PM A) : (∀ x, safe d (f x)) → safeIf P (S d) (x ← consumeIdent what; f x).
Proof.
  intros Hf. apply (safe_weaken _ (λ _, True) (S d) (S d)); [done|done|]. intros p Hp Hr _. unfold consumeIdent, mbind, M_bind, current, gets.
  destruct (isType (currentOf p) TOKEN_IDENT) eqn:E.
  - exact (safe_over _ d (f (Literal (currentOf p))) (type_notEof _ _ E eq_refl) (Hf _) p Hp Hr eq_refl).
  - cbn. by split_and!.
Qed.

Lemma safe_consume_over {A} P d t what (m : PM A) : tok_eqb t TOKEN_EOF = false → safe d m → safeIf P (S d) (consume t what;; m).
Proof.
  intros Ht Hm. apply (safe_weaken _ (λ _, True) (S d) (S d)); [done|done|]. intros p Hp Hr _. unfold consume, mbind, M_bind, current, gets.
  destruct (isType (currentOf p) t) eqn:E.
  - exact (safe_over _ d m (type_notEof _ _ E Ht) Hm p Hp Hr eq_refl).
  - cbn. by split_and!.
Qed.

Lemma total_validateDelimiter delim : total (validateDelimiter delim).
Proof. unfold validateDelimiter. totals. Qed.

#[local] Hint Resolve total_validateDelimiter : total.

Lemma total_copyFormat : total (copyFormat upperBeyond).
Proof. unfold copyFormat. totals. Qed.

Lemma total_copyHeader : total copyHeader.
Proof. unfold copyHeader. totals. Qed.

Lemma total_copyDelimiter : total (copyDelimiter upperBeyond).
Proof. unfold copyDelimiter. totals. Qed.

#[local] Hint Resolve total_copyFormat total_copyHeader total_copyDelimiter : total.

Lemma safe_copyOptionLoop n d opts : (d < n)%nat → safe d (copyOptionLoop upperBeyond n opts).
Proof.
  revert d opts. induction n as [|n IH]; intros [|d] opts Hn; try lia; cbn [copyOptionLoop]; [safe|].
  apply safe_current. intros tok. destruct (isType tok TOKEN_RPAREN); [safe|]. apply safe_ident_over. intros name. safe.
  all: try (apply IH; lia). all: apply total_safe; auto with total.
Qed.

Lemma total_copyOptions : total (parseCopyOptions upperBeyond).
Proof. apply safe_total. intros d. unfold parseCopyOptions. safe. by apply safe_copyOptionLoop. Qed.

Lemma total_copyFile : total (copyFile upperBeyond).
Proof. unfold copyFile. totals. Qed.

#[local] Hint Resolve total_copyOptions total_copyFile : total.

Lemma total_copy : total (parseCopy upperBeyond).
Proof. unfold parseCopy. totals. Qed.

(** ** Short statements *)

Lemma total_named what mk : total (named what mk).
Proof. unfold named. totals. Qed.

Lemma total_truncate : total parseTruncate.
Proof. unfold parseTruncate. totals. Qed.

Lemma total_rollbackTo : total parseRollbackToSavepoint.
Proof. unfold parseRollbackToSavepoint. totals. Qed.

Lemma total_release : total parseReleaseSavepoint.
Proof. unfold parseReleaseSavepoint. totals. Qed.

Lemma total_policy : total (parseCreatePolicy upperBeyond ParseFloat).
Proof. unfold parseCreatePolicy. totals. Qed.

Lemma total_enableRls : total parseEnableRls.
Proof. unfold parseEnableRls. totals. Qed.

Lemma total_set : total parseSet.
Proof. unfold parseSet. totals. Qed.

Lemma total_migration op : total (parseMigration op).
Proof. unfold parseMigration. totals. Qed.

Lemma total_analyzeFlag : total analyzeFlag.
Proof. unfold analyzeFlag. totals. Qed.

#[local] Hint Resolve total_analyzeFlag : total.

Lemma total_explain : total (parseExplain upperBeyond ParseFloat).
Proof. unfold parseExplain. totals. Qed.

Lemma total_vacuum : total parseVacuum.
Proof. unfold parseVacuum. totals. Qed.

Lemma total_execute : total (parseExecute ParseFloat).
Proof. unfold parseExecute. totals. Qed.

Lemma total_call : total (parseCallStatement upperBeyond ParseFloat).
Proof. unfold parseCallStatement. totals. Qed.

Lemma total_history : total (parseHistory upperBeyond ParseFloat).
Proof. unfold parseHistory. totals. Qed.

Lemma total_show : total (parseShow upperBeyond).
Proof. unfold parseShow. totals. Qed.

Lemma total_describe : total parseDescribe.
Proof. unfold parseDescribe. totals. Qed.

Lemma total_analyze : total parseAnalyze.
Proof. unfold parseAnalyze. totals. Qed.

Lemma total_exactWord w : total (exactWord w).
Proof. unfold exactWord. totals. Qed.

#[local] Hint Resolve total_exactWord : total.

Lemma total_verify : total parseVerifyAuditLog.
Proof. unfold parseVerifyAuditLog. totals. Qed.

Lemma total_archive : total parseArchiveAuditLog.
Proof. unfold parseArchiveAuditLog. totals. Qed.

Lemma total_kill : total parseKill.
Proof. unfold parseKill. totals. Qed.

(** A privilege is not the end of the text. *)
Lemma privilege_notEof tok : existsb (upperIs upperBeyond (Literal tok)) privilegeNames = true → notEof tok.
Proof. intros (w & Hin & Hw%bool_decide_eq_true)%existsb_exists. right. intros E. rewrite E in Hw. cbn in Hin. destruct_or! Hin; subst; done. Qed.

Lemma safe_privilegeLoop n d l : (d < n)%nat → safe d (privilegeLoop upperBeyond n l).
Proof.
  revert d l. induction n as [|n IH]; intros [|d] l Hn; try lia; cbn [privilegeLoop]; [safe|].
  apply safe_current. intros tok. destruct (existsb _ _) eqn:E; [|safe]. apply safe_over; [by apply privilege_notEof|]. safe. apply IH. lia.
Qed.

Lemma total_privileges : total (parsePrivilegeList upperBeyond).
Proof. apply safe_total. intros d. unfold parsePrivilegeList. safe. by apply safe_privilegeLoop. Qed.

Lemma total_objectName : total parseObjectName.
Proof. unfold parseObjectName. totals. Qed.

#[local] Hint Resolve total_privileges total_objectName : total.

Lemma total_grant : total (parseGrant upperBeyond).
Proof. unfold parseGrant. totals. Qed.

Lemma total_revoke : total (parseRevoke upperBeyond).
Proof. unfold parseRevoke. totals. Qed.

(** ** Definitions *)

Lemma total_createDatabase : total (parseCreateDatabase upperBeyond ParseFloat).
Proof. unfold parseCreateDatabase. totals. Qed.

Lemma total_dropDatabase : total parseDropDatabase.
Proof. unfold parseDropDatabase. totals. Qed.

Lemma safe_indexLoop n d a b : (d < n)%nat → safe d (indexLoop upperBeyond ParseFloat FormatFloat n a b).
Proof.
  revert d a b. induction n as [|n IH]; intros [|d] a b Hn; try lia; cbn [indexLoop]; [safe|]. safe.
  all: try (apply IH; lia). apply total_safe. auto with total.
Qed.

Lemma total_createIndex : total (parseCreateIndex upperBeyond ParseFloat FormatFloat).
Proof. apply safe_total. intros d. unfold parseCreateIndex. safe. all: try (by apply safe_indexLoop). all: apply total_safe; auto with total. Qed.

Lemma safe_bodyLoop n d ends body : (d < n)%nat → safe d (bodyLoop n ends body).
Proof.
  revert d body. induction n as [|n IH]; intros [|d] body Hn; try lia; cbn [bodyLoop]; [safe|]. apply safe_current. intros tok.
  destruct (isType tok ends || isType tok TOKEN_EOF) eqn:E; [safe|]. apply orb_false_iff in E as [_ E]. apply safe_over; [by left|]. apply IH. lia.
Qed.

Lemma total_bodyUntil ends : total (bodyUntil ends).
Proof. apply safe_total. intros d. unfold bodyUntil. safe. by apply safe_bodyLoop. Qed.

#[local] Hint Resolve total_bodyUntil : total.

Lemma total_createTrigger : total (parseCreateTrigger upperBeyond).
Proof. unfold parseCreateTrigger. totals. Qed.

Lemma total_createView orReplace : total (parseCreateView upperBeyond ParseFloat orReplace).
Proof. unfold parseCreateView. totals. Qed.

Lemma total_typedParameter : total typedParameter.
Proof. unfold typedParameter. totals. Qed.

Lemma total_parameters item : total item → total (parameters item).
Proof. intros. unfold parameters. auto with total. Qed.

Lemma total_language lang : total (languageClause upperBeyond lang).
Proof. unfold languageClause. totals. Qed.

Lemma total_routineBody : total routineBody.
Proof. unfold routineBody. totals. Qed.

Lemma safe_optionLoop n d options : (d < n)%nat → safe d (optionLoop lowerBeyond n options).
Proof.
  revert d options. induction n as [|n IH]; intros [|d] options Hn; try lia; cbn [optionLoop]; [safe|]. apply safe_current. intros tok.
  destruct (isOneOf tok _); [safe|]. apply safe_ident_over. intros key. safe. all: try (apply IH; lia). apply total_safe. auto with total.
Qed.

Lemma total_options : total (n ← loopSteps; options ← optionLoop lowerBeyond n ∅; consume TOKEN_RPAREN "')'";; mret options).
Proof. apply safe_total. intros d. safe. by apply safe_optionLoop. Qed.

#[local] Hint Resolve total_typedParameter total_parameters total_language total_routineBody total_options : total.

Lemma total_routineRest : total (routineRest upperBeyond lowerBeyond).
Proof. unfold routineRest. intros ? ?. safe; apply total_safe; auto with total. apply total_when, total_bind; auto with total. Qed.

#[local] Hint Resolve total_routineRest : total.

Lemma total_createFunction : total (parseCreateFunction upperBeyond lowerBeyond).
Proof. unfold parseCreateFunction. totals. Qed.

Lemma total_createProcedure : total (parseCreateProcedure upperBeyond lowerBeyond).
Proof. unfold parseCreateProcedure. totals. Qed.

Lemma total_attempt {A} (m : PM A) : total m → total (attempt m).
Proof. intros Hm. apply safe_total. intros d. apply safe_attempt, Hm. Qed.

#[local] Hint Resolve total_attempt : total.

Lemma total_createRole : total (parseCreateRole upperBeyond).
Proof. unfold parseCreateRole. totals. Qed.

(** *** Columns *)

Lemma total_pairOf t u : total (pairOf t u).
Proof. unfold pairOf. totals. Qed.

Lemma total_flagOf t : total (flagOf t).
Proof. unfold flagOf. totals. Qed.

Lemma total_wordFlag w : total (wordFlag upperBeyond w).
Proof. unfold wordFlag. totals. Qed.

Lemma total_skipCascade : total skipCascade.
Proof. unfold skipCascade. totals. Qed.

Lemma total_generated : total (generatedClause upperBeyond ParseFloat).
Proof. unfold generatedClause. totals. Qed.

#[local] Hint Resolve total_pairOf total_flagOf total_wordFlag total_skipCascade total_generated : total.

Lemma total_columnDef : total (parseColumnDef upperBeyond ParseFloat).
Proof. unfold parseColumnDef. totals. Qed.

#[local] Hint Resolve total_columnDef : total.

(** Programs one after the other, in either grouping. *)
Lemma safe_assoc {A B C} P d (m : PM A) (f : A → PM B) (g : B → PM C) : safeIf P d (y ← m; x ← f y; g x) → safeIf P d (x ← (y ← m; f y); g x).
Proof. intros H p Hp Hr HP. specialize (H p Hp Hr HP). unfold mbind, M_bind in *. by destruct (m p) as [p' [y|e|]]. Qed.

(** A column begins with its name. *)
Lemma columnDef_over {A} P d (f : ColumnDef → PM A) : (∀ x, safe d (f x)) → safeIf P (S d) (col ← parseColumnDef upperBeyond ParseFloat; f col).
Proof.
  intros Hf. unfold parseColumnDef. apply safe_assoc, safe_ident_over. intros name. apply safe_bind; [|done]. safe. all: apply total_safe; auto with total.
Qed.

(** *** CREATE TABLE *)

Lemma total_skipColumns : total skipColumns.
Proof. unfold skipColumns. totals. Qed.

#[local] Hint Resolve total_skipColumns : total.

(** A constraint is left behind. *)
Lemma tableConstraint_over {A} P d noColumns (f : option constraint → PM A) : (∀ c, safe d (f (Some c))) → safe (S d) (f None) →
  safeIf P (S d) (c ← tableConstraint upperBeyond ParseFloat noColumns; f c).
Proof.
  intros Hs Hn. assert (∀ c, safe d (f c)) as Hall by (intros [c|]; [apply Hs|eapply safe_le; [|exact Hn]; lia]).
  unfold tableConstraint. apply safe_assoc, safe_current. intros tok. apply safe_assoc, safe_peek. intros next. unfold isWord.
  repeat match goal with |- safeIf _ _ (mbind _ (if ?b then _ else _)) => let E := fresh "E" in destruct b eqn:E end.
  all: try (apply safe_assoc, safe_over; [noteof|]; apply safe_bind; [|exact Hall]; safe; apply total_safe; auto with total).
  - intros p Hp Hr _. cbn. by split_and!.
  - by apply safe_at.
Qed.

Lemma safe_tableLoop n d columns fullText : (d < n)%nat → safe d (tableLoop upperBeyond ParseFloat n columns fullText).
Proof.
  revert d columns fullText. induction n as [|n IH]; intros [|d] columns fullText Hn; try lia; cbn [tableLoop]; [safe|].
  apply safe_current. intros tok. apply safe_bind; [safe|]. intros _. apply tableConstraint_over.
  - intros c. destruct (addConstraint c columns fullText) as [columns' fullText']. safe. apply safe_at, IH. lia.
  - apply safe_current. intros tok'. destruct (isType tok' TOKEN_RPAREN); [safe|]. apply columnDef_over. intros col. apply IH. lia.
Qed.

Lemma total_partitionDef : total (parsePartitionDef upperBeyond ParseFloat).
Proof. unfold parsePartitionDef. totals. Qed.

#[local] Hint Resolve total_partitionDef : total.

Lemma safe_partitionLoop n d defs : (d < n)%nat → safe d (partitionLoop upperBeyond ParseFloat n defs).
Proof.
  revert d defs. induction n as [|n IH]; intros [|d] defs Hn; try lia; cbn [partitionLoop]; [safe|]. apply safe_current. intros tok.
  destruct (isType tok TOKEN_RPAREN); [safe|]. unfold parsePartitionDef at 1. apply safe_assoc, safe_consume_over; [done|].
  apply safe_bind; [safe; apply total_safe; auto with total|]. intros def. safe. apply IH. lia.
Qed.

Lemma total_partitionLoop : total (n ← loopSteps; partitionLoop upperBeyond ParseFloat n []).
Proof. apply safe_total. intros d. safe. by apply safe_partitionLoop. Qed.

Lemma total_hashPartitions : total hashPartitions.
Proof. unfold hashPartitions. totals. Qed.

#[local] Hint Resolve total_partitionLoop total_hashPartitions : total.

Lemma total_partitionSpec : total (parsePartitionSpec upperBeyond ParseFloat).
Proof.
  intros ? ?. unfold parsePartitionSpec. safe. all: try (apply total_safe; auto with total; fail). by apply safe_partitionLoop.
Qed.

#[local] Hint Resolve total_partitionSpec : total.

Lemma total_createTable : total (parseCreateTable upperBeyond ParseFloat).
Proof.
  apply safe_total. intros d. unfold parseCreateTable. safe. all: try (by apply safe_tableLoop). all: apply total_safe; auto with total.
Qed.

(** *** CREATE, DROP and ALTER *)

#[local] Hint Resolve total_createDatabase total_dropDatabase total_createIndex total_createTrigger total_createView total_createFunction
  total_createProcedure total_createRole total_createTable total_named : total.

Lemma total_create : total (parseCreate upperBeyond lowerBeyond ParseFloat FormatFloat).
Proof. unfold parseCreate. totals. Qed.

Lemma total_drop : total (parseDrop upperBeyond).
Proof. unfold parseDrop. totals. Qed.

Lemma total_cascadeFlag : total cascadeFlag.
Proof. unfold cascadeFlag. totals. Qed.

#[local] Hint Resolve total_cascadeFlag : total.

Lemma total_alterConstraint : total (alterConstraint upperBeyond ParseFloat FormatFloat).
Proof. unfold alterConstraint. totals. Qed.

Lemma total_skipKeyword t : total (skipKeyword t).
Proof. unfold skipKeyword. totals. Qed.

#[local] Hint Resolve total_alterConstraint total_skipKeyword : total.

Lemma total_alterAction : total (alterAction upperBeyond ParseFloat FormatFloat).
Proof. unfold alterAction. totals. Qed.

#[local] Hint Resolve total_alterAction : total.

Lemma total_alterTable : total (parseAlterTable upperBeyond ParseFloat FormatFloat).
Proof. unfold parseAlterTable. totals. Qed.

(** ** Statements inside statements *)

#[local] Hint Resolve total_create total_drop total_alterTable total_insert total_update total_delete total_merge total_copy total_truncate
  total_rollbackTo total_release total_policy total_enableRls total_set total_migration total_explain total_vacuum total_execute total_call
  total_history total_show total_describe total_analyze total_verify total_archive total_kill total_grant total_revoke : total.

Section Inside.
Context (d : nat) (statement : PM Stmt) (Hst : safe d statement).

Lemma safe_cteDefinition : safe d (cteDefinition statement).
Proof. unfold cteDefinition. safe. apply total_safe. auto with total. Qed.

Lemma safe_cte tok : notEof tok → safeAt tok (S d) (parseCTE upperBeyond statement).
Proof.
  intros Ht. unfold parseCTE. apply safe_over; [done|]. safe. { apply total_safe. auto with total. } apply safe_commaList, safe_cteDefinition.
Qed.

Lemma safe_prepare tok : notEof tok → safeAt tok (S d) (parsePrepare statement).
Proof. intros Ht. unfold parsePrepare. apply safe_over; [done|]. safe. Qed.

Lemma safe_statementAt : safe (S d) (statementAt upperBeyond lowerBeyond ParseFloat FormatFloat statement).
Proof.
  unfold statementAt. apply safe_current. intros tok. apply safe_peek. intros next. cbv zeta.
  repeat match goal with |- safeIf _ _ (if ?b then _ else _) => let E := fresh "E" in destruct b eqn:E end.
  all: try (apply total_safe; auto with total; fail).
  all: try (by apply safe_cte; noteof). all: try (by apply safe_prepare; noteof).
  all: safe; apply total_safe; auto with total.
Qed.

Lemma safe_statementBody : safe (S d) (statementBody upperBeyond lowerBeyond ParseFloat FormatFloat statement).
Proof.
  unfold statementBody. apply safe_bind; [apply safe_statementAt|]. intros s. safe. apply total_safe. auto with total.
Qed.
End Inside.

Lemma safe_statementN n d : (d < n)%nat → safe d (parseStatementN upperBeyond lowerBeyond ParseFloat FormatFloat n).
Proof.
  revert d. induction n as [|n IH]; intros [|d] Hn; try lia; [safe|]. cbn [parseStatementN]. apply safe_statementBody. apply IH. lia.
Qed.

Lemma total_statement : total (parseStatement upperBeyond lowerBeyond ParseFloat FormatFloat).
Proof.
  apply (safe_rem (parseStatementN upperBeyond lowerBeyond ParseFloat FormatFloat) (λ p, S (length (tokens p)))).
  intros p Hp. apply safe_statementN. unfold rem. lia.
Qed.

#[local] Hint Resolve total_statement : total.

Lemma total_whole : total (wholeStatement upperBeyond lowerBeyond ParseFloat FormatFloat).
Proof. unfold wholeStatement. totals. Qed.

(** An illegal token, a statement or an error of the language: neither a panic nor a bound of the model. *)
Definition comesToEnd (r : Token + outcome parse_error Stmt) : Prop := match r with inl _ => True | inr r => answered r end.

(** C8: the parser ends on every text. Whatever the statement, with any statements, subqueries and lists inside it, [parse] answers with an
    illegal token, a statement or an error of the language, and the bounds of the model on its loops and its recursion are never what stops it. *)
Theorem parse_total sql : comesToEnd (parse letterBeyond upperBeyond lowerBeyond ParseFloat FormatFloat sql).
Proof.
  unfold parse. destruct (maxInputSize <? byteLen sql); [done|]. destruct (blank sql); [done|].
  destruct (Tokenize_ends letterBeyond upperBeyond (terminated sql)) as [[toks E]|[tok E]]; rewrite E; [|done].
  eapply safe_answered; [by eapply Tokenize_wf|reflexivity|]. apply total_whole.
Qed.
End Total.

(** ** Statements as they are read *)

Definition parsed (s : string) : option Stmt := Parse (λ _, false) id id (λ _, None) (λ _, []) (rs s).

(** EXPLAIN takes the token after it for SELECT, whatever it is. *)
Example explain_any : parsed "EXPLAIN INSERT a FROM t" = parsed "EXPLAIN SELECT a FROM t" ∧ is_Some (parsed "EXPLAIN SELECT a FROM t").
Proof. split; [vm_compute; reflexivity|by vm_compute; eexists]. Qed.

(** The constraints of a table are read and dropped. *)
Example constraints_dropped :
  parsed "CREATE TABLE t (a INT, b INT, PRIMARY KEY (a), UNIQUE (b), CHECK (a > 0), FOREIGN KEY (b) REFERENCES u (c))" =
  parsed "CREATE TABLE t (a INT, b INT)" ∧ is_Some (parsed "CREATE TABLE t (a INT, b INT)").
Proof. split; [vm_compute; reflexivity|by vm_compute; eexists]. Qed.

(** So is the reference of a column. *)
Example reference_dropped :
  parsed "CREATE TABLE t (a INT REFERENCES u (c) ON DELETE CASCADE)" = parsed "CREATE TABLE t (a INT)" ∧ is_Some (parsed "CREATE TABLE t (a INT)").
Proof. split; [vm_compute; reflexivity|by vm_compute; eexists]. Qed.

(** Columns need no comma between them. *)
Example no_comma : parsed "CREATE TABLE t (a INT b INT)" = parsed "CREATE TABLE t (a INT, b INT)" ∧ is_Some (parsed "CREATE TABLE t (a INT, b INT)").
Proof. split; [vm_compute; reflexivity|by vm_compute; eexists]. Qed.

(** ON CONFLICT DO without an action. *)
Example conflict_without_action :
  parsed "INSERT INTO t VALUES (1) ON CONFLICT DO" = Some (StInsert (rs "t") [] [[EValue (VInt 1)]] None (Some (mkOnConflict [] [] [])) None false).
Proof. vm_compute. reflexivity. Qed.

(** The body of a trigger keeps the text of a string and loses its quotes. *)
Example trigger_unquoted :
  parsed "CREATE TRIGGER g AFTER INSERT ON t BEGIN UPDATE u SET a = 'x' END" =
  Some (StCreateTrigger (rs "g") (rs "t") (rs "AFTER") (rs "INSERT") (rs "UPDATE u SET a = x")).
Proof. vm_compute. reflexivity. Qed.

(** The body of a function ends at the first closing parenthesis. *)
Example function_paren : parsed "CREATE FUNCTION f(a) RETURNS INT AS ((a + 1) * 2)" = None ∧ is_Some (parsed "CREATE FUNCTION f(a) RETURNS INT AS (a + 1 * 2)").
Proof. split; [vm_compute; reflexivity|by vm_compute; eexists]. Qed.

(** LEFT and RIGHT leave the closing parenthesis. *)
Example left_unclosed : parsed "SELECT LEFT(a, 1) FROM t" = None ∧ parsed "SELECT RIGHT(a, 1) FROM t" = None ∧ is_Some (parsed "SELECT LOWER(a) FROM t").
Proof. split_and!; [vm_compute; reflexivity..|by vm_compute; eexists]. Qed.

(** A LATERAL subquery in parentheses, too. *)
Example lateral_unclosed : parsed "SELECT * FROM LATERAL (SELECT a FROM t) x" = None ∧ is_Some (parsed "SELECT * FROM LATERAL SELECT a FROM t").
Proof. split; [vm_compute; reflexivity|by vm_compute; eexists]. Qed.

(** The role given to a new user is dropped, with or without a name. *)
Example role_dropped : parsed "CREATE USER u WITH ROLE admin" = parsed "CREATE USER u" ∧ parsed "CREATE USER u WITH ROLE" = parsed "CREATE USER u" ∧
  is_Some (parsed "CREATE USER u").
Proof. split_and!; [vm_compute; reflexivity..|by vm_compute; eexists]. Qed.

(** The words of the audit statements are read in upper case only. *)
Example audit_case : parsed "VERIFY AUDIT LOG" = Some StVerifyAuditLog ∧ parsed "verify audit log" = None.
Proof. split; vm_compute; reflexivity. Qed.

(** What follows [@>] is a whole expression. *)
Example contains_greedy :
  parsed "SELECT * FROM t WHERE a @> b AND c" =
  Some (StQuery (SSelect (Select (mkSelect [] (rs "t") [] None [] false []
    (Some (EJSONAccess (EColumnRef (rs "a") []) (rs "@>") (EAnd (EColumnRef (rs "b") []) (EColumnRef (rs "c") []))))
    [] None [] 0 false None 0 false None None false [] false false)))).
Proof. vm_compute. reflexivity. Qed.
