(* ===== verification/Partition.v ===== *)
(** * Partitioned tables

    [server/internal/core/storage/partition.go]: the partition a row is inserted
    into and the partitions a SELECT has to read, with the insertion of
    [executePartitionedInsert] ([dml/insert.go]) and the reading of
    [executePartitionedSelect] ([sel/select.go]).  A SELECT that reads only the
    partitions its clause leaves finds every row that the clause accepts. *)

From S2P Require Import Prelude Bytes Strconv RowCodec Float64 Eval Vm.

(** ** Dates *)

Definition isLeap (y : Z) : bool := (y mod 4 =? 0) && (negb (y mod 100 =? 0) || (y mod 400 =? 0)).

Definition daysIn (m y : Z) : Z :=
  if m =? 2 then if isLeap y then 29 else 28 else if (m =? 4) || (m =? 6) || (m =? 9) || (m =? 11) then 30 else 31.

Definition dash : byte := Byte.x2d.

(** [time.Parse("2006-01-02", s)]: four, two and two digits.  Of the instant only the order matters. *)
Definition parseDate (s : bytes) : option Z :=
  if (length s =? 10)%nat && bool_decide (s !! 4%nat = Some dash) && bool_decide (s !! 7%nat = Some dash) then
    y ← parseUint (take 4 s);
    m ← parseUint (take 2 (drop 5 s));
    d ← parseUint (drop 8 s);
    if (1 <=? m) && (m <=? 12) && (1 <=? d) && (d <=? daysIn m y) then Some (512 * y + 32 * m + d) else None
  else None.

(** ** Values to compare *)

Inductive comparable : Type := CInt64 (z : Z) | CFloat64 (f : float64) | CStr (s : bytes) | CTime (t : Z).

(** Both values of one type; values of different types are all equal. *)
Definition compareComparables (a b : comparable) : Z :=
  match a, b with
  | CInt64 x, CInt64 y => order (x <? y) (y <? x)
  | CFloat64 x, CFloat64 y => orderF x y
  | CStr x, CStr y => order (sltb x y) (sltb y x)
  | CTime x, CTime y => order (x <? y) (y <? x)
  | _, _ => 0
  end.

(** ** Partitions *)

(** Of a bound [None] is MAXVALUE. *)
Record PartitionDef : Type := mkPartitionDef { pd_Name : bytes; pd_Bound : option iface }.
Record PartitionSpec : Type := mkPartitionSpec { ps_Type : string; ps_Columns : list bytes; ps_Partitions : list PartitionDef; ps_NumParts : Z }.

Record Partition : Type := mkPartition { p_Name : bytes; p_TableName : bytes; p_Bound : option iface }.
Record PartitionedTable : Type := mkPartitionedTable { Spec : PartitionSpec; Schema : TableSchema; Partitions : list Partition }.

Definition underscore : byte := Byte.x5f.

Definition hashPartition (name : bytes) (i : nat) : Partition :=
  let part := Byte.x70 :: FormatInt (Z.of_nat i) in mkPartition part (name ++ underscore :: part) None.

Definition NewPartitionedTable (name : bytes) (columns : TableSchema) (spec : PartitionSpec) : PartitionedTable :=
  mkPartitionedTable spec columns
    match ps_Type spec with
    | "RANGE"%string => (λ d, mkPartition (pd_Name d) (name ++ underscore :: pd_Name d) (pd_Bound d)) <$> ps_Partitions spec
    | "HASH"%string => hashPartition name <$> seq 0 (Z.to_nat (if ps_NumParts spec <=? 0 then 1 else ps_NumParts spec))
    | _ => []
    end.

(** [hash/fnv]: FNV-1a of 32 bits. *)
Definition fnv32a (s : bytes) : Z := foldl (λ h b, u32 (Z.lxor h (byte.unsigned b) * 16777619)) 2166136261 s.

Inductive route_error : Type := ErrKeyColumn | ErrShortRow | ErrNoPartition | ErrPartitionType.

Section Partition.
(** [fmt.Sprintf("%v", v)], of a value and of an instant; [strings.ToLower]. *)
Context (sprint : iface → bytes) (sprintTime : Z → bytes) (ToLower : bytes → bytes).

Definition ofString (s : bytes) : comparable := match parseDate s with Some t => CTime t | None => CStr s end.

Definition valueToComparable (v : iface) : comparable :=
  match v with IString s => ofString s | IInt z => CInt64 z | IFloat f => CFloat64 f | _ => CStr (sprint v) end.

(** [valueToComparable] of a value that is one already. *)
Definition again (c : comparable) : comparable := match c with CStr s => ofString s | _ => c end.

Definition compareValues (a b : iface) : Z := compareComparables (valueToComparable a) (valueToComparable b).
Definition compareAgain (a b : comparable) : Z := compareComparables (again a) (again b).

(** *** Where a row goes *)

Fixpoint keyIndex (i : nat) (columns : TableSchema) (key : bytes) : option nat :=
  match columns with
  | [] => None
  | col :: columns => if bool_decide (ToLower col = key) then Some i else keyIndex (S i) columns key
  end.

Definition findKeyColumnIndex (pt : PartitionedTable) : option nat :=
  match ps_Columns (Spec pt) with [] => None | c :: _ => keyIndex 0 (Schema pt) (ToLower c) end.

(** The value of the key; without a key column the message itself panics. *)
Definition keyValue (pt : PartitionedTable) (row : list iface) : outcome route_error iface :=
  match findKeyColumnIndex pt with
  | None => match ps_Columns (Spec pt) with [] => Panic | _ => Err ErrKeyColumn end
  | Some i => match row !! i with Some v => Ok v | None => Err ErrShortRow end
  end.

Fixpoint rangeLoop (val : iface) (parts : list Partition) : outcome route_error bytes :=
  match parts with
  | [] => Err ErrNoPartition
  | p :: parts =>
      match p_Bound p with
      | None => Ok (p_TableName p)
      | Some bound => if compareValues val bound <? 0 then Ok (p_TableName p) else rangeLoop val parts
      end
  end.

Definition findRangePartition (pt : PartitionedTable) (row : list iface) : outcome route_error bytes :=
  val ← keyValue pt row; rangeLoop val (Partitions pt).

(** The partition of a printed key; without partitions the remainder panics. *)
Definition hashed (pt : PartitionedTable) (printed : bytes) : option Partition :=
  let n := u32 (Z.of_nat (length (Partitions pt))) in
  if n =? 0 then None else Partitions pt !! Z.to_nat (fnv32a printed mod n).

Definition findHashPartition (pt : PartitionedTable) (row : list iface) : outcome route_error bytes :=
  val ← keyValue pt row; must (p_TableName <$> hashed pt (sprint val)).

Definition InsertRoute (pt : PartitionedTable) (row : list iface) : outcome route_error bytes :=
  match ps_Type (Spec pt) with
  | "RANGE"%string => findRangePartition pt row
  | "HASH"%string => findHashPartition pt row
  | _ => Err ErrPartitionType
  end.

(** *** Which partitions to read *)

Abbreviation comparison_ := (string * comparable)%type.

Definition isKey (pt : PartitionedTable) (name : bytes) : bool :=
  match ps_Columns (Spec pt) with [] => false | c :: _ => bool_decide (ToLower name = ToLower c) end.

Definition literalValue (expr : Expression) : option iface := match expr with EValue v => Some (ParserValueToRaw v) | _ => None end.

(** The value and whether the key is on the left. *)
Definition matchKeyColumn (pt : PartitionedTable) (left right : Expression) : option (iface * bool) :=
  match (match left with EColumnRef name _ => if isKey pt name then literalValue right else None | _ => None end) with
  | Some val => Some (val, true)
  | None =>
      match right with
      | EColumnRef name _ => if isKey pt name then (λ val, (val, false)) <$> literalValue left else None
      | _ => None
      end
  end.

Definition checkBinaryComparison (pt : PartitionedTable) (left : Expression) (op : string) (right : Expression) : list comparison_ :=
  match matchKeyColumn pt left right with Some (val, true) => [(op, valueToComparable val)] | _ => [] end.

(** An empty list is [nil]: nothing to go by. *)
Fixpoint extractComparisons (pt : PartitionedTable) (expr : Expression) : list comparison_ :=
  match expr with
  | EBinary ENil _ _ | EBinary _ _ ENil => []
  | EBinary e1 op e2 => if isComparison op then checkBinaryComparison pt e1 op e2 else []
  | EAnd e1 e2 =>
      match extractComparisons pt e1, extractComparisons pt e2 with
      | [], _ | _, [] => []
      | l, r => l ++ r
      end
  | _ => []
  end.

Definition rangeOverlapsComp (lower upper : option comparable) (c : comparison_) : bool :=
  let '(op, val) := c in
  match op with
  | "="%string =>
      if from_option (λ u, 0 <=? compareAgain val u) false upper then false
      else negb (from_option (λ l, compareAgain val l <? 0) false lower)
  | "<"%string => negb (from_option (λ l, 0 <=? compareAgain l val) false lower)
  | "<="%string => negb (from_option (λ l, 0 <? compareAgain l val) false lower)
  | ">"%string => negb (from_option (λ u, compareAgain u val <=? 0) false upper)
  | ">="%string => negb (from_option (λ u, compareAgain u val <=? 0) false upper)
  | _ => true
  end.

(** Every partition with the bound of the one before it. *)
Fixpoint applyComparison (before : option comparable) (mask : list bool) (bounds : list (option comparable)) (c : comparison_) : list bool :=
  match mask, bounds with
  | m :: mask, b :: bounds => (if (m : bool) then rangeOverlapsComp before b c else false) :: applyComparison b mask bounds c
  | _, _ => []
  end.

Definition boundsOf (pt : PartitionedTable) : list (option comparable) := (λ p, valueToComparable <$> p_Bound p) <$> Partitions pt.

Definition candidateMask (pt : PartitionedTable) (comps : list comparison_) : list bool :=
  foldl (λ mask c, applyComparison None mask (boundsOf pt) c) (replicate (length (Partitions pt)) true) comps.

Fixpoint kept (mask : list bool) (parts : list Partition) : list Partition :=
  match mask, parts with
  | m :: mask, p :: parts => if (m : bool) then p :: kept mask parts else kept mask parts
  | _, _ => []
  end.

Definition pruneRange (pt : PartitionedTable) (where_ : Expression) : list Partition :=
  match extractComparisons pt where_ with
  | [] => Partitions pt
  | comps => match kept (candidateMask pt comps) (Partitions pt) with [] => Partitions pt | result => result end
  end.

Definition sprintComparable (c : comparable) : bytes :=
  match c with CInt64 z => sprint (IInt z) | CFloat64 f => sprint (IFloat f) | CStr s => s | CTime t => sprintTime t end.

Fixpoint hashLoop (pt : PartitionedTable) (comps : list comparison_) : outcome route_error (list Partition) :=
  match comps with
  | [] => Ok (Partitions pt)
  | (op, val) :: comps =>
      if bool_decide (op = "="%string) then p ← must (hashed pt (sprintComparable val)); Ok [p] else hashLoop pt comps
  end.

Definition pruneHash (pt : PartitionedTable) (where_ : Expression) : outcome route_error (list Partition) :=
  hashLoop pt (extractComparisons pt where_).

Definition PrunePartitions (pt : PartitionedTable) (where_ : Expression) : outcome route_error (list Partition) :=
  match where_ with
  | ENil => Ok (Partitions pt)
  | _ =>
      match ps_Type (Spec pt) with
      | "RANGE"%string => Ok (pruneRange pt where_)
      | "HASH"%string => pruneHash pt where_
      | _ => Ok (Partitions pt)
      end
  end.

(** ** INSERT and SELECT *)

(** The tables of the storage engine, by name. *)
Abbreviation tables := (gmap bytes (list (list iface))).

Definition InsertRows (t : bytes) (rows : list (list iface)) (ts : tables) : option tables :=
  match ts !! t with Some old => Some (<[t := old ++ rows]> ts) | None => None end.

Fixpoint routesLoop (pt : PartitionedTable) (routes : gmap bytes (list (list iface))) (rows : list (list iface))
    : outcome route_error (gmap bytes (list (list iface))) :=
  match rows with
  | [] => Ok routes
  | row :: rows =>
      target ← InsertRoute pt row;
      routesLoop pt (<[target := default [] (routes !! target) ++ [row]]> routes) rows
  end.

Fixpoint insertRoutes (routes : list (bytes * list (list iface))) (ts : tables) : tables * bool :=
  match routes with
  | [] => (ts, true)
  | (target, rows) :: routes => match InsertRows target rows ts with Some ts => insertRoutes routes ts | None => (ts, false) end
  end.

(** [iter] is the order in which Go visits a map. *)
Definition executePartitionedInsert (iter : gmap bytes (list (list iface)) → list (bytes * list (list iface)))
    (pt : PartitionedTable) (rows : list (list iface)) (ts : tables) : tables * outcome route_error bool :=
  match routesLoop pt ∅ rows with
  | Ok routes => let '(ts, ok) := insertRoutes (iter routes) ts in (ts, Ok ok)
  | Err e => (ts, Err e)
  | Panic => (ts, Panic)
  end.

Definition readPartitions (parts : list Partition) (ts : tables) : list (list iface) :=
  concat ((λ p, default [] (ts !! p_TableName p)) <$> parts).

Fixpoint filterLoop (EvalExpr : list iface → eres bool) (rows : list (list iface)) : eres (list (list iface)) :=
  match rows with
  | [] => Ok []
  | row :: rows => ok ← EvalExpr row; filtered ← filterLoop EvalExpr rows; Ok (if (ok : bool) then row :: filtered else filtered)
  end.

(** The rows of the partitions that are left, and of these the ones the clause accepts. *)
Definition executePartitionedSelect (EvalExpr : Expression → list iface → eres bool) (pt : PartitionedTable) (where_ : Expression) (ts : tables)
    : outcome route_error (eres (list (list iface))) :=
  parts ← PrunePartitions pt where_;
  let allRows := readPartitions parts ts in
  Ok match where_ with ENil => Ok allRows | _ => filterLoop (EvalExpr where_) allRows end.
End Partition.

(** ** Dates in their order *)

Lemma bytesCompare_app s s' t t' :
  length s = length s' → bytesCompare (s ++ t) (s' ++ t') = match bytesCompare s s' with Eq => bytesCompare t t' | c => c end.
Proof.
  revert s'. induction s as [|x s IH]; intros [|y s'] Hl; try done. cbn. injection Hl as Hl.
  destruct (byte.unsigned x ?= byte.unsigned y); [by apply IH|done..].
Qed.

Lemma digits_compare s t a b x y :
  length s = length t → parseDigits a s = Some x → parseDigits b t = Some y →
  match a ?= b with Eq => bytesCompare s t | c => c end = (x ?= y).
Proof.
  revert t a b. induction s as [|c s IH]; intros [|d t] a b Hl; try done; cbn.
  { intros [= <-] [= <-]. by destruct (a ?= b). }
  destruct (isDigitByte c) eqn:Ec; [|done]. destruct (isDigitByte d) eqn:Ed; [|done]. injection Hl as Hl. intros Hx Hy.
  rewrite <- (IH t _ _ Hl Hx Hy). unfold isDigitByte in Ec, Ed.
  destruct (Z.compare_spec a b), (Z.compare_spec (byte.unsigned c) (byte.unsigned d)),
    (Z.compare_spec (10 * a + (byte.unsigned c - 48)) (10 * b + (byte.unsigned d - 48))); try done; lia.
Qed.

Lemma parseUint_compare s t x y :
  length s = length t → parseUint s = Some x → parseUint t = Some y → bytesCompare s t = (x ?= y).
Proof.
  destruct s as [|c s], t as [|d t]; try done. intros Hl Hx Hy. exact (digits_compare (c :: s) (d :: t) 0 0 x y Hl Hx Hy).
Qed.

Lemma daysIn_bound m y : daysIn m y <= 31.
Proof. unfold daysIn. repeat case_match; lia. Qed.

(** A date is three numbers between dashes. *)
Lemma parseDate_parts s t :
  parseDate s = Some t → ∃ ys ms ds y m d, s = ys ++ [dash] ++ ms ++ [dash] ++ ds ∧ length ys = 4%nat ∧ length ms = 2%nat ∧ length ds = 2%nat ∧
    parseUint ys = Some y ∧ parseUint ms = Some m ∧ parseUint ds = Some d ∧ 1 <= m <= 12 ∧ 1 <= d <= 31 ∧ t = 512 * y + 32 * m + d.
Proof.
  unfold parseDate. destruct (Nat.eqb_spec (length s) 10) as [Hl|]; [|done]. cbn [andb].
  do 10 (destruct s as [|? s]; [done|]). destruct s; [|done]. cbn [lookup list_lookup take drop].
  case_bool_decide as H4; [|done]. case_bool_decide as H7; [|done]. cbn [andb]. injection H4 as ->. injection H7 as ->.
  destruct (parseUint [_; _; _; _]) as [y|] eqn:Ey; [|done]. cbn [mbind option_bind].
  destruct (parseUint [b4; b5]) as [m|] eqn:Em; [|done]. cbn [mbind option_bind].
  destruct (parseUint [b7; b8]) as [d|] eqn:Ed; [|done]. cbn [mbind option_bind].
  pose proof (daysIn_bound m y). destruct (1 <=? m) eqn:E1; [|done]. destruct (m <=? 12) eqn:E2; [|done].
  destruct (1 <=? d) eqn:E3; [|done]. destruct (d <=? daysIn m y) eqn:E4; [|done]. cbn [andb]. intros [= <-].
  exists [b; b0; b1; b2], [b4; b5], [b7; b8], y, m, d. split_and!; try done; lia.
Qed.

Lemma parseDate_compare s s' t t' : parseDate s = Some t → parseDate s' = Some t' → bytesCompare s s' = (t ?= t').
Proof.
  intros (ys & ms & ds & y & m & d & -> & L1 & L2 & L3 & Py & Pm & Pd & Hm & Hd & ->)%parseDate_parts
    (ys' & ms' & ds' & y' & m' & d' & -> & L1' & L2' & L3' & Py' & Pm' & Pd' & Hm' & Hd' & ->)%parseDate_parts.
  rewrite !bytesCompare_app by congruence. change (bytesCompare [dash] [dash]) with Eq. cbv iota.
  rewrite (parseUint_compare ys ys' y y'), (parseUint_compare ms ms' m m'), (parseUint_compare ds ds' d d') by congruence.
  destruct (Z.compare_spec y y'), (Z.compare_spec m m'), (Z.compare_spec d d'), (Z.compare_spec (512 * y + 32 * m + d) (512 * y' + 32 * m' + d'));
    try done; lia.
Qed.

(** ** Keys of one type *)

(** The types of keys; of texts those that are dates and those that are not. *)
Inductive keyKind : Type := KeyInt | KeyFloat | KeyText | KeyDate.

Inductive keyedAs : keyKind → iface → Prop :=
| keyedInt z : keyedAs KeyInt (IInt z)
| keyedFloat f : isNaN f = false → keyedAs KeyFloat (IFloat f)
| keyedText s : parseDate s = None → keyedAs KeyText (IString s)
| keyedDate s t : parseDate s = Some t → keyedAs KeyDate (IString s).

(** What an operator says of a three-way result. *)
Definition opHolds (op : string) (c : Z) : bool :=
  match op with
  | "="%string => c =? 0 | "!="%string => negb (c =? 0) | "<"%string => c <? 0
  | ">"%string => 0 <? c | "<="%string => c <=? 0 | ">="%string => 0 <=? c | _ => false
  end.

Lemma order_int x y : order (x <? y) (y <? x) = match x ?= y with Lt => -1 | Eq => 0 | Gt => 1 end.
Proof. unfold order. destruct (Z.ltb_spec x y), (Z.ltb_spec y x), (Z.compare_spec x y); done || lia. Qed.

Lemma orderF_cmp x y :
  isNaN x = false → isNaN y = false → ∃ c, SFcompare x y = Some c ∧ orderF x y = match c with Lt => -1 | Eq => 0 | Gt => 1 end.
Proof.
  intros Hx Hy. destruct (SFcompare_total x y Hx Hy) as [c Ec]. exists c. split; [done|].
  unfold orderF, order, fltb, SFltb. rewrite (SFcompare_sym x y), Ec. by destruct c.
Qed.

Lemma bytesCompare_Eq x y : bytesCompare x y = Eq ↔ x = y.
Proof.
  revert y. induction x as [|c x IH]; intros [|d y]; try done. cbn. destruct (Z.compare_spec (byte.unsigned c) (byte.unsigned d)) as [E|E|E].
  - apply byte.unsigned_inj in E as ->. rewrite IH. split; congruence.
  - split; [done|]. intros [= -> ->]. lia.
  - split; [done|]. intros [= -> ->]. lia.
Qed.

Lemma compareString_op x y op :
  op ∈ ["="; "!="; "<"; ">"; "<="; ">="]%string → compareString x y op = opHolds op (order (sltb x y) (sltb y x)).
Proof.
  intros Hop. rewrite order_sltb. pose proof (bytesCompare_Eq x y) as He. pose proof (bytesCompare_antisym x y) as Hs.
  repeat (apply elem_of_cons in Hop as [->|Hop]); try (by apply elem_of_nil in Hop); cbn; unfold sltb, sleb; rewrite ?Hs;
    try (by destruct (bytesCompare x y)).
  all: case_bool_decide as E; destruct (bytesCompare x y); try done; exfalso; first [apply E; by apply He|by apply He in E].
Qed.

Lemma compareComparables_antisym a b : compareComparables b a = - compareComparables a b.
Proof.
  destruct a as [x|x|x|x], b as [y|y|y|y]; try done; cbn.
  - rewrite !order_int, (Z.compare_antisym x y). by destruct (x ?= y).
  - apply orderF_antisym.
  - rewrite !order_sltb, (bytesCompare_antisym x y). by destruct (bytesCompare x y).
  - rewrite !order_int, (Z.compare_antisym x y). by destruct (x ?= y).
Qed.

Section Keys.
Context (sprint : iface → bytes).
Abbreviation toKey := (valueToComparable sprint).
Abbreviation cmp := (compareValues sprint).

Lemma compareValues_antisym a b : cmp b a = - cmp a b.
Proof. apply compareComparables_antisym. Qed.

Lemma compareValues_trans k a b c :
  keyedAs k a → keyedAs k b → keyedAs k c → cmp a b <= 0 → cmp b c <= 0 → cmp a c <= 0.
Proof.
  unfold compareValues. intros Ha Hb Hc. destruct Ha as [x|x Hx|x Hx|x tx Hx]; inversion Hb as [y|y Hy|y Hy|y ty Hy]; subst;
    inversion Hc as [z|z Hz|z Hz|z tz Hz]; subst; cbn; unfold ofString; rewrite ?Hx, ?Hy, ?Hz; cbn.
  - rewrite !order_int. destruct (Z.compare_spec x y), (Z.compare_spec y z), (Z.compare_spec x z); lia.
  - rewrite !orderF_le by done. by apply SFcompare_le_trans.
  - rewrite !order_sltb. pose proof (bytesCompare_le_trans x y z) as H.
    destruct (bytesCompare x y), (bytesCompare y z), (bytesCompare x z); cbn; intros; first [lia|exfalso; by apply H].
  - rewrite !order_int. destruct (Z.compare_spec tx ty), (Z.compare_spec ty tz), (Z.compare_spec tx tz); lia.
Qed.

(** The executor and the partitions compare keys alike. *)
Lemma CompareValues_keyed ParseFloat k a b op :
  keyedAs k a → keyedAs k b → isComparison op = true → CompareValues ParseFloat a b op = Ok (opHolds op (cmp a b)).
Proof.
  intros Ha Hb Hop. apply isComparison_cases in Hop. unfold compareValues.
  destruct Ha as [x|x Hx|x Hx|x tx Hx]; inversion Hb as [y|y Hy|y Hy|y ty Hy]; subst; unfold CompareValues; cbn; unfold ofString;
    rewrite ?Hx, ?Hy; cbn.
  - rewrite order_int. repeat (apply elem_of_cons in Hop as [->|Hop]); try (by apply elem_of_nil in Hop);
      cbn; f_equal; destruct (Z.compare_spec x y); bcase; cbn; done || lia.
  - destruct (orderF_cmp x y Hx Hy) as (c & Ec & ->). pose proof (SFcompare_sym x y) as Es. rewrite Ec in Es.
    repeat (apply elem_of_cons in Hop as [->|Hop]); try (by apply elem_of_nil in Hop);
      cbn; unfold feqb, fltb, fleb, SFeqb, SFltb, SFleb; rewrite ?Ec, ?Es; by destruct c.
  - f_equal. by apply compareString_op.
  - rewrite compareString_op, order_sltb, order_int, (parseDate_compare x y tx ty) by done. by destruct (tx ?= ty).
Qed.

(** ** Partitions that are left out *)

Lemma again_keyed k v : keyedAs k v → again (toKey v) = toKey v.
Proof. intros []; cbn; unfold ofString; try done; by rewrite H; cbn; unfold ofString; rewrite ?H. Qed.

(** A partition between two bounds that holds [v] is not left out by a comparison that [v] satisfies. *)
Lemma overlaps_sound k v l op lower upper :
  keyedAs k v → keyedAs k l → isComparison op = true → opHolds op (cmp v l) = true →
  (∀ b, upper = Some b → keyedAs k b ∧ cmp v b < 0) →
  (∀ b, lower = Some b → keyedAs k b ∧ 0 <= cmp v b) →
  rangeOverlapsComp (toKey <$> lower) (toKey <$> upper) (op, toKey l) = true.
Proof.
  intros Hv Hl Hc Hop Hup Hlo.
  assert (∀ b, keyedAs k b → compareAgain (toKey l) (toKey b) = cmp l b ∧
    compareAgain (toKey b) (toKey l) = cmp b l) as Hag.
  { intros b Hb. unfold compareAgain. by rewrite (again_keyed k l Hl), (again_keyed k b Hb). }
  assert (∀ b, upper = Some b → 0 <= cmp v l → cmp l b < 0) as Hu.
  { intros b (Hb & Hvb)%Hup Hvl. pose proof (compareValues_trans k b l v Hb Hl Hv) as Ht.
    pose proof (compareValues_antisym v b). pose proof (compareValues_antisym v l). pose proof (compareValues_antisym l b). lia. }
  assert (∀ b, lower = Some b → cmp v l <= 0 → cmp b l <= 0) as Hw.
  { intros b (Hb & Hvb)%Hlo Hvl. pose proof (compareValues_trans k b v l Hb Hv Hl) as Ht. pose proof (compareValues_antisym v b). lia. }
  assert (∀ b, lower = Some b → cmp v l < 0 → cmp b l < 0) as Hws.
  { intros b (Hb & Hvb)%Hlo Hvl. pose proof (compareValues_trans k l b v Hl Hb Hv) as Ht.
    pose proof (compareValues_antisym v b). pose proof (compareValues_antisym v l). pose proof (compareValues_antisym l b). lia. }
  assert (∀ b, upper = Some b → keyedAs k b) as Ku by (by intros b []%Hup).
  assert (∀ b, lower = Some b → keyedAs k b) as Kl by (by intros b []%Hlo).
  apply isComparison_cases in Hc. unfold rangeOverlapsComp.
  repeat (apply elem_of_cons in Hc as [->|Hc]); try (by apply elem_of_nil in Hc); cbn in Hop |- *; try done;
    destruct lower as [w|], upper as [u|]; cbn [fmap option_fmap option_map from_option]; try done.
  all: try pose proof (Hag _ (Kl _ eq_refl)) as [Lw Rw]; try pose proof (Hag _ (Ku _ eq_refl)) as [Lu Ru];
    try specialize (Hw _ eq_refl); try specialize (Hws _ eq_refl); try specialize (Hu _ eq_refl); rewrite ?Lw, ?Rw, ?Lu, ?Ru;
    try pose proof (compareValues_antisym w l); try pose proof (compareValues_antisym u l); bcase; cbn; done || lia.
Qed.

(** *** The partition of a row *)

Lemma rangeLoop_spec v parts t :
  rangeLoop sprint v parts = Ok t →
  ∃ i p, parts !! i = Some p ∧ p_TableName p = t ∧ (∀ b, p_Bound p = Some b → cmp v b < 0) ∧
    ∀ j q b, (j < i)%nat → parts !! j = Some q → p_Bound q = Some b → 0 <= cmp v b.
Proof.
  induction parts as [|p parts IH]; cbn; [done|]. destruct (p_Bound p) as [b|] eqn:Eb.
  - destruct (Z.ltb_spec (cmp v b) 0).
    + intros [= <-]. exists O, p. split_and!; [done|done| |intros; lia]. intros b' Hb'. congruence.
    + intros (i & q & Hi & Ht & Hq & Hj)%IH. exists (S i), q. split_and!; [done..|]. intros [|j] q' b' Hlt Hq' Hb'.
      * cbn in Hq'. injection Hq' as <-. congruence.
      * apply (Hj j q' b'); [lia|done|done].
  - intros [= <-]. exists O, p. split_and!; [done|done| |intros; lia]. intros b' Hb'. congruence.
Qed.

Lemma applyComparison_length before mask bounds c :
  length mask = length bounds → length (applyComparison before mask bounds c) = length bounds.
Proof. revert before bounds. induction mask as [|m mask IH]; intros before [|b bounds] H; try done. cbn. f_equal. apply IH. by injection H. Qed.

Lemma applyComparison_lookup before mask bounds c i b :
  mask !! i = Some true → bounds !! i = Some b →
  rangeOverlapsComp (match i with O => before | S j => default None (bounds !! j) end) b c = true →
  applyComparison before mask bounds c !! i = Some true.
Proof.
  revert before bounds i. induction mask as [|m mask IH]; intros before [|b' bounds] [|i] Hm Hb Ho; try done; cbn in *.
  - injection Hm as ->. injection Hb as ->. by rewrite Ho.
  - apply IH; [done|done|]. by destruct i.
Qed.

Lemma mask_keeps bounds comps i b mask :
  length mask = length bounds → mask !! i = Some true → bounds !! i = Some b →
  (∀ c, c ∈ comps → rangeOverlapsComp (match i with O => None | S j => default None (bounds !! j) end) b c = true) →
  foldl (λ mask c, applyComparison None mask bounds c) mask comps !! i = Some true.
Proof.
  intros Hl Hm Hb. revert mask Hl Hm. induction comps as [|c comps IH]; intros mask Hl Hm Hc; [done|]. cbn. apply IH.
  - by apply applyComparison_length.
  - apply (applyComparison_lookup _ _ _ _ _ b); [done|done|]. apply Hc. by left.
  - intros c' Hin. apply Hc. by right.
Qed.

Lemma kept_elem mask parts i p : mask !! i = Some true → parts !! i = Some p → p ∈ kept mask parts.
Proof.
  revert parts i. induction mask as [|m mask IH]; intros [|q parts] [|i] Hm Hp; try done; cbn in *.
  - injection Hm as ->. injection Hp as ->. by left.
  - destruct m; [right|]; by apply (IH _ i).
Qed.

Lemma kept_sublist mask parts : kept mask parts `sublist_of` parts.
Proof. revert parts. induction mask as [|[] mask IH]; intros [|q parts]; cbn; try apply sublist_nil_l; by constructor. Qed.
End Keys.

(** ** Reading only the partitions that are left *)

(** The literals that the clause compares with the key. *)
Fixpoint keyLiterals (ToLower : bytes → bytes) (pt : PartitionedTable) (k : keyKind) (e : Expression) : Prop :=
  match e with
  | EBinary (EColumnRef name _) _ (EValue l) => isKey ToLower pt name = true → keyedAs k (ParserValueToRaw l)
  | EAnd e1 e2 => keyLiterals ToLower pt k e1 ∧ keyLiterals ToLower pt k e2
  | _ => True
  end.

(** A partitioned table whose key has the type [k]; of hashed keys the numbers and the texts that are not dates are printed alike as values and
    as literals. *)
Record keyedTable (ToLower : bytes → bytes) (pt : PartitionedTable) (k : keyKind) (j : nat) : Prop := {
  kt_schema : plainSchema (Schema pt);
  kt_names : Forall isAscii (ps_Columns (Spec pt));
  kt_key : findKeyColumnIndex ToLower pt = Some j;
  kt_type : (ps_Type (Spec pt) = "RANGE"%string ∧ ∀ p b, p ∈ Partitions pt → p_Bound p = Some b → keyedAs k b) ∨
    (ps_Type (Spec pt) = "HASH"%string ∧ (k = KeyInt ∨ k = KeyText) ∧ 0 < Z.of_nat (length (Partitions pt)) < 2 ^ 32);
  kt_tables : NoDup (p_TableName <$> Partitions pt) }.

Section Pruning.
Context (ToLower : bytes → bytes) (EqualFold : bytes → bytes → bool) `{!AsciiCase ToLower EqualFold}.
Context (sprint : iface → bytes) (sprintTime : Z → bytes) (sprint_string : ∀ s, sprint (IString s) = s).
Context (ParseFloat : bytes → option Z) (outOfRange : float64 → Z) (rest : iface → iface → string → eres iface).
Context (evalOperator : string → iface → iface → eres iface) (evalNode : nat → list iface → eres iface).
Context (ctx : option ExecutionContext) (pt : PartitionedTable) (k : keyKind) (j : nat) (Hpt : keyedTable ToLower pt k j).
Context (Hctx : selectCtx (ToLower := ToLower) (Schema pt) ctx).

Abbreviation EvalExpr := (λ e row, evalExpr ParseFloat outOfRange ToLower EqualFold rest evalOperator evalNode row (Schema pt) ctx e).
Abbreviation route := (InsertRoute sprint ToLower pt).
Abbreviation prune := (PrunePartitions sprint sprintTime ToLower pt).

Lemma keyIndex_spec i columns key n :
  keyIndex ToLower i columns key = Some n → ∃ m col, n = (i + m)%nat ∧ columns !! m = Some col ∧ ToLower col = key.
Proof.
  revert i. induction columns as [|c columns IH]; intros i; cbn; [done|]. case_bool_decide.
  - intros [= <-]. exists O, c. split_and!; [lia|done|done].
  - intros (m & col & -> & Hm & Hc)%IH. exists (S m), col. split_and!; [lia|done|done].
Qed.

(** The key column, by whatever name the clause has for it. *)
Lemma key_column row name table v :
  isKey ToLower pt name = true → plainName name → isAscii table → row !! j = Some v →
  evalColumn ToLower EqualFold ctx row (Schema pt) name table = Ok v.
Proof.
  intros Hk Hn Ht Hv. destruct Hpt as [Hs Hna Hj _ _]. unfold isKey, findKeyColumnIndex in *.
  destruct (ps_Columns (Spec pt)) as [|c cs]; [done|]. apply bool_decide_eq_true in Hk. apply Forall_cons in Hna as [Hc _].
  apply keyIndex_spec in Hj as (m & col & -> & Hm & Hcol). apply (evalColumn_found _ _ _ _ _ m); try done.
  exists col. split; [done|]. assert (isAscii col) by (destruct Hs as [Hs _]; by apply (Forall_lookup_1 _ _ _ _ Hs Hm)).
  rewrite <- !ToLower_ascii by (done || apply Hn). congruence.
Qed.

Lemma EvalExpr_and e1 e2 row : EvalExpr (EAnd e1 e2) row = Ok true → EvalExpr e1 row = Ok true ∧ EvalExpr e2 row = Ok true.
Proof.
  intros He. change (EvalExpr (EAnd e1 e2) row) with
    (val ← (l ← EvalExpr e1 row; r ← EvalExpr e2 row; @Ok eval_error iface (IBool (l && r))); asBool val) in He.
  destruct (EvalExpr e1 row) as [l| |]; [|done..]. destruct (EvalExpr e2 row) as [r| |]; [|done..]. cbn in He.
  injection He as He. by apply andb_true_iff in He as [-> ->].
Qed.

(** What the clause says of the key is true of the rows it accepts. *)
Lemma extract_sound row v e c :
  row !! j = Some v → plainRefs e → keyLiterals ToLower pt k e → EvalExpr e row = Ok true → c ∈ extractComparisons sprint ToLower pt e →
  ∃ op l, c = (op, valueToComparable sprint l) ∧ isComparison op = true ∧ keyedAs k l ∧ CompareValues ParseFloat v l op = Ok true.
Proof.
  intros Hv. revert c. induction e as [| | |e1 IH1 op e2 IH2|e1 IH1 e2 IH2| | |]; intros c Hr Hl He Hin; try by apply elem_of_nil in Hin.
  - assert (c ∈ (if isComparison op then checkBinaryComparison sprint ToLower pt e1 op e2 else [])) as Hin'.
    { cbn in Hin. by destruct e1, e2; try by apply elem_of_nil in Hin. }
    clear Hin IH1 IH2. destruct (isComparison op) eqn:Eop; [|by apply elem_of_nil in Hin']. unfold checkBinaryComparison, matchKeyColumn in Hin'.
    destruct e1 as [| |name table| | | | |]; try (by repeat case_match; try done; by apply elem_of_nil in Hin').
    destruct e2 as [|l| | | | | |]; try (by repeat case_match; try done; by apply elem_of_nil in Hin').
    cbn in Hl. destruct (isKey ToLower pt name) eqn:Ek; cbn in Hin'; [|by apply elem_of_nil in Hin'].
    apply list_elem_of_singleton in Hin' as ->. exists op, (ParserValueToRaw l). split_and!; [done|done|by apply Hl|].
    destruct Hr as [[Hn Ht] _]. cbn in He. rewrite (key_column row name table v Ek Hn Ht Hv) in He. cbn in He. rewrite Eop in He.
    destruct (CompareValues _ _ _ _) as [b| |]; cbn in He; [|done..]. by destruct b.
  - apply EvalExpr_and in He as [He1 He2]. destruct Hr as [Hr1 Hr2], Hl as [Hl1 Hl2].
    assert (c ∈ extractComparisons sprint ToLower pt e1 ++ extractComparisons sprint ToLower pt e2) as [H|H]%elem_of_app.
    { cbn in Hin. destruct (extractComparisons sprint ToLower pt e1), (extractComparisons sprint ToLower pt e2); done || by apply elem_of_nil in Hin. }
    + by apply IH1.
    + by apply IH2.
Qed.

Lemma key_value row t : route row = Ok t → ∃ v, row !! j = Some v ∧ keyValue ToLower pt row = Ok v.
Proof.
  unfold InsertRoute, findRangePartition, findHashPartition, keyValue. rewrite (kt_key _ _ _ _ Hpt).
  destruct (kt_type _ _ _ _ Hpt) as [[-> _]|[-> _]]; cbn; destruct (row !! j) as [v|]; try done; by exists v.
Qed.

Lemma hashed_some printed : ps_Type (Spec pt) = "HASH"%string → ∃ p, hashed pt printed = Some p ∧ p ∈ Partitions pt.
Proof.
  intros Ht. destruct (kt_type _ _ _ _ Hpt) as [[Ht' _]|(_ & _ & Hn)]; [congruence|]. unfold hashed. rewrite u32_small by lia. zbool.
  destruct (lookup_lt_is_Some_2 (Partitions pt) (Z.to_nat (fnv32a printed mod Z.of_nat (length (Partitions pt))))) as [p Hp].
  { apply Nat2Z.inj_lt. rewrite Z2Nat.id by (apply Z.mod_pos_bound; lia). apply Z.mod_pos_bound. lia. }
  exists p. split; [done|]. by apply list_elem_of_lookup_2 in Hp.
Qed.

(** Keys that are equal are printed alike. *)
Lemma hashed_equal v l :
  ps_Type (Spec pt) = "HASH"%string → keyedAs k v → keyedAs k l → CompareValues ParseFloat v l "=" = Ok true →
  sprintComparable sprint sprintTime (valueToComparable sprint l) = sprint v.
Proof.
  intros Ht Hv Hl Hc. destruct (kt_type _ _ _ _ Hpt) as [[Ht' _]|(_ & Hk & _)]; [congruence|].
  destruct Hk as [Hk|Hk]; rewrite Hk in *; inversion Hv; inversion Hl; subst; cbn in Hc |- *; injection Hc as Hc.
  - by apply Z.eqb_eq in Hc as ->.
  - apply bool_decide_eq_true in Hc as ->. unfold ofString. match goal with H : parseDate _ = None |- _ => rewrite H end. by rewrite sprint_string.
Qed.

Lemma pruneRange_sound row v e t :
  ps_Type (Spec pt) = "RANGE"%string → row !! j = Some v → keyedAs k v → plainRefs e → keyLiterals ToLower pt k e →
  rangeLoop sprint v (Partitions pt) = Ok t → EvalExpr e row = Ok true → ∃ p, p ∈ pruneRange sprint ToLower pt e ∧ p_TableName p = t.
Proof.
  intros Ht Hv Hkv Hr Hl (i & p & Hi & <- & Hup & Hlo)%rangeLoop_spec He. exists p. split; [|done]. unfold pruneRange.
  pose proof (extract_sound row v e) as Hx. destruct (extractComparisons sprint ToLower pt e) as [|c0 comps]; [by apply list_elem_of_lookup_2 in Hi|].
  assert (p ∈ kept (candidateMask sprint pt (c0 :: comps)) (Partitions pt)) as Hin; [|destruct (kept _ (Partitions pt)); [by apply elem_of_nil in Hin|done]].
  apply (kept_elem _ _ i); [|done].
  destruct (kt_type _ _ _ _ Hpt) as [[_ Hb]|[Ht' _]]; [|congruence].
  assert (boundsOf sprint pt !! i = Some (valueToComparable sprint <$> p_Bound p)) as Hbi by (unfold boundsOf; by rewrite list_lookup_fmap, Hi).
  apply (mask_keeps _ _ _ (valueToComparable sprint <$> p_Bound p)); [|apply lookup_replicate_2; by apply lookup_lt_Some in Hi|done|].
  { unfold boundsOf. by rewrite length_replicate, length_fmap. }
  intros c Hin. destruct (Hx c Hv Hr Hl He Hin) as (op & l & -> & Hop & Hkl & Hc).
  rewrite (CompareValues_keyed sprint ParseFloat k) in Hc by done. apply Ok_inj in Hc.
  assert (∃ lo, (match i with O => None | S j => default None (boundsOf sprint pt !! j) end = valueToComparable sprint <$> lo) ∧
    ∀ b, lo = Some b → keyedAs k b ∧ 0 <= compareValues sprint v b) as (lo & -> & Hlo').
  { destruct i as [|i]; [by exists None|]. unfold boundsOf. rewrite list_lookup_fmap.
    destruct (Partitions pt !! i) as [q|] eqn:Eq; [|by exists None]. exists (p_Bound q). split; [done|]. intros b Hbq.
    split; [|apply (Hlo i q b); [lia|done|done]]. apply (Hb q b); [by apply list_elem_of_lookup_2 in Eq|done]. }
  apply (overlaps_sound sprint k v l); try done. intros b Hpb. split; [|by apply Hup].
  apply (Hb p b); [by apply list_elem_of_lookup_2 in Hi|done].
Qed.


(** A missing clause leaves all. *)
Lemma PrunePartitions_eq e :
  prune e = match ps_Type (Spec pt) with
    | "RANGE"%string => Ok (pruneRange sprint ToLower pt e)
    | "HASH"%string => pruneHash sprint sprintTime ToLower pt e
    | _ => Ok (Partitions pt)
    end.
Proof. destruct e; try done. cbn. unfold pruneRange, pruneHash. cbn. by repeat case_match. Qed.

(** Every row that the clause accepts is in a partition that is left. *)
Lemma prune_sound row t e :
  route row = Ok t → (∀ v, row !! j = Some v → keyedAs k v) → plainRefs e → keyLiterals ToLower pt k e →
  EvalExpr e row = Ok true → ∃ parts p, prune e = Ok parts ∧ p ∈ parts ∧ p_TableName p = t.
Proof.
  intros Ht Hkey Hr Hl He. destruct (key_value row t Ht) as (v & Hv & Hkv). specialize (Hkey v Hv).
  unfold InsertRoute, findRangePartition, findHashPartition in Ht. rewrite Hkv in Ht.
  pose proof (extract_sound row v e) as Hx. rewrite PrunePartitions_eq.
  destruct (kt_type _ _ _ _ Hpt) as [[Ety Hb]|(Ety & Hk & Hn)]; rewrite Ety in *; cbn [mbind outcome_bind] in Ht.
  - destruct (pruneRange_sound row v e t Ety Hv Hkey Hr Hl Ht He) as (q & Hq & Eq). by exists (pruneRange sprint ToLower pt e), q.
  - destruct (hashed_some (sprint v) Ety) as (p & Ep & Hp). rewrite Ep in Ht. injection Ht as <-.
    assert (∃ parts, pruneHash sprint sprintTime ToLower pt e = Ok parts ∧ p ∈ parts) as (parts & Epr & Hin).
    { unfold pruneHash. specialize (λ c, Hx c Hv Hr Hl He). clear Hr Hl He.
      induction (extractComparisons sprint ToLower pt e) as [|c comps IH]; [by exists (Partitions pt)|]. cbn.
      destruct (Hx c ltac:(by left)) as (op & l & -> & Hop & Hkl & Hc). case_bool_decide as Eop; [subst op|].
      - rewrite (hashed_equal v l Ety Hkey Hkl Hc), Ep. exists [p]. split; [done|]. by apply list_elem_of_singleton.
      - apply IH. intros c' Hc'. apply Hx. by right. }
    by exists parts, p.
Qed.


(** ** A partitioned table is one table *)

Definition routed (t : bytes) (row : list iface) : Prop := route row = Ok t.

#[export] Instance routed_dec t row : Decision (routed t row).
Proof. unfold routed. destruct (route row) as [t'| |]; [|by right..]. destruct (decide (t' = t)) as [->|]; [by left|right; congruence]. Defined.

Context (iter : gmap bytes (list (list iface)) → list (bytes * list (list iface))) (iter_perm : ∀ m, iter m ≡ₚ map_to_list m).

(** The tables after CREATE TABLE and INSERTs, with the rows that were inserted. *)
Inductive inserted : gmap bytes (list (list iface)) → list (list iface) → Prop :=
| created ts : (∀ p, p ∈ Partitions pt → ts !! p_TableName p = Some []) → inserted ts []
| inserts ts ts' rows new :
    inserted ts rows → executePartitionedInsert sprint ToLower iter pt new ts = (ts', Ok true) → inserted ts' (rows ++ new).

Lemma routesLoop_spec routes rows routes' :
  routesLoop sprint ToLower pt routes rows = Ok routes' →
  (∀ t, default [] (routes' !! t) = default [] (routes !! t) ++ filter (routed t) rows) ∧ ∀ row, row ∈ rows → ∃ t, routed t row.
Proof.
  revert routes. induction rows as [|row rows IH]; intros routes; cbn [routesLoop].
  { intros [= <-]. split; [intros t; by rewrite app_nil_r|]. by intros row ?%elem_of_nil. }
  destruct (route row) as [target| |] eqn:Er; [|done..]. cbn [mbind outcome_bind]. intros [Hm Hr]%IH. split.
  - intros t. rewrite Hm, filter_cons. destruct (decide (target = t)) as [->|Hne].
    + rewrite lookup_insert_eq, decide_True by done. cbn. by rewrite <- app_assoc.
    + rewrite lookup_insert_ne by done. rewrite decide_False; [done|]. unfold routed. congruence.
  - intros r [->|Hin]%elem_of_cons; [by exists target|by apply Hr].
Qed.

Lemma insertRoutes_spec l ts ts' t old :
  NoDup l.*1 → insertRoutes l ts = (ts', true) → ts !! t = Some old →
  ts' !! t = Some (old ++ default [] ((list_to_map l : gmap bytes (list (list iface))) !! t)).
Proof.
  revert ts old. induction l as [|[u rows] l IH]; intros ts old Hnd; cbn.
  { intros [= <-] Ho. by rewrite Ho, app_nil_r. }
  apply NoDup_cons in Hnd as [Hu Hnd]. unfold InsertRows. destruct (ts !! u) as [o|] eqn:Eu; [|done]. intros Hl Ho.
  destruct (decide (u = t)) as [->|Hne].
  - rewrite Ho in Eu. injection Eu as <-. rewrite (IH _ (old ++ rows) Hnd Hl) by apply lookup_insert_eq.
    rewrite lookup_insert_eq, not_elem_of_list_to_map_1 by done. cbn. by rewrite app_nil_r.
  - rewrite (IH _ old Hnd Hl) by (by rewrite lookup_insert_ne). by rewrite lookup_insert_ne.
Qed.

(** Every partition holds the rows that are routed to it, in the order of their insertion. *)
Lemma inserted_placed ts rows :
  inserted ts rows →
  (∀ p, p ∈ Partitions pt → ts !! p_TableName p = Some (filter (routed (p_TableName p)) rows)) ∧ ∀ row, row ∈ rows → ∃ t, routed t row.
Proof.
  induction 1 as [ts Hc|ts ts' rows new _ [IH IHr] Hi].
  { split; [intros p Hp; by rewrite (Hc p Hp)|]. by intros row ?%elem_of_nil. }
  unfold executePartitionedInsert in Hi. destruct (routesLoop _ _ _ _ _) as [routes| |] eqn:Er; [|done..].
  destruct (insertRoutes (iter routes) ts) as [ts1 ok] eqn:El. injection Hi as -> ->. apply routesLoop_spec in Er as [Hm Hr].
  assert (NoDup (iter routes).*1) as Hnd by (rewrite iter_perm; apply NoDup_fst_map_to_list).
  split.
  - intros p Hp. rewrite (insertRoutes_spec _ _ _ _ _ Hnd El (IH p Hp)), filter_app.
    rewrite (list_to_map_proper _ (map_to_list routes)), list_to_map_to_list by done. by rewrite Hm, lookup_empty.
  - intros row [Hin|Hin]%elem_of_app; auto.
Qed.

(** Rows that satisfy one of several tests of which no two hold together. *)
Lemma concat_filter names rows :
  NoDup names → concat ((λ t, filter (routed t) rows) <$> names) ≡ₚ filter (λ row, Exists (λ t, routed t row) names) rows.
Proof.
  induction names as [|t names IH]; intros Hnd; cbn [fmap list_fmap concat].
  { induction rows as [|row rows IHr]; [done|]. rewrite filter_cons, decide_False; [done|]. by intros ?%Exists_nil. }
  apply NoDup_cons in Hnd as [Hn Hnd]. rewrite (IH Hnd). clear IH. induction rows as [|row rows IHr]; [done|]. rewrite !filter_cons.
  destruct (decide (routed t row)) as [Ht|Ht].
  - rewrite (decide_True (P := Exists _ (t :: names))) by (by left). rewrite decide_False; [by cbn; f_equiv|].
    intros (u & Hu & Hru)%Exists_exists. unfold routed in *. rewrite Ht in Hru. injection Hru as ->. done.
  - destruct (decide (Exists (λ u, routed u row) names)) as [He|He].
    + rewrite (decide_True (P := Exists _ (t :: names))) by (by right). by rewrite <- Permutation_middle, IHr.
    + rewrite (decide_False (P := Exists _ (t :: names))); [done|]. by intros [?|?]%Exists_cons.
Qed.

Lemma filterLoop_spec E rows keep :
  (∀ row, row ∈ rows → E row = Ok (keep row)) → filterLoop E rows = Ok (filter (λ row, keep row = true) rows).
Proof.
  induction rows as [|row rows IH]; intros H; [done|]. cbn [filterLoop]. rewrite (H row) by (by left). cbn [mbind outcome_bind].
  rewrite IH by (intros; apply H; by right). cbn [mbind outcome_bind]. rewrite filter_cons. by destruct (keep row).
Qed.

Lemma prune_parts e : ∃ parts, prune e = Ok parts ∧ NoDup (p_TableName <$> parts) ∧ parts ⊆ Partitions pt.
Proof.
  rewrite PrunePartitions_eq. pose proof (kt_tables _ _ _ _ Hpt) as Hnd. destruct (kt_type _ _ _ _ Hpt) as [[-> _]|[Ety _]].
  - eexists. split; [done|]. assert (pruneRange sprint ToLower pt e `sublist_of` Partitions pt) as Hs.
    { unfold pruneRange. destruct (extractComparisons _ _ _ _) as [|c l]; [done|]. pose proof (kept_sublist (candidateMask sprint pt (c :: l)) (Partitions pt)).
      by destruct (kept _ _). }
    split; [|intros p Hp; by eapply elem_of_sublist]. eapply sublist_NoDup; [exact Hnd|]. by apply fmap_sublist.
  - rewrite Ety. unfold pruneHash. induction (extractComparisons sprint ToLower pt e) as [|[op val] comps IH]; [by eexists|]. cbn.
    case_bool_decide; [|done]. destruct (hashed_some (sprintComparable sprint sprintTime val) Ety) as (p & -> & Hp).
    exists [p]. split_and!; [done|apply NoDup_singleton|]. by intros q ->%list_elem_of_singleton.
Qed.
End Pruning.


(** ** Samples *)

Definition sampleSpec : PartitionSpec :=
  mkPartitionSpec "RANGE" [str "ID"] [mkPartitionDef (str "low") (Some (IInt 10)); mkPartitionDef (str "high") None] 0.
Definition sampleTable : PartitionedTable := NewPartitionedTable (str "t") [str "id"; str "name"] sampleSpec.
Definition rangeClause : Expression := EBinary (EColumnRef (str "id") []) "<" (EValue (mkLit tInt 7 (S754_zero false) [] false)).
Definition sampleInserted : list (list iface) := [[IInt 15; IString (str "x")]; [IInt 5; IString (str "y")]; [IInt 8; INil]].
Definition sampleTables : gmap bytes (list (list iface)) := <[str "t_low" := []]> (<[str "t_high" := []]> ∅).
Definition sampleEval (e : Expression) (row : list iface) : eres bool :=
  evalExpr (λ _, None) (λ _, 0) lower foldAscii (λ _ _ _, Err ErrTypeMismatch) (λ _ _ _, Err ErrUnknownOperator)
    (λ _ _, Err ErrUnsupportedExpression) row (Schema sampleTable) None e.
Definition sampleSprint (v : iface) : bytes := match v with IString s => s | IInt z => FormatInt z | _ => [] end.


(** ** What partitions get wrong *)

(** The bounds of a table made by SQL are expressions, not values: no row with an integer key has a partition below MAXVALUE. *)
Example sql_bounds_unused sprint z v :
  InsertRoute sprint lower (NewPartitionedTable (str "t") [str "id"]
    (mkPartitionSpec "RANGE" [str "id"] [mkPartitionDef (str "low") (Some (IOther v))] 0)) [IInt z] = Err ErrNoPartition.
Proof. reflexivity. Qed.

(** A date is hashed as a text when it is inserted and as an instant when it is looked for. *)
Example hashed_dates :
  let pt := NewPartitionedTable (str "t") [str "d"] (mkPartitionSpec "HASH" [str "d"] [] 4) in
  let instant := str "2024-01-01 00:00:00 +0000 UTC" in
  InsertRoute sampleSprint lower pt [IString (str "2024-01-01")] = Ok (str "t_p1") ∧
  PrunePartitions sampleSprint (λ _, instant) lower pt (EBinary (EColumnRef (str "d") []) "=" (EValue (mkLit tString 0 (S754_zero false) (str "2024-01-01") false)))
  = Ok [hashPartition (str "t") 0].
Proof. split; vm_compute; reflexivity. Qed.

(** An integer literal and a bound that is a float are equal to each other and to everything: the partition of the row is left out. *)
Example mixed_numbers_pruned :
  let pt := NewPartitionedTable (str "t") [str "f"]
    (mkPartitionSpec "RANGE" [str "f"] [mkPartitionDef (str "low") (Some (IFloat (fromInt 10))); mkPartitionDef (str "high") None] 0) in
  InsertRoute sampleSprint lower pt [IFloat (fromInt 5)] = Ok (str "t_low") ∧
  (p_TableName <$> pruneRange sampleSprint lower pt (EBinary (EColumnRef (str "f") []) "=" (EValue (mkLit tInt 5 (S754_zero false) [] false)))) =
  [str "t_high"].
Proof. split; vm_compute; reflexivity. Qed.
