(* ===== verification/Auth.v ===== *)
(** * Authentication

    [server/internal/auth/manager.go]: the tokens and their revocation, with the
    file that survives a restart; the roles; the limiter of failed attempts; and
    the middleware in front of the handlers.  Guessing tokens is slow, and a
    revoked token stays revoked.

    Time is in nanoseconds.  Every operation holds its mutex, so the operations
    are steps of a sequence; [time.Now] is an argument. *)

From S2P Require Import Prelude Bytes.

(** ** The limiter of failed attempts *)

Record authRateLimiter : Type := mkLimiter {
  attempts : gmap bytes (list Z); blocked : gmap bytes Z; window : Z; maxFails : Z; blockFor : Z; lastSweep : Z }.

Definition second : Z := 1000000000.

Definition orDefault (n d : Z) : Z := if n <=? 0 then d else n.

Definition newAuthRateLimiter (windowSec maxFails blockForSec now : Z) : authRateLimiter :=
  mkLimiter ∅ ∅ (orDefault windowSec 60 * second) (orDefault maxFails 10) (orDefault blockForSec 300 * second) now.

Definition setAttempts (a : gmap bytes (list Z)) (rl : authRateLimiter) : authRateLimiter :=
  mkLimiter a (blocked rl) (window rl) (maxFails rl) (blockFor rl) (lastSweep rl).
Definition setBlocked (b : gmap bytes Z) (rl : authRateLimiter) : authRateLimiter :=
  mkLimiter (attempts rl) b (window rl) (maxFails rl) (blockFor rl) (lastSweep rl).

(** The last attempt is outside the window. *)
Definition stale (cutoff : Z) (ts : list Z) : bool := match last ts with None => true | Some t => t <=? cutoff end.

Definition sweepLocked (now : Z) (rl : authRateLimiter) : authRateLimiter :=
  if now - lastSweep rl <? window rl then rl
  else
    let blocked := filter (λ e, now <= snd e) (blocked rl) in
    let cutoff := now - window rl in
    let attempts := filter (λ e, is_Some (blocked !! fst e) ∨ stale cutoff (snd e) = false) (attempts rl) in
    mkLimiter attempts blocked (window rl) (maxFails rl) (blockFor rl) now.

Definition recordFailure (ip : bytes) (now : Z) (rl : authRateLimiter) : authRateLimiter :=
  let rl := sweepLocked now rl in
  let cutoff := now - window rl in
  let filtered := filter (λ t, cutoff < t) (default [] (attempts rl !! ip) ++ [now]) in
  let rl := setAttempts (<[ip := filtered]> (attempts rl)) rl in
  if maxFails rl <=? Z.of_nat (length filtered) then setBlocked (<[ip := now + blockFor rl]> (blocked rl)) rl else rl.

(** The clock is read for the sweep and for the test. *)
Definition isBlocked (ip : bytes) (now1 now2 : Z) (rl : authRateLimiter) : authRateLimiter * bool :=
  let rl := sweepLocked now1 rl in
  match blocked rl !! ip with
  | None => (rl, false)
  | Some until =>
      if until <? now2 then (setBlocked (delete ip (blocked rl)) (setAttempts (delete ip (attempts rl)) rl), false)
      else (rl, true)
  end.

(** ** Tokens *)

Record TokenInfo : Type := mkInfo { Hash : bytes; Label : bytes; Role : bytes }.

Record Manager : Type := mkManager {
  enabled : bool; localhostBypass : bool; tokens : gmap bytes TokenInfo; revoked : gmap bytes Z; static : gset bytes;
  dataDir : bool; rateLim : authRateLimiter }.

Definition setTokens (ts : gmap bytes TokenInfo) (m : Manager) : Manager :=
  mkManager (enabled m) (localhostBypass m) ts (revoked m) (static m) (dataDir m) (rateLim m).
Definition setRevoked (r : gmap bytes Z) (m : Manager) : Manager :=
  mkManager (enabled m) (localhostBypass m) (tokens m) r (static m) (dataDir m) (rateLim m).
Definition setStatic (s : gset bytes) (m : Manager) : Manager :=
  mkManager (enabled m) (localhostBypass m) (tokens m) (revoked m) s (dataDir m) (rateLim m).
Definition setDir (d : bool) (m : Manager) : Manager :=
  mkManager (enabled m) (localhostBypass m) (tokens m) (revoked m) (static m) d (rateLim m).
Definition setRateLim (rl : authRateLimiter) (m : Manager) : Manager :=
  mkManager (enabled m) (localhostBypass m) (tokens m) (revoked m) (static m) (dataDir m) rl.

(** What is in the file of revoked tokens, [None] when there is no file. *)
Abbreviation revokedFile := (option (gmap bytes Z)).

Definition admin : bytes := str "admin".

Definition rolePermissions : list (bytes * list bytes) :=
  [(admin, [str "*"]);
   (str "writer", str <$> ["SELECT"; "INSERT"; "UPDATE"; "DELETE"; "CREATE TABLE"; "DROP TABLE"; "CREATE INDEX"; "DROP INDEX"; "COPY FROM";
      "COPY TO"; "CREATE VIEW"; "DROP VIEW"; "CREATE TRIGGER"; "DROP TRIGGER"; "ALTER TABLE"; "TRUNCATE"; "MERGE"]%string);
   (str "reader", str <$> ["SELECT"; "EXPLAIN"]%string)].

Definition permissionsOf (role : bytes) : option (list bytes) := snd <$> find (λ e, bool_decide (fst e = role)) rolePermissions.

Section Manager.
(** HMAC-SHA256 with the secret of the server, in hexadecimal; [strings.EqualFold]. *)
Context (hashToken : bytes → bytes) (EqualFold : bytes → bytes → bool).

Definition NewWithCollector (enabled : bool) (config : list (bytes * bytes)) (rateWindowSec maxFails blockForSec now : Z) : Manager :=
  mkManager enabled true (list_to_map ((λ '(token, label), (hashToken token, mkInfo (hashToken token) label admin)) <$> config)) ∅
    (list_to_set ((λ e, hashToken (fst e)) <$> config)) false (newAuthRateLimiter rateWindowSec maxFails blockForSec now).

(** [writes] tells whether the directory can be made and the file written and renamed: the file is replaced as a whole or not at all. *)
Definition SaveRevoked (writes : bool) (m : Manager) (file : revokedFile) : revokedFile :=
  if dataDir m && writes then Some (revoked m) else file.

Definition RevokeToken (token : bytes) (now : Z) (writes : bool) (m : Manager) (file : revokedFile) : Manager * revokedFile :=
  let hash := hashToken token in
  let m := setTokens (delete hash (tokens m)) (setRevoked (<[hash := now]> (revoked m)) m) in
  (m, SaveRevoked writes m file).

Definition IsRevoked (token : bytes) (m : Manager) : bool := bool_decide (is_Some (revoked m !! hashToken token)).

(** [reads] tells whether the file can be read and parsed. *)
Definition LoadRevoked (reads : bool) (m : Manager) (file : revokedFile) : Manager :=
  match file with
  | Some entries =>
      if dataDir m && reads then setTokens (filter (λ e, entries !! fst e = None) (tokens m)) (setRevoked (entries ∪ revoked m) m) else m
  | None => m
  end.

Definition SetDataDir (dir : bool) (reads : bool) (m : Manager) (file : revokedFile) : Manager :=
  let m := setDir dir m in if dir then LoadRevoked reads m file else m.

Definition day : Z := 24 * 3600 * second.

Definition purgeExpiredRevokedTokens (now : Z) (writes : bool) (m : Manager) (file : revokedFile) : Manager * revokedFile :=
  let m := setRevoked (filter (λ e, fst e ∈ static m ∨ is_Some (tokens m !! fst e) ∨ now - snd e <= day) (revoked m)) m in
  (m, SaveRevoked writes m file).

Definition orAdmin (role : bytes) : bytes := if bool_decide (role = []) then admin else role.

Definition AddToken (token label role : bytes) (m : Manager) : Manager :=
  let hash := hashToken token in
  setTokens (<[hash := mkInfo hash label (orAdmin role)]> (tokens m)) (setStatic ({[hash]} ∪ static m) m).

(** [token] is the random token. *)
Definition GenerateToken (token label role : bytes) (m : Manager) : Manager :=
  let hash := hashToken token in setTokens (<[hash := mkInfo hash label (orAdmin role)]> (tokens m)) m.

(** The loop over all hashes finds the one entry with this hash. *)
Definition lookupValid (token : bytes) (m : Manager) : option TokenInfo :=
  match tokens m !! hashToken token with
  | None => None
  | Some matched => if bool_decide (is_Some (revoked m !! Hash matched)) then None else Some matched
  end.

Definition ValidateToken (token : bytes) (m : Manager) : bool :=
  if negb (enabled m) then true
  else if bool_decide (token = []) then false
  else bool_decide (is_Some (lookupValid token m)).

Definition GetTokenRole (token : bytes) (m : Manager) : bytes :=
  if negb (enabled m) then admin else match tokens m !! hashToken token with Some info => Role info | None => [] end.

Definition GetLabel (token : bytes) (m : Manager) : bytes :=
  match tokens m !! hashToken token with Some info => Label info | None => str "unknown" end.

(** [grants] is the provider of grants: of a role, the privileges on the object [*]; [None] when there is no provider or it fails. *)
Definition CheckPermission (grants : bytes → option (list bytes)) (token operation : bytes) (m : Manager) : bool :=
  if negb (enabled m) then true
  else
    let role := GetTokenRole token m in
    if from_option (existsb (λ p, bool_decide (p = str "ALL") || EqualFold p operation)) false (grants role) then true
    else from_option (existsb (λ p, bool_decide (p = str "*") || EqualFold p operation)) false (permissionsOf role).

(** ** The middleware *)

Record request : Type := mkRequest { ip : bytes; authorization : bytes; tokenHeader : bytes }.

Inductive response : Type := Next (identity : option (bytes * TokenInfo)) | TooManyRequests | Unauthorized.

Definition bearer : bytes := str "Bearer ".

Definition tokenFromRequest (r : request) : bytes :=
  if bool_decide (take (length bearer) (authorization r) = bearer) then drop (length bearer) (authorization r) else tokenHeader r.

Definition isLocalhost (ip : bytes) : bool := bool_decide (ip ∈ str <$> ["127.0.0.1"; "::1"; "localhost"]%string).

(** The clock is read by the sweep, by the test and by the record of a failure. *)
Definition Middleware (r : request) (now1 now2 now3 : Z) (m : Manager) : Manager * response :=
  if negb (enabled m) then (m, Next None)
  else if localhostBypass m && isLocalhost (ip r) then (m, Next None)
  else
    let '(rl, isBlocked) := isBlocked (ip r) now1 now2 (rateLim m) in
    let m := setRateLim rl m in
    if isBlocked then (m, TooManyRequests)
    else
      let token := tokenFromRequest r in
      match (if bool_decide (token = []) then None else lookupValid token m) with
      | Some info => (m, Next (Some (token, info)))
      | None => (setRateLim (recordFailure (ip r) now3 (rateLim m)) m, Unauthorized)
      end.
End Manager.

(** ** Failed attempts are bounded *)

Section Limiter.
Context (W MF B : Z) (HW : 0 < W) (HB : W <= B) (HMF : 1 <= MF).

Definition after (t : Z) (x : Z) : Prop := t < x.
#[local] Instance after_dec t x : Decision (after t x) := decide (t < x).

Definition recent (t : Z) (F : list Z) : list Z := filter (after (t - W)) F.

(** What the limiter knows of an address that failed at the times [F], up to [now]. *)
Record tracks (rl : authRateLimiter) (addr : bytes) (F : list Z) (now : Z) : Prop := {
  tr_window : window rl = W; tr_max : maxFails rl = MF; tr_block : blockFor rl = B;
  tr_past : ∀ f, last F = Some f → f <= now ∧ Forall (λ x, x <= f) F;
  tr_attempts : ∀ t, now <= t → recent t (default [] (attempts rl !! addr)) = recent t F;
  tr_last : ∀ y, last (default [] (attempts rl !! addr)) = Some y → Forall (λ x, x <= y) (default [] (attempts rl !! addr));
  tr_blocked : ∀ f, last F = Some f → MF <= Z.of_nat (length (recent f F)) → now <= f + B → blocked rl !! addr = Some (f + B);
  tr_reason : ∀ u, blocked rl !! addr = Some u → ∃ f, last F = Some f ∧ u = f + B ∧ MF <= Z.of_nat (length (recent f F)) }.

Lemma recent_none t F : Forall (λ x, x <= t - W) F → recent t F = [].
Proof.
  intros HF. unfold recent. induction HF as [|x F Hx HF IH]; [done|]. rewrite filter_cons, decide_False; [done|]. unfold after. lia.
Qed.

Lemma recent_app t F G : recent t (F ++ G) = recent t F ++ recent t G.
Proof. apply filter_app. Qed.

Lemma recent_sub t t' F : t <= t' → (length (recent t' F) <= length (recent t F))%nat.
Proof.
  intros Ht. unfold recent. induction F as [|x F IH]; [done|]. rewrite !filter_cons. unfold after in *.
  destruct (decide (t' - W < x)); [rewrite decide_True by lia; cbn; lia|]. destruct (decide (t - W < x)); cbn; lia.
Qed.

Lemma tracks_later rl addr F now t : tracks rl addr F now → now <= t → tracks rl addr F t.
Proof.
  intros [H1 H2 H3 H4 H5 H6 H7 H8] Ht. split; try done.
  - intros f Hf. destruct (H4 f Hf). split; [lia|done].
  - intros t' Ht'. apply H5. lia.
  - intros f Hf Hl Hb. apply H7; [done|done|lia].
Qed.

Lemma tracks_sweep rl addr F now : tracks rl addr F now → tracks (sweepLocked now rl) addr F now.
Proof.
  intros Htr. pose proof Htr as [H1 H2 H3 H4 H5 H6 H7 H8]. unfold sweepLocked. destruct (now - lastSweep rl <? window rl); [done|].
  set (bl := filter (λ e : bytes * Z, now <= snd e) (blocked rl)).
  assert (∀ u, bl !! addr = Some u ↔ blocked rl !! addr = Some u ∧ now <= u) as Hbl by (intros u; unfold bl; by rewrite map_lookup_filter_Some).
  split; cbn [window maxFails blockFor blocked attempts]; try done.
  - intros t Ht. specialize (H5 t Ht). rewrite map_lookup_filter.
    destruct (attempts rl !! addr) as [l|] eqn:El; [|exact H5]. cbn [mbind option_bind]. case_guard as Hg; [exact H5|].
    rewrite <- H5. cbn. symmetry.
    apply recent_none. assert (stale (now - window rl) l = true) as Hs.
    { cbn in Hg. destruct (stale _ l) eqn:E; [done|]. exfalso. apply Hg. by right. }
    unfold stale in Hs. destruct (last l) as [y|] eqn:Ey; [|by destruct l as [|? ? _] using rev_ind; [constructor|rewrite last_snoc in Ey]].
    eapply Forall_impl; [exact (H6 y Ey)|]. cbn. lia.
  - intros y. rewrite map_lookup_filter. destruct (attempts rl !! addr) as [l|] eqn:El; [|done]. cbn [mbind option_bind].
    case_guard; [exact (H6 y)|done].
  - intros f Hf Hl Hb. apply Hbl. split; [by apply H7|done].
  - intros u [Hu _]%Hbl. by apply H8.
Qed.

(** Without a block that still holds, fewer than the limit failed within the window. *)
Lemma few_recent rl addr F now t :
  tracks rl addr F now → (∀ u, blocked rl !! addr = Some u → u < now) → now <= t → Z.of_nat (length (recent t F)) < MF.
Proof.
  intros [H1 H2 H3 H4 H5 H6 H7 H8] Hu Ht. destruct (Z.lt_ge_cases (Z.of_nat (length (recent t F))) MF) as [?|Hge]; [done|]. exfalso.
  destruct (recent t F) as [|x l] eqn:Er; [cbn in Hge; lia|].
  assert (x ∈ recent t F) as [Hx HxF]%list_elem_of_filter by (rewrite Er; by left). unfold after in Hx.
  destruct (last F) as [f|] eqn:Ef; [|by apply last_None in Ef as ->; apply elem_of_nil in HxF].
  destruct (H4 f eq_refl) as [Hf HF]. rewrite Forall_forall in HF. specialize (HF x HxF).
  pose proof (recent_sub f t F ltac:(lia)) as Hs. rewrite Er in Hs.
  specialize (H7 f eq_refl ltac:(lia) ltac:(lia)). apply Hu in H7. lia.
Qed.

Lemma tracks_isBlocked rl addr F now1 now2 rl' b :
  tracks rl addr F now1 → now1 <= now2 → isBlocked addr now1 now2 rl = (rl', b) →
  tracks rl' addr F now2 ∧
  (b = false → blocked rl' !! addr = None ∧ ∀ t, now2 <= t → Z.of_nat (length (recent t F)) < MF) ∧
  (b = true → ∃ f, last F = Some f ∧ now2 <= f + B ∧ MF <= Z.of_nat (length (recent f F))).
Proof.
  intros Htr%tracks_sweep Hn. unfold isBlocked. revert Htr. generalize (sweepLocked now1 rl). clear rl. intros rl Htr.
  apply (tracks_later _ _ _ _ now2) in Htr; [|done]. pose proof (few_recent rl addr F now2) as Hfew.
  pose proof Htr as [H1 H2 H3 H4 H5 H6 H7 H8]. destruct (blocked rl !! addr) as [u|] eqn:Eu.
  2: { intros [= <- <-]. split_and!; [done| |done]. intros _. split; [done|]. intros t Ht. by apply Hfew. }
  destruct (H8 u eq_refl) as (f & Ef & -> & Hl). destruct (H4 f Ef) as [Hf HF]. destruct (Z.ltb_spec (f + B) now2) as [Hlt|Hge].
  - intros [= <- <-]. split_and!; [|intros _; split|done].
    + split; cbn [window maxFails blockFor blocked attempts setBlocked setAttempts]; try done.
      * intros t Ht. rewrite lookup_delete_eq. cbn. symmetry. apply recent_none. eapply Forall_impl; [exact HF|]. cbn. lia.
      * by rewrite lookup_delete_eq.
      * intros f' Hf' _ Hb. rewrite Ef in Hf'. injection Hf' as <-. lia.
      * by rewrite lookup_delete_eq.
    + cbn. by rewrite lookup_delete_eq.
    + intros t Ht. apply Hfew; [done| |done]. intros u [= <-]. lia.
  - intros [= <- <-]. split_and!; [done|done|]. intros _. by exists f.
Qed.

Lemma tracks_isBlocked_other rl addr other F now1 now2 rl' b :
  addr ≠ other → tracks rl addr F now1 → now1 <= now2 → isBlocked other now1 now2 rl = (rl', b) → tracks rl' addr F now2.
Proof.
  intros Hne Htr%tracks_sweep Hn. unfold isBlocked. revert Htr. generalize (sweepLocked now1 rl). clear rl. intros rl Htr.
  apply (tracks_later _ _ _ _ now2) in Htr; [|done]. pose proof Htr as [H1 H2 H3 H4 H5 H6 H7 H8].
  destruct (blocked rl !! other) as [u|]; [destruct (u <? now2)|]; intros [= <- <-]; try done.
  split; cbn [window maxFails blockFor blocked attempts setBlocked setAttempts]; rewrite ?lookup_delete_ne by done; done.
Qed.

Lemma tracks_recordFailure rl addr F now :
  tracks rl addr F now → blocked rl !! addr = None → tracks (recordFailure addr now rl) addr (F ++ [now]) now.
Proof.
  intros Htr%tracks_sweep Hb. unfold recordFailure.
  assert (blocked (sweepLocked now rl) !! addr = None) as Hb'.
  { unfold sweepLocked. destruct (_ <? _); [done|]. cbn. rewrite map_lookup_filter, Hb. done. }
  revert Htr Hb'. generalize (sweepLocked now rl). clear rl Hb. intros rl [H1 H2 H3 H4 H5 H6 H7 H8] Hb.
  set (l := filter _ (default [] (attempts rl !! addr) ++ [now])).
  assert (l = recent now (F ++ [now])) as El.
  { unfold l. rewrite H1, recent_app, filter_app. f_equal. by apply H5. }
  assert (recent now (F ++ [now]) = recent now F ++ [now]) as Es.
  { rewrite recent_app. f_equal. unfold recent, after. rewrite filter_cons, decide_True by lia. done. }
  assert (∀ x, x ∈ F → x <= now) as HF.
  { intros x Hx. destruct (last F) as [f|] eqn:Ef; [|by apply last_None in Ef as ->; apply elem_of_nil in Hx].
    destruct (H4 f eq_refl) as [Hf HF]. rewrite Forall_forall in HF. specialize (HF x Hx). lia. }
  set (bl := if MF <=? Z.of_nat (length l) then <[addr := now + B]> (blocked rl) else blocked rl).
  match goal with |- tracks ?x _ _ _ => replace x with (setBlocked bl (setAttempts (<[addr := l]> (attempts rl)) rl)) by
    (unfold bl; cbn [maxFails blockFor blocked setAttempts]; rewrite H2, H3; by destruct (_ <=? _)) end.
  split; cbn [window maxFails blockFor blocked attempts setBlocked setAttempts]; try done.
  - intros f. rewrite last_snoc. intros [= <-]. split; [lia|]. apply Forall_app. split; [by apply Forall_forall|]. by repeat constructor.
  - intros t Ht. rewrite lookup_insert_eq. cbn. rewrite El. unfold recent. apply filter_implied. intros x _. unfold after. lia.
  - intros y. rewrite lookup_insert_eq. cbn. rewrite El, Es, last_snoc. intros [= <-]. apply Forall_app. split; [|by repeat constructor].
    apply Forall_forall. intros x [_ Hx]%list_elem_of_filter. by apply HF.
  - intros f. rewrite last_snoc. intros [= <-] Hl _. unfold bl. rewrite El. zbool. by rewrite lookup_insert_eq.
  - intros u. unfold bl. destruct (Z.leb_spec MF (Z.of_nat (length l))); [|by rewrite Hb]. rewrite lookup_insert_eq. intros [= <-].
    exists now. rewrite last_snoc, <- El. split_and!; [done|done|lia].
Qed.

Lemma tracks_recordFailure_other rl addr other F now :
  addr ≠ other → tracks rl addr F now → tracks (recordFailure other now rl) addr F now.
Proof.
  intros Hne Htr%tracks_sweep. unfold recordFailure. revert Htr. generalize (sweepLocked now rl). clear rl. intros rl [H1 H2 H3 H4 H5 H6 H7 H8].
  destruct (maxFails (setAttempts _ rl) <=? _);
    split; cbn [window maxFails blockFor blocked attempts setBlocked setAttempts]; rewrite ?lookup_insert_ne by done; done.
Qed.
End Limiter.

(** Requests one after another, with their times and answers; between them anything that leaves the limiter alone. *)
Inductive served (hashToken : bytes → bytes) : Manager → Z → list (bytes * Z * response) → Prop :=
| served_start m now w f b : rateLim m = newAuthRateLimiter w f b now → served hashToken m now []
| served_request m now h r t1 t2 t3 m' res :
    served hashToken m now h → now <= t1 → t1 <= t2 → t2 <= t3 → Middleware hashToken r t1 t2 t3 m = (m', res) →
    served hashToken m' t3 (h ++ [(ip r, t3, res)])
| served_other m now h m' : served hashToken m now h → rateLim m' = rateLim m → served hashToken m' now h.

(** The times at which an address was answered that its token is not valid. *)
Definition failures (addr : bytes) (h : list (bytes * Z * response)) : list Z :=
  omap (λ e, match e with (a, t, Unauthorized) => if bool_decide (a = addr) then Some t else None | _ => None end) h.

Definition between (s e x : Z) : Prop := s <= x < e.
#[export] Instance between_dec s e x : Decision (between s e x) := decide (s <= x < e).

Lemma failures_app addr h h' : failures addr (h ++ h') = failures addr h ++ failures addr h'.
Proof. apply omap_app. Qed.

Lemma failures_one addr a t res :
  failures addr [(a, t, res)] = match res with Unauthorized => if bool_decide (a = addr) then [t] else [] | _ => [] end.
Proof. unfold failures. cbn. destruct res; try done. by case_bool_decide. Qed.

(** The limits do not change. *)
Definition limits (rl : authRateLimiter) : Z * Z * Z := (window rl, maxFails rl, blockFor rl).

Lemma limits_sweep now rl : limits (sweepLocked now rl) = limits rl.
Proof. unfold sweepLocked. by destruct (_ <? _). Qed.

Lemma Middleware_limits hashToken r t1 t2 t3 m : limits (rateLim (fst (Middleware hashToken r t1 t2 t3 m))) = limits (rateLim m).
Proof.
  unfold Middleware. destruct (negb _); [done|]. destruct (_ && _); [done|].
  destruct (isBlocked (ip r) t1 t2 (rateLim m)) as [rl b] eqn:Eb.
  assert (limits rl = limits (rateLim m)) as Hl.
  { rewrite <- (limits_sweep t1 (rateLim m)). unfold isBlocked in Eb. destruct (blocked _ !! _) as [u|]; [destruct (u <? t2)|]; by injection Eb as <- <-. }
  destruct b; [done|]. destruct (if bool_decide _ then _ else _); [done|]. cbn. rewrite <- Hl, <- (limits_sweep t3 rl).
  unfold recordFailure. by destruct (_ <=? _).
Qed.

Section Requests.
Context (W MF B : Z) (HW : 0 < W) (HB : W <= B) (HMF : 1 <= MF) (hashToken : bytes → bytes).

(** One request: what the limiter knows grows by the failure, if it is one, and then the address was below the limit. *)
Lemma Middleware_tracks r t1 t2 t3 m m' res addr F now :
  tracks W MF B (rateLim m) addr F now → now <= t1 → t1 <= t2 → t2 <= t3 → Middleware hashToken r t1 t2 t3 m = (m', res) →
  tracks W MF B (rateLim m') addr (F ++ failures addr [(ip r, t3, res)]) t3 ∧
  (failures addr [(ip r, t3, res)] ≠ [] → Z.of_nat (length (recent W t3 F)) < MF) ∧
  (res = TooManyRequests → ip r = addr → ∃ f, last F = Some f ∧ t2 <= f + B ∧ MF <= Z.of_nat (length (recent W f F))).
Proof.
  intros Htr H1 H2 H3. apply (tracks_later _ _ _ _ _ _ _ t1) in Htr; [|done]. rewrite failures_one. unfold Middleware.
  assert (tracks W MF B (rateLim m) addr F t3) as Htr3 by (apply (tracks_later _ _ _ _ _ _ t1); [done|lia]).
  destruct (negb (enabled m)); [intros [= <- <-]; rewrite app_nil_r; by split_and!|].
  destruct (localhostBypass m && isLocalhost (ip r)); [intros [= <- <-]; rewrite app_nil_r; by split_and!|].
  destruct (isBlocked (ip r) t1 t2 (rateLim m)) as [rl b] eqn:Eb. destruct (decide (ip r = addr)) as [Ea|Ea].
  - rewrite Ea in *. destruct (tracks_isBlocked W MF B HB HMF _ _ _ _ _ _ _ Htr H2 Eb) as (Htr' & Hno & Hyes).
    apply (tracks_later _ _ _ _ _ _ _ t3) in Htr'; [|done]. destruct b.
    { intros [= <- <-]. rewrite app_nil_r. split_and!; [done|done|]. intros _ _. by apply Hyes. }
    destruct (Hno eq_refl) as [Hb Hc]. destruct (if bool_decide (_ = []) then _ else _) as [info|].
    { intros [= <- <-]. rewrite app_nil_r. by split_and!. }
    intros [= <- <-]. rewrite bool_decide_eq_true_2 by done. split_and!; [|intros _; by apply Hc|done]. by apply tracks_recordFailure.
  - pose proof (tracks_isBlocked_other W MF B _ addr (ip r) _ _ _ _ _ ltac:(done) Htr H2 Eb) as Htr'.
    apply (tracks_later _ _ _ _ _ _ _ t3) in Htr'; [|done]. destruct b; [intros [= <- <-]; rewrite app_nil_r; by split_and!|].
    destruct (if bool_decide (_ = []) then _ else _) as [info|]; intros [= <- <-]; rewrite ?bool_decide_eq_false_2 by done; rewrite app_nil_r;
      split_and!; try done. by apply tracks_recordFailure_other.
Qed.

Lemma count_step F t :
  (∀ s, Z.of_nat (length (filter (between s (s + W)) F)) <= MF) → Forall (λ x, x <= t) F → Z.of_nat (length (recent W t F)) < MF →
  ∀ s, Z.of_nat (length (filter (between s (s + W)) (F ++ [t]))) <= MF.
Proof.
  intros Hc HF Hr s. rewrite filter_app, length_app, filter_cons. destruct (decide (between s (s + W) t)) as [Hb|Hb]; cbn [length filter list_filter].
  2: { specialize (Hc s). rewrite Nat.add_0_r. done. }
  assert (length (filter (between s (s + W)) F) <= length (recent W t F))%nat; [|lia]. clear Hc Hr. unfold between in Hb.
  induction HF as [|x F Hx HF IH]; [done|]. unfold recent in *. rewrite !filter_cons.
  destruct (decide (between s (s + W) x)) as [Hbx|Hbx].
  - rewrite decide_True by (unfold after, between in *; lia). cbn [length]. lia.
  - destruct (decide (after (t - W) x)); cbn [length]; lia.
Qed.
End Requests.

Lemma served_tracks hashToken m now h :
  served hashToken m now h →
  ∃ W MF B, 0 < W ∧ 1 <= MF ∧ window (rateLim m) = W ∧ maxFails (rateLim m) = MF ∧ blockFor (rateLim m) = B ∧
    (W <= B → ∀ addr, tracks W MF B (rateLim m) addr (failures addr h) now ∧
      ∀ s, Z.of_nat (length (filter (between s (s + W)) (failures addr h))) <= MF).
Proof.
  induction 1 as [m now w f b Hrl|m now h r t1 t2 t3 m' res _ IH H1 H2 H3 HM|m now h m' _ IH Hrl].
  - rewrite Hrl. exists (orDefault w 60 * second), (orDefault f 10), (orDefault b 300 * second).
    assert (∀ n d, 1 <= d → 1 <= orDefault n d) as Ho by (intros n d Hd; unfold orDefault; destruct (Z.leb_spec n 0); lia).
    pose proof (Ho w 60). pose proof (Ho f 10). unfold second. split_and!; try done; try lia. intros Hle addr.
    split; [by split|]. intros s. cbn. lia.
  - destruct IH as (W & MF & B & HW & HMF & Ew & Em & Eb & IH). exists W, MF, B.
    assert (window (rateLim m') = W ∧ maxFails (rateLim m') = MF ∧ blockFor (rateLim m') = B) as (-> & -> & ->).
    { pose proof (Middleware_limits hashToken r t1 t2 t3 m) as Hl. rewrite HM in Hl. cbn in Hl. injection Hl as -> -> ->. done. }
    split_and!; try done. intros Hle addr. destruct (IH Hle addr) as [Htr Hc]. rewrite failures_app.
    destruct (Middleware_tracks W MF B HW Hle HMF hashToken r t1 t2 t3 m m' res addr _ now Htr H1 H2 H3 HM) as (Htr' & Hf & _).
    split; [done|]. rewrite failures_one in *. destruct res; rewrite ?app_nil_r; try done. case_bool_decide; [|by rewrite app_nil_r].
    apply count_step; [done| |by apply Hf]. destruct (last (failures addr h)) as [f|] eqn:Ef; [|by apply last_None in Ef as ->].
    destruct (tr_past _ _ _ _ _ _ _ Htr f Ef) as [Hfn HF]. eapply Forall_impl; [exact HF|]. cbn. lia.
  - by rewrite Hrl.
Qed.


(** ** A revoked token stays revoked *)

(** What happens to the tokens of a server, restarts included; a restart reads the configuration and the file of revoked tokens. *)
Inductive event : Type :=
| EvAdd (token label role : bytes)
| EvGenerate (token label role : bytes)
| EvRevoke (token : bytes) (now : Z) (writes : bool)
| EvPurge (now : Z) (writes : bool)
| EvSave (writes : bool)
| EvRequest (r : request) (now1 now2 now3 : Z)
| EvRestart (on : bool) (config : list (bytes * bytes)) (rateWindowSec maxFails blockForSec now : Z) (reads : bool).

Section Revocation.
Context (hashToken : bytes → bytes).

Definition happen (st : Manager * revokedFile) (e : event) : Manager * revokedFile :=
  let '(m, file) := st in
  match e with
  | EvAdd token label role => (AddToken hashToken token label role m, file)
  | EvGenerate token label role => (GenerateToken hashToken token label role m, file)
  | EvRevoke token now writes => RevokeToken hashToken token now writes m file
  | EvPurge now writes => purgeExpiredRevokedTokens now writes m file
  | EvSave writes => (m, SaveRevoked writes m file)
  | EvRequest r now1 now2 now3 => (fst (Middleware hashToken r now1 now2 now3 m), file)
  | EvRestart on config w f b now reads => (SetDataDir true reads (NewWithCollector hashToken on config w f b now) file, file)
  end.

Definition happens (st : Manager * revokedFile) (es : list event) : Manager * revokedFile := foldl happen st es.

(** The event does not register the token. *)
Definition registers (token : bytes) (e : event) : Prop :=
  match e with
  | EvAdd t _ _ | EvGenerate t _ _ => hashToken t = hashToken token
  | EvRestart _ config _ _ _ _ _ => hashToken token ∈ hashToken ∘ fst <$> config
  | _ => False
  end.

(** A restart that still has the token in its configuration and can read the file. *)
Definition restartsWith (token : bytes) (e : event) : Prop :=
  match e with EvRestart _ config _ _ _ _ reads => hashToken token ∈ hashToken ∘ fst <$> config ∧ reads = true | _ => True end.

Definition keyedByHash (m : Manager) : Prop := ∀ h info, tokens m !! h = Some info → Hash info = h.

Lemma config_tokens (config : list (bytes * bytes)) h info :
  (list_to_map ((λ '(token, label), (hashToken token, mkInfo (hashToken token) label admin)) <$> config) : gmap bytes TokenInfo) !! h = Some info →
  Hash info = h ∧ h ∈ hashToken ∘ fst <$> config.
Proof.
  intros ([token label] & [= -> ->] & Hin)%elem_of_list_to_map_2%list_elem_of_fmap. split; [done|]. apply list_elem_of_fmap. by exists (token, label).
Qed.

Lemma LoadRevoked_tokens reads m file h info : tokens (LoadRevoked reads m file) !! h = Some info → tokens m !! h = Some info.
Proof.
  unfold LoadRevoked. destruct file as [entries|]; [|done]. destruct (_ && _); [|done]. cbn. by intros [? _]%map_lookup_filter_Some.
Qed.

Lemma Middleware_tokens r t1 t2 t3 m : ∃ rl, fst (Middleware hashToken r t1 t2 t3 m) = setRateLim rl m.
Proof.
  unfold Middleware. destruct (negb _); [exists (rateLim m); by destruct m|]. destruct (_ && _); [exists (rateLim m); by destruct m|].
  destruct (isBlocked _ _ _ _) as [rl []]; [by exists rl|]. destruct (if bool_decide _ then _ else _); [by exists rl|]. by eexists.
Qed.

Lemma happen_keyed st e : keyedByHash (fst st) → keyedByHash (fst (happen st e)).
Proof.
  destruct st as [m file]. intros Hk. destruct e; cbn; try done.
  - intros h info. cbn. rewrite lookup_insert_Some. intros [[<- <-]|[_ H]]; [done|by apply Hk].
  - intros h info. cbn. rewrite lookup_insert_Some. intros [[<- <-]|[_ H]]; [done|by apply Hk].
  - intros h info. cbn. intros [_ H]%lookup_delete_Some. by apply Hk.
  - by destruct (Middleware_tokens r now1 now2 now3 m) as [rl ->].
  - intros h info H%LoadRevoked_tokens. by apply config_tokens in H as [? _].
Qed.

(** A token of the configuration: it is in the memory and in the file, and no purge takes it out. *)
Definition heldStatic (h : bytes) (st : Manager * revokedFile) : Prop :=
  h ∈ static (fst st) ∧ is_Some (revoked (fst st) !! h) ∧ ∃ entries, snd st = Some entries ∧ is_Some (entries !! h).

Lemma save_held h writes m file :
  is_Some (revoked m !! h) → (∃ entries, file = Some entries ∧ is_Some (entries !! h)) →
  ∃ entries, SaveRevoked writes m file = Some entries ∧ is_Some (entries !! h).
Proof. intros Hr Hf. unfold SaveRevoked. destruct (_ && _); [by exists (revoked m)|done]. Qed.

Lemma happen_static token st e : heldStatic (hashToken token) st → restartsWith token e → heldStatic (hashToken token) (happen st e).
Proof.
  destruct st as [m file]. intros (Hs & Hr & Hf) He. cbn in Hs, Hr, Hf. unfold heldStatic. destruct e; cbn; try done.
  - split; [set_solver|done].
  - split; [done|]. assert (is_Some (<[hashToken token0 := now]> (revoked m) !! hashToken token)) as Hr'
      by (rewrite lookup_insert_is_Some; destruct (decide (hashToken token0 = hashToken token)); auto).
    split; [done|]. by apply save_held.
  - assert (is_Some (filter (λ e, fst e ∈ static m ∨ is_Some (tokens m !! fst e) ∨ now - snd e <= day) (revoked m) !! hashToken token)) as Hr'.
    { destruct Hr as [t Ht]. exists t. apply map_lookup_filter_Some. split; [done|]. by left. }
    split; [done|]. split; [done|]. by apply save_held.
  - split; [done|]. split; [done|]. by apply save_held.
  - by destruct (Middleware_tokens r now1 now2 now3 m) as [rl ->].
  - destruct He as [Hc ->]. destruct Hf as (entries & -> & [t Ht]). cbn. split_and!; [|exists t; by apply lookup_union_Some_l|by exists entries].
    apply elem_of_list_to_set, list_elem_of_fmap. by apply list_elem_of_fmap in Hc.
Qed.

(** A token that is registered nowhere. *)
Lemma happen_unregistered token st e :
  tokens (fst st) !! hashToken token = None → ¬ registers token e → tokens (fst (happen st e)) !! hashToken token = None.
Proof.
  destruct st as [m file]. intros Hn He. destruct e; cbn in *; try done.
  - by rewrite lookup_insert_ne.
  - by rewrite lookup_insert_ne.
  - destruct (decide (hashToken token0 = hashToken token)) as [->|]; [by rewrite lookup_delete_eq|by rewrite lookup_delete_ne].
  - by destruct (Middleware_tokens r now1 now2 now3 m) as [rl ->].
  - destruct (tokens (LoadRevoked reads _ file) !! hashToken token) as [info|] eqn:E; [|done]. apply LoadRevoked_tokens, config_tokens in E as [_ ?]. done.
Qed.

Lemma happen_dir st e : dataDir (fst st) = true → dataDir (fst (happen st e)) = true.
Proof.
  destruct st as [m file]. intros Hd. destruct e; cbn; try done.
  - by destruct (Middleware_tokens r now1 now2 now3 m) as [rl ->].
  - unfold LoadRevoked. destruct file; [|done]. by destruct (_ && _).
Qed.

(** What every event keeps, any number of events keep. *)
Lemma happens_keep (I : Manager * revokedFile → Prop) (Q : event → Prop) st es :
  (∀ st e, I st → Q e → I (happen st e)) → I st → Forall Q es → I (happens st es).
Proof. intros Hstep Hi Hes. revert st Hi. induction Hes as [|e es He Hes IH]; intros st Hi; [done|]. cbn. by apply IH, Hstep. Qed.
End Revocation.


(** ** Samples *)

Definition sampleConfig : list (bytes * bytes) := [(str "secret", str "ops")].
Definition sampleStart : Manager * revokedFile := (SetDataDir true true (NewWithCollector id true sampleConfig 60 2 300 0) None, None).
Definition badRequest : request := mkRequest (str "10.0.0.1") (str "Bearer guess") [].



(** A file that cannot be read or parsed is skipped: the token of the configuration is valid again. *)
Example unreadable_file_reopens :
  is_Some (lookupValid id (str "secret")
    (fst (happens id sampleStart [EvRevoke (str "secret") 5 true; EvRestart true sampleConfig 60 2 300 10 false]))).
Proof. vm_compute. by eexists. Qed.

(** Permissions are checked without revocation: a token that is revoked and added again is refused, and still has its role. *)
Example revoked_keeps_role :
  let m := fst (happens id sampleStart [EvRevoke (str "secret") 5 true; EvAdd (str "secret") (str "ops") (str "writer")]) in
  lookupValid id (str "secret") m = None ∧ CheckPermission id (λ a b, bool_decide (a = b)) (λ _, None) (str "secret") (str "INSERT") m = true.
Proof. split; vm_compute; reflexivity. Qed.

