(* ===== verification/Spill.v ===== *)
(** * The lines of the spill file

    The codec of [server/internal/core/executor/tx_overlay.go] that
    [TxManager]'s buffer writes its operations with: an operation becomes a
    [wireOp], a tagged tree without interfaces, and that one line of JSON.  What
    a line keeps of an operation is [keep]; with it the codec is the [lineCodec]
    that the buffer of [TxManager] asks for. *)

From S2P Require Import Prelude Bytes TxManager Lexer Parser Statements.

(** ** What an operation holds *)

(** The rows of the undo information are opaque to the codec. *)
Inductive dyn {R : Type} : Type :=
| DNil
| DStmt (s : Stmt)
| DRows (rows : list R)
| DInts (l : list nat).
Arguments dyn : clear implicits.

(** ** The wire format *)

(** The elements of [Args] and [List] are not null: those of a tree are not. *)
Inductive wireExpr : Type :=
| WExpr (K Type_ : string) (I F : Z) (S : text) (B : bool) (Name Op : text) (Left Right : option wireExpr)
    (Args List : list wireExpr) (Not : bool) (Idx : Z).

Record wireInsert : Type := mkWireInsert { wi_TableName : text; wi_Columns : list text; wi_Rows : list (list wireExpr) }.
Record wireUpdate : Type := mkWireUpdate { wu_TableName : text; wu_Assignments : list (text * wireExpr); wu_Where : option wireExpr }.
Record wireDelete : Type := mkWireDelete { wd_TableName : text; wd_Where : option wireExpr }.
Record wireTruncate : Type := mkWireTruncate { wt_TableName : text }.

Record wireOp : Type := mkWireOp {
  w_Type : string; w_DB : string; w_Table : string; w_Pos : Z;
  w_Insert : option wireInsert; w_Update : option wireUpdate; w_Delete : option wireDelete; w_Truncate : option wireTruncate }.

Definition wireValue (Type_ : string) (I F : Z) (S : text) (B : bool) : wireExpr :=
  WExpr "val" Type_ I F S B [] [] None None [] [] false 0.

Definition wireNode (K : string) (Name Op : text) (Left Right : option wireExpr) (Args List : list wireExpr) (Not : bool) (Idx : Z)
    : wireExpr :=
  WExpr K "" 0 0 [] false Name Op Left Right Args List Not Idx.

Definition encodeValue (v : Value) : wireExpr :=
  match v with
  | VInt z => wireValue "int" z 0 [] false
  | VFloat f => wireValue "float" 0 f [] false
  | VString s => wireValue "string" 0 0 s false
  | VBool b => wireValue "bool" 0 0 [] b
  | VNull => wireValue "null" 0 0 [] false
  end.

Fixpoint encodeExpr (e : Expression) : option wireExpr :=
  match e with
  | EValue v => Some (encodeValue v)
  | EColumnRef name _ => Some (wireNode "col" name [] None None [] [] false 0)
  | EBinary e1 op e2 =>
      l ← encodeExpr e1; r ← encodeExpr e2; Some (wireNode "bin" [] op (Some l) (Some r) [] [] false 0)
  | EAnd e1 e2 => l ← encodeExpr e1; r ← encodeExpr e2; Some (wireNode "and" [] [] (Some l) (Some r) [] [] false 0)
  | EOr e1 e2 => l ← encodeExpr e1; r ← encodeExpr e2; Some (wireNode "or" [] [] (Some l) (Some r) [] [] false 0)
  | ENot e => l ← encodeExpr e; Some (wireNode "not" [] [] (Some l) None [] [] false 0)
  | EFunctionCall name args => args ← mapM encodeExpr args; Some (wireNode "fn" name [] None None args [] false 0)
  | EIn e not items =>
      l ← encodeExpr e; items ← mapM encodeExpr items; Some (wireNode "in" [] [] (Some l) None [] items not 0)
  | EParam index => Some (wireNode "param" [] [] None None [] [] false index)
  | _ => None
  end.

(** A [Value] of another type, which the encoder does not write, has no
    counterpart among the literals. *)
Definition decodeValue (Type_ : string) (I F : Z) (S : text) (B : bool) : option Value :=
  match Type_ with
  | "int"%string => Some (VInt I)
  | "float"%string => Some (VFloat F)
  | "string"%string => Some (VString S)
  | "bool"%string => Some (VBool B)
  | "null"%string => Some VNull
  | _ => None
  end.

(** A child that is missing, which the encoder does not write, has none either. *)
Fixpoint decodeExpr (w : wireExpr) : option Expression :=
  let '(WExpr K Type_ i f s b Name Op Left Right Args List Not Idx) := w in
  let child (c : option wireExpr) := match c with Some w => decodeExpr w | None => None end in
  match K with
  | "val"%string => EValue <$> decodeValue Type_ i f s b
  | "col"%string => Some (EColumnRef Name [])
  | "bin"%string => l ← child Left; r ← child Right; Some (EBinary l Op r)
  | "and"%string => l ← child Left; r ← child Right; Some (EAnd l r)
  | "or"%string => l ← child Left; r ← child Right; Some (EOr l r)
  | "not"%string => l ← child Left; Some (ENot l)
  | "fn"%string => args ← mapM decodeExpr Args; Some (EFunctionCall Name args)
  | "in"%string => l ← child Left; items ← mapM decodeExpr List; Some (EIn l Not items)
  | "param"%string => Some (EParam Idx)
  | _ => None
  end.

Definition encodeWhere (w : option Expression) : option (option wireExpr) :=
  match w with None => Some None | Some e => Some <$> encodeExpr e end.

Definition decodeWhere (w : option wireExpr) : option (option Expression) :=
  match w with None => Some None | Some e => Some <$> decodeExpr e end.

Definition encodeAssign (a : Assignment) : option (text * wireExpr) := v ← encodeExpr (snd a); Some (fst a, v).
Definition decodeAssign (a : text * wireExpr) : option Assignment := v ← decodeExpr (snd a); Some (fst a, v).

(** [len(s.Returning) > 0]. *)
Definition returns (returning : option SelectColumns) : bool := match returning with Some (_ :: _) => true | _ => false end.

Section Codec.
Context {R : Type}.
Abbreviation Op := (PendingOp (dyn R)).

Definition statementOf (op : Op) : option Stmt := match op_Payload op with PayloadOther (DStmt s) => Some s | _ => None end.

Definition wireOf (op : Op) : option wireOp :=
  let w := mkWireOp (op_Type op) (op_DB op) (op_Table op) (op_Pos op) in
  match op_Type op, statementOf op with
  | "insert"%string, Some (StInsert tableName columns rows selectQuery onConflict returning _) =>
      match selectQuery, onConflict with
      | None, None =>
          if returns returning then None
          else rows ← mapM (mapM encodeExpr) rows; Some (w (Some (mkWireInsert tableName columns rows)) None None None)
      | _, _ => None
      end
  | "update"%string, Some (StUpdate tableName assignments where_ returning fromTable _ fromSubquery) =>
      match fromTable, fromSubquery with
      | [], None =>
          if returns returning then None
          else
            assignments ← mapM encodeAssign assignments;
            where_ ← encodeWhere where_;
            Some (w None (Some (mkWireUpdate tableName assignments where_)) None None)
      | _, _ => None
      end
  | "delete"%string, Some (StDelete tableName where_ returning) =>
      if returns returning then None
      else where_ ← encodeWhere where_; Some (w None None (Some (mkWireDelete tableName where_)) None)
  | "truncate"%string, Some (StTruncate tableName) => Some (w None None None (Some (mkWireTruncate tableName)))
  | _, _ => None
  end.

Definition statementOp (w : wireOp) (s : Stmt) : Op :=
  mkOp (dyn R) (w_Type w) (w_DB w) (w_Table w) (PayloadOther (DStmt s)) DNil DNil (w_Pos w) "" 0.

Definition opOf (w : wireOp) : option Op :=
  match w_Type w with
  | "insert"%string =>
      i ← w_Insert w;
      rows ← mapM (mapM decodeExpr) (wi_Rows i);
      Some (statementOp w (StInsert (wi_TableName i) (wi_Columns i) rows None None None false))
  | "update"%string =>
      u ← w_Update w;
      assignments ← mapM decodeAssign (wu_Assignments u);
      where_ ← decodeWhere (wu_Where u);
      Some (statementOp w (StUpdate (wu_TableName u) assignments where_ None [] [] None))
  | "delete"%string =>
      d ← w_Delete w;
      where_ ← decodeWhere (wd_Where d);
      Some (statementOp w (StDelete (wd_TableName d) where_ None))
  | "truncate"%string => t ← w_Truncate w; Some (statementOp w (StTruncate (wt_TableName t)))
  | _ => None
  end.
End Codec.

(** ** JSON *)

(** A float of minus zero is empty to [omitempty], and read back as zero. *)
Definition negZero : Z := 2 ^ 63.
Definition unsignedZero (f : Z) : Z := if f =? negZero then 0 else f.

Fixpoint jsonExpr (w : wireExpr) : wireExpr :=
  let '(WExpr K Type_ i f s b Name Op Left Right Args List Not Idx) := w in
  WExpr K Type_ i (unsignedZero f) s b Name Op (jsonExpr <$> Left) (jsonExpr <$> Right) (map jsonExpr Args) (map jsonExpr List) Not Idx.

Definition jsonInsert (i : wireInsert) : wireInsert := mkWireInsert (wi_TableName i) (wi_Columns i) (map (map jsonExpr) (wi_Rows i)).
Definition jsonUpdate (u : wireUpdate) : wireUpdate :=
  mkWireUpdate (wu_TableName u) (map (prod_map id jsonExpr) (wu_Assignments u)) (jsonExpr <$> wu_Where u).
Definition jsonDelete (d : wireDelete) : wireDelete := mkWireDelete (wd_TableName d) (jsonExpr <$> wd_Where d).

Definition jsonOp (w : wireOp) : wireOp :=
  mkWireOp (w_Type w) (w_DB w) (w_Table w) (w_Pos w) (jsonInsert <$> w_Insert w) (jsonUpdate <$> w_Update w) (jsonDelete <$> w_Delete w)
    (w_Truncate w).

(** [json.Marshal] and [json.Unmarshal] of a [wireOp].  Marshal fails on the
    floats that are not numbers; it writes no line break. *)
Class WireJson (Marshal : wireOp → option (list byte)) (Unmarshal : list byte → option wireOp) : Prop := {
  unmarshal_marshal w b : Marshal w = Some b → Unmarshal b = Some (jsonOp w);
  marshal_json w : Marshal (jsonOp w) = Marshal w;
  marshal_line w b : Marshal w = Some b → b ≠ [] ∧ newline ∉ b }.

Section Lines.
Context {R : Type} (Marshal : wireOp → option (list byte)) (Unmarshal : list byte → option wireOp).

Definition encodePendingOp (op : PendingOp (dyn R)) : option (list byte) := w ← wireOf op; Marshal w.
Definition decodePendingOp (data : list byte) : option (PendingOp (dyn R)) := w ← Unmarshal data; opOf w.
End Lines.

(** ** What a line keeps *)

Definition keepValue (v : Value) : Value := match v with VFloat f => VFloat (unsignedZero f) | v => v end.

(** Columns lose their table. *)
Fixpoint keepExpr (e : Expression) : Expression :=
  match e with
  | EValue v => EValue (keepValue v)
  | EColumnRef name _ => EColumnRef name []
  | EBinary e1 op e2 => EBinary (keepExpr e1) op (keepExpr e2)
  | EAnd e1 e2 => EAnd (keepExpr e1) (keepExpr e2)
  | EOr e1 e2 => EOr (keepExpr e1) (keepExpr e2)
  | ENot e => ENot (keepExpr e)
  | EFunctionCall name args => EFunctionCall name (map keepExpr args)
  | EIn e not items => EIn (keepExpr e) not (map keepExpr items)
  | e => e
  end.

Definition keepStmt (s : Stmt) : Stmt :=
  match s with
  | StInsert tableName columns rows _ _ _ _ => StInsert tableName columns (map (map keepExpr) rows) None None None false
  | StUpdate tableName assignments where_ _ _ _ _ =>
      StUpdate tableName (map (prod_map id keepExpr) assignments) (keepExpr <$> where_) None [] [] None
  | StDelete tableName where_ _ => StDelete tableName (keepExpr <$> where_) None
  | s => s
  end.

Definition keep {R} (op : PendingOp (dyn R)) : PendingOp (dyn R) :=
  mkOp (dyn R) (op_Type op) (op_DB op) (op_Table op)
    (match op_Payload op with PayloadOther (DStmt s) => PayloadOther (DStmt (keepStmt s)) | p => p end) DNil DNil (op_Pos op) "" 0.

(** ** The codec gives back what it keeps *)

Lemma bind_Some_inv {A B} (x : option A) (f : A → option B) y : (x ≫= f) = Some y → ∃ a, x = Some a ∧ f a = Some y.
Proof. apply bind_Some. Qed.

Ltac binds :=
  repeat match goal with
  | H : (_ ≫= _) = Some _ |- _ => apply bind_Some_inv in H as (? & ? & H)
  | H : Some _ = Some _ |- _ => injection H as H; subst
  end.

Lemma mapM_related {A B C D} (f : A → option B) (g : C → option D) (h : A → C) (k : B → D) l ys :
  Forall (λ x, ∀ y, f x = Some y → g (h x) = Some (k y)) l → mapM f l = Some ys → mapM g (map h l) = Some (map k ys).
Proof.
  rewrite !mapM_Some. intros Hl Hf. induction Hf as [|x y l ys Hx _ IH]; [constructor|].
  apply Forall_cons in Hl as [Hx' Hl]. constructor; [by apply Hx'|by apply IH].
Qed.

Lemma mapM_through {A B C} (f : A → option B) (g : B → option C) (h : A → C) (k : B → B) l ys :
  Forall (λ x, ∀ y, f x = Some y → g (k y) = Some (h x)) l → mapM f l = Some ys → mapM g (map k ys) = Some (map h l).
Proof.
  rewrite !mapM_Some. intros Hl Hf. induction Hf as [|x y l ys Hx _ IH]; [constructor|].
  apply Forall_cons in Hl as [Hx' Hl]. constructor; [by apply Hx'|by apply IH].
Qed.

(** A node, from what holds of its children. *)
Ltac node lists :=
  intros e IH w; destruct e; cbn [encodeExpr children] in *; try done; intros; binds;
  repeat match goal with H : Forall _ (_ :: _) |- _ => apply Forall_cons in H as [? H] end;
  repeat match goal with H : ∀ w, encodeExpr ?e = Some w → _, E : encodeExpr ?e = Some _ |- _ => apply H in E end;
  try match goal with E : mapM _ _ = Some _ |- _ => eapply lists in E; [|eassumption] end.

(** The values of the equations for the parts, in turn. *)
Ltac parts := repeat match goal with E : _ = Some _ |- _ => rewrite E; cbn [mbind option_bind]; clear E end; try done.

Lemma decodeExpr_encodeExpr : ∀ e w, encodeExpr e = Some w → decodeExpr (jsonExpr w) = Some (keepExpr e).
Proof.
  apply (Expression_children_ind (λ e, ∀ w, encodeExpr e = Some w → decodeExpr (jsonExpr w) = Some (keepExpr e))).
  node @mapM_through; cbn [jsonExpr decodeExpr wireNode keepExpr fmap option_fmap option_map]; parts. by destruct v.
Qed.

Lemma encode_kept : ∀ e w, encodeExpr e = Some w → encodeExpr (keepExpr e) = Some (jsonExpr w).
Proof.
  apply (Expression_children_ind (λ e, ∀ w, encodeExpr e = Some w → encodeExpr (keepExpr e) = Some (jsonExpr w))).
  node @mapM_related; cbn [encodeExpr keepExpr]; parts. by destruct v.
Qed.

Lemma decode_rows rows ws : mapM (mapM encodeExpr) rows = Some ws → mapM (mapM decodeExpr) (map (map jsonExpr) ws) = Some (map (map keepExpr) rows).
Proof.
  apply mapM_through, Forall_true. intros row w. apply mapM_through, Forall_true, decodeExpr_encodeExpr.
Qed.

Lemma encode_rows rows ws : mapM (mapM encodeExpr) rows = Some ws → mapM (mapM encodeExpr) (map (map keepExpr) rows) = Some (map (map jsonExpr) ws).
Proof. apply mapM_related, Forall_true. intros row w. apply mapM_related, Forall_true, encode_kept. Qed.

Lemma decode_assigns l ws :
  mapM encodeAssign l = Some ws → mapM decodeAssign (map (prod_map id jsonExpr) ws) = Some (map (prod_map id keepExpr) l).
Proof.
  apply mapM_through, Forall_true. intros [c e] w. unfold encodeAssign, decodeAssign. cbn.
  destruct (encodeExpr e) as [x|] eqn:E; cbn; [|done]. intros [= <-]. cbn. by rewrite (decodeExpr_encodeExpr e).
Qed.

Lemma encode_assigns l ws :
  mapM encodeAssign l = Some ws → mapM encodeAssign (map (prod_map id keepExpr) l) = Some (map (prod_map id jsonExpr) ws).
Proof.
  apply mapM_related, Forall_true. intros [c e] w. unfold encodeAssign. cbn.
  destruct (encodeExpr e) as [x|] eqn:E; cbn; [|done]. intros [= <-]. by rewrite (encode_kept e x).
Qed.

Lemma decode_where o w : encodeWhere o = Some w → decodeWhere (jsonExpr <$> w) = Some (keepExpr <$> o).
Proof.
  destruct o as [e|]; cbn; [|by intros [= <-]]. destruct (encodeExpr e) as [x|] eqn:E; cbn; [|done]. intros [= <-]. cbn.
  by rewrite (decodeExpr_encodeExpr e).
Qed.

Lemma encode_where o w : encodeWhere o = Some w → encodeWhere (keepExpr <$> o) = Some (jsonExpr <$> w).
Proof.
  destruct o as [e|]; cbn; [|by intros [= <-]]. destruct (encodeExpr e) as [x|] eqn:E; cbn; [|done]. intros [= <-]. cbn.
  by rewrite (encode_kept e x).
Qed.

Section Kept.
Context {R : Type}.

Lemma wireOf_statement (op : PendingOp (dyn R)) w : wireOf op = Some w → ∃ s, op_Payload op = PayloadOther (DStmt s).
Proof.
  unfold wireOf, statementOf. destruct (op_Payload op) as [|?|[|s| |]]; [..|by eexists| |]; repeat (case_match; try discriminate).
Qed.

Lemma wire_kept (op : PendingOp (dyn R)) w :
  wireOf op = Some w → opOf (jsonOp w) = Some (keep op) ∧ wireOf (keep op) = Some (jsonOp w).
Proof.
  intros E. destruct (wireOf_statement op w E) as [s Hs]. destruct op as [ty db tb p old row pos key tid]. cbn in Hs. subst p.
  unfold wireOf, keep, statementOf in *. cbn [op_Payload op_Type op_DB op_Table op_Pos] in *.
  repeat match type of E with context [match ?x with _ => _ end] => destruct x; try discriminate E end; binds; cbn.
  all: try (erewrite decode_rows, encode_rows by done; cbn); try (erewrite decode_assigns, encode_assigns by done; cbn);
    try erewrite decode_where, encode_where by done; done.
Qed.
End Kept.

Section Survive.
Context {R : Type} (Marshal : wireOp → option (list byte)) (Unmarshal : list byte → option wireOp) `{!WireJson Marshal Unmarshal}.

Abbreviation encode := (encodePendingOp (R := R) Marshal).
Abbreviation decode := (decodePendingOp (R := R) Unmarshal).

(** The codec is one the buffer of a transaction can be written with. *)
Lemma spill_lineCodec : lineCodec encode decode keep.
Proof.
  intros op b. unfold encodePendingOp, decodePendingOp. destruct (wireOf op) as [w|] eqn:E; cbn; [|done]. intros Hm.
  destruct (wire_kept op w E) as [Hd He]. rewrite (unmarshal_marshal w b Hm), He. cbn. rewrite Hd, marshal_json.
  split_and!; [done|done|by eapply marshal_line..].
Qed.

Lemma keepExpr_idemp : ∀ e, keepExpr (keepExpr e) = keepExpr e.
Proof.
  apply Expression_children_ind. intros e IH. destruct e; cbn [keepExpr children] in *;
    repeat match goal with H : Forall _ (_ :: _) |- _ => apply Forall_cons in H as [? H] end; try congruence; try done.
  - destruct v; try done. cbn. unfold unsignedZero. destruct (Z.eqb_spec f negZero) as [->|]; [done|]. by rewrite (proj2 (Z.eqb_neq _ _)).
  - rewrite map_map. f_equal; [done|]. by apply map_ext_Forall.
  - rewrite map_map. f_equal. by apply map_ext_Forall.
Qed.

Lemma keepStmt_idemp s : keepStmt (keepStmt s) = keepStmt s.
Proof.
  destruct s; try done; cbn [keepStmt].
  - f_equal. rewrite map_map. apply map_ext. intros l. rewrite map_map. apply map_ext, keepExpr_idemp.
  - f_equal; [rewrite map_map; apply map_ext; intros [c e]; cbn; by rewrite keepExpr_idemp|].
    destruct where_; [|done]. cbn. by rewrite keepExpr_idemp.
  - destruct where_; [|done]. cbn. by rewrite keepExpr_idemp.
Qed.

Lemma keep_idemp (op : PendingOp (dyn R)) : keep (keep op) = keep op.
Proof.
  destruct op as [ty db tb p old row pos key tid]. unfold keep. cbn. f_equal.
  destruct p as [|?|[|s| |]]; try done. by rewrite keepStmt_idemp.
Qed.

Lemma keep_stored (tx : Transaction (dyn R)) ops : keep <$> stored keep tx ops = keep <$> ops.
Proof.
  unfold stored. destruct (spilled tx); [|done]. rewrite <- list_fmap_compose. apply list_fmap_ext. intros i op _. apply keep_idemp.
Qed.
End Survive.


(** ** A run *)

(** INSERT OR REPLACE INTO t VALUES (1), and a JSON that has a text for this one operation. *)
Module Run.
Definition one : wireExpr := encodeValue (VInt 1).
Definition statement (orReplace : bool) : Stmt := StInsert [116] [] [[EValue (VInt 1)]] None None None orReplace.
Definition insertion (orReplace : bool) : PendingOp (dyn nat) :=
  mkOp (dyn nat) "insert" "db" "t" (PayloadOther (DStmt (statement orReplace))) DNil DNil 0 "" 0.
Definition wire : wireOp := mkWireOp "insert" "db" "t" 0 (Some (mkWireInsert [116] [] [[one]])) None None None.

Definition isOne (w : wireExpr) : bool :=
  let '(WExpr K Type_ i f s b Name Op Left Right Args List Not Idx) := w in
  bool_decide (K = "val"%string) && bool_decide (Type_ = "int"%string) && (i =? 1) && (unsignedZero f =? 0) && bool_decide (s = [] ∧ Name = [] ∧ Op = []) &&
  negb b && negb Not && (Idx =? 0) && match Left, Right, Args, List with None, None, [], [] => true | _, _, _, _ => false end.

Definition isWire (w : wireOp) : bool :=
  bool_decide (w_Type w = "insert"%string ∧ w_DB w = "db"%string ∧ w_Table w = "t"%string) && (w_Pos w =? 0) &&
  match w_Insert w, w_Update w, w_Delete w, w_Truncate w with
  | Some i, None, None, None => bool_decide (wi_TableName i = [116] ∧ wi_Columns i = []) && match wi_Rows i with [[e]] => isOne e | _ => false end
  | _, _, _, _ => false
  end.

Definition Marshal (w : wireOp) : option (list byte) := if isWire w then Some [Byte.x31] else None.
Definition Unmarshal (b : list byte) : option wireOp := if bool_decide (b = [Byte.x31]) then Some wire else None.

Lemma isOne_json e : isOne (jsonExpr e) = isOne e.
Proof.
  destruct e as [K ty i f s b n o l r a li nt ix]. cbn. unfold unsignedZero at 1 2.
  replace (if (if f =? negZero then 0 else f) =? negZero then 0 else if f =? negZero then 0 else f) with (if f =? negZero then 0 else f)
    by (destruct (Z.eqb_spec f negZero); [done|]; by rewrite (proj2 (Z.eqb_neq _ _))).
  by destruct l, r, a, li.
Qed.

Lemma isOne_one e : isOne e = true → jsonExpr e = one.
Proof.
  destruct e as [K ty i f s b n o l r a li nt ix]. cbn. intros H.
  repeat match goal with
  | H : _ && _ = true |- _ => apply andb_true_iff in H as [? ?]
  | H : bool_decide _ = true |- _ => apply bool_decide_eq_true in H
  | H : negb _ = true |- _ => apply negb_true_iff in H
  | H : (_ =? _) = true |- _ => apply Z.eqb_eq in H
  | H : _ ∧ _ |- _ => destruct H
  end. destruct l, r, a, li; try done. subst. match goal with H : unsignedZero f = 0 |- _ => by rewrite H end.
Qed.

#[export] Instance sample_json : WireJson Marshal Unmarshal.
Proof.
  split.
  - intros w b. unfold Marshal, Unmarshal. destruct (isWire w) eqn:E; [|done]. intros [= <-]. cbn. f_equal.
    destruct w as [ty db tb pos [[tn cs rows]|] [] [] []]; unfold isWire in E; cbn in E; try (by rewrite andb_false_r in E).
    apply andb_true_iff in E as [[(-> & -> & ->)%bool_decide_eq_true ->%Z.eqb_eq]%andb_true_iff [[-> ->]%bool_decide_eq_true E]%andb_true_iff].
    destruct rows as [|[|e []] []]; try done. unfold jsonOp, jsonInsert. cbn. by rewrite (isOne_one e E).
  - intros w. unfold Marshal. replace (isWire (jsonOp w)) with (isWire w); [done|].
    destruct w as [ty db tb pos [[tn cs rows]|] [] [] []]; unfold isWire; cbn; try done. f_equal. f_equal.
    destruct rows as [|[|e []] []]; try done. cbn. by rewrite isOne_json.
  - intros w b. unfold Marshal. destruct (isWire w); [|done]. intros [= <-]. split; [done|]. apply not_elem_of_cons. split; [done|apply not_elem_of_nil].
Qed.

Definition ops : list (spillEnv * bufOp) := [(okEnv, BAdd (insertion true)); (okEnv, BAdd (insertion false)); (okEnv, BAdd (insertion true))].
Definition result := runBuf (encodePendingOp Marshal) (decodePendingOp Unmarshal) sampleManager ops (snd (Begin sampleManager)) ∅ (mkSpec [] []).
End Run.


(** What a line does not keep: the OR REPLACE of an insertion, the table of a column, the rows a failed commit is undone with. *)
Example or_replace_dropped : keep (Run.insertion true) = Run.insertion false.
Proof. reflexivity. Qed.

Example table_dropped : keepExpr (EColumnRef [105] [111]) = EColumnRef [105] [].
Proof. reflexivity. Qed.

Example undo_dropped :
  let op := mkOp (dyn nat) "delete" "db" "t" (PayloadOther (DStmt (StDelete [116] None None))) DNil (DRows [7%nat]) 0 "" 0 in
  is_Some (wireOf op) ∧ op_Row (keep op) = DNil.
Proof. split; [eexists; reflexivity|reflexivity]. Qed.
