(* ===== verification/Overlay.v ===== *)
(** * Reading one's own writes

    [server/internal/core/executor/tx_overlay.go] and the commands it meets:
    the freezing of volatile calls when a statement is buffered
    ([freezeInsert], [freezeUpdate], [freezeDelete], and the buffering in
    [commands/dml/insert.go], [update.go], [delete.go]), the overlay that a
    transaction reads its tables through ([applyTxOverlay]), and what COMMIT
    does with the same operations ([applyOps] of [commands/tx/tx.go], with the
    commands it runs).  The overlay shows the table that COMMIT makes. *)

From S2P Require Import Prelude Bytes TxManager Lexer Parser Statements Spill.

(** ** Values, rows and tables *)

(** The values of [storage.Value]; the printed form is all that is used of other types. *)
Inductive goValue : Type :=
| GNil
| GInt (z : Z)
| GInt64 (z : Z)
| GFloat (f : Z)
| GBool (b : bool)
| GString (s : text)
| GOther (printed : text).

Abbreviation Row := (list goValue).

Definition isNil (v : goValue) : bool := match v with GNil => true | _ => false end.
Definition asBool (v : goValue) : option bool := match v with GBool b => Some b | _ => None end.

(** The computed expression is the text of an [IsComputed] column, when there is one; the values are those of an ENUM column. *)
Record ColumnSchema : Type := mkColumn {
  c_Name : text; c_NotNull : bool; c_AutoIncrement : bool; c_Default : option goValue; c_ComputedExpr : option text;
  c_EnumValues : list text }.

(** The policies are there when [RLSEnabled]; a policy without [UsingExpr] is [None]. *)
Record TableSchema : Type := mkSchema { Columns : list ColumnSchema; Policies : list (option text); Partitioned : bool }.

Definition columnsOf (schema : TableSchema) : list (nat * ColumnSchema) := imap pair (Columns schema).

Fixpoint foldM {A B} (f : B → A → option B) (b : B) (l : list A) : option B :=
  match l with [] => Some b | x :: l => b ← f b x; foldM f b l end.

Definition rawToParserValue (v : goValue) : Value :=
  match v with
  | GNil => VNull
  | GInt z | GInt64 z => VInt z
  | GFloat f => VFloat f
  | GBool b => VBool b
  | GString s | GOther s => VString s
  end.

(** ** Freezing *)

Section Freeze.
(** [strings.ToUpper]; the functions read the clock and the random source [D]. *)
Context {D : Type} (ToUpper : text → text) (evalFunctionCall : text → list Expression → M D unit goValue).

Definition volatileFuncs : list text := rs <$> ["NOW"; "CURRENT_TIMESTAMP"; "CURRENT_DATE"; "CURRENT_TIME"; "UUID"]%string.

Definition volatile (name : text) : bool := bool_decide (ToUpper name ∈ volatileFuncs).

Fixpoint freezeVolatileExpr (e : Expression) : M D unit Expression :=
  match e with
  | EFunctionCall name args =>
      if volatile name then val ← evalFunctionCall name args; mret (EValue (rawToParserValue val))
      else args ← mapM freezeVolatileExpr args; mret (EFunctionCall name args)
  | EBinary e1 op e2 => l ← freezeVolatileExpr e1; r ← freezeVolatileExpr e2; mret (EBinary l op r)
  | EAnd e1 e2 => l ← freezeVolatileExpr e1; r ← freezeVolatileExpr e2; mret (EAnd l r)
  | EOr e1 e2 => l ← freezeVolatileExpr e1; r ← freezeVolatileExpr e2; mret (EOr l r)
  | ENot e => inner ← freezeVolatileExpr e; mret (ENot inner)
  | EIn e not items => l ← freezeVolatileExpr e; items ← mapM freezeVolatileExpr items; mret (EIn l not items)
  | e => mret e
  end.

Definition freezeWhere (w : option Expression) : M D unit (option Expression) :=
  match w with None => mret None | Some e => fw ← freezeVolatileExpr e; mret (Some fw) end.

(** [freezeInsert], [freezeUpdate] and [freezeDelete]; TRUNCATE has nothing to freeze. *)
Definition freeze (s : Stmt) : M D unit Stmt :=
  match s with
  | StInsert tableName columns rows None onConflict returning orReplace =>
      rows ← mapM (mapM freezeVolatileExpr) rows;
      mret (StInsert tableName columns rows None onConflict returning orReplace)
  | StUpdate tableName assignments where_ returning fromTable fromAlias fromSubquery =>
      assignments ← mapM (λ a, fv ← freezeVolatileExpr (snd a); mret (fst a, fv)) assignments;
      fw ← freezeWhere where_;
      mret (StUpdate tableName assignments fw returning fromTable fromAlias fromSubquery)
  | StDelete tableName where_ returning => fw ← freezeWhere where_; mret (StDelete tableName fw returning)
  | s => mret s
  end.
End Freeze.

(** ** The commands *)

Section Commands.
(** A moment of the clock and the random source. *)
Context {T : Type}.
(** The evaluator: of a moment, an expression, a row and a schema, each of which may be nil. *)
Context (evalOperand : T → Expression → option Row → option TableSchema → option goValue).
Context (ToLower : text → text) (EqualFold : text → text → bool).
(** The bytes of a name. *)
Context (name : text → string).
Context (ParseExpression : text → option Expression) (NormalizeForColumn : goValue → ColumnSchema → option goValue).
Context (ValueToString : goValue → text).

Definition evalExpr (t : T) (expr : option Expression) (row : Row) (schema : TableSchema) : option bool :=
  match expr with None => Some true | Some e => val ← evalOperand t e (Some row) (Some schema); asBool val end.

(** *** The rows of an insertion *)

Definition applyDefaults (row : Row) (schema : TableSchema) (specifiedCols : list nat) : Row :=
  foldl (λ row '(i, col),
    match row !! i, c_Default col with
    | Some v, Some d => if isNil v && negb (bool_decide (i ∈ specifiedCols)) then <[i := d]> row else row
    | _, _ => row
    end) row (columnsOf schema).

Definition applyComputedColumns (t : T) (schema : TableSchema) (row : Row) : option Row :=
  foldM (λ row '(i, col),
    match c_ComputedExpr col with
    | None => Some row
    | Some text =>
        expr ← ParseExpression text;
        val ← evalOperand t expr (Some row) (Some schema);
        converted ← NormalizeForColumn val col;
        Some (<[i := converted]> row)
    end) row (columnsOf schema).

(** The value of an expression of VALUES for a column. *)
Definition columnValue (t : T) (expr : Expression) (col : ColumnSchema) : option goValue :=
  val ← evalOperand t expr None None; NormalizeForColumn val col.

(** The last column of the name, as the map built from the columns has it. *)
Definition columnIndex (schema : TableSchema) (key : text) : option nat :=
  foldl (λ found '(i, col), if bool_decide (ToLower (c_Name col) = ToLower key) then Some i else found) None (columnsOf schema).

Definition fullRow (t : T) (schema : TableSchema) (row : list Expression) : option Row :=
  if (length row =? length (Columns schema))%nat then
    normalized ← mapM (λ '(expr, col), columnValue t expr col) (zip row (Columns schema));
    applyComputedColumns t schema normalized
  else None.

Definition namedRow (t : T) (schema : TableSchema) (mapped : list nat) (row : list Expression) : option Row :=
  if (length row =? length mapped)%nat then
    normalized ← foldM (λ normalized '(colIdx, expr),
        col ← Columns schema !! colIdx;
        converted ← columnValue t expr col;
        Some (<[colIdx := converted]> normalized))
      (replicate (length (Columns schema)) GNil) (zip mapped row);
    applyComputedColumns t schema (applyDefaults normalized schema mapped)
  else None.

Definition BuildRows (t : T) (schema : TableSchema) (columns : list text) (rows : list (list Expression)) : option (list Row) :=
  match columns with
  | [] => mapM (fullRow t schema) rows
  | _ => mapped ← mapM (columnIndex schema) columns; mapM (namedRow t schema mapped) rows
  end.

(** *** The row of an update *)

(** The column an assignment is to, in a row of this length. *)
Fixpoint assigned (i n : nat) (columns : list ColumnSchema) (column : text) : option nat :=
  match columns with
  | [] => None
  | col :: columns => if EqualFold (c_Name col) column && (i <? n)%nat then Some i else assigned (S i) n columns column
  end.

Definition setColumn (schema : TableSchema) (row : Row) (a : text * goValue) : Row :=
  match assigned 0 (length row) (Columns schema) (fst a) with Some i => <[i := snd a]> row | None => row end.

Definition notNullHolds (schema : TableSchema) (row : Row) : bool :=
  forallb (λ '(i, col), negb (c_NotNull col && match row !! i with Some v => isNil v | None => false end)) (columnsOf schema).

Definition enumHolds (schema : TableSchema) (row : Row) : bool :=
  forallb (λ '(i, col),
    match c_EnumValues col, row !! i with
    | [], _ | _, None | _, Some GNil => true
    | vs, Some v => bool_decide (ValueToString v ∈ vs)
    end) (columnsOf schema).

(** *** Statements at once *)

Abbreviation key := (string * string)%type.
Abbreviation tables := (gmap (string * string) (list Row)).

Context (schemas : string * string → option TableSchema).
(** The checks against other rows and tables, and the CHECK constraints. *)
Context (checkHolds : TableSchema → Row → bool) (insertAllowed updateAllowed deleteAllowed : tables → string * string → list Row → bool).
(** The next number of a column, [tryIndexLookup], the cascade of a deletion and the triggers. *)
Context (fillColumn : string * string → nat → list Row → option (list Row)).
Context (tryIndexLookup : tables → string * string → Expression → option (list nat)).
Context (cascade : tables → string * string → list Row → option tables) (FireTriggers : tables → string * string → string → tables).
(** Insertions of other kinds: of a SELECT, into a table that takes its columns from them, with a conflict clause, into partitions. *)
Context (insertOtherwise : T → tables → string * string → Stmt → option tables).

Definition FillAutoIncrementColumns (k : string * string) (schema : TableSchema) (rows : list Row) : option (list Row) :=
  foldM (λ rows '(i, col), if c_AutoIncrement col then fillColumn k i rows else Some rows) rows (columnsOf schema).

Definition insertImmediate (t : T) (db : string) (s : Stmt) (st : tables) : option tables :=
  match s with
  | StInsert tableName columns rows selectQuery onConflict _ orReplace =>
      let k := (db, name tableName) in
      current ← st !! k;
      schema ← schemas k;
      match selectQuery, onConflict with
      | None, None =>
          if orReplace || Partitioned schema || bool_decide (Columns schema = []) then insertOtherwise t st k s
          else
            rows ← BuildRows t schema columns rows;
            rows ← FillAutoIncrementColumns k schema rows;
            if forallb (λ row, notNullHolds schema row && enumHolds schema row && checkHolds schema row) rows && insertAllowed st k rows
            then Some (FireTriggers (<[k := current ++ rows]> st) k "INSERT")
            else None
      | _, _ => insertOtherwise t st k s
      end
  | _ => None
  end.

(** Whether a policy lets the row be seen. *)
Fixpoint visible (t : T) (schema : TableSchema) (row : Row) (policies : list (option text)) : option bool :=
  match policies with
  | [] => Some false
  | None :: _ => Some true
  | Some using_ :: policies =>
      expr ← ParseExpression using_;
      match evalOperand t expr (Some row) (Some schema) with
      | Some (GBool true) => Some true
      | _ => visible t schema row policies
      end
  end.

Definition rowMatches (t : T) (schema : TableSchema) (where_ : option Expression) (row : Row) : option bool :=
  seen ← match Policies schema with [] => Some true | policies => visible t schema row policies end;
  if (seen : bool) then evalExpr t where_ row schema else Some false.

(** The rows with whether they match; those outside the positions are not looked at. *)
Definition locate (positions : option (list nat)) (matchFn : Row → option bool) (rows : list Row) : option (list (Row * bool)) :=
  mapM (λ '(i, row),
    match positions with
    | Some l => if bool_decide (i ∈ l) then b ← matchFn row; Some (row, b) else Some (row, false)
    | None => b ← matchFn row; Some (row, b)
    end) (imap pair rows).

Definition positionsOf (st : tables) (k : string * string) (where_ : option Expression) : option (list nat) :=
  where_ ≫= tryIndexLookup st k.

Definition newRow (t : T) (schema : TableSchema) (assignments : list Assignment) (oldRow : Row) : option Row :=
  row ← foldM (λ row a, val ← evalOperand t (snd a) (Some oldRow) (Some schema); Some (setColumn schema row (fst a, val))) oldRow assignments;
  if notNullHolds schema row && checkHolds schema row then Some row else None.

Definition updateImmediate (t : T) (db : string) (s : Stmt) (st : tables) : option tables :=
  match s with
  | StUpdate tableName assignments where_ _ fromTable _ fromSubquery =>
      let k := (db, name tableName) in
      rows ← st !! k;
      schema ← schemas k;
      match fromTable, fromSubquery with
      | [], None =>
          located ← locate (positionsOf st k where_) (rowMatches t schema where_) rows;
          updated ← mapM (λ '(row, b), if (b : bool) then newRow t schema assignments row else Some row) located;
          let changed := snd <$> filter (λ x, snd (fst x) = true) (zip located updated) in
          if updateAllowed st k changed then Some (FireTriggers (<[k := updated]> st) k "UPDATE") else None
      | _, _ => None
      end
  | _ => None
  end.

Definition deleteImmediate (t : T) (db : string) (s : Stmt) (st : tables) : option tables :=
  match s with
  | StDelete tableName where_ _ =>
      let k := (db, name tableName) in
      rows ← st !! k;
      schema ← schemas k;
      located ← locate (positionsOf st k where_) (match where_ with None => λ _, Some true | _ => rowMatches t schema where_ end) rows;
      let deleted := fst <$> filter (λ x, snd x = true) located in
      if deleteAllowed st k deleted then
        st ← cascade st k deleted;
        Some (FireTriggers (<[k := fst <$> filter (λ x, snd x = false) located]> st) k "DELETE")
      else None
  | _ => None
  end.

(** *** COMMIT *)

Abbreviation Op := (PendingOp (dyn Row)).

(** One buffered operation; [db] is the current database of the session. *)
Definition applyOp (t : T) (db : string) (op : Op) (st : tables) : option tables :=
  match op_Type op, statementOf op with
  | "insert"%string, Some (StInsert _ _ _ _ _ _ _ as s) => insertImmediate t db s st
  | "update"%string, Some (StUpdate _ _ _ _ _ _ _ as s) => updateImmediate t db s st
  | "delete"%string, Some (StDelete _ _ _ as s) => deleteImmediate t db s st
  | "truncate"%string, Some (StTruncate _) =>
      let k := (op_DB op, op_Table op) in
      _ ← st !! k; Some (<[k := []]> st)
  | "insert"%string, _ | "update"%string, _ | "delete"%string, _ | "truncate"%string, _ => None
  | _, _ => Some st
  end.

(** The state, how many operations were applied, and whether all of them. *)
Fixpoint applyOps (t : T) (db : string) (ops : list Op) (st : tables) (i : nat) : tables * nat * bool :=
  match ops with
  | [] => (st, i, true)
  | op :: ops =>
      match applyOp t db op st with
      | Some st => applyOps t db ops st (S i)
      | None => (st, i, false)
      end
  end.

(** *** The overlay *)

(** The order in which a map is ranged over. *)
Context (range : list (text * goValue) → list (text * goValue)).

Definition setKey (m : list (text * goValue)) (a : text * goValue) : list (text * goValue) := filter (λ x, fst x ≠ fst a) m ++ [a].

Definition applyUpdatesToRow (row : Row) (schema : TableSchema) (updates : list (text * goValue)) : Row :=
  foldl (setColumn schema) row (range updates).

Definition overlayOp (t : T) (schema : TableSchema) (result : list Row) (op : Op) : option (list Row) :=
  match op_Type op, statementOf op with
  | "insert"%string, Some (StInsert _ columns rows _ _ _ _) => newRows ← BuildRows t schema columns rows; Some (result ++ newRows)
  | "update"%string, Some (StUpdate _ assignments where_ _ _ _ _) =>
      updates ← foldM (λ m a, val ← evalOperand t (snd a) None (Some schema); Some (setKey m (fst a, val))) [] assignments;
      mapM (λ row, b ← evalExpr t where_ row schema; Some (if (b : bool) then applyUpdatesToRow row schema updates else row)) result
  | "delete"%string, Some (StDelete _ where_ _) =>
      located ← mapM (λ row, b ← evalExpr t where_ row schema; Some (row, b)) result;
      Some (fst <$> filter (λ x, snd x = false) located)
  | "truncate"%string, _ => Some []
  | "insert"%string, _ | "update"%string, _ | "delete"%string, _ => None
  | _, _ => Some result
  end.

Definition concerns (db table : string) (op : Op) : Prop := op_DB op = db ∧ op_Table op = table.
#[global] Instance concerns_dec db table op : Decision (concerns db table op).
Proof. unfold concerns. apply _. Defined.

(** Of a session in a transaction with these operations. *)
Definition applyTxOverlay (t : T) (db table : string) (ops : list Op) (base : list Row) : option (list Row) :=
  match filter (concerns db table) ops with
  | [] => Some base
  | relevant => schema ← schemas (db, table); foldM (overlayOp t schema) base relevant
  end.

(** *** Buffering *)

(** The matching rows and their positions; a row the clause fails on counts as one that does not match. *)
Definition matching (t : T) (schema : TableSchema) (where_ : option Expression) (rows : list Row) : list (nat * Row) :=
  filter (λ x, evalExpr t where_ (snd x) schema = Some true) (imap pair rows).

Definition undoRows (t : T) (k : string * string) (where_ : option Expression) (st : tables) : list (nat * Row) :=
  match st !! k, schemas k with Some rows, Some schema => matching t schema where_ rows | _, _ => [] end.

(** The operation that a frozen statement is buffered as. *)
Definition pending (t : T) (db : string) (st : tables) (s : Stmt) : option Op :=
  let op ty tableName old row := mkOp (dyn Row) ty db (name tableName) (PayloadOther (DStmt s)) old row 0 "" 0 in
  match s with
  | StInsert tableName _ _ _ _ _ _ => Some (op "insert"%string tableName DNil DNil)
  | StUpdate tableName _ where_ _ _ _ _ =>
      let found := undoRows t (db, name tableName) where_ st in
      Some (op "update"%string tableName (DRows found.*2) (DInts found.*1))
  | StDelete tableName where_ _ => Some (op "delete"%string tableName DNil (DRows (undoRows t (db, name tableName) where_ st).*2))
  | StTruncate tableName => Some (op "truncate"%string tableName DNil DNil)
  | _ => None
  end.
End Commands.

(** ** What the evaluator is assumed to do *)

(** Literals and parameters have one value; a column depends on the row only; the other nodes that freezing goes into depend on the
    moment and the row through their operands, and so do the calls of [pure] functions. *)
Class Evaluator {T} (evalOperand : T → Expression → option Row → option TableSchema → option goValue) (pure : text → bool) : Prop := {
  ev_value t row schema t' row' schema' v : evalOperand t (EValue v) row schema = evalOperand t' (EValue v) row' schema';
  ev_param t row schema t' row' schema' i : evalOperand t (EParam i) row schema = evalOperand t' (EParam i) row' schema';
  ev_column t t' row schema n tb : evalOperand t (EColumnRef n tb) row schema = evalOperand t' (EColumnRef n tb) row schema;
  ev_node t row schema t' row' schema' e :
    match e with
    | EBinary _ _ _ | EAnd _ _ | EOr _ _ | ENot _ | EIn _ _ _ => True
    | EFunctionCall n _ => pure n = true
    | _ => False
    end →
    Forall (λ e, evalOperand t e row schema = evalOperand t' e row' schema') (children e) →
    evalOperand t e row schema = evalOperand t' e row' schema' }.

(** ** Frozen expressions *)

Lemma bind_Ok {D A B} (x : M D unit A) (f : A → M D unit B) d d' y :
  (x ≫= f) d = (d', Ok y) → ∃ d1 a, x d = (d1, Ok a) ∧ f a d1 = (d', Ok y).
Proof. unfold mbind, M_bind. destruct (x d) as [d1 [a| |]]; try done. intros E. by exists d1, a. Qed.

Ltac steps :=
  repeat match goal with
  | H : (_ ≫= _) _ = (_, Ok _) |- _ => apply bind_Ok in H as (? & ? & ? & H)
  | H : mret _ _ = (_, Ok _) |- _ => injection H as <- <-
  end.

Lemma mapM_Ok {D A B} (f : A → M D unit B) (P : A → B → Prop) l d d' ys :
  Forall (λ x, ∀ d d' y, f x d = (d', Ok y) → P x y) l → mapM f l d = (d', Ok ys) → Forall2 P l ys.
Proof.
  intros Hl. revert d ys. induction Hl as [|x l Hx _ IH]; intros d ys; cbn [mapM]; intros; steps; constructor; [by eapply Hx|by eapply IH].
Qed.

Section Frozen.
Context (ToUpper : text → text) (pure : text → bool).

(** Expressions of the nodes that freezing goes into, with calls of volatile and of pure functions. *)
Fixpoint freezable (e : Expression) : bool :=
  match e with
  | EValue _ | EColumnRef _ _ | EParam _ => true
  | EBinary e1 _ e2 | EAnd e1 e2 | EOr e1 e2 => freezable e1 && freezable e2
  | ENot e => freezable e
  | EIn e _ items => freezable e && forallb freezable items
  | EFunctionCall n args => volatile ToUpper n || (pure n && forallb freezable args)
  | _ => false
  end.

(** Those without a volatile call. *)
Fixpoint frozen (e : Expression) : bool :=
  match e with
  | EValue _ | EColumnRef _ _ | EParam _ => true
  | EBinary e1 _ e2 | EAnd e1 e2 | EOr e1 e2 => frozen e1 && frozen e2
  | ENot e => frozen e
  | EIn e _ items => frozen e && forallb frozen items
  | EFunctionCall n args => pure n && forallb frozen args
  | _ => false
  end.

(** Those that read no column. *)
Fixpoint columnFree (e : Expression) : bool :=
  match e with
  | EColumnRef _ _ => false
  | EBinary e1 _ e2 | EAnd e1 e2 | EOr e1 e2 => columnFree e1 && columnFree e2
  | ENot e => columnFree e
  | EIn e _ items => columnFree e && forallb columnFree items
  | EFunctionCall _ args => forallb columnFree args
  | _ => true
  end.

(** What freezing makes of an expression. *)
Definition froze (e e' : Expression) : Prop := freezable e = true → frozen e' = true ∧ (columnFree e = true → columnFree e' = true).

Lemma froze_all l l' :
  Forall2 froze l l' → forallb freezable l = true → forallb frozen l' = true ∧ (forallb columnFree l = true → forallb columnFree l' = true).
Proof.
  induction 1 as [|e e' l l' He _ IH]; [done|]. cbn. intros [Hf Hl]%andb_true_iff. destruct (He Hf) as [H1 H2], (IH Hl) as [H3 H4].
  rewrite H1, H3. split; [done|]. intros [Hc Hcl]%andb_true_iff. by rewrite H2, H4.
Qed.

Lemma froze_pair e1 e2 x1 x2 :
  froze e1 x1 → froze e2 x2 → freezable e1 && freezable e2 = true →
  frozen x1 && frozen x2 = true ∧ (columnFree e1 && columnFree e2 = true → columnFree x1 && columnFree x2 = true).
Proof.
  intros H1 H2. pose proof (froze_all [e1; e2] [x1; x2]) as H. cbn [forallb] in H. rewrite !andb_true_r in H. apply H. constructor; [done|]. constructor; [done|constructor].
Qed.

Lemma freeze_froze {D} (evalFunctionCall : text → list Expression → M D unit goValue) :
  ∀ e d d' e', freezeVolatileExpr ToUpper evalFunctionCall e d = (d', Ok e') → froze e e'.
Proof.
  apply (Expression_children_ind (λ e, ∀ d d' e', freezeVolatileExpr ToUpper evalFunctionCall e d = (d', Ok e') → froze e e')).
  intros e IH d d' e'. unfold froze. destruct e; cbn [freezeVolatileExpr children freezable columnFree] in *; intros E Hf; try done; steps; try done;
    repeat match goal with
    | H : Forall _ (_ :: _) |- _ => apply Forall_cons in H as [? H]
    | H : ∀ d d' e', freezeVolatileExpr _ _ ?e d = _ → _, E : freezeVolatileExpr _ _ ?e _ = _ |- _ => apply H in E
    end; cbn [frozen columnFree]; try by apply froze_pair.
  - by match goal with H : froze _ _ |- _ => apply H end.
  - match goal with H : mapM _ _ _ = _ |- _ => apply (mapM_Ok _ froze) in H; [|exact IH] end. apply andb_true_iff in Hf as [Hf Hl].
    match goal with H : froze e _, H' : Forall2 froze _ _ |- _ => destruct (H Hf) as [-> Hc1], (froze_all _ _ H' Hl) as [-> Hc2] end.
    split; [done|]. intros [??]%andb_true_iff. by rewrite Hc1, Hc2.
  - destruct (volatile ToUpper name); steps; [done|]. cbn [orb] in Hf. apply andb_true_iff in Hf as [Hp Hl].
    match goal with H : mapM _ _ _ = _ |- _ => apply (mapM_Ok _ froze) in H; [|exact IH]; destruct (froze_all _ _ H Hl) as [Hf Hc] end.
    cbn [frozen columnFree]. by rewrite Hp, Hf.
Qed.
End Frozen.

Section Stable.
Context {T : Type} (evalOperand : T → Expression → option Row → option TableSchema → option goValue) (pure : text → bool).
Context `{!Evaluator evalOperand pure}.

(** A frozen expression has the value of its row at every moment, and one without columns the same everywhere. *)
Lemma frozen_stable : ∀ e, frozen pure e = true → ∀ t t' row row' schema schema',
  (columnFree e = true ∨ row = row' ∧ schema = schema') → evalOperand t e row schema = evalOperand t' e row' schema'.
Proof.
  apply (Expression_children_ind (λ e, frozen pure e = true → ∀ t t' row row' schema schema',
    (columnFree e = true ∨ row = row' ∧ schema = schema') → evalOperand t e row schema = evalOperand t' e row' schema')).
  intros e IH Hf t t' row row' schema schema' Hc.
  assert (forallb (frozen pure) (children e) = true ∧ (forallb columnFree (children e) = true ∨ row = row' ∧ schema = schema')) as [Hl Hlc].
  { destruct e; try discriminate Hf; cbn in *; rewrite ?andb_true_r; try tauto. apply andb_true_iff in Hf as [_ ->]. tauto. }
  assert (Forall (λ e, evalOperand t e row schema = evalOperand t' e row' schema') (children e)) as Hchildren.
  { apply Forall_forall. intros x Hx. rewrite Forall_forall in IH. apply (IH x Hx).
    - rewrite forallb_forall in Hl. by apply Hl, list_elem_of_In.
    - destruct Hlc as [Hlc|]; [left|by right]. rewrite forallb_forall in Hlc. by apply Hlc, list_elem_of_In. }
  destruct e; try discriminate Hf; try (by apply (ev_node (pure := pure))).
  - apply (ev_value (pure := pure)).
  - destruct Hc as [Hc|[-> ->]]; [done|]. apply (ev_column (pure := pure)).
  - apply (ev_param (pure := pure)).
  - apply (ev_node (pure := pure)); [|done]. by apply andb_true_iff in Hf as [? _].
Qed.
End Stable.

(** ** Lists *)

Lemma mapM_perm {A B} (f : A → option B) l l' r : l ≡ₚ l' → mapM f l = Some r → ∃ r', mapM f l' = Some r' ∧ r ≡ₚ r'.
Proof.
  intros Hp. revert r. induction Hp as [|x l l' Hp IH|x y l|l1 l2 l3 _ IH1 _ IH2]; intros r; cbn.
  - intros [= <-]. by exists [].
  - intros (y & Hy & (ys & Hys & [= <-])%bind_Some)%bind_Some. destruct (IH _ Hys) as (r' & Hr & Hpr). rewrite Hy. cbn. rewrite Hr. cbn.
    eexists. split; [done|]. by constructor.
  - intros (a & Ha & (ys & (b & Hb & (zs & Hzs & [= <-])%bind_Some)%bind_Some & [= <-])%bind_Some)%bind_Some. rewrite Ha, Hb. cbn. rewrite Hzs. cbn.
    eexists. split; [done|]. constructor.
  - intros (r2 & H2 & P2)%IH1. destruct (IH2 _ H2) as (r3 & H3 & P3). exists r3. split; [done|]. by transitivity r2.
Qed.

Lemma mapM_impl {A B} (f g : A → option B) l r : (∀ x y, f x = Some y → g x = Some y) → mapM f l = Some r → mapM g l = Some r.
Proof. rewrite !mapM_Some. intros H Hf. eapply Forall2_impl; [exact Hf|exact H]. Qed.

Lemma mapM_indexed {A B} (f : nat * A → option B) (g : A → option B) l r :
  (∀ i x y, l !! i = Some x → f (i, x) = Some y → g x = Some y) → mapM f (imap pair l) = Some r → mapM g l = Some r.
Proof.
  rewrite !mapM_Some. intros H Hf. apply Forall2_same_length_lookup. apply Forall2_same_length_lookup in Hf as [Hlen Hf].
  rewrite length_imap in Hlen. split; [done|]. intros i x y Hx Hy. apply (H i x y Hx), (Hf i); [|done].
  by rewrite list_lookup_imap, Hx.
Qed.

Lemma mapM_compose {A B C} (f : A → option B) (g : B → option C) l r s :
  mapM f l = Some r → mapM g r = Some s → mapM (λ x, y ← f x; g y) l = Some s.
Proof.
  rewrite !mapM_Some. intros Hf. revert s. induction Hf as [|x y l r Hx _ IH]; intros s Hs; inversion_clear Hs; constructor; [|by apply IH].
  by rewrite Hx.
Qed.

Lemma foldl_perm {A B} (f : B → A → B) l l' :
  l ≡ₚ l' → (∀ x y r, x ∈ l → y ∈ l → f (f r x) y = f (f r y) x) → ∀ r, foldl f r l = foldl f r l'.
Proof.
  induction 1 as [|x l l' Hp IH|x y l|l1 l2 l3 H1 IH1 H2 IH2]; intros Hc r; cbn; [done| | |].
  - apply IH. intros. apply Hc; by right.
  - f_equal. apply Hc; set_solver.
  - rewrite IH1 by done. apply IH2. intros x y r' Hx Hy. apply Hc; by rewrite H1.
Qed.

(** ** Assignments in any order *)

Section Assignments.
Context (EqualFold : text → text → bool).

(** The names are different, and no column is meant by two of them. *)
Fixpoint distinctTargets (columns : list ColumnSchema) (names : list text) : bool :=
  match names with
  | [] => true
  | a :: names =>
      forallb (λ b, negb (bool_decide (a = b)) && forallb (λ col, negb (EqualFold (c_Name col) a && EqualFold (c_Name col) b)) columns) names &&
      distinctTargets columns names
  end.

Lemma assigned_spec i n columns a j :
  assigned EqualFold i n columns a = Some j → (i ≤ j)%nat ∧ ∃ col, columns !! (j - i)%nat = Some col ∧ EqualFold (c_Name col) a = true.
Proof.
  revert i. induction columns as [|col columns IH]; intros i; cbn [assigned]; [done|]. destruct (EqualFold (c_Name col) a && (i <? n)%nat) eqn:E.
  - intros [= <-]. split; [lia|]. exists col. rewrite Nat.sub_diag. by apply andb_true_iff in E as [-> _].
  - intros (Hi & c & Hc & He)%IH. split; [lia|]. exists c. split; [|done]. by replace (j - i)%nat with (S (j - S i)) by lia.
Qed.

Lemma setColumn_length schema row a : length (setColumn EqualFold schema row a) = length row.
Proof. unfold setColumn. destruct (assigned _ _ _ _ _); [apply length_insert|done]. Qed.

Lemma setColumn_comm schema row a b :
  (∀ col, col ∈ Columns schema → EqualFold (c_Name col) (fst a) && EqualFold (c_Name col) (fst b) = false) →
  setColumn EqualFold schema (setColumn EqualFold schema row a) b = setColumn EqualFold schema (setColumn EqualFold schema row b) a.
Proof.
  intros Hd. unfold setColumn at 1 3. rewrite !setColumn_length. unfold setColumn.
  destruct (assigned EqualFold 0 (length row) (Columns schema) (fst a)) as [i|] eqn:Ea,
    (assigned EqualFold 0 (length row) (Columns schema) (fst b)) as [j|] eqn:Eb; try done.
  apply list_insert_insert_ne. intros ->.
  apply assigned_spec in Ea as (_ & ca & Ha & Fa), Eb as (_ & cb & Hb & Fb). rewrite Ha in Hb. injection Hb as <-.
  specialize (Hd ca (list_elem_of_lookup_2 _ _ _ Ha)). by rewrite Fa, Fb in Hd.
Qed.

Lemma distinct_comm schema l : distinctTargets (Columns schema) l.*1 = true →
  NoDup l.*1 ∧ ∀ x y r, x ∈ l → y ∈ l → setColumn EqualFold schema (setColumn EqualFold schema r x) y = setColumn EqualFold schema (setColumn EqualFold schema r y) x.
Proof.
  induction l as [|a l IH]; [intros _; split; [constructor|by intros ??? ?%not_elem_of_nil]|].
  cbn [fmap list_fmap distinctTargets]. intros [Ha Hl]%andb_true_iff. destruct (IH Hl) as [Hn Hc]. rewrite forallb_forall in Ha.
  assert (∀ x, x ∈ l → fst a ≠ fst x ∧ ∀ col, col ∈ Columns schema → EqualFold (c_Name col) (fst a) && EqualFold (c_Name col) (fst x) = false) as Hx.
  { intros x Hx. destruct (andb_prop _ _ (Ha (fst x) (proj1 (list_elem_of_In _ _) (list_elem_of_fmap_2 fst _ _ Hx)))) as [H1 H2].
    apply negb_true_iff, bool_decide_eq_false in H1. split; [done|]. intros col Hcol. rewrite forallb_forall in H2.
    apply negb_true_iff, H2. by apply list_elem_of_In. }
  split.
  - constructor; [|done]. intros (x & Heq & Hin)%list_elem_of_fmap. by destruct (Hx x Hin).
  - intros x y r [->|Hxl]%elem_of_cons [->|Hyl]%elem_of_cons; [done|apply setColumn_comm; by apply Hx| |by apply Hc].
    symmetry. apply setColumn_comm. by apply Hx.
Qed.

(** Ranging over the map of the assigned values sets what the assignments set in turn. *)
Lemma setKeys m l : NoDup (m ++ l).*1 → foldl setKey m l = m ++ l.
Proof.
  revert m. induction l as [|a l IH]; intros m Hn; cbn [foldl]; [by rewrite app_nil_r|].
  assert (setKey m a = m ++ [a]) as ->.
  { unfold setKey. f_equal. apply filter_all, Forall_forall. intros x Hx E. rewrite fmap_app in Hn. apply NoDup_app in Hn as (_ & Hn & _).
    apply (Hn (fst x)); [by apply list_elem_of_fmap_2|]. rewrite E. cbn. left. }
  rewrite IH; by rewrite <- app_assoc.
Qed.
End Assignments.

Lemma foldM_ext {A B} (f g : B → A → option B) b l : (∀ b x, x ∈ l → f b x = g b x) → foldM f b l = foldM g b l.
Proof.
  revert b. induction l as [|x l IH]; intros b H; [done|]. cbn. rewrite H by left. destruct (g b x); [|done]. cbn. apply IH. intros. apply H. by right.
Qed.

(** ** The overlay and the commit *)

Section Agreement.
Context {T : Type} (evalOperand : T → Expression → option Row → option TableSchema → option goValue).
Context (ToLower : text → text) (EqualFold : text → text → bool) (name : text → string).
Context (ParseExpression : text → option Expression) (NormalizeForColumn : goValue → ColumnSchema → option goValue).
Context (ValueToString : goValue → text) (schemas : string * string → option TableSchema).
Abbreviation tables := (gmap (string * string) (list Row)).
Context (checkHolds : TableSchema → Row → bool) (insertAllowed updateAllowed deleteAllowed : tables → string * string → list Row → bool).
Context (fillColumn : string * string → nat → list Row → option (list Row)).
Context (tryIndexLookup : tables → string * string → Expression → option (list nat)).
Context (cascade : tables → string * string → list Row → option tables) (FireTriggers : tables → string * string → string → tables).
Context (insertOtherwise : T → tables → string * string → Stmt → option tables).
Context (range : list (text * goValue) → list (text * goValue)).
Context (pure : text → bool).

Abbreviation test := (evalExpr evalOperand).
Abbreviation built := (BuildRows evalOperand ToLower ParseExpression NormalizeForColumn).
Abbreviation commitOp := (applyOp evalOperand ToLower EqualFold name ParseExpression NormalizeForColumn ValueToString schemas checkHolds
  insertAllowed updateAllowed deleteAllowed fillColumn tryIndexLookup cascade FireTriggers insertOtherwise).
Abbreviation commitOps := (applyOps evalOperand ToLower EqualFold name ParseExpression NormalizeForColumn ValueToString schemas checkHolds
  insertAllowed updateAllowed deleteAllowed fillColumn tryIndexLookup cascade FireTriggers insertOtherwise).
Abbreviation overlaid := (overlayOp evalOperand ToLower EqualFold ParseExpression NormalizeForColumn range).
Abbreviation seenBy := (applyTxOverlay evalOperand ToLower EqualFold ParseExpression NormalizeForColumn schemas range).
Abbreviation bufferedAs := (pending evalOperand name schemas).
Abbreviation Op := (PendingOp (dyn Row)).

(** Statements on a table whose expressions satisfy [P]: insertions of rows, updates that assign values without columns to different
    columns, deletions and TRUNCATE. *)
Definition shaped (P : Expression → bool) (schema : TableSchema) (s : Stmt) : bool :=
  match s with
  | StInsert _ _ rows None None _ false => forallb (forallb P) rows
  | StUpdate _ assignments where_ _ [] _ None =>
      forallb (λ a, P (snd a) && columnFree (snd a)) assignments && forallb P (option_list where_) &&
      distinctTargets EqualFold (Columns schema) assignments.*1
  | StDelete _ where_ _ => forallb P (option_list where_)
  | StTruncate _ => true
  | _ => false
  end.

(** A table with columns, none of them numbered and the computed ones of frozen expressions, without policies and partitions. *)
Definition plainTable (schema : TableSchema) : bool :=
  match Columns schema, Policies schema with
  | _ :: _, [] =>
      negb (Partitioned schema) &&
      forallb (λ col, negb (c_AutoIncrement col) && forallb (λ e, frozen pure e) (option_list (c_ComputedExpr col ≫= ParseExpression))) (Columns schema)
  | _, _ => false
  end.

(** The rows an index leaves out do not match, and a statement on one table leaves the other as it is: no cascade, no trigger and no
    insertion of another kind changes it. *)
Record isolated (k0 : string * string) : Prop := {
  iso_lookup st k e l rows schema i row t : tryIndexLookup st k e = Some l → st !! k = Some rows → schemas k = Some schema →
    rows !! i = Some row → i ∉ l → test t (Some e) row schema = Some false;
  iso_cascade st k deleted st' : cascade st k deleted = Some st' → st' !! k0 = st !! k0;
  iso_triggers st k event : FireTriggers st k event !! k0 = st !! k0;
  iso_otherwise t st k s st' : insertOtherwise t st k s = Some st' → k ≠ k0 → st' !! k0 = st !! k0 }.

Context (range_perm : ∀ m, range m ≡ₚ m) `{!Evaluator evalOperand pure}.

Lemma where_stable t t' w row schema : forallb (frozen pure) (option_list w) = true → test t w row schema = test t' w row schema.
Proof.
  destruct w as [e|]; [|done]. cbn. rewrite andb_true_r. intros Hf. unfold evalExpr.
  by rewrite (frozen_stable evalOperand pure e Hf t t' (Some row) (Some row) (Some schema) (Some schema)) by by right.
Qed.

Lemma value_stable t t' e col : frozen pure e = true →
  columnValue evalOperand NormalizeForColumn t e col = columnValue evalOperand NormalizeForColumn t' e col.
Proof. intros Hf. unfold columnValue. by rewrite (frozen_stable evalOperand pure e Hf t t' None None None None) by by right. Qed.

Lemma computed_stable t t' schema row : plainTable schema = true →
  applyComputedColumns evalOperand ParseExpression NormalizeForColumn t schema row =
  applyComputedColumns evalOperand ParseExpression NormalizeForColumn t' schema row.
Proof.
  unfold plainTable, applyComputedColumns. intros Hp. apply foldM_ext. intros row' [i col] (j & c & [= -> ->] & Hj)%elem_of_lookup_imap.
  destruct (Columns schema) as [|c0 cs] eqn:Ec; [done|]. rewrite <- Ec in *. destruct (Policies schema); [|done].
  apply andb_true_iff in Hp as [_ Hp]. rewrite forallb_forall in Hp.
  destruct (andb_prop _ _ (Hp c (proj1 (list_elem_of_In _ _) (list_elem_of_lookup_2 _ _ _ Hj)))) as [_ Hc].
  destruct (c_ComputedExpr c) as [txt|]; [|done]. cbn in Hc. destruct (ParseExpression txt) as [e|]; [|done]. cbn in *. rewrite andb_true_r in Hc.
  by rewrite (frozen_stable evalOperand pure e Hc t t' (Some row') (Some row') (Some schema) (Some schema)) by by right.
Qed.

Lemma BuildRows_stable t t' schema columns rows :
  plainTable schema = true → forallb (forallb (frozen pure)) rows = true → built t schema columns rows = built t' schema columns rows.
Proof.
  intros Hp Hr. rewrite forallb_forall in Hr. setoid_rewrite <- list_elem_of_In in Hr.
  assert (∀ row e, row ∈ rows → e ∈ row → frozen pure e = true) as Hf.
  { intros row e Hrow He. specialize (Hr row Hrow). rewrite forallb_forall in Hr. by apply Hr, list_elem_of_In. }
  unfold BuildRows. destruct columns as [|c cs].
  - apply Forall_mapM_ext, Forall_forall. intros row Hrow. unfold fullRow. destruct (_ =? _)%nat; [|done].
    rewrite (Forall_mapM_ext _ (λ '(expr, col), columnValue evalOperand NormalizeForColumn t' expr col)).
    + destruct (mapM _ _); [|done]. cbn. by apply computed_stable.
    + apply Forall_forall. intros [e col] Hin%elem_of_zip_l. by apply value_stable, (Hf row).
  - destruct (mapM _ _) as [mapped|]; [|done]. cbn. apply Forall_mapM_ext, Forall_forall. intros row Hrow. unfold namedRow.
    destruct (_ =? _)%nat; [|done].
    rewrite (foldM_ext _ (λ normalized '(colIdx, expr), col ← Columns schema !! colIdx;
      converted ← columnValue evalOperand NormalizeForColumn t' expr col; Some (<[colIdx := converted]> normalized))).
    + destruct (foldM _ _ _); [|done]. cbn. by apply computed_stable.
    + intros acc [i e] Hin%elem_of_zip_r. destruct (Columns schema !! i); [|done]. cbn. by rewrite (value_stable t t' e) by by apply (Hf row).
Qed.

(** *** UPDATE *)

(** The values of the assignments, wherever they are evaluated. *)
Lemma values_anywhere t t' schema assignments :
  forallb (λ a, frozen pure (snd a) && columnFree (snd a)) assignments = true →
  Forall (λ a : Assignment, evalOperand t (snd a) None (Some schema) ≠ None) assignments →
  ∃ vs : list (text * goValue), vs.*1 = assignments.*1 ∧
    Forall2 (λ a v, evalOperand t (snd a) None (Some schema) = Some (snd v) ∧ fst a = fst v ∧
      ∀ row, evalOperand t' (snd a) (Some row) (Some schema) = Some (snd v)) assignments vs.
Proof.
  intros Hf. induction 1 as [|a l Ha _ IH]; [exists []; by split; [|constructor]|]. cbn in Hf. apply andb_true_iff in Hf as [[Hfz Hcf]%andb_true_iff Hl].
  destruct (IH Hl) as (vs & Hfst & Hvs). destruct (evalOperand t (snd a) None (Some schema)) as [v|] eqn:E; [|done].
  exists ((fst a, v) :: vs). cbn. rewrite Hfst. split; [done|]. constructor; [|done]. cbn. split_and!; [done|done|]. intros row. rewrite <- E.
  apply (frozen_stable evalOperand pure); [done|by left].
Qed.

Lemma newRow_values t schema assignments vs row row' :
  Forall2 (λ (a : Assignment) v, fst a = fst v ∧ evalOperand t (snd a) (Some row) (Some schema) = Some (snd v)) assignments vs →
  newRow evalOperand EqualFold checkHolds t schema assignments row = Some row' → row' = foldl (setColumn EqualFold schema) row vs.
Proof.
  intros Hv. unfold newRow.
  assert (∀ r, foldM (λ row' a, val ← evalOperand t (snd a) (Some row) (Some schema); Some (setColumn EqualFold schema row' (fst a, val))) r assignments =
    Some (foldl (setColumn EqualFold schema) r vs)) as ->.
  { induction Hv as [|a [c v] l vs [Ha Hea] _ IH]; intros r; [done|]. cbn in *. rewrite Hea. cbn. rewrite Ha. apply IH. }
  cbn. destruct (_ && _); [|done]. by intros [= <-].
Qed.

Lemma updates_values t schema assignments (vs : list (text * goValue)) :
  Forall2 (λ (a : Assignment) v, evalOperand t (snd a) None (Some schema) = Some (snd v) ∧ fst a = fst v) assignments vs → NoDup vs.*1 →
  foldM (λ m a, val ← evalOperand t (snd a) None (Some schema); Some (setKey m (fst a, val))) [] assignments = Some vs.
Proof.
  intros Hv Hn. rewrite <- (setKeys [] vs Hn) at 1. generalize (@nil (text * goValue)). clear Hn.
  induction Hv as [|a [c v] l vs [Ha Hc] _ IH]; intros m; [done|]. cbn in *. rewrite Ha. cbn. rewrite Hc. apply IH.
Qed.

Lemma plain_policies schema : plainTable schema = true → Policies schema = [].
Proof. unfold plainTable. destruct (Columns schema); [done|]. by destruct (Policies schema). Qed.

(** The rows found through an index are those of a scan, at any moment. *)
Lemma located_scan t t' st k where_ rows schema located matchFn :
  (∀ st e l i row, tryIndexLookup st k e = Some l → st !! k = Some rows → rows !! i = Some row → i ∉ l → test t' (Some e) row schema = Some false) →
  st !! k = Some rows → forallb (frozen pure) (option_list where_) = true →
  (∀ row, matchFn row = test t where_ row schema) →
  locate (positionsOf tryIndexLookup st k where_) matchFn rows = Some located →
  mapM (λ row, b ← test t' where_ row schema; Some (row, b)) rows = Some located.
Proof.
  intros Hi Hst Hf Hm. apply mapM_indexed. intros i row y Hrow. rewrite Hm, (where_stable t t') by done.
  destruct (positionsOf tryIndexLookup st k where_) as [l|] eqn:Ep; [|done]. case_bool_decide as Hin; [done|]. intros [= <-].
  unfold positionsOf in Ep. apply bind_Some in Ep as (e & -> & Ep). by rewrite (Hi _ _ _ _ _ Ep Hst Hrow Hin).
Qed.

Lemma update_agrees t t' st k rows base schema assignments where_ located updated :
  plainTable schema = true → isolated k → schemas k = Some schema → st !! k = Some rows → base ≡ₚ rows →
  forallb (λ a, frozen pure (snd a) && columnFree (snd a)) assignments = true → forallb (frozen pure) (option_list where_) = true →
  distinctTargets EqualFold (Columns schema) assignments.*1 = true →
  Forall (λ a : Assignment, evalOperand t' (snd a) None (Some schema) ≠ None) assignments →
  locate (positionsOf tryIndexLookup st k where_) (rowMatches evalOperand ParseExpression t schema where_) rows = Some located →
  mapM (λ '(row, b), if (b : bool) then newRow evalOperand EqualFold checkHolds t schema assignments row else Some row) located = Some updated →
  ∃ seen, seen ≡ₚ updated ∧
    (updates ← foldM (λ m a, val ← evalOperand t' (snd a) None (Some schema); Some (setKey m (fst a, val))) [] assignments;
     mapM (λ row, b ← test t' where_ row schema; Some (if (b : bool) then applyUpdatesToRow EqualFold range row schema updates else row)) base) = Some seen.
Proof.
  intros Hp Hi Hs Hst Hb Ha Hw Hd Hv Hl Hu. destruct (values_anywhere t' t schema assignments Ha Hv) as (vs & Hfst & Hvs).
  rewrite <- Hfst in Hd. destruct (distinct_comm EqualFold schema vs Hd) as [Hn Hc].
  rewrite (updates_values t' schema assignments vs) by (done || by eapply Forall2_impl; [exact Hvs|]; cbn; tauto). cbn.
  apply (located_scan t t' _ _ _ _ schema) in Hl; [|by eauto using iso_lookup|done|done|].
  2: { intros row. unfold rowMatches. by rewrite (plain_policies schema Hp). }
  pose proof (mapM_compose _ _ _ _ _ Hl Hu) as Hall.
  apply (mapM_impl _ (λ row, b ← test t' where_ row schema; Some (if (b : bool) then applyUpdatesToRow EqualFold range row schema vs else row))) in Hall.
  - destruct (mapM_perm _ _ base _ (symmetry Hb) Hall) as (seen & Hseen & Hperm). exists seen. by rewrite Hperm.
  - intros row y. destruct (test t' where_ row schema) as [[]|]; cbn; [|done..]. intros Hnew. f_equal.
    apply (newRow_values t schema assignments vs) in Hnew as ->; [|by eapply Forall2_impl; [exact Hvs|]; cbn; naive_solver].
    unfold applyUpdatesToRow. apply foldl_perm; [apply range_perm|]. intros x z r Hx Hz. rewrite range_perm in Hx, Hz. by apply Hc.
Qed.

Lemma delete_agrees t t' st k rows base schema where_ located :
  plainTable schema = true → isolated k → schemas k = Some schema → st !! k = Some rows → base ≡ₚ rows →
  forallb (frozen pure) (option_list where_) = true →
  locate (positionsOf tryIndexLookup st k where_)
    (match where_ with None => λ _, Some true | _ => rowMatches evalOperand ParseExpression t schema where_ end) rows = Some located →
  ∃ seen, mapM (λ row, b ← test t' where_ row schema; Some (row, b)) base = Some seen ∧ seen ≡ₚ located.
Proof.
  intros Hp Hi Hs Hst Hb Hw Hl. apply (located_scan t t' _ _ _ _ schema) in Hl; [|by eauto using iso_lookup|done|done|].
  2: { intros row. destruct where_; [|done]. unfold rowMatches. by rewrite (plain_policies schema Hp). }
  destruct (mapM_perm _ _ base _ (symmetry Hb) Hl) as (seen & ? & ?). by exists seen.
Qed.

Lemma fill_none k schema rows : plainTable schema = true → FillAutoIncrementColumns fillColumn k schema rows = Some rows.
Proof.
  intros Hp. unfold FillAutoIncrementColumns. rewrite (foldM_ext _ (λ rows _, Some rows)).
  - induction (columnsOf schema) as [|x l IH]; [done|]. exact IH.
  - intros rows' [i col] (j & c & [= -> ->] & Hj)%elem_of_lookup_imap. unfold plainTable in Hp. destruct (Columns schema) eqn:Ec; [done|].
    rewrite <- Ec in *. destruct (Policies schema); [|done]. apply andb_true_iff in Hp as [_ Hp]. rewrite forallb_forall in Hp.
    destruct (andb_prop _ _ (Hp c (proj1 (list_elem_of_In _ _) (list_elem_of_lookup_2 _ _ _ Hj)))) as [Hc _].
    apply negb_true_iff in Hc. by rewrite Hc.
Qed.

Lemma plain_insert schema : plainTable schema = true → Partitioned schema || bool_decide (Columns schema = []) = false.
Proof.
  unfold plainTable. destruct (Columns schema); [done|]. destruct (Policies schema); [|done]. intros [Hp _]%andb_true_iff.
  apply negb_true_iff in Hp. by rewrite Hp.
Qed.

(** Updates of a table whose values can be evaluated. *)
Definition evaluates (t : T) (schema : TableSchema) (op : Op) : Prop :=
  match statementOf op with
  | Some (StUpdate _ assignments _ _ _ _ _) => Forall (λ a, evalOperand t (snd a) None (Some schema) ≠ None) assignments
  | _ => True
  end.

(** An operation buffered for a statement of this shape. *)
Definition ready (db : string) (schema : TableSchema) (P : Expression → bool) (op : Op) : Prop :=
  ∃ t st s, bufferedAs t db st s = Some op ∧ shaped P schema s = true.

Lemma op_agrees t t' db table op st st' rows base schema :
  plainTable schema = true → isolated (db, table) → schemas (db, table) = Some schema → st !! (db, table) = Some rows → base ≡ₚ rows →
  ready db schema (frozen pure) op → evaluates t' schema op → concerns db table op → commitOp t db op st = Some st' →
  ∃ seen rows', overlaid t' schema base op = Some seen ∧ st' !! (db, table) = Some rows' ∧ seen ≡ₚ rows'.
Proof.
  intros Hp Hi Hs Hst Hb (t0 & st0 & s & Hpend & Hsh) Hev [Hdb Htb] Happ. unfold overlayOp, applyOp, evaluates in *.
  destruct s; try discriminate Hpend; injection Hpend as <-; cbn in Hdb, Htb, Hsh, Happ, Hev |- *; subst table.
  - rewrite Hst in Happ. injection Happ as <-. exists [], []. by rewrite lookup_insert_eq.
  - destruct selectQuery, onConflict, orReplace; try discriminate Hsh. rewrite Hst, Hs in Happ. cbn in Happ.
    rewrite (plain_insert schema Hp), (BuildRows_stable t t' schema columns rows0 Hp Hsh) in Happ.
    destruct (built t' schema columns rows0) as [new|]; [|done]. cbn in Happ |- *. rewrite (fill_none _ _ _ Hp) in Happ. cbn in Happ.
    destruct (_ && _); [|done]. injection Happ as <-. exists (base ++ new), (rows ++ new). rewrite (iso_triggers _ Hi), lookup_insert_eq.
    split_and!; [done|done|]. by rewrite Hb.
  - destruct fromTable, fromSubquery; try discriminate Hsh. apply andb_true_iff in Hsh as [[Ha Hw]%andb_true_iff Hd].
    rewrite Hst, Hs in Happ. cbn in Happ. apply bind_Some in Happ as (located & Hl & (updated & Hu & Happ)%bind_Some).
    destruct (updateAllowed _ _ _); [|done]. injection Happ as <-.
    destruct (update_agrees t t' st (db, name tableName) rows base schema assignments where_ located updated) as (seen & Hseen & E); try done.
    exists seen, updated. rewrite (iso_triggers _ Hi), lookup_insert_eq. by split_and!.
  - rewrite Hst, Hs in Happ. cbn in Happ. apply bind_Some in Happ as (located & Hl & Happ).
    destruct (deleteAllowed _ _ _); [|done]. apply bind_Some in Happ as (st1 & _ & Happ). injection Happ as <-.
    destruct (delete_agrees t t' st (db, name tableName) rows base schema where_ located) as (seen & E & Hseen); try done. rewrite E. cbn.
    eexists _, _. rewrite (iso_triggers _ Hi), lookup_insert_eq. split_and!; [done|done|]. by rewrite Hseen.
Qed.

Lemma op_elsewhere t db table op st st' :
  isolated (db, table) → (∃ t0 st0 s, bufferedAs t0 db st0 s = Some op) → ¬ concerns db table op → commitOp t db op st = Some st' →
  st' !! (db, table) = st !! (db, table).
Proof.
  intros Hi (t0 & st0 & s & Hpend) Hn Happ. unfold applyOp in Happ.
  destruct s; try discriminate Hpend; injection Hpend as <-; cbn in Hn, Happ;
    (assert ((db, name tableName) ≠ (db, table)) as Hne by (intros [= E]; apply Hn; by split));
    repeat (apply bind_Some in Happ as (? & ? & Happ)).
  - injection Happ as <-. by rewrite lookup_insert_ne.
  - destruct selectQuery, onConflict; try by apply (iso_otherwise _ Hi) in Happ.
    destruct (_ || _); [by apply (iso_otherwise _ Hi) in Happ|]. repeat (apply bind_Some in Happ as (? & ? & Happ)).
    destruct (_ && _); [|done]. injection Happ as <-. by rewrite (iso_triggers _ Hi), lookup_insert_ne.
  - destruct fromTable, fromSubquery; try done. repeat (apply bind_Some in Happ as (? & ? & Happ)).
    destruct (updateAllowed _ _ _); [|done]. injection Happ as <-. by rewrite (iso_triggers _ Hi), lookup_insert_ne.
  - destruct (deleteAllowed _ _ _); [|done]. apply bind_Some in Happ as (st1 & Hc & Happ). injection Happ as <-.
    rewrite (iso_triggers _ Hi), lookup_insert_ne by done. by eapply iso_cascade.
Qed.

Lemma ops_agree t t' db table schema ops : ∀ st i st' n rows base,
  plainTable schema = true → isolated (db, table) → schemas (db, table) = Some schema → st !! (db, table) = Some rows → base ≡ₚ rows →
  Forall (λ op, (∃ t0 st0 s, bufferedAs t0 db st0 s = Some op) ∧
    (op_Table op = table → ready db schema (frozen pure) op ∧ evaluates t' schema op)) ops →
  commitOps t db ops st i = (st', n, true) →
  ∃ seen rows', foldM (overlaid t' schema) base (filter (concerns db table) ops) = Some seen ∧ st' !! (db, table) = Some rows' ∧ seen ≡ₚ rows'.
Proof.
  induction ops as [|op ops IH]; intros st i st' n rows base Hp Hi Hs Hst Hb Hops Happ; cbn [applyOps] in Happ.
  { injection Happ as <- _. by exists base, rows. }
  apply Forall_cons in Hops as [[Hpend Hready] Hops]. destruct (commitOp t db op st) as [st1|] eqn:E; [|done].
  rewrite filter_cons. destruct (decide (concerns db table op)) as [Hc|Hn].
  - destruct (Hready (proj2 Hc)) as [Hr He].
    destruct (op_agrees t t' db table op st st1 rows base schema) as (seen & rows1 & Eo & Hst1 & Hb1); try done. cbn. rewrite Eo. cbn. by eapply IH.
  - apply (IH st1 (S i) st' n rows base); try done. by rewrite (op_elsewhere t db table op st st1).
Qed.

(** *** From the statement to the operation *)

Section Buffered.
Context {D : Type} (ToUpper : text → text) (evalFunctionCall : text → list Expression → M D unit goValue).
Abbreviation frozenBy := (freeze ToUpper evalFunctionCall).

(** The statement was frozen and buffered as this operation, at some moment, with some tables. *)
Definition buffered (db : string) (s : Stmt) (op : Op) : Prop :=
  ∃ t st d d' s', frozenBy s d = (d', Ok s') ∧ bufferedAs t db st s' = Some op.

Lemma freezeWhere_froze w d d' w' :
  freezeWhere ToUpper evalFunctionCall w d = (d', Ok w') → forallb (freezable ToUpper pure) (option_list w) = true →
  forallb (frozen pure) (option_list w') = true.
Proof.
  destruct w as [e|]; cbn; intros E; steps; [|done]. cbn. rewrite !andb_true_r. by eapply freeze_froze.
Qed.

Lemma assignments_froze (l l' : list Assignment) :
  Forall2 (λ a a' : Assignment, fst a = fst a' ∧ froze ToUpper pure (snd a) (snd a')) l l' →
  forallb (λ a, freezable ToUpper pure (snd a) && columnFree (snd a)) l = true →
  forallb (λ a, frozen pure (snd a) && columnFree (snd a)) l' = true ∧ l'.*1 = l.*1.
Proof.
  induction 1 as [|a a' l l' [Hc Hf] _ IH]; [done|]. cbn. intros [[H1 H2]%andb_true_iff H3]%andb_true_iff.
  destruct (Hf H1) as [-> Hcf], (IH H3) as [-> ->]. rewrite (Hcf H2), Hc. done.
Qed.

Lemma freeze_shaped schema s d d' s' :
  frozenBy s d = (d', Ok s') → shaped (freezable ToUpper pure) schema s = true → shaped (frozen pure) schema s' = true.
Proof.
  destruct s; cbn [freeze shaped]; try done; intros E Hs.
  - by steps.
  - destruct selectQuery, onConflict, orReplace; try done. steps. cbn [shaped].
    match goal with H : mapM _ _ _ = _ |- _ => apply (mapM_Ok _ (Forall2 (froze ToUpper pure))) in H; [revert Hs; induction H as [|row row' l l' Hr _ IH]|] end.
    + done.
    + cbn. intros [H1 H2]%andb_true_iff. by rewrite (proj1 (froze_all _ _ _ _ Hr H1)), IH.
    + apply Forall_true. intros row d1 d2 ys Hy. apply (mapM_Ok _ (froze ToUpper pure)) in Hy; [done|]. apply Forall_true. intros e. apply freeze_froze.
  - destruct fromTable, fromSubquery; try done. steps. cbn [shaped]. apply andb_true_iff in Hs as [[Ha Hw]%andb_true_iff Hd].
    match goal with H : freezeWhere _ _ _ _ = _ |- _ => rewrite (freezeWhere_froze _ _ _ _ H Hw) end.
    match goal with H : mapM _ _ _ = _ |- _ => apply (mapM_Ok _ (λ a a' : Assignment, fst a = fst a' ∧ froze ToUpper pure (snd a) (snd a'))) in H end.
    + destruct (assignments_froze _ _ H Ha) as [-> ->]. by rewrite Hd.
    + apply Forall_true. intros [c e] d1 d2 y Hy. steps. cbn. split; [done|]. by eapply freeze_froze.
  - steps. cbn [shaped]. by eapply freezeWhere_froze.
Qed.

End Buffered.
End Agreement.

(** ** A run *)

#[export] Instance goValue_eq_dec : EqDecision goValue.
Proof. solve_decision. Defined.

(** Literals, two columns, equality and NOW, over a table of two columns. *)
Module Run.
Definition a : text := [97].
Definition b : text := [98].
Definition t_ : text := [116].
Definition now : Expression := EFunctionCall (rs "NOW") [].
Definition one : Expression := EValue (VInt 1).

Definition literal (v : Value) : goValue :=
  match v with VInt z => GInt64 z | VFloat f => GFloat f | VString s => GString s | VBool b => GBool b | VNull => GNil end.

Fixpoint eval (t : Z) (e : Expression) (row : option Row) (schema : option TableSchema) : option goValue :=
  match e with
  | EValue v => Some (literal v)
  | EColumnRef n _ => row ≫= (λ r, r !! if bool_decide (n = a) then 0%nat else 1%nat)
  | EBinary e1 _ e2 => l ← eval t e1 row schema; r ← eval t e2 row schema; Some (GBool (bool_decide (l = r)))
  | EFunctionCall n _ => if volatile id n then Some (GInt64 t) else None
  | ECast e _ => eval t e row schema
  | _ => None
  end.

#[global] Instance eval_laws : Evaluator eval (λ _, false).
Proof.
  split; try done. intros t row schema t' row' schema' e He Hc. destruct e; try done. cbn in *.
  apply Forall_cons in Hc as [-> [-> _]%Forall_cons]. done.
Qed.

(** NOW reads a clock that ticks. *)
Definition call (_ : text) (_ : list Expression) : M Z unit goValue := λ d, (d + 1, Ok (GInt64 d)).

Definition schema : TableSchema := mkSchema [mkColumn a true false None None []; mkColumn b false false None None []] [] false.
Definition same (x y : text) : bool := bool_decide (x = y).
Definition table (_ : text) : string := "t".
Definition none (_ : text) : option Expression := None.
Definition as_is (v : goValue) (_ : ColumnSchema) : option goValue := Some v.
Definition schemas (_ : string * string) : option TableSchema := Some schema.
Abbreviation tables := (gmap (string * string) (list Row)).
Definition allowed (_ : tables) (_ : string * string) (_ : list Row) : bool := true.
Definition lookup (_ : tables) (_ : string * string) (_ : Expression) : option (list nat) := None.
Definition cascade (st : tables) (_ : string * string) (_ : list Row) : option tables := Some st.
Definition triggers (st : tables) (_ : string * string) (_ : string) : tables := st.
Definition otherwise (_ : Z) (_ : tables) (_ : string * string) (_ : Stmt) : option tables := None.
Definition numbered (_ : string * string) (_ : nat) (rows : list Row) : option (list Row) := Some rows.

Definition commit := applyOps eval id same table none as_is (λ _, []) schemas (λ _ _, true) allowed allowed allowed numbered lookup cascade triggers otherwise.
Definition overlay := applyTxOverlay eval id same none as_is schemas (@reverse (text * goValue)).
Definition buffer := pending eval table schemas.
Definition frozenAt := freeze id call.

Definition stmts : list Stmt :=
  [StInsert t_ [] [[one; now]] None None None false;
   StUpdate t_ [(b, now)] (Some (EBinary (EColumnRef a []) (rs "=") one)) None [] [] None;
   StDelete t_ (Some (EBinary (EColumnRef a []) (rs "=") (EValue (VInt 5)))) None].

Definition base : list Row := [[GInt64 5; GNil]; [GInt64 7; GNil]].
Definition st : tables := {[("d"%string, "t"%string) := base]}.

(** The operations of the statements, buffered when the clock shows 100. *)
Definition ops : list (PendingOp (dyn Row)) :=
  omap (λ s, match frozenAt s 100 with (_, Ok s) => buffer 100 "d" st s | _ => None end) stmts.

Lemma isolated_t : isolated eval schemas lookup cascade triggers otherwise ("d", "t").
Proof. split; [done| |done|done]. by intros st0 k del st' [= <-]. Qed.
End Run.


(** ** Where the two part *)

(** SET b = a: the overlay evaluates it without a row and fails; the commit does not. *)
Example overlay_without_row :
  let op := Run.buffer 0 "d" Run.st (StUpdate Run.t_ [(Run.b, EColumnRef Run.a [])] None None [] [] None) in
  (op ≫= λ op, Run.overlay 0 "d" "t" [op] Run.base) = None ∧
  (op ≫= λ op, (Run.commit 0 "d" [op] Run.st 0).1.1 !! ("d", "t")%string) = Some [[GInt64 5; GInt64 5]; [GInt64 7; GInt64 7]].
Proof. by vm_compute. Qed.

(** CAST (NOW() AS ...) is not frozen: the transaction reads one time and commits another. *)
Example cast_not_frozen :
  let e := ECast Run.now (rs "TEXT") in
  freezeVolatileExpr id Run.call e 100 = (100, Ok e) ∧ Run.eval 200 e None None ≠ Run.eval 300 e None None.
Proof. split; [by vm_compute|by vm_compute]. Qed.

(** A statement buffered in one database is applied to the database that is current at COMMIT. *)
Example other_database :
  let st := <[("e", "t")%string := []]> Run.st in
  let op := Run.buffer 0 "d" st (StInsert Run.t_ [] [[Run.one; Run.one]] None None None false) in
  op_DB <$> op = Some "d"%string ∧
  (op ≫= λ op, (Run.commit 0 "e" [op] st 0).1.1 !! ("d", "t")%string) = Some Run.base ∧
  (op ≫= λ op, (Run.commit 0 "e" [op] st 0).1.1 !! ("e", "t")%string) = Some [[GInt64 1; GInt64 1]].
Proof. by vm_compute. Qed.
