(* ===== verification/AuditLog.v ===== *)
(** * The audit log

    [server/internal/core/audit]: the entries with their chain of hashes
    ([log.go]) and the log in a system table ([table_log.go]).  The log verifies
    whatever was appended to it and removed from it in one run of the server,
    and the last hash commits to the entries before it. *)

From S2P Require Import Prelude Bytes Strconv.

(** ** Entries *)

(** Of the time of an entry its text, in RFC 3339 with nanoseconds, is all that is used. *)
Record Entry : Type := mkEntry {
  ID : Z; OccurredAt : bytes; Actor : bytes; Action : bytes; Target : bytes; Detail : bytes; PrevHash : bytes; EntryHash : bytes }.

Definition bar : byte := Byte.x7c.

(** [hex.EncodeToString]. *)
Definition hexDigit (n : Z) : byte := byte.of_Z (if n <? 10 then 48 + n else 87 + n).
Definition hexString (s : bytes) : bytes := flat_map (λ b, [hexDigit (byte.unsigned b / 16); hexDigit (byte.unsigned b mod 16)]) s.

Definition chainPayload (e : Entry) (prevHash : bytes) : bytes :=
  digits 20 (ID e) ++ bar :: OccurredAt e ++ bar :: Actor e ++ bar :: Action e ++ bar :: Target e ++ bar :: Detail e ++ bar :: prevHash.

(** [sha256.Sum256]. *)
Definition HashChain (sha256 : bytes → bytes) (e : Entry) (prevHash : bytes) : bytes := hexString (sha256 (chainPayload e prevHash)).

Definition chained (sha256 : bytes → bytes) (e : Entry) (prevHash : bytes) : Entry :=
  mkEntry (ID e) (OccurredAt e) (Actor e) (Action e) (Target e) (Detail e) prevHash (HashChain sha256 e prevHash).

(** ** The table *)

Record auditRow : Type := mkRow {
  r_id : Z; r_occurred_at : bytes; r_actor : bytes; r_action : bytes; r_target : bytes; r_detail : bytes; r_prev_hash : bytes;
  r_entry_hash : bytes; r_data : bytes }.

Record TableLog : Type := mkLog { rows : list auditRow; nextID : Z; lastHash : bytes }.

(** A log over the rows of the table; [EnsureTable] makes the table when there is none. *)
Definition NewTableLog (stored : list auditRow) : TableLog := mkLog stored 0 [].

Section Log.
(** [sha256], and [json.Marshal] and [json.Unmarshal] of an entry. *)
Context (sha256 : bytes → bytes) (Marshal : Entry → option bytes) (Unmarshal : bytes → option Entry).

Definition rowOf (e : Entry) (data : bytes) : auditRow :=
  mkRow (s64 (ID e)) (OccurredAt e) (Actor e) (Action e) (Target e) (Detail e) (PrevHash e) (EntryHash e) data.

(** The insertion of a row: the id is the primary key; [works] is whether the storage does. *)
Definition InsertRow (works : bool) (r : auditRow) (l : list auditRow) : option (list auditRow) :=
  if works && negb (bool_decide (r_id r ∈ r_id <$> l)) then Some (l ++ [r]) else None.

(** The text of the zero time. *)
Definition zeroTime : bytes := str "0001-01-01T00:00:00Z".

(** The state after it, and whether the entry was written. *)
Definition Append (works : bool) (now : bytes) (entry : Entry) (t : TableLog) : TableLog * bool :=
  let nextID := if ID entry =? 0 then u64 (nextID t + 1) else nextID t in
  let t := mkLog (rows t) nextID (lastHash t) in
  let id := if ID entry =? 0 then nextID else ID entry in
  let at_ := if bool_decide (OccurredAt entry = zeroTime) then now else OccurredAt entry in
  let entry := chained sha256 (mkEntry id at_ (Actor entry) (Action entry) (Target entry) (Detail entry) [] []) (lastHash t) in
  match Marshal entry with
  | None => (t, false)
  | Some data =>
      match InsertRow works (rowOf entry data) (rows t) with
      | None => (t, false)
      | Some rows => (mkLog rows nextID (EntryHash entry), true)
      end
  end.

(** Also [readAllUnlocked]; an entry that cannot be read is skipped. *)
Definition ReadAll (t : TableLog) : list Entry := omap (λ r, Unmarshal (r_data r)) (rows t).

Definition LastHash (t : TableLog) : bytes :=
  match lastHash t with
  | [] => from_option EntryHash [] (last (ReadAll t))
  | h => h
  end.

(** [Ok] of the number of entries, or the number of the entry where the chain breaks. *)
Fixpoint verify (prevHash : bytes) (i : nat) (entries : list Entry) : outcome nat nat :=
  match entries with
  | [] => Ok i
  | e :: entries => if bool_decide (HashChain sha256 e prevHash = EntryHash e) then verify (EntryHash e) (S i) entries else Err i
  end.

Definition VerifyChain (t : TableLog) : outcome nat nat := verify [] 0 (ReadAll t).

(** The loop that writes the kept entries again; [works] says of each insertion whether the storage works. *)
Fixpoint reinsert (works : nat → bool) (entries : list Entry) (t : TableLog) : TableLog * bool :=
  match entries with
  | [] => (t, true)
  | e :: entries =>
      let nextID := Z.max (ID e) (nextID t) in
      let e := chained sha256 e (lastHash t) in
      match Marshal e with
      | None => (mkLog (rows t) nextID (lastHash t), false)
      | Some data =>
          match InsertRow (works 0%nat) (rowOf e data) (rows t) with
          | None => (mkLog (rows t) nextID (lastHash t), false)
          | Some rows => reinsert (λ i, works (S i)) entries (mkLog rows nextID (EntryHash e))
          end
      end
  end.

(** [truncates] is whether TruncateTable works. *)
Definition TruncateKeepLast (truncates : bool) (works : nat → bool) (n : Z) (t : TableLog) : TableLog * bool :=
  let entries := ReadAll t in
  if truncates then
    let kept := if (0 <? n) && (n <? Z.of_nat (length entries)) then drop (length entries - Z.to_nat n) entries
                else if n =? 0 then [] else entries in
    reinsert works kept (mkLog [] 0 [])
  else (t, false).

(** *** Operations in turn *)

Inductive logOp : Type :=
| OAppend (works : bool) (now : bytes) (entry : Entry)
| OTruncate (truncates : bool) (works : nat → bool) (n : Z).

Definition perform (o : logOp) (t : TableLog) : TableLog :=
  match o with
  | OAppend works now entry => fst (Append works now entry t)
  | OTruncate truncates works n => fst (TruncateKeepLast truncates works n t)
  end.

Definition performAll (ops : list logOp) (t : TableLog) : TableLog := foldl (λ t o, perform o t) t ops.
End Log.

(** ** Texts *)

Lemma split_at_bar (a a' x x' : bytes) : bar ∉ a → bar ∉ a' → a ++ bar :: x = a' ++ bar :: x' → a = a' ∧ x = x'.
Proof.
  revert a'. induction a as [|b a IH]; intros [|b' a'] Ha Ha' E; cbn in E.
  - by injection E.
  - injection E as <- _. destruct Ha'. left.
  - injection E as -> _. destruct Ha. left.
  - injection E as <- E. apply not_elem_of_cons in Ha as [_ Ha], Ha' as [_ Ha']. by destruct (IH a' Ha Ha' E) as [-> ->].
Qed.

Lemma split_at_last_bar (a a' x x' : bytes) : bar ∉ x → bar ∉ x' → a ++ bar :: x = a' ++ bar :: x' → a = a' ∧ x = x'.
Proof.
  intros Hx Hx' E. apply (f_equal reverse) in E. rewrite !reverse_app, !reverse_cons, <- !app_assoc in E. cbn in E.
  apply split_at_bar in E as [E1%(inj reverse) E2%(inj reverse)]; [done|by rewrite elem_of_reverse..].
Qed.

Lemma digits_bar fuel n : 0 <= n → bar ∉ digits fuel n.
Proof.
  revert n. induction fuel as [|fuel IH]; intros n Hn; cbn [digits]; [apply not_elem_of_nil|].
  assert (∀ d, 0 <= d < 10 → bar ∉ [digit d]) as Hd.
  { intros d Hd. apply not_elem_of_cons. split; [|apply not_elem_of_nil]. intros E. apply (f_equal byte.unsigned) in E.
    unfold digit in E. rewrite byte.unsigned_of_Z in E. unfold byte.wrap in E. rewrite Z.mod_small in E by lia. cbn in E. lia. }
  destruct (Z.ltb_spec n 10); [apply Hd; lia|]. apply not_elem_of_app. split; [apply IH, Z.div_pos; lia|apply Hd, Z.mod_pos_bound; lia].
Qed.

Lemma digits_inj n n' : 0 <= n < 2 ^ 64 → 0 <= n' < 2 ^ 64 → digits 20 n = digits 20 n' → n = n'.
Proof.
  intros Hn Hn' E. assert (parseDigits 0 (digits 20 n) = Some n) as H1 by (apply parseDigits_digits; cbn; lia).
  assert (parseDigits 0 (digits 20 n') = Some n') as H2 by (apply parseDigits_digits; cbn; lia). congruence.
Qed.

Lemma unsigned_hexDigit n : 0 <= n < 16 → byte.unsigned (hexDigit n) = if n <? 10 then 48 + n else 87 + n.
Proof. intros Hn. unfold hexDigit. rewrite byte.unsigned_of_Z. unfold byte.wrap. rewrite Z.mod_small; [done|]. destruct (Z.ltb_spec n 10); lia. Qed.

Lemma hexDigit_inj n n' : 0 <= n < 16 → 0 <= n' < 16 → hexDigit n = hexDigit n' → n = n'.
Proof.
  intros Hn Hn' E. apply (f_equal byte.unsigned) in E. rewrite !unsigned_hexDigit in E by done.
  destruct (Z.ltb_spec n 10), (Z.ltb_spec n' 10); lia.
Qed.

Lemma hexString_inj s s' : hexString s = hexString s' → s = s'.
Proof.
  revert s'. induction s as [|b s IH]; intros [|b' s'] E; cbn in E; try done. injection E as E1 E2 E3. f_equal; [|by apply IH].
  pose proof (byte.unsigned_range b). pose proof (byte.unsigned_range b').
  apply hexDigit_inj in E1; [|split; [apply Z.div_pos|apply Z.div_lt_upper_bound]; lia..].
  apply hexDigit_inj in E2; [|apply Z.mod_pos_bound; lia..].
  rewrite <- (byte.of_Z_unsigned b), <- (byte.of_Z_unsigned b'). f_equal.
  rewrite (Z.div_mod (byte.unsigned b) 16), (Z.div_mod (byte.unsigned b') 16) by lia. congruence.
Qed.

(** A hash is a text of letters and digits. *)
Lemma hexString_ascii s : Forall (λ b, byte.unsigned b < 128 ∧ b ≠ bar) (hexString s).
Proof.
  induction s as [|b s IH]; [constructor|]. cbn. pose proof (byte.unsigned_range b).
  assert (∀ n, 0 <= n < 16 → byte.unsigned (hexDigit n) < 128 ∧ hexDigit n ≠ bar) as Hd.
  { intros n Hn. pose proof (unsigned_hexDigit n Hn) as Hu. destruct (Z.ltb_spec n 10); (split; [lia|]); intros E; rewrite E in Hu; cbn in Hu; lia. }
  repeat constructor; [apply Hd; split; [apply Z.div_pos|apply Z.div_lt_upper_bound]; lia..|apply Hd, Z.mod_pos_bound; lia| |done]. apply Hd, Z.mod_pos_bound; lia.
Qed.

(** ** Chains *)

(** The hash an entry after these is chained to. *)
Definition chainHash (entries : list Entry) : bytes := from_option EntryHash [] (last entries).

Section Chain.
Context (sha256 : bytes → bytes).

Lemma verify_app p i l l' :
  verify sha256 p i (l ++ l') =
  match verify sha256 p i l with Ok j => verify sha256 (from_option EntryHash p (last l)) j l' | r => r end.
Proof.
  revert p i. induction l as [|e l IH]; intros p i; [done|]. cbn [app verify]. case_bool_decide; [|done]. rewrite IH.
  replace (from_option EntryHash p (last (e :: l))) with (from_option EntryHash (EntryHash e) (last l)); [done|].
  destruct l as [|x l]; [done|]. change (last (e :: x :: l)) with (last (x :: l)). destruct (last (x :: l)) eqn:E; [done|]. by apply last_None in E.
Qed.

Lemma verify_snoc l e n :
  verify sha256 [] 0 (l ++ [e]) = Ok n ↔ ∃ m, n = S m ∧ verify sha256 [] 0 l = Ok m ∧ HashChain sha256 e (chainHash l) = EntryHash e.
Proof.
  rewrite verify_app. fold (chainHash l). destruct (verify sha256 [] 0 l) as [m| |] eqn:E; cbn; [|naive_solver..].
  case_bool_decide as H.
  - split; [intros [= <-]; by exists m|]. by intros (? & -> & [= <-] & _).
  - split; [done|]. by intros (? & _ & _ & ?).
Qed.

(** *** The last hash commits to the log *)

(** Entries whose payload can be taken apart: neither the time nor the actor, the action or the target has a bar. *)
Definition separable (e : Entry) : Prop :=
  0 <= ID e < 2 ^ 64 ∧ (bar ∉ OccurredAt e) ∧ (bar ∉ Actor e) ∧ (bar ∉ Action e) ∧ (bar ∉ Target e).

(** All of an entry but its copy of the hash before it, which is not verified. *)
Definition content (e : Entry) : Entry := mkEntry (ID e) (OccurredAt e) (Actor e) (Action e) (Target e) (Detail e) [] (EntryHash e).

Lemma payload_inj e e' p p' :
  separable e → separable e' → bar ∉ p → bar ∉ p' → chainPayload e p = chainPayload e' p' → EntryHash e = EntryHash e' →
  content e = content e' ∧ p = p'.
Proof.
  intros (Hi & Ht & Ha & Hc & Hg) (Hi' & Ht' & Ha' & Hc' & Hg') Hp Hp' E Hh. unfold chainPayload in E.
  apply split_at_bar in E as [Ei E]; [|apply digits_bar; lia..]. apply digits_inj in Ei; [|done..].
  apply split_at_bar in E as [Et E]; [|done..]. apply split_at_bar in E as [Ea E]; [|done..].
  apply split_at_bar in E as [Ec E]; [|done..]. apply split_at_bar in E as [Eg E]; [|done..].
  apply split_at_last_bar in E as [Ed Ep]; [|done..]. split; [|done]. unfold content. congruence.
Qed.

Lemma chainHash_bar l n : verify sha256 [] 0 l = Ok n → bar ∉ chainHash l.
Proof.
  destruct l as [|e l _] using rev_ind; [intros _; apply not_elem_of_nil|].
  intros (m & _ & _ & Hh)%verify_snoc. unfold chainHash. rewrite last_snoc. cbn. rewrite <- Hh. unfold HashChain.
  intros Hin. pose proof (hexString_ascii (sha256 (chainPayload e (chainHash l)))) as Hf. rewrite Forall_forall in Hf. by destruct (Hf _ Hin).
Qed.

Lemma hash_nonempty l e n : (∀ s, sha256 s ≠ []) → verify sha256 [] 0 (l ++ [e]) = Ok n → EntryHash e ≠ [].
Proof.
  intros Hs (m & _ & _ & Hh)%verify_snoc. rewrite <- Hh. unfold HashChain. destruct (sha256 _) as [|b s] eqn:E; [by destruct (Hs (chainPayload e (chainHash l)))|]. done.
Qed.

(** C14: the audit log is tamper-evident.  When two logs verify and have the same last hash, as an archive records it, then they have the
    same entries, field for field but for the copies of the previous hashes, whatever was changed, dropped or added in between; or two
    different texts with the same SHA-256 are at hand.  The actor, the action and the target may not contain the separator. *)
Theorem audit_tamper_evident l l' n n' :
  (∀ s, sha256 s ≠ []) → Forall separable l → Forall separable l' →
  verify sha256 [] 0 l = Ok n → verify sha256 [] 0 l' = Ok n' → chainHash l = chainHash l' →
  content <$> l = content <$> l' ∨ ∃ p q, p ≠ q ∧ sha256 p = sha256 q.
Proof.
  intros Hs. revert l' n n'. induction l as [|e l IH] using rev_ind; intros l' n n' Hl Hl' V V' E;
    destruct l' as [|e' l' _] using rev_ind; [by left|..].
  - unfold chainHash in E. rewrite last_snoc in E. by destruct (hash_nonempty _ _ _ Hs V').
  - unfold chainHash in E. rewrite last_snoc in E. by destruct (hash_nonempty _ _ _ Hs V).
  - unfold chainHash in E. rewrite !last_snoc in E. cbn in E. apply Forall_app in Hl as [Hl [He _]%Forall_cons], Hl' as [Hl' [He' _]%Forall_cons].
    apply verify_snoc in V as (m & -> & V & Hh), V' as (m' & -> & V' & Hh').
    destruct (decide (chainPayload e (chainHash l) = chainPayload e' (chainHash l'))) as [Ep|Ep].
    + destruct (payload_inj e e' (chainHash l) (chainHash l')) as [Ec Eh]; [done|done|by eapply chainHash_bar..|done|done|].
      destruct (IH l' m m' Hl Hl' V V' Eh) as [Hc|]; [left|by right]. by rewrite !fmap_app, Hc; cbn; rewrite Ec.
    + right. eexists _, _. split; [exact Ep|]. apply hexString_inj. change (HashChain sha256 e (chainHash l) = HashChain sha256 e' (chainHash l')). congruence.
Qed.
End Chain.

(** ** The log verifies *)

(** [encoding/json] gives back an entry whose texts are valid UTF-8; ASCII texts are. *)
Class EntryJson (Marshal : Entry → option bytes) (Unmarshal : bytes → option Entry) (utf8 : bytes → Prop) : Prop := {
  entry_json e b :
    Marshal e = Some b → Forall utf8 [OccurredAt e; Actor e; Action e; Target e; Detail e; PrevHash e; EntryHash e] → Unmarshal b = Some e;
  utf8_ascii s : Forall (λ b, byte.unsigned b < 128) s → utf8 s }.

Section Verifies.
Context (sha256 : bytes → bytes) (Marshal : Entry → option bytes) (Unmarshal : bytes → option Entry) (utf8 : bytes → Prop).
Context `{!EntryJson Marshal Unmarshal utf8}.

Definition validEntry (e : Entry) : Prop := Forall utf8 [OccurredAt e; Actor e; Action e; Target e; Detail e].

Definition validOp (o : logOp) : Prop :=
  match o with OAppend _ now entry => utf8 now ∧ validEntry entry | OTruncate _ _ _ => True end.

Record intact (t : TableLog) : Prop := {
  in_read : length (ReadAll Unmarshal t) = length (rows t);
  in_valid : Forall validEntry (ReadAll Unmarshal t);
  in_chain : verify sha256 [] 0 (ReadAll Unmarshal t) = Ok (length (rows t));
  in_last : lastHash t = chainHash (ReadAll Unmarshal t) }.

Lemma hash_utf8 s : utf8 (hexString s).
Proof. apply (utf8_ascii (Marshal := Marshal) (Unmarshal := Unmarshal)). eapply Forall_impl; [apply hexString_ascii|]. cbn. tauto. Qed.

Lemma lastHash_utf8 t : intact t → utf8 (lastHash t).
Proof.
  intros [_ _ Hc ->]. destruct (ReadAll Unmarshal t) as [|e l _] using rev_ind; [apply (utf8_ascii (Marshal := Marshal) (Unmarshal := Unmarshal)); constructor|].
  apply verify_snoc in Hc as (m & _ & _ & Hh). unfold chainHash. rewrite last_snoc. cbn. rewrite <- Hh. apply hash_utf8.
Qed.

(** Writing the next entry keeps the log intact. *)
Lemma insert_intact t e data works rows' n :
  intact t → validEntry e → Marshal (chained sha256 e (lastHash t)) = Some data →
  InsertRow works (rowOf (chained sha256 e (lastHash t)) data) (rows t) = Some rows' →
  intact (mkLog rows' n (HashChain sha256 e (lastHash t))).
Proof.
  intros Ht He Hm Hi. pose proof (lastHash_utf8 t Ht) as Hu. destruct Ht as [Hr Hv Hc Hl]. unfold InsertRow in Hi. destruct (_ && _); [|done]. injection Hi as <-.
  set (e' := chained sha256 e (lastHash t)) in *.
  assert (Unmarshal data = Some e') as Hd.
  { apply entry_json; [done|]. unfold validEntry in He. rewrite !Forall_cons in *. destruct He as (? & ? & ? & ? & ? & _).
    cbn. split_and!; try done. apply hash_utf8. }
  assert (ReadAll Unmarshal (mkLog (rows t ++ [rowOf e' data]) n (HashChain sha256 e (lastHash t))) = ReadAll Unmarshal t ++ [e']) as E.
  { unfold ReadAll. cbn [rows]. rewrite omap_app. cbn. by rewrite Hd. }
  split; rewrite E; cbn [rows lastHash].
  - rewrite !length_app, Hr. done.
  - apply Forall_app. split; [done|]. by constructor.
  - rewrite length_app. cbn. rewrite Nat.add_1_r. apply verify_snoc. exists (length (rows t)). split_and!; [done|done|]. by rewrite <- Hl.
  - unfold chainHash. by rewrite last_snoc.
Qed.

Lemma intact_new : intact (NewTableLog []).
Proof. split; [done|constructor|done|done]. Qed.

Lemma intact_ext t n : intact t → intact (mkLog (rows t) n (lastHash t)).
Proof. by intros [? ? ? ?]. Qed.

Lemma Append_intact works now e t : intact t → utf8 now → validEntry e → intact (fst (Append sha256 Marshal works now e t)).
Proof.
  intros Ht Hn He. unfold Append. set (n := if ID e =? 0 then _ else _). cbv zeta. cbn [lastHash rows].
  set (e' := mkEntry _ _ _ _ _ _ _ _).
  destruct (Marshal (chained sha256 e' (lastHash t))) as [data|] eqn:Em; [|by apply intact_ext].
  destruct (InsertRow works _ (rows t)) as [rows'|] eqn:Ei; [|by apply intact_ext]. eapply insert_intact; [done| |done|done].
  unfold validEntry in *. rewrite !Forall_cons in *. cbn. destruct He as (? & ? & ? & ? & ? & _). split_and!; try done. by case_bool_decide.
Qed.

Lemma reinsert_intact entries : ∀ works t, intact t → Forall validEntry entries → intact (fst (reinsert sha256 Marshal works entries t)).
Proof.
  induction entries as [|e entries IH]; intros works t Ht He; [done|]. cbn [reinsert]. apply Forall_cons in He as [He Hes].
  destruct (Marshal _) as [data|] eqn:Em; [|by apply intact_ext]. destruct (InsertRow _ _ _) as [rows'|] eqn:Ei; [|by apply intact_ext].
  apply IH; [|done]. by eapply insert_intact.
Qed.

Lemma perform_intact o t : intact t → validOp o → intact (perform sha256 Marshal Unmarshal o t).
Proof.
  intros Ht Ho. destruct o as [works now e|truncates works n]; cbn [perform].
  - destruct Ho. by apply Append_intact.
  - unfold TruncateKeepLast. destruct truncates; [|done]. apply reinsert_intact; [apply intact_new|].
    pose proof (in_valid _ Ht) as Hv. destruct (_ && _); [by apply Forall_drop|]. by destruct (n =? 0).
Qed.

End Verifies.

(** ** Runs *)

#[export] Instance Entry_eq_dec : EqDecision Entry.
Proof. solve_decision. Defined.

(** A hash without collisions, and a JSON with a text for each entry of a run. *)
Module Run.
Definition sha (s : bytes) : bytes := Byte.x00 :: s.
Definition now : bytes := str "2024-05-01T10:00:00Z".
Definition asked (action : string) : Entry := mkEntry 0 zeroTime (str "ann") (str action) (str "t") [] [] [].
Definition written (id : Z) (action : string) (prev : bytes) : Entry :=
  chained sha (mkEntry id now (str "ann") (str action) (str "t") [] [] []) prev.

Definition first : Entry := written 1 "INSERT" [].
Definition second : Entry := written 2 "DELETE" (EntryHash first).
Definition third : Entry := written 3 "DELETE" (EntryHash first).
Definition kept : Entry := written 3 "DELETE" [].
Definition again : Entry := written 1 "DELETE" [].
Definition loose : Entry := written 2 "DELETE" [].
Definition known : list (byte * Entry) :=
  [(Byte.x31, first); (Byte.x32, second); (Byte.x33, third); (Byte.x34, kept); (Byte.x35, again); (Byte.x36, loose)].

Definition Marshal (e : Entry) : option bytes := (λ x, [fst x]) <$> List.find (λ x, bool_decide (snd x = e)) known.
Definition Unmarshal (b : bytes) : option Entry := snd <$> List.find (λ x, bool_decide ([fst x] = b)) known.

#[global] Instance json : EntryJson Marshal Unmarshal (λ _, True).
Proof.
  split; [|done]. intros e b Hm _. unfold Marshal in Hm. destruct (List.find _ known) as [[c e']|] eqn:E; [|done]. injection Hm as <-.
  apply find_some in E as [Hin He%bool_decide_eq_true]. cbn in He. subst e'.
  repeat (destruct Hin as [[= <- <-]|Hin]; [reflexivity|]). done.
Qed.

(** The second entry is refused and asked for again; then all but the last entry are removed. *)
Definition ops : list logOp :=
  [OAppend true now (asked "INSERT"); OAppend false now (asked "DELETE"); OAppend true now (asked "DELETE"); OTruncate true (λ _, true) 1].
Definition after (n : nat) : TableLog := performAll sha Marshal Unmarshal (take n ops) (NewTableLog []).
End Run.


Lemma audit_tamper_evident_witness :
  let l := [Run.first; Run.third] in
  let l' := [Run.first; mkEntry 3 Run.now (str "ann") (str "DELETE") (str "t") [] (str "other") (EntryHash Run.third)] in
  l ≠ l' ∧ content <$> l = content <$> l'.
Proof.
  intros l l'. split; [vm_compute; discriminate|].
  destruct (audit_tamper_evident Run.sha l l' 2 2) as [H|(p & q & Hne & E)].
  - discriminate.
  - repeat constructor; vm_compute; try discriminate; intros H; repeat (inversion H; clear H; subst; rename H2 into H).
  - repeat constructor; vm_compute; try discriminate; intros H; repeat (inversion H; clear H; subst; rename H2 into H).
  - vm_compute. reflexivity.
  - vm_compute. reflexivity.
  - reflexivity.
  - exact H.
  - injection E as E. contradiction.
Defined.

(** ** What the chain does not show *)

(** The separator in a text: a part of the actor is moved to the action, and no hash changes. *)
Example separator_moves sha256 prev :
  HashChain sha256 (mkEntry 1 Run.now (str "ann|DROP") (str "t") [] [] [] []) prev =
  HashChain sha256 (mkEntry 1 Run.now (str "ann") (str "DROP|t") [] [] [] []) prev.
Proof. reflexivity. Qed.

(** A log whose last entries are removed verifies. *)
Example tail_removed_verifies : verify Run.sha [] 0 [Run.first; Run.third] = Ok 2%nat ∧ verify Run.sha [] 0 [Run.first] = Ok 1%nat.
Proof. split; vm_compute; reflexivity. Qed.

(** After a restart the numbers and the chain start anew: the first entry has a number that is taken and is lost, the next one is
    chained to nothing, and the log no longer verifies. *)
Example restart_breaks :
  let t := NewTableLog (rows (Run.after 1)) in
  let '(t1, ok1) := Append Run.sha Run.Marshal true Run.now (Run.asked "DELETE") t in
  let '(t2, ok2) := Append Run.sha Run.Marshal true Run.now (Run.asked "DELETE") t1 in
  ok1 = false ∧ ok2 = true ∧ VerifyChain Run.sha Run.Unmarshal t2 = Err 1%nat.
Proof. vm_compute. by split_and!. Qed.
